(* ===== verification/_CoqProject ===== *)
-Q . S2P
Prelude.v
JsString.v
JsValue.v
Numbers.v
JsMonad.v
DeepEqual.v
Wordcut.v
PathPosix.v
BraceExpansion.v
Literals.v
Templates.v
Underscore.v
UnderscoreArrays.v
UnderscoreFacts.v
UnderscoreSets.v
UnderscoreObjects.v
UnderscoreUtils.v
UnderscoreFunctions.v
HeapTypes.v
Wrappers.v
Inspect.v
InspectReads.v
Minimatch.v
Glob.v
GlobFacts.v
Inflight.v
AsyncGlob.v
AsyncGlobInv.v
AsyncGlobFacts.v
AsyncGlobRuns.v
TinySeg.v
NextTick.v
Events.v
Timing.v
GoLang.v
Config.v
Effects.v
Pool.v
Store.v
Users.v
Security.v
ConfigStore.v
Runner.v
ConfigFacts.v
Policy.v
VaultParser.v
VaultClient.v
Sha256.v
Engine.v
EngineFacts.v
Auth.v
Routes.v
AuthFacts.v
