(* ===== verification/Prelude.v ===== *)
(** * vaults-syncer: a verification library

    [vaults-syncer] is a daemon that copies secrets between vaults.  Its Go
    packages read a configuration, build a backend per vault, run syncs, and
    keep what they did in a database; its documentation site ships the text
    segmenters of its search, one of them a bundle of JavaScript modules
    ([src/site/assets/javascripts/lunr/wordcut.js]).  This library models both:
    the part of the Go program that decides what is written where, and the
    modules of the bundle that compute rather than talk to the browser.

    ** The files

    Shared:
    - [Prelude]: notations, tactics, hint databases, generic lemmas.
    - [JsString]: JavaScript strings as lists of 16-bit code units.
    - [GoLang]: Go strings as bytes, errors, 64-bit wrap-around, base64.
    - [JsValue]: JavaScript values, numbers at binary64, objects in a heap;
      [Numbers]: the integers that binary64 holds exactly, and rounding.
    - [JsMonad]: code that reads and writes the heap, calls functions it is
      given and throws; [engine] is what the language has beside the heap.
    - [Effects]: effectful Go code as trees of calls, their interpretation,
      and a rely-guarantee judgement for code other goroutines interleave with.
    - [Pool]: goroutines behind a counting semaphore, under any schedule.

    The daemon:
    - [Config]: [config/types.go], [config/defaults.go], [config/validate.go].
    - [Store]: [storage/store.go], [storage/db.go],
      [storage/settings_store.go]; a SQL statement of the source is one atomic
      call on the tables it describes.
    - [Policy]: the pure helpers of [sync/engine.go] (filters, transforms,
      retries); [Sha256]: [hashString].
    - [Engine]: the rest of [sync/engine.go].  [VaultOps] and [VaultLaws] are
      the interface [vault.Backend] and what the engine relies on of it;
      [EngineFacts] proves the theorems against that interface, and the memory
      backend of [Engine] is an instance of it.

    - [Users]: [storage/user_store.go] over the tables of [migrateUsers].
    - [Auth]: [auth/service.go], [auth/middleware.go] and the handlers of
      log-in, users and first-run setup in [api/]; [Routes]: the muxes of
      [main.go], which mount them; [AuthFacts]: their theorems.
    - [Security]: [security/], the encryptor as an interface and AES-GCM as
      its instance, and the master key of [main.go]; [ConfigStore]:
      [storage/config_store.go] and [api/handler_config.go], over that
      interface and one of JSON; [ConfigFacts]: their theorems.
    - [VaultParser], [VaultClient]: [vault/parser.go] and [vault/client.go], a
      client as a program over HTTP calls, against any server; a server of
      documents shows what it comes to.
    - [Runner]: [sync/runner.go] over an interface of the cron library, and the
      start and reloads of [main.go]; its jobs are executions of [Engine], and
      [ConfigFacts] joins it to the configuration that is stored.

    The bundle and its neighbour:
    - [Wordcut]: the Thai word segmenter (acceptors, dictionary, rules, path
      selection); [TinySeg]: [tinyseg.js], the Japanese one.
    - [PathPosix], [BraceExpansion], [Minimatch]: paths, brace expansion and
      glob matching; [Minimatch] calls [BraceExpansion].
    - [Glob]: the synchronous file walker, its settings and its caches, over
      an abstract file system; [GlobFacts]: its theorems.
    - [Inflight]: the table of requests under way; [AsyncGlob]: the asynchronous
      walker, which shares the files and settings of [Glob].  A run is a
      sequence of steps: a task (a call the code makes next) or an answer of
      the file system, in any order.  [AsyncGlobInv]: what all states reached
      have in common; [AsyncGlobFacts]: each task keeps it and makes progress;
      [AsyncGlobRuns]: the theorems.
    - [DeepEqual]: [_.isEqual] and the [assert] module.
    - [Underscore], [UnderscoreArrays], [UnderscoreUtils]: the collections,
      arrays, objects and utilities of underscore, a definition per function;
      [UnderscoreFacts]: they are functions on lists, sorting and searching;
      [UnderscoreSets]: sets and shuffling; [UnderscoreObjects]: copying;
      [HeapTypes]: types of the heap.
    - [UnderscoreFunctions]: partial application, composition, [_.memoize],
      [wrappy] and small parts of [util] over the heap; [Wrappers]: [_.before],
      [_.after], [_.once] and the [once] module, as closures.
    - [Literals]: string literals, read and written; [Templates]: [_.escape],
      [_.unescape], [_.template].
    - [Inspect]: [util.inspect], [util.format] and what goes with them;
      [InspectReads]: a reader of JavaScript data, and that it reads them.
    - [Timing]: [_.throttle] and [_.debounce], with a clock and a timer.
    - [NextTick]: the queue of the process shim, as a step relation.
    - [Events]: [EventEmitter], with listeners that call the emitter again.

    ** How state and operations correspond to the code

    A Go function that reaches a vault, the database, the clock or sleeps is a
    [prog], with one [Call] per call of the source in its order; the handlers
    [store_handle] and [engine_handle] thread the tables and the vaults.  A run
    ([ExecuteSync]) is its start, any interleaving of its goroutines call by
    call, and its end.  JavaScript objects with an identity that matters (the
    listener arrays of [Events], the [merge] marks of a path in [Wordcut]) are
    explicit state; the others are records.  The order of rows
    that an ORDER BY leaves open, and [Array.prototype.sort], are classes with
    laws; the instances serve the examples.  A Go error is its message, a
    JavaScript exception is [None] or a constructor of the outcome.

    ** What the theorems show

    - The engine: what a unidirectional and a bidirectional run leave in the
      vaults and in the run table, whatever the schedule and the failures; that
      every run ends with at most the configured number of goroutines at work;
      that a valid configuration cannot make it index an empty target list;
      what is recorded for a secret; which side wins a conflict (it alternates,
      so that a change of the source alone can be undone).
    - The store: upserts under any interleaving of their statements (one row
      per sync object, with an object submitted for it), the effect of one
      upsert on every branch, settings read back, the latest runs first, and
      what a driver with other placeholders makes of it.
    - The runner: whatever sequence of reloads, the runner in use holds exactly
      the jobs of the last configuration that could be put in use, and all
      others are stopped; what a request can see in the middle of a reload.
    - The configuration: the endpoints over the two tables, with encryption and
      JSON between, are a registry of configurations; decryption undoes
      encryption, and a master key reads back.
    - The client of a vault: escaping keeps names apart, what is set is read
      back (if it is under a member that the parser looks for), a token in use has not expired.
    - The policies: which names a filter keeps, when transforms undo each
      other, how often and after which pauses a call is retried.
    - The segmenters: no text is lost or makes them fail; the dictionary
      acceptor is prefix search by binary search.
    - Users: the tables keep unique names and live sessions and hashes of long
      passwords under any interleaving; who passes the middleware, on every
      route; how long a session lasts; that deletion leaves an administrator
      and setup runs once, when nobody interferes (and what happens when
      somebody does).
    - Paths, braces, globs: normalisation is a fixed point, [relative] inverts
      [resolve], balanced pairs are balanced, sequences and option sets expand
      as they should (and a zero increment never ends), [matchOne] decides the
      meaning of a pattern, [parse] ends; the walker finds the files that the
      pattern matches, its caches change no answer (with the root at its
      default), and it ends on every tree;
      the asynchronous walker, in its plain use, ends too and finds the same
      files, in whatever order the file system answers.
    - Deep equality: [isEqual] ends on cyclic structures and is equality of
      the unfolded values, [assert.deepEqual] is structural equality and ends
      on values without cycles.
    - Underscore: [map], [filter], [reduce] and the others are the functions on
      lists of that name; the set operations are those of sets; [sortBy] is a
      stable sort by the criteria, whatever sort the language has, [sortedIndex]
      a binary search; [shuffle] is fair (each order comes from one sequence of draws); [extend] and the
      others override, [clone] copies; whatever the callbacks do, no reference
      dangles and no object changes its class; a memoized function is the
      function, [before] bounds its runs, both [once] are the same; [unescape]
      undoes [escape], and the literals of a template read back.
    - [util.inspect] ends on every heap, and what it prints of plain data reads
      back as the data.
    - Timers: a throttled function runs at most once per period and a
      debounced one only after a silence; neither loses the last call.
    - The queue and the emitter: items run once each in the order submitted
      although items throw; a [once] listener runs at most once although
      listeners emit and remove re-entrantly.

    ** Bounds and fuel

    Fuel stands for a bound the code has of itself: the length of an interval
    in [dictSeek], the attempts of [withRetry], the length of the input in the
    scanners; each file says why it is enough, and totality is part of the
    theorems.  Where the code may not end, more fuel is a theorem's variable:
    [expand] has no result for any fuel on a zero increment, and [emit]
    carries the depth of nested emissions, as [throttled] and [debounced] do
    of nested calls; [isEqual] goes no deeper than the heap has objects and
    two more, [util.inspect] than it has objects and one more; the wrappers of
    [Wrappers] nest as often as they may run.  Go integers that can overflow wrap
    ([wrap64]), but for the attempts of [withRetry]: with [MaxRetries] at the
    greatest int its loop has no end, which the model leaves out; [float64] is binary64.

    ** What is not modelled

    HTTP and process I/O (the transport, tool backends, the listening server),
    third-party libraries (SQL drivers, YAML, AES, scrypt, cron), log lines,
    and the regular-expression engine, which [Minimatch] takes as a parameter.
    Of the Go program also the configuration files (which the daemon does not
    read) and the runtime endpoints: they are around those libraries.  Of
    the bundle: the wrapper object of underscore ([chain], [mixin]), [bindAll],
    [delay] and [inherits] (they make function objects, or properties that are
    not enumerable, which the heap does not hold), [util.debuglog], accessors,
    symbols, proxies and arrays with holes, and lengths that are not whole
    numbers. *)

From Stdlib Require Export ZArith Lia.
From stdpp Require Export sorting option numbers strings gmap.
From stdpp Require Export base list.

Declare Scope syncer_scope.
Delimit Scope syncer_scope with syncer.
Create HintDb syncer.
Create Rewrite HintDb syncer_simpl.

(** ** Automation *)

(** Split every boolean and propositional conjunction of the context and turn
    boolean tests into their propositional readings. *)
Ltac bool_clean :=
  repeat match goal with
  | H : andb _ _ = true |- _ => apply andb_true_iff in H as [? ?]
  | H : orb _ _ = false |- _ => apply orb_false_iff in H as [? ?]
  | H : negb _ = true |- _ => apply negb_true_iff in H
  | H : negb _ = false |- _ => apply negb_false_iff in H
  | H : bool_decide _ = true |- _ => apply bool_decide_eq_true in H
  | H : bool_decide _ = false |- _ => apply bool_decide_eq_false in H
  | H : Nat.eqb _ _ = true |- _ => apply Nat.eqb_eq in H
  | H : Nat.eqb _ _ = false |- _ => apply Nat.eqb_neq in H
  | H : Nat.leb _ _ = true |- _ => apply Nat.leb_le in H
  | H : Nat.leb _ _ = false |- _ => apply Nat.leb_gt in H
  | H : Nat.ltb _ _ = true |- _ => apply Nat.ltb_lt in H
  | H : Nat.ltb _ _ = false |- _ => apply Nat.ltb_ge in H
  | H : Z.eqb _ _ = true |- _ => apply Z.eqb_eq in H
  | H : Z.eqb _ _ = false |- _ => apply Z.eqb_neq in H
  | H : Z.leb _ _ = true |- _ => apply Z.leb_le in H
  | H : Z.leb _ _ = false |- _ => apply Z.leb_gt in H
  | H : Z.ltb _ _ = true |- _ => apply Z.ltb_lt in H
  | H : Z.ltb _ _ = false |- _ => apply Z.ltb_ge in H
  | H : N.eqb _ _ = true |- _ => apply N.eqb_eq in H
  | H : N.eqb _ _ = false |- _ => apply N.eqb_neq in H
  | H : N.leb _ _ = true |- _ => apply N.leb_le in H
  | H : N.leb _ _ = false |- _ => apply N.leb_gt in H
  | H : N.ltb _ _ = true |- _ => apply N.ltb_lt in H
  | H : N.ltb _ _ = false |- _ => apply N.ltb_ge in H
  end.

(** Case on every [if] and [match] the goal is stuck on, tidying up. *)
Ltac go_cases :=
  repeat (case_match; simplify_eq/=; try done).

(** ** Lists *)

Section lists.
Context {A : Type}.
Implicit Types (l k : list A) (P : A → Prop).

(** The last index a predicate holds at or below [n]. *)
Lemma lookup_snoc_eq l x : (l ++ [x]) !! length l = Some x.
Proof. by rewrite lookup_app_r, Nat.sub_diag by lia. Qed.

Lemma lookup_snoc_lt l x i : i < length l → (l ++ [x]) !! i = l !! i.
Proof. intros. by rewrite lookup_app_l. Qed.

Lemma lookup_snoc_inv l x i y :
  (l ++ [x]) !! i = Some y →
  (i < length l ∧ l !! i = Some y) ∨ (i = length l ∧ x = y).
Proof.
  intros H. destruct (decide (i < length l)) as [Hi|Hi].
  - left. by rewrite lookup_snoc_lt in H.
  - right. pose proof (lookup_lt_Some _ _ _ H) as Hlt.
    rewrite length_app in Hlt; simpl in Hlt.
    assert (i = length l) as -> by lia.
    rewrite lookup_snoc_eq in H. by simplify_eq.
Qed.

(** In a strongly sorted list, earlier elements are related to later ones. *)
Lemma StronglySorted_lookup (R : relation A) l i j x y :
  StronglySorted R l → l !! i = Some x → l !! j = Some y → i < j → R x y.
Proof.
  intros Hs. revert i j. induction Hs as [|z l Hs IH Hall]; intros i j Hi Hj Hij;
    [done|].
  destruct j as [|j]; [lia|]. destruct i as [|i]; simplify_eq/=.
  - rewrite Forall_forall in Hall. apply Hall. by eapply list_elem_of_lookup_2.
  - by apply (IH i j); [..|lia].
Qed.
End lists.
