(* ===== verification/JsString.v ===== *)
(** * Strings of the JavaScript code

    A JavaScript string is a sequence of 16-bit code units; [jstr] is the list
    of their values.  [u] reads a UTF-8 literal of this development as the
    code units JavaScript gives it, so that literals read as in the source. *)

From S2P Require Import Prelude.

Abbreviation jstr := (list N).

(** UTF-8 bytes to UTF-16 code units. *)
Fixpoint u (s : string) : jstr :=
  match s with
  | EmptyString => []
  | String a s1 =>
      let b := Ascii.N_of_ascii a in
      if (b <? 128)%N then b :: u s1
      else match s1 with
           | EmptyString => []
           | String a2 s2 =>
               let b2 := Ascii.N_of_ascii a2 in
               if (b <? 224)%N
               then ((b - 192) * 64 + (b2 - 128))%N :: u s2
               else match s2 with
                    | EmptyString => []
                    | String a3 s3 =>
                        let b3 := Ascii.N_of_ascii a3 in
                        ((b - 224) * 4096 + (b2 - 128) * 64 + (b3 - 128))%N
                          :: u s3
                    end
           end
  end.

Definition unit_of (a : Ascii.ascii) : N := Ascii.N_of_ascii a.

(** [str.split(c)] for a one-unit separator: always at least one part. *)
Fixpoint split_on (c : N) (s : jstr) : list jstr :=
  match s with
  | [] => [[]]
  | x :: s' =>
      if (x =? c)%N then [] :: split_on c s'
      else match split_on c s' with
           | [] => [[x]]
           | p :: ps => (x :: p) :: ps
           end
  end.

(** [parts.join(sep)]. *)
Fixpoint join (sep : jstr) (parts : list jstr) : jstr :=
  match parts with
  | [] => []
  | [p] => p
  | p :: ps => p ++ sep ++ join sep ps
  end.

(** [str.substring(s, e)] for [s <= e] within the string, which is how the
    modelled code calls it. *)
Definition substring (t : jstr) (s e : nat) : jstr := take (e - s) (drop s t).

Lemma split_on_nonempty c s : split_on c s ≠ [].
Proof. destruct s; simpl; repeat case_match; done. Qed.

(** Splitting and joining with the same separator gives the string back. *)
Lemma join_split_on c s : join [c] (split_on c s) = s.
Proof.
  induction s as [|x s IH]; [done|]; simpl.
  destruct (N.eqb_spec x c) as [->|].
  - destruct (split_on c s) eqn:E; [by apply split_on_nonempty in E|].
    simpl in *. by rewrite IH.
  - destruct (split_on c s) as [|p [|q ps]] eqn:E; simpl in *;
      [by apply split_on_nonempty in E| |]; by rewrite <-IH.
Qed.

Lemma split_on_no_sep c s : c ∉ s → split_on c s = [s].
Proof.
  induction s as [|x s IH]; intros Hs; [done|]; simpl.
  rewrite (proj2 (N.eqb_neq x c)) by set_solver.
  by rewrite IH by set_solver.
Qed.

Lemma split_on_app c p s : c ∉ p → split_on c (p ++ c :: s) = p :: split_on c s.
Proof.
  induction p as [|x p IH]; intros Hp; simpl.
  - by rewrite N.eqb_refl.
  - rewrite (proj2 (N.eqb_neq x c)) by set_solver.
    by rewrite IH by set_solver.
Qed.

(** Joining and splitting gives the parts back when no part holds the
    separator. *)
Lemma split_on_join c ps :
  ps ≠ [] → Forall (λ p, c ∉ p) ps → split_on c (join [c] ps) = ps.
Proof.
  induction ps as [|p [|q ps] IH]; intros Hne Hall; [done| |].
  - simpl. apply split_on_no_sep. by inversion Hall.
  - inversion Hall as [|?? Hp Hps]; subst.
    change (join [c] (p :: q :: ps)) with (p ++ c :: join [c] (q :: ps)).
    rewrite split_on_app by done. f_equal. by apply IH.
Qed.

Lemma split_on_parts c s : Forall (λ p, c ∉ p) (split_on c s).
Proof.
  induction s as [|x s IH]; simpl.
  - constructor; [set_solver|constructor].
  - destruct (N.eqb_spec x c) as [->|Hx].
    + constructor; [set_solver|done].
    + destruct (split_on c s) as [|p ps].
      * constructor; [set_solver|constructor].
      * inversion IH; subst. constructor; [set_solver|done].
Qed.

#[export] Hint Rewrite join_split_on : syncer_simpl.
#[export] Hint Resolve split_on_nonempty split_on_parts : syncer.

(** ** The order of [Array.prototype.sort] and of [<] on strings *)

Fixpoint jstr_leb (a b : jstr) : bool :=
  match a, b with
  | [], _ => true
  | _ :: _, [] => false
  | x :: a', y :: b' => ((x <? y) || ((x =? y) && jstr_leb a' b'))%N
  end.

Definition jstr_le (a b : jstr) : Prop := jstr_leb a b = true.

#[export] Instance jstr_le_dec : RelDecision jstr_le.
Proof. intros a b. unfold jstr_le. apply _. Defined.

Definition jstr_lt (a b : jstr) : Prop := jstr_le a b ∧ a ≠ b.

Lemma jstr_le_cons x y a b :
  jstr_le (x :: a) (y :: b) ↔ (x < y)%N ∨ (x = y ∧ jstr_le a b).
Proof.
  unfold jstr_le; simpl.
  rewrite orb_true_iff, andb_true_iff, N.ltb_lt, N.eqb_eq. done.
Qed.

#[export] Instance jstr_le_total : Total jstr_le.
Proof.
  intros a. induction a as [|x a IH]; intros [|y b]; [by left..|by right|].
  rewrite !jstr_le_cons. destruct (N.lt_total x y) as [?|[->|?]]; [auto| |auto].
  destruct (IH b); auto.
Qed.

#[export] Instance jstr_le_trans : Transitive jstr_le.
Proof.
  intros a b c. revert b c.
  induction a as [|x a IH]; intros [|y b] [|z c]; try done.
  rewrite !jstr_le_cons. intros [?|[-> ?]] [?|[-> ?]]; [left; lia..|].
  right. split; [done|]. by apply (IH b).
Qed.

#[export] Instance jstr_le_antisymm : AntiSymm (=) jstr_le.
Proof.
  intros a. induction a as [|x a IH]; intros [|y b]; try done.
  rewrite !jstr_le_cons. intros [?|[-> ?]] [?|[? ?]]; try lia.
  by rewrite (IH b).
Qed.

#[export] Instance jstr_le_refl : Reflexive jstr_le.
Proof. intros a. by destruct (total jstr_le a a). Qed.

(** [arr.sort()] with the default comparison. *)
Definition js_sort (a : list jstr) : list jstr := merge_sort jstr_le a.

(** A common prefix does not count in the order. *)
Lemma jstr_le_app s a b : jstr_le (s ++ a) (s ++ b) ↔ jstr_le a b.
Proof.
  induction s as [|x s IH]; simpl; [done|]. rewrite jstr_le_cons, IH.
  split; [intros [?|[_ ?]]; [lia|done]|auto].
Qed.

Lemma jstr_le_nil_r a : jstr_le a [] → a = [].
Proof. by destruct a. Qed.

(** ** Substrings *)

Lemma length_substring t q e : e ≤ length t → length (substring t q e) = e - q.
Proof. intros. unfold substring. rewrite length_take, length_drop. lia. Qed.

Lemma substring_snoc t q e c :
  q ≤ e → t !! e = Some c → substring t q (S e) = substring t q e ++ [c].
Proof.
  intros Hq Hc. unfold substring. replace (S e - q) with (S (e - q)) by lia.
  apply take_S_r. rewrite lookup_drop. by replace (q + (e - q)) with e by lia.
Qed.

Lemma substring_app t a b c :
  a ≤ b → b ≤ c → substring t a b ++ substring t b c = substring t a c.
Proof.
  intros. unfold substring.
  replace (drop b t) with (drop (b - a) (drop a t)) by (rewrite drop_drop; f_equal; lia).
  replace (c - a) with ((b - a) + (c - b)) by lia.
  by rewrite take_take_drop.
Qed.

Lemma substring_full t : substring t 0 (length t) = t.
Proof. unfold substring. rewrite drop_0, Nat.sub_0_r. by apply firstn_all. Qed.

Lemma substring_nonempty t a b :
  a < b → b ≤ length t → substring t a b ≠ [].
Proof.
  intros ?? H. apply (f_equal length) in H.
  rewrite length_substring in H by done. simpl in H. lia.
Qed.

(** ** Searching and splitting at a string *)

(** [s.startsWith(pat)]. *)
Fixpoint starts_with (pat s : jstr) : bool :=
  match pat, s with
  | [], _ => true
  | x :: pat', y :: s' => (x =? y)%N && starts_with pat' s'
  | _ :: _, [] => false
  end.

(** [str.indexOf(c, from)] of a unit, -1 when there is none. *)
Fixpoint index_from (c : N) (s : jstr) (k : Z) : Z :=
  match s with
  | [] => (-1)%Z
  | x :: s' => if (x =? c)%N then k else index_from c s' (k + 1)
  end.
Definition indexOf (s : jstr) (c : N) (from : Z) : Z :=
  index_from c (drop (Z.to_nat from) s) (Z.max from 0).

(** [str.split(pat).join(sep)] for a non-empty [pat]: every occurrence from
    the left is replaced.  One unit of fuel per unit of the string. *)
Fixpoint replace_all_fuel (fuel : nat) (pat sep s : jstr) : jstr :=
  match fuel with
  | 0 => s
  | S fuel =>
      match s with
      | [] => []
      | c :: s' =>
          if starts_with pat s then sep ++ replace_all_fuel fuel pat sep (drop (length pat) s)
          else c :: replace_all_fuel fuel pat sep s'
      end
  end.
Definition replace_all (pat sep s : jstr) : jstr :=
  replace_all_fuel (length s) pat sep s.

Lemma starts_with_app pat s : starts_with pat (pat ++ s) = true.
Proof. induction pat; simpl; [done|]. by rewrite N.eqb_refl. Qed.

(** A string without the first unit of [pat] has no occurrence of it. *)
Lemma replace_all_absent c pat sep s : c ∉ s → replace_all (c :: pat) sep s = s.
Proof.
  unfold replace_all. generalize (length s) as fuel. intros fuel. revert s.
  induction fuel as [|fuel IH]; intros [|x s] Hs; [done..|].
  cbn [replace_all_fuel starts_with].
  rewrite (proj2 (N.eqb_neq c x)) by set_solver. simpl.
  by rewrite IH by set_solver.
Qed.

Lemma index_from_absent c s k : c ∉ s → index_from c s k = (-1)%Z.
Proof.
  revert k. induction s as [|x s IH]; intros k Hs; [done|]; simpl.
  rewrite (proj2 (N.eqb_neq x c)) by set_solver. apply IH. set_solver.
Qed.

Lemma index_from_app c a b k :
  c ∉ a → index_from c (a ++ c :: b) k = (k + Z.of_nat (length a))%Z.
Proof.
  revert k. induction a as [|x a IH]; intros k Ha; simpl.
  - rewrite N.eqb_refl. lia.
  - rewrite (proj2 (N.eqb_neq x c)) by set_solver. rewrite IH by set_solver. lia.
Qed.

(** ** Decimal numbers *)

Definition is_digit_unit (c : N) : bool := ((48 <=? c) && (c <=? 57))%N.

(** The value of a run of decimal digits. *)
Definition digits_value (s : jstr) : Z :=
  foldl (λ v c, (v * 10 + (Z.of_N c - 48))%Z) 0%Z s.

(** [String(n)] of a natural number; fuel bounds the digits. *)
Fixpoint digits_of (fuel : nat) (n : Z) : jstr :=
  match fuel with
  | 0 => []
  | S fuel =>
      if (n <? 10)%Z then [Z.to_N (n + 48)]
      else digits_of fuel (n / 10) ++ [Z.to_N (n mod 10 + 48)]
  end.
Definition string_of_Z (n : Z) : jstr :=
  let a := Z.abs n in
  let d := digits_of (S (Z.to_nat (Z.log2 a))) a in
  if (n <? 0)%Z then u "-" ++ d else d.

Lemma substring_app_head t q e c :
  q < e → t !! q = Some c → substring t q e = c :: substring t (S q) e.
Proof.
  intros Hq Hc. rewrite <-(substring_app t q (S q) e) by lia.
  rewrite (substring_snoc _ _ _ c) by done.
  unfold substring at 1. by rewrite Nat.sub_diag.
Qed.
