(* ===== verification/JsValue.v ===== *)
(** * JavaScript values and objects, as the bundled libraries read them

    A value is a primitive or a reference into a heap.  A number is a
    [spec_float] at binary64; the integers it stands for come from
    [num_of_Z].  An object has its [[Class]], its prototype, the primitive it
    wraps, the elements of an array (or arguments object, without holes) and
    its other own enumerable properties in the order [Object.keys] gives.
    Accessors and proxies are left out: reading has no effects.  What depends
    on user code (the primitive an object converts to) or on the number
    grammar (a string converted to a number) is a [runtime]. *)

From Stdlib Require Export SpecFloat.
From S2P Require Import Prelude JsString.

Inductive jsval :=
| Undef | Null | Bool (b : bool) | Num (n : spec_float) | Str (s : jstr) | Ref (l : nat).

#[export] Instance spec_float_eq_dec : EqDecision spec_float.
Proof. solve_decision. Defined.
#[export] Instance jsval_eq_dec : EqDecision jsval.
Proof. solve_decision. Defined.

(** ** Numbers *)

Definition num_of_Z (z : Z) : spec_float := binary_normalize 53 1024 z 0 false.
Definition is_nan (n : spec_float) : bool := match n with S754_nan => true | _ => false end.

(** The integer a number is, if it is one. *)
Definition Z_of_num (n : spec_float) : option Z :=
  match n with
  | S754_zero _ => Some 0%Z
  | S754_finite s m e =>
      let v := if s then Z.neg m else Z.pos m in
      if (0 <=? e)%Z then Some (v * 2 ^ e)%Z
      else if (v mod 2 ^ (- e) =? 0)%Z then Some (v / 2 ^ (- e))%Z else None
  | _ => None
  end.

(** The index [String(i)] of a number [i]. *)
Definition index_key (i : nat) : jstr := string_of_Z (Z.of_nat i).

(** ** Objects *)

Record object := {
  o_class : string; o_proto : option nat; o_prim : option jsval;
  o_elems : list jsval; o_props : list (jstr * jsval) }.

Abbreviation heap := (list object).

(** ** Operators *)

(** [===]. *)
Definition strict_eq (a b : jsval) : bool :=
  match a, b with
  | Undef, Undef | Null, Null => true
  | Bool a, Bool b => Bool.eqb a b
  | Num a, Num b => SFeqb a b
  | Str a, Str b => bool_decide (a = b)
  | Ref a, Ref b => Nat.eqb a b
  | _, _ => false
  end.

(** [v == null]. *)
Definition nullish (v : jsval) : bool := match v with Undef | Null => true | _ => false end.

Definition truthy (v : jsval) : bool :=
  match v with
  | Undef | Null => false
  | Bool b => b
  | Num n => match n with S754_nan | S754_zero _ => false | _ => true end
  | Str s => negb (bool_decide (s = []))
  | Ref _ => true
  end.

(** Only [NaN] differs from itself. *)
Lemma strict_eq_refl v : strict_eq v v = match v with Num n => negb (is_nan n) | _ => true end.
Proof.
  destruct v as [| |b|n|s|l]; simpl; try done.
  - by destruct b.
  - unfold SFeqb. destruct n as [[]|[]| |[] m e]; simpl; try done;
      rewrite Z.compare_refl; [|by rewrite Pos.compare_refl].
    by rewrite Pos.compare_refl.
  - by apply bool_decide_eq_true_2.
  - apply Nat.eqb_refl.
Qed.

Record runtime := {
  ref_primitive : nat → jsval;       (* ToPrimitive of an object *)
  string_number : jstr → spec_float }. (* ToNumber of a string *)

Definition to_primitive (rt : runtime) (v : jsval) : jsval :=
  match v with Ref l => ref_primitive rt l | _ => v end.

(** ToNumber of a primitive; no object converts to another. *)
Definition to_number (rt : runtime) (v : jsval) : spec_float :=
  match v with
  | Undef | Ref _ => S754_nan
  | Null => S754_zero false
  | Bool b => if b then num_of_Z 1 else S754_zero false
  | Num n => n
  | Str s => string_number rt s
  end.

Definition jstr_ltb (a b : jstr) : bool := negb (jstr_leb b a).

(** [a < b]. *)
Definition js_lt (rt : runtime) (a b : jsval) : bool :=
  match to_primitive rt a, to_primitive rt b with
  | Str s, Str t => jstr_ltb s t
  | a, b => SFltb (to_number rt a) (to_number rt b)
  end.

Lemma jstr_ltb_lt a b : jstr_ltb a b = true ↔ jstr_lt a b.
Proof.
  unfold jstr_ltb, jstr_lt. rewrite negb_true_iff. split.
  - intros Hb. assert (Ha : jstr_le a b).
    { destruct (total jstr_le a b) as [?|H]; [done|]. unfold jstr_le in H. congruence. }
    split; [done|]. intros ->. unfold jstr_le in Ha. congruence.
  - intros [Hab Hne]. destruct (jstr_leb b a) eqn:Hba; [|done].
    destruct Hne. by apply (anti_symm jstr_le).
Qed.

(** ** Reading the heap *)

Section heap.
Variable h : heap.

Definition class_of (v : jsval) : string :=
  match v with
  | Undef => "Undefined" | Null => "Null" | Bool _ => "Boolean" | Num _ => "Number"
  | Str _ => "String"
  | Ref l => match h !! l with Some o => o_class o | None => "Object" end
  end.

Definition is_array (v : jsval) : bool :=
  match v with Ref _ => bool_decide (class_of v = "Array") | _ => false end.
Definition is_arguments (v : jsval) : bool :=
  match v with Ref _ => bool_decide (class_of v = "Arguments") | _ => false end.
Definition is_function (v : jsval) : bool :=
  match v with Ref _ => bool_decide (class_of v = "Function") | _ => false end.
Definition is_object (v : jsval) : bool := match v with Ref _ => true | _ => false end.

(** The elements of an array or of an arguments object. *)
Definition elems_of (v : jsval) : list jsval :=
  match v with
  | Ref l => match h !! l with Some o => o_elems o | None => [] end
  | _ => []
  end.

Fixpoint assoc (k : jstr) (l : list (jstr * jsval)) : option jsval :=
  match l with
  | [] => None
  | (k', v) :: l => if bool_decide (k' = k) then Some v else assoc k l
  end.

(** The own enumerable properties, in order. *)
Definition entries (o : object) : list (jstr * jsval) :=
  zip (map index_key (seq 0 (length (o_elems o)))) (o_elems o) ++ o_props o.

(** An own property; the length of an array is not enumerable. *)
Definition own_get (o : object) (k : jstr) : option jsval :=
  match assoc k (entries o) with
  | Some v => Some v
  | None =>
      if bool_decide (k = u "length") && bool_decide (o_class o ∈ ["Array"; "Arguments"])
      then Some (Num (num_of_Z (Z.of_nat (length (o_elems o)))))
      else None
  end.

(** [o[k]] with the prototype chain, which no heap makes longer than itself. *)
Fixpoint get_chain (fuel : nat) (l : nat) (k : jstr) : option jsval :=
  match fuel with
  | 0 => None
  | S fuel =>
      match h !! l with
      | None => None
      | Some o =>
          match own_get o k with
          | Some v => Some v
          | None => match o_proto o with Some p => get_chain fuel p k | None => None end
          end
      end
  end.
Definition get (l : nat) (k : jstr) : jsval := default Undef (get_chain (S (length h)) l k).

(** [Object.keys] and [hasOwnProperty] of an object. *)
Definition keys (l : nat) : list jstr :=
  match h !! l with Some o => map fst (entries o) | None => [] end.
Definition has_own (l : nat) (k : jstr) : bool :=
  match h !! l with Some o => bool_decide (own_get o k ≠ None) | None => false end.

(** A property of any value; a primitive has none but a string its length. *)
Definition get_value (v : jsval) (k : jstr) : jsval :=
  match v with
  | Ref l => get l k
  | Str s => if bool_decide (k = u "length")
             then Num (num_of_Z (Z.of_nat (length s))) else Undef
  | _ => Undef
  end.

(** [l instanceof f] for a function whose prototype is [p]. *)
Fixpoint on_chain (fuel : nat) (l p : nat) : bool :=
  match fuel with
  | 0 => false
  | S fuel =>
      match h !! l with
      | Some o => match o_proto o with
                  | Some q => Nat.eqb q p || on_chain fuel q p
                  | None => false
                  end
      | None => false
      end
  end.
Definition has_proto (l p : nat) : bool := on_chain (S (length h)) l p.
End heap.

Lemma assoc_elem k l v : assoc k l = Some v → (k, v) ∈ l.
Proof.
  induction l as [|[k' w] l IH]; simpl; [done|]. case_bool_decide as Hk; intros H.
  - simplify_eq. by left.
  - right. auto.
Qed.

Lemma assoc_None k l : assoc k l = None ↔ k ∉ map fst l.
Proof.
  induction l as [|[k' w] l IH]; simpl; [by split; [intros _ ?%not_elem_of_nil|]|].
  rewrite not_elem_of_cons, <-IH. case_bool_decide; naive_solver.
Qed.
