(* ===== verification/Numbers.v ===== *)
(** * Whole numbers as binary64

    The numbers below 2^53 are exact: [num_of_Z] and [Z_of_num] go back and
    forth, and the order of the numbers is the order of the integers. *)

From S2P Require Import Prelude JsString JsValue.

#[local] Open Scope Z_scope.

Lemma digits_log2 p : Z.pos (digits2_pos p) = Z.log2 (Z.pos p) + 1.
Proof.
  induction p as [p IH|p IH|]; simpl digits2_pos; [| |done]; rewrite Pos2Z.inj_succ, IH.
  - rewrite (Pos2Z.inj_xI p), Z.log2_succ_double by done. lia.
  - rewrite (Pos2Z.inj_xO p), Z.log2_double by done. lia.
Qed.

Lemma iter_xO p n : Z.pos (Pos.iter xO p n) = Z.pos p * 2 ^ Z.pos n.
Proof.
  induction n as [|n IH] using Pos.peano_ind; [by rewrite (Z.mul_comm (Z.pos p))|].
  rewrite Pos.iter_succ, Pos2Z.inj_xO, IH, Pos2Z.inj_succ, Z.pow_succ_r by done. lia.
Qed.

(** The exponent of a whole number, and its mantissa. *)
Definition whole_exp (p : positive) : Z := Z.log2 (Z.pos p) - 52.
Definition whole_man (p : positive) : positive :=
  match - whole_exp p with Z.pos d => Pos.iter xO p d | _ => p end.

Definition small (p : positive) : Prop := Z.pos p < 2 ^ 53.

Lemma small_log2 p : small p → Z.log2 (Z.pos p) ≤ 52.
Proof.
  intros H. destruct (Z.log2_lt_pow2 (Z.pos p) 53) as [Hl _]; [done|]. specialize (Hl H). lia.
Qed.

Lemma whole_man_value p : small p → Z.pos (whole_man p) = Z.pos p * 2 ^ (- whole_exp p).
Proof.
  intros H%small_log2. unfold whole_man. destruct (- whole_exp p) as [|d|d] eqn:He.
  - by rewrite Z.mul_1_r.
  - apply iter_xO.
  - unfold whole_exp in He. lia.
Qed.

Lemma whole_man_log2 p : small p → Z.log2 (Z.pos (whole_man p)) = 52.
Proof.
  intros H. rewrite whole_man_value by done. pose proof (small_log2 p H).
  rewrite Z.log2_mul_pow2 by (unfold whole_exp; lia). unfold whole_exp. lia.
Qed.

Lemma fexp_whole p : small p → fexp 53 1024 (Z.log2 (Z.pos p) + 1) = whole_exp p.
Proof.
  intros H. pose proof (small_log2 p H). pose proof (Z.log2_nonneg (Z.pos p)).
  unfold fexp, emin, whole_exp. lia.
Qed.

Lemma shr_fexp_exact m e :
  Z.log2 (Z.pos m) = 52 → fexp 53 1024 (53 + e) = e →
  shr_fexp 53 1024 (Z.pos m) e loc_Exact = ({| shr_m := Z.pos m; shr_r := false; shr_s := false |}, e).
Proof.
  intros Hm He. unfold shr_fexp. cbn [Zdigits2]. rewrite digits_log2, Hm.
  change (52 + 1) with 53. rewrite He, Z.sub_diag. done.
Qed.

Lemma round_whole s p :
  small p → binary_round 53 1024 s p 0 = S754_finite s (whole_man p) (whole_exp p).
Proof.
  intros H. pose proof (small_log2 p H) as Hl. pose proof (Z.log2_nonneg (Z.pos p)) as H0.
  unfold binary_round. rewrite digits_log2, Z.add_0_r, fexp_whole by done.
  assert (shl_align p 0 (whole_exp p) = (whole_man p, whole_exp p)) as ->.
  { unfold shl_align, whole_man. rewrite Z.sub_0_r.
    destruct (whole_exp p) as [|d|d] eqn:He; [done| |done]. unfold whole_exp in He. lia. }
  assert (He : fexp 53 1024 (53 + whole_exp p) = whole_exp p).
  { rewrite <-(fexp_whole p) at 2 by done. f_equal. unfold whole_exp. lia. }
  unfold binary_round_aux. rewrite shr_fexp_exact by (by apply whole_man_log2 || done).
  cbn [shr_m loc_of_shr_record round_nearest_even].
  rewrite shr_fexp_exact by (by apply whole_man_log2 || done). cbn [shr_m].
  rewrite (proj2 (Z.leb_le _ _)) by (unfold whole_exp; lia). done.
Qed.

Lemma Z_of_whole s p :
  small p → Z_of_num (S754_finite s (whole_man p) (whole_exp p))
            = Some (if s then Z.neg p else Z.pos p).
Proof.
  intros H. pose proof (whole_man_value p H) as Hv. pose proof (small_log2 p H) as Hl.
  unfold Z_of_num. destruct (0 <=? whole_exp p) eqn:He; bool_clean.
  - assert (whole_exp p = 0) as E by (unfold whole_exp in *; lia). rewrite E in Hv |- *.
    rewrite Z.mul_1_r in *. injection Hv as ->. by destruct s.
  - assert (Hpow : 2 ^ (- whole_exp p) ≠ 0) by (apply Z.pow_nonzero; lia).
    change (Z.neg (whole_man p)) with (- Z.pos (whole_man p)). rewrite Hv.
    assert (∀ z, z * 2 ^ (- whole_exp p) mod 2 ^ (- whole_exp p) = 0 ∧
                 z * 2 ^ (- whole_exp p) / 2 ^ (- whole_exp p) = z) as Hz.
    { intros z. split; [by apply Z.mod_mul|by apply Z.div_mul]. }
    destruct s.
    + rewrite <-Z.mul_opp_l. destruct (Hz (- Z.pos p)) as [-> ->]. done.
    + destruct (Hz (Z.pos p)) as [-> ->]. done.
Qed.

Lemma num_of_Z_pos p :
  small p → num_of_Z (Z.pos p) = S754_finite false (whole_man p) (whole_exp p).
Proof. apply round_whole. Qed.
Lemma num_of_Z_neg p :
  small p → num_of_Z (Z.neg p) = S754_finite true (whole_man p) (whole_exp p).
Proof. apply round_whole. Qed.

Lemma Z_of_num_of_Z z : - 2 ^ 53 < z < 2 ^ 53 → Z_of_num (num_of_Z z) = Some z.
Proof.
  intros H. destruct z as [|p|p]; [done| |].
  - rewrite num_of_Z_pos by (unfold small; lia). apply Z_of_whole. unfold small; lia.
  - rewrite num_of_Z_neg by (unfold small; lia). apply Z_of_whole. unfold small; lia.
Qed.

Lemma compare_whole p q :
  small p → small q →
  SFcompare (num_of_Z (Z.pos p)) (num_of_Z (Z.pos q)) = Some (Pos.compare p q).
Proof.
  intros Hp Hq. rewrite !num_of_Z_pos by done. cbn [SFcompare]. f_equal.
  pose proof (whole_man_value p Hp) as Vp. pose proof (whole_man_value q Hq) as Vq.
  destruct (Z.compare_spec (whole_exp p) (whole_exp q)) as [He|He|He].
  - rewrite He in Vp. assert (Hpow : 0 < 2 ^ (- whole_exp q))
      by (apply Z.pow_pos_nonneg; pose proof (small_log2 q Hq); unfold whole_exp; lia).
    change (Pos.compare_cont Eq ?a ?b) with (Pos.compare a b).
    change (Pos.compare p q) with (Z.compare (Z.pos p) (Z.pos q)).
    change (Pos.compare (whole_man p) (whole_man q)) with
      (Z.compare (Z.pos (whole_man p)) (Z.pos (whole_man q))).
    rewrite Vp, Vq. symmetry. by apply Zmult_compare_compat_r, Z.lt_gt.
  - symmetry. apply Pos.compare_lt_iff. unfold whole_exp in He.
    destruct (Pos.lt_total p q) as [?|Hge]; [done|]. exfalso.
    pose proof (Z.log2_le_mono (Z.pos q) (Z.pos p)). lia.
  - symmetry. apply Pos.compare_gt_iff. unfold whole_exp in He.
    destruct (Pos.lt_total q p) as [?|Hge]; [done|]. exfalso.
    pose proof (Z.log2_le_mono (Z.pos p) (Z.pos q)). lia.
Qed.

Lemma compare_num_of_Z a b :
  0 ≤ a < 2 ^ 53 → 0 ≤ b < 2 ^ 53 →
  SFcompare (num_of_Z a) (num_of_Z b) = Some (a ?= b).
Proof.
  intros Ha Hb. destruct a as [|p|p], b as [|q|q]; try lia; [done| | |].
  - rewrite num_of_Z_pos by (unfold small; lia). done.
  - rewrite num_of_Z_pos by (unfold small; lia). done.
  - apply compare_whole; unfold small; lia.
Qed.

Lemma num_of_Z_inj a b :
  - 2 ^ 53 < a < 2 ^ 53 → - 2 ^ 53 < b < 2 ^ 53 → num_of_Z a = num_of_Z b → a = b.
Proof.
  intros Ha Hb H. apply (f_equal Z_of_num) in H. rewrite !Z_of_num_of_Z in H by done. congruence.
Qed.

Lemma SFltb_num a b :
  0 ≤ a < 2 ^ 53 → 0 ≤ b < 2 ^ 53 → SFltb (num_of_Z a) (num_of_Z b) = (a <? b).
Proof. intros Ha Hb. unfold SFltb, Z.ltb. rewrite compare_num_of_Z by done. by destruct (a ?= b). Qed.

Lemma SFleb_num a b :
  0 ≤ a < 2 ^ 53 → 0 ≤ b < 2 ^ 53 → SFleb (num_of_Z a) (num_of_Z b) = (a <=? b).
Proof. intros Ha Hb. unfold SFleb, Z.leb. rewrite compare_num_of_Z by done. by destruct (a ?= b). Qed.

(** ** Rounding *)

Lemma iter_pos_nat {A} (f : A → A) p x : iter_pos f p x = Nat.iter (Pos.to_nat p) f x.
Proof.
  assert (Hadd : ∀ n k y, Nat.iter (n + k) f y = Nat.iter n f (Nat.iter k f y)).
  { induction n as [|n IH]; intros k y; [done|]. simpl. by rewrite IH. }
  revert x. induction p as [p IH|p IH|]; intros x; cbn [iter_pos]; [| |done].
  - rewrite !IH, Pos2Nat.inj_xI. rewrite <-Nat.add_1_r, Hadd. cbn [Nat.iter Nat.mul].
    by rewrite Nat.add_0_r, Hadd.
  - rewrite !IH, Pos2Nat.inj_xO. cbn [Nat.mul]. by rewrite Nat.add_0_r, Hadd.
Qed.

(** Shifting right: the quotient, and whether the part cut off is at least a half. *)
Lemma shr_steps M n :
  0 ≤ M →
  let x := Nat.iter n shr_1 {| shr_m := M; shr_r := false; shr_s := false |} in
  shr_m x = M / 2 ^ Z.of_nat n ∧
  (shr_r x = true → 2 ^ Z.of_nat n ≤ 2 * (M mod 2 ^ Z.of_nat n)) ∧
  (M mod 2 ^ Z.of_nat n = 0 → shr_r x = false ∧ shr_s x = false).
Proof.
  intros HM. induction n as [|n IH]; [simpl; rewrite Z.div_1_r; done|].
  cbv zeta in *. cbn [Nat.iter nat_rect].
  change (nat_rect (λ _, shr_record) ?a (λ _, shr_1) n) with (Nat.iter n shr_1 a).
  destruct (Nat.iter n shr_1 _) as [m r s]. cbn [shr_m shr_r shr_s] in IH.
  destruct IH as (Hm&Hr&He).
  assert (Hpow : 0 < 2 ^ Z.of_nat n) by (apply Z.pow_pos_nonneg; lia).
  rewrite Nat2Z.inj_succ, Z.pow_succ_r by lia.
  rewrite (Z.mul_comm 2), Z.rem_mul_r, <-Z.div_div, <-Hm by lia.
  pose proof (Z.mod_pos_bound M (2 ^ Z.of_nat n)) as Hb. set (low := M mod 2 ^ Z.of_nat n) in *.
  assert (0 ≤ m) by (rewrite Hm; apply Z.div_pos; lia).
  assert (Hsplit : m = 2 * (m / 2) + m mod 2) by (apply Z.div_mod; lia).
  pose proof (Z.mod_pos_bound m 2 ltac:(lia)) as Hb2.
  assert (Hs : shr_1 {| shr_m := m; shr_r := r; shr_s := s |} =
    {| shr_m := m / 2; shr_r := bool_decide (m mod 2 = 1); shr_s := r || s |}).
  { rewrite <-Z.div2_div, Zmod_odd. destruct m as [|[p|p|]|p]; try done; lia. }
  rewrite Hs. cbn [shr_m shr_r shr_s]. split; [done|]. split.
  - intros H1%bool_decide_eq_true. rewrite H1. nia.
  - intros H0. assert (m mod 2 = 0 ∧ low = 0) as [-> Hlow] by nia.
    destruct (He Hlow) as [-> ->]. done.
Qed.

(** What [binary_round_aux] does with the first shift. *)
Lemma shr_rounds M n :
  0 ≤ M →
  let x := Nat.iter n shr_1 {| shr_m := M; shr_r := false; shr_s := false |} in
  let q := M / 2 ^ Z.of_nat n in
  let r := round_nearest_even (shr_m x) (loc_of_shr_record x) in
  (r = q ∨ r = q + 1 ∧ 2 ^ Z.of_nat n ≤ 2 * (M mod 2 ^ Z.of_nat n)) ∧
  (M mod 2 ^ Z.of_nat n = 0 → r = q).
Proof.
  intros HM x q r. destruct (shr_steps M n HM) as (Hm&Hr&He). fold x in Hm, Hr, He. unfold r.
  destruct x as [m r0 s]. cbn [shr_m shr_r shr_s] in *. fold q in Hm. subst m. split.
  - destruct r0; [|destruct s; by left]. specialize (Hr eq_refl).
    destruct s; cbn [loc_of_shr_record round_nearest_even]; [by right|].
    destruct (Z.even q); [by left|by right].
  - intros [-> ->]%He. done.
Qed.

Lemma shr_fexp_nat M e :
  ∃ n, shr_fexp 53 1024 M e loc_Exact =
    (Nat.iter n shr_1 {| shr_m := M; shr_r := false; shr_s := false |}, e + Z.of_nat n) ∧
  Z.of_nat n = Z.max 0 (fexp 53 1024 (Zdigits2 M + e) - e).
Proof.
  unfold shr_fexp. cbn [shr_record_of_loc]. set (d := fexp 53 1024 (Zdigits2 M + e) - e).
  destruct d as [|p|p] eqn:Hd.
  - exists 0%nat. rewrite Z.add_0_r. done.
  - exists (Pos.to_nat p). unfold shr. rewrite iter_pos_nat, positive_nat_Z. split; [done|lia].
  - exists 0%nat. rewrite Z.add_0_r. split; [done|lia].
Qed.

Lemma Zdigits2_pos M : 0 < M → Zdigits2 M = Z.log2 M + 1.
Proof. destruct M as [|p|p]; try lia. intros _. cbn [Zdigits2]. apply digits_log2. Qed.

(** The value of a rounded positive number, when the result does not overflow:
    a quotient or the integer after it, over the same power of two. *)
Lemma round_value M E :
  0 < M → Z.log2 M + E ≤ 53 →
  let E' := Z.max E (fexp 53 1024 (Z.log2 M + 1 + E)) in
  let k := E' - E in
  ∃ r, (r = M / 2 ^ k ∨ r = M / 2 ^ k + 1 ∧ 2 ^ k ≤ 2 * (M mod 2 ^ k)) ∧
    (M mod 2 ^ k = 0 → r = M / 2 ^ k) ∧ 0 ≤ r ≤ 2 ^ 53 ∧
    (if decide (r = 0) then binary_round_aux 53 1024 false M E loc_Exact = S754_zero false
     else ∃ m n, binary_round_aux 53 1024 false M E loc_Exact
                   = S754_finite false m (E' + Z.of_nat n) ∧
                 r = Z.pos m * 2 ^ Z.of_nat n ∧ (n = 0%nat ∨ n = 1%nat ∧ r = 2 ^ 53)).
Proof.
  intros HM Hov E' k. destruct (shr_fexp_nat M E) as (n1&H1&Hn1).
  rewrite Zdigits2_pos in Hn1 by done.
  assert (Hk : Z.of_nat n1 = k) by (unfold k, E'; lia).
  destruct (shr_rounds M n1 ltac:(lia)) as [Hr Hexact]. rewrite Hk in Hr, Hexact.
  set (x := Nat.iter n1 _ _) in *. set (r := round_nearest_even _ _) in *. exists r.
  assert (0 ≤ k) by lia. assert (Hpow : 0 < 2 ^ k) by (apply Z.pow_pos_nonneg; lia).
  assert (Hq : 0 ≤ M / 2 ^ k < 2 ^ 53).
  { split; [apply Z.div_pos; lia|]. apply Z.div_lt_upper_bound; [done|]. rewrite <-Z.pow_add_r by lia.
    assert (M < 2 ^ (Z.succ (Z.log2 M))) by (apply Z.log2_spec; lia).
    assert (2 ^ (Z.succ (Z.log2 M)) ≤ 2 ^ (k + 53))
      by (apply Z.pow_le_mono_r; [lia|]; unfold k, E', fexp; lia). lia. }
  split_and!; [done|done|lia|lia|].
  unfold binary_round_aux. rewrite H1, Hk. fold x. fold r.
  replace (E + k) with E' by (unfold k; lia).
  destruct (shr_fexp_nat r E') as (n2&H2&Hn2). rewrite H2.
  destruct (shr_steps r n2 ltac:(lia)) as (Hm&_&_).
  destruct (decide (r = 0)) as [Hr0|Hr0].
  { rewrite Hm, Hr0, Z.div_0_l; [done|]. apply Z.pow_nonzero; lia. }
  rewrite Zdigits2_pos in Hn2 by lia.
  assert (Hemin : -1074 ≤ E') by (unfold E', fexp, emin; lia).
  assert (Hn : (n2 = 0%nat) ∨ (n2 = 1%nat ∧ r = 2 ^ 53)).
  { destruct (decide (r = 2 ^ 53)) as [->|].
    - change (Z.log2 (2 ^ 53)) with 53 in Hn2. right. split; [|done]. unfold fexp, emin in Hn2. lia.
    - left. assert (Z.log2 r < 53) by (apply Z.log2_lt_pow2; lia). unfold fexp, emin in Hn2. lia. }
  assert (E' ≤ 53) by (unfold E', fexp, emin; pose proof (Z.log2_nonneg M); lia).
  assert (Hdiv : r = r / 2 ^ Z.of_nat n2 * 2 ^ Z.of_nat n2).
  { destruct Hn as [->|[-> ->]]; [|done]. change (2 ^ Z.of_nat 0) with 1. rewrite Z.div_1_r. lia. }
  rewrite Hm. destruct (r / 2 ^ Z.of_nat n2) as [|m|m]; [lia| |].
  - exists m, n2. rewrite (proj2 (Z.leb_le _ _)) by (destruct Hn as [->|[-> _]]; lia).
    done.
  - assert (0 < 2 ^ Z.of_nat n2) by (apply Z.pow_pos_nonneg; lia). lia.
Qed.

Lemma shl_align_value m e e' :
  e' ≤ e → Z.pos (fst (shl_align m e e')) = Z.pos m * 2 ^ (e - e').
Proof.
  intros He. unfold shl_align. destruct (e' - e) as [|d|d] eqn:Hd; [|lia|].
  - replace (e - e') with 0 by lia. cbn [fst]. lia.
  - cbn [fst]. rewrite iter_xO. do 2 f_equal. lia.
Qed.

(** A whole number over a power of two that is not below its exponent. *)
Lemma round_scaled t M ez :
  small t → ez ≤ whole_exp t → Z.pos M = Z.pos t * 2 ^ (- ez) →
  binary_round 53 1024 false M ez = num_of_Z (Z.pos t).
Proof.
  intros St Hez HM. pose proof (small_log2 t St) as Hl. pose proof (Z.log2_nonneg (Z.pos t)) as Hl0.
  assert (whole_exp t ≤ 0) by (unfold whole_exp; lia).
  rewrite num_of_Z_pos by done.
  assert (Hlog : Z.log2 (Z.pos M) = - ez + Z.log2 (Z.pos t)) by (rewrite HM, Z.log2_mul_pow2; lia).
  assert (Hexp : fexp 53 1024 (Z.log2 (Z.pos M) + 1 + ez) = whole_exp t).
  { rewrite Hlog, <-fexp_whole by done. f_equal. lia. }
  unfold binary_round. rewrite digits_log2, Hexp.
  assert (shl_align M ez (whole_exp t) = (M, ez)) as ->.
  { unfold shl_align. destruct (whole_exp t - ez) eqn:?; [done|done|lia]. }
  destruct (round_value (Z.pos M) ez) as (r&_&Hr&Hr0&Hres); [lia|lia|].
  rewrite Hexp, Z.max_r in Hr, Hres by done.
  assert (Hsplit : Z.pos M = Z.pos (whole_man t) * 2 ^ (whole_exp t - ez)).
  { rewrite HM, whole_man_value, <-Z.mul_assoc, <-Z.pow_add_r by (done || lia). do 2 f_equal. lia. }
  assert (Hpk : 2 ^ (whole_exp t - ez) ≠ 0) by (apply Z.pow_nonzero; lia).
  rewrite Hsplit, Z.mod_mul, Z.div_mul in Hr by done. specialize (Hr eq_refl). subst r.
  destruct (decide (Z.pos (whole_man t) = 0)) as [|_]; [done|].
  destruct Hres as (m&n&->&Hm&Hn).
  assert (Z.pos (whole_man t) < 2 ^ 53).
  { apply Z.log2_lt_pow2; [done|]. by rewrite whole_man_log2. }
  destruct Hn as [->|[_ ?]]; [|lia]. rewrite Z.add_0_r. f_equal.
  change (2 ^ Z.of_nat 0) with 1 in Hm. lia.
Qed.

(** Addition of whole numbers is exact. *)
Lemma SFadd_num a b :
  0 ≤ a → 0 ≤ b → a + b < 2 ^ 53 → SFadd 53 1024 (num_of_Z a) (num_of_Z b) = num_of_Z (a + b).
Proof.
  intros Ha Hb Hab. destruct a as [|p|p], b as [|q|q]; try lia; [done| | |].
  - change (num_of_Z 0) with (S754_zero false). rewrite Z.add_0_l, num_of_Z_pos by (unfold small; lia).
    done.
  - change (num_of_Z 0) with (S754_zero false). rewrite Z.add_0_r, num_of_Z_pos by (unfold small; lia).
    done.
  - assert (Sp : small p) by (unfold small; lia). assert (Sq : small q) by (unfold small; lia).
    set (t := (p + q)%positive). change (Z.pos p + Z.pos q) with (Z.pos t) in *.
    assert (St : small t) by done.
    rewrite (num_of_Z_pos p), (num_of_Z_pos q) by done. cbn [SFadd cond_Zopp].
    set (ez := Z.min (whole_exp p) (whole_exp q)).
    pose proof (small_log2 p Sp). pose proof (small_log2 q Sq).
    pose proof (Z.log2_nonneg (Z.pos p)). pose proof (Z.log2_nonneg (Z.pos q)).
    assert (Hez : ez ≤ whole_exp t).
    { unfold ez, whole_exp. pose proof (Z.log2_le_mono (Z.pos p) (Z.pos t)). lia. }
    rewrite !shl_align_value by (unfold ez; lia). rewrite !whole_man_value by done.
    rewrite <-!Z.mul_assoc, <-!Z.pow_add_r by (unfold ez, whole_exp; lia).
    replace (- whole_exp p + (whole_exp p - ez)) with (- ez) by lia.
    replace (- whole_exp q + (whole_exp q - ez)) with (- ez) by lia.
    rewrite <-Z.mul_add_distr_r. change (Z.pos p + Z.pos q) with (Z.pos t).
    assert (Hpow : 0 < 2 ^ (- ez)) by (apply Z.pow_pos_nonneg; unfold ez, whole_exp; lia).
    destruct (Z.pos t * 2 ^ (- ez)) as [|M|M] eqn:HM; [lia| |lia]. cbn [binary_normalize].
    by apply round_scaled.
Qed.

(** A number of [0, 1) times a whole number, rounded to nearest, stays below
    the whole number. *)
Lemma round_below m e t :
  Z.pos m < 2 ^ 53 → e < 0 → Z.pos m < 2 ^ (- e) → small t →
  let M := Z.pos m * Z.pos (whole_man t) in
  let E := e + whole_exp t in
  let E' := Z.max E (fexp 53 1024 (Z.log2 M + 1 + E)) in
  let k := E' - E in
  Z.log2 M + E ≤ 53 ∧ E' ≤ 0 ∧
  ∀ r, r = M / 2 ^ k ∨ r = M / 2 ^ k + 1 ∧ 2 ^ k ≤ 2 * (M mod 2 ^ k) →
       r < Z.pos t * 2 ^ (- E').
Proof.
  intros Hm He Hm1 St M E E' k.
  pose proof (small_log2 t St) as Hl. pose proof (Z.log2_nonneg (Z.pos t)) as Hl0.
  pose proof (whole_man_value t St) as Hv. pose proof (whole_man_log2 t St) as Hw.
  destruct (Z.log2_spec (Z.pos (whole_man t)) ltac:(done)) as [Hw1 Hw2]. rewrite Hw in Hw1, Hw2.
  change (Z.succ 52) with 53 in Hw2.
  set (w := Z.pos (whole_man t)) in *. assert (HM : 0 < M) by (unfold M; lia).
  destruct (Z.log2_spec M HM) as [HM1 HM2]. set (d := Z.log2 M) in *.
  assert (Hd0 : 0 ≤ d) by apply Z.log2_nonneg.
  (* the exact product is at least one unit of [w] below the whole number *)
  assert (Hwe : - whole_exp t = 52 - Z.log2 (Z.pos t)) by (unfold whole_exp; lia).
  assert (Hgap : M + w ≤ Z.pos t * 2 ^ (- E)).
  { replace (- E) with (- whole_exp t + - e) by (unfold E; lia).
    rewrite Z.pow_add_r, Z.mul_assoc, <-Hv by lia. unfold M. nia. }
  assert (Hd : d + 1 + E ≤ 53).
  { destruct (Z.lt_ge_cases (d + E) 53) as [|Hge]; [lia|]. exfalso.
    assert (2 ^ (53 - E) ≤ 2 ^ d) by (apply Z.pow_le_mono_r; lia).
    assert (2 ^ (53 - E) = 2 ^ 53 * 2 ^ (- E)) by (rewrite <-Z.pow_add_r; [done|lia|unfold E; lia]).
    assert (0 < 2 ^ (- E)) by (apply Z.pow_pos_nonneg; unfold E; lia). unfold small in St. nia. }
  assert (HE' : E' ≤ 0) by (unfold E', fexp, emin, E; lia).
  split; [lia|]. split; [done|]. intros r Hr.
  assert (Hk : 0 ≤ k) by (unfold k, E'; lia).
  assert (Hpk : 0 < 2 ^ k) by (apply Z.pow_pos_nonneg; lia).
  assert (Hscale : Z.pos t * 2 ^ (- E) = Z.pos t * 2 ^ (- E') * 2 ^ k).
  { rewrite <-Z.mul_assoc, <-Z.pow_add_r by lia. do 2 f_equal. unfold k. lia. }
  pose proof (Z.div_mod M (2 ^ k) ltac:(lia)) as Hdm. pose proof (Z.mod_pos_bound M (2 ^ k) Hpk) as Hmb.
  set (q := M / 2 ^ k) in *. set (T := Z.pos t * 2 ^ (- E')) in *.
  assert (Hq : q < T) by nia.
  destruct Hr as [->|[-> Hhalf]]; [done|].
  destruct (Z.lt_ge_cases (q + 1) T) as [|Hge]; [done|]. exfalso.
  (* rounding up to the whole number would need a gap of at most half a unit *)
  assert (HqT : q = T - 1) by lia.
  assert (Hkw : 2 * w ≤ 2 ^ k) by nia.
  assert (53 ≤ k).
  { destruct (Z.lt_ge_cases k 53) as [Hlt|]; [|done].
    assert (2 ^ k ≤ 2 ^ 52) by (apply Z.pow_le_mono_r; lia). lia. }
  assert (HM3 : M < 2 ^ 53 * w) by (unfold M; nia).
  destruct (Z.le_gt_cases (fexp 53 1024 (d + 1 + E)) (-1074)) as [Hsub|Hnorm].
  - (* below the normal numbers, far from the whole numbers *)
    assert (d + 1 ≤ 53 + k) by (unfold k, E', fexp in *; lia).
    assert (E' = -1074) by (unfold k, E', fexp, emin in *; lia).
    assert (2 ^ Z.succ d ≤ 2 ^ 53 * 2 ^ k) by (rewrite <-Z.pow_add_r by lia; apply Z.pow_le_mono_r; lia).
    assert (HT : 2 ^ 54 ≤ T).
    { unfold T. assert (2 ^ 54 ≤ 2 ^ (- E')) by (apply Z.pow_le_mono_r; lia). nia. }
    nia.
  - assert (Hkd : k = d - 52) by (unfold k, E', fexp, emin in *; lia).
    assert (d < 106).
    { destruct (Z.lt_ge_cases d 106) as [|Hge']; [done|].
      assert (2 ^ 106 ≤ 2 ^ d) by (apply Z.pow_le_mono_r; lia).
      change (2 ^ 106) with (2 ^ 53 * 2 ^ 53) in *. nia. }
    assert (k = 53) by lia. assert (d = 105) by lia. assert (w = 2 ^ 52) by (replace k with 53 in * by lia; lia).
    replace d with 105 in HM1 by lia. change (2 ^ 105) with (2 ^ 53 * 2 ^ 52) in HM1. nia.
Qed.
