(* ===== verification/JsMonad.v ===== *)
(** * Effects of JavaScript code

    Code that reads and writes objects and calls functions it is given is a
    state monad over the heap of [JsValue], with exceptions.  A function is
    what it does to the heap: [e_call] gives it for the function objects of
    the caller, whose code may read, write, throw and call back, but returns.
    [None] is what the model leaves out: arrays with holes, lengths that are
    not whole numbers, and loops that do not end.  Objects are ordinary ones
    (nothing is frozen, there are no setters but [__proto__]). *)

From S2P Require Import Prelude JsString JsValue.

Inductive exn := TypeErr | RangeErr | Thrown (v : jsval).

Definition M (A : Type) : Type := heap → option ((A + exn) * heap).

#[export] Instance M_ret : MRet M := λ A a h, Some (inl a, h).
#[export] Instance M_bind : MBind M := λ A B f m h,
  match m h with
  | Some (inl a, h') => f a h'
  | Some (inr x, h') => Some (inr x, h')
  | None => None
  end.

Declare Scope js_scope.
Delimit Scope js_scope with js.
Notation "'let*' x := p 'in' q" := (mbind (M := M) (λ x, q) p)
  (at level 10, x pattern, p at level 100, q at level 200,
   format "'[v' 'let*'  x  :=  p  'in' '/' q ']'") : js_scope.
#[local] Open Scope js_scope.

Definition ret {A} (a : A) : M A := mret a.
Definition throw {A} (x : exn) : M A := λ h, Some (inr x, h).
Definition unmodelled {A} : M A := λ _, None.
(** What the heap says. *)
Definition asks {A} (f : heap → A) : M A := λ h, Some (inl (f h), h).

(** A function, of [this] and its arguments. *)
Definition callee : Type := jsval → list jsval → M jsval.
Definition arg (i : nat) (args : list jsval) : jsval := default Undef (args !! i).

Record engine := {
  e_call : nat → callee;                      (* the function objects *)
  e_runtime : runtime;
  e_hidden : jsval → jstr → option jsval;     (* properties that are not enumerable *)
  e_number_key : spec_float → jstr;           (* String of other numbers than whole ones below 2^53 *)
  e_object_key : nat → jstr;                  (* String of an object *)
  e_object_proto : nat; e_array_proto : nat }.

Section objects.
Variable e : engine.

(** ToPropertyKey. *)
Definition to_key (v : jsval) : jstr :=
  match v with
  | Undef => u "undefined"
  | Null => u "null"
  | Bool b => if b then u "true" else u "false"
  | Num n =>
      match Z_of_num n with
      | Some z => if (Z.abs z <? 2 ^ 53)%Z then string_of_Z z else e_number_key e n
      | None => e_number_key e n
      end
  | Str s => s
  | Ref l => e_object_key e l
  end.
Definition num (i : nat) : jsval := Num (num_of_Z (Z.of_nat i)).

(** ** New objects *)

Definition alloc (o : object) : M jsval := λ h, Some (inl (Ref (length h)), h ++ [o]).
Definition array (xs : list jsval) : object :=
  {| o_class := "Array"; o_proto := Some (e_array_proto e); o_prim := None;
     o_elems := xs; o_props := [] |}.
Definition empty_object : object :=
  {| o_class := "Object"; o_proto := Some (e_object_proto e); o_prim := None;
     o_elems := []; o_props := [] |}.
Definition new_array (xs : list jsval) : M jsval := alloc (array xs).
Definition new_object : M jsval := alloc empty_object.

(** ** Reading *)

Definition proto_key : jstr := u "__proto__".

(** The unit of a string at an index. *)
Definition unit_at (s : jstr) (k : jstr) : option jsval :=
  (λ i, Str [i]) <$> (list_find (λ i, index_key i = k) (seq 0 (length s)) ≫= λ p, s !! p.2).

(** The property of an object or of a primitive, with those it inherits. *)
Definition find_key (h : heap) (v : jsval) (k : jstr) : option jsval :=
  match v with
  | Ref l =>
      match get_chain h (S (length h)) l k with
      | Some x => Some x
      | None =>
          if bool_decide (k = proto_key) && has_proto h l (e_object_proto e) then
            Some (match h !! l ≫= o_proto with Some p => Ref p | None => Null end)
          else e_hidden e v k
      end
  | Str s =>
      if bool_decide (k = u "length") then Some (num (length s))
      else match unit_at s k with Some x => Some x | None => e_hidden e v k end
  | _ => e_hidden e v k
  end.

(** [v[k]]. *)
Definition js_get (v : jsval) (k : jstr) : M jsval :=
  if nullish v then throw TypeErr else asks (λ h, default Undef (find_key h v k)).

(** [k in Object(v)]. *)
Definition js_in (k : jstr) (v : jsval) (h : heap) : bool :=
  bool_decide (find_key h v k ≠ None).

(** ** Writing *)

Definition set_elems (xs : list jsval) (o : object) : object :=
  {| o_class := o_class o; o_proto := o_proto o; o_prim := o_prim o; o_elems := xs;
     o_props := o_props o |}.
Definition set_props (ps : list (jstr * jsval)) (o : object) : object :=
  {| o_class := o_class o; o_proto := o_proto o; o_prim := o_prim o; o_elems := o_elems o;
     o_props := ps |}.
Definition set_proto (p : option nat) (o : object) : object :=
  {| o_class := o_class o; o_proto := p; o_prim := o_prim o; o_elems := o_elems o;
     o_props := o_props o |}.

(** The array index a key is. *)
Definition index_of_key (k : jstr) : option Z :=
  if forallb is_digit_unit k && bool_decide (string_of_Z (digits_value k) = k)
     && (digits_value k <? 2 ^ 32 - 1)%Z
  then Some (digits_value k) else None.

(** Keys that are indices come first, in their order; others as they come. *)
Definition comes_before (k k' : jstr) : bool :=
  match index_of_key k, index_of_key k' with
  | Some i, Some j => (i <? j)%Z
  | Some _, None => true
  | None, _ => false
  end.
Fixpoint replace_prop (k : jstr) (v : jsval) (ps : list (jstr * jsval)) : list (jstr * jsval) :=
  match ps with
  | [] => []
  | (k', w) :: ps => if bool_decide (k' = k) then (k, v) :: ps else (k', w) :: replace_prop k v ps
  end.
Fixpoint add_prop (k : jstr) (v : jsval) (ps : list (jstr * jsval)) : list (jstr * jsval) :=
  match ps with
  | [] => [(k, v)]
  | (k', w) :: ps => if comes_before k k' then (k, v) :: (k', w) :: ps else (k', w) :: add_prop k v ps
  end.
Definition put_prop (k : jstr) (v : jsval) (ps : list (jstr * jsval)) : list (jstr * jsval) :=
  match assoc k ps with Some _ => replace_prop k v ps | None => add_prop k v ps end.

Definition update (l : nat) (o : object) : M unit := λ h, Some (inl tt, <[l := o]> h).

(** An element of an array or of an arguments object. *)
Definition put_elem (l : nat) (o : object) (i : Z) (k : jstr) (x : jsval) : M unit :=
  let n := Z.of_nat (length (o_elems o)) in
  if (i <? n)%Z then update l (set_elems (<[Z.to_nat i := x]> (o_elems o)) o)
  else if bool_decide (o_class o = "Array") then
    if (i =? n)%Z then update l (set_elems (o_elems o ++ [x]) o) else unmodelled
  else update l (set_props (put_prop k x (o_props o)) o).

Definition put_named (l : nat) (o : object) (k : jstr) (x : jsval) : M unit := λ h,
  if bool_decide (k = proto_key) && bool_decide (get_chain h (S (length h)) l k = None)
     && has_proto h l (e_object_proto e) then
    match x with
    | Ref p => if Nat.eqb p l || has_proto h p l then Some (inr TypeErr, h)
               else update l (set_proto (Some p) o) h
    | Null => update l (set_proto None o) h
    | _ => Some (inl tt, h)
    end
  else update l (set_props (put_prop k x (o_props o)) o) h.

(** [v[k] = x]; a primitive keeps nothing. *)
Definition js_put (v : jsval) (k : jstr) (x : jsval) : M unit := λ h,
  match v with
  | Undef | Null => Some (inr TypeErr, h)
  | Ref l =>
      match h !! l with
      | Some o =>
          if bool_decide (o_class o ∈ ["Array"; "Arguments"]) then
            match index_of_key k with
            | Some i => put_elem l o i k x h
            | None => if bool_decide (k = u "length") then None else put_named l o k x h
            end
          else put_named l o k x h
      | None => None
      end
  | _ => Some (inl tt, h)
  end.

(** [array.push(x)] of an array the code has made. *)
Definition js_push (v : jsval) (x : jsval) : M unit := λ h,
  match v with
  | Ref l => match h !! l with
             | Some o => update l (set_elems (o_elems o ++ [x]) o) h
             | None => None
             end
  | _ => None
  end.

(** ** Calling *)

Definition call_value (f : jsval) : callee := λ this args h,
  match f with
  | Ref l => if is_function h f then e_call e l this args h else Some (inr TypeErr, h)
  | _ => Some (inr TypeErr, h)
  end.
End objects.
