(* ===== verification/DeepEqual.v ===== *)
(** * Deep equality in the bundle ([wordcut.js]): [_.isEqual] and [assert.deepEqual]

    Both compare values by structure.  Underscore's [eq] keeps two stacks of
    the objects it is inside of, so that it ends on cyclic structures; the
    [assert] module keeps none.  Fuel stands for the depth of the recursion.
    Wrapped values ([_(obj)]) are objects whose prototype is [_.prototype],
    an argument, with the value as the property [_wrapped]. *)

From S2P Require Import Prelude JsString JsValue.

(** ** [_.isEqual] *)

(** What a comparison gives, or the [TypeError] of reading a property of null. *)
Inductive verdict := Verdict (b : bool) | TypeError.
#[export] Instance verdict_eq_dec : EqDecision verdict.
Proof. solve_decision. Defined.

Section isEqual.
Variable rt : runtime.
Variable h : heap.
Variable underscore_proto : nat.

(** [if (a instanceof _) a = a._wrapped]. *)
Definition unwrap (v : jsval) : jsval :=
  match v with
  | Ref l => if has_proto h l underscore_proto then get h l (u "_wrapped") else v
  | _ => v
  end.

(** The primitive in a wrapper object. *)
Definition prim_of (v : jsval) : jsval :=
  match v with
  | Ref l => match h !! l with Some o => default v (o_prim o) | None => v end
  | _ => v
  end.

Definition one : spec_float := num_of_Z 1.
(** [1 / x]. *)
Definition reciprocal (x : spec_float) : spec_float := SFdiv 53 1024 one x.

(** [a !== 0 || 1 / a === 1 / b], for [a === b]. *)
Definition identical (a b : jsval) : bool :=
  match a, b with
  | Num x, Num y => negb (SFeqb x (S754_zero false)) || SFeqb (reciprocal x) (reciprocal y)
  | _, _ => true
  end.

(** [typeof v == 'object']. *)
Definition typeof_object (v : jsval) : bool :=
  match v with Ref _ => negb (is_function h v) | Null => true | _ => false end.

(** [_.isFunction(c) && c instanceof c], as of [Object]; [None] is the
    TypeError of [instanceof] when the prototype property of the function is no
    object (an arrow function's). *)
Definition self_instance (c : jsval) : option bool :=
  match c with
  | Ref l =>
      if is_function h c then
        match get_value h c (u "prototype") with
        | Ref p => Some (has_proto h l p)
        | _ => None
        end
      else Some false
  | _ => Some false
  end.

Definition has_key (v : jsval) (k : jstr) : bool :=
  match v with
  | Ref l => bool_decide (get_chain h (S (length h)) l k ≠ None)
  | _ => false
  end.

(** The test on the constructors of two objects, from left to right. *)
Definition different_constructors (a b : jsval) : option bool :=
  let aCtor := get_value h a (u "constructor") in
  let bCtor := get_value h b (u "constructor") in
  let both := has_key a (u "constructor") && has_key b (u "constructor") in
  if strict_eq aCtor bCtor then Some false
  else
    a_self ← self_instance aCtor;
    if (a_self : bool) then
      b_self ← self_instance bCtor; Some (negb b_self && both)
    else Some both.

(** [eq] up to the stacks: decided, or two arrays or two objects to compare. *)
Inductive head := Decided (v : verdict) | Arrays (la lb : nat) | Objects (la lb : nat).

Definition eq_head (a b : jsval) : head :=
  if strict_eq a b then Decided (Verdict (identical a b))
  else if nullish a || nullish b then Decided (Verdict (strict_eq a b))
  else
    let a := unwrap a in
    let b := unwrap b in
    let className := class_of h a in
    if negb (bool_decide (className = class_of h b)) then Decided (Verdict false)
    else if bool_decide (className = "RegExp") || bool_decide (className = "String") then
      Decided (Verdict (strict_eq (prim_of a) (prim_of b)))
    else
      let na := to_number rt (prim_of a) in
      let nb := to_number rt (prim_of b) in
      if bool_decide (className = "Number") then
        Decided (Verdict (if is_nan na then is_nan nb
                          else if SFeqb na (S754_zero false)
                          then SFeqb (reciprocal na) (reciprocal nb)
                          else SFeqb na nb))
      else if bool_decide (className = "Date") || bool_decide (className = "Boolean") then
        Decided (Verdict (SFeqb na nb))
      else
        match a, b with
        | Ref la, Ref lb =>
            if bool_decide (className = "Array") then Arrays la lb
            else if negb (typeof_object a) || negb (typeof_object b) then
              Decided (Verdict false)
            else match different_constructors a b with
                 | None => Decided TypeError
                 | Some true => Decided (Verdict false)
                 | Some false => Objects la lb
                 end
        | Null, _ => Decided TypeError    (* null.constructor *)
        | _, _ => Decided (Verdict false)
        end.

(** The loops over elements and properties, from the last to the first. *)
Section loops.
Variable eq : jsval → jsval → option verdict.

Definition and_also (v : option verdict) (rest : option verdict) : option verdict :=
  match v with Some (Verdict true) => rest | _ => v end.

(** Of lists of the same length. *)
Fixpoint eq_elems (xs ys : list jsval) : option verdict :=
  match xs, ys with
  | x :: xs, y :: ys => and_also (eq_elems xs ys) (eq x y)
  | _, _ => Some (Verdict true)
  end.

Fixpoint eq_props (l : list (jstr * jsval)) (lb : nat) : option verdict :=
  match l with
  | [] => Some (Verdict true)
  | (k, x) :: l =>
      and_also (eq_props l lb)
        (if has_own h lb k then eq x (get h lb k) else Some (Verdict false))
  end.
End loops.

Definition entries_of (l : nat) : list (jstr * jsval) :=
  match h !! l with Some o => entries o | None => [] end.

(** The partner of [l] on the stacks, the latest first. *)
Fixpoint on_stack (l : nat) (stack : list (nat * nat)) : option nat :=
  match stack with
  | [] => None
  | (a, b) :: stack => if Nat.eqb a l then Some b else on_stack l stack
  end.

Fixpoint eq (fuel : nat) (a b : jsval) (stack : list (nat * nat)) : option verdict :=
  match fuel with
  | 0 => None
  | S fuel =>
      match eq_head a b with
      | Decided v => Some v
      | Arrays la lb =>
          match on_stack la stack with
          | Some p => Some (Verdict (Nat.eqb p lb))
          | None =>
              let xs := elems_of h (Ref la) in
              let ys := elems_of h (Ref lb) in
              if negb (length xs =? length ys)%nat then Some (Verdict false)
              else eq_elems (λ x y, eq fuel x y ((la, lb) :: stack)) xs ys
          end
      | Objects la lb =>
          match on_stack la stack with
          | Some p => Some (Verdict (Nat.eqb p lb))
          | None =>
              if negb (length (keys h lb) =? length (keys h la))%nat
              then Some (Verdict false)
              else eq_props (λ x y, eq fuel x y ((la, lb) :: stack)) (entries_of la) lb
          end
      end
  end.

(** Every object of the heap on the stack once, and the value at the top. *)
Definition isEqual (a b : jsval) : option verdict := eq (S (S (length h))) a b [].
End isEqual.

(** ** What [_.isEqual] decides *)

Section isEqual_facts.
Variable rt : runtime.
Variable h : heap.
Variable underscore_proto : nat.
Abbreviation head_of := (eq_head rt h underscore_proto).
Abbreviation eqv := (eq rt h underscore_proto).

(** The parts of two containers are related by [P], pair by pair. *)
Definition kids (P : jsval → jsval → Prop) (la lb : nat) : Prop :=
  if bool_decide (class_of h (Ref la) = "Array")
  then Forall2 P (elems_of h (Ref la)) (elems_of h (Ref lb))
  else length (keys h lb) = length (keys h la) ∧
       Forall (λ e, has_own h lb e.1 = true ∧ P e.2 (get h lb e.1)) (entries_of h la).

(** Two values look the same up to [R] on their parts. *)
Definition similar (R : jsval → jsval → Prop) (a b : jsval) : Prop :=
  match head_of a b with
  | Decided v => v = Verdict true
  | Arrays la lb | Objects la lb => kids R la lb
  end.

(** Two values, cyclic or not, unfold to the same structure. *)
Definition bisimilar (a b : jsval) : Prop :=
  ∃ R : jsval → jsval → Prop, (∀ x y, R x y → similar R x y) ∧ R a b.

Lemma kids_mono (P Q : jsval → jsval → Prop) la lb :
  (∀ x y, P x y → Q x y) → kids P la lb → kids Q la lb.
Proof.
  intros HPQ. unfold kids. case_bool_decide.
  - intros HP. by eapply Forall2_impl.
  - intros [Hl HP]. split; [done|]. eapply Forall_impl; [exact HP|]. intros e [? ?]. auto.
Qed.

Lemma head_kind a b :
  match head_of a b with
  | Arrays la _ => class_of h (Ref la) = "Array" ∧ unwrap h underscore_proto a = Ref la
  | Objects la _ => class_of h (Ref la) ≠ "Array" ∧ unwrap h underscore_proto a = Ref la
  | Decided _ => True
  end.
Proof.
  unfold eq_head. repeat (case_match; try done); bool_clean; split; congruence.
Qed.

Lemma and_also_true v rest :
  and_also v rest = Some (Verdict true) ↔ v = Some (Verdict true) ∧ rest = Some (Verdict true).
Proof.
  destruct v as [[[]|]|]; simpl; split; try done; try (by intros [? _]); by intros [_ ?].
Qed.

Lemma eq_elems_true e xs ys :
  length xs = length ys →
  eq_elems e xs ys = Some (Verdict true) ↔ Forall2 (λ x y, e x y = Some (Verdict true)) xs ys.
Proof.
  revert ys. induction xs as [|x xs IH]; intros [|y ys]; simpl; try done; intros Hl.
  rewrite and_also_true, IH, Forall2_cons by lia. tauto.
Qed.

Lemma eq_props_true e l lb :
  eq_props h e l lb = Some (Verdict true) ↔
  Forall (λ p, has_own h lb p.1 = true ∧ e p.2 (get h lb p.1) = Some (Verdict true)) l.
Proof.
  induction l as [|[k x] l IH]; simpl; [split; intros _; [constructor|done]|].
  rewrite and_also_true, IH, Forall_cons. simpl. destruct (has_own h lb k); [tauto|].
  by split; [intros [_ ?]|intros [[? _] _]].
Qed.

(** The comparison of the parts of [la] and [lb]. *)
Definition compare_kids (e : jsval → jsval → option verdict) (la lb : nat) : option verdict :=
  if bool_decide (class_of h (Ref la) = "Array") then
    if negb (length (elems_of h (Ref la)) =? length (elems_of h (Ref lb)))%nat
    then Some (Verdict false) else eq_elems e (elems_of h (Ref la)) (elems_of h (Ref lb))
  else
    if negb (length (keys h lb) =? length (keys h la))%nat
    then Some (Verdict false) else eq_props h e (entries_of h la) lb.

Lemma compare_kids_true e la lb :
  compare_kids e la lb = Some (Verdict true) ↔ kids (λ x y, e x y = Some (Verdict true)) la lb.
Proof.
  unfold compare_kids, kids. case_bool_decide.
  - destruct (Nat.eqb_spec (length (elems_of h (Ref la))) (length (elems_of h (Ref lb))));
      simpl; [by apply eq_elems_true|].
    split; [done|]. intros HP. by apply Forall2_length in HP.
  - rewrite <-eq_props_true.
    destruct (Nat.eqb_spec (length (keys h lb)) (length (keys h la))); simpl;
      [tauto|by split; [|intros [? _]]].
Qed.

Lemma eq_unfold fuel a b stack :
  eqv (S fuel) a b stack =
    match head_of a b with
    | Decided v => Some v
    | Arrays la lb | Objects la lb =>
        match on_stack la stack with
        | Some p => Some (Verdict (Nat.eqb p lb))
        | None => compare_kids (λ x y, eqv fuel x y ((la, lb) :: stack)) la lb
        end
    end.
Proof.
  cbn [eq]. pose proof (head_kind a b) as Hk. unfold compare_kids.
  destruct (head_of a b) as [v|la lb|la lb]; [done|..]; destruct Hk as [Hk _].
  - by rewrite (bool_decide_eq_true_2 _ Hk).
  - by rewrite (bool_decide_eq_false_2 _ Hk).
Qed.

(** *** It ends *)

Lemma and_also_some v rest : is_Some v → is_Some rest → is_Some (and_also v rest).
Proof. intros [[[]|] ->] ?; simpl; eauto. Qed.

Lemma compare_kids_some e la lb :
  (∀ x y, la < length h → is_Some (e x y)) → is_Some (compare_kids e la lb).
Proof.
  intros He. unfold compare_kids.
  assert (Hout : length h ≤ la → elems_of h (Ref la) = [] ∧ entries_of h la = []).
  { intros Hl. unfold elems_of, entries_of. by rewrite lookup_ge_None_2. }
  destruct (decide (la < length h)) as [Hl|Hl].
  - clear Hout. case_bool_decide; (destruct (negb _); [by eexists|]).
    + generalize (elems_of h (Ref lb)) as ys.
      induction (elems_of h (Ref la)) as [|x xs IH]; intros [|y ys]; simpl;
        [by eexists|by eexists|by eexists|apply and_also_some; auto].
    + induction (entries_of h la) as [|[k x] l IH]; simpl; [by eexists|].
      apply and_also_some; [done|]. case_match; [auto|by eexists].
  - destruct Hout as [-> ->]; [lia|].
    case_bool_decide; (destruct (negb _); by eexists).
Qed.

Lemma on_stack_None la stack : on_stack la stack = None ↔ la ∉ map fst stack.
Proof.
  induction stack as [|[a b] stack IH]; simpl; [by split; [intros _ ?%not_elem_of_nil|]|].
  rewrite not_elem_of_cons, <-IH. destruct (Nat.eqb_spec a la); [by split; [|intros [? _]]|].
  split; [intros ?; split; [congruence|done]|by intros [_ ?]].
Qed.

Lemma eq_total fuel a b stack :
  NoDup (map fst stack) → Forall (λ l, l < length h) (map fst stack) →
  length h + 2 ≤ fuel + length stack → is_Some (eqv fuel a b stack).
Proof.
  revert a b stack. induction fuel as [|fuel IH]; intros a b stack Hn Hr Hf.
  - assert (length stack ≤ length h); [|lia].
    rewrite <-(length_map fst), <-(length_seq (length h) 0).
    apply submseteq_length, NoDup_submseteq; [done|]. intros l Hl.
    rewrite Forall_forall in Hr. apply elem_of_seq. specialize (Hr l Hl). lia.
  - rewrite eq_unfold.
    assert (∀ la lb, is_Some match on_stack la stack with
        | Some p => Some (Verdict (Nat.eqb p lb))
        | None => compare_kids (λ x y, eqv fuel x y ((la, lb) :: stack)) la lb
        end) as Hstep.
    { intros la lb. destruct (on_stack la stack) eqn:Hs; [eauto|].
      apply compare_kids_some. intros x y Hla. apply IH; simpl.
      - apply NoDup_cons. split; [by apply on_stack_None|done].
      - by constructor.
      - lia. }
    case_match; eauto.
Qed.

(** *** It is sound *)

Abbreviation yes := (Some (Verdict true)).

(** Every pair on the stack is being compared, with success. *)
Fixpoint good (stack : list (nat * nat)) : Prop :=
  match stack with
  | [] => True
  | (la, lb) :: rest =>
      (∃ fuel, kids (λ x y, eqv fuel x y stack = yes) la lb) ∧ good rest
  end.

Definition seen (a b : jsval) : Prop := ∃ fuel stack, good stack ∧ eqv fuel a b stack = yes.

Lemma good_on_stack la lb stack :
  good stack → on_stack la stack = Some lb → kids seen la lb.
Proof.
  induction stack as [|[a b] stack IH]; [done|]. intros [[fuel Hk] Hg]. cbn [on_stack].
  destruct (Nat.eqb_spec a la) as [->|]; [|by apply IH]. intros [= ->].
  eapply kids_mono; [|exact Hk]. intros x y Hxy. exists fuel, ((la, lb) :: stack).
  split; [split; [by exists fuel|done]|done].
Qed.

Lemma seen_similar a b : seen a b → similar seen a b.
Proof.
  intros ([|fuel]&stack&Hg&He); [done|]. rewrite eq_unfold in He. unfold similar.
  assert (Hkids : ∀ la lb, match on_stack la stack with
      | Some p => Some (Verdict (Nat.eqb p lb))
      | None => compare_kids (λ x y, eqv fuel x y ((la, lb) :: stack)) la lb
      end = yes → kids seen la lb).
  { intros la lb. destruct (on_stack la stack) as [p|] eqn:Hs.
    - intros [= ->%Nat.eqb_eq]. by eapply good_on_stack.
    - rewrite compare_kids_true. intros Hk. eapply kids_mono; [|exact Hk].
      intros x y Hxy. exists fuel, ((la, lb) :: stack).
      split; [split; [by exists fuel|done]|done]. }
  destruct (head_of a b); [by simplify_eq|auto..].
Qed.

Lemma eq_sound fuel a b : eqv fuel a b [] = yes → bisimilar a b.
Proof. intros He. exists seen. split; [apply seen_similar|]. by exists fuel, []. Qed.

(** *** It is complete without cycles *)

(** [x] is an element or a property of [a]. *)
Definition part (x a : jsval) : Prop :=
  ∃ la, unwrap h underscore_proto a = Ref la ∧
    (x ∈ elems_of h (Ref la) ∨ ∃ k, (k, x) ∈ entries_of h la).

(** What is on the stack has [a] as a part of a part ... of it. *)
Definition above (stack : list (nat * nat)) (a : jsval) : Prop :=
  Forall (λ l, ∃ x, unwrap h underscore_proto x = Ref l ∧ tc part a x) (map fst stack).

Lemma tc_last {A} (R : relation A) x z : tc R x z → ∃ y, rtc R x y ∧ R y z.
Proof.
  induction 1 as [x z Hxz|x y z Hxy _ (w&Hw&Hz)]; [by exists x|].
  exists w. split; [by eapply rtc_l|done].
Qed.

Lemma acc_irreflexive (a : jsval) : Acc part a → ¬ tc part a a.
Proof.
  induction 1 as [a _ IH]. intros (y&Hay&Hya)%tc_last.
  apply (IH y Hya). eapply tc_rtc_r; [by apply tc_once|done].
Qed.

(** The parts of what [a] unwraps to are those of [a]. *)
Lemma part_unwrap x a b :
  unwrap h underscore_proto a = unwrap h underscore_proto b → part x a → part x b.
Proof. unfold part. by intros ->. Qed.

Lemma above_fresh stack a la :
  Acc part a → above stack a → unwrap h underscore_proto a = Ref la → on_stack la stack = None.
Proof.
  intros Ha Hs Hla. apply on_stack_None. intros Hin.
  unfold above in Hs. rewrite Forall_forall in Hs. destruct (Hs la Hin) as (x&Hx&Hax).
  apply (acc_irreflexive a Ha). apply tc_last in Hax as (y&Hay&Hyx).
  eapply tc_rtc_l; [exact Hay|]. apply tc_once. eapply part_unwrap; [|exact Hyx]. congruence.
Qed.

Lemma above_push stack a la lb x :
  above stack a → unwrap h underscore_proto a = Ref la → part x a →
  above ((la, lb) :: stack) x.
Proof.
  intros Hs Hla Hx. unfold above. simpl. constructor.
  - exists a. split; [done|by apply tc_once].
  - eapply Forall_impl; [exact Hs|]. intros l (y&Hy&Hay). exists y.
    split; [done|by eapply tc_l].
Qed.

Lemma kids_parts P la lb a :
  unwrap h underscore_proto a = Ref la → kids P la lb →
  kids (λ x y, P x y ∧ part x a) la lb.
Proof.
  intros Hla. unfold kids. case_bool_decide.
  - intros Hk. assert (Hp : Forall (λ x, part x a) (elems_of h (Ref la))).
    { apply Forall_forall. intros x Hx. exists la. auto. }
    revert Hp. induction Hk; intros Hp; constructor; inversion Hp; auto.
  - intros [Hl Hk]. split; [done|]. apply Forall_forall. intros [k x] Hin.
    rewrite Forall_forall in Hk. destruct (Hk _ Hin). split_and!; [done..|].
    exists la. split; [done|]. right. by exists k.
Qed.

(** When the parts can only be equal, so are the containers. *)
Lemma compare_kids_all e la lb v :
  kids (λ x y, ∀ w, e x y = Some w → w = Verdict true) la lb →
  compare_kids e la lb = Some v → v = Verdict true.
Proof.
  unfold kids, compare_kids. case_bool_decide.
  - intros Hk. rewrite (Forall2_length _ _ _ Hk), Nat.eqb_refl. cbn [negb]. revert v.
    induction Hk as [|x y xs ys Hxy _ IH]; intros v; simpl; [by intros ?; simplify_eq|].
    destruct (eq_elems e xs ys) as [w|]; [|done]. rewrite (IH w eq_refl). apply Hxy.
  - intros [-> Hk]. rewrite Nat.eqb_refl. cbn [negb]. revert v.
    induction Hk as [|[k x] l [Hh Hx] _ IH]; intros v; simpl; [by intros ?; simplify_eq|].
    destruct (eq_props h e l lb) as [w|]; [|done]. rewrite (IH w eq_refl). simpl in *.
    rewrite Hh. apply Hx.
Qed.

Lemma eq_complete R fuel a b stack v :
  (∀ x y, R x y → similar R x y) → R a b → Acc part a → above stack a →
  eqv fuel a b stack = Some v → v = Verdict true.
Proof.
  intros HR. revert a b stack v. induction fuel as [|fuel IH]; intros a b stack v Hab Ha Hs; [done|].
  rewrite eq_unfold. pose proof (HR a b Hab) as Hsim. pose proof (head_kind a b) as Hk.
  unfold similar in Hsim.
  assert (Hkids : ∀ la lb, unwrap h underscore_proto a = Ref la → kids R la lb →
    match on_stack la stack with
    | Some p => Some (Verdict (Nat.eqb p lb))
    | None => compare_kids (λ x y, eqv fuel x y ((la, lb) :: stack)) la lb
    end = Some v → v = Verdict true).
  { intros la lb Hla Hkids. rewrite (above_fresh stack a la) by done.
    apply (kids_parts _ _ _ a Hla) in Hkids. apply compare_kids_all.
    eapply kids_mono; [|exact Hkids]. intros x y [Hxy Hx] w.
    apply IH; [done|by apply (Acc_inv Ha)|by eapply above_push]. }
  destruct (head_of a b) as [w|la lb|la lb]; [by intros ?; simplify_eq|..];
    destruct Hk as [_ Hla]; by apply Hkids.
Qed.

(** C24: [_.isEqual] ends on every heap, cyclic structures included; when it
    says yes the two values unfold to the same structure; and when they do and
    the first has no cycle it says yes. *)
Theorem isEqual_spec a b :
  is_Some (isEqual rt h underscore_proto a b) ∧
  (isEqual rt h underscore_proto a b = Some (Verdict true) → bisimilar a b) ∧
  (Acc part a → bisimilar a b → isEqual rt h underscore_proto a b = Some (Verdict true)).
Proof.
  assert (Htot : is_Some (isEqual rt h underscore_proto a b)).
  { apply eq_total; simpl; [constructor|constructor|lia]. }
  split; [done|]. split; [apply eq_sound|]. intros Ha (R&HR&Hab).
  destruct Htot as [v Hv]. rewrite Hv. f_equal.
  apply (eq_complete R (S (S (length h))) a b [] v HR Hab Ha); [constructor|exact Hv].
Qed.
End isEqual_facts.

(** ** Examples *)

Definition plain_runtime : runtime :=
  {| ref_primitive := λ _, Undef; string_number := λ _, S754_nan |}.
Definition array (l : list jsval) : object :=
  {| o_class := "Array"; o_proto := None; o_prim := None; o_elems := l; o_props := [] |}.
Definition record (l : list (jstr * jsval)) : object :=
  {| o_class := "Object"; o_proto := None; o_prim := None; o_elems := []; o_props := l |}.

(** [{a: [1, 2], b: 3}] twice, with the properties in another order. *)
Definition two_records : heap :=
  [record [(u "a", Ref 1); (u "b", Num (num_of_Z 3))];
   array [Num (num_of_Z 1); Num (num_of_Z 2)];
   record [(u "b", Num (num_of_Z 3)); (u "a", Ref 3)];
   array [Num (num_of_Z 1); Num (num_of_Z 2)]].

Example isEqual_records : isEqual plain_runtime two_records 9 (Ref 0) (Ref 2) = Some (Verdict true).
Proof. vm_compute. reflexivity. Qed.

(** [1 / x] overflows for the least positive number, and zero equals it; the
    other way round it does not. *)
Definition least : jsval := Num (S754_finite false 1 (-1074)).
Lemma isEqual_zero_subnormal :
  isEqual plain_runtime [] 9 (Num (num_of_Z 0)) least = Some (Verdict true) ∧
  isEqual plain_runtime [] 9 least (Num (num_of_Z 0)) = Some (Verdict false).
Proof. vm_compute. done. Qed.

(** [a = [a]] and [b = [[b]]] unfold to the same structure; the answer depends
    on which comes first. *)
Definition two_cycles : heap := [array [Ref 0]; array [Ref 2]; array [Ref 1]].
Lemma isEqual_cycles :
  isEqual plain_runtime two_cycles 9 (Ref 0) (Ref 1) = Some (Verdict false) ∧
  isEqual plain_runtime two_cycles 9 (Ref 1) (Ref 0) = Some (Verdict true).
Proof. vm_compute. done. Qed.

(** Two wrapped nulls throw. *)
Lemma isEqual_wrapped_null :
  let wrapped := {| o_class := "Object"; o_proto := Some 2; o_prim := None; o_elems := [];
                    o_props := [(u "_wrapped", Null)] |} in
  isEqual plain_runtime [wrapped; wrapped; record []] 2 (Ref 0) (Ref 1) = Some TypeError.
Proof. vm_compute. done. Qed.

(** ** [assert.deepEqual] *)

Section deepEqual.
Variable rt : runtime.
Variable h : heap.

(** [util.isObject]: [typeof v === 'object' && v !== null]. *)
Definition util_isObject (v : jsval) : bool := is_object v && negb (is_function h v).
Definition is_class (c : string) (v : jsval) : bool :=
  util_isObject v && bool_decide (class_of h v = c).
Definition isBuffer (v : jsval) : bool :=
  util_isObject v && is_function h (get_value h v (u "copy"))
  && is_function h (get_value h v (u "fill")) && is_function h (get_value h v (u "readUInt8")).

(** [actual == expected] where neither is an object but both may be functions. *)
Definition loose_eq (a b : jsval) : bool :=
  match a, b with
  | (Undef | Null), (Undef | Null) => true
  | (Undef | Null), _ | _, (Undef | Null) => false
  | Ref _, Ref _ | Str _, Str _ => strict_eq a b
  | _, _ =>
      match to_primitive rt a, to_primitive rt b with
      | Str s, Str t => bool_decide (s = t)
      | a, b => SFeqb (to_number rt a) (to_number rt b)
      end
  end.

(** [same.source && same.global && ...]. *)
Definition same_property (a b : jsval) (k : jstr) : bool :=
  strict_eq (get_value h a k) (get_value h b k).

(** The properties of [pSlice.call(arguments)]. *)
Definition slice_entries (l : nat) : list (jstr * jsval) :=
  let xs := elems_of h (Ref l) in zip (map index_key (seq 0 (length xs))) xs.

(** [_deepEqual] and [objEquiv] up to the properties. *)
Inductive deep_head := DDecided (b : bool) | DParts (ea eb : list (jstr * jsval)).

Definition objEquiv_head (a b : jsval) : deep_head :=
  if nullish a || nullish b then DDecided false
  else if negb (same_property a b (u "prototype")) then DDecided false
  else
    match a, b with
    | Ref la, Ref lb =>
        let aIsArgs := is_arguments h a in
        let bIsArgs := is_arguments h b in
        if (aIsArgs && negb bIsArgs) || (negb aIsArgs && bIsArgs) then DDecided false
        else if aIsArgs then DParts (slice_entries la) (slice_entries lb)
        else DParts (entries_of h la) (entries_of h lb)
    | _, _ => DDecided (strict_eq a b)
    end.

Definition deepEqual_head (a b : jsval) : deep_head :=
  if strict_eq a b then DDecided true
  else if isBuffer a && isBuffer b then
    let xs := elems_of h a in
    let ys := elems_of h b in
    DDecided ((length xs =? length ys)%nat && forallb (λ p, strict_eq p.1 p.2) (zip xs ys))
  else if is_class "Date" a && is_class "Date" b then
    DDecided (strict_eq (prim_of h a) (prim_of h b))
  else if is_class "RegExp" a && is_class "RegExp" b then
    DDecided (forallb (same_property a b)
      [u "source"; u "global"; u "multiline"; u "lastIndex"; u "ignoreCase"])
  else if negb (util_isObject a) && negb (util_isObject b) then DDecided (loose_eq a b)
  else objEquiv_head a b.

(** The tests on the keys, and the values from the last key to the first. *)
Fixpoint values_equal (e : jsval → jsval → option bool) (ks : list jstr)
    (ea eb : list (jstr * jsval)) : option bool :=
  match ks with
  | [] => Some true
  | k :: ks =>
      match e (default Undef (assoc k ea)) (default Undef (assoc k eb)) with
      | Some true => values_equal e ks ea eb
      | r => r
      end
  end.

Definition parts_equal (e : jsval → jsval → option bool)
    (ea eb : list (jstr * jsval)) : option bool :=
  let ka := map fst ea in
  let kb := map fst eb in
  if negb (length ka =? length kb)%nat then Some false
  else if negb (bool_decide (js_sort ka = js_sort kb)) then Some false
  else values_equal e (reverse (js_sort ka)) ea eb.

Fixpoint _deepEqual (fuel : nat) (a b : jsval) : option bool :=
  match fuel with
  | 0 => None
  | S fuel =>
      match deepEqual_head a b with
      | DDecided r => Some r
      | DParts ea eb => parts_equal (_deepEqual fuel) ea eb
      end
  end.

(** *** The assertions *)

(** A test passes, fails with an [AssertionError] or lets an exception through. *)
Inductive check :=
| Passes
| Fails (actual expected : jsval) (message : jsval) (operator : string)
| Throws (v : option jsval).    (* [None]: a [TypeError] of the module itself *)

Definition assert_ok (value message : jsval) : check :=
  if truthy value then Passes else Fails value (Bool true) message "==".
Definition assert_deepEqual (fuel : nat) (actual expected message : jsval) : option check :=
  (λ r : bool, if r then Passes else Fails actual expected message "deepEqual")
    <$> _deepEqual fuel actual expected.
Definition assert_notDeepEqual (fuel : nat) (actual expected message : jsval) : option check :=
  (λ r : bool, if r then Fails actual expected message "notDeepEqual" else Passes)
    <$> _deepEqual fuel actual expected.
Definition assert_strictEqual (actual expected message : jsval) : check :=
  if strict_eq actual expected then Passes else Fails actual expected message "===".
Definition assert_notStrictEqual (actual expected message : jsval) : check :=
  if strict_eq actual expected then Fails actual expected message "!==" else Passes.
Definition ifError (err : jsval) : check :=
  if truthy err then Throws (Some err) else Passes.

(** What user code does: a regular expression's test, a validation function,
    which returns or throws, and conversions to a string. *)
Variable regexp_test : nat → jsval → bool.
Variable validate : nat → jsval → jsval + jsval.
Variable to_string : jsval → jstr.

(** [inr None] is the [TypeError] of an [instanceof] without a constructor. *)
Definition expectedException (actual expected : jsval) : bool + option jsval :=
  if negb (truthy actual) || negb (truthy expected) then inl false
  else
    match expected with
    | Ref l =>
        if bool_decide (class_of h expected = "RegExp") then inl (regexp_test l actual)
        else if negb (is_function h expected) then inr None
        else
          let call := match validate l actual with
                      | inl r => inl (strict_eq r (Bool true))
                      | inr thrown => inr (Some thrown)
                      end in
          match actual with
          | Ref a =>
              match get h l (u "prototype") with
              | Ref p => if has_proto h a p then inl true else call
              | _ => inr None
              end
          | _ => call
          end
    | _ => inr None
    end.

Definition text_of (v : jsval) : jstr := match v with Str s => s | _ => to_string v end.

(** [block] has run: [thrown] is what it threw. *)
Definition _throws (shouldThrow : bool) (thrown : option jsval) (expected message : jsval)
    : check :=
  let '(message, expected) :=
    match expected with Str _ => (expected, Null) | _ => (message, expected) end in
  let actual := default Undef thrown in
  let name := get_value h expected (u "name") in
  let text := (if truthy expected && truthy name then u " (" ++ text_of name ++ u ")."
               else u ".")
              ++ (if truthy message then u " " ++ text_of message else u ".") in
  if shouldThrow && negb (truthy actual) then
    Fails actual expected (Str (u "Missing expected exception" ++ text)) ""
  else
    match (if shouldThrow then inl false else expectedException actual expected) with
    | inr v => Throws v
    | inl true => Fails actual expected (Str (u "Got unwanted exception" ++ text)) ""
    | inl false =>
        match (if shouldThrow && truthy actual && truthy expected
               then expectedException actual expected else inl true) with
        | inr v => Throws v
        | inl ok => if negb ok || (negb shouldThrow && truthy actual)
                    then Throws (Some actual) else Passes
        end
    end.

Definition assert_throws := _throws true.
Definition assert_doesNotThrow := _throws false.
End deepEqual.

(** ** What [assert.deepEqual] decides *)

Section deepEqual_facts.
Variable rt : runtime.
Variable h : heap.
Abbreviation dhead := (deepEqual_head rt h).

(** No object has two properties of the same name. *)
Definition heap_ok : Prop := Forall (λ o, NoDup (map fst (entries o))) h.

(** Equality by structure: the same keys, and equal values under each. *)
Inductive deq : jsval → jsval → Prop :=
| deq_decided a b : dhead a b = DDecided true → deq a b
| deq_parts a b ea eb :
    dhead a b = DParts ea eb →
    (∀ k, k ∈ map fst ea ↔ k ∈ map fst eb) →
    (∀ k x y, assoc k ea = Some x → assoc k eb = Some y → deq x y) → deq a b.

Lemma index_keys_prefix (xs : list jsval) :
  map fst (zip (map index_key (seq 0 (length xs))) xs) = map index_key (seq 0 (length xs)).
Proof. apply fst_zip. rewrite length_map, length_seq. lia. Qed.

Lemma heap_ok_entries l : heap_ok → NoDup (map fst (entries_of h l)).
Proof.
  intros Hok. unfold entries_of. destruct (h !! l) as [o|] eqn:Hl; [|constructor].
  by apply (Forall_lookup_1 _ _ _ _ Hok Hl).
Qed.

Lemma heap_ok_slice l : heap_ok → NoDup (map fst (slice_entries h l)).
Proof.
  intros Hok. unfold slice_entries, elems_of. destruct (h !! l) as [o|] eqn:Hl; [|constructor].
  pose proof (Forall_lookup_1 _ _ _ _ Hok Hl) as Hn. simpl in Hn. unfold entries in Hn.
  rewrite map_app in Hn. by apply NoDup_app in Hn as [? _].
Qed.

(** The properties compared are those of the two objects, without duplicates. *)
Lemma dhead_parts a b ea eb :
  heap_ok → dhead a b = DParts ea eb → NoDup (map fst ea) ∧ NoDup (map fst eb).
Proof.
  unfold deepEqual_head, objEquiv_head. intros Hok.
  repeat (case_match; try done); intros [= <- <-];
    auto using heap_ok_entries, heap_ok_slice.
Qed.

(** Sorting tells whether two lists without duplicates have the same elements. *)
Lemma sorted_keys (ka kb : list jstr) :
  NoDup ka → NoDup kb → js_sort ka = js_sort kb ↔ (∀ k, k ∈ ka ↔ k ∈ kb).
Proof.
  intros Ha Hb. unfold js_sort. split.
  - intros Hs k. by rewrite <-(merge_sort_Permutation jstr_le ka), Hs, merge_sort_Permutation.
  - intros Hk. apply (StronglySorted_unique jstr_le).
    + apply (StronglySorted_merge_sort jstr_le).
    + apply (StronglySorted_merge_sort jstr_le).
    + rewrite !merge_sort_Permutation. by apply NoDup_Permutation.
Qed.

Lemma same_length_keys (ka kb : list jstr) :
  NoDup ka → NoDup kb → (∀ k, k ∈ ka ↔ k ∈ kb) → length ka = length kb.
Proof. intros Ha Hb Hk. by apply Permutation_length, NoDup_Permutation. Qed.

Lemma values_equal_true e ks ea eb :
  values_equal e ks ea eb = Some true ↔
  Forall (λ k, e (default Undef (assoc k ea)) (default Undef (assoc k eb)) = Some true) ks.
Proof.
  induction ks as [|k ks IH]; simpl; [by split; [constructor|]|].
  rewrite Forall_cons, <-IH.
  destruct (e _ _) as [[]|]; split; try done; try (by intros [? _]); by intros [_ ?].
Qed.

Lemma parts_equal_true e ea eb :
  NoDup (map fst ea) → NoDup (map fst eb) →
  parts_equal e ea eb = Some true ↔
  (∀ k, k ∈ map fst ea ↔ k ∈ map fst eb) ∧
  (∀ k x y, assoc k ea = Some x → assoc k eb = Some y → e x y = Some true).
Proof.
  intros Ha Hb. unfold parts_equal.
  pose proof (sorted_keys _ _ Ha Hb) as Hs.
  destruct (Nat.eqb_spec (length (map fst ea)) (length (map fst eb))) as [Hl|Hl]; simpl.
  2:{ split; [done|]. intros [Hk _]. destruct Hl. by apply same_length_keys. }
  case_bool_decide as Hsort; simpl.
  2:{ split; [done|]. intros [Hk _]. destruct Hsort. by apply Hs. }
  rewrite values_equal_true. pose proof (proj1 Hs Hsort) as Hk. split.
  - intros Hv. split; [done|]. intros k x y Hx Hy. rewrite Forall_forall in Hv.
    specialize (Hv k). rewrite Hx, Hy in Hv. apply Hv. rewrite elem_of_reverse.
    unfold js_sort. rewrite merge_sort_Permutation.
    apply list_elem_of_fmap. exists (k, x). split; [done|by apply assoc_elem].
  - intros [_ Hv]. apply Forall_forall. intros k Hin. rewrite elem_of_reverse in Hin.
    unfold js_sort in Hin. rewrite merge_sort_Permutation in Hin.
    destruct (assoc k ea) as [x|] eqn:Hx; [|by apply assoc_None in Hx].
    destruct (assoc k eb) as [y|] eqn:Hy; [by apply (Hv k)|].
    apply assoc_None in Hy. by apply Hk in Hin.
Qed.

Lemma deepEqual_sound fuel a b :
  heap_ok → _deepEqual rt h fuel a b = Some true → deq a b.
Proof.
  intros Hok. revert a b. induction fuel as [|fuel IH]; intros a b; [done|]. cbn [_deepEqual].
  destruct (dhead a b) as [r|ea eb] eqn:Hh; [intros [= ->]; by constructor|].
  destruct (dhead_parts _ _ _ _ Hok Hh) as [Ha Hb].
  rewrite parts_equal_true by done. intros [Hk Hv]. by eapply deq_parts; eauto.
Qed.

(** *** More depth does not change the answer *)

Lemma values_equal_mono e e' ks ea eb r :
  (∀ x y r, e x y = Some r → e' x y = Some r) →
  values_equal e ks ea eb = Some r → values_equal e' ks ea eb = Some r.
Proof.
  intros He. induction ks as [|k ks IH]; simpl; [done|].
  destruct (e _ _) as [r0|] eqn:Hr; [|done]. rewrite (He _ _ _ Hr). destruct r0; auto.
Qed.

Lemma deepEqual_mono fuel fuel' a b r :
  fuel ≤ fuel' → _deepEqual rt h fuel a b = Some r → _deepEqual rt h fuel' a b = Some r.
Proof.
  revert fuel' a b r. induction fuel as [|fuel IH]; intros [|fuel'] a b r Hf; try done; [lia|].
  cbn [_deepEqual]. destruct (dhead a b) as [|ea eb]; [done|]. unfold parts_equal.
  destruct (negb _); [done|]. destruct (negb _); [done|].
  apply values_equal_mono. intros. apply IH; [lia|done].
Qed.

(** Finitely many answers have a common depth. *)
Lemma common_fuel (P : nat → jstr → Prop) (ks : list jstr) :
  (∀ n m k, n ≤ m → P n k → P m k) → (∀ k, k ∈ ks → ∃ n, P n k) →
  ∃ n, ∀ k, k ∈ ks → P n k.
Proof.
  intros Hmono. induction ks as [|k ks IH]; intros Hk.
  - exists 0. by intros ? ?%not_elem_of_nil.
  - destruct IH as [n Hn]; [intros; apply Hk; by right|].
    destruct (Hk k) as [m Hm]; [by left|]. exists (n `max` m).
    intros k' [->|Hin]%elem_of_cons; [eapply Hmono; [|exact Hm]; lia|].
    eapply Hmono; [|by apply Hn]. lia.
Qed.

Lemma deepEqual_complete a b :
  heap_ok → deq a b → ∃ fuel, _deepEqual rt h fuel a b = Some true.
Proof.
  intros Hok. induction 1 as [a b Hh|a b ea eb Hh Hk _ IH].
  - exists 1. cbn [_deepEqual]. by rewrite Hh.
  - destruct (dhead_parts _ _ _ _ Hok Hh) as [Ha Hb].
    destruct (common_fuel (λ n k, ∀ x y, assoc k ea = Some x → assoc k eb = Some y →
      _deepEqual rt h n x y = Some true) (map fst ea)) as [n Hn].
    + intros n m k Hnm HP x y Hx Hy. eapply deepEqual_mono; [exact Hnm|]. auto.
    + intros k Hin. destruct (assoc k ea) as [x|] eqn:Hx; [|by apply assoc_None in Hx].
      destruct (assoc k eb) as [y|] eqn:Hy; [|by exists 0].
      destruct (IH k x y Hx Hy) as [n Hn]. exists n. by intros ?? [= <-] [= <-].
    + exists (S n). cbn [_deepEqual]. rewrite Hh, parts_equal_true by done.
      split; [done|]. intros k x y Hx Hy. apply (Hn k); [|done|done].
      apply list_elem_of_fmap. exists (k, x). split; [done|by apply assoc_elem].
Qed.

(** *** It ends on what has no cycle *)

(** [x] is a property of [a] that is compared. *)
Definition component (x a : jsval) : Prop :=
  ∃ la, a = Ref la ∧ ∃ k, (k, x) ∈ entries_of h la ++ slice_entries h la.

Lemma values_equal_some e ks ea eb :
  (∀ x y, is_Some (e x y)) ∨ (∀ k, k ∈ ks → is_Some (e (default Undef (assoc k ea))
                                                    (default Undef (assoc k eb)))) →
  is_Some (values_equal e ks ea eb).
Proof.
  intros He. assert (He' : ∀ k, k ∈ ks → is_Some (e (default Undef (assoc k ea))
    (default Undef (assoc k eb)))) by (destruct He; auto). clear He.
  induction ks as [|k ks IH]; simpl; [by eexists|].
  destruct (He' k) as [[] ->]; [by left| |by eexists].
  apply IH. intros. apply He'. by right.
Qed.

Lemma deepEqual_total a b :
  Acc component a → ∃ fuel, is_Some (_deepEqual rt h fuel a b).
Proof.
  intros Ha. revert b. induction Ha as [a _ IH]. intros b.
  destruct (dhead a b) as [r|ea eb] eqn:Hh.
  { exists 1. cbn [_deepEqual]. rewrite Hh. by eexists. }
  assert (Hcomp : ∀ k x, assoc k ea = Some x → component x a).
  { intros k x Hx%assoc_elem. unfold deepEqual_head, objEquiv_head in Hh.
    repeat (case_match; try done); simplify_eq; eexists; (split; [done|]); exists k;
      apply elem_of_app; auto. }
  destruct (common_fuel (λ n k, is_Some (_deepEqual rt h n (default Undef (assoc k ea))
      (default Undef (assoc k eb)))) (filter (λ k, is_Some (assoc k ea)) (map fst ea)))
    as [n Hn].
  - intros n m k Hnm [r Hr]. exists r. by eapply deepEqual_mono.
  - intros k [[x Hx] _]%list_elem_of_filter. rewrite Hx. simpl. apply IH. by eapply Hcomp.
  - exists (S n). cbn [_deepEqual]. rewrite Hh. unfold parts_equal.
    destruct (negb _); [by eexists|]. destruct (negb _); [by eexists|].
    apply values_equal_some. right. intros k Hin. apply Hn. apply list_elem_of_filter.
    rewrite elem_of_reverse in Hin. unfold js_sort in Hin. rewrite merge_sort_Permutation in Hin.
    split; [|done]. destruct (assoc k ea) eqn:Hx; [by eexists|]. by apply assoc_None in Hx.
Qed.

(** C25: without an object that has two properties of one name, the comparison
    of [assert.deepEqual] says yes, at some depth, exactly for values equal by
    structure (the same keys, equal values under each), at a greater depth it
    says the same, and it ends when the first value has no cycle. *)
Theorem deepEqual_spec a b :
  heap_ok →
  ((∃ fuel, _deepEqual rt h fuel a b = Some true) ↔ deq a b) ∧
  (∀ fuel fuel' r, fuel ≤ fuel' → _deepEqual rt h fuel a b = Some r →
     _deepEqual rt h fuel' a b = Some r) ∧
  (Acc component a → ∃ fuel r, _deepEqual rt h fuel a b = Some r).
Proof.
  intros Hok. split_and!.
  - split; [intros [fuel Hf]; by eapply deepEqual_sound|by apply deepEqual_complete].
  - intros. by eapply deepEqual_mono.
  - intros Ha. destruct (deepEqual_total a b Ha) as (fuel&r&Hr). by exists fuel, r.
Qed.
End deepEqual_facts.

(** ** Witnesses and examples *)

Lemma leaf_part h (n : spec_float) p : Acc (part h p) (Num n).
Proof. constructor. intros x (la&[=]&_). Defined.

Lemma array_part (x : jsval) :
  part two_records 9 x (Ref 1) → ∃ n, x = Num n.
Proof.
  intros (la&Hla&Hx). vm_compute in Hla. injection Hla as <-. destruct Hx as [Hx|[k Hx]].
  - vm_compute in Hx. repeat (apply elem_of_cons in Hx as [->|Hx]; [by eexists|]).
    by apply not_elem_of_nil in Hx.
  - vm_compute in Hx. repeat (apply elem_of_cons in Hx as [[= _ ->]|Hx]; [by eexists|]).
    by apply not_elem_of_nil in Hx.
Defined.

Lemma isEqual_spec_witness :
  bisimilar plain_runtime two_records 9 (Ref 0) (Ref 2) ∧
  (bisimilar plain_runtime two_records 9 (Ref 1) (Ref 3) →
   isEqual plain_runtime two_records 9 (Ref 1) (Ref 3) = Some (Verdict true)).
Proof.
  split.
  - apply (isEqual_spec plain_runtime two_records 9 (Ref 0) (Ref 2)). vm_compute. reflexivity.
  - apply (isEqual_spec plain_runtime two_records 9 (Ref 1) (Ref 3)).
    constructor. intros x Hx. destruct (array_part x Hx) as [n ->]. apply leaf_part.
Defined.

Lemma deepEqual_spec_witness : deq plain_runtime two_records (Ref 0) (Ref 2).
Proof.
  apply (deepEqual_spec plain_runtime two_records (Ref 0) (Ref 2)).
  - unfold heap_ok, two_records. repeat (constructor; [apply (bool_decide_unpack _); vm_compute; exact I|]).
    constructor.
  - exists 3. vm_compute. reflexivity.
Defined.

(** On two arrays that contain themselves no depth is enough. *)
Definition two_loops : heap := [array [Ref 0]; array [Ref 1]].
Lemma deepEqual_cycle fuel : _deepEqual plain_runtime two_loops fuel (Ref 0) (Ref 1) = None.
Proof.
  induction fuel as [|fuel IH]; [done|]. cbn [_deepEqual].
  replace (deepEqual_head plain_runtime two_loops (Ref 0) (Ref 1))
    with (DParts [(u "0", Ref 0)] [(u "0", Ref 1)]) by (vm_compute; reflexivity).
  unfold parts_equal. cbn [map fst length Nat.eqb negb].
  rewrite bool_decide_eq_true_2 by done. cbn [negb].
  change (reverse (js_sort [u "0"])) with [u "0"]. cbn [values_equal].
  change (default Undef (assoc (u "0") [(u "0", Ref 0)])) with (Ref 0).
  change (default Undef (assoc (u "0") [(u "0", Ref 1)])) with (Ref 1).
  by rewrite IH.
Qed.

(** A block that throws a falsy value counts as one that does not throw. *)
Lemma throws_falsy test validate str message :
  assert_doesNotThrow [] test validate str (Some (Num (num_of_Z 0))) Undef message = Passes ∧
  ∃ text, assert_throws [] test validate str (Some (Num (num_of_Z 0))) Undef message
    = Fails (Num (num_of_Z 0)) Undef text "".
Proof. split; [done|]. eexists. reflexivity. Qed.
