(* ===== verification/Wordcut.v ===== *)
(** * The Thai word segmenter of the documentation site

    [lunr/wordcut.js], its own modules: [acceptors], [dict], [latin_rules],
    [path_info_builder], [path_selector], [thai_rules], [wordcut] and
    [wordcut_core].  The dictionary is an argument: any list of words, as
    [WordcutDict.dict] is any array.  A step that the code would abort with a
    TypeError is [None]; the theorems show that it does not happen. *)

From S2P Require Import Prelude JsString.

(** ** Acceptors

    An acceptor object: its kind carries the fields only that kind has
    ([patterns] of the part rule, [l] and [r] of the dictionary). *)

Inductive kind :=
| WORD_RULE
| SPACE_RULE
| SINSYM
| NUMBER_RULE
| THAI_RULE
| PART (patterns : list jstr)
| DICT (l r : Z).

Record acceptor := Acceptor {
  a_kind : kind;
  strOffset : nat;
  isFinal : bool;
  isError : bool;
}.

(** [acceptor.tag] and [acceptor.type], the same string in every rule. *)
Definition tag_of (k : kind) : string :=
  match k with
  | WORD_RULE => "WORD_RULE"
  | SPACE_RULE => "SPACE_RULE"
  | SINSYM => "SINSYM"
  | NUMBER_RULE => "NUMBER_RULE"
  | THAI_RULE => "THAI_RULE"
  | PART _ => "PART"
  | DICT _ _ => "DICT"
  end.

(** [acceptor.w], [acceptor.unk ? acceptor.unk : 0] and
    [acceptor.mw === undefined ? 0 : acceptor.mw]. *)
Definition acceptor_w (k : kind) : nat := 1.
Definition acceptor_unk (k : kind) : nat :=
  match k with PART _ => 1 | _ => 0 end.
Definition acceptor_mw (k : kind) : nat := 0.

(** Consume a unit, as [this.strOffset++] and the [isFinal] the rule sets. *)
Definition accept (a : acceptor) (final : bool) : acceptor :=
  {| a_kind := a_kind a; strOffset := S (strOffset a);
     isFinal := final; isError := isError a |}.

(** [this.isError = true]. *)
Definition reject (a : acceptor) : acceptor :=
  {| a_kind := a_kind a; strOffset := strOffset a;
     isFinal := isFinal a; isError := true |}.

(** *** Latin rules *)

(** [lch >= "a" && lch <= "z"] with [lch = ch.toLowerCase()]: an ASCII letter,
    or one of the two other units whose lower case starts with an ASCII letter
    (U+0130 to "i" and a combining dot, U+212A to "k"). *)
Definition is_latin (ch : N) : bool :=
  (((97 <=? ch) && (ch <=? 122)) || ((65 <=? ch) && (ch <=? 90))
   || (ch =? 304) || (ch =? 8490))%N.

(** [ch >= "0" && ch <= "9"]. *)
Definition is_digit (ch : N) : bool := ((48 <=? ch) && (ch <=? 57))%N.

(** Space, tab, carriage return, newline, nbsp and emsp. *)
Definition is_space (ch : N) : bool :=
  ((ch =? 32) || (ch =? 9) || (ch =? 13) || (ch =? 10)
   || (ch =? 160) || (ch =? 8195))%N.

(** The class of [SingleSymbolRule]: @ ( ) / , - . double quote, backquote. *)
Definition is_symbol (ch : N) : bool :=
  existsb (N.eqb ch) [64; 40; 41; 47; 44; 45; 46; 34; 96]%N.

(** *** Thai rules *)

(** /[ก-ฮ]/, /[กข]/, /[มบ]/, /\u0E49/ and /[\u0E48-\u0E4B]/. *)
Definition thai_consonant (ch : N) : bool := ((0x0E01 <=? ch) && (ch <=? 0x0E2E))%N.
Definition thai_k_kh (ch : N) : bool := ((ch =? 0x0E01) || (ch =? 0x0E02))%N.
Definition thai_m_b (ch : N) : bool := ((ch =? 0x0E21) || (ch =? 0x0E1A))%N.
Definition thai_tone (ch : N) : bool := ((0x0E48 <=? ch) && (ch <=? 0x0E4B))%N.

Definition isMatch (pat : jstr) (offset : nat) (ch : N) : bool :=
  match pat !! offset with
  | None => false
  | Some _ch =>
      (_ch =? ch)%N
      || (thai_k_kh _ch && thai_consonant ch)
      || (thai_m_b _ch && thai_consonant ch)
      || ((_ch =? 0x0E49)%N && thai_tone ch)
  end.

(** [Rule0.pat] and the patterns [PartRule.createAcceptor] starts from. *)
Definition Rule0_pat : jstr := u "เหก็ม".
Definition PartRule_patterns : list jstr :=
  [u "แก"; u "เก"; u "ก้"; u "กก์"; u "กา"; u "กี"; u "กิ"; u "กืก"].

(** *** The dictionary *)

Inductive seek_pos := LEFT | RIGHT.

Section dict.
Variable dict : list jstr.

(** The loop of [WordcutDict.dictSeek]; one unit of fuel per iteration. *)
Fixpoint dictSeek_loop (fuel : nat) (l r : Z) (ch : N) (off : nat)
    (pos : seek_pos) (ans : option Z) : option (option Z) :=
  match fuel with
  | 0 => Some ans
  | S fuel =>
      if (l <=? r)%Z then
        let m := ((l + r) / 2)%Z in
        dict_item ← dict !! Z.to_nat m;
        match dict_item !! off with
        | None => dictSeek_loop fuel (m + 1) r ch off pos ans
        | Some ch_ =>
            if (ch_ <? ch)%N then dictSeek_loop fuel (m + 1) r ch off pos ans
            else if (ch <? ch_)%N then dictSeek_loop fuel l (m - 1) ch off pos ans
            else match pos with
                 | LEFT => dictSeek_loop fuel l (m - 1) ch off pos (Some m)
                 | RIGHT => dictSeek_loop fuel (m + 1) r ch off pos (Some m)
                 end
        end
      else Some ans
  end.

(** The interval loses an index per iteration: its length is fuel enough. *)
Definition dictSeek (l r : Z) (ch : N) (off : nat) (pos : seek_pos) :
    option (option Z) :=
  dictSeek_loop (Z.to_nat (r - l + 1)) l r ch off pos None.

(** [WordcutDict.isFinal]. *)
Definition dict_isFinal (l : Z) (off : nat) : option bool :=
  dict_item ← dict !! Z.to_nat l;
  Some (length dict_item =? off).

(** [WordcutDict.transit]. *)
Definition dict_transit (a : acceptor) (al ar : Z) (ch : N) : option acceptor :=
  lo ← dictSeek al ar ch (strOffset a) LEFT;
  match lo with
  | Some l =>
      ro ← dictSeek l ar ch (strOffset a) RIGHT;
      r ← ro;
      fin ← dict_isFinal l (S (strOffset a));
      Some {| a_kind := DICT l r; strOffset := S (strOffset a);
              isFinal := fin; isError := isError a |}
  | None => Some (reject a)
  end.

(** The [transit] method of each acceptor. *)
Definition transit (ch : N) (a : acceptor) : option acceptor :=
  match a_kind a with
  | WORD_RULE => Some (if is_latin ch then accept a true else reject a)
  | NUMBER_RULE => Some (if is_digit ch then accept a true else reject a)
  | SPACE_RULE => Some (if is_space ch then accept a true else reject a)
  | SINSYM =>
      Some (if (strOffset a =? 0) && is_symbol ch then accept a true else reject a)
  | THAI_RULE =>
      Some (if isMatch Rule0_pat (strOffset a) ch
            then accept a (strOffset a + 1 =? length Rule0_pat)
            else reject a)
  | PART patterns =>
      let patterns' := List.filter (λ pat, isMatch pat (strOffset a) ch) patterns in
      let a' := {| a_kind := PART patterns'; strOffset := strOffset a;
                   isFinal := isFinal a; isError := isError a |} in
      Some (if 0 <? length patterns'
            then accept a' (existsb (λ pat, length pat =? 1 + strOffset a) patterns')
            else reject a')
  | DICT l r => dict_transit a l r ch
  end.

(** [self.acceptors.creators], in the order [initNoDict] and [init] push
    them: the latin rules, the Thai rules, the dictionary. *)
Inductive creator :=
| WordRule | SpaceRule | SingleSymbolRule | NumberRule
| Rule0 | PartRule
| WordcutDict.

Definition creators : list creator :=
  [WordRule; SpaceRule; SingleSymbolRule; NumberRule; Rule0; PartRule; WordcutDict].

Definition new_acceptor (k : kind) : acceptor :=
  {| a_kind := k; strOffset := 0; isFinal := false; isError := false |}.

(** [creator.createAcceptor(tag)]. *)
Definition createAcceptor (tag : gmap string acceptor) (c : creator) : option acceptor :=
  match c with
  | WordRule =>
      match tag !! "WORD_RULE" with
      | Some _ => None | None => Some (new_acceptor WORD_RULE) end
  | NumberRule =>
      match tag !! "NUMBER_RULE" with
      | Some _ => None | None => Some (new_acceptor NUMBER_RULE) end
  | SpaceRule =>
      match tag !! "SPACE_RULE" with
      | Some _ => None | None => Some (new_acceptor SPACE_RULE) end
  | SingleSymbolRule => Some (new_acceptor SINSYM)
  | Rule0 => Some (new_acceptor THAI_RULE)
  | PartRule => Some (new_acceptor (PART PartRule_patterns))
  | WordcutDict => Some (new_acceptor (DICT 0 (Z.of_nat (length dict) - 1)))
  end.

(** [Acceptors]: the live acceptors, and the last of each tag. *)
Record acceptors := Acceptors {
  current : list acceptor;
  tag : gmap string acceptor;
}.

Definition acceptors_reset : acceptors := {| current := []; tag := ∅ |}.

Definition tags_of (l : list acceptor) : gmap string acceptor :=
  foldl (λ t a, <[tag_of (a_kind a) := a]> t) ∅ l.

(** [Acceptors.transit]. *)
Definition acceptors_transit (st : acceptors) (ch : N) : option acceptors :=
  let created := omap (createAcceptor (tag st)) creators in
  moved ← mapM (transit ch) (current st ++ created);
  let _current := List.filter (λ a, negb (isError a)) moved in
  Some {| current := _current; tag := tags_of _current |}.

Definition getFinalAcceptors (st : acceptors) : list acceptor :=
  List.filter isFinal (current st).
End dict.

(** ** Paths

    One entry per position of the text; [path_info] is an element of the path
    array.  [merge] is [undefined] until a part rule sets it. *)

Record path_info := PathInfo {
  p : option nat;          (* null in the initial entry *)
  mw : nat;
  w : nat;
  unk : nat;
  ptype : string;
  merge : option nat;
}.

Definition set_merge (m : nat) (info : path_info) : path_info :=
  {| p := p info; mw := mw info; w := w info; unk := unk info;
     ptype := ptype info; merge := Some m |}.

(** [for (var j = q + 1; j <= i; j++) path[j].merge = q]. *)
Definition mark_merge (path : list path_info) (q i : nat) : option (list path_info) :=
  if (q <? i) && (length path <=? i) then None
  else Some (imap (λ j info, if (q + 1 <=? j) && (j <=? i)
                             then set_merge q info else info) path).

Definition is_part (k : kind) : bool :=
  match k with PART _ => true | _ => false end.

(** [PathInfoBuilder.buildByAcceptors]: the infos and the path as the part
    rules leave it. *)
Fixpoint buildByAcceptors (path : list path_info) (finals : list acceptor) (i : nat)
    : option (list path_info * list path_info) :=
  match finals with
  | [] => Some ([], path)
  | a :: rest =>
      if i + 1 <? strOffset a then None
      else
        let q := i + 1 - strOffset a in
        _info ← path !! q;
        let part := is_part (a_kind a) in
        let info :=
          {| p := Some q;
             mw := mw _info + acceptor_mw (a_kind a);
             w := acceptor_w (a_kind a) + w _info;
             unk := acceptor_unk (a_kind a) + unk _info;
             ptype := tag_of (a_kind a);
             merge := if part then Some q else None |} in
        path' ← (if part then mark_merge path q i else Some path);
        '(infos, path'') ← buildByAcceptors path' rest i;
        Some (info :: infos, path'')
  end.

(** [/[\u0E48-\u0E4E]/]. *)
Definition thai_mark (ch : N) : bool := ((0x0E48 <=? ch) && (ch <=? 0x0E4E))%N.

(** [PathInfoBuilder.fallback]. *)
Definition fallback (path : list path_info) (leftBoundary : nat) (text : jstr) (i : nat)
    : option path_info :=
  _info ← path !! leftBoundary;
  ch ← text !! i;
  if thai_mark ch then
    lb ← (if leftBoundary =? 0 then Some (Some 0)
          else b ← path !! leftBoundary; Some (p b));
    Some {| p := lb; mw := 0; w := 1 + w _info; unk := 1 + unk _info;
            ptype := "UNK"; merge := None |}
  else
    Some {| p := Some leftBoundary; mw := mw _info; w := 1 + w _info;
            unk := 1 + unk _info; ptype := "UNK"; merge := None |}.

(** [PathInfoBuilder.build]. *)
Definition build (path : list path_info) (finals : list acceptor) (i leftBoundary : nat)
    (text : jstr) : option (list path_info * list path_info) :=
  '(basicPathInfos, path') ← buildByAcceptors path finals i;
  if 0 <? length basicPathInfos then Some (basicPathInfos, path')
  else
    info ← fallback path' leftBoundary text i;
    Some ([info], path').

(** [PathSelector.selectPath]: the reduction starts from null. *)
Definition select_step (selectedPath : option path_info) (path : path_info)
    : option path_info :=
  match selectedPath with
  | None => Some path
  | Some sel =>
      if unk path <? unk sel then Some path
      else if (unk path =? unk sel) && (mw path <? mw sel) then Some path
      else if (unk path =? unk sel) && (mw path =? mw sel) && (w path <? w sel)
           then Some path
      else Some sel
  end.

Definition selectPath (paths : list path_info) : option path_info :=
  foldl select_step None paths.

(** [PathSelector.createPath]. *)
Definition createPath : list path_info :=
  [{| p := None; mw := 0; w := 0; unk := 0; ptype := "INIT"; merge := None |}].

(** ** [WordcutCore] *)

Section core.
Variable dict : list jstr.

(** The loop of [buildPath]: [rest] is what is left of the text at [i]. *)
Fixpoint buildPath_loop (text rest : jstr) (i : nat) (path : list path_info)
    (leftBoundary : nat) (st : acceptors) : option (list path_info) :=
  match rest with
  | [] => Some path
  | ch :: rest' =>
      st' ← acceptors_transit dict st ch;
      '(possiblePathInfos, path') ←
        build path (getFinalAcceptors st') i leftBoundary text;
      selectedPath ← selectPath possiblePathInfos;
      buildPath_loop text rest' (S i) (path' ++ [selectedPath])
        (if decide (ptype selectedPath = "UNK") then leftBoundary else i) st'
  end.

Definition buildPath (text : jstr) : option (list path_info) :=
  buildPath_loop text text 0 createPath 0 acceptors_reset.

Record range := Range { r_s : nat; r_e : nat }.

(** The loop of [pathToRanges]; the list holds the ranges with the last one
    pushed first, so that it is the reversed array at the end. *)
Fixpoint pathToRanges_loop (fuel : nat) (path : list path_info) (e : nat)
    (ranges : list range) : option (list range) :=
  if e =? 0 then Some ranges
  else match fuel with
  | 0 => None
  | S fuel =>
      info ← path !! e;
      match merge info, ranges with
      | Some m, r :: rs =>
          pathToRanges_loop fuel path m ({| r_s := m; r_e := r_e r |} :: rs)
      | _, _ =>
          s ← p info;
          pathToRanges_loop fuel path s ({| r_s := s; r_e := e |} :: ranges)
      end
  end.

Definition pathToRanges (path : list path_info) : option (list range) :=
  pathToRanges_loop (length path) path (length path - 1) [].

(** [text.substring(r.s, r.e)] of each range. *)
Definition rangesTexts (text : jstr) (ranges : list range) : list jstr :=
  map (λ r, substring text (r_s r) (r_e r)) ranges.

Definition rangesToText (text : jstr) (ranges : list range) (delimiter : jstr) : jstr :=
  join delimiter (rangesTexts text ranges).

Definition cut (text : jstr) (delimiter : option jstr) : option jstr :=
  path ← buildPath text;
  ranges ← pathToRanges path;
  Some (rangesToText text ranges (default (u "|") delimiter)).

(** [cutIntoRanges]: each range with its text unless [noText]. *)
Definition cutIntoRanges (text : jstr) (noText : bool) : option (list (range * option jstr)) :=
  path ← buildPath text;
  ranges ← pathToRanges path;
  Some (map (λ r, (r, if noText then None else Some (substring text (r_s r) (r_e r))))
          ranges).

Definition cutIntoArray (text : jstr) : option (list jstr) :=
  path ← buildPath text;
  ranges ← pathToRanges path;
  Some (rangesTexts text ranges).
End core.

(** ** The dictionary's words *)

(** [s.split(/[\r\n]+/)]: the parts are cut at every maximal run of line ends. *)
Fixpoint split_lines_aux (s : jstr) (cur : jstr) (in_sep : bool) : list jstr :=
  match s with
  | [] => [cur]
  | c :: s' =>
      if ((c =? 13) || (c =? 10))%N
      then if in_sep then split_lines_aux s' [] true
           else cur :: split_lines_aux s' [] true
      else split_lines_aux s' (cur ++ [c]) false
  end.
Definition split_lines (s : jstr) : list jstr := split_lines_aux s [] false.

(** [sortuniq]: the filter compares with the element before in the sorted
    array. *)
Fixpoint uniq_from (prev : jstr) (l : list jstr) : list jstr :=
  match l with
  | [] => []
  | x :: l' => if decide (x = prev) then uniq_from x l' else x :: uniq_from x l'
  end.
Definition sortuniq (a : list jstr) : list jstr :=
  match js_sort a with
  | [] => []
  | x :: l => x :: uniq_from x l
  end.

(** [WordcutDict.init]: [tdict] is the word list embedded in [addFiles], which
    its one-turn loop always adds, whatever the paths are. *)
Definition addWords (dict words : list jstr) : list jstr := dict ++ words.
Definition addFiles (tdict : jstr) (dict : list jstr) : list jstr :=
  addWords dict (List.filter (λ word, 1 <? length word) (split_lines tdict)).
Definition dict_init (tdict : jstr) (words : option (list jstr)) : list jstr :=
  let d := addFiles tdict [] in
  let d := match words with Some ws => addWords d ws | None => d end in
  sortuniq d.

(** ** The dictionary as a trie

    [dictSeek] finds the first or last index of the interval whose word has
    the unit at the offset; on a sorted dictionary the interval of an acceptor
    is the set of the words that start with what it has read. *)

Section seek.
Variables (dict : list jstr) (off : nat) (ch : N).

(** The unit of word [i] at the offset. *)
Definition seek_key (i : Z) : option N :=
  word ← dict !! Z.to_nat i; word !! off.

Definition key_le (a b : option N) : Prop :=
  match a, b with
  | None, _ => True
  | Some x, Some y => (x ≤ y)%N
  | Some _, None => False
  end.

Definition beyond (pos : seek_pos) (m i : Z) : Prop :=
  match pos with LEFT => (m ≤ i)%Z | RIGHT => (i ≤ m)%Z end.

(** What a search of [l0..r0] returns. *)
Definition seek_spec (l0 r0 : Z) (pos : seek_pos) (ans : option Z) : Prop :=
  match ans with
  | None => ∀ i, (l0 ≤ i ≤ r0)%Z → seek_key i ≠ Some ch
  | Some m => (l0 ≤ m ≤ r0)%Z ∧ seek_key m = Some ch ∧
      ∀ i, (l0 ≤ i ≤ r0)%Z → seek_key i = Some ch → beyond pos m i
  end.

Variables (l0 r0 : Z).
Hypothesis Hl0 : (0 ≤ l0)%Z.
Hypothesis Hr0 : (r0 < Z.of_nat (length dict))%Z.
Hypothesis Hmono : ∀ i j, (l0 ≤ i)%Z → (i ≤ j)%Z → (j ≤ r0)%Z →
  key_le (seek_key i) (seek_key j).

Definition seek_inv (pos : seek_pos) (l r : Z) (ans : option Z) : Prop :=
  (l0 ≤ l)%Z ∧ (r ≤ r0)%Z ∧ (l ≤ r + 1)%Z ∧
  (∀ i, (l0 ≤ i ≤ r0)%Z → seek_key i = Some ch →
    (l ≤ i ≤ r)%Z ∨ ∃ m, ans = Some m ∧ beyond pos m i) ∧
  (∀ m, ans = Some m → (l0 ≤ m ≤ r0)%Z ∧ seek_key m = Some ch ∧
    match pos with LEFT => (r < m)%Z | RIGHT => (m < l)%Z end).

(** The half below [m] holds no hit when the key at [m] is too small. *)
Lemma seek_inv_low pos l r ans m :
  seek_inv pos l r ans → (l ≤ m ≤ r)%Z →
  (∀ k, seek_key m = Some k → (k < ch)%N) →
  seek_inv pos (m + 1) r ans.
Proof.
  intros (?&?&?&Hin&Hans) Hm Hk. split_and!; try lia.
  - intros i Hi Hkey. destruct (Hin i Hi Hkey) as [?|?]; [|by right].
    destruct (decide (i ≤ m)%Z); [|left; lia].
    pose proof (Hmono i m ltac:(lia) ltac:(lia) ltac:(lia)) as Hle.
    rewrite Hkey in Hle. destruct (seek_key m) as [k|]; [|done].
    specialize (Hk k eq_refl). simpl in Hle. lia.
  - intros m' Hm'. destruct (Hans m' Hm') as (?&?&?).
    split_and!; try done; try lia. destruct pos; lia.
Qed.

Lemma seek_inv_high pos l r ans m k :
  seek_inv pos l r ans → (l ≤ m ≤ r)%Z →
  seek_key m = Some k → (ch < k)%N →
  seek_inv pos l (m - 1) ans.
Proof.
  intros (?&?&?&Hin&Hans) Hm Hkm Hk. split_and!; try lia.
  - intros i Hi Hkey. destruct (Hin i Hi Hkey) as [?|?]; [|by right].
    destruct (decide (m ≤ i)%Z); [|left; lia].
    pose proof (Hmono m i ltac:(lia) ltac:(lia) ltac:(lia)) as Hle.
    rewrite Hkey, Hkm in Hle. simpl in Hle. lia.
  - intros m' Hm'. destruct (Hans m' Hm') as (?&?&?).
    split_and!; try done; try lia. destruct pos; lia.
Qed.

Lemma seek_inv_hit pos l r ans m :
  seek_inv pos l r ans → (l ≤ m ≤ r)%Z → seek_key m = Some ch →
  match pos with
  | LEFT => seek_inv pos l (m - 1) (Some m)
  | RIGHT => seek_inv pos (m + 1) r (Some m)
  end.
Proof.
  intros (?&?&?&Hin&Hans) Hm Hkm.
  destruct pos; cbv beta iota; unfold seek_inv; split_and!; try lia;
    [|intros m' [= <-]; split_and!; try done; lia
     | |intros m' [= <-]; split_and!; try done; lia];
    intros i Hi Hkey; destruct (Hin i Hi Hkey) as [?|(m'&->&Hb)];
    try (destruct (Hans m' eq_refl) as (?&?&?));
    simpl in *.
  - destruct (decide (m ≤ i)%Z); [right; exists m; simpl; split; [done|lia]|left; lia].
  - right. exists m. split; [done|]. simpl. lia.
  - destruct (decide (i ≤ m)%Z); [right; exists m; simpl; split; [done|lia]|left; lia].
  - right. exists m. split; [done|]. simpl. lia.
Qed.

Lemma dictSeek_loop_spec fuel pos l r ans :
  Z.to_nat (r - l + 1) ≤ fuel → seek_inv pos l r ans →
  ∃ res, dictSeek_loop dict fuel l r ch off pos ans = Some res ∧
         seek_spec l0 r0 pos res.
Proof.
  assert (Hdone : ∀ l r ans, (r < l)%Z → seek_inv pos l r ans → seek_spec l0 r0 pos ans).
  { intros l1 r1 [m|] Hlr (?&?&?&Hin&Hans); simpl.
    - destruct (Hans m eq_refl) as (?&?&?). split_and!; try done; try lia.
      intros i Hi Hkey. destruct (Hin i Hi Hkey) as [?|(?&[= <-]&?)]; [lia|done].
    - intros i Hi Hkey. destruct (Hin i Hi Hkey) as [?|(?&?&?)]; [lia|done]. }
  revert l r ans. induction fuel as [|fuel IH]; intros l r ans Hf Hinv; simpl.
  { exists ans. split; [done|]. apply (Hdone l r); [|done].
    destruct Hinv as (?&?&?&?&?). lia. }
  destruct (Z.leb_spec l r) as [Hlr|Hlr]; [|exists ans; split; [done|by eapply Hdone]].
  set (m := ((l + r) / 2)%Z).
  assert (l ≤ m ≤ r)%Z as Hm.
  { unfold m. split; [apply Z.div_le_lower_bound|apply Z.div_le_upper_bound]; lia. }
  assert (is_Some (dict !! Z.to_nat m)) as [word Hword].
  { apply lookup_lt_is_Some. destruct Hinv as (?&?&?&?&?). lia. }
  rewrite Hword; simpl.
  assert (Hkey : seek_key m = word !! off) by (unfold seek_key; by rewrite Hword).
  destruct (word !! off) as [k|] eqn:Hk.
  - destruct (N.ltb_spec k ch); [|destruct (N.ltb_spec ch k)].
    + apply IH; [lia|]. eapply seek_inv_low; [done..|]. congruence.
    + apply IH; [lia|]. by eapply seek_inv_high.
    + assert (k = ch) as -> by lia.
      pose proof (seek_inv_hit pos l r ans m Hinv Hm Hkey).
      destruct pos; (apply IH; [lia|done]).
  - apply IH; [lia|]. eapply seek_inv_low; [done..|]. congruence.
Qed.

Lemma dictSeek_correct pos :
  (l0 ≤ r0 + 1)%Z →
  ∃ res, dictSeek dict l0 r0 ch off pos = Some res ∧ seek_spec l0 r0 pos res.
Proof.
  intros Hlr. apply dictSeek_loop_spec; [done|].
  split_and!; lia || done || (intros i Hi _; left; lia).
Qed.
End seek.

Section trie.
Variable dict : list jstr.
Hypothesis Hsorted : StronglySorted jstr_lt dict.

Lemma dict_sorted i j wi wj :
  dict !! i = Some wi → dict !! j = Some wj → i ≤ j → jstr_le wi wj.
Proof using Hsorted.
  intros Hi Hj Hij. destruct (decide (i = j)) as [->|]; [by simplify_eq|].
  by apply (StronglySorted_lookup jstr_lt dict i j wi wj Hsorted Hi Hj); lia.
Qed.

(** [l..r] is the set of the indices of the words that start with [s]. *)
Definition prefix_range (s : jstr) (l r : Z) : Prop :=
  (0 ≤ l)%Z ∧ (l ≤ r + 1)%Z ∧ (r < Z.of_nat (length dict))%Z ∧
  ∀ (i : nat) word, dict !! i = Some word →
    s `prefix_of` word ↔ (l ≤ Z.of_nat i ≤ r)%Z.

Lemma prefix_range_all : prefix_range [] 0 (Z.of_nat (length dict) - 1).
Proof.
  split_and!; try lia. intros i word Hi. apply lookup_lt_Some in Hi.
  split; [lia|]. intros _. apply prefix_nil.
Qed.

Lemma prefix_range_lookup s l r i :
  prefix_range s l r → (l ≤ i ≤ r)%Z →
  ∃ t, dict !! Z.to_nat i = Some (s ++ t) ∧ seek_key dict (length s) i = head t.
Proof.
  intros (?&?&?&Hp) Hi.
  destruct (lookup_lt_is_Some_2 dict (Z.to_nat i)) as [word Hword]; [lia|].
  destruct (proj2 (Hp _ _ Hword) ltac:(lia)) as [t ->]. exists t. split; [done|].
  unfold seek_key. rewrite Hword; simpl.
  rewrite lookup_app_r, Nat.sub_diag by done. by destruct t.
Qed.

Lemma prefix_range_mono s l r i j :
  prefix_range s l r → (l ≤ i)%Z → (i ≤ j)%Z → (j ≤ r)%Z →
  key_le (seek_key dict (length s) i) (seek_key dict (length s) j).
Proof using Hsorted.
  intros Hp Hi Hij Hj. pose proof Hp as (?&_).
  destruct (prefix_range_lookup s l r i Hp) as (ti&Hti&->); [lia|].
  destruct (prefix_range_lookup s l r j Hp) as (tj&Htj&->); [lia|].
  pose proof (dict_sorted _ _ _ _ Hti Htj ltac:(lia)) as Hle.
  apply jstr_le_app in Hle.
  destruct ti as [|x ti], tj as [|y tj]; try done; simpl.
  apply jstr_le_cons in Hle. lia.
Qed.

(** One unit more: the two searches give the interval of the longer prefix. *)
Lemma seek_prefix_range s l r ch :
  prefix_range s l r →
  ∃ lo, dictSeek dict l r ch (length s) LEFT = Some lo ∧
    match lo with
    | None => ∀ word, word ∈ dict → ¬ (s ++ [ch]) `prefix_of` word
    | Some l' => ∃ r', dictSeek dict l' r ch (length s) RIGHT = Some (Some r') ∧
        (l' ≤ r')%Z ∧ prefix_range (s ++ [ch]) l' r'
    end.
Proof using Hsorted.
  intros Hp. pose proof Hp as (Hl&Hlr&Hr&Hiff).
  assert (Hstep : ∀ i word, dict !! i = Some word →
    (s ++ [ch]) `prefix_of` word ↔
      (l ≤ Z.of_nat i ≤ r)%Z ∧ seek_key dict (length s) (Z.of_nat i) = Some ch).
  { intros i word Hi. split.
    - intros [t ->]. assert ((l ≤ Z.of_nat i ≤ r)%Z) as Hin.
      { apply (Hiff _ _ Hi). exists (ch :: t). by rewrite <-app_assoc. }
      split; [done|]. unfold seek_key. rewrite Nat2Z.id, Hi; simpl.
      rewrite <-app_assoc, lookup_app_r, Nat.sub_diag by done. done.
    - intros [Hin Hkey]. destruct (prefix_range_lookup s l r (Z.of_nat i) Hp Hin)
        as (t&Ht&Hhead).
      rewrite Nat2Z.id, Hi in Ht. simplify_eq. rewrite Hkey in Hhead.
      destruct t as [|c t]; simplify_eq/=. exists t. by rewrite <-app_assoc. }
  destruct (dictSeek_correct dict (length s) ch l r Hl Hr
    (λ i j, prefix_range_mono s l r i j Hp) LEFT Hlr) as (lo&Hlo&Hspec).
  exists lo. split; [done|]. destruct lo as [l'|]; simpl in Hspec.
  - destruct Hspec as (Hl'&Hkl&Hfirst).
    destruct (dictSeek_correct dict (length s) ch l' r ltac:(lia) Hr
      (λ i j Hi, prefix_range_mono s l r i j Hp ltac:(lia)) RIGHT ltac:(lia))
      as (ro&Hro&Hspec).
    destruct ro as [r'|]; simpl in Hspec; [|by destruct (Hspec l'); [lia|]].
    destruct Hspec as (Hr'&Hkr&Hlast). exists r'.
    split_and!; [done|lia|]. split_and!; try lia.
    intros i word Hi. rewrite (Hstep i word Hi). split.
    + intros [Hin Hkey]. split; [by apply Hfirst|].
      apply Hlast; [|done]. split; [by apply Hfirst|lia].
    + intros Hin. split; [lia|].
      pose proof (prefix_range_mono s l r l' (Z.of_nat i) Hp ltac:(lia) ltac:(lia) ltac:(lia)) as H1.
      pose proof (prefix_range_mono s l r (Z.of_nat i) r' Hp ltac:(lia) ltac:(lia) ltac:(lia)) as H2.
      rewrite Hkl in H1. rewrite Hkr in H2.
      destruct (seek_key dict (length s) (Z.of_nat i)) as [k|]; simpl in *; [f_equal; lia|done].
  - intros word [i Hi]%list_elem_of_lookup Hpre.
    apply (Hstep _ _ Hi) in Hpre as [Hin Hkey]. by eapply Hspec.
Qed.

Lemma prefix_range_final s l r :
  prefix_range s l r → (l ≤ r)%Z →
  ∃ b, dict_isFinal dict l (length s) = Some b ∧ (b = true ↔ s ∈ dict).
Proof using Hsorted.
  intros Hp Hlr. pose proof Hp as (?&_&?&Hiff).
  destruct (prefix_range_lookup s l r l Hp) as (t&Ht&_); [lia|].
  unfold dict_isFinal. rewrite Ht; simpl. eexists; split; [done|].
  rewrite Nat.eqb_eq, length_app. split.
  - intros Hlen. assert (t = []) as -> by (apply length_zero_iff_nil; lia).
    rewrite app_nil_r in Ht. by eapply list_elem_of_lookup_2.
  - intros [k Hk]%list_elem_of_lookup.
    pose proof (proj1 (Hiff _ _ Hk) ltac:(reflexivity)) as Hin.
    pose proof (dict_sorted _ _ _ _ Ht Hk ltac:(lia)) as Hle.
    rewrite <-(app_nil_r s) in Hle at 2. apply jstr_le_app, jstr_le_nil_r in Hle.
    subst t. simpl. lia.
Qed.

(** An acceptor as [Acceptors.transit] drives it: dropped at the first error. *)
Fixpoint feed (a : acceptor) (s : jstr) : option acceptor :=
  match s with
  | [] => Some a
  | ch :: s' =>
      a' ← transit dict ch a;
      if isError a' then Some a' else feed a' s'
  end.

Definition dict_acceptor_inv (s : jstr) (a : acceptor) : Prop :=
  ∃ l r, a_kind a = DICT l r ∧ strOffset a = length s ∧ isError a = false ∧
    prefix_range s l r ∧ (s ≠ [] → isFinal a = true ↔ s ∈ dict).

Lemma dict_transit_inv s a ch :
  dict_acceptor_inv s a →
  ∃ a', transit dict ch a = Some a' ∧
    ((isError a' = false ∧ dict_acceptor_inv (s ++ [ch]) a' ∧
       ∃ word, word ∈ dict ∧ (s ++ [ch]) `prefix_of` word) ∨
     (isError a' = true ∧ ∀ word, word ∈ dict → ¬ (s ++ [ch]) `prefix_of` word)).
Proof using Hsorted.
  intros (l&r&Hk&Hoff&Herr&Hp&_). unfold transit. rewrite Hk. unfold dict_transit.
  rewrite Hoff. destruct (seek_prefix_range s l r ch Hp) as (lo&->&Hlo); simpl.
  destruct lo as [l'|]; [|by eauto].
  destruct Hlo as (r'&->&Hlr&Hp'); simpl.
  destruct (prefix_range_final (s ++ [ch]) l' r' Hp' Hlr) as (b&Hb&Hiff).
  rewrite length_app, Nat.add_comm in Hb; simpl in Hb. rewrite Hb; simpl.
  eexists; split; [done|]. left. split_and!; [done| |].
  - exists l', r'. simpl. rewrite length_app, Nat.add_comm. done.
  - destruct (prefix_range_lookup _ l' r' l' Hp') as (t&Ht&_); [lia|].
    exists ((s ++ [ch]) ++ t). split; [by eapply list_elem_of_lookup_2|by apply prefix_app_r].
Qed.

Lemma feed_dict_inv s0 s a :
  dict_acceptor_inv s0 a →
  ∃ a', feed a s = Some a' ∧
    ((isError a' = false ∧ dict_acceptor_inv (s0 ++ s) a' ∧
       (s ≠ [] → ∃ word, word ∈ dict ∧ (s0 ++ s) `prefix_of` word)) ∨
     (isError a' = true ∧ ∀ word, word ∈ dict → ¬ (s0 ++ s) `prefix_of` word)).
Proof using Hsorted.
  revert s0 a. induction s as [|ch s IH]; intros s0 a Hinv; simpl.
  { exists a. split; [done|]. left. rewrite app_nil_r.
    destruct Hinv as (l&r&?&?&?&?&?). split_and!; try done. by exists l, r. }
  destruct (dict_transit_inv s0 a ch Hinv) as (a1&->&Hcases); simpl.
  rewrite (cons_middle ch s0 s), app_assoc.
  destruct Hcases as [(Herr&Hinv1&Hword)|(Herr&Hnone)]; rewrite Herr.
  - destruct (IH _ _ Hinv1) as (a'&Hfeed&Hres). exists a'. split; [done|].
    destruct Hres as [(?&?&Hw)|?]; [left|by right]. split_and!; try done.
    intros _. destruct s; [by rewrite app_nil_r|by apply Hw].
  - exists a1. split; [done|]. right. split; [done|]. intros word Hin Hpre.
    eapply Hnone; [done|]. etrans; [|done]. by apply prefix_app_r.
Qed.
End trie.

(** ** The language of each rule *)

Definition matches_prefix (pat s : jstr) : Prop :=
  ∀ i c, s !! i = Some c → isMatch pat i c = true.

Definition language (dict : list jstr) (k : kind) (s : jstr) : Prop :=
  match k with
  | WORD_RULE => Forall (λ c, is_latin c = true) s
  | NUMBER_RULE => Forall (λ c, is_digit c = true) s
  | SPACE_RULE => Forall (λ c, is_space c = true) s
  | SINSYM => ∃ c, s = [c] ∧ is_symbol c = true
  | THAI_RULE => matches_prefix Rule0_pat s ∧ length s = length Rule0_pat
  | PART _ => ∃ pat, pat ∈ PartRule_patterns ∧ matches_prefix pat s ∧
                     length s = length pat
  | DICT _ _ => s ∈ dict
  end.

Lemma matches_prefix_snoc pat s c :
  matches_prefix pat (s ++ [c]) ↔ matches_prefix pat s ∧ isMatch pat (length s) c = true.
Proof.
  split.
  - intros H. split; [intros i x Hi; apply H; by apply lookup_app_l_Some|].
    apply H. apply lookup_snoc_eq.
  - intros [H Hc] i x Hi. apply lookup_snoc_inv in Hi as [[_ ?]|[-> <-]]; [by apply H|done].
Qed.

Lemma matches_prefix_app pat s t : matches_prefix pat (s ++ t) → matches_prefix pat s.
Proof. intros H i x Hi. apply H. by apply lookup_app_l_Some. Qed.

Section acceptors.
Variable dict : list jstr.
Hypothesis Hsorted : StronglySorted jstr_lt dict.

(** What the fields of an acceptor that has read [s] say about [s]. *)
Definition kind_inv (k : kind) (s : jstr) : Prop :=
  match k with
  | SINSYM => s = [] ∨ language dict SINSYM s
  | THAI_RULE => matches_prefix Rule0_pat s
  | PART ps => ∀ pat, pat ∈ ps ↔ pat ∈ PartRule_patterns ∧ matches_prefix pat s
  | DICT l r => prefix_range dict s l r
  | _ => language dict k s
  end.

Definition acc_inv (a : acceptor) (s : jstr) : Prop :=
  isError a = false ∧ strOffset a = length s ∧ kind_inv (a_kind a) s ∧
  (s ≠ [] → isFinal a = true ↔ language dict (a_kind a) s).

(** The outcome of one [transit]: a longer [s], or a dead end. *)
Definition transit_outcome (a a' : acceptor) (s : jstr) (ch : N) : Prop :=
  (isError a' = false ∧ tag_of (a_kind a') = tag_of (a_kind a) ∧ acc_inv a' (s ++ [ch])) ∨
  (isError a' = true ∧ ∀ t, ¬ language dict (a_kind a) (s ++ [ch] ++ t)).

Lemma class_transit (f : N → bool) k a s ch :
  (∀ t, language dict k t = Forall (λ c, f c = true) t) →
  kind_inv k = language dict k → a_kind a = k → acc_inv a s →
  transit_outcome a (if f ch then accept a true else reject a) s ch.
Proof.
  intros Hlang Hki Hk (Herr&Hoff&Hinv&_). rewrite Hk, Hki, Hlang in Hinv.
  unfold transit_outcome. destruct (f ch) eqn:Hf; [left|right]; simpl.
  - unfold acc_inv; simpl. rewrite Hk, Hki, Hlang, length_app, Forall_app.
    split_and!; try done; try (by constructor); [simpl; lia|].
    intros _. split; [intros _|done]. split; [done|]. by constructor.
  - split; [done|]. intros t. rewrite Hk, Hlang, Forall_app, Forall_cons.
    intros (_&H&_). congruence.
Qed.

Lemma sinsym_transit a s ch :
  a_kind a = SINSYM → acc_inv a s →
  transit_outcome a
    (if (strOffset a =? 0) && is_symbol ch then accept a true else reject a) s ch.
Proof.
  intros Hk (Herr&Hoff&_&_). unfold transit_outcome. rewrite Hoff, Hk.
  destruct (length s =? 0) eqn:Hlen; bool_clean; simpl.
  - apply length_zero_iff_nil in Hlen as ->.
    destruct (is_symbol ch) eqn:Hc; simpl; [left|right].
    + rewrite Hk. unfold acc_inv; simpl. rewrite Hk, Hoff. simpl.
      split_and!; eauto. intros _. split; eauto.
    + split; [done|]. intros t (c&[= ->]&?). congruence.
  - right. split; [done|]. intros t (c&Heq&_). destruct s as [|x [|]]; done.
Qed.

Lemma rule0_transit a s ch :
  a_kind a = THAI_RULE → acc_inv a s →
  transit_outcome a
    (if isMatch Rule0_pat (strOffset a) ch
     then accept a (strOffset a + 1 =? length Rule0_pat) else reject a) s ch.
Proof.
  intros Hk (Herr&Hoff&Hinv&_). rewrite Hk in Hinv. unfold transit_outcome.
  rewrite Hoff, Hk. destruct (isMatch Rule0_pat (length s) ch) eqn:Hm; [left|right].
  - pose proof (proj2 (matches_prefix_snoc Rule0_pat s ch) (conj Hinv Hm)) as Hp.
    cbn [accept isError a_kind]. rewrite Hk. unfold acc_inv. cbn [accept isError a_kind strOffset isFinal].
    rewrite Hk, Hoff, length_app. cbn [length kind_inv language].
    split_and!; [done|done|done|lia|done|]. intros _. rewrite Nat.eqb_eq, length_app.
    cbn [length]. intuition.
  - split; [done|]. intros t [Hp _]. rewrite app_assoc in Hp.
    apply matches_prefix_app, matches_prefix_snoc in Hp as [_ ?]. congruence.
Qed.

Lemma part_transit a s ch ps :
  a_kind a = PART ps → acc_inv a s →
  ∃ a', transit dict ch a = Some a' ∧ transit_outcome a a' s ch.
Proof.
  intros Hk (Herr&Hoff&Hinv&_). rewrite Hk in Hinv.
  unfold transit. rewrite Hk, Hoff.
  set (ps' := List.filter (λ pat, isMatch pat (length s) ch) ps).
  assert (Hps' : ∀ pat, pat ∈ ps' ↔ pat ∈ PartRule_patterns ∧ matches_prefix pat (s ++ [ch])).
  { intros pat. unfold ps'. rewrite list_elem_of_In, filter_In, <-list_elem_of_In.
    rewrite (Hinv pat), matches_prefix_snoc. tauto. }
  eexists; split; [done|]. unfold transit_outcome. rewrite Hk.
  destruct (0 <? length ps') eqn:Hlen; bool_clean; [left|right].
  - unfold acc_inv. cbn [accept isError a_kind strOffset isFinal kind_inv].
    split_and!; try done; [rewrite length_app; simpl; lia|]. intros _.
    rewrite existsb_exists. split.
    + intros (pat&Hin&Heq). apply list_elem_of_In, Hps' in Hin as [??]. bool_clean.
      exists pat. rewrite length_app. simpl. split_and!; [done..|lia].
    + intros (pat&Hin&Hm&Heq). exists pat. rewrite <-list_elem_of_In, Hps', Nat.eqb_eq.
      rewrite length_app in Heq; simpl in Heq. split_and!; [done..|lia].
  - split; [done|]. intros t (pat&Hin&Hm&_). rewrite app_assoc in Hm.
    apply matches_prefix_app in Hm.
    assert (pat ∈ ps') as H by by apply Hps'.
    destruct ps'; [set_solver|simpl in *; lia].
Qed.

Lemma dict_transit_outcome a s ch l r :
  a_kind a = DICT l r → acc_inv a s →
  ∃ a', transit dict ch a = Some a' ∧ transit_outcome a a' s ch.
Proof using Hsorted.
  intros Hk (Herr&Hoff&Hinv&Hfin). rewrite Hk in Hinv, Hfin.
  destruct (dict_transit_inv dict Hsorted s a ch) as (a'&Ht&Hres).
  { exists l, r. done. }
  exists a'. split; [done|]. unfold transit_outcome. rewrite Hk.
  destruct Hres as [(Herr'&Hd&_)|(Herr'&Hnone)]; [left|right].
  - destruct Hd as (l'&r'&Hk'&Hoff'&_&Hp'&Hf').
    split; [done|]. unfold acc_inv. rewrite Hk'. done.
  - split; [done|]. intros t Hin. apply (Hnone _ Hin). rewrite app_assoc.
    by apply prefix_app_r.
Qed.

Lemma transit_inv a s ch :
  acc_inv a s → ∃ a', transit dict ch a = Some a' ∧ transit_outcome a a' s ch.
Proof using Hsorted.
  intros Hinv. destruct (a_kind a) eqn:Hk;
    try (by eapply part_transit); try (by eapply dict_transit_outcome);
    unfold transit; rewrite Hk; (eexists; split; [done|]).
  - by eapply (class_transit is_latin WORD_RULE).
  - by eapply (class_transit is_space SPACE_RULE).
  - by apply sinsym_transit.
  - by eapply (class_transit is_digit NUMBER_RULE).
  - by apply rule0_transit.
Qed.

(** The acceptors as created have read nothing. *)
Lemma createAcceptor_inv tag c a : createAcceptor dict tag c = Some a → acc_inv a [].
Proof.
  assert (Hm : ∀ pat, matches_prefix pat []) by done.
  assert (Hnew : ∀ k, kind_inv k [] → acc_inv (new_acceptor k) []) by done.
  destruct c; simpl; intros; case_match || idtac; simplify_eq; apply Hnew; simpl;
    try apply Forall_nil_2; try apply prefix_range_all; auto.
  intros pat. split; [|tauto]. done.
Qed.
End acceptors.

(** ** The path and the segments *)

Section segmentation.
Variable dict : list jstr.
Hypothesis Hsorted : StronglySorted jstr_lt dict.
Variable text : jstr.

(** A live acceptor has read the last [strOffset] units before [i]. *)
Definition live_inv (i : nat) (a : acceptor) : Prop :=
  1 ≤ strOffset a ≤ i ∧ acc_inv dict a (substring text (i - strOffset a) i).

(** The entry at position [j] of a path points back, and what it spans is a
    word of its rule's language. *)
Definition entry_inv (j : nat) (info : path_info) : Prop :=
  (∀ m, merge info = Some m → m < j) ∧
  (j ≠ 0 → ∃ q, p info = Some q ∧ q < j ∧
     (ptype info ≠ "UNK" →
        ∃ k, tag_of k = ptype info ∧ language dict k (substring text q j))).

Definition path_inv (i : nat) (path : list path_info) : Prop :=
  length path = S i ∧ ∀ j info, path !! j = Some info → entry_inv j info.

Lemma created_inv tag c a :
  createAcceptor dict tag c = Some a → strOffset a = 0 ∧ acc_inv dict a [].
Proof.
  intros H. pose proof (createAcceptor_inv dict tag c a H) as Hinv.
  split; [|done]. by destruct Hinv as (_&Hoff&_).
Qed.

Lemma transit_live i a s ch :
  i < length text → text !! i = Some ch → length s ≤ i →
  s = substring text (i - length s) i → acc_inv dict a s →
  ∃ a', transit dict ch a = Some a' ∧ (isError a' = false → live_inv (S i) a').
Proof using Hsorted.
  intros Hi Hch Hlen Hs Hinv.
  destruct (transit_inv dict Hsorted a s ch Hinv) as (a'&Ht&Hout).
  exists a'. split; [done|]. intros Herr. destruct Hout as [(_&_&Hinv')|(Herr'&_)];
    [|congruence].
  assert (strOffset a' = length (s ++ [ch])) as Hoff by apply Hinv'. rewrite length_app in Hoff; simpl in Hoff.
  split; [lia|]. rewrite Hoff. replace (S i - (length s + 1)) with (i - length s) by lia.
  rewrite (substring_snoc _ _ _ ch) by (done || lia). rewrite <-Hs.
  done.
Qed.

Lemma acceptors_transit_live i st ch :
  text !! i = Some ch → Forall (live_inv i) (current st) →
  ∃ st', acceptors_transit dict st ch = Some st' ∧ Forall (live_inv (S i)) (current st').
Proof using Hsorted.
  intros Hch Hlive. pose proof (lookup_lt_Some _ _ _ Hch) as Hi.
  set (created := omap (createAcceptor dict (tag st)) creators).
  assert (∃ moved, mapM (transit dict ch) (current st ++ created) = Some moved ∧
    Forall (λ a, isError a = false → live_inv (S i) a) moved) as (moved&Hm&Hall).
  { assert (Forall (λ a, ∃ a', transit dict ch a = Some a' ∧
      (isError a' = false → live_inv (S i) a')) (current st ++ created)) as Hex.
    { apply Forall_app. split.
      - eapply Forall_impl; [done|]. intros a [Hoff Hinv]. simpl.
        assert (length (substring text (i - strOffset a) i) = strOffset a) as Hlen
          by (rewrite length_substring by lia; lia).
        eapply transit_live; try done; [lia|]. by rewrite Hlen.
      - apply Forall_forall. intros a Ha. unfold created in Ha.
        apply list_elem_of_omap in Ha as (c&_&Hc). apply created_inv in Hc as [_ Hinv].
        eapply (transit_live i a []); try done; simpl; [lia|].
        unfold substring. replace (i - (i - 0)) with 0 by lia. done. }
    clear Hlive. induction Hex as [|a l (a'&Ha&Hinv) _ (moved&Hm&Hall)].
    - by exists [].
    - exists (a' :: moved). simpl. rewrite Ha; simpl. rewrite Hm; simpl. auto. }
  unfold acceptors_transit. fold created. rewrite Hm; simpl. eexists; split; [done|].
  simpl. apply Forall_forall. intros a Ha. rewrite list_elem_of_In, filter_In in Ha.
  destruct Ha as [Ha Herr]. rewrite Forall_forall in Hall. apply Hall.
  - by apply list_elem_of_In.
  - by apply negb_true_iff.
Qed.

Lemma getFinalAcceptors_live i st a :
  Forall (live_inv i) (current st) → a ∈ getFinalAcceptors st →
  1 ≤ strOffset a ≤ i ∧
  language dict (a_kind a) (substring text (i - strOffset a) i).
Proof.
  unfold getFinalAcceptors. rewrite list_elem_of_In, filter_In, <-list_elem_of_In.
  intros Hall [Ha Hfin]. rewrite Forall_forall in Hall.
  destruct (Hall a Ha) as [Hoff (Herr&Hlen&_&Hf)]. split; [done|].
  apply Hf; [|done]. intros Hnil. rewrite Hnil in Hlen. simpl in Hlen. lia.
Qed.

Lemma mark_merge_inv i path q :
  path_inv i path → ∃ path', mark_merge path q i = Some path' ∧ path_inv i path'.
Proof.
  intros [Hlen Hall]. unfold mark_merge. rewrite Hlen.
  assert ((S i <=? i) = false) as -> by (apply Nat.leb_gt; lia).
  rewrite andb_false_r. eexists; split; [done|]. split; [by rewrite length_imap|].
  intros j info. rewrite list_lookup_imap. intros (info0&Hj&Heq)%fmap_Some.
  specialize (Hall j info0 Hj). destruct ((q + 1 <=? j) && (j <=? i)) eqn:E;
    subst info; [|done].
  bool_clean. destruct Hall as [_ Hp]. split; [|done]. intros m [= <-]. lia.
Qed.

Lemma buildByAcceptors_inv i path finals :
  path_inv i path →
  Forall (λ a, 1 ≤ strOffset a ≤ S i ∧
    language dict (a_kind a) (substring text (S i - strOffset a) (S i))) finals →
  ∃ infos path', buildByAcceptors path finals i = Some (infos, path') ∧
    path_inv i path' ∧ Forall (entry_inv (S i)) infos.
Proof.
  intros Hpath Hfin. revert path Hpath.
  induction Hfin as [|a finals [Hoff Hlang] _ IH]; intros path Hpath; simpl;
    [by exists [], path|].
  destruct (Nat.ltb_spec (i + 1) (strOffset a)); [lia|].
  set (q := i + 1 - strOffset a).
  destruct (lookup_lt_is_Some_2 path q) as [_info Hinfo].
  { destruct Hpath as [-> _]. lia. }
  rewrite Hinfo; simpl.
  assert (∃ path1, (if is_part (a_kind a) then mark_merge path q i else Some path)
    = Some path1 ∧ path_inv i path1) as (path1&->&Hpath1).
  { destruct (is_part (a_kind a)); [by apply mark_merge_inv|by eauto]. }
  simpl. destruct (IH path1 Hpath1) as (infos&path'&->&Hpath'&Hinfos); simpl.
  do 2 eexists. split_and!; [done..|]. constructor; [|done].
  split; simpl.
  - intros m. destruct (is_part (a_kind a)); intros [= <-]. lia.
  - intros _. exists q. split_and!; [done|lia|]. intros _. exists (a_kind a).
    split; [done|]. by replace q with (S i - strOffset a) by lia.
Qed.

Lemma fallback_inv i path leftBoundary :
  path_inv i path → leftBoundary ≤ i → i < length text →
  ∃ info, fallback path leftBoundary text i = Some info ∧ entry_inv (S i) info.
Proof.
  intros [Hlen Hall] Hlb Hi. unfold fallback.
  destruct (lookup_lt_is_Some_2 path leftBoundary) as [_info Hinfo]; [lia|].
  destruct (lookup_lt_is_Some_2 text i Hi) as [ch Hch].
  rewrite Hinfo; simpl. rewrite Hch; simpl.
  destruct (thai_mark ch).
  - destruct (Nat.eqb_spec leftBoundary 0) as [->|Hne]; simpl.
    + eexists; split; [done|]. split; simpl; [done|]. intros _. exists 0.
      split_and!; [done|lia|done].
    + eexists; split; [done|]. split; simpl; [done|]. intros _.
      destruct (Hall _ _ Hinfo) as [_ Hp]. destruct (Hp Hne) as (q&->&?&_).
      exists q. split_and!; [done|lia|done].
  - eexists; split; [done|]. split; simpl; [done|]. intros _. exists leftBoundary.
    split_and!; [done|lia|done].
Qed.

Lemma build_inv i path finals leftBoundary :
  path_inv i path → leftBoundary ≤ i → i < length text →
  Forall (λ a, 1 ≤ strOffset a ≤ S i ∧
    language dict (a_kind a) (substring text (S i - strOffset a) (S i))) finals →
  ∃ infos path', build path finals i leftBoundary text = Some (infos, path') ∧
    infos ≠ [] ∧ path_inv i path' ∧ Forall (entry_inv (S i)) infos.
Proof.
  intros Hpath Hlb Hi Hfin. unfold build.
  destruct (buildByAcceptors_inv i path finals Hpath Hfin) as (infos&path'&->&Hpath'&Hall).
  simpl. destruct infos as [|info infos]; simpl.
  - destruct (fallback_inv i path' leftBoundary Hpath' Hlb Hi) as (info&->&Hinfo); simpl.
    exists [info], path'. split_and!; try done. by constructor.
  - exists (info :: infos), path'. done.
Qed.
End segmentation.

(** [selectPath] returns an element of the list it is given. *)
Lemma select_fold_elem paths sel :
  ∃ r, foldl select_step (Some sel) paths = Some r ∧ (r = sel ∨ r ∈ paths).
Proof.
  revert sel. induction paths as [|q paths IH]; intros sel; cbn [foldl]; [eauto|].
  assert (∃ r, (r = sel ∨ r = q) ∧ select_step (Some sel) q = Some r) as (r&Hr&->).
  { unfold select_step. repeat case_match; eauto. }
  destruct (IH r) as (r'&->&Hr'). exists r'. split; [done|].
  destruct Hr as [-> | ->]; set_solver.
Qed.

Lemma selectPath_elem paths :
  paths ≠ [] → ∃ r, selectPath paths = Some r ∧ r ∈ paths.
Proof.
  destruct paths as [|q paths]; [done|]. intros _. unfold selectPath. cbn [foldl select_step].
  destruct (select_fold_elem paths q) as (r&->&Hr). exists r. set_solver.
Qed.

Section segmentation_loop.
Variable dict : list jstr.
Hypothesis Hsorted : StronglySorted jstr_lt dict.
Variable text : jstr.

Lemma buildPath_loop_inv rest i path leftBoundary st :
  text = take i text ++ rest → i ≤ length text →
  path_inv dict text i path → leftBoundary ≤ i →
  Forall (live_inv dict text i) (current st) →
  ∃ path', buildPath_loop dict text rest i path leftBoundary st = Some path' ∧
    path_inv dict text (length text) path'.
Proof using Hsorted.
  revert i path leftBoundary st.
  induction rest as [|ch rest IH]; intros i path leftBoundary st Htext Hi Hpath Hlb Hst; simpl.
  { exists path. split; [done|]. rewrite app_nil_r in Htext.
    apply (f_equal length) in Htext. rewrite length_take in Htext.
    by replace (length text) with i by lia. }
  assert (Hch : text !! i = Some ch).
  { rewrite Htext, lookup_app_r by (rewrite length_take; lia).
    rewrite length_take. by replace (i - i `min` length text) with 0 by lia. }
  pose proof (lookup_lt_Some _ _ _ Hch) as Hlt.
  destruct (acceptors_transit_live dict Hsorted text i st ch Hch Hst) as (st'&->&Hst'); simpl.
  destruct (build_inv dict text i path (getFinalAcceptors st') leftBoundary Hpath Hlb Hlt)
    as (infos&path'&->&Hne&Hpath'&Hinfos).
  { apply Forall_forall. intros a Ha. by eapply getFinalAcceptors_live. }
  simpl. destruct (selectPath_elem infos Hne) as (sel&->&Hsel); simpl.
  rewrite Forall_forall in Hinfos. specialize (Hinfos _ Hsel).
  apply IH; [|done| | |done].
  - rewrite Htext at 1. rewrite (take_S_r _ _ _ Hch). by rewrite <-app_assoc.
  - destruct Hpath' as [Hlen Hall]. split; [rewrite length_app; simpl; lia|].
    intros j info Hj. apply lookup_snoc_inv in Hj as [[? Hj]|[-> <-]]; [by apply Hall|].
    by rewrite Hlen.
  - case_decide; lia.
Qed.

Lemma buildPath_inv :
  ∃ path, buildPath dict text = Some path ∧ path_inv dict text (length text) path.
Proof using Hsorted.
  apply buildPath_loop_inv; simpl; [done|lia| |lia|constructor].
  split; [done|]. intros [|j] info Hj; simplify_eq/=. split; done.
Qed.

(** Ranges that tile [a..b], each non empty. *)
Inductive tiles : nat → nat → list range → Prop :=
| tiles_nil a : tiles a a []
| tiles_cons a m b rs :
    a < m → tiles m b rs → tiles a b ({| r_s := a; r_e := m |} :: rs).

Lemma pathToRanges_loop_tiles path fuel e ranges :
  path_inv dict text (length text) path → e ≤ length text → e < fuel →
  tiles e (length text) ranges →
  ∃ rs, pathToRanges_loop fuel path e ranges = Some rs ∧ tiles 0 (length text) rs.
Proof.
  intros [Hlen Hall]. revert e ranges.
  induction fuel as [|fuel IH]; intros e ranges He Hfuel Htiles; [lia|]; simpl.
  destruct (Nat.eqb_spec e 0) as [->|Hne]; [by eauto|].
  destruct (lookup_lt_is_Some_2 path e) as [info Hinfo]; [lia|].
  rewrite Hinfo; simpl. destruct (Hall _ _ Hinfo) as [Hmerge Hp].
  destruct (Hp Hne) as (q&Hq&Hqe&_). rewrite Hq.
  destruct (merge info) as [m|] eqn:Hm.
  - specialize (Hmerge _ eq_refl). destruct ranges as [|r rs].
    + simpl. apply IH; [lia..|]. by constructor.
    + apply IH; [lia..|]. inversion Htiles; subst; simpl. constructor; [lia|done].
  - simpl. apply IH; [lia..|]. by constructor.
Qed.

Lemma pathToRanges_tiles path :
  path_inv dict text (length text) path →
  ∃ rs, pathToRanges path = Some rs ∧ tiles 0 (length text) rs.
Proof.
  intros Hpath. pose proof Hpath as [Hlen _]. unfold pathToRanges. rewrite Hlen.
  replace (S (length text) - 1) with (length text) by lia.
  apply pathToRanges_loop_tiles; [done|lia|lia|constructor].
Qed.

Lemma tiles_le a b rs : tiles a b rs → a ≤ b.
Proof. induction 1; lia. Qed.

Lemma tiles_texts a b rs :
  tiles a b rs → b ≤ length text →
  concat (rangesTexts text rs) = substring text a b ∧
  Forall (λ s, s ≠ []) (rangesTexts text rs).
Proof.
  induction 1 as [a|a m b rs Ham Ht IH]; intros Hb; simpl.
  - split; [|constructor]. unfold substring. by rewrite Nat.sub_diag.
  - apply tiles_le in Ht. destruct IH as [Hc Hall]; [done|]. rewrite Hc. split.
    + apply substring_app; lia.
    + constructor; [|done]. apply substring_nonempty; lia.
Qed.
End segmentation_loop.

(** ** Sorting the dictionary *)

Lemma uniq_from_spec prev l :
  StronglySorted jstr_le (prev :: l) →
  StronglySorted jstr_lt (prev :: uniq_from prev l) ∧
  ∀ x, x ∈ prev :: uniq_from prev l ↔ x ∈ prev :: l.
Proof.
  revert prev. induction l as [|y l IH]; intros prev Hs; simpl.
  { split; [repeat constructor|done]. }
  apply StronglySorted_inv in Hs as [Hs Hall]. apply Forall_cons in Hall as [Hle Hall].
  destruct (IH y Hs) as [Hs' Hin].
  case_decide as Hy; [subst y; split; [done|set_solver]|].
  split; [|set_solver]. constructor; [done|].
  apply Forall_forall. intros x Hx. apply Hin in Hx.
  apply StronglySorted_inv in Hs as [_ Hy'].
  assert (jstr_le y x) as Hyx.
  { apply elem_of_cons in Hx as [->|Hx]; [reflexivity|]. rewrite Forall_forall in Hy'. auto. }
  split; [by etrans|]. intros ->. apply Hy. by apply (anti_symm jstr_le).
Qed.

Lemma sortuniq_spec a :
  StronglySorted jstr_lt (sortuniq a) ∧ ∀ x, x ∈ sortuniq a ↔ x ∈ a.
Proof.
  unfold sortuniq, js_sort. pose proof (StronglySorted_merge_sort jstr_le a) as Hs.
  pose proof (merge_sort_Permutation jstr_le a) as Hp.
  destruct (merge_sort jstr_le a) as [|x l] eqn:E.
  - split; [constructor|]. intros x. by rewrite <-Hp.
  - destruct (uniq_from_spec x l Hs) as [? Hin]. split; [done|].
    intros y. by rewrite Hin, Hp.
Qed.

Lemma dict_init_sorted tdict words : StronglySorted jstr_lt (dict_init tdict words).
Proof. apply sortuniq_spec. Qed.

#[export] Hint Resolve dict_init_sorted : syncer.

(** ** Which acceptors are live together *)

Section live_tags.
Variable dict : list jstr.

(** The acceptors after the units of [s], as [buildPath] drives them. *)
Definition acceptors_run (s : jstr) : option acceptors :=
  foldl (λ st ch, st ≫= λ st, acceptors_transit dict st ch)
    (Some acceptors_reset) s.

Definition of_tag (t : string) (a : acceptor) : bool :=
  bool_decide (tag_of (a_kind a) = t).
Definition count_tag (t : string) (l : list acceptor) : nat :=
  length (List.filter (of_tag t) l).

(** The tags whose creator looks at [tag] before creating. *)
Definition guarded_tag (t : string) : Prop :=
  t = "WORD_RULE" ∨ t = "NUMBER_RULE" ∨ t = "SPACE_RULE".

Lemma count_tag_app t l k : count_tag t (l ++ k) = count_tag t l + count_tag t k.
Proof. unfold count_tag. by rewrite List.filter_app, length_app. Qed.

Lemma transit_tag ch a a' :
  transit dict ch a = Some a' → tag_of (a_kind a') = tag_of (a_kind a).
Proof.
  unfold transit, dict_transit. intros H.
  destruct (a_kind a) eqn:E; simplify_eq/=;
    repeat (case_match; simplify_eq/=); simpl; rewrite ?E; try done;
    repeat match goal with
    | H : _ ≫= _ = Some _ |- _ => apply bind_Some in H as (?&?&?); simplify_eq/=
    end; done || (case_match; simplify_eq/=; rewrite ?E; done || idtac);
    repeat match goal with
    | H : _ ≫= _ = Some _ |- _ => apply bind_Some in H as (?&?&?); simplify_eq/=
    end; done.
Qed.

Lemma count_tag_moved t ch l moved :
  mapM (transit dict ch) l = Some moved → count_tag t moved = count_tag t l.
Proof.
  revert moved. induction l as [|a l IH]; intros moved; simpl; [by intros [= <-]|].
  intros (a'&Ha&(moved'&Hm&[= <-])%bind_Some)%bind_Some.
  specialize (IH _ Hm). unfold count_tag in *. simpl.
  assert (of_tag t a' = of_tag t a) as -> by (unfold of_tag; by rewrite (transit_tag _ _ _ Ha)).
  destruct (of_tag t a); simpl; lia.
Qed.

Lemma count_tag_filter t (f : acceptor → bool) l :
  count_tag t (List.filter f l) ≤ count_tag t l.
Proof.
  unfold count_tag. induction l as [|a l IH]; simpl; [lia|].
  destruct (f a), (of_tag t a) eqn:E; simpl; rewrite ?E; simpl; lia.
Qed.

Lemma tags_of_snoc l a : tags_of (l ++ [a]) = <[tag_of (a_kind a) := a]> (tags_of l).
Proof. unfold tags_of. by rewrite foldl_app. Qed.

Lemma tags_of_None t l : tags_of l !! t = None → count_tag t l = 0.
Proof.
  induction l as [|a l IH] using rev_ind; [done|].
  rewrite tags_of_snoc, lookup_insert, count_tag_app. case_decide as Ht; [done|].
  intros H. rewrite IH by done. unfold count_tag, of_tag; simpl.
  by rewrite bool_decide_eq_false_2.
Qed.

Lemma count_tag_created t tg :
  guarded_tag t →
  count_tag t (omap (createAcceptor dict tg) creators)
    = match tg !! t with None => 1 | Some _ => 0 end.
Proof.
  intros Ht. unfold creators; simpl.
  destruct Ht as [-> |[-> | ->]];
    destruct (tg !! "WORD_RULE"), (tg !! "NUMBER_RULE"), (tg !! "SPACE_RULE"); reflexivity.
Qed.

Definition tags_inv (st : acceptors) : Prop :=
  tag st = tags_of (current st) ∧
  ∀ t, guarded_tag t → count_tag t (current st) ≤ 1.

Lemma acceptors_transit_tags st ch st' :
  tags_inv st → acceptors_transit dict st ch = Some st' → tags_inv st'.
Proof.
  intros [Htag Hinv]. unfold acceptors_transit.
  intros (moved&Hm&[= <-])%bind_Some. split; [done|]. intros t Ht; simpl.
  etrans; [apply count_tag_filter|]. rewrite (count_tag_moved _ _ _ _ Hm), count_tag_app.
  rewrite (count_tag_created t _ Ht), Htag.
  destruct (tags_of (current st) !! t) eqn:E; [specialize (Hinv t Ht); lia|].
  by rewrite (tags_of_None _ _ E).
Qed.
End live_tags.

(** ** The properties *)

(** C3: for every dictionary and text, the segmentation ends without error;
    its segments are non-empty and their concatenation is the text; [cut]
    joins them with the delimiter, "|" by default. *)
Theorem cut_partition (tdict : jstr) (words : option (list jstr)) (text : jstr)
    (delimiter : option jstr) :
  ∃ segs, cutIntoArray (dict_init tdict words) text = Some segs ∧
    concat segs = text ∧ Forall (λ s, s ≠ []) segs ∧
    cut (dict_init tdict words) text delimiter
      = Some (join (default (u "|") delimiter) segs).
Proof.
  pose proof (dict_init_sorted tdict words) as Hs.
  set (dict := dict_init tdict words) in *. clearbody dict.
  destruct (buildPath_inv dict Hs text) as (path&Hpath&Hinv).
  destruct (pathToRanges_tiles dict text path Hinv) as (rs&Hrs&Htiles).
  destruct (tiles_texts text _ _ _ Htiles) as [Hc Hne]; [done|].
  exists (rangesTexts text rs). unfold cutIntoArray, cut.
  rewrite Hpath; simpl. rewrite Hrs; simpl. rewrite Hc, substring_full. done.
Qed.

(** Every entry of the path built for a text points back to an earlier
    position, and the text it spans is in the language of the rule that made
    it (a dictionary word for DICT), unless it is an UNK fallback. *)
Theorem buildPath_sound (tdict : jstr) (words : option (list jstr)) (text : jstr) :
  ∃ path, buildPath (dict_init tdict words) text = Some path ∧
    length path = S (length text) ∧
    ∀ j info, path !! S j = Some info →
      ∃ q, p info = Some q ∧ q ≤ j ∧
        (ptype info ≠ "UNK" →
           ∃ k, tag_of k = ptype info ∧
             language (dict_init tdict words) k (substring text q (S j))).
Proof.
  destruct (buildPath_inv _ (dict_init_sorted tdict words) text) as (path&Hpath&Hlen&Hall).
  exists path. split_and!; [done..|]. intros j info Hj.
  destruct (Hall _ _ Hj) as [_ Hp]. destruct (Hp ltac:(lia)) as (q&?&?&?).
  exists q. split_and!; [done|lia|done].
Qed.

(** C17: on the dictionary built from any words, the binary-search acceptor is
    a trie: after the units of a non-empty [s] it is alive exactly when some
    word starts with [s], and final exactly when [s] is a word. *)
Theorem dict_acceptor_correct (tdict : jstr) (words : option (list jstr)) (s : jstr) :
  s ≠ [] →
  let dict := dict_init tdict words in
  ∃ a, feed dict (new_acceptor (DICT 0 (Z.of_nat (length dict) - 1))) s = Some a ∧
    (isError a = false ↔ ∃ word, word ∈ dict ∧ s `prefix_of` word) ∧
    (isError a = false → isFinal a = true ↔ s ∈ dict).
Proof.
  intros Hne dict. pose proof (dict_init_sorted tdict words : StronglySorted jstr_lt dict) as Hs.
  destruct (feed_dict_inv dict Hs [] s
    (new_acceptor (DICT 0 (Z.of_nat (length dict) - 1)))) as (a&Hfeed&Hres).
  { exists 0%Z, (Z.of_nat (length dict) - 1)%Z. split_and!; try done; apply prefix_range_all. }
  exists a. split; [done|]. simpl in Hres.
  destruct Hres as [(Herr&(l&r&?&?&?&?&Hf)&Hw)|[Herr Hnone]]; rewrite Herr.
  - split; [|auto]. split; [|done]. intros _. by apply Hw.
  - split; [|done]. split; [done|]. intros (word&?&?). by destruct (Hnone word).
Qed.

Lemma dict_acceptor_correct_witness :
  let dict := dict_init (u "abc") (Some [u "ab"; u "x"]) in
  ∃ a, feed dict (new_acceptor (DICT 0 (Z.of_nat (length dict) - 1))) (u "ab") = Some a ∧
    (isError a = false ↔ ∃ word, word ∈ dict ∧ u "ab" `prefix_of` word) ∧
    (isError a = false → isFinal a = true ↔ u "ab" ∈ dict).
Proof. apply (dict_acceptor_correct (u "abc") (Some [u "ab"; u "x"]) (u "ab")). done. Defined.

(** The order of [selectPath]: unknown parts, then [mw], then weight. *)
Definition cost_lt (a b : path_info) : Prop :=
  unk a < unk b ∨ (unk a = unk b ∧ (mw a < mw b ∨ (mw a = mw b ∧ w a < w b))).

Lemma select_step_cost sel q :
  (cost_lt q sel ∧ select_step (Some sel) q = Some q) ∨
  (¬ cost_lt q sel ∧ select_step (Some sel) q = Some sel).
Proof.
  unfold select_step, cost_lt.
  destruct (unk q <? unk sel) eqn:E1; bool_clean; [left; split; [lia|done]|].
  destruct ((unk q =? unk sel) && (mw q <? mw sel)) eqn:E2; bool_clean;
    [left; split; [lia|done]|]. apply andb_false_iff in E2.
  destruct ((unk q =? unk sel) && (mw q =? mw sel) && (w q <? w sel)) eqn:E3; bool_clean;
    [left; split; [lia|done]|]. rewrite !andb_false_iff in E3.
  right. split; [|done].
  rewrite !Nat.eqb_neq, !Nat.ltb_ge in *. lia.
Qed.

(** [selectPath] returns the first entry of least cost: nothing in the
    list is cheaper, and everything before it is dearer. *)
Theorem selectPath_first_min (paths : list path_info) :
  paths ≠ [] →
  ∃ l1 r l2, paths = l1 ++ r :: l2 ∧ selectPath paths = Some r ∧
    Forall (λ q, ¬ cost_lt q r) paths ∧ Forall (cost_lt r) l1.
Proof.
  intros Hne. unfold selectPath. induction paths as [|q paths IH] using rev_ind; [done|].
  rewrite foldl_app. cbn [foldl]. destruct (decide (paths = [])) as [->|Hp].
  { exists [], q, []. unfold cost_lt. cbn. split_and!; try done.
    repeat constructor. lia. }
  destruct (IH Hp) as (l1&r&l2&->&->&Hall&Hl1). clear IH.
  destruct (select_step_cost r q) as [[Hlt ->]|[Hlt ->]].
  - exists (l1 ++ r :: l2), q, []. split_and!; [done|done| |].
    + apply Forall_app. split; [|repeat constructor; unfold cost_lt; lia].
      eapply Forall_impl; [exact Hall|]. unfold cost_lt in *. simpl. lia.
    + eapply Forall_impl; [exact Hall|]. unfold cost_lt in *. simpl. lia.
  - exists l1, r, (l2 ++ [q]). rewrite <-app_assoc. split_and!; try done.
    rewrite app_assoc. apply Forall_app. split; [done|]. by constructor.
Qed.

Lemma selectPath_first_min_witness :
  ∃ l1 r l2, createPath ++ createPath = l1 ++ r :: l2 ∧
    selectPath (createPath ++ createPath) = Some r ∧
    Forall (λ q, ¬ cost_lt q r) (createPath ++ createPath) ∧ Forall (cost_lt r) l1.
Proof. apply (selectPath_first_min (createPath ++ createPath)). discriminate. Defined.

(** [sortuniq] sorts strictly by code units and keeps exactly the words. *)
Theorem sortuniq_correct (a : list jstr) :
  StronglySorted jstr_lt (sortuniq a) ∧ NoDup (sortuniq a) ∧
  ∀ x, x ∈ sortuniq a ↔ x ∈ a.
Proof.
  destruct (sortuniq_spec a) as [Hs Hin]. split_and!; [done| |done].
  clear Hin. induction Hs as [|x l Hs IH Hall]; constructor; [|done].
  intros Hx. rewrite Forall_forall in Hall. by destruct (Hall x Hx).
Qed.

(** After any text at most one Latin-word, one number and one space
    acceptor is live: the guards on [tag] keep a run of a class whole. *)
Theorem guarded_acceptors_unique (tdict : jstr) (words : option (list jstr)) (s : jstr) :
  ∃ st, acceptors_run (dict_init tdict words) s = Some st ∧
    ∀ t, guarded_tag t → count_tag t (current st) ≤ 1.
Proof.
  pose proof (dict_init_sorted tdict words) as Hs. set (dict := dict_init tdict words) in *.
  enough (∃ st, acceptors_run dict s = Some st ∧ tags_inv st ∧
    Forall (live_inv dict s (length s)) (current st)) as (st&?&[_ ?]&_) by eauto.
  assert (Hgen : ∀ n, n ≤ length s → ∃ st, acceptors_run dict (take n s) = Some st ∧
    tags_inv st ∧ Forall (live_inv dict s n) (current st)).
  { induction n as [|n IH]; intros Hn.
    - exists acceptors_reset. split_and!; [done| |constructor]. split; [done|].
      intros; unfold count_tag; simpl; lia.
    - destruct (IH ltac:(lia)) as (st&Hst&Htags&Hlive).
      destruct (lookup_lt_is_Some_2 s n) as [ch Hch]; [lia|].
      destruct (acceptors_transit_live dict Hs s n st ch Hch Hlive) as (st'&Ht&Hlive').
      exists st'. rewrite (take_S_r _ _ _ Hch). unfold acceptors_run in *.
      rewrite foldl_app, Hst; simpl. split_and!; [done| |done].
      by eapply acceptors_transit_tags. }
  destruct (Hgen (length s)) as (st&Hst&?&?); [done|].
  exists st. rewrite firstn_all in Hst. done.
Qed.
