(* ===== verification/PathPosix.v ===== *)
(** * POSIX paths

    The [path] module of [lunr/wordcut.js]: [normalizeArray], [normalize],
    [resolve], [join], [relative] and the [splitPath] family, on strings of
    code units.  [process.cwd()] is the one of the bundle's [process] module,
    always "/". *)

From S2P Require Import Prelude JsString.

Definition slash : N := 47.

(** [exports.sep], [exports.delimiter] and [process.cwd()]. *)
Definition sep : jstr := u "/".
Definition path_delimiter : jstr := u ":".
Definition cwd : jstr := u "/".

(** The downward loop of [normalizeArray]: [rparts] is what is left to visit,
    last part first, [kept] the parts not spliced out so far. *)
Fixpoint normalize_loop (rparts : list jstr) (up : nat) (kept : list jstr)
    : nat * list jstr :=
  match rparts with
  | [] => (up, kept)
  | last :: rest =>
      if decide (last = u ".") then normalize_loop rest up kept
      else if decide (last = u "..") then normalize_loop rest (S up) kept
      else match up with
           | S up' => normalize_loop rest up' kept
           | 0 => normalize_loop rest 0 (last :: kept)
           end
  end.

Definition normalizeArray (parts : list jstr) (allowAboveRoot : bool) : list jstr :=
  let '(up, kept) := normalize_loop (reverse parts) 0 [] in
  if allowAboveRoot then replicate up (u "..") ++ kept else kept.

(** [filter(xs, function (p) { return !!p; })]. *)
Definition filter_truthy (xs : list jstr) : list jstr := filter (λ x, x ≠ []) xs.

Definition isAbsolute (path : jstr) : bool := bool_decide (head path = Some slash).

(** [substr(path, -1) === '/']. *)
Definition trailing_slash (path : jstr) : bool := bool_decide (last path = Some slash).

Definition normalize (path : jstr) : jstr :=
  let abs := isAbsolute path in
  let trailingSlash := trailing_slash path in
  let path1 := join sep (normalizeArray (filter_truthy (split_on slash path)) (negb abs)) in
  let path2 := if bool_decide (path1 = []) && negb abs then u "." else path1 in
  let path3 := if bool_decide (path2 ≠ []) && trailingSlash then path2 ++ sep else path2 in
  (if abs then sep else []) ++ path3.

(** [exports.join] of string arguments. *)
Definition path_join (paths : list jstr) : jstr :=
  normalize (join sep (filter_truthy paths)).

(** The loop of [resolve] from the last argument down to [cwd]. *)
Fixpoint resolve_loop (rargs : list jstr) (resolvedPath : jstr) (resolvedAbsolute : bool)
    : jstr * bool :=
  match rargs with
  | [] => (resolvedPath, resolvedAbsolute)
  | path :: rest =>
      if resolvedAbsolute then (resolvedPath, resolvedAbsolute)
      else if bool_decide (path = []) then resolve_loop rest resolvedPath resolvedAbsolute
      else resolve_loop rest (path ++ sep ++ resolvedPath) (isAbsolute path)
  end.

Definition resolve (args : list jstr) : jstr :=
  let '(resolvedPath, resolvedAbsolute) := resolve_loop (reverse args ++ [cwd]) [] false in
  let path := join sep (normalizeArray (filter_truthy (split_on slash resolvedPath))
                          (negb resolvedAbsolute)) in
  let res := (if resolvedAbsolute then sep else []) ++ path in
  if bool_decide (res = []) then u "." else res.

(** [trim] of [relative]: [start] and [end] are the first and last non-empty
    entries; the slice is the code's, [arr.slice(start, end - start + 1)]. *)
Fixpoint first_nonempty (arr : list jstr) (start : nat) : nat :=
  match arr with
  | [] => start
  | x :: arr' => if bool_decide (x = []) then first_nonempty arr' (S start) else start
  end.
Definition trim (arr : list jstr) : list jstr :=
  let start := Z.of_nat (first_nonempty arr 0) in
  let end_ := (Z.of_nat (length arr) - 1 - Z.of_nat (first_nonempty (reverse arr) 0))%Z in
  if (end_ <? start)%Z then []
  else drop (Z.to_nat start) (take (Z.to_nat (end_ - start + 1)) arr).

(** The first index where the two arrays differ, at most the shorter length. *)
Fixpoint same_parts (fromParts toParts : list jstr) : nat :=
  match fromParts, toParts with
  | f :: fs, t :: ts => if decide (f = t) then S (same_parts fs ts) else 0
  | _, _ => 0
  end.

Definition relative (from to : jstr) : jstr :=
  let from := drop 1 (resolve [from]) in
  let to := drop 1 (resolve [to]) in
  let fromParts := trim (split_on slash from) in
  let toParts := trim (split_on slash to) in
  let samePartsLength := same_parts fromParts toParts in
  let outputParts := replicate (length fromParts - samePartsLength) (u "..") in
  join sep (outputParts ++ drop samePartsLength toParts).

(** ** Splitting a file name

    [splitPathRe] tries, in the order of a backtracking matcher, the splits
    below; the first that reaches the end of the string is the match. *)

Definition is_slash (c : N) : bool := (c =? slash)%N.
Definition dot : N := 46.

Fixpoint run_length (f : N → bool) (s : jstr) : nat :=
  match s with
  | c :: s' => if f c then S (run_length f s') else 0
  | [] => 0
  end.

(** [(?:\.{1,2}|[^\/]+?|)]: two dots, one dot, one or more units that are not
    slashes (fewest first), nothing. *)
Definition stem_candidates (s : jstr) : list nat :=
  (if decide (take 2 s = u "..") then [2] else []) ++
  (if decide (take 1 s = u ".") then [1] else []) ++
  seq 1 (run_length (λ c, negb (is_slash c)) s) ++ [0].

(** [(\.[^.\/]*|)]: the longest extension first, nothing last. *)
Definition ext_candidates (s : jstr) : list nat :=
  match s with
  | c :: s' =>
      if (c =? dot)%N
      then reverse (seq 1 (S (run_length (λ c, negb (is_slash c || (c =? dot)%N)) s'))) ++ [0]
      else [0]
  | [] => [0]
  end.

(** The base and the extension when the rest is [base ext /*] up to the end. *)
Definition match_tail (s : jstr) : option (jstr * jstr) :=
  head (n ← stem_candidates s;
        m ← ext_candidates (drop n s);
        if forallb is_slash (drop (n + m) s)
        then [(take (n + m) s, take m (drop n s))] else []).

(** [([\s\S]*?)]: the shortest directory whose rest matches. *)
Fixpoint match_dir (fuel : nat) (dir rest : jstr) : option (jstr * jstr * jstr) :=
  match match_tail rest with
  | Some (base, ext) => Some (dir, base, ext)
  | None =>
      match fuel, rest with
      | S fuel, c :: rest' => match_dir fuel (dir ++ [c]) rest'
      | _, _ => None
      end
  end.

Record path_parts := PathParts { root : jstr; dir : jstr; base : jstr; ext : jstr }.

Definition splitPath (filename : jstr) : option path_parts :=
  let root := if isAbsolute filename then sep else [] in
  let rest := drop (length root) filename in
  '(d, b, e) ← match_dir (length rest) [] rest;
  Some {| root := root; dir := d; base := b; ext := e |}.

Definition dirname (path : jstr) : option jstr :=
  r ← splitPath path;
  if bool_decide (root r = []) && bool_decide (dir r = []) then Some (u ".")
  else
    let d := if bool_decide (dir r = []) then dir r
             else take (length (dir r) - 1) (dir r) in
    Some (root r ++ d).

(** [basename(path, ext)]: [f.substr(-1 * ext.length)] is the last units, the
    whole of [f] when it is shorter. *)
Definition basename (path : jstr) (ext : option jstr) : option jstr :=
  r ← splitPath path;
  let f := base r in
  match ext with
  | Some e =>
      if bool_decide (e ≠ []) && bool_decide (drop (length f - length e) f = e)
      then Some (take (length f - length e) f) else Some f
  | None => Some f
  end.

Definition extname (path : jstr) : option jstr :=
  r ← splitPath path; Some (ext r).

(** [path-is-absolute]. *)
Definition posix (path : jstr) : bool := bool_decide (head path = Some slash).

(** ** Segments *)

(** A path segment: not empty and without a slash. *)
Definition seg_ok (s : jstr) : Prop := s ≠ [] ∧ slash ∉ s.

(** The non-empty segments of a path. *)
Definition segs (path : jstr) : list jstr := filter_truthy (split_on slash path).

Lemma split_on_app_gen c a b : split_on c (a ++ c :: b) = split_on c a ++ split_on c b.
Proof.
  induction a as [|x a IH]; simpl; [by rewrite N.eqb_refl|].
  destruct (N.eqb_spec x c); rewrite IH; [done|].
  destruct (split_on c a) eqn:E; [by apply split_on_nonempty in E|done].
Qed.

Lemma segs_app_slash a b : segs (a ++ slash :: b) = segs a ++ segs b.
Proof. unfold segs, filter_truthy. by rewrite split_on_app_gen, filter_app. Qed.

Lemma segs_nil : segs [] = [].
Proof. done. Qed.

Lemma segs_sep_l s : segs (sep ++ s) = segs s.
Proof. change (sep ++ s) with ([] ++ slash :: s). by rewrite segs_app_slash. Qed.

Lemma segs_sep_r s : segs (s ++ sep) = segs s.
Proof. change (s ++ sep) with (s ++ slash :: []). by rewrite segs_app_slash, app_nil_r. Qed.

Lemma segs_ok path : Forall seg_ok (segs path).
Proof.
  unfold segs, filter_truthy. apply Forall_forall. intros s Hs.
  apply list_elem_of_filter in Hs as [Hne Hs]. split; [done|].
  pose proof (split_on_parts slash path) as Hall. rewrite Forall_forall in Hall. auto.
Qed.

Lemma filter_truthy_id l : Forall seg_ok l → filter_truthy l = l.
Proof.
  induction 1 as [|s l [Hs _] _ IH]; [done|]. unfold filter_truthy in *.
  by rewrite filter_cons_True, IH.
Qed.

Lemma segs_join l : Forall seg_ok l → segs (join sep l) = l.
Proof.
  intros Hl. destruct (decide (l = [])) as [->|Hne]; [done|].
  unfold segs. change sep with [slash]. rewrite split_on_join; [by apply filter_truthy_id|done|].
  eapply Forall_impl; [done|]. by intros s [].
Qed.

Lemma last_app_ne {A} (a b : list A) : b ≠ [] → last (a ++ b) = last b.
Proof.
  intros Hb. rewrite last_app. destruct (last b) eqn:E; [done|].
  by apply last_None in E.
Qed.

(** A non-empty joined path begins and ends with a segment's unit. *)
Lemma join_ends l :
  Forall seg_ok l → l ≠ [] →
  join sep l ≠ [] ∧ head (join sep l) ≠ Some slash ∧ last (join sep l) ≠ Some slash.
Proof.
  induction 1 as [|s l [Hne Hns] Hall IH]; intros Hl; [done|].
  assert (head s ≠ Some slash ∧ last s ≠ Some slash) as [Hh Ht].
  { split; [destruct s; simpl; [done|]; intros [= ->]; set_solver|].
    intros (s'&->)%last_Some. set_solver. }
  destruct l as [|t l]; [done|].
  destruct (IH ltac:(done)) as (Hj&_&Hjl).
  change (join sep (s :: t :: l)) with (s ++ sep ++ join sep (t :: l)).
  destruct s as [|c s]; [done|]. split_and!; [done|done|].
  rewrite app_assoc, last_app_ne by done. done.
Qed.

(** ** Normalisation as a walk

    [walk] reads the parts from left to right: the number of levels above the
    start, and the names below, innermost first. *)

Definition walk_step (st : nat * list jstr) (part : jstr) : nat * list jstr :=
  let '(d, l) := st in
  if decide (part = u ".") then st
  else if decide (part = u "..") then
    match l with [] => (S d, []) | _ :: l' => (d, l') end
  else (d, part :: l).
Definition walk (parts : list jstr) : nat * list jstr := foldl walk_step (0, []) parts.

Lemma normalize_loop_acc r up kept :
  normalize_loop r up kept =
    let '(up', kept') := normalize_loop r up [] in (up', kept' ++ kept).
Proof.
  revert up kept. induction r as [|x r IH]; intros up kept; simpl; [done|].
  repeat case_decide; [apply IH..|]. destruct up; [|apply IH].
  rewrite (IH 0 (x :: kept)), (IH 0 [x]). destruct (normalize_loop r 0 []).
  by rewrite <-app_assoc.
Qed.

Lemma normalize_loop_walk parts up :
  normalize_loop (reverse parts) up [] =
    let '(d, l) := walk parts in (d + (up - length l), reverse (drop up l)).
Proof.
  revert up. induction parts as [|x parts IH] using rev_ind; intros up.
  { simpl. by rewrite drop_nil, Nat.sub_0_r. }
  rewrite reverse_snoc. unfold walk. rewrite foldl_app. fold (walk parts).
  destruct (walk parts) as [d l] eqn:E. cbn [normalize_loop foldl walk_step].
  case_decide; [by rewrite IH|]. case_decide.
  - rewrite IH. destruct l as [|y l]; simpl; f_equal; [lia|by rewrite drop_nil].
  - destruct up as [|up].
    + rewrite normalize_loop_acc, IH. simpl. rewrite reverse_cons. f_equal; lia.
    + rewrite IH. simpl. done.
Qed.

Lemma normalizeArray_walk_eq parts allow :
  normalizeArray parts allow =
    (if allow : bool then replicate (walk parts).1 (u "..") else []) ++ reverse (walk parts).2.
Proof.
  unfold normalizeArray. rewrite normalize_loop_walk.
  destruct (walk parts) as [d l]; simpl. rewrite drop_0, Nat.sub_0_l, Nat.add_0_r.
  by destruct allow.
Qed.

(** A part that is neither "." nor "..". *)
Definition plain (s : jstr) : Prop := s ≠ u "." ∧ s ≠ u "..".

Lemma walk_fold_plain names d l :
  Forall plain names → foldl walk_step (d, l) names = (d, reverse names ++ l).
Proof.
  intros H. revert l. induction H as [|s names [H1 H2] _ IH]; intros l; [done|].
  cbn [foldl walk_step]. rewrite !decide_False by done. rewrite IH.
  by rewrite reverse_cons, <-app_assoc.
Qed.

Lemma walk_fold_up k d : foldl walk_step (d, []) (replicate k (u "..")) = (d + k, []).
Proof.
  revert d. induction k as [|k IH]; intros d; simpl; [by rewrite Nat.add_0_r|].
  rewrite IH. f_equal. lia.
Qed.

Lemma walk_fold_drop k d l : k ≤ length l →
  foldl walk_step (d, l) (replicate k (u "..")) = (d, drop k l).
Proof.
  revert l. induction k as [|k IH]; intros l Hk; [by rewrite drop_0|].
  destruct l as [|x l]; [simpl in Hk; lia|]. simpl. apply IH. simpl in Hk. lia.
Qed.

Lemma walk_plain parts : Forall plain (walk parts).2.
Proof.
  induction parts as [|x parts IH] using rev_ind; [constructor|].
  unfold walk. rewrite foldl_app. fold (walk parts).
  destruct (walk parts) as [d l]; cbn [foldl walk_step].
  case_decide; [done|]. case_decide; [|by constructor].
  destruct l; simpl in *; [constructor|by inversion IH].
Qed.

Lemma walk_in parts s : s ∈ (walk parts).2 → s ∈ parts.
Proof.
  revert s. induction parts as [|x parts IH] using rev_ind; intros s; [done|].
  unfold walk. rewrite foldl_app. fold (walk parts).
  destruct (walk parts) as [d l]; cbn [foldl walk_step] in *; simpl in IH.
  case_decide; [set_solver|]. case_decide; [|set_solver].
  destruct l; simpl; set_solver.
Qed.

Lemma reverse_Forall {A} (P : A → Prop) l : Forall P l → Forall P (reverse l).
Proof. rewrite !Forall_forall. intros H x Hx. apply H. by apply elem_of_reverse. Qed.

Lemma dotdot_ok : seg_ok (u "..").
Proof. split; [done|]. by apply (bool_decide_unpack _). Qed.

Lemma normalizeArray_ok parts allow :
  Forall seg_ok parts → Forall seg_ok (normalizeArray parts allow).
Proof.
  intros H. rewrite normalizeArray_walk_eq. apply Forall_app. split.
  - destruct allow; [|constructor]. apply Forall_replicate, dotdot_ok.
  - apply reverse_Forall, Forall_forall. intros s Hs%walk_in.
    rewrite Forall_forall in H. auto.
Qed.

Lemma normalizeArray_idem parts allow :
  normalizeArray (normalizeArray parts allow) allow = normalizeArray parts allow.
Proof.
  rewrite (normalizeArray_walk_eq parts), normalizeArray_walk_eq.
  pose proof (reverse_Forall _ _ (walk_plain parts)) as Hp. destruct (walk parts) as [d l].
  simpl in *. unfold walk. rewrite foldl_app.
  destruct allow; [rewrite walk_fold_up|]; simpl; rewrite walk_fold_plain by done; simpl;
    by rewrite app_nil_r, reverse_involutive.
Qed.

(** ** [normalize] *)

Definition trail (b : bool) : jstr := if b then sep else [].

Lemma segs_trail_l b s : segs (trail b ++ s) = segs s.
Proof. destruct b; [apply segs_sep_l|done]. Qed.

Lemma segs_trail_r b s : segs (s ++ trail b) = segs s.
Proof. destruct b; [apply segs_sep_r|by rewrite app_nil_r]. Qed.

Lemma normalize_eq path :
  let abs := isAbsolute path in
  let l := normalizeArray (segs path) (negb abs) in
  normalize path =
    trail abs ++
      (if decide (l = []) then (if abs then [] else u "." ++ trail (trailing_slash path))
       else join sep l ++ trail (trailing_slash path)).
Proof.
  intros abs l. unfold normalize. fold abs. fold (segs path). fold l.
  assert (Forall seg_ok l) as Hl by apply normalizeArray_ok, segs_ok.
  unfold trail. destruct (decide (l = [])) as [->|Hne].
  - simpl. destruct abs; simpl; [done|]. by destruct (trailing_slash path).
  - destruct (join_ends l Hl Hne) as (Hj&_&_).
    rewrite (bool_decide_eq_false_2 (join sep l = [])) by done. simpl.
    rewrite (bool_decide_eq_true_2 (join sep l ≠ [])) by done. simpl.
    by destruct (trailing_slash path); rewrite ?app_nil_r.
Qed.

Lemma isAbsolute_sep s : isAbsolute (sep ++ s) = true.
Proof. done. Qed.

Lemma trailing_slash_sep s : trailing_slash (s ++ sep) = true.
Proof. apply bool_decide_eq_true_2. apply last_snoc. Qed.

(** A path in the form [normalize] produces. *)
Lemma normalize_fixed abs tr l :
  Forall seg_ok l → normalizeArray l (negb abs) = l → l ≠ [] →
  normalize (trail abs ++ join sep l ++ trail tr) = trail abs ++ join sep l ++ trail tr.
Proof.
  intros Hl Hfix Hne. destruct (join_ends l Hl Hne) as (Hj&Hh&Ht).
  assert (isAbsolute (trail abs ++ join sep l ++ trail tr) = abs) as Habs.
  { destruct abs; [done|]. simpl. unfold isAbsolute.
    apply bool_decide_eq_false_2. by destruct (join sep l). }
  assert (trailing_slash (trail abs ++ join sep l ++ trail tr) = tr) as Htr.
  { destruct tr; cbn [trail]; [by rewrite app_assoc, trailing_slash_sep|].
    rewrite app_nil_r. apply bool_decide_eq_false_2. by rewrite last_app_ne. }
  assert (segs (trail abs ++ join sep l ++ trail tr) = l) as Hsegs.
  { by rewrite segs_trail_l, segs_trail_r, segs_join. }
  rewrite normalize_eq, Habs, Htr, Hsegs, Hfix, decide_False by done. done.
Qed.

Lemma normalize_idem path : normalize (normalize path) = normalize path.
Proof.
  rewrite (normalize_eq path). set (abs := isAbsolute path).
  set (l := normalizeArray (segs path) (negb abs)).
  assert (Forall seg_ok l) as Hl by apply normalizeArray_ok, segs_ok.
  case_decide as Hne; [|by apply normalize_fixed; [|apply normalizeArray_idem|]].
  destruct abs; [done|]. by destruct (trailing_slash path).
Qed.

(** ** [resolve] *)

(** The arguments that count: from the last absolute one on, last first. *)
Fixpoint relevant (rargs : list jstr) : list jstr :=
  match rargs with
  | [] => []
  | path :: rest => if isAbsolute path then [path] else relevant rest ++ [path]
  end.

Definition segs_of (paths : list jstr) : list jstr := concat (map segs paths).

Lemma segs_of_snoc ps q : segs_of (ps ++ [q]) = segs_of ps ++ segs q.
Proof. unfold segs_of. by rewrite map_app, concat_app; simpl; rewrite app_nil_r. Qed.

Lemma resolve_loop_abs rargs acc : resolve_loop rargs acc true = (acc, true).
Proof. by destruct rargs. Qed.

Lemma resolve_loop_segs rargs acc :
  let '(P, b) := resolve_loop rargs acc false in
  segs P = segs_of (relevant rargs) ++ segs acc ∧ b = existsb isAbsolute rargs.
Proof.
  revert acc. induction rargs as [|path rest IH]; intros acc; cbn [resolve_loop relevant existsb]; [done|].
  case_bool_decide as Hp.
  - subst path. change (isAbsolute []) with false. cbn [orb]. specialize (IH acc).
    destruct (resolve_loop rest acc false) as [P b]. destruct IH as [-> ->].
    rewrite segs_of_snoc, segs_nil, app_nil_r. done.
  - destruct (isAbsolute path) eqn:Habs; cbn [orb].
    + rewrite resolve_loop_abs. split; [|done]. unfold segs_of; simpl.
      change (path ++ sep ++ acc) with (path ++ slash :: acc).
      by rewrite segs_app_slash, app_nil_r.
    + specialize (IH (path ++ sep ++ acc)).
      destruct (resolve_loop rest (path ++ sep ++ acc) false) as [P b].
      destruct IH as [-> ->]. rewrite segs_of_snoc, <-app_assoc.
      change (path ++ sep ++ acc) with (path ++ slash :: acc).
      by rewrite segs_app_slash.
Qed.

(** The segments [resolve] arrives at. *)
Definition resolved_segs (args : list jstr) : list jstr :=
  reverse (walk (segs_of (relevant (reverse args ++ [cwd])))).2.

Lemma resolve_eq args : resolve args = sep ++ join sep (resolved_segs args).
Proof.
  unfold resolve, resolved_segs.
  pose proof (resolve_loop_segs (reverse args ++ [cwd]) []) as H.
  destruct (resolve_loop _ _ _) as [P b]. destruct H as [HP Hb].
  rewrite existsb_app in Hb. simpl in Hb. rewrite orb_true_r in Hb. subst b. simpl.
  fold (segs P). rewrite HP, segs_nil, app_nil_r, normalizeArray_walk_eq. done.
Qed.

Lemma segs_of_ok ps : Forall seg_ok (segs_of ps).
Proof.
  unfold segs_of. induction ps as [|q ps IH]; simpl; [constructor|].
  apply Forall_app. split; [apply segs_ok|done].
Qed.

Lemma resolved_segs_ok args : Forall seg_ok (resolved_segs args) ∧ Forall plain (resolved_segs args).
Proof.
  unfold resolved_segs. split; apply reverse_Forall; [|apply walk_plain].
  apply Forall_forall. intros s Hs%walk_in.
  pose proof (segs_of_ok (relevant (reverse args ++ [cwd]))) as H.
  rewrite Forall_forall in H. auto.
Qed.

(** ** [relative] *)

Lemma first_nonempty_ok l k : Forall seg_ok l → l ≠ [] → first_nonempty l k = k.
Proof.
  intros [|s l' [Hs _] _] Hne; [done|]. simpl. by rewrite bool_decide_eq_false_2.
Qed.

Lemma trim_segs l : Forall seg_ok l → trim (split_on slash (join sep l)) = l.
Proof.
  intros Hl. destruct (decide (l = [])) as [->|Hne]; [done|].
  change sep with [slash]. rewrite split_on_join; [|done|].
  2:{ eapply Forall_impl; [done|]. by intros s []. }
  unfold trim. rewrite (first_nonempty_ok l) by done.
  rewrite (first_nonempty_ok (reverse l));
    [|by apply reverse_Forall|by intros H%(f_equal reverse); rewrite reverse_involutive in H].
  assert (length l ≠ 0) by (destruct l; simpl; [done|lia]).
  destruct (Z.ltb_spec (Z.of_nat (length l) - 1 - Z.of_nat 0) (Z.of_nat 0)); [lia|].
  replace (Z.to_nat (Z.of_nat 0)) with 0 by lia. rewrite drop_0.
  apply take_ge. lia.
Qed.

Lemma same_parts_spec f t :
  same_parts f t ≤ length f ∧ take (same_parts f t) f = take (same_parts f t) t.
Proof.
  revert t. induction f as [|x f IH]; intros [|y t]; simpl; [split; [lia|done]..|].
  case_decide as H; simpl; [subst y|split; [lia|done]].
  destruct (IH t) as [? ->]. split; [lia|done].
Qed.

Lemma relative_eq from to :
  let F := resolved_segs [from] in let T := resolved_segs [to] in
  let k := same_parts F T in
  relative from to = join sep (replicate (length F - k) (u "..") ++ drop k T).
Proof.
  intros F T k. unfold relative. rewrite !resolve_eq. cbn [drop app sep].
  change (drop 1 (sep ++ join sep (resolved_segs [from]))) with (join sep F).
  change (drop 1 (sep ++ join sep (resolved_segs [to]))) with (join sep T).
  rewrite !trim_segs by apply resolved_segs_ok. done.
Qed.

(** Walking the relative parts from [F] arrives at [T]. *)
Lemma walk_relative d F T :
  Forall plain T →
  let k := same_parts F T in
  reverse (foldl walk_step (d, reverse F)
    (replicate (length F - k) (u "..") ++ drop k T)).2 = T.
Proof.
  intros HT k. destruct (same_parts_spec F T) as [Hk Heq]. fold k in Hk, Heq.
  rewrite foldl_app, walk_fold_drop by (rewrite length_reverse; lia).
  rewrite walk_fold_plain by by apply Forall_drop. simpl.
  rewrite reverse_app, reverse_involutive.
  replace (drop (length F - k) (reverse F)) with (reverse (take k F)).
  - rewrite reverse_involutive, Heq. apply take_drop.
  - assert (reverse F = reverse (drop k F) ++ reverse (take k F)) as ->
      by by rewrite <-reverse_app, take_drop.
    rewrite drop_app_length' by by rewrite length_reverse, length_drop. done.
Qed.

Lemma isAbsolute_join l : Forall seg_ok l → isAbsolute (join sep l) = false.
Proof.
  intros Hl. apply bool_decide_eq_false_2. destruct (decide (l = [])) as [->|Hne]; [done|].
  by apply join_ends.
Qed.

Lemma resolved_segs_two from rel :
  isAbsolute rel = false →
  resolved_segs [from; rel] =
    reverse (foldl walk_step (walk (segs_of (relevant (reverse [from] ++ [cwd])))) (segs rel)).2.
Proof.
  intros Hrel. unfold resolved_segs. cbn [reverse rev_append app].
  change (reverse [from; rel]) with [rel; from]. change (reverse [from]) with [from].
  cbn [app relevant]. rewrite Hrel. fold (relevant [from; cwd]). unfold walk.
  by rewrite segs_of_snoc, foldl_app.
Qed.

(** ** [splitPath] *)

Lemma run_length_Forall f s : Forall (λ c, f c = true) (take (run_length f s) s).
Proof.
  induction s as [|c s IH]; simpl; [constructor|].
  destruct (f c) eqn:E; simpl; [by constructor|constructor].
Qed.

Lemma run_length_take f s n :
  n ≤ run_length f s → Forall (λ c, f c = true) (take n s).
Proof.
  intros Hn. replace n with (n `min` run_length f s) by lia.
  rewrite <-take_take. apply Forall_take, run_length_Forall.
Qed.

Lemma no_slash_Forall s : Forall (λ c, negb (is_slash c) = true) s → slash ∉ s.
Proof.
  intros H Hin. rewrite Forall_forall in H. specialize (H _ Hin). done.
Qed.

Lemma stem_candidates_ok s n : n ∈ stem_candidates s → slash ∉ take n s.
Proof.
  unfold stem_candidates. rewrite !elem_of_app. intros [H|[H|[H|H]]].
  - case_decide as E; [|set_solver]. apply list_elem_of_singleton in H as ->. rewrite E.
    by apply (bool_decide_unpack _).
  - case_decide as E; [|set_solver]. apply list_elem_of_singleton in H as ->. rewrite E.
    by apply (bool_decide_unpack _).
  - apply elem_of_seq in H. apply no_slash_Forall, run_length_take. lia.
  - apply list_elem_of_singleton in H as ->. simpl. set_solver.
Qed.

(** An extension is empty, or a dot and no other dot or slash. *)
Definition ext_ok (e : jstr) : Prop :=
  e = [] ∨ ∃ t, e = dot :: t ∧ dot ∉ t ∧ slash ∉ t.

Lemma ext_candidates_ok s m : m ∈ ext_candidates s → ext_ok (take m s).
Proof.
  unfold ext_candidates. destruct s as [|c s]; [rewrite take_nil; by left|].
  destruct (N.eqb_spec c dot) as [->|].
  2:{ intros ->%list_elem_of_singleton. by left. }
  rewrite elem_of_app, elem_of_reverse, elem_of_seq.
  intros [[H1 H2]| ->%list_elem_of_singleton]; [|by left]. right.
  destruct m as [|m]; [lia|]. exists (take m s). simpl. split; [done|].
  assert (Forall (λ c, negb (is_slash c || (c =? dot)%N) = true) (take m s)) as H
    by (apply run_length_take; lia).
  rewrite Forall_forall in H.
  split; intros Hin; specialize (H _ Hin); done.
Qed.

Lemma match_tail_ok s b e :
  match_tail s = Some (b, e) →
  ∃ n, s = b ++ replicate n slash ∧ slash ∉ b ∧ ext_ok e ∧ e `suffix_of` b.
Proof.
  unfold match_tail. intros H.
  assert ((b, e) ∈ (n ← stem_candidates s;
        m ← ext_candidates (drop n s);
        if forallb is_slash (drop (n + m) s)
        then [(take (n + m) s, take m (drop n s))] else [])) as Hin.
  { destruct (_ ≫= _); simplify_eq/=. by left. }
  apply list_elem_of_bind in Hin as (n&Hin&Hn).
  apply list_elem_of_bind in Hin as (m&Hin&Hm).
  destruct (forallb is_slash (drop (n + m) s)) eqn:Hall; [|set_solver].
  apply list_elem_of_singleton in Hin as [= -> ->].
  assert (Hb : take (n + m) s = take n s ++ take m (drop n s)) by by rewrite take_take_drop.
  exists (length (drop (n + m) s)). split_and!.
  - rewrite <-(take_drop (n + m) s) at 1. f_equal.
    rewrite forallb_forall in Hall.
    apply list_eq_same_length with (n := length (drop (n + m) s)); [by rewrite length_replicate|done|].
    intros i x y Hi Hx Hy. apply lookup_replicate in Hy as [-> _].
    apply list_elem_of_lookup_2, list_elem_of_In in Hx. apply Hall in Hx.
    by apply N.eqb_eq in Hx.
  - rewrite Hb, not_elem_of_app. split; [by apply stem_candidates_ok|].
    destruct (ext_candidates_ok _ _ Hm) as [->|(t&->&_&?)]; [set_solver|].
    rewrite not_elem_of_cons. split; [done|done].
  - by apply ext_candidates_ok.
  - rewrite Hb. by apply suffix_app_r; exists [].
Qed.

Lemma match_dir_total fuel d rest :
  length rest ≤ fuel →
  ∃ d' b e n, match_dir fuel d rest = Some (d', b, e) ∧
    d ++ rest = d' ++ b ++ replicate n slash ∧ slash ∉ b ∧ ext_ok e ∧ e `suffix_of` b.
Proof.
  revert d rest. induction fuel as [|fuel IH]; intros d rest Hf; simpl;
    (destruct (match_tail rest) as [[b e]|] eqn:E;
      [destruct (match_tail_ok _ _ _ E) as (n&->&?&?&?); by exists d, b, e, n|]).
  - destruct rest; [done|simpl in Hf; lia].
  - destruct rest as [|c rest]; [done|].
    destruct (IH (d ++ [c]) rest) as (d'&b&e&n&Hm&Heq&?); [simpl in Hf; lia|].
    exists d', b, e, n. split; [done|]. by rewrite <-Heq, <-app_assoc.
Qed.

(** ** The properties *)

(** [normalizeArray] is the walk from left to right: ".." leaves the last
    name, above the start it counts a level (kept only when allowed), "." stays. *)
Theorem normalizeArray_walk (parts : list jstr) (allowAboveRoot : bool) :
  normalizeArray parts allowAboveRoot =
    (if allowAboveRoot then replicate (walk parts).1 (u "..") else [])
      ++ reverse (walk parts).2.
Proof. apply normalizeArray_walk_eq. Qed.

(** Normalising a path twice is normalising it once. *)
Theorem normalize_idempotent (path : jstr) : normalize (normalize path) = normalize path.
Proof. apply normalize_idem. Qed.

(** C22: a relative path leads from the one place to the other: resolving
    [relative(from, to)] against [from] gives what [to] resolves to. *)
Theorem relative_resolve (from to : jstr) :
  resolve [from; relative from to] = resolve [to].
Proof.
  rewrite !resolve_eq. do 2 f_equal. rewrite relative_eq.
  set (F := resolved_segs [from]). set (T := resolved_segs [to]).
  assert (Forall seg_ok (replicate (length F - same_parts F T) (u "..")
    ++ drop (same_parts F T) T)) as Hok.
  { apply Forall_app. split; [apply Forall_replicate, dotdot_ok|].
    apply Forall_drop, resolved_segs_ok. }
  rewrite resolved_segs_two, segs_join by (done || by apply isAbsolute_join).
  destruct (walk (segs_of (relevant (reverse [from] ++ [cwd])))) as [d l] eqn:E.
  assert (l = reverse F) as ->.
  { unfold F, resolved_segs. by rewrite E, reverse_involutive. }
  apply walk_relative, resolved_segs_ok.
Qed.

(** [resolve] always gives an absolute path whose segments are the walk
    over the arguments from the last absolute one on, with no "." or "..". *)
Theorem resolve_absolute (args : list jstr) :
  resolve args = sep ++ join sep (resolved_segs args) ∧
  isAbsolute (resolve args) = true ∧
  segs (resolve args) = resolved_segs args ∧
  Forall plain (resolved_segs args).
Proof.
  rewrite resolve_eq. destruct (resolved_segs_ok args) as [Hok Hp].
  split_and!; [done|done| |done]. by rewrite segs_sep_l, segs_join.
Qed.

(** [splitPathRe] matches every path; root, directory, base and the
    trailing slashes spell the path, the base has no slash and ends with the
    extension, which is empty or a dot without another. *)
Theorem splitPath_recompose (filename : jstr) :
  ∃ r n, splitPath filename = Some r ∧
    filename = root r ++ dir r ++ base r ++ replicate n slash ∧
    slash ∉ base r ∧ ext_ok (ext r) ∧ ext r `suffix_of` base r.
Proof.
  unfold splitPath. set (rt := if isAbsolute filename then sep else []).
  destruct (match_dir_total (length (drop (length rt) filename)) []
    (drop (length rt) filename) ltac:(done)) as (d&b&e&n&->&Heq&?&?&?).
  eexists {| root := rt; dir := d; base := b; ext := e |}, n. simpl.
  split_and!; try done. simpl in Heq. rewrite <-Heq.
  unfold rt, isAbsolute. case_bool_decide as Habs; [|done].
  destruct filename as [|c s]; simplify_eq/=. done.
Qed.
