(* ===== verification/BraceExpansion.v ===== *)
(** * Brace expansion

    The [balanced-match], [concat-map] and [brace-expansion] modules of
    [lunr/wordcut.js].  Numbers are the integers the sequences denote (exact
    below 2^53 in the code).  [expand] has fuel: a zero increment loops for
    ever in the code, and no fuel gives a result for it. *)

From S2P Require Import Prelude JsString.

Definition lbrace : N := 123.
Definition rbrace : N := 125.
Definition comma : N := 44.
Definition dollar : N := 36.

(** ** [balanced-match] *)

(** The loop of [range]; [begs] has its last element first. *)
Fixpoint range_loop (fuel : nat) (a b : N) (str : jstr) (begs : list Z)
    (ai bi i left right : Z) : option (Z * Z) :=
  match fuel with
  | 0 => None
  | S fuel =>
      if (i <? 0)%Z then
        match begs with [] => None | _ :: _ => Some (left, right) end
      else if (i =? ai)%Z then
        let begs := i :: begs in
        let ai := indexOf str a (i + 1) in
        range_loop fuel a b str begs ai bi
          (if (ai <? bi)%Z && (0 <=? ai)%Z then ai else bi) left right
      else match begs with
      | [] => None
      | [beg] => Some (beg, bi)
      | beg :: begs =>
          let '(lf, rt) := if (beg <? left)%Z then (beg, bi) else (left, right) in
          let bi := indexOf str b (i + 1) in
          range_loop fuel a b str begs ai bi
            (if (ai <? bi)%Z && (0 <=? ai)%Z then ai else bi) lf rt
      end
  end.

(** [range(a, b, str)] for one-unit delimiters. *)
Definition range (a b : N) (str : jstr) : option (Z * Z) :=
  let ai := indexOf str a 0 in
  let bi := indexOf str b (ai + 1) in
  if (0 <=? ai)%Z && (0 <? bi)%Z
  then range_loop (S (S (length str))) a b str [] ai bi ai (Z.of_nat (length str)) (-1)
  else None.

Record balanced_match := BalancedMatch {
  start : Z;
  end_ : Z;
  pre : jstr;
  body : jstr;
  post : jstr;
}.

Definition balanced (a b : N) (str : jstr) : option balanced_match :=
  '(l, r) ← range a b str;
  Some {| start := l; end_ := r;
          pre := take (Z.to_nat l) str;
          body := substring str (Z.to_nat (l + 1)) (Z.to_nat r);
          post := drop (Z.to_nat (r + 1)) str |}.

(** ** [brace-expansion] *)

(** [str.match(/,.*\}/)]: a comma, then units other than line ends, then a
    closing brace. *)
Definition line_end (c : N) : bool :=
  ((c =? 10) || (c =? 13) || (c =? 0x2028) || (c =? 0x2029))%N.
Fixpoint brace_before_line_end (s : jstr) : bool :=
  match s with
  | [] => false
  | c :: s' => if line_end c then false else (c =? rbrace)%N || brace_before_line_end s'
  end.
Fixpoint comma_then_brace (s : jstr) : bool :=
  match s with
  | [] => false
  | c :: s' => ((c =? comma)%N && brace_before_line_end s') || comma_then_brace s'
  end.

(** [-?\d+]: the rest after an optional sign and at least one digit, all the
    digits taken. *)
Fixpoint drop_digits (s : jstr) : jstr :=
  match s with
  | c :: s' => if is_digit_unit c then drop_digits s' else s
  | [] => []
  end.
Definition take_integer (s : jstr) : option jstr :=
  let s' := match s with c :: s' => if (c =? 45)%N then s' else s | [] => [] end in
  match s' with
  | c :: r => if is_digit_unit c then Some (drop_digits r) else None
  | [] => None
  end.
Definition take_dots (s : jstr) : option jstr :=
  if starts_with (u "..") s then Some (drop 2 s) else None.

(** [(?:\.\.-?\d+)?$]. *)
Definition optional_incr_end (s : jstr) : bool :=
  match s with
  | [] => true
  | _ => match (r ← take_dots s; take_integer r) with
         | Some [] => true
         | _ => false
         end
  end.

Definition isNumericSequence (body : jstr) : bool :=
  match (r ← take_integer body; r ← take_dots r; take_integer r) with
  | Some r => optional_incr_end r
  | None => false
  end.

Definition is_alpha (c : N) : bool :=
  (((97 <=? c) && (c <=? 122)) || ((65 <=? c) && (c <=? 90)))%N.
Definition isAlphaSequence (body : jstr) : bool :=
  match body with
  | x :: r =>
      is_alpha x &&
      match take_dots r with
      | Some (y :: r') => is_alpha y && optional_incr_end r'
      | _ => false
      end
  | [] => false
  end.

(** [str.split(/\.\./)]. *)
Fixpoint split_dots (fuel : nat) (s cur : jstr) : list jstr :=
  match fuel with
  | 0 => [cur ++ s]
  | S fuel =>
      match s with
      | [] => [cur]
      | c :: s' =>
          if starts_with (u "..") s then cur :: split_dots fuel (drop 2 s) []
          else split_dots fuel s' (cur ++ [c])
      end
  end.

(** [numeric(str)]: on the parts of a sequence, the integer when [str] is one,
    the first unit otherwise. *)
Definition integer_value (str : jstr) : option Z :=
  match take_integer str with
  | Some [] =>
      Some (match str with
            | c :: s' => if (c =? 45)%N then - digits_value s' else digits_value str
            | [] => 0
            end)%Z
  | _ => None
  end.
Definition numeric (str : jstr) : Z :=
  match integer_value str with
  | Some v => v
  | None => match str with c :: _ => Z.of_N c | [] => 0%Z end
  end.

(** [/^-?0\d/.test(el)]. *)
Definition isPadded (el : jstr) : bool :=
  let el' := match el with c :: s' => if (c =? 45)%N then s' else el | [] => [] end in
  match el' with
  | z :: d :: _ => (z =? 48)%N && is_digit_unit d
  | _ => false
  end.

Definition embrace (str : jstr) : jstr := u "{" ++ str ++ u "}".

(** [c] padded with zeros to [width] as the sequence loop does. *)
Definition pad_zeros (width : nat) (i : Z) (c : jstr) : jstr :=
  let z := replicate (width - length c) 48%N in
  if (0 <? width - length c) then
    if (i <? 0)%Z then u "-" ++ z ++ drop 1 c else z ++ c
  else c.

Definition seq_test (reverse : bool) (i y : Z) : bool :=
  if reverse then (y <=? i)%Z else (i <=? y)%Z.

(** [for (var i = x; test(i, y); i += incr)]: one unit of fuel per turn. *)
Fixpoint seq_loop (fuel : nat) (reverse : bool) (i y incr : Z) (item : Z → jstr)
    : option (list jstr) :=
  if seq_test reverse i y then
    match fuel with
    | 0 => None
    | S fuel => rest ← seq_loop fuel reverse (i + incr)%Z y incr item; Some (item i :: rest)
    end
  else Some [].

Definition seq_item (alpha pad : bool) (width : nat) (i : Z) : jstr :=
  if alpha then let c := [Z.to_N i] in if decide (c = u "\") then [] else c
  else let c := string_of_Z i in if pad then pad_zeros width i c else c.

(** The values of a sequence body, split at "..". *)
Definition sequence_values (fuel : nat) (alpha : bool) (n : list jstr) : option (list jstr) :=
  let n0 := default [] (n !! 0) in
  let n1 := default [] (n !! 1) in
  let x := numeric n0 in
  let y := numeric n1 in
  let width := length n0 `max` length n1 in
  let incr := match n with [_; _; n2] => Z.abs (numeric n2) | _ => 1%Z end in
  let reverse := (y <? x)%Z in
  let incr := if reverse then (- incr)%Z else incr in
  let pad := existsb isPadded n in
  seq_loop fuel reverse x y incr (seq_item alpha pad width).

(** [p[p.length-1] += s]. *)
Definition append_last (ps : list jstr) (s : jstr) : list jstr :=
  match reverse ps with
  | [] => []
  | q :: qs => reverse qs ++ [q ++ s]
  end.

(** [parseCommaParts]; fuel for the recursion on [post]. *)
Fixpoint parseCommaParts (fuel : nat) (str : jstr) : option (list jstr) :=
  match fuel with
  | 0 => None
  | S fuel =>
      match str with
      | [] => Some [[]]
      | _ =>
          match balanced lbrace rbrace str with
          | None => Some (split_on comma str)
          | Some m =>
              let p := append_last (split_on comma (pre m)) (embrace (body m)) in
              postParts ← parseCommaParts fuel (post m);
              Some (match post m, postParts with
                    | [], _ => p
                    | _, q :: qs => append_last p q ++ qs
                    | _, [] => p
                    end)
          end
      end
  end.

(** [concatMap] of a function that always returns an array. *)
Fixpoint concatMap (xs : list jstr) (fn : jstr → option (list jstr)) : option (list jstr) :=
  match xs with
  | [] => Some []
  | x :: xs' => r ← fn x; rs ← concatMap xs' fn; Some (r ++ rs)
  end.

(** The two loops that combine the values with the expansions of [post]. *)
Definition combine (isTop isSequence : bool) (pre : jstr) (N post : list jstr) : list jstr :=
  concat (map (λ x, omap (λ p,
    let expansion := pre ++ x ++ p in
    if negb isTop || isSequence || bool_decide (expansion ≠ []) then Some expansion else None)
    post) N).

Section expand.
(** [''+Math.random()], once for each of the five escape tokens. *)
Variables rSlash rOpen rClose rComma rPeriod : jstr.

Definition esc_token (name rnd : jstr) : jstr := 0%N :: name ++ rnd ++ [0%N].
Definition escSlash : jstr := esc_token (u "SLASH") rSlash.
Definition escOpen : jstr := esc_token (u "OPEN") rOpen.
Definition escClose : jstr := esc_token (u "CLOSE") rClose.
Definition escComma : jstr := esc_token (u "COMMA") rComma.
Definition escPeriod : jstr := esc_token (u "PERIOD") rPeriod.

Definition escapeBraces (str : jstr) : jstr :=
  replace_all (u "\.") escPeriod
    (replace_all (u "\,") escComma
      (replace_all (u "\}") escClose
        (replace_all (u "\{") escOpen
          (replace_all (u "\\") escSlash str)))).

Definition unescapeBraces (str : jstr) : jstr :=
  replace_all escPeriod (u ".")
    (replace_all escComma (u ",")
      (replace_all escClose (u "}")
        (replace_all escOpen (u "{")
          (replace_all escSlash (u "\") str)))).

Fixpoint expand (fuel : nat) (str : jstr) (isTop : bool) : option (list jstr) :=
  match fuel with
  | 0 => None
  | S fuel =>
      match balanced lbrace rbrace str with
      | None => Some [str]
      | Some m =>
          if decide (last (pre m) = Some dollar) then Some [str]
          else
            let numericSeq := isNumericSequence (body m) in
            let alphaSeq := isAlphaSequence (body m) in
            let isSequence := numericSeq || alphaSeq in
            let isOptions := bool_decide (comma ∈ body m) in
            let expand_post :=
              match post m with [] => Some [[]] | _ => expand fuel (post m) false end in
            if negb isSequence && negb isOptions then
              if comma_then_brace (post m)
              then expand fuel (pre m ++ u "{" ++ body m ++ escClose ++ post m) false
              else Some [str]
            else if isSequence then
              posts ← expand_post;
              N ← sequence_values fuel alphaSeq
                    (split_dots (length (body m)) (body m) []);
              Some (combine isTop isSequence (pre m) N posts)
            else
              n ← parseCommaParts (S (length (body m))) (body m);
              match n with
              | [n0] =>
                  inner ← expand fuel n0 false;
                  let n := map embrace inner in
                  match n with
                  | [e] => posts ← expand_post; Some (map (λ p, pre m ++ e ++ p) posts)
                  | _ =>
                      posts ← expand_post;
                      N ← concatMap n (λ el, expand fuel el false);
                      Some (combine isTop isSequence (pre m) N posts)
                  end
              | _ =>
                  posts ← expand_post;
                  N ← concatMap n (λ el, expand fuel el false);
                  Some (combine isTop isSequence (pre m) N posts)
              end
      end
  end.

Definition expandTop (fuel : nat) (str : jstr) : option (list jstr) :=
  match str with
  | [] => Some []
  | _ =>
      let str := if starts_with (u "{}") str then u "\{\}" ++ drop 2 str else str in
      rs ← expand fuel (escapeBraces str) true;
      Some (map unescapeBraces rs)
  end.
End expand.

(** ** [balanced]: the pair it finds *)

(** The first occurrence of [c] at or after [k], -1 when there is none. *)
Definition first_at (s : jstr) (c : N) (k r : Z) : Prop :=
  (r = (-1)%Z ∧ ∀ j : nat, (k ≤ Z.of_nat j)%Z → s !! j ≠ Some c) ∨
  ((k ≤ r)%Z ∧ s !! Z.to_nat r = Some c ∧
   ∀ j : nat, (k ≤ Z.of_nat j < r)%Z → s !! j ≠ Some c).

Lemma index_from_spec c s (k : nat) :
  (index_from c s (Z.of_nat k) = (-1)%Z ∧ c ∉ s) ∨
  (∃ n : nat, index_from c s (Z.of_nat k) = Z.of_nat (k + n) ∧ s !! n = Some c ∧
     ∀ j, j < n → s !! j ≠ Some c).
Proof.
  revert k. induction s as [|x s IH]; intros k; simpl; [left; set_solver|].
  destruct (N.eqb_spec x c) as [->|Hx].
  { right. exists 0. split_and!; [lia|done|lia]. }
  replace (Z.of_nat k + 1)%Z with (Z.of_nat (S k)) by lia.
  destruct (IH (S k)) as [[-> ?]|(n&->&Hn&Hmin)]; [left; set_solver|right].
  exists (S n). split_and!; [lia|done|]. intros [|j] Hj; simpl; [congruence|].
  apply Hmin. lia.
Qed.

Lemma indexOf_spec s c k : (0 ≤ k)%Z → first_at s c k (indexOf s c k).
Proof.
  intros Hk. destruct (Z_of_nat_complete k Hk) as [n ->].
  unfold indexOf. rewrite Z.max_l, Nat2Z.id by lia.
  destruct (index_from_spec c (drop n s) n) as [[-> Hno]|(m&->&Hm&Hmin)].
  - left. split; [done|]. intros j Hj Hs. apply Hno.
    apply list_elem_of_lookup. exists (j - n). rewrite lookup_drop.
    by replace (n + (j - n)) with j by lia.
  - right. rewrite lookup_drop in Hm. rewrite Nat2Z.id. split_and!; [lia|done|].
    intros j Hj. replace j with (n + (j - n)) by lia. rewrite <-lookup_drop.
    apply Hmin. lia.
Qed.

Lemma first_at_weaken s c k k' r :
  first_at s c k r → (k ≤ k')%Z → (k' ≤ r ∨ r = -1)%Z → (0 ≤ k)%Z →
  first_at s c k' r.
Proof.
  intros [[-> Hno]|(?&?&Hmin)] Hk [Hr|Hr] Hk0.
  - left. split; [done|]. intros j Hj. apply Hno. lia.
  - left. split; [done|]. intros j Hj. apply Hno. lia.
  - right. split_and!; [done|done|]. intros j Hj. apply Hmin. lia.
  - lia.
Qed.

Lemma first_at_bound s c k r : first_at s c k r → (0 ≤ k)%Z → (r < Z.of_nat (length s))%Z.
Proof.
  intros [[-> _]|(?&H%lookup_lt_Some&_)] ?; lia.
Qed.

Section nesting.
Variables a b : N.
Hypothesis Hab : a ≠ b.

(** The nesting depth after [s] from depth [d]; none below zero. *)
Fixpoint nest (d : nat) (s : jstr) : option nat :=
  match s with
  | [] => Some d
  | c :: s' =>
      if (c =? a)%N then nest (S d) s'
      else if (c =? b)%N then match d with 0 => None | S d' => nest d' s' end
      else nest d s'
  end.
Definition well_nested (s : jstr) : Prop := ∀ d, nest d s = Some d.

Lemma nest_app d s t : nest d (s ++ t) = nest d s ≫= λ d', nest d' t.
Proof.
  revert d. induction s as [|c s IH]; intros d; simpl; [done|].
  repeat case_match; simpl; auto.
Qed.

Lemma well_nested_app s t : well_nested s → well_nested t → well_nested (s ++ t).
Proof. intros Hs Ht d. rewrite nest_app, Hs. apply Ht. Qed.

Lemma well_nested_plain s : a ∉ s → b ∉ s → well_nested s.
Proof.
  intros Ha Hb d. induction s as [|c s IH]; simpl; [done|].
  rewrite (proj2 (N.eqb_neq c a)), (proj2 (N.eqb_neq c b)) by set_solver.
  apply IH; set_solver.
Qed.

Lemma well_nested_pair s : well_nested s → well_nested (a :: s ++ [b]).
Proof using Hab.
  intros Hs d. simpl. rewrite N.eqb_refl, nest_app, Hs. simpl.
  rewrite N.eqb_refl. by rewrite (proj2 (N.eqb_neq b a)) by congruence.
Qed.

Variable str : jstr.

(** A matched pair of positions. *)
Definition pair_ok (l r : Z) : Prop :=
  (0 ≤ l)%Z ∧ (l < r)%Z ∧ str !! Z.to_nat l = Some a ∧ str !! Z.to_nat r = Some b ∧
  well_nested (substring str (Z.to_nat (l + 1)) (Z.to_nat r)).

(** Each open position on the stack is followed by well-nested text up to
    the next one, the innermost up to [i]. *)
Fixpoint stack_ok (begs : list Z) (i : Z) : Prop :=
  match begs with
  | [] => True
  | t :: rest =>
      (0 ≤ t < i)%Z ∧ str !! Z.to_nat t = Some a ∧
      well_nested (substring str (Z.to_nat (t + 1)) (Z.to_nat i)) ∧ stack_ok rest t
  end.

Definition next_i (ai bi : Z) : Z := if (ai <? bi)%Z && (0 <=? ai)%Z then ai else bi.

Lemma next_i_cases k ai bi :
  (0 ≤ k)%Z → first_at str a k ai → first_at str b k bi →
  let i := next_i ai bi in
  (i = -1 ∧ bi = -1)%Z ∨
  ((k ≤ i)%Z ∧ (bi ≠ -1)%Z ∧ first_at str a i ai ∧ first_at str b i bi ∧ (i = ai ∨ i = bi)
    ∧ well_nested (substring str (Z.to_nat k) (Z.to_nat i))).
Proof using Hab.
  intros Hk Ha Hb. unfold next_i.
  pose proof (first_at_bound _ _ _ _ Ha Hk) as Hla.
  pose proof (first_at_bound _ _ _ _ Hb Hk) as Hlb.
  assert (Hgap : ∀ i, (i ≤ Z.of_nat (length str))%Z → (ai = -1 ∨ i ≤ ai)%Z → (i ≤ bi)%Z →
    well_nested (substring str (Z.to_nat k) (Z.to_nat i))).
  { intros i Hi Hai Hbi. apply well_nested_plain; unfold substring;
      intros (n&Hn)%list_elem_of_lookup;
      apply lookup_take_Some in Hn as [Hn Hlt]; rewrite lookup_drop in Hn.
    - destruct Ha as [[-> Hno]|(?&?&Hno)]; apply (Hno _) in Hn; try done; lia.
    - destruct Hb as [[-> Hno]|(?&?&Hno)]; apply (Hno _) in Hn; try done; lia. }
  assert (Hka : (ai = -1 ∨ k ≤ ai)%Z) by (destruct Ha as [[-> _]|(?&_)]; lia).
  assert (Hkb : (bi = -1 ∨ k ≤ bi)%Z) by (destruct Hb as [[-> _]|(?&_)]; lia).
  destruct (decide (ai < bi ∧ 0 ≤ ai)%Z) as [[H1 H2]|Hno].
  - rewrite (proj2 (Z.ltb_lt _ _)), (proj2 (Z.leb_le _ _)) by done. simpl. right.
    split_and!; try lia; [eapply first_at_weaken; [done|lia|lia|lia]..|apply Hgap; lia].
  - assert (((ai <? bi)%Z && (0 <=? ai)%Z) = false) as ->
      by (apply andb_false_iff; rewrite Z.ltb_ge, Z.leb_gt; lia).
    destruct (decide (bi = -1)%Z) as [->|Hne]; [by left|right].
    split_and!; try lia; [eapply first_at_weaken; [done|lia|lia|lia]..|apply Hgap; lia].
Qed.

Lemma range_loop_spec fuel begs ai bi i left right :
  begs ≠ [] ∨ i = ai → (i < 0 → begs ≠ [])%Z →
  (i < 0 ∧ bi = -1 ∨ 0 ≤ i < Z.of_nat (length str) ∧ first_at str a i ai ∧
     first_at str b i bi ∧ (i = ai ∨ i = bi) ∧ bi ≠ -1 ∧ stack_ok begs i)%Z →
  (bi = -1 ∨ right ≠ -1 → pair_ok left right)%Z →
  (right = -1 → left = Z.of_nat (length str))%Z →
  0 < fuel → (0 ≤ i → Z.of_nat (length str) - i < Z.of_nat fuel)%Z →
  ∃ l r, range_loop fuel a b str begs ai bi i left right = Some (l, r) ∧ pair_ok l r.
Proof using Hab.
  revert begs ai bi i left right.
  induction fuel as [|fuel IH]; intros begs ai bi i left right Hbegs Hneg Hi Hpair Hunset Hpos Hfuel;
    [lia|]. cbn [range_loop].
  destruct Hi as [[Hi ->]|(Hi&Ha&Hb&Hor&Hbi&Hstack)].
  { rewrite (proj2 (Z.ltb_lt i 0)) by done.
    destruct begs as [|t begs]; [by destruct (Hneg Hi)|].
    exists left, right. split; [done|]. apply Hpair. by left. }
  rewrite (proj2 (Z.ltb_ge i 0)) by lia.
  assert (Hib : (i ≤ bi)%Z) by (destruct Hb as [[-> _]|(?&_)]; lia).
  destruct (Z.eqb_spec i ai) as [<-|Hne].
  - (* an opening delimiter: pushed *)
    assert (Hstr : str !! Z.to_nat i = Some a) by (destruct Ha as [[-> _]|(_&?&_)]; [lia|done]).
    assert (Hlt : (i < bi)%Z).
    { destruct (decide (i = bi)) as [->|]; [|lia].
      destruct Hb as [[-> _]|(_&Hb&_)]; [lia|]. congruence. }
    assert (Hb' : first_at str b (i + 1) bi) by (eapply first_at_weaken; [done|lia|lia|lia]).
    destruct (next_i_cases (i + 1) _ bi ltac:(lia) (indexOf_spec str a (i + 1) ltac:(lia)) Hb')
      as [[_ ?]|(?&?&?&Hfb&?&Hgap)]; [done|]. fold (next_i (indexOf str a (i + 1)) bi).
    set (i' := next_i _ bi) in *. pose proof (first_at_bound _ _ _ _ Hfb ltac:(lia)).
    assert (i' ≤ bi)%Z by (destruct Hfb as [[-> _]|(?&_)]; [done|lia]).
    apply IH; try done; try lia; [by left|].
    right. split_and!; try done; try lia. simpl. split_and!; try done; lia.
  - destruct Hor as [?| ->]; [done|]. destruct begs as [|t begs]; [by destruct Hbegs|].
    assert (Hstr : str !! Z.to_nat bi = Some b) by (destruct Hb as [[-> _]|(_&?&_)]; [lia|done]).
    destruct Hstack as (Ht&Hta&Hnest&Hrest).
    assert (Hp : pair_ok t bi) by (split_and!; try done; lia).
    destruct begs as [|t2 begs]; [eauto|].
    destruct Hrest as (Ht2&Ht2a&Hnest2&Hrest2).
    assert (∃ lf rt, (if (t <? left)%Z then (t, bi) else (left, right)) = (lf, rt) ∧
      pair_ok lf rt ∧ (rt ≠ -1)%Z) as (lf&rt&->&Hp'&Hrt).
    { destruct (Z.ltb_spec t left); [by exists t, bi|]. exists left, right.
      destruct (decide (right = -1)%Z) as [->|].
      - rewrite (Hunset eq_refl) in *. apply lookup_lt_Some in Hta. lia.
      - split_and!; [done|apply Hpair; by right|done]. }
    assert (Ha' : first_at str a (bi + 1) ai).
    { eapply first_at_weaken; [done|lia| |lia].
      destruct Ha as [[-> _]|(?&?&_)]; [by right|left; lia]. }
    destruct (next_i_cases (bi + 1) ai _ ltac:(lia) Ha' (indexOf_spec str b (bi + 1) ltac:(lia)))
      as [[Hi' Hbi']|(?&?&?&Hfb&?&Hgap)]; fold (next_i ai (indexOf str b (bi + 1))).
    { apply IH; rewrite ?Hi', ?Hbi'; try done; try lia; by left. }
    set (i' := next_i ai _) in *. pose proof (first_at_bound _ _ _ _ Hfb ltac:(lia)).
    assert (i' < Z.of_nat (length str))%Z by (destruct Hfb as [[? _]|(?&_)]; lia).
    apply IH; try done; try lia; [by left|].
    right. split_and!; try done; try lia. simpl. split_and!; try done; try lia.
    rewrite <-(substring_app str _ (Z.to_nat t)) by lia.
    apply well_nested_app; [done|].
    rewrite <-(substring_app str _ (S (Z.to_nat bi))) by lia.
    replace (S (Z.to_nat bi)) with (Z.to_nat (bi + 1)) at 2 by lia.
    apply well_nested_app; [|done].
    rewrite (substring_snoc _ _ _ b) by (done || lia).
    rewrite (substring_app_head str (Z.to_nat t) (Z.to_nat bi) a) by (done || lia).
    replace (S (Z.to_nat t)) with (Z.to_nat (t + 1)) by lia.
    by apply well_nested_pair.
Qed.

Lemma range_spec :
  match range a b str with
  | Some (l, r) => pair_ok l r
  | None => ∀ i j, i < j → str !! i = Some a → str !! j ≠ Some b
  end.
Proof using Hab.
  unfold range. set (ai := indexOf str a 0). set (bi := indexOf str b (ai + 1)).
  pose proof (indexOf_spec str a 0 ltac:(lia)) as Ha. fold ai in Ha.
  assert (-1 ≤ ai)%Z by (destruct Ha as [[-> _]|(?&_)]; lia).
  pose proof (indexOf_spec str b (ai + 1) ltac:(lia)) as Hb. fold bi in Hb.
  destruct (Z.leb_spec 0 ai) as [Hai|Hai]; cbn [andb].
  - destruct (Z.ltb_spec 0 bi) as [Hbi|Hbi].
    + pose proof (first_at_bound _ _ _ _ Ha ltac:(lia)) as Hlen.
      assert (Hb' : first_at str b ai bi).
      { destruct Hb as [[? _]|(?&?&Hno)]; [lia|]. right. split_and!; [lia|done|].
        intros j Hj. destruct (decide (Z.of_nat j = ai)) as [Hja|]; [|apply Hno; lia].
        destruct Ha as [[? _]|(_&Hs&_)]; [lia|]. rewrite <-Hja, Nat2Z.id in Hs. congruence. }
      assert (Hinv : (ai < 0 ∧ bi = -1 ∨ 0 ≤ ai < Z.of_nat (length str) ∧
        first_at str a ai ai ∧ first_at str b ai bi ∧ (ai = ai ∨ ai = bi) ∧ bi ≠ -1 ∧
        stack_ok [] ai)%Z).
      { right. split_and!; try done; try lia.
        all: try (by left); try (eapply first_at_weaken; [done|lia|lia|lia]). }
      destruct (range_loop_spec (S (S (length str))) [] ai bi ai
        (Z.of_nat (length str)) (-1) (or_intror eq_refl) ltac:(lia) Hinv
        ltac:(intros [?|?]; lia) ltac:(done) ltac:(lia) ltac:(lia)) as (l&r&->&?). done.
    + intros i j Hij Hi. destruct Hb as [[_ Hno]|(?&_)]; [|lia].
      apply Hno. destruct Ha as [[? _]|(_&_&Hmin)]; [lia|].
      destruct (decide (ai ≤ Z.of_nat i)%Z); [lia|]. destruct (Hmin i); [lia|done].
  - intros i j _ Hi. destruct Ha as [[_ Hno]|(?&_)]; [|lia].
    destruct (Hno i); [lia|done].
Qed.
End nesting.

(** ** Numbers *)

Lemma digits_value_snoc s c : digits_value (s ++ [c]) = (digits_value s * 10 + (Z.of_N c - 48))%Z.
Proof. unfold digits_value. by rewrite foldl_app. Qed.

Lemma is_digit_of n : (0 ≤ n < 10)%Z → is_digit_unit (Z.to_N (n + 48)) = true.
Proof. intros. unfold is_digit_unit. rewrite andb_true_iff, !N.leb_le. lia. Qed.

(** [digits_of] writes the digits of its argument, without a leading zero. *)
Lemma digits_of_spec fuel n :
  (0 ≤ n < 2 ^ Z.of_nat fuel)%Z →
  Forall (λ c, is_digit_unit c = true) (digits_of fuel n) ∧
  (fuel ≠ 0 → digits_of fuel n ≠ [] ∧ digits_value (digits_of fuel n) = n ∧
     (head (digits_of fuel n) = Some 48%N → (n < 10)%Z ∧ length (digits_of fuel n) = 1)).
Proof.
  revert n. induction fuel as [|fuel IH]; intros n Hn; [split; [constructor|done]|].
  cbn [digits_of]. destruct (Z.ltb_spec n 10).
  - split; [constructor; [apply is_digit_of; lia|constructor]|]. intros _.
    split_and!; [done| |done]. unfold digits_value; simpl. lia.
  - assert (0 ≤ n / 10 < 2 ^ Z.of_nat fuel)%Z as Hd.
    { split; [apply Z.div_pos; lia|]. apply Z.div_lt_upper_bound; [lia|].
      replace (Z.of_nat (S fuel)) with (Z.of_nat fuel + 1)%Z in Hn by lia.
      rewrite Z.pow_add_r in Hn by lia. lia. }
    assert (fuel ≠ 0) as Hf.
    { intros ->. simpl in Hd. pose proof (Z.div_le_lower_bound n 10 1). lia. }
    destruct (IH _ Hd) as [Hall Hrest]. destruct (Hrest Hf) as (Hne&Hval&Hhd).
    pose proof (Z.mod_pos_bound n 10 ltac:(lia)).
    split; [apply Forall_app; split; [done|constructor; [by apply is_digit_of|constructor]]|].
    intros _. split_and!.
    + by destruct (digits_of fuel (n / 10)).
    + rewrite digits_value_snoc, Hval, Z2N.id by lia.
      pose proof (Z.div_mod n 10 ltac:(lia)). lia.
    + intros Hh. exfalso.
      assert (head (digits_of fuel (n / 10)) = Some 48%N) as Hh'
        by (destruct (digits_of fuel (n / 10)); done).
      destruct (Hhd Hh') as [_ Hlen].
      destruct (digits_of fuel (n / 10)) as [|c [|]]; try done. simplify_eq/=.
      unfold digits_value in Hval; simpl in Hval.
      pose proof (Z.div_le_lower_bound n 10 1). lia.
Qed.

Lemma string_of_Z_digits n :
  ∃ d, string_of_Z n = (if (n <? 0)%Z then u "-" ++ d else d) ∧ d ≠ [] ∧
    Forall (λ c, is_digit_unit c = true) d ∧ digits_value d = Z.abs n ∧
    (head d = Some 48%N → length d = 1).
Proof.
  unfold string_of_Z. set (f := S (Z.to_nat (Z.log2 (Z.abs n)))).
  destruct (digits_of_spec f (Z.abs n)) as [Hall Hrest].
  { split; [lia|]. unfold f. replace (Z.of_nat (S (Z.to_nat (Z.log2 (Z.abs n)))))
      with (Z.succ (Z.log2 (Z.abs n))) by (pose proof (Z.log2_nonneg (Z.abs n)); lia).
    destruct (decide (n = 0)%Z) as [->|]; [done|]. apply Z.log2_spec. lia. }
  destruct (Hrest ltac:(done)) as (?&?&Hh).
  exists (digits_of f (Z.abs n)). split_and!; try done. intros. by apply Hh.
Qed.

Lemma drop_digits_all d : Forall (λ c, is_digit_unit c = true) d → drop_digits d = [].
Proof. induction 1 as [|c d Hc _ IH]; simpl; [done|]. by rewrite Hc. Qed.

Lemma digit_not_minus c : is_digit_unit c = true → (c =? 45)%N = false.
Proof. unfold is_digit_unit. intros. bool_clean. apply N.eqb_neq. lia. Qed.

(** [numeric] reads back what [String] writes. *)
Lemma numeric_string_of_Z n : numeric (string_of_Z n) = n.
Proof.
  destruct (string_of_Z_digits n) as (d&->&Hne&Hall&Hval&_).
  destruct d as [|c d]; [done|]. inversion Hall as [|?? Hc Hd]; subst.
  pose proof (drop_digits_all d Hd) as Hdd. pose proof (digit_not_minus c Hc) as Hm.
  unfold numeric, integer_value, take_integer.
  destruct (Z.ltb_spec n 0).
  - change (u "-" ++ c :: d) with (45%N :: c :: d). cbn -[digits_value].
    rewrite Hc, Hdd, Hval. lia.
  - rewrite Hm, Hc, Hdd, Hval. lia.
Qed.

Lemma isPadded_string_of_Z n : isPadded (string_of_Z n) = false.
Proof.
  destruct (string_of_Z_digits n) as (d&->&Hne&Hall&_&Hh).
  destruct d as [|c d]; [done|]. inversion Hall as [|?? Hc Hd]; subst.
  unfold isPadded. pose proof (digit_not_minus c Hc) as Hm.
  assert (match c :: d with
    | z :: d :: _ => (z =? 48)%N && is_digit_unit d | _ => false end = false) as Hp.
  { destruct d as [|c' d]; [done|]. apply andb_false_iff. left. apply N.eqb_neq.
    intros ->. by specialize (Hh eq_refl). }
  destruct (n <? 0)%Z; [|by rewrite Hm]. done.
Qed.

(** ** Sequences *)

(** The [k]th value of a sequence from [x] in steps of [incr]. *)
Definition seq_values (x incr : Z) (n : nat) : list Z :=
  map (λ k, x + Z.of_nat k * incr)%Z (seq 0 n).

Lemma seq_values_S x incr n : seq_values x incr (S n) = x :: seq_values (x + incr) incr n.
Proof.
  unfold seq_values. cbn [seq map]. f_equal; [lia|].
  rewrite <-seq_shift, List.map_map. apply List.map_ext. intros k. lia.
Qed.

Lemma seq_loop_up n fuel i y incr item :
  (0 < incr)%Z → (i ≤ y)%Z → ((y - i) / incr = Z.of_nat n)%Z → n < fuel →
  seq_loop fuel false i y incr item = Some (map item (seq_values i incr (S n))).
Proof.
  intros Hincr. revert fuel i. induction n as [|n IH]; intros fuel i Hi Hn Hf;
    rewrite seq_values_S; (destruct fuel as [|fuel]; [lia|]); cbn [seq_loop seq_test];
    rewrite (proj2 (Z.leb_le i y)) by done.
  - pose proof (Z.mul_succ_div_gt (y - i) incr Hincr).
    assert (Hstop : (i + incr <=? y)%Z = false) by (apply Z.leb_gt; lia).
    destruct fuel; cbn [seq_loop seq_test]; rewrite Hstop; done.
  - pose proof (Z.mul_div_le (y - i) incr Hincr).
    rewrite IH; [done|lia| |lia].
    replace (y - (i + incr))%Z with ((y - i) + (-1) * incr)%Z by lia.
    rewrite Z.div_add by lia. lia.
Qed.

Lemma seq_loop_down fuel i y incr item :
  seq_loop fuel true i y (- incr) item
  = seq_loop fuel false (- i) (- y) incr (λ j, item (- j)%Z).
Proof.
  revert i. induction fuel as [|fuel IH]; intros i; cbn [seq_loop seq_test];
    (replace (- i <=? - y)%Z with (y <=? i)%Z
      by (destruct (Z.leb_spec y i), (Z.leb_spec (- i) (- y)); lia || done)).
  - done.
  - destruct (y <=? i)%Z; [|done]. rewrite IH, Z.opp_involutive.
    by replace (- (i + - incr))%Z with (- i + incr)%Z by lia.
Qed.

Lemma seq_values_opp x incr n : map Z.opp (seq_values (- x) incr n) = seq_values x (- incr) n.
Proof. unfold seq_values. rewrite List.map_map. apply List.map_ext. intros k. lia. Qed.

(** Both directions: from [x] to [y] in steps of [step]. *)
Lemma seq_loop_values fuel x y step item :
  (0 < step)%Z → Z.to_nat (Z.abs (y - x) / step) < fuel →
  seq_loop fuel (y <? x)%Z x y (if (y <? x)%Z then - step else step)%Z item =
    Some (map item (seq_values x (if (y <? x)%Z then - step else step)%Z
                      (S (Z.to_nat (Z.abs (y - x) / step))))).
Proof.
  intros Hs Hf. pose proof (Z.div_pos (Z.abs (y - x)) step ltac:(lia) Hs).
  destruct (Z.ltb_spec y x).
  - rewrite seq_loop_down, (seq_loop_up (Z.to_nat (Z.abs (y - x) / step)));
      [|done|lia|rewrite Z2Nat.id by done; f_equal; lia|done].
    by rewrite <-seq_values_opp, List.map_map.
  - rewrite (seq_loop_up (Z.to_nat (Z.abs (y - x) / step)));
      [done|done|lia|rewrite Z2Nat.id by done; f_equal; lia|done].
Qed.

Lemma seq_loop_zero fuel reverse x y item :
  seq_test reverse x y = true → seq_loop fuel reverse x y 0 item = None.
Proof.
  intros Ht. induction fuel as [|fuel IH]; cbn [seq_loop]; rewrite Ht; [done|].
  by rewrite Z.add_0_r, IH.
Qed.

(** ** Option lists of plain parts *)

(** No brace, comma, backslash or NUL. *)
Definition clean (s : jstr) : Prop :=
  lbrace ∉ s ∧ rbrace ∉ s ∧ comma ∉ s ∧ 92%N ∉ s ∧ 0%N ∉ s.

Lemma clean_app s t : clean s → clean t → clean (s ++ t).
Proof. unfold clean. set_solver. Qed.

Lemma join_Forall (c sep : N) parts :
  c ≠ sep → Forall (λ s, c ∉ s) parts → c ∉ join [sep] parts.
Proof.
  intros Hc Hall. induction Hall as [|s parts Hs Hall IH]; [set_solver|].
  destruct parts as [|t parts]; [done|].
  change (join [sep] (s :: t :: parts)) with (s ++ [sep] ++ join [sep] (t :: parts)).
  set_solver.
Qed.

Lemma balanced_none str : lbrace ∉ str → balanced lbrace rbrace str = None.
Proof.
  intros H. unfold balanced. pose proof (range_spec lbrace rbrace ltac:(done) str) as Hr.
  destruct (range lbrace rbrace str) as [[l r]|]; [|done].
  destruct Hr as (_&_&Hl&_). by apply list_elem_of_lookup_2 in Hl.
Qed.

(** The only pair of a string with one opening and one closing brace. *)
Lemma balanced_single p b q :
  lbrace ∉ p → lbrace ∉ b → lbrace ∉ q → rbrace ∉ p → rbrace ∉ b → rbrace ∉ q →
  balanced lbrace rbrace (p ++ [lbrace] ++ b ++ [rbrace] ++ q) =
    Some {| start := Z.of_nat (length p); end_ := Z.of_nat (length p + 1 + length b);
            pre := p; body := b; post := q |}.
Proof.
  intros Hp Hb Hq Hp' Hb' Hq'. set (str := p ++ [lbrace] ++ b ++ [rbrace] ++ q).
  assert (Hl : str !! length p = Some lbrace)
    by (unfold str; rewrite lookup_app_r, Nat.sub_diag by done; done).
  assert (Hstr : str = (p ++ [lbrace] ++ b) ++ rbrace :: q)
    by (unfold str; by rewrite <-!app_assoc).
  assert (Hlen : length (p ++ [lbrace] ++ b) = length p + 1 + length b)
    by (rewrite !length_app; simpl; lia).
  assert (Hr : str !! (length p + 1 + length b) = Some rbrace)
    by (rewrite Hstr, <-Hlen; rewrite lookup_app_r, Nat.sub_diag by done; done).
  assert (Huniq : ∀ k c, str !! k = Some c →
    (c = lbrace → k = length p) ∧ (c = rbrace → k = length p + 1 + length b)).
  { intros k c Hk. rewrite Hstr in Hk. apply lookup_app_Some in Hk as [Hk|[Hge Hk]].
    - apply lookup_app_Some in Hk as [Hk|[Hge Hk]].
      + apply list_elem_of_lookup_2 in Hk. split; intros ->; done.
      + destruct (k - length p) as [|j] eqn:E; simpl in Hk; simplify_eq.
        * split; [lia|done].
        * apply list_elem_of_lookup_2 in Hk. split; intros ->; done.
    - rewrite Hlen in Hge, Hk.
      destruct (k - _) as [|j] eqn:E; simpl in Hk; simplify_eq.
      + split; [done|lia].
      + apply list_elem_of_lookup_2 in Hk. split; intros ->; done. }
  unfold balanced. pose proof (range_spec lbrace rbrace ltac:(done) str) as Hs.
  destruct (range lbrace rbrace str) as [[l r]|].
  2:{ exfalso. eapply Hs; [|exact Hl|exact Hr]. lia. }
  destruct Hs as (Hl0&Hlr&Hla&Hrb&_).
  apply Huniq in Hla as [Hla _]. apply Huniq in Hrb as [_ Hrb].
  specialize (Hla eq_refl). specialize (Hrb eq_refl).
  assert (l = Z.of_nat (length p)) as -> by lia.
  assert (r = Z.of_nat (length p + 1 + length b)) as -> by lia.
  cbn. do 2 f_equal.
  - rewrite Nat2Z.id. unfold str. by rewrite take_app_length.
  - unfold substring. replace (Z.to_nat (Z.of_nat (length p) + 1)) with (length p + 1) by lia.
    rewrite Nat2Z.id. replace (length p + 1 + length b - (length p + 1)) with (length b) by lia.
    unfold str. rewrite app_assoc, drop_app_length' by (rewrite length_app; done).
    by rewrite take_app_length.
  - rewrite Hstr. replace (Z.to_nat (Z.of_nat (length p + 1 + length b) + 1))
      with (S (length (p ++ [lbrace] ++ b))) by lia.
    rewrite drop_app_ge by lia.
    replace (S (length (p ++ [lbrace] ++ b)) - length (p ++ [lbrace] ++ b)) with 1 by lia.
    done.
Qed.

Lemma take_integer_suffix s r :
  take_integer s = Some r → ∃ t, s = t ++ r ∧ comma ∉ t.
Proof.
  assert (Hdd : ∀ s, ∃ t, s = t ++ drop_digits s ∧ comma ∉ t).
  { induction s0 as [|c s0 (t&Heq&Ht)]; simpl; [exists []; split; [done|apply not_elem_of_nil]|].
    destruct (is_digit_unit c) eqn:E; [|exists []; split; [done|apply not_elem_of_nil]].
    exists (c :: t). rewrite Heq at 1. split; [done|]. intros Hin.
    apply elem_of_cons in Hin as [<-|?]; [by vm_compute in E|done]. }
  assert (Hgo : ∀ s r, match s with
    | c :: r => if is_digit_unit c then Some (drop_digits r) else None
    | [] => None end = Some r → ∃ t, s = t ++ r ∧ comma ∉ t).
  { intros [|c s1] r1 H; [done|]. destruct (is_digit_unit c) eqn:E; simplify_eq.
    destruct (Hdd s1) as (t&Heq&Ht). exists (c :: t). rewrite Heq at 1. split; [done|].
    intros Hin. apply elem_of_cons in Hin as [<-|?]; [by vm_compute in E|done]. }
  unfold take_integer. destruct s as [|c s]; [done|].
  destruct (N.eqb_spec c 45) as [->|_]; [|apply (Hgo (c :: s))].
  intros (t&->&Ht)%Hgo. exists (45%N :: t). split; [done|]. by apply not_elem_of_cons.
Qed.

Lemma take_dots_suffix s r : take_dots s = Some r → ∃ t, s = t ++ r ∧ comma ∉ t.
Proof.
  unfold take_dots. change (u "..") with [46; 46]%N.
  destruct s as [|x [|y s]]; cbn [starts_with]; [done|by rewrite andb_false_r|].
  destruct (N.eqb_spec 46 x) as [<-|]; cbn [andb]; [|done].
  destruct (N.eqb_spec 46 y) as [<-|]; cbn [andb]; [|done].
  intros [= <-]. exists [46; 46]%N. split; [done|]. by apply (bool_decide_unpack _).
Qed.

Lemma optional_incr_end_no_comma s : optional_incr_end s = true → comma ∉ s.
Proof.
  unfold optional_incr_end. destruct s as [|c s]; [set_solver|].
  destruct (take_dots (c :: s)) as [r|] eqn:E; simpl; [|done].
  destruct (take_integer r) as [[|]|] eqn:E'; [|done..]. intros _.
  apply take_dots_suffix in E as (t&->&?). apply take_integer_suffix in E' as (t'&->&?).
  set_solver.
Qed.

(** A body with a comma is not a sequence. *)
Lemma sequence_no_comma s : isNumericSequence s || isAlphaSequence s = true → comma ∉ s.
Proof.
  rewrite orb_true_iff. intros [H|H].
  - unfold isNumericSequence in H.
    destruct (take_integer s) as [r|] eqn:E; [|done]; simpl in H.
    destruct (take_dots r) as [r2|] eqn:E2; [|done]; simpl in H.
    destruct (take_integer r2) as [r3|] eqn:E3; [|done].
    apply optional_incr_end_no_comma in H.
    apply take_integer_suffix in E as (?&->&?). apply take_dots_suffix in E2 as (?&->&?).
    apply take_integer_suffix in E3 as (?&->&?). set_solver.
  - unfold isAlphaSequence in H. destruct s as [|x s]; [done|].
    apply andb_true_iff in H as [Hx H].
    destruct (take_dots s) as [[|y r]|] eqn:E; [done| |done].
    apply andb_true_iff in H as [Hy H]. apply optional_incr_end_no_comma in H.
    apply take_dots_suffix in E as (?&->&?).
    assert (comma ≠ x ∧ comma ≠ y) as [??] by (split; intros <-; by vm_compute in Hx, Hy).
    set_solver.
Qed.

Lemma expand_clean rC fuel s t :
  clean s → fuel ≠ 0 → expand rC fuel s t = Some [s].
Proof. intros (?&_) ?. destruct fuel; [done|]. cbn [expand]. by rewrite balanced_none. Qed.

Lemma concatMap_clean rC fuel parts :
  Forall clean parts → fuel ≠ 0 →
  concatMap parts (λ el, expand rC fuel el false) = Some parts.
Proof.
  intros Hall Hf. induction Hall as [|s parts Hs _ IH]; [done|]. cbn [concatMap].
  rewrite expand_clean by done. cbn [mbind option_bind]. by rewrite IH.
Qed.

Lemma escapeBraces_id rS rO rC rM rP s : 92%N ∉ s → escapeBraces rS rO rC rM rP s = s.
Proof.
  intros Hs. unfold escapeBraces.
  change (u "\\") with [92; 92]%N. change (u "\{") with [92; 123]%N.
  change (u "\}") with [92; 125]%N. change (u "\,") with [92; 44]%N.
  change (u "\.") with [92; 46]%N.
  do 5 rewrite (replace_all_absent 92 _ _ s Hs). done.
Qed.

Lemma unescapeBraces_id rS rO rC rM rP s : 0%N ∉ s → unescapeBraces rS rO rC rM rP s = s.
Proof.
  intros Hs. unfold unescapeBraces, escSlash, escOpen, escClose, escComma, escPeriod, esc_token.
  do 5 rewrite (replace_all_absent 0 _ _ s Hs). done.
Qed.

Lemma combine_top pre parts post :
  combine true false pre parts [post] = filter (λ s, s ≠ []) (map (λ x, pre ++ x ++ post) parts).
Proof.
  unfold combine. induction parts as [|x parts IH]; [done|]. cbn [map concat].
  rewrite IH. cbn [omap list_omap negb orb]. case_bool_decide as H.
  - rewrite filter_cons_True by exact H. done.
  - rewrite filter_cons_False by (rewrite H; intros []; done). done.
Qed.

(** ** The properties *)

(** The match of [balanced] spells the string around a pair of
    delimiters whose body is well nested; there is no match exactly when no
    opening delimiter comes before a closing one. *)
Theorem balanced_correct (a b : N) (str : jstr) :
  a ≠ b →
  match balanced a b str with
  | Some m =>
      str = pre m ++ [a] ++ body m ++ [b] ++ post m ∧ well_nested a b (body m) ∧
      start m = Z.of_nat (length (pre m)) ∧
      end_ m = Z.of_nat (length (pre m) + 1 + length (body m))
  | None => ∀ i j, i < j → str !! i = Some a → str !! j ≠ Some b
  end.
Proof.
  intros Hab. unfold balanced. pose proof (range_spec a b Hab str) as Hs.
  destruct (range a b str) as [[l r]|]; [|done]. cbn.
  destruct Hs as (Hl&Hlr&Hla&Hrb&Hn).
  pose proof (lookup_lt_Some _ _ _ Hrb) as Hlen.
  assert (Hbody : length (substring str (Z.to_nat (l + 1)) (Z.to_nat r)) = Z.to_nat r - Z.to_nat (l + 1))
    by (apply length_substring; lia).
  assert (Hpre : length (take (Z.to_nat l) str) = Z.to_nat l)
    by (rewrite length_take; lia).
  split_and!; [|done|lia|lia].
  rewrite <-(take_drop (Z.to_nat l) str) at 1. f_equal.
  rewrite (drop_S _ _ _ Hla). simpl. f_equal.
  replace (Z.to_nat (l + 1)) with (S (Z.to_nat l)) in * by lia.
  rewrite <-(take_drop (Z.to_nat r - S (Z.to_nat l)) (drop (S (Z.to_nat l)) str)) at 1.
  unfold substring. f_equal. rewrite drop_drop.
  replace (S (Z.to_nat l) + (Z.to_nat r - S (Z.to_nat l))) with (Z.to_nat r) by lia.
  rewrite (drop_S _ _ _ Hrb). by replace (Z.to_nat (r + 1)) with (S (Z.to_nat r)) by lia.
Qed.

Lemma balanced_correct_witness :
  match balanced lbrace rbrace (u "a{b{c}d}e}") with
  | Some m =>
      u "a{b{c}d}e}" = pre m ++ [lbrace] ++ body m ++ [rbrace] ++ post m ∧
      well_nested lbrace rbrace (body m) ∧
      start m = Z.of_nat (length (pre m)) ∧
      end_ m = Z.of_nat (length (pre m) + 1 + length (body m))
  | None => ∀ i j, i < j → u "a{b{c}d}e}" !! i = Some lbrace →
      u "a{b{c}d}e}" !! j ≠ Some rbrace
  end.
Proof. apply (balanced_correct lbrace rbrace (u "a{b{c}d}e}")). discriminate. Defined.

(** A brace set of two or more plain parts expands to the prefix, each
    part in order, the suffix, dropping only an empty expansion; whatever the
    random escape tokens. *)
Theorem expandTop_options (rS rO rC rM rP : jstr) (fuel : nat)
    (front : jstr) (parts : list jstr) (back : jstr) :
  clean front → Forall clean parts → clean back →
  2 ≤ length parts → 2 ≤ fuel → last front ≠ Some dollar →
  expandTop rS rO rC rM rP fuel (front ++ [lbrace] ++ join [comma] parts ++ [rbrace] ++ back) =
    Some (filter (λ s, s ≠ []) (map (λ x, front ++ x ++ back) parts)).
Proof.
  intros Hpre Hparts Hpost Hlen Hfuel Hdollar.
  destruct fuel as [|fuel]; [lia|]. assert (Hf : fuel ≠ 0) by lia.
  set (inner := join [comma] parts).
  assert (Hbody : ∀ c, c ≠ comma → (∀ s, clean s → c ∉ s) → c ∉ inner).
  { intros c Hc Hcl. apply join_Forall; [done|]. by eapply Forall_impl. }
  assert (Hl : lbrace ∉ inner) by (apply Hbody; [done|by intros s (?&_)]).
  assert (Hr : rbrace ∉ inner) by (apply Hbody; [done|by intros s (_&?&_)]).
  assert (Hb : 92%N ∉ inner) by (apply Hbody; [done|by intros s (_&_&_&?&_)]).
  assert (Hcomma : comma ∈ inner).
  { unfold inner. destruct parts as [|x [|y parts]]; simpl in Hlen; [lia..|].
    change (join [comma] (x :: y :: parts)) with (x ++ [comma] ++ join [comma] (y :: parts)).
    set_solver. }
  assert (Hsplit : split_on comma inner = parts).
  { apply split_on_join; [intros ->; simpl in Hlen; lia|]. eapply Forall_impl; [done|]. by intros s (_&_&?&_). }
  pose proof Hpre as (Hp1&Hp2&Hp3&Hp4&Hp5).
  pose proof Hpost as (Hq1&Hq2&Hq3&Hq4&Hq5).
  set (str := front ++ [lbrace] ++ inner ++ [rbrace] ++ back).
  assert (Hstr : starts_with (u "{}") str = false).
  { unfold str. change (u "{}") with [lbrace; rbrace].
    destruct front as [|c front]; cbn [app starts_with].
    - destruct inner as [|c inner'] eqn:Eb; [set_solver|]. cbn [app starts_with].
      rewrite (proj2 (N.eqb_neq rbrace c)) by set_solver. apply andb_false_r.
    - by rewrite (proj2 (N.eqb_neq lbrace c)) by set_solver. }
  unfold expandTop. rewrite Hstr. rewrite escapeBraces_id by (unfold str; set_solver).
  assert (str ≠ []) as Hne by (unfold str; by destruct front).
  destruct str as [|c0 str0] eqn:Estr; [done|]. rewrite <-Estr. clear Hne.
  cbn [expand]. unfold str. rewrite balanced_single by done. cbn [pre body post].
  rewrite decide_False by done.
  assert (isNumericSequence inner || isAlphaSequence inner = false) as Hseq.
  { destruct (_ || _) eqn:E; [|done]. by apply sequence_no_comma in E. }
  rewrite Hseq. rewrite bool_decide_eq_true_2 by done. cbn [negb andb].
  cbn [parseCommaParts]. destruct inner as [|cb inner'] eqn:Ebody; [set_solver|].
  rewrite <-Ebody in *. rewrite balanced_none, Hsplit by done. cbn [mbind option_bind].
  destruct parts as [|x [|y parts]]; simpl in Hlen; [lia..|].
  assert (match back with [] => Some [[]]
          | _ :: _ => expand rC fuel back false end = Some [back]) as ->.
  { destruct back eqn:Ep; [done|]. by rewrite expand_clean. }
  cbn [mbind option_bind]. rewrite concatMap_clean by done. cbn [mbind option_bind].
  rewrite combine_top. f_equal.
  transitivity (map id (filter (λ s, s ≠ []) (map (λ x, front ++ x ++ back) (x :: y :: parts))));
    [|apply List.map_id].
  apply List.map_ext_in. intros s Hs. apply list_elem_of_In, list_elem_of_filter in Hs as [_ Hs].
  apply list_elem_of_In, in_map_iff in Hs as (z&<-&Hz). apply list_elem_of_In in Hz.
  apply unescapeBraces_id. rewrite Forall_forall in Hparts.
  destruct (Hparts z Hz) as (_&_&_&_&?). set_solver.
Qed.

Lemma expandTop_options_witness :
  2 ≤ length [u "b"; u "c"] ∧
  expandTop [] [] [] [] [] 2 (u "a" ++ [lbrace] ++ join [comma] [u "b"; u "c"] ++ [rbrace] ++ u "d")
    = Some (filter (λ s, s ≠ []) (map (λ x, u "a" ++ x ++ u "d") [u "b"; u "c"])).
Proof.
  assert (Hc : ∀ c, c ∈ [97; 98; 99; 100]%N → clean [c]).
  { intros c Hin. unfold clean. rewrite !not_elem_of_cons, !elem_of_cons in *.
    destruct Hin as [->|[->|[->|[->|Hin]]]]; [..|by apply elem_of_nil in Hin];
      split_and!; try discriminate; apply not_elem_of_nil. }
  split; [simpl; lia|]. apply (expandTop_options [] [] [] [] [] 2).
  - apply Hc. set_solver.
  - repeat constructor; apply Hc; set_solver.
  - apply Hc. set_solver.
  - simpl. lia.
  - lia.
  - discriminate.
Defined.

(** A numeric sequence counts from the first number to the second, up or
    down, in steps of the increment: with fuel for its values, {x..y..step}
    gives exactly x, x ± |step|, ... in decimal, none past y. *)
Theorem sequence_values_correct (fuel : nat) (x y step : Z) :
  step ≠ 0%Z → Z.to_nat (Z.abs (y - x) / Z.abs step) < fuel →
  sequence_values fuel false [string_of_Z x; string_of_Z y; string_of_Z step] =
    Some (map (seq_item false (isPadded (string_of_Z step))
                 (length (string_of_Z x) `max` length (string_of_Z y)))
      (seq_values x (if (y <? x)%Z then - Z.abs step else Z.abs step)%Z
         (S (Z.to_nat (Z.abs (y - x) / Z.abs step))))) ∧
  isPadded (string_of_Z step) = false ∧
  ∀ width i, seq_item false false width i = string_of_Z i.
Proof.
  intros Hs Hf. split_and!; [|apply isPadded_string_of_Z|done].
  unfold sequence_values. cbn [lookup list_lookup default from_option id].
  rewrite !numeric_string_of_Z. cbn [existsb]. rewrite !isPadded_string_of_Z. cbn [orb].
  apply seq_loop_values; [lia|done].
Qed.

Lemma sequence_values_correct_witness :
  (2 ≠ 0)%Z ∧
  sequence_values 9 false [string_of_Z 7; string_of_Z 1; string_of_Z 2] =
    Some (map (seq_item false (isPadded (string_of_Z 2))
                 (length (string_of_Z 7) `max` length (string_of_Z 1)))
      (seq_values 7 (if (1 <? 7)%Z then - Z.abs 2 else Z.abs 2)%Z
         (S (Z.to_nat (Z.abs (1 - 7) / Z.abs 2))))).
Proof.
  split; [discriminate|]. apply (sequence_values_correct 9 7 1 2); [discriminate|].
  vm_compute. lia.
Defined.

(** A numeric sequence with a zero increment never ends: no amount of
    fuel gives the expansion of {1..5..0}, whatever the escape tokens. *)
Theorem expandTop_zero_increment (rS rO rC rM rP : jstr) (fuel : nat) :
  expandTop rS rO rC rM rP fuel (u "{1..5..0}") = None ∧
  ∀ x y, sequence_values fuel false [string_of_Z x; string_of_Z y; string_of_Z 0] = None.
Proof.
  assert (Hseq : ∀ fuel x y,
    sequence_values fuel false [string_of_Z x; string_of_Z y; string_of_Z 0] = None).
  { clear fuel. intros fuel x y. unfold sequence_values.
    cbn [lookup list_lookup default from_option id].
    rewrite !numeric_string_of_Z.
    replace (if (y <? x)%Z then (- Z.abs 0)%Z else Z.abs 0) with 0%Z by by destruct (y <? x)%Z.
    apply seq_loop_zero. unfold seq_test. destruct (Z.ltb_spec y x); apply Z.leb_le; lia. }
  split; [|apply Hseq]. unfold expandTop.
  change (starts_with (u "{}") (u "{1..5..0}")) with false.
  rewrite escapeBraces_id by by apply (bool_decide_unpack _).
  destruct fuel as [|fuel]; [done|]. cbn [expand].
  change (u "{1..5..0}") with ([] ++ [lbrace] ++ u "1..5..0" ++ [rbrace] ++ []).
  rewrite balanced_single by by apply (bool_decide_unpack _).
  cbn [pre body post].
  change (isNumericSequence (u "1..5..0")) with true.
  change (isAlphaSequence (u "1..5..0")) with false.
  rewrite decide_False by done. cbn [negb andb orb mbind option_bind].
  change (split_dots _ _ _) with [string_of_Z 1; string_of_Z 5; string_of_Z 0].
  by rewrite Hseq.
Qed.
