(* ===== verification/Literals.v ===== *)
(** * String literals of JavaScript, and code that writes them

    [read_literal] is the language's reading of a literal in single quotes.
    [json_tokens] is the body of [JSON.stringify] of a string, a token for
    each unit (or pair of surrogates); [formatPrimitive] of [util] turns it
    into a literal in single quotes, and [escapeChar] of underscore's
    [template] writes one directly: both read back as the string. *)

From S2P Require Import Prelude JsString.

#[local] Open Scope N_scope.

(** ** Reading *)

Definition hex_value (c : N) : option N :=
  if (48 <=? c) && (c <=? 57) then Some (c - 48)
  else if (97 <=? c) && (c <=? 102) then Some (c - 87)
  else if (65 <=? c) && (c <=? 70) then Some (c - 55)
  else None.

(** The unit a character stands for after a backslash: [x], [u], digits and the
    ends of lines are apart. *)
Definition simple_escape (c : N) : option N :=
  if bool_decide (c = 110) then Some 10          (* n *)
  else if bool_decide (c = 114) then Some 13     (* r *)
  else if bool_decide (c = 116) then Some 9      (* t *)
  else if bool_decide (c = 98) then Some 8       (* b *)
  else if bool_decide (c = 102) then Some 12     (* f *)
  else if bool_decide (c = 118) then Some 11     (* v *)
  else if bool_decide (c ∈ [10; 13; 8232; 8233; 117; 120]) || is_digit_unit c then None
  else Some c.

Definition quote : N := 39.
Definition double_quote : N := 34.
Definition backslash : N := 92.

Definition cons_unit (c : N) (r : option (jstr * jstr)) : option (jstr * jstr) :=
  match r with Some (s, rest) => Some (c :: s, rest) | None => None end.

(** The value of the literal after its opening quote, and what follows it. *)
Fixpoint read_literal (s : jstr) : option (jstr * jstr) :=
  match s with
  | [] => None
  | c :: s =>
      if bool_decide (c = quote) then Some ([], s)
      else if bool_decide (c = backslash) then
        match s with
        | [] => None
        | d :: t =>
            match simple_escape d with
            | Some v => cons_unit v (read_literal t)
            | None =>
                match d, t with
                | 117, a :: b :: c :: d :: t =>
                    match hex_value a, hex_value b, hex_value c, hex_value d with
                    | Some a, Some b, Some c, Some d =>
                        cons_unit (((a * 16 + b) * 16 + c) * 16 + d) (read_literal t)
                    | _, _, _, _ => None
                    end
                | 120, a :: b :: t =>
                    match hex_value a, hex_value b with
                    | Some a, Some b => cons_unit (a * 16 + b) (read_literal t)
                    | _, _ => None
                    end
                | _, _ => None
                end
            end
        end
      else if bool_decide (c ∈ [10; 13]) then None
      else cons_unit c (read_literal s)
  end.

(** ** [JSON.stringify] of a string *)

Definition hex_digit (n : N) : N := if n <? 10 then n + 48 else n + 87.
Definition hex4 (c : N) : jstr :=
  [hex_digit (c / 4096); hex_digit (c / 256 mod 16); hex_digit (c / 16 mod 16); hex_digit (c mod 16)].
Definition is_lead (c : N) : bool := (55296 <=? c) && (c <=? 56319).
Definition is_trail (c : N) : bool := (56320 <=? c) && (c <=? 57343).

Definition unit_token (c : N) : jstr :=
  if bool_decide (c = 8) then u "\b"
  else if bool_decide (c = 9) then u "\t"
  else if bool_decide (c = 10) then u "\n"
  else if bool_decide (c = 12) then u "\f"
  else if bool_decide (c = 13) then u "\r"
  else if bool_decide (c = double_quote) || bool_decide (c = backslash) then [backslash; c]
  else if (c <? 32) || is_lead c || is_trail c then u "\u" ++ hex4 c
  else [c].

(** Surrogates stand for themselves in pairs only. *)
Fixpoint json_tokens (s : jstr) : list jstr :=
  match s with
  | [] => []
  | c :: s' =>
      match s' with
      | d :: t => if is_lead c && is_trail d then [c; d] :: json_tokens t
                  else unit_token c :: json_tokens s'
      | [] => [unit_token c]
      end
  end.
Definition json_quote (s : jstr) : jstr := double_quote :: concat (json_tokens s) ++ [double_quote].

(** ** Into single quotes *)

(** [replace(/'/g, "\\'")]. *)
Definition quote_unit (c : N) : jstr := if bool_decide (c = quote) then [backslash; c] else [c].
Definition escape_quotes (s : jstr) : jstr := concat (map quote_unit s).

(** [replace(/\\"/g, '"')]. *)
Fixpoint bare_double_quotes (s : jstr) : jstr :=
  match s with
  | [] => []
  | c :: s' =>
      match s' with
      | d :: t =>
          if bool_decide (c = backslash) && bool_decide (d = double_quote)
          then d :: bare_double_quotes t
          else c :: bare_double_quotes s'
      | [] => [c]
      end
  end.

(** The literal of [formatPrimitive], after its opening quote. *)
Definition literal_body (s : jstr) : jstr :=
  bare_double_quotes (escape_quotes (concat (json_tokens s))).

(** *** It reads back *)

(** A token as it is in the literal. *)
Definition final_token (t : jstr) : jstr :=
  if bool_decide (t = [backslash; double_quote]) then [double_quote] else escape_quotes t.

Lemma read_plain c s :
  c ≠ quote → c ≠ backslash → c ∉ [10; 13] → read_literal (c :: s) = cons_unit c (read_literal s).
Proof.
  intros H1 H2 H3. cbn [read_literal]. rewrite !bool_decide_eq_false_2 by done. done.
Qed.

Lemma hex_digit_value n : n < 16 → hex_value (hex_digit n) = Some n.
Proof.
  intros Hn. assert (n ∈ [0;1;2;3;4;5;6;7;8;9;10;11;12;13;14;15]) as H.
  { repeat (rewrite elem_of_cons). lia. }
  repeat (apply elem_of_cons in H as [->|H]; [done|]). by apply not_elem_of_nil in H.
Qed.

Lemma read_hex4 c s :
  c < 65536 → read_literal (u "\u" ++ hex4 c ++ s) = cons_unit c (read_literal s).
Proof.
  intros Hc. change (u "\u") with [backslash; 117]. cbn [app hex4].
  assert (H1 : c / 4096 < 16) by (apply N.Div0.div_lt_upper_bound; lia).
  pose proof (N.mod_lt (c / 256) 16 ltac:(done)). pose proof (N.mod_lt (c / 16) 16 ltac:(done)).
  pose proof (N.mod_lt c 16 ltac:(done)).
  cbn [read_literal]. rewrite (bool_decide_eq_false_2 (backslash = quote)) by done.
  rewrite (bool_decide_eq_true_2 (backslash = backslash)) by done.
  change (simple_escape 117) with (@None N). cbv iota. rewrite !hex_digit_value by done.
  f_equal. pose proof (N.div_mod c 16 ltac:(done)). pose proof (N.div_mod (c / 16) 16 ltac:(done)).
  pose proof (N.div_mod (c / 256) 16 ltac:(done)).
  rewrite !N.Div0.div_div in *. change (16 * 16) with 256 in *. change (256 * 16) with 4096 in *. lia.
Qed.

Lemma escape_quotes_id t : quote ∉ t → escape_quotes t = t.
Proof.
  induction t as [|c t IH]; intros H; [done|]. apply not_elem_of_cons in H as [Hc Ht].
  unfold escape_quotes. simpl. unfold quote_unit at 1. rewrite bool_decide_eq_false_2 by done.
  simpl. f_equal. by apply IH.
Qed.

Lemma hex4_not_quote c : quote ∉ hex4 c.
Proof.
  assert (H : ∀ n, hex_digit n ≠ quote) by (intros n; unfold hex_digit, quote; case_match; lia).
  unfold hex4. set_solver.
Qed.

Lemma read_unit_token c s :
  c < 65536 → read_literal (final_token (unit_token c) ++ s) = cons_unit c (read_literal s).
Proof.
  intros Hc. unfold unit_token. destruct (decide (c ∈ [8; 9; 10; 12; 13])) as [H|H].
  { repeat (apply elem_of_cons in H as [->|H]; [done|]). by apply not_elem_of_nil in H. }
  rewrite (bool_decide_eq_false_2 (c = 8)), (bool_decide_eq_false_2 (c = 9)),
    (bool_decide_eq_false_2 (c = 10)), (bool_decide_eq_false_2 (c = 12)),
    (bool_decide_eq_false_2 (c = 13)) by set_solver. clear H.
  destruct (bool_decide (c = double_quote) || bool_decide (c = backslash)) eqn:Hq.
  { apply orb_true_iff in Hq as [Hq|Hq]; apply bool_decide_eq_true in Hq as ->; [|done].
    change (final_token [backslash; double_quote]) with [double_quote].
    apply read_plain; [done|done|set_solver]. }
  apply orb_false_iff in Hq as [Hd Hb]. apply bool_decide_eq_false in Hd, Hb.
  destruct ((c <? 32) || is_lead c || is_trail c) eqn:Hu.
  { assert (final_token (u "\u" ++ hex4 c) = u "\u" ++ hex4 c) as ->.
    { unfold final_token. rewrite bool_decide_eq_false_2 by done. apply escape_quotes_id.
      change (u "\u") with [backslash; 117]. intros Hin.
      apply elem_of_app in Hin as [Hin|Hin]; [set_solver|]. by apply hex4_not_quote in Hin. }
    rewrite <-app_assoc. by apply read_hex4. }
  unfold final_token. rewrite bool_decide_eq_false_2 by done. unfold escape_quotes, quote_unit. simpl.
  case_bool_decide as Hquote; [by subst c|]. simpl. apply read_plain; [done|done|].
  apply orb_false_iff in Hu as [Hu _]. apply orb_false_iff in Hu as [Hu _]. apply N.ltb_ge in Hu.
  rewrite !not_elem_of_cons. split_and!; [lia|lia|apply not_elem_of_nil].
Qed.

(** A run without double quotes stays as it is, unless a double quote follows a
    backslash at its end. *)
Lemma bare_app t rest :
  double_quote ∉ t → head rest ≠ Some double_quote ∨ last t ≠ Some backslash →
  bare_double_quotes (t ++ rest) = t ++ bare_double_quotes rest.
Proof.
  induction t as [|c t IH]; intros Hd Hb; [done|]. apply not_elem_of_cons in Hd as [Hc Hd].
  destruct t as [|d t].
  - destruct rest as [|d rest]; [done|]. cbn [app bare_double_quotes].
    destruct (bool_decide (c = backslash) && bool_decide (d = double_quote)) eqn:H; [|done].
    apply andb_true_iff in H as [H1%bool_decide_eq_true H2%bool_decide_eq_true]. subst.
    by destruct Hb as [?|?].
  - apply not_elem_of_cons in Hd as [Hd Ht]. cbn [app bare_double_quotes].
    rewrite (bool_decide_eq_false_2 (d = double_quote)) by done. rewrite andb_false_r.
    f_equal. apply IH; [by apply not_elem_of_cons|done].
Qed.

(** What a token is: two units apart, it has no double quote and ends in no
    backslash. *)
Definition token_ok (t : jstr) : Prop :=
  t = [backslash; double_quote] ∨ t = [backslash; backslash] ∨
  t ≠ [] ∧ double_quote ∉ t ∧ last t ≠ Some backslash.

Lemma hex_digit_bounds n : n < 16 → 48 <= hex_digit n ∧ hex_digit n ≠ backslash.
Proof. intros H. unfold hex_digit, backslash. case_match eqn:E; bool_clean; lia. Qed.

Lemma unit_token_ok c : token_ok (unit_token c).
Proof.
  unfold token_ok, unit_token. destruct (decide (c ∈ [8; 9; 10; 12; 13])) as [Hin|Hin].
  { right. right. assert (∀ d, d ∈ [98; 116; 110; 102; 114] →
      [backslash; d] ≠ [] ∧ double_quote ∉ [backslash; d] ∧ last [backslash; d] ≠ Some backslash) as Hd.
    { intros d Hd. unfold backslash, double_quote. split; [done|]. simpl. split; [set_solver|].
      intros [= ->]. set_solver. }
    repeat (apply elem_of_cons in Hin as [->|Hin]; [apply Hd; set_solver|]).
    by apply not_elem_of_nil in Hin. }
  rewrite (bool_decide_eq_false_2 (c = 8)), (bool_decide_eq_false_2 (c = 9)),
    (bool_decide_eq_false_2 (c = 10)), (bool_decide_eq_false_2 (c = 12)),
    (bool_decide_eq_false_2 (c = 13)) by set_solver. clear Hin.
  destruct (bool_decide (c = double_quote) || bool_decide (c = backslash)) eqn:Hq.
  { apply orb_true_iff in Hq as [Hq|Hq]; apply bool_decide_eq_true in Hq as ->; [by left|by right; left]. }
  apply orb_false_iff in Hq as [Hd Hb]. apply bool_decide_eq_false in Hd, Hb. right. right.
  destruct ((c <? 32) || is_lead c || is_trail c).
  - pose proof (N.mod_lt c 16 ltac:(done)) as Hm. split; [done|]. split.
    + assert (H : ∀ n, hex_digit n ≠ double_quote) by (intros n; unfold hex_digit, double_quote; case_match; lia).
      change (u "\u") with [backslash; 117]. unfold hex4. set_solver.
    + change (Some (hex_digit (c mod 16)) ≠ Some backslash). intros [= Hh].
      by apply (hex_digit_bounds (c mod 16)).
  - split; [done|]. split; [set_solver|]. simpl. congruence.
Qed.

Lemma json_tokens_ok s : Forall token_ok (json_tokens s).
Proof.
  assert (∀ n s, (length s < n)%nat → Forall token_ok (json_tokens s)) as H.
  { induction n as [|n IH]; intros t Hn; [lia|]. destruct t as [|c [|d t]]; simpl in *.
    - constructor.
    - constructor; [apply unit_token_ok|constructor].
    - destruct (is_lead c && is_trail d) eqn:Hs.
      + apply andb_true_iff in Hs as [Hc Hd]. unfold is_lead, is_trail in *. bool_clean.
        constructor; [|apply IH; lia]. right. right. split; [done|]. unfold double_quote, backslash.
        split; [rewrite !not_elem_of_cons; split_and!; [lia|lia|apply not_elem_of_nil]|].
        simpl. intros [= ->]. lia.
      + constructor; [apply unit_token_ok|]. apply (IH (d :: t)). simpl. lia. }
  apply (H (S (length s))). lia.
Qed.

Lemma escape_quotes_app s t : escape_quotes (s ++ t) = escape_quotes s ++ escape_quotes t.
Proof. unfold escape_quotes. by rewrite map_app, concat_app. Qed.

Lemma escape_quotes_ok t :
  t ≠ [] → double_quote ∉ t → last t ≠ Some backslash →
  escape_quotes t ≠ [] ∧ double_quote ∉ escape_quotes t ∧ last (escape_quotes t) ≠ Some backslash.
Proof.
  intros Hne Hd Hl. destruct t as [|c t _] using rev_ind; [done|].
  rewrite last_snoc in Hl. rewrite escape_quotes_app. apply not_elem_of_app in Hd as [Ht Hc].
  assert (Hq : ∀ s, double_quote ∉ s → double_quote ∉ escape_quotes s).
  { induction s as [|x s IH]; intros Hs; [done|]. apply not_elem_of_cons in Hs as [Hx Hs].
    change (escape_quotes (x :: s)) with (quote_unit x ++ escape_quotes s).
    apply not_elem_of_app. split; [|by apply IH]. unfold quote_unit.
    case_bool_decide; unfold quote, backslash, double_quote in *; set_solver. }
  assert (Hlast : ∃ s, escape_quotes [c] = s ++ [c]).
  { unfold escape_quotes, quote_unit. simpl. case_bool_decide; [by exists [backslash]|by exists []]. }
  split_and!.
  - destruct Hlast as [s ->]. rewrite app_assoc. by intros [_ ?]%app_nil.
  - apply not_elem_of_app. split; [by apply Hq|]. by apply Hq.
  - destruct Hlast as [s ->]. by rewrite app_assoc, last_snoc.
Qed.

Lemma head_tokens ts : Forall token_ok ts → head (escape_quotes (concat ts)) ≠ Some double_quote.
Proof.
  intros Hts. destruct Hts as [|t ts Ht _]; [done|]. simpl. rewrite escape_quotes_app.
  destruct Ht as [->|[->|(Hne&Hd&Hl)]]; [done|done|].
  destruct (escape_quotes_ok t Hne Hd Hl) as (Hne'&Hd'&_).
  destruct (escape_quotes t) as [|x k]; [done|]. simpl. intros [= ->]. apply Hd'. by left.
Qed.

Lemma literal_tokens ts :
  Forall token_ok ts →
  bare_double_quotes (escape_quotes (concat ts)) = concat (map final_token ts).
Proof.
  induction 1 as [|t ts Ht Hts IH]; [done|]. simpl. rewrite escape_quotes_app.
  pose proof (head_tokens ts Hts) as Hh.
  destruct Ht as [->|[->|(Hne&Hd&Hl)]].
  - by rewrite <-IH.
  - change (final_token [backslash; backslash]) with [backslash; backslash]. rewrite <-IH.
    apply bare_app; [|by left]. unfold double_quote, backslash. set_solver.
  - destruct (escape_quotes_ok t Hne Hd Hl) as (_&Hd'&Hl').
    rewrite bare_app by auto. rewrite IH. f_equal. unfold final_token.
    rewrite bool_decide_eq_false_2; [done|]. intros ->. apply Hd. by right; left.
Qed.

Lemma json_tokens_cons c d t :
  json_tokens (c :: d :: t) = if is_lead c && is_trail d then [c; d] :: json_tokens t
                              else unit_token c :: json_tokens (d :: t).
Proof. done. Qed.

(** Units are 16 bits wide. *)
Definition units (s : jstr) : Prop := Forall (λ c, c < 65536) s.

Lemma read_tokens s rest :
  units s →
  read_literal (concat (map final_token (json_tokens s)) ++ quote :: rest) = Some (s, rest).
Proof.
  assert (∀ n s, (length s < n)%nat → units s →
    read_literal (concat (map final_token (json_tokens s)) ++ quote :: rest) = Some (s, rest)) as H.
  { induction n as [|n IH]; intros t Hn Hu; [lia|]. destruct t as [|c [|d t]]; [done| |].
    - inversion Hu; subst. cbn [json_tokens map concat]. rewrite app_nil_r, read_unit_token by done. done.
    - inversion Hu as [|?? Hc Hu']; subst. rewrite json_tokens_cons.
      destruct (is_lead c && is_trail d) eqn:Hs; cbn [map concat]; rewrite <-app_assoc.
      + apply andb_true_iff in Hs as [Hc' Hd']. unfold is_lead, is_trail in *. bool_clean.
        inversion Hu' as [|?? Hd Hu'']; subst.
        assert (final_token [c; d] = [c; d]) as ->.
        { unfold final_token. rewrite bool_decide_eq_false_2 by (intros [= -> ->]; done).
          apply escape_quotes_id. unfold quote. set_solver by lia. }
        cbn [app]. rewrite !read_plain by (unfold quote, backslash; set_solver by lia).
        rewrite IH by (simpl in *; lia || done). done.
      + rewrite read_unit_token by done.
        rewrite (IH (d :: t)) by (simpl in *; lia || done). done. }
  intros Hu. apply (H (S (length s))); [lia|done].
Qed.

(** [util.inspect] of a string is a literal of that string. *)
Lemma literal_body_reads s rest :
  units s → read_literal (literal_body s ++ quote :: rest) = Some (s, rest).
Proof.
  intros Hu. unfold literal_body. rewrite literal_tokens by apply json_tokens_ok. by apply read_tokens.
Qed.
