(* ===== verification/Templates.v ===== *)
(** * HTML entities and templates of the bundled underscore ([wordcut.js])

    [_.escape] and [_.unescape] replace the keys of a map, the first that
    matches at each place.  [_.template] cuts a text at its tags and writes a
    program; the default delimiters are modelled, other ones are regular
    expressions of the caller.  The program is text here: what it does is not
    modelled, but its literals are read back. *)

From S2P Require Import Prelude JsString Literals.

#[local] Open Scope N_scope.

(** ** Entities *)

Definition escapeMap : list (jstr * jstr) :=
  [(u "&", u "&amp;"); (u "<", u "&lt;"); (u ">", u "&gt;"); ([double_quote], u "&quot;");
   (u "'", u "&#x27;"); (u "`", u "&#x60;")].
(** [_.invert]. *)
Definition unescapeMap : list (jstr * jstr) := map (λ p, (p.2, p.1)) escapeMap.

(** The alternative of the regular expression that matches at the start. *)
Definition first_key (m : list (jstr * jstr)) (s : jstr) : option (jstr * jstr) :=
  find (λ p, starts_with p.1 s) m.

(** [string.replace(replaceRegexp, escaper)]; [skip] units belong to a match. *)
Fixpoint replace_keys (m : list (jstr * jstr)) (skip : nat) (s : jstr) : jstr :=
  match s with
  | [] => []
  | c :: s' =>
      match skip with
      | S skip => replace_keys m skip s'
      | O => match first_key m s with
             | Some (k, v) => v ++ replace_keys m (length k - 1) s'
             | None => c :: replace_keys m 0 s'
             end
      end
  end.
Definition _escape (s : jstr) : jstr := replace_keys escapeMap 0 s.
Definition _unescape (s : jstr) : jstr := replace_keys unescapeMap 0 s.

(** The entity of a unit. *)
Definition entity (c : N) : jstr :=
  match first_key escapeMap [c] with Some (_, v) => v | None => [c] end.

Definition escaped_units : list N := [38; 60; 62; 34; 39; 96].

Ltac escaped_cases H :=
  unfold escaped_units in H;
  repeat (apply elem_of_cons in H as [->|H]; [try done|]); try by apply not_elem_of_nil in H.

Lemma first_key_None m c s :
  Forall (λ p, match p.1 with d :: _ => d ≠ c | [] => False end) m → first_key m (c :: s) = None.
Proof.
  unfold first_key. induction 1 as [|[k v] m Hk _ IH]; [done|]. cbn [find fst] in *.
  destruct k as [|d k]; [done|]. cbn [starts_with]. by rewrite (proj2 (N.eqb_neq d c)).
Qed.

Lemma escape_key_None c s : c ∉ escaped_units → first_key escapeMap (c :: s) = None.
Proof.
  intros H. apply first_key_None. unfold escaped_units in H. rewrite !not_elem_of_cons in H.
  unfold escapeMap. repeat (apply Forall_cons; split; [cbn; naive_solver|]). apply Forall_nil_2.
Qed.

Lemma unescape_key_None c s : c ≠ 38 → first_key unescapeMap (c :: s) = None.
Proof.
  intros H. apply first_key_None.
  unfold unescapeMap, escapeMap. cbn [map fst snd].
  repeat (apply Forall_cons; split; [intros Hd; apply H; symmetry; exact Hd|]). apply Forall_nil_2.
Qed.

Lemma entity_plain c : c ∉ escaped_units → entity c = [c].
Proof. intros H. unfold entity. by rewrite escape_key_None. Qed.

Lemma escape_units s : _escape s = concat (map entity s).
Proof.
  induction s as [|c s IH]; [done|]. cbn [map concat]. rewrite <-IH. unfold _escape.
  destruct (decide (c ∈ escaped_units)) as [H|H]; [escaped_cases H|].
  rewrite entity_plain by done. cbn [replace_keys]. by rewrite escape_key_None.
Qed.

Lemma unescape_entity c s : _unescape (entity c ++ s) = c :: _unescape s.
Proof.
  destruct (decide (c ∈ escaped_units)) as [H|H]; [escaped_cases H|].
  rewrite entity_plain by done. unfold _unescape. cbn [app replace_keys].
  rewrite unescape_key_None; [done|]. unfold escaped_units in H. set_solver.
Qed.

Lemma entity_safe c : Forall (λ d, d ∉ [60; 62; 34; 39; 96]) (entity c).
Proof.
  destruct (decide (c ∈ escaped_units)) as [H|H].
  - escaped_cases H; apply (bool_decide_unpack _); vm_compute; exact I.
  - rewrite entity_plain by done. constructor; [|constructor]. unfold escaped_units in H. set_solver.
Qed.

(** [_.unescape] undoes [_.escape], and an escaped string has none of the
    characters that HTML reads as markup or as a quote. *)
Theorem escape_roundtrip (s : jstr) :
  _unescape (_escape s) = s ∧ Forall (λ c, c ∉ [60; 62; 34; 39; 96]) (_escape s).
Proof.
  rewrite escape_units. split.
  - induction s as [|c s IH]; [done|]. cbn [map concat]. by rewrite unescape_entity, IH.
  - induction s as [|c s IH]; [constructor|]. cbn [map concat]. apply Forall_app.
    split; [apply entity_safe|done].
Qed.

(** ** Templates *)

Inductive delimiter := Escape | Interpolate | Evaluate.
Inductive piece := Literal (s : jstr) | Tag (d : delimiter) (code : jstr).

#[local] Instance delimiter_eq_dec : EqDecision delimiter.
Proof. solve_decision. Defined.

(** [_.templateSettings]: what opens a tag, in the order of the alternatives. *)
Definition opener (d : delimiter) : jstr :=
  match d with Escape => u "<%-" | Interpolate => u "<%=" | Evaluate => u "<%" end.
Definition closer : jstr := u "%>".
Definition templateSettings : list delimiter := [Escape; Interpolate; Evaluate].

(** The shortest run up to [%>]. *)
Fixpoint up_to_closer (s : jstr) : option (jstr * jstr) :=
  match s with
  | [] => None
  | c :: s' =>
      if starts_with closer s then Some ([], drop 2 s)
      else match up_to_closer s' with Some (code, rest) => Some (c :: code, rest) | None => None end
  end.

(** [([\s\S]+?)%>]: one unit at least. *)
Definition match_tag (d : delimiter) (s : jstr) : option (jstr * jstr) :=
  if starts_with (opener d) s then
    match drop (length (opener d)) s with
    | [] => None
    | c :: s =>
        match up_to_closer s with Some (code, rest) => Some (c :: code, rest) | None => None end
    end
  else None.

Fixpoint first_tag (ds : list delimiter) (s : jstr) : option (delimiter * jstr * jstr) :=
  match ds with
  | [] => None
  | d :: ds => match match_tag d s with
               | Some (code, rest) => Some (d, code, rest)
               | None => first_tag ds s
               end
  end.

(** [text.replace(matcher, ...)]: [lit] is [text.slice(index, offset)]. *)
Fixpoint scan (n : nat) (lit s : jstr) : list piece :=
  match n, s with
  | O, _ | _, [] => [Literal lit]
  | S n, c :: s' =>
      match first_tag templateSettings s with
      | Some (d, code, rest) => Literal lit :: Tag d code :: scan n [] rest
      | None => scan n (lit ++ [c]) s'
      end
  end.
Definition template_pieces (text : jstr) : list piece := scan (length text) [] text.

Definition line_feed : jstr := [10].

(** [escaper] and [escapeChar]. *)
Definition escapeChar (c : N) : jstr :=
  if bool_decide (c = quote) then [backslash; quote]
  else if bool_decide (c = backslash) then [backslash; backslash]
  else if bool_decide (c = 13) then u "\r"
  else if bool_decide (c = 10) then u "\n"
  else if bool_decide (c = 8232) then u "\u2028"
  else if bool_decide (c = 8233) then u "\u2029"
  else [c].

Definition piece_source (p : piece) : jstr :=
  match p with
  | Literal s => concat (map escapeChar s)
  | Tag Escape code =>
      u "'+" ++ line_feed ++ u "((__t=(" ++ code ++ u "))==null?'':_.escape(__t))+" ++ line_feed ++ u "'"
  | Tag Interpolate code =>
      u "'+" ++ line_feed ++ u "((__t=(" ++ code ++ u "))==null?'':__t)+" ++ line_feed ++ u "'"
  | Tag Evaluate code => u "';" ++ line_feed ++ code ++ line_feed ++ u "__p+='"
  end.

(** The body of the function that [template] makes; [variable] is
    [settings.variable], the name of the argument; the empty one is falsy. *)
Definition template_source (variable : option jstr) (text : jstr) : jstr :=
  let body := u "__p+='" ++ concat (map piece_source (template_pieces text)) ++ u "';" ++ line_feed in
  u "var __t,__p='',__j=Array.prototype.join,print=function(){__p+=__j.call(arguments,'');};" ++
  line_feed ++
  (if variable is Some (_ :: _) then body else u "with(obj||{}){" ++ line_feed ++ body ++ u "}" ++ line_feed) ++
  u "return __p;" ++ line_feed.

(** *** Cutting the text *)

(** What a piece was in the text. *)
Definition piece_text (p : piece) : jstr :=
  match p with Literal s => s | Tag d code => opener d ++ code ++ closer end.

Lemma starts_with_split p s : starts_with p s = true → s = p ++ drop (length p) s.
Proof.
  revert s. induction p as [|x p IH]; intros [|y s] H; try done.
  apply andb_true_iff in H as [->%N.eqb_eq H]. cbn [length drop app]. f_equal. by apply IH.
Qed.

Lemma up_to_closer_app s code rest :
  up_to_closer s = Some (code, rest) → s = code ++ closer ++ rest ∧ up_to_closer code = None.
Proof.
  revert code rest. induction s as [|c s IH]; intros code rest; cbn [up_to_closer]; [done|].
  destruct (starts_with closer (c :: s)) eqn:Hc.
  - intros [= <- <-]. split; [|done]. by apply starts_with_split in Hc.
  - destruct (up_to_closer s) as [[code' rest']|]; [|done]. intros [= <- <-].
    destruct (IH code' rest' eq_refl) as [-> Hn]. split; [done|]. cbn [up_to_closer]. rewrite Hn.
    change closer with [37; 62] in *. destruct code' as [|d code'].
    + cbn. by rewrite andb_false_r.
    + cbn [app starts_with] in *. by rewrite Hc.
Qed.

(** The code of a tag: a unit at least, and after it no [%>]. *)
Definition tag_code (code : jstr) : Prop := code ≠ [] ∧ up_to_closer (tail code) = None.

Lemma match_tag_app d s code rest :
  match_tag d s = Some (code, rest) → s = piece_text (Tag d code) ++ rest ∧ tag_code code.
Proof.
  unfold match_tag. destruct (starts_with (opener d) s) eqn:Ho; [|done].
  apply starts_with_split in Ho. destruct (drop _ s) as [|c t]; [done|].
  destruct (up_to_closer t) as [[code' rest']|] eqn:Hu; [|done]. intros [= <- <-].
  apply up_to_closer_app in Hu as [-> Hn]. split; [|done]. rewrite Ho. cbn [piece_text].
  by rewrite <-!app_assoc.
Qed.

Lemma first_tag_app ds s d code rest :
  first_tag ds s = Some (d, code, rest) → s = piece_text (Tag d code) ++ rest ∧ tag_code code.
Proof.
  induction ds as [|e ds IH]; [done|]. cbn [first_tag].
  destruct (match_tag e s) as [[code' rest']|] eqn:He; [|done]. intros [= <- <- <-].
  by apply match_tag_app.
Qed.

(** What the scan leaves as a literal has no tag that closes in it. *)
Definition plain_text (s : jstr) : Prop := ∀ i, first_tag templateSettings (drop i s) = None.

Lemma starts_with_mono p s t : starts_with p s = true → starts_with p (s ++ t) = true.
Proof.
  revert s. induction p as [|x p IH]; intros [|y s] H; try done. cbn [starts_with app] in *.
  apply andb_true_iff in H as [-> H]. by apply IH.
Qed.

Lemma up_to_closer_mono s t : up_to_closer s ≠ None → up_to_closer (s ++ t) ≠ None.
Proof.
  induction s as [|c s IH]; [done|]. cbn [up_to_closer app].
  destruct (starts_with closer (c :: s)) eqn:Hc.
  - apply (starts_with_mono _ _ t) in Hc. cbn [app] in Hc. by rewrite Hc.
  - destruct (starts_with closer (c :: s ++ t)); [done|]. destruct (up_to_closer s) as [[??]|]; [|done]. intros _.
    destruct (up_to_closer (s ++ t)) as [[??]|]; [done|]. by apply IH.
Qed.

Lemma match_tag_mono d s t : match_tag d s ≠ None → match_tag d (s ++ t) ≠ None.
Proof.
  unfold match_tag. destruct (starts_with (opener d) s) eqn:Ho; [|done].
  pose proof (starts_with_split _ _ Ho) as Hs. rewrite (starts_with_mono _ _ t Ho).
  assert (drop (length (opener d)) (s ++ t) = drop (length (opener d)) s ++ t) as ->.
  { transitivity (drop (length (opener d)) ((opener d ++ drop (length (opener d)) s) ++ t));
      [by rewrite <-Hs|by rewrite <-app_assoc, drop_app_length]. }
  destruct (drop _ s) as [|c r]; [done|]. cbn [app].
  pose proof (up_to_closer_mono r t) as H.
  destruct (up_to_closer r) as [[??]|]; [|done]. intros _.
  destruct (up_to_closer (r ++ t)) as [[??]|]; [done|]. by apply H.
Qed.

Lemma first_tag_mono ds s t : first_tag ds (s ++ t) = None → first_tag ds s = None.
Proof.
  induction ds as [|d ds IH]; [done|]. cbn [first_tag]. pose proof (match_tag_mono d s t) as H.
  destruct (match_tag d (s ++ t)) as [[??]|]; [done|].
  destruct (match_tag d s) as [[??]|]; [by destruct H|]. done.
Qed.

Definition piece_ok (p : piece) : Prop :=
  match p with Literal s => plain_text s | Tag _ code => tag_code code end.

(** [lit] is scanned and no tag starts in it, whatever of [s] follows. *)
Lemma scan_ok n lit s :
  (length s ≤ n)%nat → (∀ i, (i < length lit)%nat → first_tag templateSettings (drop i lit ++ s) = None) →
  concat (map piece_text (scan n lit s)) = lit ++ s ∧ Forall piece_ok (scan n lit s).
Proof.
  assert (Hend : ∀ lit s, (∀ i, (i < length lit)%nat → first_tag templateSettings (drop i lit ++ s) = None) →
    plain_text lit).
  { intros l t H i. destruct (decide (i < length l)%nat) as [Hi|Hi].
    - by apply (first_tag_mono _ _ t), H.
    - by rewrite drop_ge by lia. }
  revert lit s. induction n as [|n IH]; intros lit s Hn Hlit.
  { destruct s; [|simpl in Hn; lia]. split; [done|]. repeat constructor. by eapply Hend. }
  destruct s as [|c s]; [split; [done|repeat constructor; by eapply Hend]|].
  cbn [scan]. destruct (first_tag templateSettings (c :: s)) as [[[d code] rest]|] eqn:Ht.
  - pose proof (first_tag_app _ _ _ _ _ Ht) as [Hs Hcode].
    assert (length rest ≤ n)%nat.
    { apply (f_equal length) in Hs. cbn [piece_text length] in Hs. rewrite !length_app in Hs.
      simpl in Hn, Hs. change (length closer) with 2%nat in Hs. lia. }
    destruct (IH [] rest) as [IH1 IH2]; [done|simpl; lia|].
    split; [|constructor; [by eapply Hend|by constructor]].
    cbn [map concat]. rewrite IH1, Hs. done.
  - destruct (IH (lit ++ [c]) s) as [IH1 IH2]; [simpl in Hn; lia| |].
    + intros i Hi. rewrite length_app in Hi. simpl in Hi. rewrite drop_app.
      destruct (decide (i < length lit)%nat) as [Hl|Hl].
      * replace (i - length lit)%nat with 0%nat by lia. rewrite drop_0, <-app_assoc. by apply Hlit.
      * rewrite drop_ge by lia. replace (i - length lit)%nat with 0%nat by lia. done.
    + split; [|done]. rewrite IH1. by rewrite <-app_assoc.
Qed.

Lemma read_escapeChar c s :
  read_literal (escapeChar c ++ s) = cons_unit c (read_literal s).
Proof.
  destruct (decide (c ∈ [quote; backslash; 13; 10; 8232; 8233])) as [H|H].
  - repeat (apply elem_of_cons in H as [->|H]; [done|]). by apply not_elem_of_nil in H.
  - rewrite !not_elem_of_cons in H. destruct H as (H1&H2&H3&H4&H5&H6&_). unfold escapeChar.
    rewrite !bool_decide_eq_false_2 by done. cbn [app]. apply read_plain; [done|done|].
    rewrite !not_elem_of_cons. split_and!; [done|done|apply not_elem_of_nil].
Qed.

Lemma read_escaped s rest :
  read_literal (piece_source (Literal s) ++ quote :: rest) = Some (s, rest).
Proof.
  induction s as [|c s IH]; [done|]. cbn [piece_source map concat] in *.
  by rewrite <-app_assoc, read_escapeChar, IH.
Qed.

(** Literals and tags alternate, so that a literal is between quotes. *)
Inductive alternating : list piece → Prop :=
  | alternating_end s : alternating [Literal s]
  | alternating_tag s d code ps : alternating ps → alternating (Literal s :: Tag d code :: ps).

Lemma scan_alternating n lit s : alternating (scan n lit s).
Proof.
  revert lit s. induction n as [|n IH]; intros lit s; [constructor|].
  destruct s as [|c s]; [constructor|]. cbn [scan].
  destruct (first_tag _ _) as [[[d code] rest]|]; [by constructor|apply IH].
Qed.

Lemma tag_source_quotes d code :
  (∃ x, piece_source (Tag d code) = quote :: x) ∧ ∃ y, piece_source (Tag d code) = y ++ [quote].
Proof.
  split; [destruct d; by eexists|]. destruct d; cbn [piece_source].
  - eexists (u "'+" ++ line_feed ++ u "((__t=(" ++ code ++ u "))==null?'':_.escape(__t))+" ++ line_feed).
    by rewrite <-!app_assoc.
  - eexists (u "'+" ++ line_feed ++ u "((__t=(" ++ code ++ u "))==null?'':__t)+" ++ line_feed).
    by rewrite <-!app_assoc.
  - eexists (u "';" ++ line_feed ++ code ++ line_feed ++ u "__p+="). by rewrite <-!app_assoc.
Qed.

Lemma literal_between ps post : alternating ps → ∀ pre l1 s l2, ps = l1 ++ Literal s :: l2 →
  ∃ before after, pre ++ quote :: concat (map piece_source ps) ++ quote :: post =
    before ++ quote :: piece_source (Literal s) ++ quote :: after.
Proof.
  induction 1 as [t|t d code ps _ IH]; intros pre l1 s l2 Heq.
  - destruct l1 as [|p [|? l1]]; [|done|done]. injection Heq as [= <- <-]. exists pre, post.
    cbn [map concat]. by rewrite app_nil_r.
  - destruct (tag_source_quotes d code) as [[x Hx] [y Hy]]. cbn [map concat].
    destruct l1 as [|p [|q l1]]; [|done|].
    + injection Heq as [= <- <-]. rewrite Hx.
      exists pre, (x ++ concat (map piece_source ps) ++ quote :: post).
      rewrite <-!app_assoc. done.
    + injection Heq as [= <- <- Heq]. rewrite Hy.
      destruct (IH (pre ++ quote :: piece_source (Literal t) ++ y) l1 s l2 Heq) as (b&a&Hba).
      exists b, a. rewrite <-Hba. rewrite <-!app_assoc. cbn [app]. by rewrite <-!app_assoc.
Qed.

(** C31: [_.template] cuts a text into its literals and the code of its tags:
    together they are the text, no tag closes inside a literal, and a tag's code
    goes up to the first [%>] after its first character.  In the source of the
    function it makes, each literal stands after a single quote and reads back
    as itself, whatever it holds. *)
Theorem template_literals (variable : option jstr) (text : jstr) :
  concat (map piece_text (template_pieces text)) = text ∧
  Forall piece_ok (template_pieces text) ∧
  ∀ s, Literal s ∈ template_pieces text →
    ∃ before after rest, template_source variable text = before ++ quote :: after ∧
      read_literal after = Some (s, rest).
Proof.
  destruct (scan_ok (length text) [] text) as [H1 H2]; [done|simpl; lia|].
  split; [done|]. split; [done|]. intros s (l1&l2&Hs)%list_elem_of_split.
  pose proof (scan_alternating (length text) [] text) as Ha. unfold template_source.
  assert (Hcase : (∃ c v, variable = Some (c :: v)) ∨
    ∀ A (x y : A), (if variable is Some (_ :: _) then x else y) = y).
  { destruct variable as [[|c v]|]; [by right|left; by exists c, v|by right]. }
  destruct Hcase as [(c&v&->)|Hbody].
  - destruct (literal_between _ (u ";" ++ line_feed ++ u "return __p;" ++ line_feed) Ha
      (u "var __t,__p='',__j=Array.prototype.join,print=function(){__p+=__j.call(arguments,'');};" ++
       line_feed ++ u "__p+=") _ _ _ Hs) as (b&a&Hba).
    exists b, (piece_source (Literal s) ++ quote :: a), a. split; [|apply read_escaped].
    rewrite <-Hba. unfold template_pieces. rewrite <-!app_assoc. done.
  - rewrite Hbody.
    destruct (literal_between _ (u ";" ++ line_feed ++ u "}" ++ line_feed ++ u "return __p;" ++ line_feed) Ha
      (u "var __t,__p='',__j=Array.prototype.join,print=function(){__p+=__j.call(arguments,'');};" ++
       line_feed ++ u "with(obj||{}){" ++ line_feed ++ u "__p+=") _ _ _ Hs) as (b&a&Hba).
    exists b, (piece_source (Literal s) ++ quote :: a), a. split; [|apply read_escaped].
    rewrite <-Hba. unfold template_pieces. rewrite <-!app_assoc. done.
Qed.

Example template_sample :
  template_pieces (u "hi <%- name %>!<%>%>") =
    [Literal (u "hi "); Tag Escape (u " name "); Literal (u "!"); Tag Evaluate (u ">"); Literal []].
Proof. reflexivity. Qed.
