(* ===== verification/Underscore.v ===== *)
(** * Collections and objects of the bundled underscore ([wordcut.js])

    One definition per function of the library, in the monad of [JsMonad]: a
    loop reads the collection in each iteration, after what its callback did
    to it in the ones before, over the length or the keys it had at first.
    The library's own callbacks are [Fn]; an optional argument that is absent
    is [Undef], and [arguments.length] is the length of a list.  An array that
    does not leave a function before it returns is a list until then. *)

From S2P Require Import Prelude JsString JsValue JsMonad.

#[local] Open Scope js_scope.

(** What a caller gives as a callback, or the library itself. *)
Inductive fn := Js (v : jsval) | Fn (f : callee).

Section underscore.
Variable e : engine.
Abbreviation rt := (e_runtime e).

Definition call_fn (f : fn) : callee :=
  match f with Js v => call_value e v | Fn f => f end.

(** ** Callbacks *)

(** [argCount] is [None] for more than 4. *)
Definition optimizeCb (func : fn) (context : jsval) (argCount : option nat) : callee :=
  match context with
  | Undef => call_fn func
  | _ =>
      match argCount with
      | Some n => λ _ args, call_fn func context (map (λ i, arg i args) (seq 0 n))
      | None => λ _ args, call_fn func context args
      end
  end.

(** [property(key)], on an object. *)
Definition property (key : jsval) (obj : jsval) : M jsval :=
  if nullish obj then ret Undef else js_get e obj (to_key e key).

Definition getLength (v : jsval) : M jsval := property (Str (u "length")) v.

Definition max_array_index : spec_float := num_of_Z (2 ^ 53 - 1).

(** The length of an array-like; [None] for what is not one. *)
Definition isArrayLike (v : jsval) : M (option nat) :=
  let* len := getLength v in
  match len with
  | Num x =>
      if SFleb (S754_zero false) x && SFleb x max_array_index then
        match Z_of_num x with Some z => ret (Some (Z.to_nat z)) | None => unmodelled end
      else ret None
  | _ => ret None
  end.

Definition _identity : callee := λ _ args, ret (arg 0 args).

(** ** Objects *)

Definition _isObject : jsval → bool := is_object.

Definition _keys (obj : jsval) : M (list jstr) :=
  asks (λ h, match obj with Ref l => keys h l | _ => [] end).

(** The keys of [for (key in obj)]. *)
Fixpoint chain_keys (h : heap) (fuel l : nat) : list jstr :=
  match fuel, h !! l with
  | S fuel, Some o =>
      let own := map fst (entries o) in
      own ++ List.filter (λ k, negb (bool_decide (k ∈ own)))
               match o_proto o with Some p => chain_keys h fuel p | None => [] end
  | _, _ => []
  end.
Definition _allKeys (obj : jsval) : M (list jstr) :=
  asks (λ h, match obj with Ref l => chain_keys h (S (length h)) l | _ => [] end).

Definition _has (h : heap) (obj : jsval) (k : jstr) : bool :=
  match obj with
  | Ref l => has_own h l k
  | Str s => bool_decide (k = u "length") || bool_decide (unit_at s k ≠ None)
  | _ => false
  end.

(** The values of [_.values], before they are an array. *)
Definition value_list (obj : jsval) : M (list jsval) :=
  let* ks := _keys obj in mapM (js_get e obj) ks.
Definition _values (obj : jsval) : M jsval :=
  let* xs := value_list obj in new_array e xs.

(** A loop over keys, for its effects. *)
Fixpoint for_each {A} (body : A → M unit) (l : list A) : M unit :=
  match l with
  | [] => ret tt
  | x :: l => let* _ := body x in for_each body l
  end.

Definition assign_key (undefinedOnly : bool) (obj source : jsval) (k : jstr) : M unit :=
  let* wanted := (if undefinedOnly
                  then let* old := js_get e obj k in ret (strict_eq old Undef)
                  else ret true) in
  if wanted : bool then let* x := js_get e source k in js_put e obj k x else ret tt.

(** [createAssigner]. *)
Definition assigner (keysFunc : jsval → M (list jstr)) (undefinedOnly : bool) (obj : jsval)
    (sources : list jsval) : M jsval :=
  if bool_decide (sources = []) || nullish obj then ret obj
  else
    let* _ := for_each (λ source,
                let* ks := keysFunc source in
                for_each (assign_key undefinedOnly obj source) ks) sources in
    ret obj.

Definition _extend := assigner _allKeys false.
Definition _extendOwn := assigner _keys false.
Definition _defaults := assigner _allKeys true.

Definition _clone (obj : jsval) : M jsval :=
  if negb (_isObject obj) then ret obj
  else
    let* arr := asks (λ h, is_array h obj) in
    if arr : bool then let* xs := asks (λ h, elems_of h obj) in new_array e xs
    else let* o := new_object e in _extend o [obj].

(** [baseCreate], where there is a native [Object.create]. *)
Definition baseCreate (prototype : jsval) : M jsval :=
  match prototype with
  | Ref p => alloc (set_proto (Some p) (empty_object e))
  | _ => new_object e
  end.
Definition _create (prototype props : jsval) : M jsval :=
  let* o := baseCreate prototype in
  if truthy props then _extendOwn o [props] else ret o.

(** Whether every key of [attrs] has the same value in [object]. *)
Fixpoint same_attrs (attrs object : jsval) (ks : list jstr) : M bool :=
  match ks with
  | [] => ret true
  | k :: ks =>
      let* x := js_get e attrs k in
      let* y := js_get e object k in
      let* there := asks (js_in e k object) in
      if negb (strict_eq x y) || negb there then ret false else same_attrs attrs object ks
  end.
Definition _isMatch (object attrs : jsval) : M bool :=
  let* ks := _keys attrs in
  if nullish object then ret (bool_decide (ks = [])) else same_attrs attrs object ks.

Definition _matcher (attrs : jsval) : M callee :=
  let* o := new_object e in
  let* attrs := _extendOwn o [attrs] in
  ret (λ _ args, let* b := _isMatch (arg 0 args) attrs in ret (Bool b)).

Definition cb (value : fn) (context : jsval) (argCount : option nat) : M callee :=
  match value with
  | Fn _ => ret (optimizeCb value context argCount)
  | Js v =>
      if nullish v then ret _identity
      else
        let* f := asks (λ h, is_function h v) in
        if f : bool then ret (optimizeCb value context argCount)
        else if _isObject v then _matcher v
        else ret (λ _ args, property v (arg 0 args))
  end.

(** [_.negate]. *)
Definition _negate (predicate : callee) : callee := λ this args,
  let* b := predicate this args in ret (Bool (negb (truthy b))).

(** ** Loops over collections *)

(** The keys of a loop: the indices of an array-like, or the names. *)
Definition indices (obj : jsval) : M (list jsval) :=
  let* len := isArrayLike obj in
  match len with
  | Some n => ret (map num (seq 0 n))
  | None => let* ks := _keys obj in ret (map Str ks)
  end.

(** [obj[currentKey]]. *)
Definition js_at (obj k : jsval) : M jsval := js_get e obj (to_key e k).

(** [f(obj[k], k, obj)]. *)
Definition visit (f : callee) (obj k : jsval) : M jsval :=
  let* x := js_at obj k in f Undef [x; k; obj].

(** The first key whose visit passes a test. *)
Fixpoint search (test : jsval → bool) (f : callee) (obj : jsval) (ks : list jsval)
    : M (option jsval) :=
  match ks with
  | [] => ret None
  | k :: ks =>
      let* b := visit f obj k in
      if test b then ret (Some k) else search test f obj ks
  end.

Definition _each (obj : jsval) (iteratee : fn) (context : jsval) : M jsval :=
  let* ks := indices obj in
  let* _ := for_each (λ k, let* _ := visit (optimizeCb iteratee context (Some 3)) obj k in
                           ret tt) ks in
  ret obj.

(** [Array(length)]: a length that does not fit is a RangeError. *)
Definition check_length (n : nat) : M unit :=
  if (Z.of_nat n <? 2 ^ 32)%Z then ret tt else throw RangeErr.

(** [_.map], before its result is an array. *)
Definition map_list (obj : jsval) (iteratee : fn) (context : jsval) : M (list jsval) :=
  let* f := cb iteratee context (Some 3) in
  let* ks := indices obj in
  let* _ := check_length (length ks) in
  mapM (visit f obj) ks.
Definition _map (obj : jsval) (iteratee : fn) (context : jsval) : M jsval :=
  let* xs := map_list obj iteratee context in new_array e xs.

(** [createReduce]: from the left, or from the right. *)
Fixpoint reduce_loop (f : callee) (obj memo : jsval) (ks : list jsval) : M jsval :=
  match ks with
  | [] => ret memo
  | k :: ks =>
      let* x := js_at obj k in
      let* memo := f Undef [memo; x; k; obj] in
      reduce_loop f obj memo ks
  end.
Definition reduce_from (right : bool) (obj : jsval) (iteratee : fn) (memo : option jsval)
    (context : jsval) : M jsval :=
  let f := optimizeCb iteratee context (Some 4) in
  let* len := isArrayLike obj in
  let* ks := indices obj in
  let ks := if right then reverse ks else ks in
  match memo with
  | Some memo => reduce_loop f obj memo ks
  | None =>
      match ks with
      | k :: ks => let* memo := js_at obj k in reduce_loop f obj memo ks
      | [] => js_at obj (match len with
                         | Some _ => if right then Num (num_of_Z (-1)) else num 0
                         | None => Undef end)
      end
  end.
Definition _reduce := reduce_from false.
Definition _reduceRight := reduce_from true.

(** [_.filter], before its result is an array. *)
Fixpoint filter_loop (f : callee) (obj : jsval) (ks : list jsval) : M (list jsval) :=
  match ks with
  | [] => ret []
  | k :: ks =>
      let* x := js_at obj k in
      let* b := f Undef [x; k; obj] in
      let* xs := filter_loop f obj ks in
      ret (if truthy b then x :: xs else xs)
  end.
Definition filter_list (obj : jsval) (predicate : fn) (context : jsval) : M (list jsval) :=
  let* f := cb predicate context (Some 3) in
  let* ks := indices obj in
  filter_loop f obj ks.
Definition _filter (obj : jsval) (predicate : fn) (context : jsval) : M jsval :=
  let* xs := filter_list obj predicate context in new_array e xs.
Definition _reject (obj : jsval) (predicate : fn) (context : jsval) : M jsval :=
  let* f := cb predicate Undef (Some 3) in
  _filter obj (Fn (_negate f)) context.

Definition _every (obj : jsval) (predicate : fn) (context : jsval) : M bool :=
  let* f := cb predicate context (Some 3) in
  let* ks := indices obj in
  let* found := search (λ b, negb (truthy b)) f obj ks in
  ret (bool_decide (found = None)).
Definition _some (obj : jsval) (predicate : fn) (context : jsval) : M bool :=
  let* f := cb predicate context (Some 3) in
  let* ks := indices obj in
  let* found := search truthy f obj ks in
  ret (bool_decide (found ≠ None)).

(** The length of what is taken for an array; what has none has no elements. *)
Definition array_length (array : jsval) : M nat :=
  let* len := getLength array in
  let n := to_number rt (to_primitive rt len) in
  if is_nan n then ret 0
  else match Z_of_num n with
       | Some z => if (0 <=? z)%Z then ret (Z.to_nat z) else unmodelled
       | None => unmodelled
       end.

(** [createPredicateIndexFinder]. *)
Definition find_index_from (right : bool) (array : jsval) (predicate : fn) (context : jsval)
    : M (option jsval) :=
  let* f := cb predicate context (Some 3) in
  let* n := array_length array in
  let ks := map num (seq 0 n) in
  search truthy f array (if right then reverse ks else ks).
Definition minus_one : jsval := Num (num_of_Z (-1)).
Definition _findIndex (array : jsval) (predicate : fn) (context : jsval) : M jsval :=
  let* k := find_index_from false array predicate context in ret (default minus_one k).
Definition _findLastIndex (array : jsval) (predicate : fn) (context : jsval) : M jsval :=
  let* k := find_index_from true array predicate context in ret (default minus_one k).

Definition find_key_of (obj : jsval) (predicate : fn) (context : jsval) : M (option jsval) :=
  let* f := cb predicate context (Some 3) in
  let* ks := _keys obj in
  search truthy f obj (map Str ks).
Definition _findKey (obj : jsval) (predicate : fn) (context : jsval) : M jsval :=
  let* k := find_key_of obj predicate context in ret (default Undef k).

Definition _find (obj : jsval) (predicate : fn) (context : jsval) : M jsval :=
  let* len := isArrayLike obj in
  let* key := match len with
              | Some _ => find_index_from false obj predicate context
              | None => find_key_of obj predicate context
              end in
  match key with Some k => js_at obj k | None => ret Undef end.

(** ** Looking for a value *)

(** [_.isNaN]; a wrapper object differs from its number. *)
Definition _isNaN (h : heap) (v : jsval) : bool :=
  bool_decide (class_of h v = "Number") && match v with Num n => is_nan n | _ => true end.

(** Whether [createIndexFinder] takes an element for the item. *)
Definition found_as (h : heap) (item x : jsval) : bool :=
  if strict_eq item item then strict_eq x item else _isNaN h x.

(** [obj] as [_.contains] and others read it: its elements, or its values. *)
Definition elements (v : jsval) (n : nat) : M (list jsval) :=
  mapM (js_at v) (map num (seq 0 n)).
Definition list_of (obj : jsval) : M (list jsval) :=
  let* len := isArrayLike obj in
  match len with Some n => elements obj n | None => value_list obj end.

(** [slice.call(v, s, e)]. *)
Definition clamp (n i : Z) : nat := Z.to_nat (if (i <? 0)%Z then Z.max (n + i) 0 else Z.min i n).
Definition js_slice (v : jsval) (s t : Z) : M (list jsval) :=
  if nullish v then throw TypeErr
  else
    let* n := array_length v in
    let* xs := elements v n in
    ret (let a := clamp (Z.of_nat n) s in take (clamp (Z.of_nat n) t - a) (drop a xs)).

(** The last index of a list with a property. *)
Definition find_last {A} (P : A → bool) (l : list A) : option nat :=
  (λ p, length l - 1 - p.1) <$> list_find (λ x, P x) (reverse l).
Definition find_first {A} (P : A → bool) (l : list A) : option nat :=
  fst <$> list_find (λ x, P x) l.
Definition find_index_in {A} (right : bool) : (A → bool) → list A → option nat :=
  if right then find_last else find_first.

(** A whole number that is an argument. *)
Definition whole (v : jsval) : M Z :=
  match v with
  | Num x => match Z_of_num x with Some z => ret z | None => unmodelled end
  | _ => unmodelled
  end.

Definition is_num (v : jsval) : bool := match v with Num _ => true | _ => false end.

(** [createIndexFinder] from [i] to [length], at first or at last. *)
Definition find_between (right : bool) (array item : jsval) (i length_ : Z) : M jsval :=
  let answer (k : option nat) :=
    ret (match k with Some k => Num (num_of_Z (Z.of_nat k + i)) | None => minus_one end) in
  if negb (strict_eq item item) then
    let* xs := js_slice array i length_ in
    let* k := asks (λ h, find_index_in right (_isNaN h) xs) in answer k
  else
    let* xs := elements array (Z.to_nat length_) in
    answer (find_index_in right (λ x, strict_eq x item) (drop (Z.to_nat i) xs)).

(** The binary search of [_.sortedIndex]; the interval halves. *)
Fixpoint search_sorted (fuel : nat) (f : callee) (array value : jsval) (low high : nat)
    : M nat :=
  match fuel with
  | 0 => unmodelled
  | S fuel =>
      if low <? high then
        let mid := (low + high) / 2 in
        let* x := js_at array (num mid) in
        let* c := f Undef [x] in
        if js_lt rt c value then search_sorted fuel f array value (mid + 1) high
        else search_sorted fuel f array value low mid
      else ret low
  end.
Definition _sortedIndex (array obj : jsval) (iteratee : fn) (context : jsval) : M nat :=
  let* f := cb iteratee context (Some 1) in
  let* value := f Undef [obj] in
  let* high := array_length array in
  search_sorted (S high) f array value 0 high.

Definition _indexOf (array item idx : jsval) : M jsval :=
  let* n := array_length array in
  let n := Z.of_nat n in
  if is_num idx then
    let* idx := whole idx in
    find_between false array item (if (0 <=? idx)%Z then idx else Z.max (idx + n) 0) n
  else if truthy idx && negb (n =? 0)%Z then
    let* k := _sortedIndex array item (Js Undef) Undef in
    let* x := js_at array (num k) in
    ret (if strict_eq x item then num k else minus_one)
  else find_between false array item 0 n.
Definition _lastIndexOf (array item idx : jsval) : M jsval :=
  let* n := array_length array in
  let n := Z.of_nat n in
  if is_num idx then
    let* idx := whole idx in
    find_between true array item 0
      (if (0 <=? idx)%Z then Z.min (idx + 1) n else idx + n + 1)%Z
  else find_between true array item 0 n.

(** Whether a list the library has made contains an item. *)
Definition list_contains (h : heap) (xs : list jsval) (item : jsval) : bool :=
  existsb (found_as h item) xs.
Definition _contains (obj item fromIndex guard : jsval) : M bool :=
  let* xs := list_of obj in
  let* from := (if negb (is_num fromIndex) || truthy guard then ret 0%Z else whole fromIndex) in
  let n := Z.of_nat (length xs) in
  let i := Z.to_nat (if (0 <=? from)%Z then from else Z.max (from + n) 0) in
  asks (λ h, list_contains h (drop i xs) item).
End underscore.
