(* ===== verification/UnderscoreArrays.v ===== *)
(** * Arrays, sorting and grouping of the bundled underscore ([wordcut.js])

    The rest of the functions over collections, and those over arrays.  The
    values of [Math.random] are an argument: a function of the call's number.
    [Array.prototype.sort] is a parameter. *)

From S2P Require Import Prelude JsString JsValue JsMonad Underscore.

#[local] Open Scope js_scope.

(** [Array.prototype.sort] as ECMAScript 5.1 has it (15.4.4.11): the result has
    the elements of the list, and when the comparison is consistent on them, in
    its order; where it puts elements that compare as equal is left open. *)
Class ArraySort := array_sort : ∀ {A : Type}, (A → A → comparison) → list A → list A.

Definition consistent {A} (compare : A → A → comparison) (l : list A) : Prop :=
  (∀ x, x ∈ l → compare x x = Eq) ∧
  (∀ x y, x ∈ l → y ∈ l → compare y x = CompOpp (compare x y)) ∧
  (∀ x y z, x ∈ l → y ∈ l → z ∈ l → compare x y ≠ Gt → compare y z ≠ Gt → compare x z ≠ Gt).

Class ArraySortLaws `{ArraySort} : Prop := {
  array_sort_perm {A} (compare : A → A → comparison) l : array_sort compare l ≡ₚ l;
  array_sort_sorted {A} (compare : A → A → comparison) l :
    consistent compare l → StronglySorted (λ x y, compare x y ≠ Gt) (array_sort compare l) }.
Arguments ArraySortLaws : clear implicits.
Arguments ArraySortLaws {_}.

(** Insertion sort is one. *)
Section sort.
Context {A : Type} (compare : A → A → comparison).
Fixpoint insert_before (x : A) (l : list A) : list A :=
  match l with
  | [] => [x]
  | y :: l => match compare x y with Gt => y :: insert_before x l | _ => x :: y :: l end
  end.
Definition stable_sort (l : list A) : list A := foldr insert_before [] l.

Lemma insert_before_perm x l : insert_before x l ≡ₚ x :: l.
Proof.
  induction l as [|y l IH]; [done|]. simpl. destruct (compare x y); [done|done|].
  rewrite IH. apply Permutation_swap.
Qed.
Lemma stable_sort_perm l : stable_sort l ≡ₚ l.
Proof. induction l as [|x l IH]; [done|]. simpl. by rewrite insert_before_perm, IH. Qed.

Lemma consistent_sub l l' : (∀ x, x ∈ l' → x ∈ l) → consistent compare l → consistent compare l'.
Proof. intros Hl (H1&H2&H3). split_and!; eauto 10. Qed.

Lemma insert_before_sorted x l :
  consistent compare (x :: l) → StronglySorted (λ x y, compare x y ≠ Gt) l →
  StronglySorted (λ x y, compare x y ≠ Gt) (insert_before x l).
Proof.
  intros Hc Hl. induction Hl as [|y l Hl IH Hy]; [repeat constructor|]. simpl.
  assert (Hin : ∀ z, z ∈ x :: l → z ∈ x :: y :: l).
  { intros z [->|Hz]%elem_of_cons; [by left|by right; right]. }
  destruct Hc as (H1&H2&H3).
  assert (Hxy : x ∈ x :: y :: l ∧ y ∈ x :: y :: l) by (split; [by left|by right; left]).
  assert (Hfront : compare x y ≠ Gt → StronglySorted (λ x y, compare x y ≠ Gt) (x :: y :: l)).
  { intros Hlt. constructor; [by constructor|]. constructor; [done|].
    rewrite Forall_forall in *. intros z Hz.
    apply (H3 x y z); [apply Hxy|apply Hxy|by right; right|done|by apply Hy]. }
  destruct (compare x y) eqn:Hcmp; [by apply Hfront..|].
  constructor; [apply IH; by apply (consistent_sub (x :: y :: l)); [|split_and!]|].
  rewrite insert_before_perm. constructor; [|done].
  rewrite (H2 x y), Hcmp by apply Hxy. done.
Qed.
Lemma stable_sort_sorted l :
  consistent compare l → StronglySorted (λ x y, compare x y ≠ Gt) (stable_sort l).
Proof.
  induction l as [|x l IH]; intros Hc; [constructor|]. simpl. apply insert_before_sorted.
  - eapply consistent_sub; [|exact Hc]. intros y. by rewrite stable_sort_perm.
  - apply IH. eapply consistent_sub; [|exact Hc]. by right.
Qed.
End sort.

Definition insertion_sort : ArraySort := @stable_sort.
Lemma insertion_sort_laws : @ArraySortLaws insertion_sort.
Proof. split; intros A compare l; [apply stable_sort_perm|apply stable_sort_sorted]. Qed.

Section arrays.
Variable e : engine.
Abbreviation rt := (e_runtime e).
Abbreviation _cb := (cb e).

(** ** Collections *)

Definition _invoke (obj method : jsval) (args : list jsval) : M jsval :=
  let* isFunc := asks (λ h, is_function h method) in
  _map e obj (Fn (λ _ a,
    let value := arg 0 a in
    let* func := (if isFunc : bool then ret method else js_get e value (to_key e method)) in
    if nullish func then ret func else call_value e func value args)) Undef.

Definition _pluck (obj key : jsval) : M jsval :=
  _map e obj (Fn (λ _ a, property e key (arg 0 a))) Undef.
Definition _where (obj attrs : jsval) : M jsval :=
  let* f := _matcher e attrs in _filter e obj (Fn f) Undef.
Definition _findWhere (obj attrs : jsval) : M jsval :=
  let* f := _matcher e attrs in _find e obj (Fn f) Undef.

Definition infinity (negative : bool) : jsval := Num (S754_infinity negative).

(** [_.max] and [_.min]: [first] is the value they start from, and [before] the
    order in which a later value replaces the result. *)
Section extreme.
Variable first : jsval.
Variable before : jsval → jsval → bool.

Definition extreme_value (xs : list jsval) : jsval :=
  fold_left (λ r x, if before r x then x else r) xs first.

Fixpoint extreme_loop (f : callee) (obj result lastComputed : jsval) (ks : list jsval)
    : M jsval :=
  match ks with
  | [] => ret result
  | k :: ks =>
      let* x := js_at e obj k in
      let* computed := f Undef [x; k; obj] in
      if before lastComputed computed || strict_eq computed first && strict_eq result first
      then extreme_loop f obj x computed ks
      else extreme_loop f obj result lastComputed ks
  end.

Definition extreme (obj : jsval) (iteratee : fn) (context : jsval) : M jsval :=
  match iteratee with
  | Js (Undef | Null) =>
      if nullish obj then ret first
      else let* xs := list_of e obj in ret (extreme_value xs)
  | _ =>
      let* f := _cb iteratee context (Some 3) in
      let* ks := indices e obj in
      extreme_loop f obj first first ks
  end.
End extreme.
Definition _max := extreme (infinity true) (λ r x, js_lt rt r x).
Definition _min := extreme (infinity false) (λ r x, js_lt rt x r).

(** [Math.floor] and [Math.ceil]. *)
Definition SFfloor (x : spec_float) : spec_float :=
  match x with
  | S754_finite s m ex =>
      if (0 <=? ex)%Z then x
      else num_of_Z ((if s then Z.neg m else Z.pos m) / 2 ^ (- ex))
  | _ => x
  end.
Definition SFceil (x : spec_float) : spec_float := SFopp (SFfloor (SFopp x)).

(** [_.random(min, max)], when [Math.random()] is [r]. *)
Definition _random (min max r : spec_float) : spec_float :=
  SFadd 53 1024 min
    (SFfloor (SFmul 53 1024 r (SFadd 53 1024 (SFsub 53 1024 max min) (num_of_Z 1)))).

(** One step of [_.shuffle], which draws the place of an element. *)
Definition place {A} (shuffled : list A) (index rand : nat) (x : A) : list A :=
  match shuffled !! rand with
  | Some y => <[rand := x]> (<[index := y]> shuffled)
  | None => shuffled
  end.

(** The array in the making has holes at the end; [rand] is at most [index]. *)
Fixpoint shuffle_loop {A} (draw : nat → option nat) (set : list A) (index : nat)
    (shuffled : list A) : option (list A) :=
  match set with
  | [] => Some shuffled
  | x :: set =>
      match draw index with
      | Some rand => shuffle_loop draw set (S index) (place (shuffled ++ [x]) index rand x)
      | None => None
      end
  end.
Definition drawn (random : nat → spec_float) (index : nat) : option nat :=
  Z.to_nat <$> Z_of_num (_random (num_of_Z 0) (num_of_Z (Z.of_nat index)) (random index)).
Definition shuffle_list (random : nat → spec_float) (obj : jsval) : M (list jsval) :=
  let* set := list_of e obj in
  let* _ := check_length (length set) in
  match shuffle_loop (drawn random) set 0 [] with Some xs => ret xs | None => unmodelled end.
Definition _shuffle (random : nat → spec_float) (obj : jsval) : M jsval :=
  let* xs := shuffle_list random obj in new_array e xs.

Definition _sample (random : nat → spec_float) (obj n guard : jsval) : M jsval :=
  if nullish n || truthy guard then
    let* xs := list_of e obj in
    let* k := whole (Num (_random (num_of_Z 0) (num_of_Z (Z.of_nat (length xs) - 1)) (random 0))) in
    ret (if (k <? 0)%Z then Undef else arg (Z.to_nat k) xs)
  else
    let* xs := shuffle_list random obj in
    let* n := whole n in
    new_array e (take (Z.to_nat n) xs).

(** The objects that [_.sortBy] sorts. *)
Record ranked := { r_value : jsval; r_index : jsval; r_criteria : jsval }.

(** The comparison of [_.sortBy]; the sign of a difference of indices is their
    comparison, and 0 when one is not a number. *)
Definition compare_ranked (left right : ranked) : comparison :=
  let a := r_criteria left in
  let b := r_criteria right in
  let indices :=
    default Eq (SFcompare (to_number rt (r_index left)) (to_number rt (r_index right))) in
  if strict_eq a b then indices
  else if js_lt rt b a || strict_eq a Undef then Gt
  else if js_lt rt a b || strict_eq b Undef then Lt
  else indices.

Definition rank (f : callee) (obj k : jsval) : M ranked :=
  let* x := js_at e obj k in
  let* c := f Undef [x; k; obj] in
  ret {| r_value := x; r_index := k; r_criteria := c |}.
Definition _sortBy `{ArraySort} (obj : jsval) (iteratee : fn) (context : jsval) : M jsval :=
  let* f := _cb iteratee context (Some 3) in
  let* ks := indices e obj in
  let* _ := check_length (length ks) in
  let* l := mapM (rank f obj) ks in
  new_array e (map r_value (array_sort compare_ranked l)).

(** [group(behavior)]. *)
Definition group (behavior : jsval → jsval → jsval → M unit) (obj : jsval) (iteratee : fn)
    (context : jsval) : M jsval :=
  let* result := new_object e in
  let* f := _cb iteratee context (Some 3) in
  let* ks := indices e obj in
  let* _ := for_each (λ k, let* x := js_at e obj k in
                           let* key := f Undef [x; k; obj] in
                           behavior result x key) ks in
  ret result.
Definition has_key (result key : jsval) : M bool :=
  asks (λ h, _has h result (to_key e key)).
Definition _groupBy := group (λ result value key,
  let* there := has_key result key in
  if there : bool then let* a := js_get e result (to_key e key) in js_push a value
  else let* a := new_array e [value] in js_put e result (to_key e key) a).
Definition _indexBy := group (λ result value key, js_put e result (to_key e key) value).
Definition _countBy := group (λ result value key,
  let* there := has_key result key in
  if there : bool then
    let* n := js_get e result (to_key e key) in
    js_put e result (to_key e key) (Num (SFadd 53 1024 (to_number rt n) (num_of_Z 1)))
  else js_put e result (to_key e key) (num 1)).

Definition _toArray (obj : jsval) : M jsval :=
  if negb (truthy obj) then new_array e []
  else
    let* arr := asks (λ h, is_array h obj) in
    if arr : bool then let* xs := asks (λ h, elems_of h obj) in new_array e xs
    else
      let* len := isArrayLike e obj in
      match len with
      | Some _ => _map e obj (Fn _identity) Undef
      | None => _values e obj
      end.

Definition _size (obj : jsval) : M nat :=
  if nullish obj then ret 0
  else
    let* len := isArrayLike e obj in
    match len with
    | Some n => ret n
    | None => let* ks := _keys obj in ret (length ks)
    end.

Fixpoint partition_loop (f : callee) (obj : jsval) (ks : list jsval)
    : M (list jsval * list jsval) :=
  match ks with
  | [] => ret ([], [])
  | k :: ks =>
      let* x := js_at e obj k in
      let* b := f Undef [x; k; obj] in
      let* r := partition_loop f obj ks in
      ret (if truthy b then (x :: r.1, r.2) else (r.1, x :: r.2))
  end.
Definition _partition (obj : jsval) (predicate : fn) (context : jsval) : M jsval :=
  let* f := _cb predicate context (Some 3) in
  let* ks := indices e obj in
  let* r := partition_loop f obj ks in
  let* pass := new_array e r.1 in
  let* fail := new_array e r.2 in
  new_array e [pass; fail].

(** ** Arrays *)

(** [n == null || guard]. *)
Definition by_default (n guard : jsval) : bool := nullish n || truthy guard.

(** [array.length], where null is a TypeError. *)
Definition own_length (array : jsval) : M Z :=
  if nullish array then throw TypeErr
  else let* n := array_length e array in ret (Z.of_nat n).
Definition slice_array (array : jsval) (s t : Z) : M jsval :=
  let* xs := js_slice e array s t in new_array e xs.

Definition initial_but (array : jsval) (n : Z) : M jsval :=
  let* len := own_length array in slice_array array 0 (Z.max 0 (len - n)).
Definition _initial (array n guard : jsval) : M jsval :=
  let* n := (if by_default n guard then ret 1%Z else whole n) in initial_but array n.
Definition _first (array n guard : jsval) : M jsval :=
  if nullish array then ret Undef
  else if by_default n guard then js_at e array (num 0)
  else let* n := whole n in
       let* len := own_length array in initial_but array (len - n).

Definition rest_from (array : jsval) (n : Z) : M jsval :=
  if nullish array then throw TypeErr
  else let* len := own_length array in slice_array array n len.
Definition _rest (array n guard : jsval) : M jsval :=
  let* n := (if by_default n guard then ret 1%Z else whole n) in rest_from array n.
Definition _last (array n guard : jsval) : M jsval :=
  if nullish array then ret Undef
  else
    let* len := own_length array in
    if by_default n guard then js_at e array (Num (num_of_Z (len - 1)))
    else let* n := whole n in rest_from array (Z.max 0 (len - n)).

Definition _compact (array : jsval) : M jsval := _filter e array (Fn _identity) Undef.

(** [flatten]: the fuel is the depth, and [None] a nesting without end. *)
Fixpoint flatten (h : heap) (fuel : nat) (shallow strict : bool) (input : list jsval)
    : option (list jsval) :=
  match fuel with
  | 0 => None
  | S fuel =>
      (λ parts, concat parts) <$> mapM (λ value,
        if is_array h value || is_arguments h value then
          if shallow then Some (elems_of h value)
          else flatten h fuel shallow strict (elems_of h value)
        else Some (if strict then [] else [value])) input
  end.
Definition flatten_list (fuel : nat) (shallow strict : bool) (input : list jsval)
    : M (list jsval) :=
  let* r := asks (λ h, flatten h fuel shallow strict input) in
  match r with Some xs => ret xs | None => unmodelled end.
Definition _flatten (fuel : nat) (array shallow : jsval) : M jsval :=
  let* n := array_length e array in
  let* xs := elements e array n in
  let* ys := flatten_list fuel (truthy shallow) false xs in new_array e ys.

(** [_.uniq] of a list, with [iteratee], if any, already made by [cb]. *)
Fixpoint uniq_loop (array : jsval) (isSorted : bool) (f : option callee) (i : nat)
    (last : option jsval) (seen result : list jsval) (ks : list jsval) : M (list jsval) :=
  match ks with
  | [] => ret result
  | k :: ks =>
      let* value := js_at e array k in
      let* computed := match f with Some f => f Undef [value; k; array] | None => ret value end in
      if isSorted then
        let new := (i =? 0) || negb (match last with Some s => strict_eq s computed | None => false end) in
        uniq_loop array isSorted f (S i) (Some computed) seen
          (if new then result ++ [value] else result) ks
      else
        let* there := asks (λ h, list_contains h seen computed) in
        if there : bool then uniq_loop array isSorted f (S i) last seen result ks
        else uniq_loop array isSorted f (S i) last (seen ++ [computed]) (result ++ [value]) ks
  end.
Definition _isBoolean (h : heap) (v : jsval) : bool := bool_decide (class_of h v = "Boolean").
Definition uniq_list (array : jsval) (isSorted : bool) (iteratee context : jsval)
    : M (list jsval) :=
  let* f := (if nullish iteratee then ret None
             else let* f := _cb (Js iteratee) context (Some 3) in ret (Some f)) in
  let* n := array_length e array in
  uniq_loop array isSorted f 0 None [] [] (map num (seq 0 n)).
Definition _uniq (array isSorted iteratee context : jsval) : M jsval :=
  let* flag := asks (λ h, _isBoolean h isSorted) in
  let* xs := (if flag : bool then uniq_list array (truthy isSorted) iteratee context
              else uniq_list array false isSorted iteratee) in
  new_array e xs.

(** [_.uniq] of a list that no one else sees. *)
Definition unique (h : heap) (xs : list jsval) : list jsval :=
  fold_left (λ result x, if list_contains h result x then result else result ++ [x]) xs [].
Definition _union (arrays : list jsval) : M jsval :=
  let* xs := flatten_list 1 true true arrays in
  let* ys := asks (λ h, unique h xs) in new_array e ys.

(** [_.contains(array, item)]. *)
Definition contains_item (array item : jsval) : M bool := _contains e array item Undef Undef.
Fixpoint in_all (item : jsval) (arrays : list jsval) : M bool :=
  match arrays with
  | [] => ret true
  | a :: arrays =>
      let* b := contains_item a item in if b : bool then in_all item arrays else ret false
  end.
Fixpoint intersection_loop (array : jsval) (others : list jsval) (result ks : list jsval)
    : M (list jsval) :=
  match ks with
  | [] => ret result
  | k :: ks =>
      let* item := js_at e array k in
      let* there := asks (λ h, list_contains h result item) in
      if there : bool then intersection_loop array others result ks
      else
        let* b := in_all item others in
        intersection_loop array others (if b : bool then result ++ [item] else result) ks
  end.
Definition _intersection (array : jsval) (others : list jsval) : M jsval :=
  let* n := array_length e array in
  let* xs := intersection_loop array others [] (map num (seq 0 n)) in new_array e xs.

Definition _difference (array : jsval) (others : list jsval) : M jsval :=
  let* rest := flatten_list 1 true true others in
  _filter e array (Fn (λ _ args,
    asks (λ h, Bool (negb (list_contains h rest (arg 0 args)))))) Undef.
Definition _without (array : jsval) (items : list jsval) : M jsval :=
  let* a := new_array e items in _difference array [a].

(** [array && _.max(array, getLength).length || 0]. *)
Definition _unzip (array : jsval) : M jsval :=
  let* length_ :=
    (if truthy array then
       let* m := _max array (Fn (λ _ a, getLength e (arg 0 a))) Undef in
       let* n := js_get e m (u "length") in
       if truthy n then whole n else ret 0%Z
     else ret 0%Z) in
  let* _ := check_length (Z.to_nat length_) in
  let* rows := mapM (λ i, _pluck array (num i)) (seq 0 (Z.to_nat length_)) in
  new_array e rows.
Definition _zip (arrays : list jsval) : M jsval :=
  let* a := new_array e arrays in _unzip a.

Definition _object (list values : jsval) : M jsval :=
  let* result := new_object e in
  let* n := array_length e list in
  let* _ := for_each (λ i,
    if truthy values then
      let* k := js_at e list i in
      let* x := js_at e values i in js_put e result (to_key e k) x
    else
      let* entry := js_at e list i in
      let* k := js_at e entry (num 0) in
      let* x := js_at e entry (num 1) in js_put e result (to_key e k) x) (map num (seq 0 n)) in
  ret result.

(** [_.range], on numbers. *)
Fixpoint progression (n : nat) (start step : spec_float) : list jsval :=
  match n with
  | 0 => []
  | S n => Num start :: progression n (SFadd 53 1024 start step) step
  end.
Definition number_arg (v : jsval) : M spec_float :=
  match v with Num x => ret x | _ => unmodelled end.
Definition _range (start stop step : jsval) : M jsval :=
  let* bounds :=
    (if nullish stop then
       let* b := (if truthy start then number_arg start else ret (num_of_Z 0)) in
       ret (num_of_Z 0, b)
     else let* a := number_arg start in let* b := number_arg stop in ret (a, b)) in
  let* step := (if truthy step then number_arg step else ret (num_of_Z 1)) in
  let size := SFceil (SFdiv 53 1024 (SFsub 53 1024 bounds.2 bounds.1) step) in
  match Z_of_num size with
  | Some n =>
      let* _ := check_length (Z.to_nat n) in
      new_array e (progression (Z.to_nat n) bounds.1 step)
  | None =>
      if SFltb size (num_of_Z 0) then new_array e [] else throw RangeErr
  end.
End arrays.
