(* ===== verification/UnderscoreFacts.v ===== *)
(** * Collections, arrays and objects: what the theorems say

    An array of the heap is related to the list of its elements ([is_arr]); a
    callback that only computes is related to a function ([quiet]).  The loops
    of the library are then the functions on lists of the same name. *)

From S2P Require Import Prelude JsString JsValue Numbers JsMonad BraceExpansion.
From S2P Require Import Underscore UnderscoreArrays.

#[local] Open Scope js_scope.

(** ** Programs that give a value and leave the heap *)

Definition gives {A} (h : heap) (m : M A) (a : A) : Prop := m h = Some (inl a, h).

Lemma gives_ret {A} h (a : A) : gives h (ret a) a.
Proof. done. Qed.
Lemma gives_ret_eq {A} h (a b : A) : a = b → gives h (ret a) b.
Proof. by intros ->. Qed.
Lemma gives_asks {A} h (f : heap → A) : gives h (asks f) (f h).
Proof. done. Qed.
Lemma bind_runs {A B} h h' (m : M A) (f : A → M B) a :
  m h = Some (inl a, h') → mbind f m h = f a h'.
Proof. unfold mbind, M_bind. by intros ->. Qed.
Lemma bind_gives {A B} h (m : M A) (f : A → M B) a :
  gives h m a → mbind f m h = f a h.
Proof. unfold gives, mbind, M_bind. by intros ->. Qed.
Lemma gives_bind {A B} h (m : M A) (f : A → M B) a b :
  gives h m a → gives h (f a) b → gives h (mbind f m) b.
Proof. intros Ha Hb. unfold gives. by rewrite (bind_gives _ _ _ _ Ha). Qed.

Lemma gives_mapM {A B} h (f : A → M B) (l : list A) (g : A → B) :
  (∀ x, x ∈ l → gives h (f x) (g x)) → gives h (mapM f l) (map g l).
Proof.
  induction l as [|x l IH]; intros Hf; [done|].
  apply (gives_bind _ _ _ (g x)); [apply Hf; by left|].
  apply (gives_bind _ _ _ (map g l)); [|done]. apply IH. intros y Hy. apply Hf. by right.
Qed.

#[export] Hint Resolve gives_ret gives_asks : syncer.

Lemma index_key_inj i j : index_key i = index_key j → i = j.
Proof.
  unfold index_key. intros H. apply (f_equal numeric) in H. rewrite !numeric_string_of_Z in H. lia.
Qed.

Lemma index_key_digits i c : c ∈ index_key i → is_digit_unit c = true.
Proof.
  unfold index_key. destruct (string_of_Z_digits (Z.of_nat i)) as (d&->&_&Hall&_).
  rewrite (proj2 (Z.ltb_ge _ _)) by lia. rewrite Forall_forall in Hall. apply Hall.
Qed.

Lemma assoc_index_keys xs ps i x :
  xs !! i = Some x → assoc (index_key i) (zip (map index_key (seq 0 (length xs))) xs ++ ps) = Some x.
Proof.
  assert (∀ n, xs !! i = Some x →
    assoc (index_key (n + i)) (zip (map index_key (seq n (length xs))) xs ++ ps) = Some x) as H.
  { revert i. induction xs as [|y xs IH]; intros i n Hi; [done|]. simpl.
    destruct i as [|i]; simplify_eq/=.
    - rewrite Nat.add_0_r. by rewrite bool_decide_eq_true_2.
    - rewrite bool_decide_eq_false_2 by (intros ?%index_key_inj; lia).
      rewrite <-Nat.add_succ_comm. by apply IH. }
  apply (H 0).
Qed.

(** ** Arrays of the heap *)

Section arrays_of.
Variable e : engine.

(** The array at a location; its properties with names do not include its length. *)
Record is_arr (h : heap) (a : jsval) (xs : list jsval) : Prop := {
  arr_object : ∃ l o, a = Ref l ∧ h !! l = Some o ∧ o_class o = "Array" ∧ o_elems o = xs ∧
                      assoc (u "length") (o_props o) = None;
  arr_length : (Z.of_nat (length xs) < 2 ^ 32)%Z }.

Lemma arr_small h a xs i : is_arr h a xs → i ≤ length xs → (0 ≤ Z.of_nat i < 2 ^ 53)%Z.
Proof. intros [_ H] Hi. lia. Qed.

Lemma to_key_num i : (Z.of_nat i < 2 ^ 53)%Z → to_key e (num i) = index_key i.
Proof.
  intros H. unfold num, to_key. rewrite Z_of_num_of_Z by lia.
  by rewrite (proj2 (Z.ltb_lt _ _)) by lia.
Qed.

Lemma get_chain_own h l o k x :
  h !! l = Some o → own_get o k = Some x → get_chain h (S (length h)) l k = Some x.
Proof. intros Hl Hk. simpl. by rewrite Hl, Hk. Qed.

Lemma arr_find h a xs i x :
  is_arr h a xs → xs !! i = Some x → find_key e h a (index_key i) = Some x.
Proof.
  intros [(l&o&->&Hl&Hc&<-&Hp) _] Hi. unfold find_key. erewrite get_chain_own; [done|done|].
  unfold own_get, entries. by erewrite assoc_index_keys.
Qed.

Lemma assoc_index_keys_None xs k n :
  (∀ i, k ≠ index_key i) → assoc k (zip (map index_key (seq n (length xs))) xs) = None.
Proof.
  intros Hk. revert n. induction xs as [|x xs IH]; intros n; [done|]. simpl.
  rewrite bool_decide_eq_false_2 by (intros <-; by eapply Hk). apply IH.
Qed.

Lemma assoc_app k l1 l2 :
  assoc k (l1 ++ l2) = match assoc k l1 with Some v => Some v | None => assoc k l2 end.
Proof. induction l1 as [|[k' v] l1 IH]; [done|]. simpl. by case_bool_decide. Qed.

Lemma length_not_index i : u "length" ≠ index_key i.
Proof.
  intros H. assert (Hd : is_digit_unit 108 = true); [|done].
  apply (index_key_digits i). rewrite <-H. by left.
Qed.

Lemma arr_find_length h a xs :
  is_arr h a xs → find_key e h a (u "length") = Some (num (length xs)).
Proof.
  intros [(l&o&->&Hl&Hc&<-&Hp) _]. unfold find_key. erewrite get_chain_own; [done|done|].
  unfold own_get, entries. rewrite assoc_app, assoc_index_keys_None, Hp by (intros; apply length_not_index).
  rewrite bool_decide_eq_true_2, Hc by done. done.
Qed.

Lemma arr_object_value h a xs : is_arr h a xs → nullish a = false.
Proof. by intros [(l&o&->&_) _]. Qed.

Lemma js_at_arr h a xs i x :
  is_arr h a xs → xs !! i = Some x → gives h (js_at e a (num i)) x.
Proof.
  intros Ha Hi. pose proof (lookup_lt_Some _ _ _ Hi). pose proof (arr_small _ _ _ i Ha).
  unfold js_at, js_get, gives. rewrite (arr_object_value _ _ _ Ha), to_key_num by lia.
  unfold asks. by erewrite arr_find.
Qed.

Lemma getLength_arr h a xs : is_arr h a xs → gives h (getLength e a) (num (length xs)).
Proof.
  intros Ha. unfold getLength, property, js_get, gives. rewrite (arr_object_value _ _ _ Ha).
  unfold asks, to_key. by erewrite arr_find_length.
Qed.

Lemma is_nan_num n : (0 ≤ n < 2 ^ 53)%Z → is_nan (num_of_Z n) = false.
Proof.
  intros H. destruct n as [|p|p]; [done| |lia]. rewrite num_of_Z_pos; [done|]. unfold small. lia.
Qed.

Lemma isArrayLike_arr h a xs : is_arr h a xs → gives h (isArrayLike e a) (Some (length xs)).
Proof.
  intros Ha. pose proof (arr_small _ _ _ (length xs) Ha ltac:(lia)) as Hn.
  unfold isArrayLike. eapply gives_bind; [by apply getLength_arr|]. unfold num.
  assert (SFleb (S754_zero false) (num_of_Z (Z.of_nat (length xs))) = true) as ->.
  { change (S754_zero false) with (num_of_Z 0). rewrite SFleb_num by lia. apply Z.leb_le. lia. }
  unfold max_array_index. rewrite SFleb_num, (proj2 (Z.leb_le _ _)) by lia. cbn [andb].
  rewrite Z_of_num_of_Z, Nat2Z.id by lia. done.
Qed.

Lemma array_length_arr h a xs : is_arr h a xs → gives h (array_length e a) (length xs).
Proof.
  intros Ha. pose proof (arr_small _ _ _ (length xs) Ha ltac:(lia)) as Hn.
  unfold array_length. eapply gives_bind; [by apply getLength_arr|]. unfold num, to_primitive, to_number.
  rewrite is_nan_num, Z_of_num_of_Z by lia. rewrite (proj2 (Z.leb_le _ _)), Nat2Z.id by lia. done.
Qed.

(** The keys of the loops over an array. *)
Abbreviation numbers xs := (map num (seq 0 (length xs))).

Lemma indices_arr h a xs : is_arr h a xs → gives h (indices e a) (numbers xs).
Proof.
  intros Ha. unfold indices. eapply gives_bind; [by apply isArrayLike_arr|]. apply gives_ret.
Qed.

Lemma elements_arr h a xs n :
  is_arr h a xs → n ≤ length xs → gives h (elements e a n) (take n xs).
Proof.
  intros Ha Hn. unfold elements.
  assert (take n xs = map (λ k, default Undef (Z_of_num (match k with Num x => x | _ => S754_nan end)
     ≫= λ z, xs !! Z.to_nat z)) (map num (seq 0 n))) as ->.
  { rewrite map_map. apply list_eq. intros i. rewrite list_lookup_fmap.
    destruct (decide (i < n)) as [Hi|Hi].
    - rewrite lookup_seq_lt by done. simpl. unfold num.
      rewrite Z_of_num_of_Z by (pose proof (arr_small _ _ _ i Ha); lia). simpl.
      rewrite Nat2Z.id, lookup_take_lt by done.
      destruct (lookup_lt_is_Some_2 xs i) as [x Hx]; [lia|]. by rewrite Hx.
    - rewrite lookup_seq_ge, lookup_take_ge by lia. done. }
  apply gives_mapM. intros k (i&->&Hi)%list_elem_of_fmap. apply elem_of_seq in Hi.
  pose proof (arr_small _ _ _ i Ha). unfold num at 2. rewrite Z_of_num_of_Z by lia. simpl.
  rewrite Nat2Z.id. destruct (lookup_lt_is_Some_2 xs i) as [x Hx]; [lia|]. rewrite Hx.
  by eapply js_at_arr.
Qed.

Lemma list_of_arr h a xs : is_arr h a xs → gives h (list_of e a) xs.
Proof.
  intros Ha. unfold list_of. eapply gives_bind; [by apply isArrayLike_arr|].
  rewrite <-(take_ge xs (length xs)) at 2 by lia. by apply elements_arr.
Qed.

(** ** Loops whose callback only computes *)

(** A callback that is a function of its arguments, and leaves the heap. *)
Definition quiet (h : heap) (it : fn) (context : jsval) (g : list jsval → jsval) : Prop :=
  (∀ n, gives h (cb e it context (Some n)) (optimizeCb e it context (Some n))) ∧
  ∀ n args, length args = n → gives h (optimizeCb e it context (Some n) Undef args) (g args).

(** Such a callback is a function, and what its negation gives. *)
Lemma quiet_function h it context g :
  quiet h it context g → match it with Js v => is_function h v = true | Fn _ => True end.
Proof.
  intros [_ Hg]. destruct it as [v|f]; [|done]. specialize (Hg 0 [] eq_refl).
  assert (Hcall : ∃ this args, gives h (call_value e v this args) (g [])).
  { unfold optimizeCb in Hg. destruct context; eauto. }
  destruct Hcall as (this&args&Hcall). unfold gives, call_value in Hcall.
  destruct v as [| | | | |l]; try discriminate Hcall. by destruct (is_function h (Ref l)).
Qed.
Lemma quiet_plain_cb h it context g n :
  quiet h it context g → gives h (cb e it Undef (Some n)) (call_fn e it).
Proof.
  intros Hq. pose proof (quiet_function _ _ _ _ Hq) as Hf. destruct it as [v|f]; [|done].
  unfold cb. destruct (nullish v) eqn:Hn; [by destruct v|].
  eapply gives_bind; [apply gives_asks|]. by rewrite Hf.
Qed.
Lemma quiet_negate h it context g :
  quiet h it context g →
  quiet h (Fn (_negate (call_fn e it))) context (λ args, Bool (negb (truthy (g args)))).
Proof.
  intros [_ Hg]. split; [done|]. intros n args Hn. specialize (Hg n args Hn).
  unfold optimizeCb, _negate in *.
  destruct context; cbn [call_fn]; (eapply gives_bind; [exact Hg|done]).
Qed.

Section loops.
Variables (h : heap) (a : jsval) (xs : list jsval).
Hypothesis Ha : is_arr h a xs.

Variables (f : callee) (g : list jsval → jsval).
Hypothesis Hf : ∀ args, length args = 3 → gives h (f Undef args) (g args).

(** What the callback gives for the element [i]. *)
Definition answer (i : nat) : jsval := g [arg i xs; num i; a].
Definition in_range (ks : list nat) : Prop := ∀ i, i ∈ ks → i < length xs.

Lemma in_range_cons i ks : in_range (i :: ks) → i < length xs ∧ in_range ks.
Proof. intros H. split; [apply H; by left|]. intros j Hj. apply H. by right. Qed.

Lemma element_arr i : i < length xs → gives h (js_at e a (num i)) (arg i xs).
Proof.
  intros Hi. destruct (lookup_lt_is_Some_2 xs i Hi) as [x Hx]. unfold arg. rewrite Hx.
  by eapply js_at_arr.
Qed.

Lemma visit_arr i : i < length xs → gives h (visit e f a (num i)) (answer i).
Proof. intros Hi. eapply gives_bind; [by apply element_arr|]. by apply Hf. Qed.

Lemma search_arr test ks :
  in_range ks →
  gives h (search e test f a (map num ks)) (num <$> find (λ i, test (answer i)) ks).
Proof.
  induction ks as [|i ks IH]; intros His; [done|]. apply in_range_cons in His as [Hi His].
  simpl. eapply gives_bind; [by apply visit_arr|]. destruct (test (answer i)); [done|]. by apply IH.
Qed.

Lemma filter_arr ks :
  in_range ks →
  gives h (filter_loop e f a (map num ks))
    (map (λ i, arg i xs) (List.filter (λ i, truthy (answer i)) ks)).
Proof.
  induction ks as [|i ks IH]; intros His; [done|]. apply in_range_cons in His as [Hi His]. simpl.
  eapply gives_bind; [by apply element_arr|]. eapply gives_bind; [by apply Hf|].
  eapply gives_bind; [by apply IH|]. fold (answer i). by destruct (truthy (answer i)).
Qed.

Lemma partition_arr ks :
  in_range ks →
  gives h (partition_loop e f a (map num ks))
    (map (λ i, arg i xs) (List.filter (λ i, truthy (answer i)) ks),
     map (λ i, arg i xs) (List.filter (λ i, negb (truthy (answer i))) ks)).
Proof.
  induction ks as [|i ks IH]; intros His; [done|]. apply in_range_cons in His as [Hi His]. simpl.
  eapply gives_bind; [by apply element_arr|]. eapply gives_bind; [by apply Hf|].
  eapply gives_bind; [by apply IH|]. fold (answer i). by destruct (truthy (answer i)).
Qed.

Lemma mapM_visit_arr ks :
  in_range ks → gives h (mapM (visit e f a) (map num ks)) (map answer ks).
Proof.
  induction ks as [|i ks IH]; intros His; [done|]. apply in_range_cons in His as [Hi His].
  eapply gives_bind; [by apply visit_arr|]. eapply gives_bind; [by apply IH|]. done.
Qed.

Lemma ranks_arr ks :
  in_range ks →
  gives h (mapM (rank e f a) (map num ks))
    (map (λ i, {| r_value := arg i xs; r_index := num i; r_criteria := answer i |}) ks).
Proof.
  induction ks as [|i ks IH]; intros Hks; [done|]. apply in_range_cons in Hks as [Hi Hks].
  eapply gives_bind; [eapply gives_bind; [by apply element_arr|]; eapply gives_bind; [by apply Hf|];
    apply gives_ret|].
  eapply gives_bind; [by apply IH|]. done.
Qed.
End loops.

Section reduce.
Variables (h : heap) (a : jsval) (xs : list jsval).
Hypothesis Ha : is_arr h a xs.
Variables (f : callee) (g : list jsval → jsval).
Hypothesis Hf : ∀ args, length args = 4 → gives h (f Undef args) (g args).

Lemma reduce_arr ks memo :
  in_range xs ks →
  gives h (reduce_loop e f a memo (map num ks))
    (foldl (λ memo i, g [memo; arg i xs; num i; a]) memo ks).
Proof.
  revert memo. induction ks as [|i ks IH]; intros memo His; [done|].
  apply in_range_cons in His as [Hi His]. simpl.
  eapply gives_bind; [by apply element_arr|]. eapply gives_bind; [by apply Hf|]. by apply IH.
Qed.
End reduce.

Lemma in_range_seq xs : in_range xs (seq 0 (length xs)).
Proof. intros i Hi%elem_of_seq. lia. Qed.

Lemma in_range_reverse xs ks : in_range xs ks → in_range xs (reverse ks).
Proof. intros H i. rewrite elem_of_reverse. apply H. Qed.
#[local] Hint Resolve in_range_seq in_range_reverse : syncer.

Lemma check_length_arr h a xs : is_arr h a xs → gives h (check_length (length (numbers xs))) tt.
Proof.
  intros [_ Hl]. unfold check_length. rewrite length_map, length_seq.
  by rewrite (proj2 (Z.ltb_lt _ _)).
Qed.

Lemma find_filter {A} (P : A → bool) l : find P l = head (List.filter P l).
Proof. induction l as [|x l IH]; [done|]. simpl. by destruct (P x). Qed.

Lemma filter_negb_nil {A} (P : A → bool) l :
  List.filter (λ x, negb (P x)) l = [] ↔ List.filter P l = l.
Proof.
  induction l as [|x l IH]; [done|]. simpl. destruct (P x); simpl.
  - rewrite IH. split; [by intros ->|]. by intros [=].
  - split; [done|]. intros H. pose proof (List.filter_length_le P l) as Hl. rewrite H in Hl.
    simpl in Hl. lia.
Qed.

Lemma map_reverse {A B} (f : A → B) l : map f (reverse l) = reverse (map f l).
Proof. unfold reverse. rewrite !rev_append_rev, !app_nil_r. apply map_rev. Qed.

Section theorem.
Variables (h : heap) (a : jsval) (xs : list jsval) (it : fn) (context : jsval).
Variable g : list jsval → jsval.
Hypothesis Ha : is_arr h a xs.
Hypothesis Hg : quiet h it context g.

Abbreviation f := (optimizeCb e it context (Some 3)).
Abbreviation answers := (answer a xs g).
Abbreviation passing := (List.filter (λ i, truthy (answers i)) (seq 0 (length xs))).

Lemma quiet_cb n : gives h (cb e it context (Some n)) (optimizeCb e it context (Some n)).
Proof. apply Hg. Qed.
Lemma quiet_calls args : length args = 3 → gives h (f Undef args) (g args).
Proof. by apply Hg. Qed.

Ltac run := repeat (eapply gives_bind; [first [apply quiet_cb | by apply indices_arr
  | by apply isArrayLike_arr | by apply array_length_arr | by eapply check_length_arr]|]).

Lemma map_list_arr : gives h (map_list e a it context) (map answers (seq 0 (length xs))).
Proof. unfold map_list. run. apply mapM_visit_arr; auto using quiet_calls with syncer. Qed.

Lemma filter_list_arr : gives h (filter_list e a it context) (map (λ i, arg i xs) passing).
Proof. unfold filter_list. run. apply filter_arr; auto using quiet_calls with syncer. Qed.

Lemma search_passing right :
  gives h (search e truthy f a (if right : bool then reverse (numbers xs) else numbers xs))
    (num <$> (if right then last passing else head passing)).
Proof.
  rewrite <-head_reverse. assert (∀ ks, in_range xs ks → gives h (search e truthy f a (map num ks))
    (num <$> head (List.filter (λ i, truthy (answers i)) ks))) as H.
  { intros ks His. rewrite <-find_filter. apply search_arr; auto using quiet_calls. }
  destruct right; [|apply H; auto with syncer]. rewrite <-map_reverse.
  assert (reverse passing = List.filter (λ i, truthy (answers i)) (reverse (seq 0 (length xs)))) as ->.
  { unfold reverse. rewrite !rev_append_rev, !app_nil_r. symmetry. apply List.filter_rev. }
  apply H. auto with syncer.
Qed.

Lemma found_arr right :
  gives h (find_index_from e right a it context)
    (num <$> (if right then last passing else head passing)).
Proof. unfold find_index_from. run. apply search_passing. Qed.

Lemma every_arr :
  gives h (_every e a it context) (bool_decide (passing = seq 0 (length xs))).
Proof.
  unfold _every. run. eapply gives_bind.
  { apply (search_arr h a xs Ha _ g quiet_calls (λ b, negb (truthy b))), in_range_seq. }
  apply gives_ret_eq. rewrite find_filter. apply bool_decide_ext.
  rewrite <-filter_negb_nil. by destruct (List.filter _ _).
Qed.

Lemma some_arr : gives h (_some e a it context) (bool_decide (passing ≠ [])).
Proof.
  unfold _some. run. eapply gives_bind; [apply (search_passing false)|].
  apply gives_ret_eq, bool_decide_ext. by destruct passing.
Qed.

Lemma find_arr : gives h (_find e a it context) (from_option (λ i, arg i xs) Undef (head passing)).
Proof.
  unfold _find. run. cbn beta iota. eapply gives_bind; [apply (found_arr false)|].
  destruct (head passing) as [i|] eqn:Hi; [|done]. apply element_arr; [done|].
  apply (in_range_seq xs), list_elem_of_In, (List.filter_In (λ i, truthy (answers i)) i).
  apply list_elem_of_In. by apply head_Some_elem_of.
Qed.

Lemma partition_made :
  _partition e a it context h =
    Some (inl (Ref (2 + length h)),
          h ++ [array e (map (λ i, arg i xs) passing);
                array e (map (λ i, arg i xs)
                  (List.filter (λ i, negb (truthy (answers i))) (seq 0 (length xs))));
                array e [Ref (length h); Ref (1 + length h)]]).
Proof.
  unfold _partition. rewrite (bind_gives _ _ _ _ (quiet_cb 3)), (bind_gives _ _ _ _ (indices_arr _ _ _ Ha)).
  rewrite (bind_gives _ _ _ _ (partition_arr h a xs Ha _ g quiet_calls _ (in_range_seq xs))).
  unfold new_array, alloc, mbind, M_bind. cbn [fst snd]. rewrite !length_app, <-!app_assoc.
  by rewrite !Nat.add_1_r.
Qed.
End theorem.

(** [createReduce] with a first value. *)
Lemma reduce_from_arr right h a xs it context g memo :
  is_arr h a xs → quiet h it context g →
  gives h (reduce_from e right a it (Some memo) context)
    (foldl (λ memo i, g [memo; arg i xs; num i; a]) memo
       (if right : bool then reverse (seq 0 (length xs)) else seq 0 (length xs))).
Proof.
  intros Ha Hg. unfold reduce_from. eapply gives_bind; [by apply isArrayLike_arr|].
  eapply gives_bind; [by apply indices_arr|].
  destruct right; [rewrite <-map_reverse|]; apply reduce_arr; auto with syncer; intros; by apply Hg.
Qed.

Lemma foldl_reverse_foldr {A B} (f : A → B → A) (m : A) l :
  foldl f m (reverse l) = foldr (λ x m, f m x) m l.
Proof. induction l as [|x l IH]; [done|]. by rewrite reverse_cons, foldl_snoc, IH. Qed.

(** C26: On an array and with a callback that only computes, the functions over
    collections are the list functions of those names, by indices: [_.map]
    gives the answers in order, [_.filter], [_.reject] and [_.partition] split
    the elements without changing their order, [_.every] and [_.some] quantify,
    [_.find], [_.findIndex] and [_.findLastIndex] give the first or last
    element that passes, and [_.reduce] and [_.reduceRight] fold. *)
Theorem collections_are_lists (h : heap) (a : jsval) (xs : list jsval) (it : fn)
    (context : jsval) (g : list jsval → jsval) :
  is_arr h a xs → quiet h it context g →
  let all := seq 0 (length xs) in
  let answers i := g [arg i xs; num i; a] in
  let passing := List.filter (λ i, truthy (answers i)) all in
  let failing := List.filter (λ i, negb (truthy (answers i))) all in
  let at_ i := arg i xs in
  let made ys := Some (inl (Ref (length h)), h ++ [array e ys]) in
  _map e a it context h = made (map answers all) ∧
  _filter e a it context h = made (map at_ passing) ∧
  _reject e a it context h = made (map at_ failing) ∧
  _partition e a it context h =
    Some (inl (Ref (2 + length h)), h ++ [array e (map at_ passing); array e (map at_ failing);
                                          array e [Ref (length h); Ref (1 + length h)]]) ∧
  gives h (_every e a it context) (bool_decide (passing = all)) ∧
  gives h (_some e a it context) (bool_decide (passing ≠ [])) ∧
  gives h (_find e a it context) (from_option at_ Undef (head passing)) ∧
  gives h (_findIndex e a it context) (from_option num minus_one (head passing)) ∧
  gives h (_findLastIndex e a it context) (from_option num minus_one (last passing)) ∧
  ∀ memo,
    gives h (_reduce e a it (Some memo) context)
      (foldl (λ m i, g [m; arg i xs; num i; a]) memo all) ∧
    gives h (_reduceRight e a it (Some memo) context)
      (foldr (λ i m, g [m; arg i xs; num i; a]) memo all).
Proof.
  intros Ha Hg all answers passing failing at_ made.
  assert (Hi : ∀ right, gives h (find_index_from e right a it context)
    (num <$> (if right then last passing else head passing))) by (intros; by apply found_arr).
  split_and!.
  - unfold _map. by rewrite (bind_gives _ _ _ _ (map_list_arr h a xs it context g Ha Hg)).
  - unfold _filter. by rewrite (bind_gives _ _ _ _ (filter_list_arr h a xs it context g Ha Hg)).
  - unfold _reject. rewrite (bind_gives _ _ _ _ (quiet_plain_cb h it context g 3 Hg)). unfold _filter.
    by rewrite (bind_gives _ _ _ _ (filter_list_arr h a xs _ context _ Ha (quiet_negate _ _ _ _ Hg))).
  - by apply partition_made.
  - by apply every_arr.
  - by apply some_arr.
  - by apply find_arr.
  - eapply gives_bind; [apply (Hi false)|]. by destruct (head passing).
  - eapply gives_bind; [apply (Hi true)|]. by destruct (last passing).
  - intros memo. split; [by apply (reduce_from_arr false)|].
    rewrite <-foldl_reverse_foldr. by apply (reduce_from_arr true).
Qed.

(** ** Binary search *)

Lemma search_sorted_arr h a xs (f : callee) (g : list jsval → jsval) value fuel low high :
  is_arr h a xs → (∀ x, gives h (f Undef [x]) (g [x])) →
  let less i := js_lt (e_runtime e) (g [arg i xs]) value in
  low ≤ high → high ≤ length xs → high - low < fuel →
  ∃ k, gives h (search_sorted e fuel f a value low high) k ∧ low ≤ k ≤ high ∧
    ((∀ i j, i < j → j < length xs → less j = true → less i = true) →
     ∀ i, low ≤ i < high → less i = true ↔ i < k).
Proof.
  intros Ha Hf less. revert low high.
  induction fuel as [|fuel IH]; intros low high Hlh Hn Hfuel; [lia|]. simpl.
  destruct (Nat.ltb_spec low high) as [Hlt|Hge]; cycle 1.
  { exists low. split; [done|]. split; [lia|]. intros _ i. lia. }
  set (mid := (low + high) / 2). assert (low ≤ mid < high) as Hmid.
  { unfold mid. split; [apply Nat.div_le_lower_bound; lia|apply Nat.Div0.div_lt_upper_bound; lia]. }
  assert (Hstep : ∀ k, gives h (if less mid
      then search_sorted e fuel f a value (mid + 1) high
      else search_sorted e fuel f a value low mid) k →
    gives h (let* x := js_at e a (num mid) in let* c := f Undef [x] in
             if js_lt (e_runtime e) c value then search_sorted e fuel f a value (mid + 1) high
             else search_sorted e fuel f a value low mid) k).
  { intros k Hk. eapply gives_bind; [apply (element_arr h a xs); [done|lia]|].
    by eapply gives_bind; [apply Hf|]. }
  destruct (less mid) eqn:Hm.
  - destruct (IH (mid + 1) high) as (k&Hk&Hb&Hs); [lia..|]. exists k. split; [by apply Hstep|].
    split; [lia|]. intros Hmono i Hi. destruct (decide (mid < i)); [apply Hs; [done|lia]|].
    split; [lia|]. intros _. destruct (decide (i = mid)) as [->|]; [done|].
    apply (Hmono i mid); [lia|lia|done].
  - destruct (IH low mid) as (k&Hk&Hb&Hs); [lia..|]. exists k. split; [by apply Hstep|].
    split; [lia|]. intros Hmono i Hi. destruct (decide (i < mid)); [apply Hs; [done|lia]|].
    split; [|lia]. intros Hl. destruct (decide (i = mid)) as [->|]; [congruence|].
    rewrite (Hmono mid i) in Hm by (done || lia). done.
Qed.

(** [_.sortedIndex] always ends, on an index of the array or its length;
    when the elements that come before the value (by the criterion) form a
    front part of the array, it is the length of that part, so inserting there
    keeps the order and goes before equal elements. *)
Theorem sortedIndex_spec (h : heap) (a obj : jsval) (xs : list jsval) (it : fn)
    (context : jsval) (g : list jsval → jsval) :
  is_arr h a xs → quiet h it context g →
  let less i := js_lt (e_runtime e) (g [arg i xs]) (g [obj]) in
  ∃ k, gives h (_sortedIndex e a obj it context) k ∧ k ≤ length xs ∧
    ((∀ i j, i < j → j < length xs → less j = true → less i = true) →
     ∀ i, i < length xs → less i = true ↔ i < k).
Proof.
  intros Ha Hg less.
  destruct (search_sorted_arr h a xs (optimizeCb e it context (Some 1)) g (g [obj])
    (S (length xs)) 0 (length xs)) as (k&Hk&Hb&Hs); [done|intros; by apply Hg|lia..|].
  exists k. split; [|split; [lia|]].
  - unfold _sortedIndex. eapply gives_bind; [apply Hg|]. eapply gives_bind; [by apply Hg|].
    eapply gives_bind; [by apply array_length_arr|]. done.
  - intros Hmono i Hi. apply Hs; [done|lia].
Qed.

(** ** Sorting *)

(** *** The order of criteria *)

(** [a] is sorted before [b]: it is less, or [b] is undefined. *)
Definition sorts_before (a b : jsval) : Prop :=
  strict_eq a b = false ∧ a ≠ Undef ∧ (js_lt (e_runtime e) a b = true ∨ b = Undef).

(** Criteria that can be compared with each other. *)
Definition numeric_criterion (v : jsval) : Prop := v = Undef ∨ ∃ x, v = Num x ∧ is_nan x = false.
Definition text_criterion (v : jsval) : Prop := v = Undef ∨ ∃ s, v = Str s.

(** The rank of a number; [SFcompare] compares ranks. *)
Definition num_rank (x : spec_float) : Z * Z * Z :=
  match x with
  | S754_infinity s => (if s then -2 else 2, 0, 0)%Z
  | S754_zero _ | S754_nan => (0, 0, 0)%Z
  | S754_finite true m ex => (-1, - ex, - Z.pos m)%Z
  | S754_finite false m ex => (1, ex, Z.pos m)%Z
  end.
Definition rank_lt (p q : Z * Z * Z) : Prop :=
  (p.1.1 < q.1.1)%Z ∨ p.1.1 = q.1.1 ∧ ((p.1.2 < q.1.2)%Z ∨ p.1.2 = q.1.2 ∧ (p.2 < q.2)%Z).

Lemma SFcompare_rank x y :
  is_nan x = false → is_nan y = false →
  match SFcompare x y with
  | Some Lt => rank_lt (num_rank x) (num_rank y)
  | Some Eq => num_rank x = num_rank y
  | Some Gt => rank_lt (num_rank y) (num_rank x)
  | None => False
  end.
Proof.
  unfold rank_lt.
  destruct x as [s|s| |s m ex], y as [t|t| |t n ey]; intros Hx Hy; try done;
    try destruct s; try destruct t; simpl; try lia; try done.
  all: destruct (Z.compare_spec ex ey); subst; simpl; try lia.
  all: change (Pos.compare_cont Eq m n) with (Pos.compare m n);
    destruct (Pos.compare_spec m n); subst; simpl; try lia; done.
Qed.

Lemma strict_eq_sym a b : strict_eq a b = strict_eq b a.
Proof.
  destruct a as [| |b1|x|s|l], b as [| |b2|y|t|k]; simpl; try done.
  - by destruct b1, b2.
  - destruct (is_nan x) eqn:Hx; [by destruct x, y|]. destruct (is_nan y) eqn:Hy; [by destruct x, y|].
    pose proof (SFcompare_rank x y Hx Hy) as H. pose proof (SFcompare_rank y x Hy Hx) as H'.
    unfold SFeqb, rank_lt in *.
    destruct (SFcompare x y) as [[]|], (SFcompare y x) as [[]|]; try done; exfalso;
      rewrite ?H, ?H' in *; lia.
  - apply bool_decide_ext. split; congruence.
  - apply Nat.eqb_sym.
Qed.

(** What sorting needs of a class of criteria. *)
Record orderable (K : jsval → Prop) : Prop := {
  ord_refl a : K a → strict_eq a a = true;
  ord_total a b : K a → K b → sorts_before a b ∨ sorts_before b a ∨ strict_eq a b = true;
  ord_trans a b c : K a → K b → K c → sorts_before a b → sorts_before b c → sorts_before a c;
  ord_left a b c : K a → K b → K c → strict_eq a b = true → sorts_before b c → sorts_before a c;
  ord_right a b c : K a → K b → K c → sorts_before a b → strict_eq b c = true → sorts_before a c;
  ord_same a b c : K a → K b → K c → strict_eq a b = true → strict_eq b c = true →
                   strict_eq a c = true }.

(** The rank of a numeric criterion, undefined last. *)
Definition criterion_rank (v : jsval) : Z * Z * Z :=
  match v with Num x => num_rank x | _ => (3, 0, 0)%Z end.

Lemma num_rank_bound x : ((num_rank x).1.1 < 3)%Z.
Proof. by destruct x as [[]|[]| |[] m ex]. Qed.

Lemma numeric_before a b :
  numeric_criterion a → numeric_criterion b →
  (sorts_before a b ↔ rank_lt (criterion_rank a) (criterion_rank b)) ∧
  (strict_eq a b = true ↔ criterion_rank a = criterion_rank b).
Proof.
  unfold sorts_before, js_lt.
  intros [->|(x&->&Hx)] [->|(y&->&Hy)]; simpl.
  - split; [|done]. unfold rank_lt. simpl. split; [by intros [? ?]|lia].
  - pose proof (num_rank_bound y). split; split; try done.
    + intros (_&?&_). done.
    + unfold rank_lt. simpl. lia.
    + intros H'. rewrite <-H' in *. simpl in *. lia.
  - pose proof (num_rank_bound x). split; split; try done.
    + unfold rank_lt. simpl. lia.
    + intros _. split_and!; [done|done|by right].
    + intros H'. rewrite H' in *. simpl in *. lia.
  - pose proof (SFcompare_rank x y Hx Hy) as Hc. unfold SFeqb, SFltb, rank_lt in *.
    destruct (SFcompare x y) as [[]|]; try done.
    + rewrite Hc. split; [|done]. split; [by intros [? ?]|lia].
    + split; split; try done; [intros _; split_and!; auto|]. intros H'. rewrite H' in Hc. lia.
    + split; split; try done; [intros (_&_&[?|?]); done|lia|]. intros H'. rewrite H' in Hc. lia.
Qed.

Lemma numeric_orderable : orderable numeric_criterion.
Proof.
  split.
  - intros a [->|(x&->&Hx)]; [done|]. by rewrite strict_eq_refl, Hx.
  - intros a b Ka Kb. destruct (numeric_before a b Ka Kb) as [-> ->].
    destruct (numeric_before b a Kb Ka) as [-> _]. unfold rank_lt.
    destruct (criterion_rank a) as [[]], (criterion_rank b) as [[]]; simpl.
    destruct (Z.lt_total z z2) as [?|[->|?]]; [lia| |lia].
    destruct (Z.lt_total z0 z3) as [?|[->|?]]; [lia| |lia].
    destruct (Z.lt_total z1 z4) as [?|[->|?]]; [lia|auto|lia].
  - intros a b c Ka Kb Kc. destruct (numeric_before a b Ka Kb) as [-> _].
    destruct (numeric_before b c Kb Kc) as [-> _]. destruct (numeric_before a c Ka Kc) as [-> _].
    unfold rank_lt. lia.
  - intros a b c Ka Kb Kc. destruct (numeric_before a b Ka Kb) as [_ ->].
    destruct (numeric_before b c Kb Kc) as [-> _]. destruct (numeric_before a c Ka Kc) as [-> _].
    by intros ->.
  - intros a b c Ka Kb Kc. destruct (numeric_before a b Ka Kb) as [-> _].
    destruct (numeric_before b c Kb Kc) as [_ ->]. destruct (numeric_before a c Ka Kc) as [-> _].
    by intros ? <-.
  - intros a b c Ka Kb Kc. destruct (numeric_before a b Ka Kb) as [_ ->].
    destruct (numeric_before b c Kb Kc) as [_ ->]. destruct (numeric_before a c Ka Kc) as [_ ->].
    congruence.
Qed.

Lemma text_before s t : sorts_before (Str s) (Str t) ↔ jstr_lt s t.
Proof.
  unfold sorts_before, js_lt. simpl. rewrite jstr_ltb_lt. unfold jstr_lt.
  rewrite bool_decide_eq_false. split; [by intros (?&_&[?|?])|]. intros [? ?]. auto.
Qed.

Lemma jstr_lt_trans s t v : jstr_lt s t → jstr_lt t v → jstr_lt s v.
Proof.
  intros [H1 N1] [H2 N2]. split; [by transitivity t|]. intros ->. apply N1.
  by apply (anti_symm jstr_le).
Qed.

Lemma undef_last v : v ≠ Undef → sorts_before v Undef ∨ v = Null.
Proof. destruct v; try done; left; split_and!; try done; by right. Qed.
Lemma undef_not_before v : ¬ sorts_before Undef v.
Proof. by intros (_&?&_). Qed.

Lemma text_orderable : orderable text_criterion.
Proof.
  assert (Hu : ∀ s, sorts_before (Str s) Undef) by (intros s; split_and!; auto).
  pose proof undef_not_before as Hn. unfold text_criterion. split.
  - intros a [->|[s ->]]; [done|]. apply strict_eq_refl.
  - intros a b [->|[s ->]] [->|[t ->]]; auto. rewrite !text_before. simpl.
    rewrite bool_decide_eq_true. unfold jstr_lt. destruct (decide (s = t)); [auto|].
    destruct (total jstr_le s t); auto.
  - intros a b c [->|[s ->]] [->|[t ->]] [->|[v ->]]; try done;
      try (by intros ?%Hn); try (by intros ? ?%Hn); auto.
    rewrite !text_before. apply jstr_lt_trans.
  - intros a b c [->|[s ->]] [->|[t ->]] [->|[v ->]]; simpl; try done;
      try (by intros ? ?%Hn); auto. rewrite bool_decide_eq_true. by intros ->.
  - intros a b c [->|[s ->]] [->|[t ->]] [->|[v ->]]; simpl; try done;
      try (by intros ?%Hn); auto. rewrite bool_decide_eq_true. by intros ? ->.
  - intros a b c [->|[s ->]] [->|[t ->]] [->|[v ->]]; simpl; try done.
    rewrite !bool_decide_eq_true. congruence.
Qed.


Lemma js_lt_undef v : js_lt (e_runtime e) Undef v = false.
Proof. unfold js_lt. simpl. by destruct (to_primitive (e_runtime e) v). Qed.

Lemma sorted_impl {A} (R S : relation A) l :
  (∀ x y, R x y → S x y) → StronglySorted R l → StronglySorted S l.
Proof.
  intros HRS. induction 1 as [|x l _ IH Hx]; constructor; [done|].
  eapply Forall_impl; [done|]. auto.
Qed.

Section compare.
Variable K : jsval → Prop.
Hypothesis HK : orderable K.

Lemma before_irrefl a : K a → ¬ sorts_before a a.
Proof. intros Ha (Hs&_). by rewrite (ord_refl K HK a Ha) in Hs. Qed.

Lemma before_not_lt a b : K a → K b → sorts_before a b → js_lt (e_runtime e) b a = false.
Proof.
  intros Ha Hb Hab. destruct (js_lt (e_runtime e) b a) eqn:Hlt; [|done]. exfalso.
  apply (before_irrefl a Ha), (ord_trans K HK a b a); try done. split_and!.
  - rewrite strict_eq_sym. apply Hab.
  - intros ->. by rewrite js_lt_undef in Hlt.
  - by left.
Qed.

Lemma strict_eq_undef v : strict_eq v Undef = bool_decide (v = Undef).
Proof. by destruct v. Qed.

(** The comparison of two criteria, then of the places. *)
Lemma compare_ranked_spec x y i j a b :
  K a → K b → (0 ≤ Z.of_nat i < 2 ^ 53)%Z → (0 ≤ Z.of_nat j < 2 ^ 53)%Z →
  let cmp := compare_ranked e {| r_value := x; r_index := num i; r_criteria := a |}
               {| r_value := y; r_index := num j; r_criteria := b |} in
  (strict_eq a b = true → cmp = (i ?= j)) ∧ (sorts_before a b → cmp = Lt) ∧
  (sorts_before b a → cmp = Gt).
Proof.
  intros Ha Hb Hi Hj cmp. unfold cmp, compare_ranked. simpl.
  rewrite compare_num_of_Z by done. rewrite !strict_eq_undef. split_and!.
  - intros ->. simpl. by rewrite Nat2Z.inj_compare.
  - intros Hab. rewrite (before_not_lt a b) by done. destruct Hab as (->&Hu&Hl).
    rewrite bool_decide_eq_false_2 by done. simpl. destruct Hl as [->| ->]; [done|].
    by rewrite orb_true_r.
  - intros (Hs&Hu&Hl). rewrite strict_eq_sym, Hs. destruct Hl as [->| ->]; [done|].
    by rewrite orb_true_r.
Qed.
End compare.

Lemma in_seq_arr h a xs i : is_arr h a xs → i ∈ seq 0 (length xs) → (0 ≤ Z.of_nat i < 2 ^ 53)%Z.
Proof. intros Ha Hi%elem_of_seq. eapply arr_small; [done|lia]. Qed.

(** The order of the result: of the criteria, then of the places. *)
Definition place_before (criterion : nat → jsval) (i j : nat) : Prop :=
  sorts_before (criterion i) (criterion j) ∨ strict_eq (criterion i) (criterion j) = true ∧ i < j.

Lemma sorted_of_map {A B} (f : A → B) (R : B → B → Prop) l :
  StronglySorted R (map f l) → StronglySorted (λ x y, R (f x) (f y)) l.
Proof.
  induction l as [|x l IH]; intros H; [constructor|]. inversion H as [|?? Hl Hx]; subst.
  constructor; [auto|]. apply Forall_forall. intros y Hy.
  apply (proj1 (Forall_forall _ _) Hx), list_elem_of_fmap. by exists y.
Qed.
Lemma sorted_strict {A} (R S : A → A → Prop) l :
  (∀ x y, x ∈ l → y ∈ l → x ≠ y → R x y → S x y) → NoDup l → StronglySorted R l →
  StronglySorted S l.
Proof.
  intros HRS Hn Hl. induction Hl as [|x l Hl IH Hx]; [constructor|].
  apply NoDup_cons in Hn as [Hxl Hn]. constructor.
  - apply IH; [|done]. intros y z Hy Hz. apply HRS; by right.
  - rewrite Forall_forall in *. intros y Hy. apply HRS; [by left|by right| |by apply Hx].
    by intros ->.
Qed.

Section ranking.
Variable K : jsval → Prop.
Hypothesis HK : orderable K.
Variables (a : jsval) (xs : list jsval) (h : heap).
Hypothesis Ha : is_arr h a xs.
Variable criterion : nat → jsval.
Hypothesis Hc : ∀ i, i < length xs → K (criterion i).
Abbreviation ranked_at i :=
  {| r_value := arg i xs; r_index := num i; r_criteria := criterion i |}.
Abbreviation places := (seq 0 (length xs)).

Lemma place_trans i j k : i ∈ places → j ∈ places → k ∈ places →
  place_before criterion i j → place_before criterion j k → place_before criterion i k.
Proof.
  intros [_ Hi]%elem_of_seq [_ Hj]%elem_of_seq [_ Hk]%elem_of_seq.
  pose proof (Hc i Hi). pose proof (Hc j Hj). pose proof (Hc k Hk).
  intros [Hij|[Hij ?]] [Hjk|[Hjk ?]].
  - left. by apply (ord_trans K HK _ (criterion j)).
  - left. by apply (ord_right K HK _ (criterion j)).
  - left. by apply (ord_left K HK _ (criterion j)).
  - right. split; [by apply (ord_same K HK _ (criterion j))|lia].
Qed.

(** The comparison says [Eq] of an element and itself only. *)
Lemma ranked_cases i j : i ∈ places → j ∈ places →
  i = j ∧ compare_ranked e (ranked_at i) (ranked_at j) = Eq ∨
  place_before criterion i j ∧ compare_ranked e (ranked_at i) (ranked_at j) = Lt ∨
  place_before criterion j i ∧ compare_ranked e (ranked_at i) (ranked_at j) = Gt.
Proof.
  intros Hi Hj. pose proof (in_seq_arr _ _ _ i Ha Hi) as Bi.
  pose proof (in_seq_arr _ _ _ j Ha Hj) as Bj.
  apply elem_of_seq in Hi, Hj. pose proof (Hc i ltac:(lia)) as Ki. pose proof (Hc j ltac:(lia)) as Kj.
  pose proof (compare_ranked_spec K HK (arg i xs) (arg j xs) i j _ _ Ki Kj Bi Bj) as (H1&H2&H3).
  destruct (ord_total K HK _ _ Ki Kj) as [Hb|[Hb|Hs]].
  - right; left. split; [by left|auto].
  - right; right. split; [by left|auto].
  - specialize (H1 Hs). destruct (Nat.compare_spec i j); [by left|right; left|right; right].
    + split; [by right|done].
    + rewrite strict_eq_sym in Hs. split; [by right|done].
Qed.

Lemma place_irrefl i j : i ∈ places → j ∈ places →
  place_before criterion i j → place_before criterion j i → False.
Proof.
  intros Hi Hj Hij Hji. destruct (place_trans i j i Hi Hj Hi Hij Hji) as [H|[_ ?]]; [|lia].
  apply elem_of_seq in Hi as [_ Hi]. by apply (before_irrefl K HK _ (Hc i Hi)) in H.
Qed.

Lemma ranked_order i j : i ∈ places → j ∈ places →
  compare_ranked e (ranked_at i) (ranked_at j) ≠ Gt → i = j ∨ place_before criterion i j.
Proof.
  intros Hi Hj Hle. destruct (ranked_cases i j Hi Hj) as [[-> _]|[[? _]|[_ H]]];
    [by left|by right|by destruct Hle].
Qed.

Lemma ranked_consistent : consistent (compare_ranked e) (map (λ i, ranked_at i) places).
Proof.
  split_and!.
  - intros x (i&->&Hi)%list_elem_of_fmap.
    destruct (ranked_cases i i Hi Hi) as [[]|[[H _]|[H _]]]; [done|..];
      exfalso; by apply (place_irrefl i i Hi Hi).
  - intros x y (i&->&Hi)%list_elem_of_fmap (j&->&Hj)%list_elem_of_fmap.
    pose proof (place_irrefl i j Hi Hj) as Hirr. pose proof (place_irrefl j j Hj Hj) as Hjj.
    destruct (ranked_cases i j Hi Hj) as [[H ->]|[[H ->]|[H ->]]],
      (ranked_cases j i Hj Hi) as [[H' ->]|[[H' ->]|[H' ->]]]; try done; exfalso; subst; auto.
  - intros x y z (i&->&Hi)%list_elem_of_fmap (j&->&Hj)%list_elem_of_fmap (k&->&Hk)%list_elem_of_fmap.
    intros Hij%ranked_order Hjk%ranked_order; [|done..].
    assert (i = k ∨ place_before criterion i k) as Hik.
    { destruct Hij as [->|Hij]; [done|]. destruct Hjk as [<-|Hjk]; [by right|].
      right. by eapply (place_trans i j k). }
    destruct (ranked_cases i k Hi Hk) as [[_ ->]|[[_ ->]|[H _]]]; [done..|].
    destruct Hik as [->|Hik]; [exfalso; by apply (place_irrefl k k Hk Hk)|exfalso; by apply (place_irrefl i k Hi Hk)].
Qed.
End ranking.

(** C28: [_.sortBy] sorts, and is stable: on an array whose criteria are all
    numbers or all strings (or undefined), the result has the same elements,
    in the order of their criteria, undefined last, and elements with equal
    criteria stay in the order they had.  The engine's own sort need not be
    stable: all that is asked of it is a permutation in the order of any
    comparison that is consistent. *)
Theorem sortBy_sorts {sorter : ArraySort} {sorts : ArraySortLaws} (h : heap) (a : jsval)
    (xs : list jsval) (it : fn) (context : jsval) (g : list jsval → jsval) :
  is_arr h a xs → quiet h it context g →
  let criterion i := g [arg i xs; num i; a] in
  (∀ i, i < length xs → numeric_criterion (criterion i)) ∨
  (∀ i, i < length xs → text_criterion (criterion i)) →
  ∃ order, order ≡ₚ seq 0 (length xs) ∧
    _sortBy e a it context h =
      Some (inl (Ref (length h)), h ++ [array e (map (λ i, arg i xs) order)]) ∧
    StronglySorted (λ i j, sorts_before (criterion i) (criterion j) ∨
                           strict_eq (criterion i) (criterion j) = true ∧ i < j) order.
Proof.
  intros Ha Hg criterion Hkind.
  assert (∃ K, orderable K ∧ ∀ i, i < length xs → K (criterion i)) as (K&HK&Hc).
  { destruct Hkind; eauto using numeric_orderable, text_orderable. }
  set (ranked_at i := {| r_value := arg i xs; r_index := num i; r_criteria := criterion i |}).
  set (l := map ranked_at (seq 0 (length xs))).
  destruct (Permutation_map_inv ranked_at _ (array_sort_perm (compare_ranked e) l))
    as (order&Hsorted&Hperm).
  exists order. split; [by symmetry|]. split.
  - unfold _sortBy. rewrite (bind_gives _ _ _ _ (proj1 Hg 3)), (bind_gives _ _ _ _ (indices_arr _ _ _ Ha)).
    rewrite (bind_gives _ _ _ _ (check_length_arr _ _ _ Ha)).
    rewrite (bind_gives _ _ _ l).
    + by rewrite Hsorted, map_map.
    + apply (ranks_arr h a xs Ha _ g); [intros; by apply Hg|]. apply in_range_seq.
  - assert (Hcmp : ∀ i j, i ∈ seq 0 (length xs) → j ∈ seq 0 (length xs) →
      compare_ranked e (ranked_at i) (ranked_at j) ≠ Gt →
      i = j ∨ place_before criterion i j).
    { intros i j Hi Hj. by apply (ranked_order K HK a xs h Ha criterion Hc). }
    assert (Hs : StronglySorted (λ i j, compare_ranked e (ranked_at i) (ranked_at j) ≠ Gt) order).
    { apply (sorted_of_map ranked_at (λ x y, compare_ranked e x y ≠ Gt)). rewrite <-Hsorted. apply array_sort_sorted.
      by apply (ranked_consistent K HK a xs h Ha criterion Hc). }
    assert (Hn : NoDup order) by (rewrite <-Hperm; apply NoDup_seq).
    eapply (sorted_strict _ _ order); [|done..]. intros i j Hi Hj Hij Hle.
    rewrite <-Hperm in Hi, Hj. by destruct (Hcmp i j Hi Hj Hle).
Qed.
End arrays_of.

(** ** Examples *)

(** A heap with the two prototypes, a function that returns its first argument
    ([e_call] is the same for all), and the array [3, 1, 2]. *)
Definition sample_object (class : string) (proto : option nat) (elems : list jsval) : object :=
  {| o_class := class; o_proto := proto; o_prim := None; o_elems := elems; o_props := [] |}.
Definition sample_engine : engine :=
  {| e_call := λ _ _ args, ret (arg 0 args);
     e_runtime := {| ref_primitive := λ _, Undef; string_number := λ _, S754_nan |};
     e_hidden := λ _ _, None; e_number_key := λ _, []; e_object_key := λ _, [];
     e_object_proto := 0; e_array_proto := 1 |}.
Definition sample_heap : heap :=
  [sample_object "Object" None []; sample_object "Array" (Some 0) [];
   sample_object "Function" (Some 0) []; sample_object "Array" (Some 1) [num 3; num 1; num 2]].

Lemma sample_arr : is_arr sample_heap (Ref 3) [num 3; num 1; num 2].
Proof. split; [|simpl; lia]. by eexists 3, _. Qed.

Lemma sample_quiet : quiet sample_engine sample_heap (Js (Ref 2)) Undef (λ args, arg 0 args).
Proof. by split. Qed.

Lemma collections_are_lists_witness :
  _filter sample_engine (Ref 3) (Js (Ref 2)) Undef sample_heap =
    Some (inl (Ref 4), sample_heap ++ [array sample_engine [num 3; num 1; num 2]]).
Proof.
  destruct (collections_are_lists sample_engine sample_heap (Ref 3) [num 3; num 1; num 2]
    (Js (Ref 2)) Undef (λ args, arg 0 args) sample_arr sample_quiet) as (_&->&_).
  vm_compute. reflexivity.
Defined.

Lemma sortedIndex_spec_witness :
  ∃ k, gives sample_heap (_sortedIndex sample_engine (Ref 3) (num 2) (Js (Ref 2)) Undef) k ∧ k ≤ 3.
Proof.
  destruct (sortedIndex_spec sample_engine sample_heap (Ref 3) (num 2) [num 3; num 1; num 2]
    (Js (Ref 2)) Undef (λ args, arg 0 args) sample_arr sample_quiet) as (k&Hk&Hle&_).
  exists k. split; [exact Hk|exact Hle].
Defined.

#[local] Existing Instances insertion_sort insertion_sort_laws.

Lemma sortBy_sorts_witness :
  ∃ order, order ≡ₚ seq 0 3 ∧
    _sortBy sample_engine (Ref 3) (Js (Ref 2)) Undef sample_heap =
      Some (inl (Ref 4), sample_heap ++
        [array sample_engine (map (λ i, arg i [num 3; num 1; num 2]) order)]).
Proof.
  destruct (sortBy_sorts sample_engine sample_heap (Ref 3) [num 3; num 1; num 2] (Js (Ref 2)) Undef
    (λ args, arg 0 args) sample_arr sample_quiet) as (order&Hp&Hs&_).
  - left. intros i Hi. right. destruct i as [|[|[|i]]]; [..|simpl in Hi; lia];
      eexists; split; reflexivity.
  - exists order. split; [exact Hp|exact Hs].
Defined.

Example sortBy_sorted :
  _sortBy sample_engine (Ref 3) (Js (Ref 2)) Undef sample_heap =
    Some (inl (Ref 4), sample_heap ++ [array sample_engine [num 1; num 2; num 3]]).
Proof. vm_compute. reflexivity. Qed.
