(* ===== verification/UnderscoreSets.v ===== *)
(** * Arrays as sets, and in random order: [_.uniq], [_.union],
    [_.intersection], [_.difference], [_.shuffle]

    An array stands for the set of its elements up to [same]; the set
    operations keep the first element of each class, in the order of the
    arguments. *)

From S2P Require Import Prelude JsString JsValue Numbers JsMonad BraceExpansion.
From S2P Require Import Underscore UnderscoreArrays UnderscoreFacts.

#[local] Open Scope js_scope.

(** ** Sets *)

(** [===], but NaN is the same as NaN. *)
Definition same (a b : jsval) : Prop :=
  strict_eq a b = true ∨ (strict_eq a a = false ∧ strict_eq b b = false).
Definition member (x : jsval) (l : list jsval) : Prop := ∃ y, y ∈ l ∧ same y x.
Definition distinct : list jsval → Prop := StronglySorted (λ x y, ¬ same x y).

(** No element is an object around a number, which [_.isNaN] takes for NaN. *)
Definition no_wrappers (h : heap) (l : list jsval) : Prop :=
  ∀ p, Ref p ∈ l → class_of h (Ref p) ≠ "Number".

Lemma strict_eq_kind a b : strict_eq a b = true →
  (∃ x y, a = Num x ∧ b = Num y ∧ is_nan x = false ∧ is_nan y = false ∧ num_rank x = num_rank y) ∨
  a = b.
Proof.
  destruct a as [| |b1|x|s|l], b as [| |b2|y|t|k]; simpl; try done; auto.
  - intros ->%eqb_prop. auto.
  - intros H. left. exists x, y. assert (is_nan x = false) by (by destruct x).
    assert (is_nan y = false) by (by destruct x as [[]|[]| |[]], y).
    pose proof (SFcompare_rank x y) as Hc. unfold SFeqb in H.
    destruct (SFcompare x y) as [[]|]; try done. split_and!; auto.
  - intros H%bool_decide_eq_true. subst. auto.
  - intros ->%Nat.eqb_eq. auto.
Qed.

Lemma strict_eq_num x y :
  is_nan x = false → is_nan y = false → num_rank x = num_rank y → strict_eq (Num x) (Num y) = true.
Proof.
  intros Hx Hy Hr. pose proof (SFcompare_rank x y Hx Hy) as Hc. simpl. unfold SFeqb.
  destruct (SFcompare x y) as [[]|]; try done; unfold rank_lt in Hc; rewrite Hr in Hc; lia.
Qed.

Lemma strict_eq_trans a b c : strict_eq a b = true → strict_eq b c = true → strict_eq a c = true.
Proof.
  intros H1 H2. destruct (strict_eq_kind a b H1) as [(x&y&->&->&Hx&Hy&Hr)| ->]; [|done].
  destruct (strict_eq_kind _ _ H2) as [(y'&z&[= <-]&->&_&Hz&Hr')| <-]; [|done].
  apply strict_eq_num; congruence.
Qed.

#[export] Instance same_equiv : Equivalence same.
Proof.
  split.
  - intros a. destruct (strict_eq a a) eqn:Ha; [by left|by right].
  - intros a b [H|[? ?]]; [left; by rewrite strict_eq_sym|by right].
  - assert (Hself : ∀ x y, strict_eq x y = true → strict_eq x x = true).
    { intros x y Hx. apply (strict_eq_trans x y); [done|]. by rewrite strict_eq_sym. }
    intros a b c [Hab|[Ha Hb]] [Hbc|[Hb' Hc]].
    + left. by apply (strict_eq_trans a b).
    + rewrite strict_eq_sym in Hab. apply Hself in Hab. congruence.
    + apply Hself in Hbc. congruence.
    + by right.
Qed.

Lemma member_same x y l : same x y → member x l → member y l.
Proof. intros Hxy (z&Hz&Hs). exists z. split; [done|]. by transitivity x. Qed.

Lemma found_as_same h x y :
  (∀ p, x = Ref p → class_of h (Ref p) ≠ "Number") → found_as h y x = true ↔ same x y.
Proof.
  intros Hw. unfold found_as, same. destruct (strict_eq y y) eqn:Hy.
  - split; [by left|]. by intros [?|[_ ?]].
  - assert (strict_eq x y ≠ true).
    { intros Hxy. assert (strict_eq y y = true); [|congruence].
      apply (strict_eq_trans y x); [by rewrite strict_eq_sym|done]. }
    unfold _isNaN. rewrite andb_true_iff, bool_decide_eq_true.
    destruct x as [| |b|n|s|p]; simpl; split; try (by intros [? _]); try (by intros [?|[? _]]).
    + by destruct b; intros [?|[? _]].
    + intros [_ Hn]. right. split; [|done]. by destruct n.
    + intros [?|[Hn _]]; [done|]. split; [done|]. pose proof (strict_eq_refl (Num n)) as Hr.
      simpl in Hr. rewrite Hn in Hr. by destruct (is_nan n).
    + rewrite (bool_decide_eq_true_2 (s = s)) by done. by intros [?|[? _]].
    + intros [Hc _]. by destruct (Hw p eq_refl).
    + rewrite Nat.eqb_refl. by intros [?|[? _]].
Qed.

Lemma list_contains_member h l x :
  no_wrappers h l → list_contains h l x = true ↔ member x l.
Proof.
  intros Hw. unfold list_contains, member. rewrite existsb_exists. f_equiv. intros y.
  rewrite list_elem_of_In. split; intros [Hy H]; (split; [done|]);
    apply (found_as_same h y x); try done; intros p ->; apply Hw; try done; by apply list_elem_of_In.
Qed.

Lemma member_app x l k : member x (l ++ k) ↔ member x l ∨ member x k.
Proof. unfold member. setoid_rewrite elem_of_app. naive_solver. Qed.
Lemma member_cons x y l : member x (y :: l) ↔ same y x ∨ member x l.
Proof. unfold member. setoid_rewrite elem_of_cons. naive_solver. Qed.
Lemma member_one x y : member x [y] ↔ same y x.
Proof. unfold member. setoid_rewrite list_elem_of_singleton. naive_solver. Qed.

Lemma distinct_snoc l x : distinct l → ¬ member x l → distinct (l ++ [x]).
Proof.
  intros Hl Hx. apply StronglySorted_app_2; [|done|repeat constructor].
  intros y z Hy Hz%list_elem_of_singleton. subst z. intros Hs. apply Hx. by exists y.
Qed.

(** A loop that adds the elements that pass a test and are not there yet. *)
Definition collect (keep : jsval → bool) (h : heap) (result l : list jsval) : list jsval :=
  fold_left (λ r x, if list_contains h r x then r else if keep x then r ++ [x] else r) l result.

Lemma no_wrappers_sub h k l : (∀ x, x ∈ k → x ∈ l) → no_wrappers h l → no_wrappers h k.
Proof. intros Hs Hw p Hp. apply Hw. by apply Hs. Qed.

Lemma collect_spec keep h (all l result : list jsval) :
  no_wrappers h all → (∀ x, x ∈ result → x ∈ all) → (∀ x, x ∈ l → x ∈ all) →
  (∀ x y, same x y → keep x = keep y) → distinct result →
  ∃ k, collect keep h result l = result ++ k ∧ k `sublist_of` l ∧ distinct (result ++ k) ∧
    ∀ x, member x (result ++ k) ↔ member x result ∨ (member x l ∧ keep x = true).
Proof.
  intros Hw Hr Hl Hkeep. revert result Hr. induction l as [|y l IH]; intros result Hr Hd.
  { exists []. rewrite app_nil_r. split_and!; [done|constructor|done|]. intros x.
    split; [auto|]. intros [?|[(z&Hz&_) _]]; [done|by apply not_elem_of_nil in Hz]. }
  assert (Hl' : ∀ x, x ∈ l → x ∈ all) by (intros; apply Hl; by right).
  pose proof (list_contains_member h result y (no_wrappers_sub h result all Hr Hw)) as Hc.
  unfold collect. simpl. fold (collect keep h). destruct (list_contains h result y) eqn:Hin.
  - destruct (IH Hl' result Hr Hd) as (k&Hk&Hs&Hd'&Hm). exists k. split_and!; [done|by constructor|done|].
    intros x. rewrite Hm, (member_cons x y l). apply proj1 in Hc. specialize (Hc eq_refl). split; [tauto|].
    intros [?|[[Hy|?] ?]]; [by left| |by right]. left. by apply (member_same y).
  - destruct (keep y) eqn:Hky.
    + destruct (IH Hl' (result ++ [y])) as (k&Hk&Hs&Hd'&Hm).
      { intros x [?|Hx%list_elem_of_singleton]%elem_of_app; [auto|subst x]. apply Hl. by left. }
      { apply distinct_snoc; [done|]. intros Hm. by apply Hc in Hm. }
      exists (y :: k). rewrite <-app_assoc in Hk, Hd', Hm. split_and!; [done|by constructor|done|].
      intros x. simpl in Hm. rewrite Hm, member_app, member_one, (member_cons x y l). split; [|tauto].
      intros [[?|Hyx]|[? ?]]; [auto| |auto]. right. split; [by left|]. by rewrite <-(Hkeep y x).
    + destruct (IH Hl' result Hr Hd) as (k&Hk&Hs&Hd'&Hm). exists k.
      split_and!; [done|by constructor|done|]. intros x. rewrite Hm, (member_cons x y l).
      split; [tauto|]. intros [?|[[Hyx|?] Hx]]; [auto| |auto]. rewrite (Hkeep y x) in Hky by done. congruence.
Qed.

(** [ys] are the elements of [l] at the places where [P] holds, in order. *)
Definition at_places (P : nat → jsval → Prop) (l ys : list jsval) : Prop :=
  ∃ ks, StronglySorted lt ks ∧ (∀ i, i ∈ ks ↔ ∃ x, l !! i = Some x ∧ P i x) ∧
    ys = map (λ i, arg i l) ks.
(** No element before the place [i] is the same as [x]. *)
Definition first_at (l : list jsval) (i : nat) (x : jsval) : Prop :=
  ∀ j y, j < i → l !! j = Some y → ¬ same y x.

Lemma at_places_iff (P Q : nat → jsval → Prop) l ys :
  (∀ i x, l !! i = Some x → P i x ↔ Q i x) → at_places P l ys → at_places Q l ys.
Proof.
  intros HPQ (ks&Hs&Hk&->). exists ks. split_and!; [done| |done]. intros i. rewrite Hk.
  f_equiv. intros x. split; intros [Hx H]; (split; [done|]); by apply (HPQ i x Hx).
Qed.

Lemma at_places_snoc (P : nat → jsval → Prop) l ys x :
  at_places P l ys →
  (¬ P (length l) x → at_places P (l ++ [x]) ys) ∧
  (P (length l) x → at_places P (l ++ [x]) (ys ++ [x])).
Proof.
  intros (ks&Hs&Hk&->).
  assert (Hlt : ∀ i, i ∈ ks → i < length l).
  { intros i Hi. apply Hk in Hi as (y&Hy&_). by eapply lookup_lt_Some. }
  assert (Hmap : map (λ i, arg i (l ++ [x])) ks = map (λ i, arg i l) ks).
  { apply map_ext_in. intros i Hi%list_elem_of_In%Hlt. unfold arg. by rewrite lookup_app_l. }
  assert (Hold : ∀ i, i < length l → (l ++ [x]) !! i = l !! i) by (intros; by apply lookup_app_l).
  assert (Hnew : (l ++ [x]) !! length l = Some x) by by apply list_lookup_middle.
  assert (Hcase : ∀ i y, (l ++ [x]) !! i = Some y → i < length l ∧ l !! i = Some y ∨ i = length l ∧ y = x).
  { intros i y [Hi|[Hi Hy]]%lookup_app_Some; [left; split; [by eapply lookup_lt_Some|done]|right].
    apply list_lookup_singleton_Some in Hy as [? ->]. split; [lia|done]. }
  split; intros HP.
  - exists ks. split_and!; [done| |done]. intros i. rewrite Hk. split.
    + intros (y&Hy&Hp). exists y. by rewrite Hold by by eapply lookup_lt_Some.
    + intros (y&[[_ ?]|[-> ->]]%Hcase&Hp); [by exists y|done].
  - exists (ks ++ [length l]). split_and!.
    + apply StronglySorted_app_2; [|done|repeat constructor].
      intros i j Hi%Hlt Hj%list_elem_of_singleton. lia.
    + intros i. rewrite elem_of_app, list_elem_of_singleton, Hk. split.
      * intros [(y&Hy&Hp)| ->]; [|by exists x]. exists y. by rewrite Hold by by eapply lookup_lt_Some.
      * intros (y&[[_ ?]|[-> ->]]%Hcase&Hp); [left; by exists y|by right].
    + rewrite map_app, Hmap. simpl. unfold arg at 3. by rewrite Hnew.
Qed.

Lemma member_lookup x l : member x l ↔ ∃ j y, l !! j = Some y ∧ same y x.
Proof. unfold member. setoid_rewrite list_elem_of_lookup. naive_solver. Qed.

Lemma first_at_end l x : first_at l (length l) x ↔ ¬ member x l.
Proof.
  rewrite member_lookup. unfold first_at. split.
  - intros H (j&y&Hj&Hs). by apply (H j y); [eapply lookup_lt_Some|..].
  - intros H j y _ Hj Hs. apply H. by exists j, y.
Qed.
Lemma first_at_snoc l z i x : i ≤ length l → first_at (l ++ [z]) i x ↔ first_at l i x.
Proof.
  intros Hi. unfold first_at. split; intros H j y Hj; specialize (H j y Hj);
    by rewrite lookup_app_l in * by lia.
Qed.

(** The loop collects the first element of each class that passes. *)
Lemma collect_firsts keep h (all l : list jsval) :
  no_wrappers h all → (∀ x, x ∈ l → x ∈ all) → (∀ x y, same x y → keep x = keep y) →
  at_places (λ i x, keep x = true ∧ first_at l i x) l (collect keep h [] l).
Proof.
  intros Hw Hl Hkeep. induction l as [|x l IH] using rev_ind.
  { exists []. split_and!; [constructor| |done]. intros i.
    split; [by intros ?%not_elem_of_nil|by intros (?&?&_)]. }
  assert (Hl' : ∀ y, y ∈ l → y ∈ all) by (intros; apply Hl, elem_of_app; by left).
  destruct (collect_spec keep h all l [] Hw) as (ys&Hys&Hsub&_&Hm); try done; [|constructor|].
  { by intros y ?%not_elem_of_nil. }
  simpl in Hys, Hm.
  specialize (IH Hl').
  apply (at_places_iff _ (λ i x', keep x' = true ∧ first_at (l ++ [x]) i x')) in IH.
  2:{ intros i y Hy. rewrite first_at_snoc; [done|]. apply lookup_lt_Some in Hy. lia. }
  destruct (at_places_snoc _ l _ x IH) as [Hskip Hadd].
  rewrite first_at_snoc, first_at_end in Hskip, Hadd by done.
  assert (Hc : list_contains h (collect keep h [] l) x = true ↔ member x l ∧ keep x = true).
  { rewrite Hys, list_contains_member, Hm.
    - split; [|auto]. intros [(y&?%not_elem_of_nil&_)|?]; done.
    - eapply no_wrappers_sub; [|done]. intros y Hy. apply Hl'. eapply elem_of_submseteq; [done|].
      by apply sublist_submseteq. }
  assert (Hstep : collect keep h [] (l ++ [x]) =
    if list_contains h (collect keep h [] l) x then collect keep h [] l
    else if keep x then collect keep h [] l ++ [x] else collect keep h [] l).
  { unfold collect. by rewrite fold_left_app. }
  rewrite Hstep. destruct (list_contains h _ x).
  - apply Hskip. intros [_ Hn]. by apply Hn, Hc.
  - destruct (keep x); [|by apply Hskip; intros []].
    apply Hadd. split; [done|]. intros Hmem. by assert (false = true) by (apply Hc; done).
Qed.

Lemma unique_collect h l : unique h l = collect (λ _, true) h [] l.
Proof. done. Qed.

Section operations.
Variable e : engine.
Variable h : heap.

Lemma is_arr_elems a xs :
  is_arr h a xs → is_array h a = true ∧ elems_of h a = xs.
Proof.
  intros [(l&o&->&Hl&Hc&<-&_) _]. unfold is_array, elems_of, class_of. rewrite Hl, Hc.
  by rewrite bool_decide_eq_true_2.
Qed.

Lemma flatten_arrays strict fuel arrays (ls : list (list jsval)) :
  Forall2 (is_arr h) arrays ls → flatten h (S fuel) true strict arrays = Some (concat ls).
Proof.
  intros H. simpl. replace (mapM _ arrays) with (Some ls); [done|]. symmetry. apply mapM_Some.
  induction H as [|a xs arrays ls Ha _ IH]; [constructor|]. constructor; [|done].
  destruct (is_arr_elems a xs Ha) as [-> ->]. done.
Qed.

Lemma flatten_list_arrays arrays ls :
  Forall2 (is_arr h) arrays ls → gives h (flatten_list 1 true true arrays) (concat ls).
Proof.
  intros H. unfold flatten_list. eapply gives_bind; [apply gives_asks|].
  by rewrite (flatten_arrays true 0 arrays ls H).
Qed.

Lemma contains_arr a xs x : is_arr h a xs → gives h (contains_item e a x) (list_contains h xs x).
Proof.
  intros Ha. unfold contains_item, _contains. eapply gives_bind; [by apply list_of_arr|].
  eapply gives_bind; [apply gives_ret|]. reflexivity.
Qed.

Lemma in_all_arrays x arrays ls :
  Forall2 (is_arr h) arrays ls →
  gives h (in_all e x arrays) (forallb (λ l, list_contains h l x) ls).
Proof.
  induction 1 as [|a l arrays ls Ha _ IH]; [done|]. simpl. eapply gives_bind; [by apply contains_arr|].
  by destruct (list_contains h l x).
Qed.

Lemma intersection_loop_arr a xs others ls result ks :
  is_arr h a xs → Forall2 (is_arr h) others ls → in_range xs ks →
  gives h (intersection_loop e a others result (map num ks))
    (collect (λ x, forallb (λ l, list_contains h l x) ls) h result (map (λ i, arg i xs) ks)).
Proof.
  intros Ha Ho. revert result. induction ks as [|i ks IH]; intros result Hks; [done|].
  apply in_range_cons in Hks as [Hi Hks]. simpl. unfold collect. simpl.
  eapply gives_bind; [by apply (element_arr e h a xs)|]. eapply gives_bind; [apply gives_asks|].
  destruct (list_contains h result (arg i xs)); [by apply IH|].
  eapply gives_bind; [by apply in_all_arrays|]. by apply IH.
Qed.

Lemma uniq_loop_arr a xs i seen ks :
  is_arr h a xs → in_range xs ks →
  gives h (uniq_loop e a false None i None seen seen (map num ks))
    (collect (λ _, true) h seen (map (λ i, arg i xs) ks)).
Proof.
  intros Ha. revert i seen. induction ks as [|j ks IH]; intros i seen Hks; [done|].
  apply in_range_cons in Hks as [Hj Hks]. simpl. unfold collect. simpl.
  eapply gives_bind; [by apply (element_arr e h a xs)|]. eapply gives_bind; [apply gives_ret|].
  eapply gives_bind; [apply gives_asks|].
  destruct (list_contains h seen (arg j xs)); by apply IH.
Qed.

Lemma map_arg_seq (xs : list jsval) : map (λ i, arg i xs) (seq 0 (length xs)) = xs.
Proof.
  apply list_eq. intros i. change (map ?f ?l) with (f <$> l). rewrite list_lookup_fmap.
  destruct (decide (i < length xs)) as [Hi|Hi].
  - rewrite lookup_seq_lt by done. simpl. unfold arg.
    by destruct (lookup_lt_is_Some_2 xs i Hi) as [x ->].
  - by rewrite lookup_seq_ge, lookup_ge_None_2 by lia.
Qed.

Lemma elem_of_filter_map (keep : jsval → bool) (xs : list jsval) :
  map (λ i, arg i xs) (List.filter (λ i, keep (arg i xs)) (seq 0 (length xs)))
  = List.filter keep xs.
Proof.
  transitivity (List.filter keep (map (λ i, arg i xs) (seq 0 (length xs))));
    [|by rewrite map_arg_seq]. generalize (seq 0 (length xs)) as ks.
  induction ks as [|i ks IH]; [done|]. simpl. destruct (keep (arg i xs)); simpl; by rewrite IH.
Qed.

Lemma member_concat x ls : member x (concat ls) ↔ Exists (member x) ls.
Proof.
  induction ls as [|l ls IH]; simpl; [|by rewrite member_app, Exists_cons, IH].
  rewrite Exists_nil. split; [by intros (y&Hy%not_elem_of_nil&_)|done].
Qed.

Lemma quiet_asks (f : list jsval → heap → jsval) :
  quiet e h (Fn (λ _ args, asks (f args))) Undef (λ args, f args h).
Proof. done. Qed.

Lemma collect_all keep (all l : list jsval) :
  no_wrappers h all → (∀ x, x ∈ l → x ∈ all) → (∀ x y, same x y → keep x = keep y) →
  collect keep h [] l `sublist_of` l ∧ distinct (collect keep h [] l) ∧
  ∀ x, member x (collect keep h [] l) ↔ member x l ∧ keep x = true.
Proof.
  intros Hw Hl Hkeep. assert (Hn : ∀ x : jsval, x ∉ []) by (intros x; apply not_elem_of_nil).
  destruct (collect_spec keep h all l [] Hw) as (ys&->&?&?&Hm); try done; [|constructor|].
  { intros x Hx. by apply Hn in Hx. }
  split_and!; try done. intros x. rewrite Hm. split; [|auto].
  intros [(y&Hy&_)|?]; [by apply Hn in Hy|done].
Qed.

Lemma made_array (m : M (list jsval)) ys :
  gives h m ys → (let* xs := m in new_array e xs) h = Some (inl (Ref (length h)), h ++ [array e ys]).
Proof. intros Hm. by rewrite (bind_gives _ _ _ _ Hm). Qed.

Lemma uniq_arr a xs :
  is_arr h a xs → gives h (uniq_list e a false Undef Undef) (collect (λ _, true) h [] xs).
Proof.
  intros Ha. unfold uniq_list. cbn [nullish]. eapply gives_bind; [apply gives_ret|].
  eapply gives_bind; [by apply array_length_arr|].
  pose proof (uniq_loop_arr a xs 0 [] _ Ha (in_range_seq xs)) as H. by rewrite map_arg_seq in H.
Qed.

Lemma intersection_arr a xs others ls :
  is_arr h a xs → Forall2 (is_arr h) others ls →
  gives h (intersection_loop e a others [] (map num (seq 0 (length xs))))
    (collect (λ x, forallb (λ l, list_contains h l x) ls) h [] xs).
Proof.
  intros Ha Ho. pose proof (intersection_loop_arr a xs others ls [] _ Ha Ho (in_range_seq xs)) as H.
  by rewrite map_arg_seq in H.
Qed.

Lemma difference_made a xs others ls :
  is_arr h a xs → Forall2 (is_arr h) others ls →
  _difference e a others h =
    Some (inl (Ref (length h)),
          h ++ [array e (List.filter (λ x, negb (list_contains h (concat ls) x)) xs)]).
Proof.
  intros Ha Ho. unfold _difference. rewrite (bind_gives _ _ _ _ (flatten_list_arrays _ _ Ho)).
  pose proof (filter_list_arr e h a xs _ Undef _ Ha
    (quiet_asks (λ args h, Bool (negb (list_contains h (concat ls) (arg 0 args)))))) as Hf.
  unfold _filter. rewrite (made_array _ _ Hf). do 5 f_equal.
  apply (elem_of_filter_map (λ x, negb (list_contains h (concat ls) x))).
Qed.

Lemma filter_places (P : jsval → bool) l : at_places (λ _ x, P x = true) l (List.filter P l).
Proof.
  induction l as [|x l IH] using rev_ind.
  { exists []. split_and!; [constructor| |done]. intros i.
    split; [by intros ?%not_elem_of_nil|by intros (?&?&_)]. }
  destruct (at_places_snoc _ l _ x IH) as [Hskip Hadd]. rewrite List.filter_app. simpl.
  destruct (P x); [by apply Hadd|]. rewrite app_nil_r. by apply Hskip.
Qed.

(** C27: [_.uniq], [_.union], [_.intersection] and [_.difference] are the set
    operations on arrays: the result of the first three has, in the order of
    the arguments, the first element of each class and no other (of the classes
    in every array for an intersection); a difference has every element of its
    first array, duplicates included, whose class is in no other array.  Values
    are the same when they are [===] or both NaN, and the arrays hold no object
    around a number, which [_.isNaN] takes for NaN. *)
Theorem set_operations (first : jsval) (arrays : list jsval) (l : list jsval)
    (ls : list (list jsval)) :
  is_arr h first l → Forall2 (is_arr h) arrays ls → no_wrappers h (l ++ concat ls) →
  let made ys := Some (inl (Ref (length h)), h ++ [array e ys]) in
  let all := l ++ concat ls in
  (∃ ys, _uniq e first Undef Undef Undef h = made ys ∧
     at_places (λ i x, first_at l i x) l ys ∧ distinct ys ∧
     ∀ x, member x ys ↔ member x l) ∧
  (∃ ys, _union e (first :: arrays) h = made ys ∧
     at_places (λ i x, first_at all i x) all ys ∧ distinct ys ∧
     ∀ x, member x ys ↔ member x l ∨ Exists (member x) ls) ∧
  (∃ ys, _intersection e first arrays h = made ys ∧
     at_places (λ i x, Forall (member x) ls ∧ first_at l i x) l ys ∧ distinct ys ∧
     ∀ x, member x ys ↔ member x l ∧ Forall (member x) ls) ∧
  (∃ ys, _difference e first arrays h = made ys ∧
     at_places (λ _ x, ¬ Exists (member x) ls) l ys).
Proof.
  intros Ha Hs Hw made all.
  assert (Hl : ∀ x, x ∈ l → x ∈ l ++ concat ls) by (intros; apply elem_of_app; by left).
  assert (Hin : ∀ k x, k ∈ ls → list_contains h k x = true ↔ member x k).
  { intros k x Hk. apply list_contains_member. eapply no_wrappers_sub; [|done]. intros y Hy.
    apply elem_of_app. right. apply list_elem_of_In, in_concat. exists k. by rewrite <-!list_elem_of_In. }
  set (keep x := forallb (λ k, list_contains h k x) ls).
  assert (Hkeep : ∀ x, keep x = true ↔ Forall (member x) ls).
  { intros x. unfold keep. rewrite forallb_forall, Forall_forall. setoid_rewrite <-list_elem_of_In.
    split; intros H k Hk; by apply Hin, H. }
  assert (Hsame : ∀ x y, same x y → keep x = keep y).
  { intros x y Hxy. apply eq_bool_prop_intro. rewrite !Is_true_true, !Hkeep, !Forall_forall.
    split; intros H k Hk; (eapply member_same; [|by apply H]); [done|by symmetry]. }
  split_and!.
  - destruct (collect_all (λ _, true) _ l Hw Hl ltac:(done)) as (_&Hd&Hm).
    eexists. split_and!; [| |done|intros x; rewrite Hm; tauto].
    + by apply made_array, uniq_arr.
    + eapply at_places_iff; [|by apply (collect_firsts (λ _, true) h all)]. tauto.
  - destruct (collect_all (λ _, true) _ all Hw ltac:(done) ltac:(done)) as (_&Hd&Hm).
    eexists. split_and!; [| |done|intros x; rewrite Hm; unfold all; rewrite member_app, member_concat; tauto].
    + unfold _union. rewrite (bind_gives _ _ _ all); [done|].
      apply (flatten_list_arrays (first :: arrays) (l :: ls)). by constructor.
    + eapply at_places_iff; [|by apply (collect_firsts (λ _, true) h all)]. tauto.
  - destruct (collect_all keep _ l Hw Hl Hsame) as (_&Hd&Hm).
    eexists. split_and!; [| |done|intros x; by rewrite Hm, Hkeep].
    + unfold _intersection. rewrite (bind_gives _ _ _ _ (array_length_arr _ _ _ _ Ha)).
      by apply made_array, intersection_arr.
    + eapply at_places_iff; [|by apply (collect_firsts keep h all)]. intros i x _.
      cbv beta. by rewrite Hkeep.
  - eexists. split_and!; [by apply difference_made|].
    eapply at_places_iff; [|apply filter_places]. intros i x _. simpl.
    rewrite negb_true_iff, <-not_true_iff_false, list_contains_member, member_concat; [done|].
    apply (no_wrappers_sub h _ all); [|done]. intros y Hy. apply elem_of_app. by right.
Qed.
End operations.

(** ** Random order *)

(** A value of [Math.random()]. *)
Definition unit_interval (r : spec_float) : Prop :=
  match r with
  | S754_zero false => True
  | S754_finite false m ex => (ex < 0 ∧ Z.pos m < 2 ^ 53 ∧ Z.pos m < 2 ^ (- ex))%Z
  | _ => False
  end.

Lemma SFadd_0_l x :
  match x with S754_zero s => s = false | _ => True end → SFadd 53 1024 (num_of_Z 0) x = x.
Proof. by destruct x as [[]|[]| |]. Qed.

Lemma SFsub_0_r n : (0 ≤ n < 2 ^ 53)%Z → SFsub 53 1024 (num_of_Z n) (num_of_Z 0) = num_of_Z n.
Proof.
  intros H. destruct n as [|p|p]; [done| |lia]. by rewrite num_of_Z_pos by (unfold small; lia).
Qed.

(** The floor of a positive number below [t]; the bound is scaled by [2 ^ F]. *)
Lemma floor_below t m n F :
  (0 ≤ t < 2 ^ 53 → 0 ≤ F → Z.pos m * 2 ^ Z.of_nat n < t * 2 ^ F →
   ∃ k, Z_of_num (SFadd 53 1024 (num_of_Z 0) (SFfloor (S754_finite false m (Z.of_nat n - F))))
          = Some k ∧ 0 ≤ k < t)%Z.
Proof.
  intros Ht HF Hm. set (ex := (Z.of_nat n - F)%Z). unfold SFfloor.
  destruct (Z.leb_spec 0 ex) as [He|He].
  - rewrite SFadd_0_l by done. unfold Z_of_num. rewrite (proj2 (Z.leb_le _ _)) by done.
    eexists. split; [done|]. assert (0 < 2 ^ ex)%Z by (apply Z.pow_pos_nonneg; lia).
    replace (Z.of_nat n) with (ex + F)%Z in Hm by (unfold ex; lia). rewrite Z.pow_add_r in Hm by lia.
    assert (0 < 2 ^ F)%Z by (apply Z.pow_pos_nonneg; lia). nia.
  - assert (Hp : (0 < 2 ^ (- ex))%Z) by (apply Z.pow_pos_nonneg; lia).
    assert (Hn : (0 < 2 ^ Z.of_nat n)%Z) by (apply Z.pow_pos_nonneg; lia).
    replace F with (- ex + Z.of_nat n)%Z in Hm by (unfold ex; lia). rewrite Z.pow_add_r in Hm by lia.
    assert (Hk : (0 ≤ Z.pos m / 2 ^ (- ex) < t)%Z).
    { split; [apply Z.div_pos; lia|]. apply Z.div_lt_upper_bound; nia. }
    exists (Z.pos m / 2 ^ (- ex))%Z. split; [|done]. rewrite SFadd_0_l; [apply Z_of_num_of_Z; lia|].
    destruct (Z.pos m / 2 ^ (- ex))%Z as [|p|p]; [done| |lia].
    by rewrite num_of_Z_pos by (unfold small; lia).
Qed.

(** [_.random(0, n)] is a whole number from 0 to [n], although the product of a
    number below 1 and [n + 1] is rounded. *)
Lemma random_range r n :
  unit_interval r → (0 ≤ n < 2 ^ 53 - 1)%Z →
  ∃ k, Z_of_num (_random (num_of_Z 0) (num_of_Z n) r) = Some k ∧ (0 ≤ k ≤ n)%Z.
Proof.
  intros Hr Hn. unfold _random.
  rewrite SFsub_0_r, (SFadd_num n 1) by lia.
  destruct (n + 1)%Z as [|t|t] eqn:Ht; [lia| |lia]. assert (St : small t) by (unfold small; lia).
  rewrite num_of_Z_pos by done.
  destruct r as [[]|[]| |[] m ex]; try done; [exists 0%Z; split; [done|lia]|].
  destruct Hr as (Hex&Hm&Hm1). cbn [SFmul xorb].
  destruct (round_below m ex t Hm Hex Hm1 St) as (Hov&HE&Hb). cbv zeta in Hb, HE, Hov.
  change (Z.pos (m * whole_man t)) with (Z.pos m * Z.pos (whole_man t))%Z.
  destruct (round_value (Z.pos m * Z.pos (whole_man t)) (ex + whole_exp t)) as (q&Hq&_&Hq0&Hres);
    [lia|done|].
  apply Hb in Hq. set (E' := (_ `max` _)%Z) in *. destruct (decide (q = 0%Z)).
  - rewrite Hres. exists 0%Z. split; [done|lia].
  - destruct Hres as (m'&k&->&->&_).
    destruct (floor_below (Z.pos t) m' k (- E')) as (v&Hv&Hb'); [lia|lia|done|].
    exists v. replace (E' + Z.of_nat k)%Z with (Z.of_nat k - - E')%Z by lia. split; [done|lia].
Qed.

(** Draws for a list of [n] elements: the draw for place [i] is at most [i]. *)
Definition draws_ok (ds : list nat) : Prop := ∀ i d, ds !! i = Some d → d ≤ i.

(** The order that draws give. *)
Definition shuffled (ds : list nat) {A} (xs : list A) : option (list A) :=
  shuffle_loop (λ i, ds !! i) xs 0 [].

Lemma shuffle_loop_snoc {A} draw (xs : list A) i s x :
  shuffle_loop draw (xs ++ [x]) i s =
    s' ← shuffle_loop draw xs i s;
    d ← draw (i + length xs); Some (place (s' ++ [x]) (i + length xs) d x).
Proof.
  revert i s. induction xs as [|y xs IH]; intros i s; simpl.
  - rewrite Nat.add_0_r. by destruct (draw i).
  - destruct (draw i) as [d|]; [|done]. by rewrite IH, Nat.add_succ_comm.
Qed.

Lemma shuffle_loop_draws {A} (draw draw' : nat → option nat) (xs : list A) i s :
  (∀ j, i ≤ j < i + length xs → draw j = draw' j) →
  shuffle_loop draw xs i s = shuffle_loop draw' xs i s.
Proof.
  revert i s. induction xs as [|x xs IH]; intros i s Hd; [done|]. simpl.
  rewrite <-Hd by (simpl; lia). destruct (draw i); [|done]. apply IH. intros j Hj. apply Hd. simpl. lia.
Qed.

(** The last element goes to place [d], and what was there to the end. *)
Lemma place_last {A} (s : list A) d x :
  d ≤ length s →
  place (s ++ [x]) (length s) d x =
    if decide (d = length s) then s ++ [x]
    else <[d := x]> s ++ [default x (s !! d)].
Proof.
  intros Hd. unfold place. destruct (decide (d = length s)) as [->|Hne].
  - rewrite lookup_snoc_eq. rewrite list_insert_insert_eq. rewrite list_insert_id; [done|].
    apply lookup_snoc_eq.
  - assert (Hlt : d < length s) by lia. rewrite lookup_snoc_lt by done.
    destruct (lookup_lt_is_Some_2 s d Hlt) as [y Hy]. rewrite Hy. simpl.
    rewrite <-(Nat.add_0_r (length s)) at 1. rewrite insert_app_r. simpl.
    by rewrite insert_app_l.
Qed.

Lemma place_perm {A} (s : list A) d x :
  d ≤ length s → place (s ++ [x]) (length s) d x ≡ₚ s ++ [x].
Proof.
  intros Hd. rewrite place_last by done. destruct (decide _); [done|].
  assert (Hlt : d < length s) by lia. destruct (lookup_lt_is_Some_2 s d Hlt) as [y Hy]. rewrite Hy. simpl.
  rewrite insert_take_drop by done. rewrite <-(take_drop_middle s d y) at 3 by done.
  rewrite <-!app_assoc. simpl. apply Permutation_app_head. rewrite <-!Permutation_cons_append.
  apply Permutation_swap.
Qed.

Lemma shuffled_snoc {A} ds d (xs : list A) x :
  length ds = length xs →
  shuffled (ds ++ [d]) (xs ++ [x]) =
    s ← shuffled ds xs; Some (place (s ++ [x]) (length xs) d x).
Proof.
  intros Hl. unfold shuffled. rewrite shuffle_loop_snoc. simpl. rewrite <-Hl, lookup_snoc_eq. simpl.
  rewrite (shuffle_loop_draws _ (λ i, ds !! i)); [done|].
  intros j Hj. apply lookup_snoc_lt. lia.
Qed.

Lemma draws_ok_snoc ds d : draws_ok (ds ++ [d]) ↔ draws_ok ds ∧ d ≤ length ds.
Proof.
  split.
  - intros H. split; [|apply (H (length ds)), lookup_snoc_eq]. intros i c Hi. apply (H i).
    by rewrite lookup_snoc_lt by by eapply lookup_lt_Some.
  - intros [H Hd] i c [[Hi Hc]|[-> <-]]%lookup_snoc_inv; [by apply (H i)|done].
Qed.

Lemma shuffled_perm {A} (xs : list A) ds :
  length ds = length xs → draws_ok ds → ∃ p, shuffled ds xs = Some p ∧ p ≡ₚ xs.
Proof.
  revert ds. induction xs as [|x xs IH] using rev_ind; intros ds Hl Hd.
  { by exists []. }
  rewrite length_app in Hl. simpl in Hl. destruct ds as [|d ds _] using rev_ind; [simpl in Hl; lia|].
  rewrite length_app in Hl. simpl in Hl. apply draws_ok_snoc in Hd as [Hd Hle].
  destruct (IH ds ltac:(lia) Hd) as (p&Hp&Hperm). rewrite shuffled_snoc, Hp by lia. simpl.
  eexists. split; [done|]. assert (length xs = length p) as -> by by rewrite Hperm.
  rewrite place_perm by (rewrite Hperm; lia). by rewrite Hperm.
Qed.

(** The place of the last element tells the draw, and undoing it the rest. *)
Lemma place_inj {A} (s t : list A) d c x :
  length s = length t → d ≤ length s → c ≤ length s → x ∉ s → x ∉ t →
  place (s ++ [x]) (length s) d x = place (t ++ [x]) (length t) c x → s = t ∧ d = c.
Proof.
  intros Hl Hd Hc Hs Ht. rewrite !place_last, <-Hl by lia.
  assert (Hfind : ∀ (u : list A) b, length u = length s → b ≤ length s → x ∉ u →
    ∀ i, (if decide (b = length s) then u ++ [x] else <[b:=x]> u ++ [default x (u !! b)]) !! i
         = Some x → i = b).
  { intros v b Hv Hb Hx i. destruct (decide (b = length s)) as [->|Hne]; intros Hi.
    - apply lookup_snoc_inv in Hi as [[_ Hi]|[-> _]]; [|done]. by apply list_elem_of_lookup_2 in Hi.
    - apply lookup_snoc_inv in Hi as [[_ Hi]|[-> Hi]].
      + apply list_lookup_insert_Some in Hi as [(->&_&_)|[_ Hi]]; [done|].
        by apply list_elem_of_lookup_2 in Hi.
      + destruct (lookup_lt_is_Some_2 v b ltac:(lia)) as [y Hy]. rewrite Hy in Hi. simpl in Hi. subst y.
        by apply list_elem_of_lookup_2 in Hy. }
  intros Heq.
  assert (d = c) as ->.
  { apply (Hfind t c); [done|done|done|]. rewrite <-Heq.
    destruct (decide (d = length s)) as [->|]; [apply lookup_snoc_eq|].
    rewrite lookup_snoc_lt by (rewrite length_insert; lia). apply list_lookup_insert_eq. lia. }
  split; [|done]. destruct (decide (c = length s)); [by simplify_list_eq|].
  apply app_inj_2 in Heq as [Hi [= Hy]]; [|done].
  destruct (lookup_lt_is_Some_2 s c ltac:(lia)) as [y Hy1].
  destruct (lookup_lt_is_Some_2 t c ltac:(lia)) as [z Hz1]. rewrite Hy1, Hz1 in Hy. simpl in Hy. subst z.
  rewrite <-(list_insert_id s c y), <-(list_insert_id t c y) by done.
  rewrite <-(list_insert_insert_eq s c y x), <-(list_insert_insert_eq t c y x). by rewrite Hi.
Qed.

Lemma unplace {A} (p : list A) n c x :
  length p = S n → p !! c = Some x →
  ∃ s, length s = n ∧ c ≤ n ∧ place (s ++ [x]) n c x = p.
Proof.
  intros Hl Hc. destruct p as [|y q _] using rev_ind; [done|].
  rewrite length_app in Hl. simpl in Hl. assert (length q = n) as <- by lia.
  pose proof (lookup_lt_Some _ _ _ Hc) as Hlt. rewrite length_app in Hlt. simpl in Hlt.
  apply lookup_snoc_inv in Hc as [[Hq Hc]|[-> ->]].
  - exists (<[c := y]> q). rewrite length_insert. split; [done|]. split; [lia|].
    rewrite <-(length_insert q c y) at 1. rewrite place_last by (rewrite length_insert; lia).
    rewrite length_insert. rewrite decide_False by lia.
    rewrite list_insert_insert_eq, list_insert_id by done. by rewrite list_lookup_insert_eq.
  - exists q. split; [done|]. split; [lia|]. rewrite place_last, decide_True by lia. done.
Qed.

Lemma shuffled_all {A} (xs p : list A) :
  NoDup xs → p ≡ₚ xs →
  ∃ ds, length ds = length xs ∧ draws_ok ds ∧ shuffled ds xs = Some p ∧
    ∀ ds', length ds' = length xs → draws_ok ds' → shuffled ds' xs = Some p → ds' = ds.
Proof.
  revert p. induction xs as [|x xs IH] using rev_ind; intros p Hn Hp.
  { apply Permutation_nil_r in Hp as ->. exists []. split_and!; [done|by intros i d|done|].
    by intros [] ? _ _. }
  apply NoDup_app in Hn as (Hn&Hx&_). assert (x ∉ xs) by (intros ?; by eapply Hx, list_elem_of_here).
  assert (Hxp : x ∈ p) by (rewrite Hp; apply elem_of_app; right; by left).
  apply list_elem_of_lookup in Hxp as [c Hc]. pose proof (Permutation_length Hp) as Hl.
  rewrite length_app, Nat.add_1_r in Hl.
  destruct (unplace p (length xs) c x Hl Hc) as (s&Hs&Hcn&Hplace).
  assert (Hperm : s ≡ₚ xs).
  { apply (Permutation_app_inv_r [x]). rewrite <-Hp, <-Hplace, <-Hs. symmetry. apply place_perm. lia. }
  destruct (IH s Hn Hperm) as (ds&Hds&Hok&Hshuf&Huniq). exists (ds ++ [c]).
  rewrite !length_app. split; [simpl; lia|]. split; [by apply draws_ok_snoc; rewrite Hds|].
  split; [by rewrite shuffled_snoc, Hshuf by done; simpl; rewrite Hplace|].
  intros ds' Hl' Hok' Hs'. simpl in Hl'. destruct ds' as [|d es _] using rev_ind; [simpl in Hl'; lia|].
  rewrite length_app in Hl'. simpl in Hl'. apply draws_ok_snoc in Hok' as [Hok' Hd].
  assert (Hles : length es = length xs) by lia.
  rewrite shuffled_snoc in Hs' by done. destruct (shuffled_perm xs es Hles Hok') as (t&Ht&Htp).
  rewrite Ht in Hs'. simpl in Hs'. injection Hs' as Hs'. rewrite <-Hplace in Hs'.
  assert (Htl : length t = length xs) by by rewrite Htp.
  rewrite <-Htl in Hs' at 1. rewrite <-Hs in Hs' at 1.
  apply place_inj in Hs' as [-> ->]; [|lia|lia|lia|by rewrite Htp|by rewrite Hperm].
  by rewrite (Huniq es).
Qed.

Section shuffle.
Variable e : engine.

Lemma drawn_ok random n :
  (∀ i, unit_interval (random i)) → (Z.of_nat n < 2 ^ 53)%Z →
  ∃ ds, length ds = n ∧ draws_ok ds ∧ ∀ i, i < n → drawn random i = ds !! i.
Proof.
  intros Hr. induction n as [|n IH]; intros Hn; [by exists []; split_and!; [|intros i d|]; [|done|lia]|].
  destruct IH as (ds&Hl&Hok&Hds); [lia|].
  destruct (random_range (random n) (Z.of_nat n) (Hr n)) as (k&Hk&Hb); [lia|].
  exists (ds ++ [Z.to_nat k]). rewrite length_app. split; [simpl; lia|].
  split; [apply draws_ok_snoc; split; [done|lia]|]. intros i Hi.
  destruct (decide (i = n)) as [->|].
  - unfold drawn. rewrite Hk. rewrite <-Hl at 1. by rewrite lookup_snoc_eq.
  - rewrite lookup_snoc_lt by lia. apply Hds. lia.
Qed.

Lemma shuffle_made h a xs random ds p :
  is_arr h a xs → length ds = length xs → (∀ i, i < length xs → drawn random i = ds !! i) →
  shuffled ds xs = Some p →
  _shuffle e random a h = Some (inl (Ref (length h)), h ++ [array e p]).
Proof.
  intros Ha Hl Hd Hs. unfold _shuffle. apply made_array. unfold shuffle_list.
  eapply gives_bind; [by apply list_of_arr|].
  eapply gives_bind; [pose proof (check_length_arr h a xs Ha) as Hc;
    by rewrite length_map, length_seq in Hc|].
  rewrite (shuffle_loop_draws _ (λ i, ds !! i)) by (intros; apply Hd; lia).
  fold (shuffled ds xs). by rewrite Hs.
Qed.

(** C29: [_.shuffle] gives a permutation of the elements whatever
    [Math.random] gives, and it is fair: the draw for the [i]-th element is one
    of [i + 1] numbers, and when the elements differ each permutation comes
    from exactly one sequence of draws. *)
Theorem shuffle_fair (h : heap) (a : jsval) (xs : list jsval) :
  is_arr h a xs →
  (∀ random, (∀ i, unit_interval (random i)) →
     ∃ ds p, length ds = length xs ∧ draws_ok ds ∧ shuffled ds xs = Some p ∧ p ≡ₚ xs ∧
       (∀ i, i < length xs → drawn random i = ds !! i) ∧
       _shuffle e random a h = Some (inl (Ref (length h)), h ++ [array e p])) ∧
  (NoDup xs → ∀ p, p ≡ₚ xs →
     ∃ ds, length ds = length xs ∧ draws_ok ds ∧ shuffled ds xs = Some p ∧
       ∀ ds', length ds' = length xs → draws_ok ds' → shuffled ds' xs = Some p → ds' = ds).
Proof.
  intros Ha. split; [|intros Hn p; by apply shuffled_all]. intros random Hr.
  pose proof (arr_small h a xs (length xs) Ha ltac:(lia)).
  destruct (drawn_ok random (length xs) Hr) as (ds&Hl&Hok&Hd); [lia|].
  destruct (shuffled_perm xs ds Hl Hok) as (p&Hp&Hperm). exists ds, p. split_and!; try done.
  by eapply shuffle_made.
Qed.
End shuffle.

Lemma set_operations_witness :
  ∃ ys, _union sample_engine [Ref 3; Ref 3] sample_heap =
    Some (inl (Ref 4), sample_heap ++ [array sample_engine ys]) ∧ distinct ys.
Proof.
  destruct (set_operations sample_engine sample_heap (Ref 3) [Ref 3] [num 3; num 1; num 2]
    [[num 3; num 1; num 2]]) as (_&(ys&Hu&_&Hd&_)&_).
  - apply sample_arr.
  - constructor; [apply sample_arr|constructor].
  - intros p Hp. simpl in Hp. repeat (apply elem_of_cons in Hp as [?|Hp]; [done|]).
    by apply not_elem_of_nil in Hp.
  - exists ys. split; [exact Hu|exact Hd].
Defined.

(** [_.isNaN] takes an object around a number for NaN, and [_.contains] then
    finds NaN where it is not. *)
Lemma contains_wrapper :
  gives [sample_object "Number" None []; sample_object "Array" None [Ref 0]]
    (contains_item sample_engine (Ref 1) (Num S754_nan)) true.
Proof. reflexivity. Qed.

(** [_.lastIndexOf] of NaN from before the array searches a slice that is
    counted from its end. *)
Lemma lastIndexOf_slice :
  let h := [sample_object "Array" None [Num S754_nan; num 1; num 2]] in
  gives h (_lastIndexOf sample_engine (Ref 0) (Num S754_nan) (Num (num_of_Z (-5)))) (num 0) ∧
  gives h (_lastIndexOf sample_engine (Ref 0) (Num S754_nan) (Num (num_of_Z (-4)))) minus_one.
Proof. split; vm_compute; reflexivity. Qed.

Lemma shuffle_fair_witness :
  ∃ ds, shuffled ds [num 3; num 1; num 2] = Some [num 2; num 3; num 1].
Proof.
  destruct (shuffle_fair sample_engine sample_heap (Ref 3) [num 3; num 1; num 2] sample_arr)
    as [_ Hall].
  assert (Hn : NoDup [num 3; num 1; num 2])
    by (repeat constructor; apply (bool_decide_unpack _); vm_compute; exact I).
  destruct (Hall Hn [num 2; num 3; num 1]) as (ds&_&_&Hds&_).
  - apply (Permutation_cons_append [num 3; num 1] (num 2)).
  - exists ds. exact Hds.
Defined.
