(* ===== verification/UnderscoreObjects.v ===== *)
(** * Copying properties: [_.extend], [_.extendOwn], [_.defaults], [_.clone]

    A target that is not on the prototype chain of a source does not change
    what the source says; then the properties of the target after the call are
    those it had, overridden by the sources in turn. *)

From S2P Require Import Prelude JsString JsValue Numbers JsMonad BraceExpansion.
From S2P Require Import Underscore UnderscoreArrays UnderscoreFacts.

#[local] Open Scope js_scope.

(** ** Properties as finite maps *)

Lemma assoc_replace k k' v ps :
  assoc k ps ≠ None →
  assoc k' (replace_prop k v ps) = if bool_decide (k' = k) then Some v else assoc k' ps.
Proof.
  induction ps as [|[j w] ps IH]; intros Hk; [done|]. simpl in *.
  destruct (decide (j = k)) as [->|Hj].
  - rewrite bool_decide_eq_true_2 by done. simpl.
    destruct (decide (k = k')) as [->|]; [by rewrite !bool_decide_eq_true_2|].
    by rewrite !(bool_decide_eq_false_2 (k = k')), (bool_decide_eq_false_2 (k' = k)) by congruence.
  - rewrite bool_decide_eq_false_2 in * by done. simpl. rewrite IH by done.
    destruct (decide (j = k')) as [->|].
    + by rewrite !bool_decide_eq_true_2, bool_decide_eq_false_2 by done.
    + by rewrite (bool_decide_eq_false_2 (j = k')) by done.
Qed.

Lemma assoc_add k k' v ps :
  assoc k ps = None →
  assoc k' (add_prop k v ps) = if bool_decide (k' = k) then Some v else assoc k' ps.
Proof.
  induction ps as [|[j w] ps IH]; intros Hk; simpl in *; [by case_bool_decide; case_bool_decide; subst|].
  destruct (decide (j = k)) as [->|Hj]; [by rewrite bool_decide_eq_true_2 in Hk|].
  rewrite bool_decide_eq_false_2 in Hk by done. destruct (comes_before k j); simpl.
  - destruct (decide (k = k')) as [->|]; [by rewrite !bool_decide_eq_true_2|].
    by rewrite !(bool_decide_eq_false_2 (k = k')), (bool_decide_eq_false_2 (k' = k)) by congruence.
  - rewrite IH by done. destruct (decide (j = k')) as [->|].
    + by rewrite !bool_decide_eq_true_2, bool_decide_eq_false_2 by done.
    + by rewrite (bool_decide_eq_false_2 (j = k')) by done.
Qed.

Lemma assoc_put k k' v ps :
  assoc k' (put_prop k v ps) = if bool_decide (k' = k) then Some v else assoc k' ps.
Proof.
  unfold put_prop. destruct (assoc k ps) eqn:Hk; [apply assoc_replace; congruence|by apply assoc_add].
Qed.

(** ** Objects apart from the target *)

Section apart.
Variable e : engine.
Variables (h : heap) (l : nat).

Lemma get_chain_apart o fuel s k :
  s ≠ l → on_chain h fuel s l = false →
  get_chain (<[l := o]> h) fuel s k = get_chain h fuel s k.
Proof.
  revert s. induction fuel as [|fuel IH]; intros s Hs Hc; [done|]. simpl in *.
  rewrite list_lookup_insert_ne by done. destruct (h !! s) as [os|]; [|done].
  destruct (own_get os k); [done|]. destruct (o_proto os) as [q|]; [|done].
  apply orb_false_iff in Hc as [Hq Hc]. apply Nat.eqb_neq in Hq. by apply IH.
Qed.

Lemma chain_keys_apart o fuel s :
  s ≠ l → on_chain h fuel s l = false →
  chain_keys (<[l := o]> h) fuel s = chain_keys h fuel s.
Proof.
  revert s. induction fuel as [|fuel IH]; intros s Hs Hc; [done|]. simpl in *.
  rewrite list_lookup_insert_ne by done. destruct (h !! s) as [os|]; [|done]. do 2 f_equal.
  destruct (o_proto os) as [q|]; [|done].
  apply orb_false_iff in Hc as [Hq Hc]. apply Nat.eqb_neq in Hq. by apply IH.
Qed.

Lemma on_chain_apart o fuel s p :
  s ≠ l → on_chain h fuel s l = false → on_chain (<[l := o]> h) fuel s p = on_chain h fuel s p.
Proof.
  revert s. induction fuel as [|fuel IH]; intros s Hs Hc; [done|]. simpl in *.
  rewrite list_lookup_insert_ne by done. destruct (h !! s) as [os|]; [|done].
  destruct (o_proto os) as [q|]; [|done].
  apply orb_false_iff in Hc as [Hq Hc]. apply Nat.eqb_neq in Hq. f_equal. by apply IH.
Qed.

(** A source is not the target, nor inherits from it. *)
Definition apart (s : nat) : Prop := s ≠ l ∧ has_proto h s l = false.

Lemma find_key_apart o s k :
  apart s → find_key e (<[l := o]> h) (Ref s) k = find_key e h (Ref s) k.
Proof.
  intros [Hs Hc]. unfold find_key, has_proto in *. rewrite length_insert, get_chain_apart by done.
  rewrite on_chain_apart by done. by rewrite list_lookup_insert_ne.
Qed.

Lemma own_keys_apart o s : apart s → keys (<[l := o]> h) s = keys h s.
Proof. intros [Hs _]. unfold keys. by rewrite list_lookup_insert_ne. Qed.

Lemma all_keys_apart o s :
  apart s → chain_keys (<[l := o]> h) (S (length (<[l := o]> h))) s = chain_keys h (S (length h)) s.
Proof. intros [Hs Hc]. rewrite length_insert. by apply chain_keys_apart. Qed.

(** ** The target *)

Variable o : object.
Hypothesis Hl : h !! l = Some o.
(** An ordinary object, that does not inherit from itself. *)
Hypothesis Hplain : (o_class o ∉ ["Array"; "Arguments"]) ∧ o_elems o = [].
Hypothesis Hacyclic : has_proto h l l = false.

(** The heap when the target has the properties [ps]. *)
Definition with_props (ps : list (jstr * jsval)) : heap := <[l := set_props ps o]> h.

Lemma with_props_lookup ps : with_props ps !! l = Some (set_props ps o).
Proof. apply list_lookup_insert_eq. by eapply lookup_lt_Some. Qed.

Lemma own_get_plain ps k : own_get (set_props ps o) k = assoc k ps.
Proof.
  unfold own_get, entries. cbn [o_elems o_props set_props o_class]. destruct Hplain as [Hc ->]. simpl.
  destruct (assoc k ps); [done|]. rewrite (bool_decide_eq_false_2 (_ ∈ _)) by done. by rewrite andb_false_r.
Qed.

Lemma put_target ps k x :
  k ≠ proto_key →
  js_put e (Ref l) k x (with_props ps) = Some (inl tt, with_props (put_prop k x ps)).
Proof.
  intros Hk. unfold js_put. rewrite with_props_lookup. cbn [o_class set_props].
  rewrite bool_decide_eq_false_2 by apply Hplain.
  unfold put_named. rewrite (bool_decide_eq_false_2 (k = _)) by done. cbn [andb].
  unfold update, with_props. by rewrite list_insert_insert_eq.
Qed.

(** The value of a key of a source, or of the target. *)
Definition value_of (s : nat) (k : jstr) : jsval := default Undef (find_key e h (Ref s) k).

Lemma get_source ps s k :
  apart s → gives (with_props ps) (js_get e (Ref s) k) (value_of s k).
Proof.
  intros Hs. unfold js_get, value_of. cbn [nullish]. unfold gives, asks.
  do 4 f_equal. by apply find_key_apart.
Qed.

(** What the target inherits. *)
Definition inherited (k : jstr) : jsval :=
  default Undef (find_key e (with_props []) (Ref l) k).

Lemma get_target ps k :
  gives (with_props ps) (js_get e (Ref l) k) (default (inherited k) (assoc k ps)).
Proof.
  unfold js_get, gives, asks, inherited, find_key. cbn [nullish].
  assert (Hc : ∀ ps k, get_chain (with_props ps) (S (length (with_props ps))) l k =
    match assoc k ps with Some v => Some v | None =>
      match o_proto o with Some p => get_chain h (length h) p k | None => None end end).
  { intros ps' k'. cbn [get_chain]. rewrite with_props_lookup, own_get_plain. cbn [o_proto set_props].
    destruct (assoc k' ps'); [done|]. destruct (o_proto o) as [p|] eqn:Hp; [|done].
    unfold with_props. rewrite length_insert. unfold has_proto in Hacyclic. simpl in Hacyclic.
    rewrite Hl, Hp in Hacyclic. apply orb_false_iff in Hacyclic as [Hq Hch].
    apply Nat.eqb_neq in Hq. by apply get_chain_apart. }
  assert (Hps : ∀ ps, has_proto (with_props ps) l (e_object_proto e) = has_proto h l (e_object_proto e)).
  { intros ps'. unfold has_proto, with_props. rewrite length_insert. simpl.
    rewrite list_lookup_insert_eq, Hl by (by eapply lookup_lt_Some). cbn [o_proto set_props].
    destruct (o_proto o) as [p|] eqn:Hp; [|done].
    unfold has_proto in Hacyclic. simpl in Hacyclic. rewrite Hl, Hp in Hacyclic.
    apply orb_false_iff in Hacyclic as [Hq Hch]. apply Nat.eqb_neq in Hq. f_equal.
    by apply on_chain_apart. }
  rewrite !Hc, !Hps, !with_props_lookup. cbn [assoc]. destruct (assoc k ps); [done|].
  destruct (match o_proto o with Some p => get_chain h (length h) p k | None => None end); [done|].
  simpl. by case_match.
Qed.

(** ** Assigning *)

(** What one key of a source does to the properties of the target. *)
Definition assign (undefinedOnly : bool) (s : nat) (ps : list (jstr * jsval)) (k : jstr)
    : list (jstr * jsval) :=
  if negb undefinedOnly || strict_eq (default (inherited k) (assoc k ps)) Undef
  then put_prop k (value_of s k) ps else ps.

(** What a source with the keys [ks] makes of the value a key has. *)
Definition override (undefinedOnly : bool) (ks : list jstr) (s : nat) (k : jstr)
    (cur : option jsval) : option jsval :=
  if bool_decide (k ∈ ks)
     && (negb undefinedOnly || strict_eq (default (inherited k) cur) Undef)
  then Some (value_of s k) else cur.

Lemma assoc_assign u s ps ks k :
  assoc k (foldl (assign u s) ps ks) = override u ks s k (assoc k ps).
Proof.
  revert ps. induction ks as [|j ks IH]; intros ps; simpl.
  { unfold override. by rewrite bool_decide_eq_false_2 by apply not_elem_of_nil. }
  rewrite IH. unfold override, assign.
  destruct (decide (k = j)) as [->|Hkj].
  - rewrite (bool_decide_eq_true_2 (j ∈ j :: ks)) by by left. cbn [andb].
    destruct (negb u || strict_eq (default (inherited j) (assoc j ps)) Undef) eqn:Hc.
    + rewrite assoc_put, (bool_decide_eq_true_2 (j = j)) by done. by case_match.
    + by rewrite Hc, andb_false_r.
  - assert (bool_decide (k ∈ j :: ks) = bool_decide (k ∈ ks)) as ->.
    { apply bool_decide_ext. rewrite elem_of_cons. tauto. }
    destruct (negb u || strict_eq (default (inherited j) (assoc j ps)) Undef); [|done].
    by rewrite assoc_put, (bool_decide_eq_false_2 (k = j)) by done.
Qed.

Lemma assign_key_target u s ps k :
  apart s → k ≠ proto_key →
  assign_key e u (Ref l) (Ref s) k (with_props ps) = Some (inl tt, with_props (assign u s ps k)).
Proof.
  intros Hs Hk. unfold assign_key, assign.
  rewrite (bind_gives _ _ _ (negb u || strict_eq (default (inherited k) (assoc k ps)) Undef)).
  - destruct (negb u || _); [|done]. rewrite (bind_gives _ _ _ _ (get_source ps s k Hs)).
    by apply put_target.
  - destruct u; [|done]. eapply gives_bind; [apply get_target|]. done.
Qed.

Lemma assign_keys_target u s ps ks :
  apart s → proto_key ∉ ks →
  for_each (assign_key e u (Ref l) (Ref s)) ks (with_props ps) =
    Some (inl tt, with_props (foldl (assign u s) ps ks)).
Proof.
  intros Hs. revert ps. induction ks as [|k ks IH]; intros ps Hk; [done|]. simpl.
  apply not_elem_of_cons in Hk as [Hk Hks].
  rewrite (bind_runs _ _ _ _ _ (assign_key_target u s ps k Hs (not_eq_sym Hk))). by apply IH.
Qed.

Section assigner.
Variables (keysFunc : jsval → M (list jstr)) (keys_of : nat → list jstr).
Hypothesis Hkeys : ∀ s ps, apart s → gives (with_props ps) (keysFunc (Ref s)) (keys_of s).

Definition assigned (u : bool) (sources : list nat) (ps : list (jstr * jsval)) :=
  foldl (λ ps s, foldl (assign u s) ps (keys_of s)) ps sources.

Lemma assigner_sources u sources ps :
  Forall (λ s, apart s ∧ proto_key ∉ keys_of s) sources →
  for_each (λ source, let* ks := keysFunc source in for_each (assign_key e u (Ref l) source) ks)
    (map Ref sources) (with_props ps) = Some (inl tt, with_props (assigned u sources ps)).
Proof.
  intros H. revert ps. induction H as [|s sources [Hs Hp] _ IH]; intros ps; [done|]. simpl.
  rewrite (bind_runs _ (with_props (foldl (assign u s) ps (keys_of s))) _ _ tt); [apply IH|].
  rewrite (bind_gives _ _ _ _ (Hkeys s ps Hs)). by apply assign_keys_target.
Qed.

Lemma assoc_assigned u sources ps k :
  assoc k (assigned u sources ps) =
    foldl (λ cur s, override u (keys_of s) s k cur) (assoc k ps) sources.
Proof.
  revert ps. induction sources as [|s sources IH]; intros ps; [done|]. simpl.
  by rewrite IH, assoc_assign.
Qed.

Lemma with_props_self : with_props (o_props o) = h.
Proof.
  unfold with_props. apply list_insert_id. rewrite Hl. f_equal. by destruct o.
Qed.

Lemma assigner_target u sources :
  Forall (λ s, apart s ∧ proto_key ∉ keys_of s) sources →
  assigner e keysFunc u (Ref l) (map Ref sources) h =
    Some (inl (Ref l), with_props (assigned u sources (o_props o))).
Proof.
  intros H. unfold assigner. destruct sources as [|s sources]; [simpl; by rewrite with_props_self|].
  rewrite (bool_decide_eq_false_2 (map Ref (s :: sources) = [])) by done.
  cbn [nullish orb]. rewrite <-with_props_self at 1.
  by rewrite (bind_runs _ _ _ _ _ (assigner_sources u (s :: sources) (o_props o) H)).
Qed.
End assigner.

Lemma allKeys_apart s ps :
  apart s → gives (with_props ps) (_allKeys (Ref s)) (chain_keys h (S (length h)) s).
Proof. intros Hs. unfold _allKeys, gives, asks, with_props. by rewrite all_keys_apart. Qed.
Lemma keys_apart s ps : apart s → gives (with_props ps) (_keys (Ref s)) (keys h s).
Proof. intros Hs. unfold _keys, gives, asks, with_props. by rewrite own_keys_apart. Qed.

(** The function that copies, the keys it copies, and whether only into gaps. *)
Definition copies (f : jsval → list jsval → M jsval) (keys_of : nat → list jstr) (u : bool) : Prop :=
  ∀ sources, Forall (λ s, apart s ∧ proto_key ∉ keys_of s) sources →
    ∃ ps, f (Ref l) (map Ref sources) h = Some (inl (Ref l), with_props ps) ∧
      ∀ k, assoc k ps = foldl (λ cur s, override u (keys_of s) s k cur) (assoc k (o_props o)) sources.

Lemma copies_of keysFunc keys_of u :
  (∀ s ps, apart s → gives (with_props ps) (keysFunc (Ref s)) (keys_of s)) →
  copies (assigner e keysFunc u) keys_of u.
Proof.
  intros Hk sources Hs. eexists. split; [by apply assigner_target|]. intros k. apply assoc_assigned.
Qed.
End apart.

(** C30: For a target that is an ordinary object (no array or arguments
    object) and sources that are objects other than the target, do not inherit
    from it and have no key [__proto__] among those copied (it would set the
    prototype of the target), [_.extend], [_.extendOwn] and [_.defaults] change
    nothing but the properties of the target: a key has the value of the
    last source that has it, own or inherited, or only own for [_.extendOwn],
    and keeps its own otherwise; for [_.defaults] it is the first source that
    finds it undefined on the target. *)
Theorem assigners_spec (e : engine) (h : heap) (l : nat) (o : object) :
  h !! l = Some o → (o_class o ∉ ["Array"; "Arguments"]) ∧ o_elems o = [] →
  has_proto h l l = false →
  copies e h l o (_extend e) (chain_keys h (S (length h))) false ∧
  copies e h l o (_extendOwn e) (keys h) false ∧
  copies e h l o (_defaults e) (chain_keys h (S (length h))) true.
Proof.
  intros Hl Hp Ha. split_and!; apply copies_of; try done; intros s ps Hs;
    by (apply allKeys_apart || apply keys_apart).
Qed.

(** ** Clones *)

(** No object inherits from one that is not there. *)
Definition closed (h : heap) : Prop :=
  ∀ l o p, h !! l = Some o → o_proto o = Some p → p < length h.

Lemma on_chain_app h x fuel s p :
  closed h → s < length h → on_chain (h ++ [x]) fuel s p = on_chain h fuel s p.
Proof.
  intros Hc. revert s. induction fuel as [|fuel IH]; intros s Hs; [done|]. simpl.
  rewrite lookup_app_l by done. destruct (h !! s) as [os|] eqn:Hos; [|done].
  destruct (o_proto os) as [q|] eqn:Hq; [|done]. f_equal. apply IH. by eapply Hc.
Qed.

Lemma closed_not_new h fuel s :
  closed h → s < length h → on_chain h fuel s (length h) = false.
Proof.
  intros Hc. revert s. induction fuel as [|fuel IH]; intros s Hs; [done|]. simpl.
  destruct (h !! s) as [os|] eqn:Hos; [|done]. destruct (o_proto os) as [q|] eqn:Hq; [|done].
  assert (q < length h) by by eapply Hc. apply orb_false_iff. split; [apply Nat.eqb_neq; lia|]. by apply IH.
Qed.

(** [_.clone] is shallow and fresh: a value that is not an object is its
    own clone; the clone of an array is a new array of the same elements; the
    clone of an object is a new plain object, whose properties are those of
    the object and those it inherits, with the values it gives; all other
    objects stay as they were. *)
Theorem clone_spec (e : engine) (h : heap) (v : jsval) :
  closed h → e_object_proto e < length h →
  match v with
  | Ref s =>
      s < length h → proto_key ∉ chain_keys (h ++ [empty_object e]) (S (S (length h))) s →
      if is_array h v then
        _clone e v h = Some (inl (Ref (length h)), h ++ [array e (elems_of h v)])
      else ∃ ps, _clone e v h = Some (inl (Ref (length h)), h ++ [set_props ps (empty_object e)]) ∧
        ∀ k, assoc k ps =
          if bool_decide (k ∈ chain_keys (h ++ [empty_object e]) (S (S (length h))) s)
          then Some (default Undef (find_key e (h ++ [empty_object e]) v k)) else None
  | _ => _clone e v h = Some (inl v, h)
  end.
Proof.
  intros Hc Ho. destruct v as [| |b|x|t|s]; try done. intros Hs Hproto.
  unfold _clone. cbn [_isObject is_object negb].
  rewrite (bind_gives _ _ _ _ (gives_asks _ _)). destruct (is_array h (Ref s)); [done|].
  set (h1 := h ++ [empty_object e]) in *.
  rewrite (bind_runs _ h1 _ _ (Ref (length h))) by done.
  assert (Hlen : length h1 = S (length h)) by (unfold h1; rewrite length_app; simpl; lia).
  destruct (assigners_spec e h1 (length h) (empty_object e)) as (Hext&_&_).
  { apply lookup_snoc_eq. }
  { split; [|done]. cbn. rewrite !not_elem_of_cons. split_and!; [done|done|apply not_elem_of_nil]. }
  { unfold has_proto. rewrite Hlen. generalize (S (length h)) as n. intros n. simpl. unfold h1. rewrite lookup_snoc_eq. cbn [o_proto empty_object].
    apply orb_false_iff. split; [apply Nat.eqb_neq; lia|].
    rewrite on_chain_app by done. by apply closed_not_new. }
  destruct (Hext [s]) as (ps&Hps&Hk).
  { constructor; [|constructor]. rewrite Hlen. split; [|done]. split; [lia|].
    unfold has_proto, h1. rewrite on_chain_app by done. apply closed_not_new; [exact Hc|lia]. }
  exists ps. split.
  - change [Ref s] with (map Ref [s]). rewrite Hps. unfold with_props, h1.
    pose proof (insert_app_r h [empty_object e] 0 (set_props ps (empty_object e))) as Hi.
    rewrite Nat.add_0_r in Hi. by rewrite Hi.
  - intros k. rewrite Hk, Hlen. cbn [foldl]. unfold override. cbn [negb orb].
    by rewrite andb_true_r.
Qed.

(** ** Examples *)

Lemma assigners_spec_witness :
  ∃ ps, _extend sample_engine (Ref 0) [] [sample_object "Object" None []]
    = Some (inl (Ref 0), [set_props ps (sample_object "Object" None [])]).
Proof.
  destruct (assigners_spec sample_engine [sample_object "Object" None []] 0
    (sample_object "Object" None []) eq_refl) as (He&_&_).
  - split; [|reflexivity]. apply (bool_decide_unpack _). vm_compute. exact I.
  - reflexivity.
  - destruct (He [] (Forall_nil_2 _)) as (ps&Hps&_). exists ps. exact Hps.
Defined.

Lemma sample_closed : closed sample_heap.
Proof.
  intros l o p Hl Hp. do 4 (destruct l as [|l]; [injection Hl as <-; simpl in *; simplify_eq; lia|]).
  done.
Qed.

Lemma clone_spec_witness :
  _clone sample_engine (Ref 3) sample_heap =
    Some (inl (Ref 4), sample_heap ++ [array sample_engine [num 3; num 1; num 2]]).
Proof.
  apply (clone_spec sample_engine sample_heap (Ref 3) sample_closed).
  - simpl. lia.
  - simpl. lia.
  - apply (bool_decide_unpack _). vm_compute. exact I.
Defined.

(** [_.extend] of an object with a property [__proto__] of its own sets the
    prototype of the target instead. *)
Lemma extend_sets_prototype :
  let source := set_props [(proto_key, Ref 1)] (sample_object "Object" (Some 0) []) in
  let target := sample_object "Object" (Some 0) [] in
  _extend sample_engine (Ref 3) [Ref 2]
    [sample_object "Object" None []; sample_object "Array" (Some 0) []; source; target] =
  Some (inl (Ref 3), [sample_object "Object" None []; sample_object "Array" (Some 0) []; source;
                      set_proto (Some 1) target]).
Proof. vm_compute. reflexivity. Qed.
