(* ===== verification/UnderscoreUtils.v ===== *)
(** * Objects and utilities of the bundled underscore ([wordcut.js])

    The rest of the functions over objects, the tests of types and the small
    utilities.  An object that does not leave a function before it returns is
    made at its start here, wherever the code makes it. *)

From S2P Require Import Prelude JsString JsValue JsMonad Underscore UnderscoreArrays.

#[local] Open Scope js_scope.

Section utils.
Variable e : engine.

(** ** Objects *)

Definition _mapObject (obj : jsval) (iteratee : fn) (context : jsval) : M jsval :=
  let* f := cb e iteratee context (Some 3) in
  let* ks := _keys obj in
  let* results := new_object e in
  let* _ := for_each (λ k, let* x := visit e f obj (Str k) in js_put e results k x) ks in
  ret results.

Definition pair_of (obj : jsval) (k : jstr) : M jsval :=
  let* x := js_get e obj k in new_array e [Str k; x].
Definition _pairs (obj : jsval) : M jsval :=
  let* ks := _keys obj in
  let* pairs := mapM (pair_of obj) ks in
  new_array e pairs.

Definition _invert (obj : jsval) : M jsval :=
  let* result := new_object e in
  let* ks := _keys obj in
  let* _ := for_each (λ k, let* x := js_get e obj k in
                           js_put e result (to_key e x) (Str k)) ks in
  ret result.

(** The names of [for (key in obj)] whose value is a function, sorted. *)
Fixpoint function_names (obj : jsval) (ks : list jstr) : M (list jstr) :=
  match ks with
  | [] => ret []
  | k :: ks =>
      let* x := js_get e obj k in
      let* f := asks (λ h, is_function h x) in
      let* names := function_names obj ks in
      ret (if f : bool then k :: names else names)
  end.
Definition _functions (obj : jsval) : M jsval :=
  let* ks := _allKeys obj in
  let* names := function_names obj ks in
  new_array e (map Str (js_sort names)).

(** The loop of [_.pick]; keys are names, or what the caller gave. *)
Fixpoint pick_loop (f : callee) (obj result : jsval) (ks : list jsval) : M unit :=
  match ks with
  | [] => ret tt
  | key :: ks =>
      let* value := js_at e obj key in
      let* b := f Undef [value; key; obj] in
      let* _ := (if truthy b then js_put e result (to_key e key) value else ret tt) in
      pick_loop f obj result ks
  end.

(** [_.pick] with a function, or with keys (and arrays of keys). *)
Definition pick_by (object : jsval) (iteratee : fn) (context : jsval) : M jsval :=
  let* result := new_object e in
  if nullish object then ret result
  else
    let* ks := _allKeys object in
    let* _ := pick_loop (optimizeCb e iteratee context (Some 3)) object result (map Str ks) in
    ret result.
Definition pick_keys (fuel : nat) (object : jsval) (args : list jsval) : M jsval :=
  let* result := new_object e in
  if nullish object then ret result
  else
    let* ks := flatten_list fuel false false args in
    let* _ := pick_loop (λ _ a, let key := to_key e (arg 1 a) in
                                asks (λ h, Bool (js_in e key (arg 2 a) h))) object result ks in
    ret result.
Definition _pick (fuel : nat) (object : jsval) (args : list jsval) : M jsval :=
  let* f := asks (λ h, is_function h (arg 0 args)) in
  if f : bool then pick_by object (Js (arg 0 args)) (arg 1 args)
  else pick_keys fuel object args.

(** [_.omit] picks with the opposite test. *)
Definition _omit (fuel : nat) (object : jsval) (args : list jsval) : M jsval :=
  let* f := asks (λ h, is_function h (arg 0 args)) in
  if f : bool then
    pick_by object (Fn (_negate (call_value e (arg 0 args)))) (arg 1 args)
  else
    let* ks := flatten_list fuel false false args in
    let ks := map (λ k, Str (to_key e k)) ks in
    pick_by object (Fn (λ _ a, asks (λ h, Bool (negb (list_contains h ks (arg 1 a))))))
      (arg 1 args).

Definition _tap (obj : jsval) (interceptor : fn) : M jsval :=
  let* _ := call_fn e interceptor Undef [obj] in ret obj.

(** ** Tests *)

(** [toString.call(obj) === '[object ' + name + ']']. *)
Definition is_type (name : string) (h : heap) (v : jsval) : bool :=
  bool_decide (class_of h v = name).

Definition _isEmpty (obj : jsval) : M bool :=
  if nullish obj then ret true
  else
    let* len := isArrayLike e obj in
    let* listed := asks (λ h, is_array h obj || is_type "String" h obj || is_arguments h obj) in
    match len, listed with
    | Some n, true => ret (n =? 0)
    | _, _ => let* ks := _keys obj in ret (bool_decide (ks = []))
    end.

Definition _isElement (obj : jsval) : M bool :=
  if truthy obj then
    let* t := js_get e obj (u "nodeType") in ret (strict_eq t (num 1))
  else ret false.

Definition _isNull (v : jsval) : bool := strict_eq v Null.
Definition _isUndefined (v : jsval) : bool := strict_eq v Undef.

(** ** Utilities *)

(** [_.propertyOf(obj)], called with a key. *)
Definition _propertyOf (obj key : jsval) : M jsval :=
  if nullish obj then ret Undef else js_get e obj (to_key e key).

Definition _times (n : nat) (iteratee : fn) (context : jsval) : M jsval :=
  let* _ := check_length n in
  let* xs := mapM (λ i, optimizeCb e iteratee context (Some 1) Undef [num i]) (seq 0 n) in
  new_array e xs.

Definition _result (object key fallback : jsval) : M jsval :=
  let* value := (if nullish object then ret Undef else js_get e object (to_key e key)) in
  let value := if strict_eq value Undef then fallback else value in
  let* f := asks (λ h, is_function h value) in
  if f : bool then call_value e value object [] else ret value.

(** [_.uniqueId], with the counter. *)
Definition _uniqueId (idCounter : Z) (prefix : jsval) : jstr * Z :=
  let id := string_of_Z (idCounter + 1) in
  (if truthy prefix then to_key e prefix ++ id else id, (idCounter + 1)%Z).
End utils.
