(* ===== verification/UnderscoreFunctions.v ===== *)
(** * Functions on functions: underscore and [wrappy] ([wordcut.js])

    What the functions that [bind], [partial], [compose] and [memoize] make do
    when they are called, and [wrappy].  A made function is an object of the
    heap, whose place is an argument where its code refers to itself; making
    it is left to the reader, since the heap does not hold code. *)

From S2P Require Import Prelude JsString JsValue Numbers JsMonad.
From S2P Require Import Underscore UnderscoreArrays UnderscoreFacts UnderscoreObjects.

#[local] Open Scope js_scope.

Section functions.
Variable e : engine.

(** [v instanceof f], for a function. *)
Definition instance_of (v f : jsval) : M bool :=
  match v with
  | Ref l =>
      let* p := js_get e f (u "prototype") in
      match p with
      | Ref p => asks (λ h, has_proto h l p)
      | _ => throw TypeErr
      end
  | _ => ret false
  end.

Definition executeBound (sourceFunc boundFunc context callingContext : jsval) (args : list jsval)
    : M jsval :=
  let* new := instance_of callingContext boundFunc in
  if negb new then call_value e sourceFunc context args
  else
    let* proto := js_get e sourceFunc (u "prototype") in
    let* self := baseCreate e proto in
    let* result := call_value e sourceFunc self args in
    ret (if _isObject result then result else self).

(** [_.bind(func, context, ...args)], called; where there is no native [bind]. *)
Definition bound_call (func bound context : jsval) (args : list jsval) : callee := λ this arguments,
  executeBound func bound context this (args ++ arguments).

(** The arguments of a partial application; [us] is the library itself, the
    placeholder. *)
Fixpoint fill (us : jsval) (boundArgs arguments : list jsval) : list jsval :=
  match boundArgs with
  | [] => arguments
  | b :: boundArgs =>
      if strict_eq b us then arg 0 arguments :: fill us boundArgs (tail arguments)
      else b :: fill us boundArgs arguments
  end.
(** [_.partial(func, ...boundArgs)], called. *)
Definition partial_call (us func bound : jsval) (boundArgs : list jsval) : callee := λ this arguments,
  executeBound func bound this this (fill us boundArgs arguments).

(** [while (i--) result = args[i].call(this, result)]; the functions from the last. *)
Fixpoint compose_loop (this : jsval) (fs : list callee) (result : jsval) : M jsval :=
  match fs with
  | [] => ret result
  | f :: fs => let* result := f this [result] in compose_loop this fs result
  end.
(** [_.compose(...args)], called. *)
Definition compose_call (args : list callee) : callee := λ this arguments,
  match reverse args with
  | [] => throw TypeErr
  | f :: fs => let* result := f this arguments in compose_loop this fs result
  end.

(** ** [_.memoize] *)

Definition address (hasher : option callee) (this : jsval) (arguments : list jsval) : M jstr :=
  match hasher with
  | Some f => let* k := f this arguments in ret (to_key e k)
  | None => ret (to_key e (arg 0 arguments))
  end.

(** A call of [memoize], the made function. *)
Definition memoize_call (memoize : jsval) (func : callee) (hasher : option callee) : callee :=
  λ this arguments,
    let* cache := js_get e memoize (u "cache") in
    let* k := address hasher this arguments in
    let* there := asks (λ h, _has h cache k) in
    let* _ := (if there : bool then ret tt
               else let* v := func this arguments in js_put e cache k v) in
    js_get e cache k.

(** ** [wrappy] *)

(** [Object.keys(v)]: the indices of a string. *)
Definition object_keys (v : jsval) : M (list jstr) :=
  match v with
  | Undef | Null => throw TypeErr
  | Str s => ret (map index_key (seq 0 (length s)))
  | _ => _keys v
  end.
(** [Object.keys(source).forEach(k => target[k] = source[k])]. *)
Definition copy_keys (target source : jsval) : M unit :=
  let* ks := object_keys source in
  for_each (λ k, let* x := js_get e source k in js_put e target k x) ks.

(** A call of [wrapper]. *)
Definition wrapper_call (fn : callee) : callee := λ this args,
  let* r := fn this args in
  let cb := default Undef (last args) in
  let* f := asks (λ h, is_function h r) in
  let* _ := (if f && negb (strict_eq r cb) then copy_keys r cb else ret tt) in
  ret r.

(** [wrappy(fn)], but for making [wrapper]: it copies what [fn] has. *)
Definition wrappy (fn wrapper : jsval) : M jsval :=
  let* f := asks (λ h, is_function h fn) in
  if negb f then throw TypeErr
  else let* _ := copy_keys wrapper fn in ret wrapper.

(** ** Of [minimatch] *)

(** [ext(a, b)]: the options of [b], then those of [a]. *)
Definition minimatch_ext (a b : jsval) : M jsval :=
  let orObject (v : jsval) : M jsval := if truthy v then ret v else new_object e in
  let* a := orObject a in
  let* b := orObject b in
  let* t := new_object e in
  let* _ := copy_keys t b in
  let* _ := copy_keys t a in
  ret t.

(** A call of [minimatch.defaults(def)], of [(p, pattern, options)]; [minimatch]
    itself when [def] has no keys. *)
Definition minimatch_with_defaults (minimatch : callee) (def : jsval) : callee := λ this args,
  let* ks := (if truthy def then object_keys def else ret []) in
  if bool_decide (ks = []) then minimatch this args
  else
    let* options := minimatch_ext def (arg 2 args) in
    minimatch Undef [arg 0 args; arg 1 args; options].

(** ** Of [util] *)

(** [exports._extend]: the keys from the last to the first. *)
Definition _util_extend (origin add : jsval) : M jsval :=
  let* obj := asks (λ h, is_object add && negb (is_function h add)) in
  if negb (truthy add) || negb obj then ret origin
  else
    let* ks := _keys add in
    let* _ := for_each (λ k, let* x := js_get e add k in js_put e origin k x) (reverse ks) in
    ret origin.

(** [typeof arg[k] === 'function']. *)
Definition has_method (arg : jsval) (k : jstr) : M bool :=
  let* x := js_get e arg k in asks (λ h, is_function h x).
Definition isBuffer (arg : jsval) : M jsval :=
  if negb (truthy arg) then ret arg
  else
    let* obj := asks (λ h, is_object arg && negb (is_function h arg)) in
    if negb obj then ret (Bool false)
    else
      let* copy := has_method arg (u "copy") in
      if negb copy then ret (Bool false)
      else
        let* fill := has_method arg (u "fill") in
        if negb fill then ret (Bool false)
        else let* read := has_method arg (u "readUInt8") in ret (Bool read).

(** ** Facts *)

Lemma fill_plain us bs arguments :
  Forall (λ b, strict_eq b us = false) bs → fill us bs arguments = bs ++ arguments.
Proof. induction 1 as [|b bs Hb _ IH]; [done|]. simpl. by rewrite Hb, IH. Qed.

(** Functions that only compute are composed. *)
Definition computes (h : heap) (f : callee) (k : jsval → jsval) : Prop :=
  ∀ this x, gives h (f this [x]) (k x).

Lemma compose_loop_quiet h fs ks this r :
  Forall2 (computes h) fs ks → gives h (compose_loop this fs r) (foldl (λ x k, k x) r ks).
Proof.
  intros H. revert r. induction H as [|f k fs ks Hf _ IH]; intros r; [done|]. simpl.
  eapply gives_bind; [apply Hf|]. apply IH.
Qed.

Lemma compose_quiet h fs ks f g this arguments :
  Forall2 (computes h) fs ks → (∀ this args, gives h (f this args) (g args)) →
  gives h (compose_call (fs ++ [f]) this arguments) (foldr (λ k x, k x) (g arguments) ks).
Proof.
  intros Hfs Hf. unfold compose_call. rewrite reverse_app. simpl.
  eapply gives_bind; [apply Hf|].
  assert (foldr (λ k x, k x) (g arguments) ks = foldl (λ x k, k x) (g arguments) (reverse ks)) as ->.
  { symmetry. apply foldl_reverse_foldr. }
  apply compose_loop_quiet. by apply Forall2_reverse.
Qed.

(** ** A memoized function *)

Section memo.
Variables (h : heap) (l m : nat) (o : object).
(** The cache, an ordinary object, and the function that has it. *)
Hypothesis Hl : h !! l = Some o.
Hypothesis Hplain : (o_class o ∉ ["Array"; "Arguments"]) ∧ o_elems o = [].
Hypothesis Hacyclic : has_proto h l l = false.
Hypothesis Hm : apart h l m.
Hypothesis Hcache : find_key e h (Ref m) (u "cache") = Some (Ref l).

Variables (func : callee) (hasher : option callee) (hash : list jsval → jstr) (g : list jsval → jsval).
Hypothesis Hhash : ∀ ps this args, gives (with_props h l o ps) (address hasher this args) (hash args).

(** What is in the cache is a result. *)
Definition cached (ps : list (jstr * jsval)) (args : list jsval) : Prop :=
  assoc (hash args) ps = Some (g args).

(** What a sequence of calls leaves in the cache: a result for each address. *)
Definition remember (ps : list (jstr * jsval)) (args : list jsval) : list (jstr * jsval) :=
  match assoc (hash args) ps with Some _ => ps | None => put_prop (hash args) (g args) ps end.

Lemma memoize_step ps this args :
  hash args ≠ proto_key →
  (assoc (hash args) ps = None → gives (with_props h l o ps) (func this args) (g args)) →
  (assoc (hash args) ps = None ∨ cached ps args) →
  memoize_call (Ref m) func hasher this args (with_props h l o ps) =
    Some (inl (g args), with_props h l o (remember ps args)).
Proof.
  intros Hproto Hf Hps. unfold memoize_call, remember.
  rewrite (bind_gives _ _ _ (Ref l)).
  2:{ pose proof (get_source e h l o ps m (u "cache") Hm) as H. unfold value_of in H. by rewrite Hcache in H. }
  rewrite (bind_gives _ _ _ _ (Hhash ps this args)).
  rewrite (bind_gives _ _ _ (bool_decide (assoc (hash args) ps ≠ None))).
  2:{ unfold asks, gives, _has, has_own. do 4 f_equal. rewrite (with_props_lookup h l o Hl).
      by rewrite (own_get_plain o Hplain). }
  unfold cached in Hps.
  assert (Hget : ∀ qs, assoc (hash args) qs = Some (g args) →
    js_get e (Ref l) (hash args) (with_props h l o qs) = Some (inl (g args), with_props h l o qs)).
  { intros qs Hq. pose proof (get_target e h l o Hl Hplain Hacyclic qs (hash args)) as H.
    by rewrite Hq in H. }
  destruct (assoc (hash args) ps) as [v|] eqn:Hv.
  - destruct Hps as [?|[= ->]]; [done|]. rewrite bool_decide_eq_true_2 by done. simpl. by apply Hget.
  - rewrite bool_decide_eq_false_2 by tauto. cbn -[js_get js_put].
    unfold gives in Hf. unfold mbind, M_bind. rewrite Hf by done.
    rewrite (put_target e h l o Hl Hplain) by done. apply Hget. rewrite assoc_put.
    by rewrite bool_decide_eq_true_2.
Qed.

Lemma remember_cached ps args args' :
  (∀ args args', hash args = hash args' → g args = g args') →
  (assoc (hash args') ps = None ∨ cached ps args') →
  (assoc (hash args') (remember ps args) = None ∨ cached (remember ps args) args').
Proof.
  intros Hsame H. unfold remember, cached in *. destruct (assoc (hash args) ps) eqn:Ha; [done|].
  rewrite assoc_put. case_bool_decide as Heq; [|done]. right. f_equal. by apply Hsame.
Qed.

Lemma memoize_calls ps calls :
  Forall (λ c, hash c.2 ≠ proto_key) calls →
  (∀ args args', hash args = hash args' → g args = g args') →
  (∀ args, assoc (hash args) ps = None ∨ cached ps args) →
  (∀ ps this args, assoc (hash args) ps = None → gives (with_props h l o ps) (func this args) (g args)) →
  mapM (λ c, memoize_call (Ref m) func hasher c.1 c.2) calls (with_props h l o ps) =
    Some (inl (map (λ c, g c.2) calls), with_props h l o (foldl remember ps (map snd calls))).
Proof.
  intros Hproto Hsame Hps Hf. revert ps Hps.
  induction Hproto as [|[this args] calls Hc _ IH]; intros ps Hps; [done|].
  cbn [mapM map foldl fst snd].
  rewrite (bind_runs _ _ _ _ _ (memoize_step ps this args Hc (Hf ps this args) (Hps args))).
  rewrite (bind_runs _ _ _ _ _ (IH (remember ps args) (λ args', remember_cached _ _ _ Hsame (Hps args')))).
  done.
Qed.
End memo.
End functions.

(** A memoized function is the function: every sequence of calls gives its
    results, when arguments of the same address have the same result and no
    address is [__proto__].  The function need only answer the calls whose
    address is not in the cache yet: it is not called for the others. *)
Theorem memoize_spec (e : engine) (h : heap) (l m : nat) (o : object) (func : callee)
    (hasher : option callee) (hash : list jsval → jstr) (g : list jsval → jsval)
    (calls : list (jsval * list jsval)) :
  h !! l = Some o → o_props o = [] → (o_class o ∉ ["Array"; "Arguments"]) ∧ o_elems o = [] →
  has_proto h l l = false → apart h l m → find_key e h (Ref m) (u "cache") = Some (Ref l) →
  (∀ ps this args, gives (with_props h l o ps) (address e hasher this args) (hash args)) →
  Forall (λ c, hash c.2 ≠ proto_key) calls →
  (∀ args args', hash args = hash args' → g args = g args') →
  (∀ ps this args, assoc (hash args) ps = None → gives (with_props h l o ps) (func this args) (g args)) →
  ∃ ps, mapM (λ c, memoize_call e (Ref m) func hasher c.1 c.2) calls h =
    Some (inl (map (λ c, g c.2) calls), with_props h l o ps).
Proof.
  intros Hl Hps Hplain Hacyclic Hm Hcache Hhash Hproto Hsame Hf.
  exists (foldl (remember hash g) [] (map snd calls)).
  rewrite <-(memoize_calls e h l m o Hl Hplain Hacyclic Hm Hcache func hasher hash g Hhash
    [] calls Hproto Hsame (λ _, or_introl eq_refl) Hf).
  f_equal. unfold with_props. rewrite list_insert_id; [done|]. rewrite Hl. f_equal.
  destruct o. simpl in Hps. by rewrite Hps.
Qed.

(** *** Samples *)

(** [Object.prototype], that of arrays, a memoized function and its cache. *)
Definition memo_heap : heap :=
  [sample_object "Object" None []; sample_object "Array" (Some 0) [];
   set_props [(u "cache", Ref 3)] (sample_object "Function" (Some 0) []);
   sample_object "Object" (Some 0) []].

(** A function that writes its argument. *)
Definition written : callee := λ _ args, ret (Str (u "<" ++ to_key sample_engine (arg 0 args))).

Lemma memoize_spec_witness :
  ∃ ps, mapM (λ c, memoize_call sample_engine (Ref 2) written None c.1 c.2)
      [(Undef, [num 1]); (Undef, [Str (u "1")]); (Null, [num 2])] memo_heap =
    Some (inl [Str (u "<1"); Str (u "<1"); Str (u "<2")],
          with_props memo_heap 3 (sample_object "Object" (Some 0) []) ps).
Proof.
  destruct (memoize_spec sample_engine memo_heap 3 2 (sample_object "Object" (Some 0) []) written None
    (λ args, to_key sample_engine (arg 0 args))
    (λ args, Str (u "<" ++ to_key sample_engine (arg 0 args)))
    [(Undef, [num 1]); (Undef, [Str (u "1")]); (Null, [num 2])]) as [ps Hps].
  - reflexivity.
  - reflexivity.
  - split; [|reflexivity]. apply (bool_decide_unpack _). vm_compute. exact I.
  - reflexivity.
  - split; [discriminate|reflexivity].
  - reflexivity.
  - intros ps this args. reflexivity.
  - repeat (constructor; [apply (bool_decide_unpack _); vm_compute; exact I|]). constructor.
  - intros args args' H. by rewrite H.
  - intros ps this args _. reflexivity.
  - exists ps. exact Hps.
Defined.

(** A memoized function answers [Object.prototype] for the address [__proto__],
    whatever the primitive it computes. *)
Lemma memoize_proto_key :
  memoize_call sample_engine (Ref 2) written None Undef [Str proto_key] memo_heap =
  Some (inl (Ref 0), memo_heap).
Proof. vm_compute. reflexivity. Qed.

(** A wrapped function that returns a function throws when it is called without
    arguments: the missing callback has no keys. *)
Lemma wrappy_no_callback h fn this f :
  is_function h (Ref f) = true → gives h (fn this []) (Ref f) →
  wrapper_call sample_engine fn this [] h = Some (inr TypeErr, h).
Proof.
  intros Hf Hfn. unfold wrapper_call. rewrite (bind_gives _ _ _ _ Hfn).
  rewrite (bind_gives _ _ _ true) by (unfold gives, asks; by rewrite Hf). done.
Qed.

(** [minimatch.defaults] overrides the options of a call with its own. *)
Lemma minimatch_defaults_override :
  let object b := set_props [(u "dot", Bool b)] (sample_object "Object" (Some 0) []) in
  minimatch_with_defaults sample_engine (λ _ args, js_get sample_engine (arg 2 args) (u "dot"))
    (Ref 1) Undef [Str (u ".a"); Str (u "*"); Ref 2]
    [sample_object "Object" None []; object false; object true] =
  Some (inl (Bool false), [sample_object "Object" None []; object false; object true; object false]).
Proof. vm_compute. reflexivity. Qed.
