(* ===== verification/HeapTypes.v ===== *)
(** * Types of the heap: no reference dangles, no object changes its class

    A heap is closed when what its objects refer to is in it.  A program is
    typed when it keeps the heap closed, lets it grow only, keeps the class of
    every object, and answers or throws values that are in the heap; so are
    the collection and object functions of underscore, when the functions they
    call are. *)

From S2P Require Import Prelude JsString JsValue JsMonad Underscore UnderscoreFacts.

#[local] Open Scope js_scope.

(** ** Closed heaps *)

(** A value of a heap of [n] objects. *)
Definition vok (n : nat) (v : jsval) : Prop := match v with Ref l => l < n | _ => True end.

Record ook (n : nat) (o : object) : Prop := {
  ook_proto : ∀ p, o_proto o = Some p → p < n;
  ook_prim : ∀ v, o_prim o = Some v → vok n v;
  ook_elems : Forall (vok n) (o_elems o);
  ook_props : Forall (λ p, vok n p.2) (o_props o) }.

Definition closed (h : heap) : Prop := Forall (ook (length h)) h.

(** [h'] has the objects of [h], with the classes they had. *)
Definition extends (h h' : heap) : Prop :=
  ∀ l o, h !! l = Some o → ∃ o', h' !! l = Some o' ∧ o_class o' = o_class o.

#[export] Instance extends_preorder : PreOrder extends.
Proof.
  split; [by intros h l o ?; exists o|]. intros h1 h2 h3 H12 H23 l o H.
  destruct (H12 l o H) as (o2&H2&Hc2). destruct (H23 l o2 H2) as (o3&H3&Hc3).
  exists o3. split; [done|congruence].
Qed.

Lemma extends_length h h' : extends h h' → length h ≤ length h'.
Proof.
  intros H. destruct (decide (length h = 0)) as [?|Hne]; [lia|].
  destruct (lookup_lt_is_Some_2 h (length h - 1) ltac:(lia)) as [o Ho].
  destruct (H _ _ Ho) as (o'&Ho'&_). apply lookup_lt_Some in Ho'. lia.
Qed.

Lemma vok_mono n n' v : n ≤ n' → vok n v → vok n' v.
Proof. destruct v; simpl; lia || done. Qed.
Lemma voks_mono n n' vs : n ≤ n' → Forall (vok n) vs → Forall (vok n') vs.
Proof. intros Hn H. eapply Forall_impl; [exact H|]. intros v. by apply vok_mono. Qed.
Lemma ook_mono n n' o : n ≤ n' → ook n o → ook n' o.
Proof.
  intros Hn [H1 H2 H3 H4]. split.
  - intros p Hp. specialize (H1 p Hp). lia.
  - intros v Hv. eapply vok_mono; eauto.
  - by eapply voks_mono.
  - eapply Forall_impl; [exact H4|]. intros p. by apply vok_mono.
Qed.

Lemma closed_lookup h l o : closed h → h !! l = Some o → ook (length h) o.
Proof. intros H Hl. unfold closed in H. rewrite Forall_forall in H. apply H. by eapply list_elem_of_lookup_2. Qed.

Lemma vok_arg n i args : Forall (vok n) args → vok n (arg i args).
Proof.
  intros H. unfold arg. destruct (args !! i) as [v|] eqn:Hi; [|done]. simpl.
  rewrite Forall_forall in H. apply H. by eapply list_elem_of_lookup_2.
Qed.

#[export] Hint Resolve vok_arg voks_mono vok_mono : syncer.

(** ** Typed programs *)

Definition xok (n : nat) (x : exn) : Prop := match x with Thrown v => vok n v | _ => True end.

(** [n] objects are there at least when [m] runs. *)
Definition typed {A} (n : nat) (V : nat → A → Prop) (m : M A) : Prop := ∀ h,
  n ≤ length h → closed h →
  match m h with
  | Some (r, h') =>
      closed h' ∧ extends h h' ∧
      match r with inl a => V (length h') a | inr x => xok (length h') x end
  | None => True
  end.

Definition any {A} (n : nat) (a : A) : Prop := True.

(** A function that is typed wherever its arguments are. *)
Definition cok (n : nat) (f : callee) : Prop := ∀ n' this args,
  n ≤ n' → vok n' this → Forall (vok n') args → typed n' vok (f this args).
Definition fok (n : nat) (f : fn) : Prop := match f with Js v => vok n v | Fn f => cok n f end.

Lemma cok_mono n n' f : n ≤ n' → cok n f → cok n' f.
Proof. intros Hn H n'' this args Hn'. apply H. lia. Qed.
Lemma fok_mono n n' f : n ≤ n' → fok n f → fok n' f.
Proof. destruct f; simpl; [apply vok_mono|apply cok_mono]. Qed.

Lemma typed_bind {A B} n V W (m : M A) (f : A → M B) :
  typed n V m → (∀ n' a, n ≤ n' → V n' a → typed n' W (f a)) → typed n W (mbind f m).
Proof.
  intros Hm Hf h Hn Hc. specialize (Hm h Hn Hc). unfold mbind, M_bind.
  destruct (m h) as [[[a|x] h1]|]; [|done..]. destruct Hm as (Hc1&He1&Ha).
  pose proof (extends_length _ _ He1). specialize (Hf (length h1) a ltac:(lia) Ha h1 ltac:(done) Hc1).
  destruct (f a h1) as [[r h2]|]; [|done]. destruct Hf as (Hc2&He2&Hr).
  split; [done|]. split; [by transitivity h1|done].
Qed.

Lemma typed_ret {A} n (V : nat → A → Prop) a : (∀ n', n ≤ n' → V n' a) → typed n V (ret a).
Proof. intros H h Hn Hc. split; [done|]. split; [done|]. by apply H. Qed.
Lemma typed_throw {A} n (V : nat → A → Prop) x : (∀ n', n ≤ n' → xok n' x) → typed n V (throw x).
Proof. intros H h Hn Hc. split; [done|]. split; [done|]. by apply H. Qed.
Lemma typed_unmodelled {A} n (V : nat → A → Prop) : typed n V unmodelled.
Proof. done. Qed.
Lemma typed_asks {A} n (V : nat → A → Prop) (f : heap → A) :
  (∀ h, n ≤ length h → closed h → V (length h) (f h)) → typed n V (asks f).
Proof. intros H h Hn Hc. split; [done|]. split; [done|]. by apply H. Qed.
Lemma typed_weaken {A} n n' (V W : nat → A → Prop) m :
  n ≤ n' → (∀ k a, n ≤ k → V k a → W k a) → typed n V m → typed n' W m.
Proof.
  intros Hn HV Hm h Hh Hc. specialize (Hm h ltac:(lia) Hc).
  destruct (m h) as [[[a|x] h']|]; [|done..]. destruct Hm as (?&He&?).
  pose proof (extends_length _ _ He). split_and!; try done. apply HV; [lia|done].
Qed.
Lemma typed_mono {A} n n' (V : nat → A → Prop) m : n ≤ n' → typed n V m → typed n' V m.
Proof. intros Hn. by apply typed_weaken. Qed.

(** ** Objects *)

Section objects.
Variables (e : engine) (b : nat).

(** The engine: the objects below [b] are its own. *)
Record engine_ok : Prop := {
  ok_object : e_object_proto e < b; ok_array : e_array_proto e < b;
  ok_hidden : ∀ v k x, e_hidden e v k = Some x → vok b x;
  ok_call : ∀ l, cok b (e_call e l) }.
Hypothesis He : engine_ok.

Lemma closed_alloc h o : closed h → ook (S (length h)) o → closed (h ++ [o]).
Proof.
  intros Hc Ho. unfold closed. rewrite length_app. simpl. rewrite Nat.add_1_r. apply Forall_app.
  split; [|by constructor]. eapply Forall_impl; [exact Hc|]. intros o'. apply ook_mono. lia.
Qed.

Lemma extends_alloc h o : extends h (h ++ [o]).
Proof. intros l o' Hl. exists o'. split; [by apply lookup_app_l_Some|done]. Qed.

Lemma typed_alloc n o : (∀ n', n ≤ n' → ook n' o) → typed n vok (alloc o).
Proof.
  intros Ho h Hn Hc. unfold alloc. split; [apply closed_alloc; [done|apply Ho; lia]|].
  split; [apply extends_alloc|]. rewrite length_app. simpl. lia.
Qed.

Lemma typed_new_array n xs : b ≤ n → Forall (vok n) xs → typed n vok (new_array e xs).
Proof.
  intros Hb Hxs. apply typed_alloc. intros n' Hn. pose proof (ok_array He). split; simpl.
  - intros p [= <-]. lia.
  - done.
  - by eapply voks_mono.
  - constructor.
Qed.
Lemma ook_empty n : b ≤ n → ook n (empty_object e).
Proof.
  intros Hb. pose proof (ok_object He). split; simpl; [|done|constructor|constructor].
  intros p [= <-]. lia.
Qed.
Lemma typed_new_object n : b ≤ n → typed n vok (new_object e).
Proof. intros Hb. apply typed_alloc. intros n' Hn. apply ook_empty. lia. Qed.

Lemma own_get_ok n o k v : ook n o → own_get o k = Some v → vok n v.
Proof.
  intros Ho. unfold own_get. destruct (assoc k (entries o)) as [w|] eqn:Hk.
  - intros [= <-]. apply assoc_elem in Hk. unfold entries in Hk. apply elem_of_app in Hk as [Hk|Hk].
    + apply elem_of_zip_r in Hk. pose proof (ook_elems _ _ Ho) as H. rewrite Forall_forall in H. by apply H.
    + pose proof (ook_props _ _ Ho) as H. rewrite Forall_forall in H. by apply H in Hk.
  - case_match; [|done]. by intros [= <-].
Qed.

Lemma get_chain_ok h fuel l k v : closed h → get_chain h fuel l k = Some v → vok (length h) v.
Proof.
  intros Hc. revert l. induction fuel as [|fuel IH]; intros l; simpl; [done|].
  destruct (h !! l) as [o|] eqn:Hl; [|done]. pose proof (closed_lookup _ _ _ Hc Hl) as Ho.
  destruct (own_get o k) eqn:Hk; [intros [= <-]; by eapply own_get_ok|].
  destruct (o_proto o) as [p|]; [apply IH|done].
Qed.

Lemma find_key_ok h v k x : closed h → b ≤ length h → find_key e h v k = Some x → vok (length h) x.
Proof.
  intros Hc Hb. assert (Hh : ∀ v k x, e_hidden e v k = Some x → vok (length h) x).
  { intros v' k' x' H. eapply vok_mono; [exact Hb|]. by eapply ok_hidden. }
  unfold find_key. destruct v as [| | | |s|l]; try apply Hh.
  - case_bool_decide; [by intros [= <-]|]. destruct (unit_at s k) eqn:Hs; [|apply Hh].
    intros [= <-]. unfold unit_at in Hs. apply fmap_Some in Hs as (i&_&->). done.
  - destruct (get_chain h (S (length h)) l k) eqn:Hk.
    { intros [= <-]. by eapply get_chain_ok. }
    case_match; [|apply Hh]. intros [= <-]. destruct (h !! l) as [o|] eqn:Hl; [|done]. simpl.
    destruct (o_proto o) as [p|] eqn:Hp; [|done].
    exact (ook_proto _ _ (closed_lookup _ _ _ Hc Hl) p Hp).
Qed.

Lemma typed_get n v k : b ≤ n → typed n vok (js_get e v k).
Proof.
  intros Hb. unfold js_get. destruct (nullish v); [by apply typed_throw|].
  apply typed_asks. intros h Hn Hc. destruct (find_key e h v k) as [x|] eqn:Hx; [|done].
  eapply find_key_ok; [done| |done]. lia.
Qed.

Lemma typed_update n l o :
  (∀ n', n ≤ n' → ook n' o) →
  ∀ h, n ≤ length h → closed h → (∀ o', h !! l = Some o' → o_class o' = o_class o) →
  match update l o h with
  | Some (r, h') => closed h' ∧ extends h h' ∧ match r with inl _ => True | inr x => xok (length h') x end
  | None => True
  end.
Proof.
  intros Ho h Hn Hc Hcl. unfold update. split.
  { unfold closed. rewrite length_insert. apply Forall_insert; [done|]. apply Ho. lia. }
  split; [|done]. intros l' o' Hl'. destruct (decide (l = l')) as [->|Hne].
  - exists o. split; [apply list_lookup_insert_eq; by eapply lookup_lt_Some|]. symmetry. by apply Hcl.
  - exists o'. by rewrite list_lookup_insert_ne.
Qed.

Lemma ook_set_elems n xs o : Forall (vok n) xs → ook n o → ook n (set_elems xs o).
Proof. intros Hx [H1 H2 H3 H4]. by split. Qed.
Lemma ook_set_props n ps o : Forall (λ p, vok n p.2) ps → ook n o → ook n (set_props ps o).
Proof. intros Hx [H1 H2 H3 H4]. by split. Qed.
Lemma ook_set_proto n p o : (∀ q, p = Some q → q < n) → ook n o → ook n (set_proto p o).
Proof. intros Hx [H1 H2 H3 H4]. by split. Qed.

Lemma put_prop_ok n k x ps : vok n x → Forall (λ p, vok n p.2) ps → Forall (λ p, vok n p.2) (put_prop k x ps).
Proof.
  intros Hx H. unfold put_prop. destruct (assoc k ps).
  - induction H as [|[k' w] ps Hw H IH]; simpl; [constructor|]. case_bool_decide; by constructor.
  - induction H as [|[k' w] ps Hw H IH]; simpl; [by repeat constructor|].
    destruct (comes_before k k'); repeat constructor; done.
Qed.

Lemma typed_put n v k x : vok n x → typed n any (js_put e v k x).
Proof.
  intros Hx h Hn Hc. assert (Hx' : vok (length h) x) by by eapply vok_mono.
  unfold js_put. destruct v as [| | | | |l]; try by split_and!.
  destruct (h !! l) as [o|] eqn:Hl; [|done]. pose proof (closed_lookup _ _ _ Hc Hl) as Ho.
  assert (Hup : ∀ o', o_class o' = o_class o → ook (length h) o' →
    match update l o' h with
    | Some (r, h') => closed h' ∧ extends h h' ∧ match r with inl _ => True | inr x => xok (length h') x end
    | None => True
    end).
  { intros o' Hcl Ho'. apply (typed_update (length h)); [|done|done|].
    - intros n' Hn'. by eapply ook_mono.
    - intros o'' Hl''. congruence. }
  assert (Hnamed : match put_named e l o k x h with
    | Some (r, h') => closed h' ∧ extends h h' ∧ match r with inl _ => True | inr x => xok (length h') x end
    | None => True
    end).
  { unfold put_named. destruct (_ && _ && _).
    - destruct x; try by split_and!.
      + apply Hup; [done|]. by apply ook_set_proto.
      + destruct (Nat.eqb _ _ || _); [by split_and!|]. apply Hup; [done|].
        apply ook_set_proto; [|done]. by intros q [= <-].
    - apply Hup; [done|]. apply ook_set_props; [|done]. apply put_prop_ok; [done|]. apply Ho. }
  destruct (bool_decide _); [|exact Hnamed]. destruct (index_of_key k) as [i|].
  - unfold put_elem. destruct (i <? _)%Z.
    { apply Hup; [done|]. apply ook_set_elems; [|done]. apply Forall_insert; [apply Ho|done]. }
    destruct (bool_decide _).
    + destruct (i =? _)%Z; [|done]. apply Hup; [done|]. apply ook_set_elems; [|done].
      apply Forall_app. split; [apply Ho|by constructor].
    + apply Hup; [done|]. apply ook_set_props; [|done]. apply put_prop_ok; [done|]. apply Ho.
  - destruct (bool_decide _); [done|exact Hnamed].
Qed.

Lemma typed_call n f : b ≤ n → cok n (call_value e f).
Proof.
  intros Hb n' this args Hn Ht Ha h Hh Hc. unfold call_value. destruct f as [| | | | |l]; try by split_and!.
  destruct (is_function h (Ref l)); [|by split_and!]. apply (ok_call He l n'); [lia|done|done|done|done].
Qed.
End objects.

(** ** The functions of underscore *)

Section underscore.
Variables (e : engine) (b : nat).
Hypothesis He : engine_ok e b.

Definition oks (n : nat) (vs : list jsval) : Prop := Forall (vok n) vs.
Definition okey (n : nat) (k : option jsval) : Prop := match k with Some v => vok n v | None => True end.

Lemma typed_any {A} n (V : nat → A → Prop) m : typed n V m → typed n any m.
Proof. by apply typed_weaken. Qed.

Lemma typed_mapM {A B} n (V : nat → B → Prop) (f : A → M B) (P : nat → A → Prop) l :
  (∀ n n' a, n ≤ n' → P n a → P n' a) → (∀ n n' b, n ≤ n' → V n b → V n' b) →
  (∀ n' a, n ≤ n' → P n' a → typed n' V (f a)) → Forall (P n) l →
  typed n (λ n', Forall (V n')) (mapM f l).
Proof.
  intros HP HV. revert n. induction l as [|a l IH]; intros n Hf Hl.
  - apply typed_ret. constructor.
  - inversion Hl as [|?? Ha Hl']; subst. cbn [mapM]. eapply typed_bind; [by apply Hf|].
    intros n1 x Hn1 Hx. eapply typed_bind.
    { apply IH; [|by eapply Forall_impl; [exact Hl'|]; intros y; apply HP].
      intros n' y Hn' Hy. apply Hf; [lia|done]. }
    intros n2 xs Hn2 Hxs. apply typed_ret. intros n3 Hn3. constructor; [by eapply HV; [|exact Hx]; lia|].
    eapply Forall_impl; [exact Hxs|]. intros y. by apply HV.
Qed.

Lemma typed_for_each {A} n (f : A → M unit) (P : nat → A → Prop) l :
  (∀ n n' a, n ≤ n' → P n a → P n' a) →
  (∀ n' a, n ≤ n' → P n' a → typed n' any (f a)) → Forall (P n) l → typed n any (for_each f l).
Proof.
  intros HP. revert n. induction l as [|a l IH]; intros n Hf Hl; [by apply typed_ret|].
  inversion Hl as [|?? Ha Hl']; subst. simpl. eapply typed_bind; [by apply Hf|].
  intros n1 x Hn1 _. apply IH.
  - intros n' y Hn'. apply Hf. lia.
  - eapply Forall_impl; [exact Hl'|]. intros y. by apply HP.
Qed.

Lemma typed_property n k v : b ≤ n → typed n vok (property e k v).
Proof. intros Hb. unfold property. destruct (nullish v); [by apply typed_ret|by eapply typed_get]. Qed.

Lemma typed_isArrayLike n v : b ≤ n → typed n any (isArrayLike e v).
Proof.
  intros Hb. eapply typed_bind; [by apply typed_property|]. intros n' len _ _.
  destruct len; try by apply typed_ret. destruct (_ && _); [|by apply typed_ret].
  destruct (Z_of_num _); [by apply typed_ret|done].
Qed.

Lemma nums_ok n ns : oks n (map num ns).
Proof. apply Forall_fmap, Forall_true. done. Qed.
Lemma strs_ok n ks : oks n (map Str ks).
Proof. apply Forall_fmap, Forall_true. done. Qed.

Lemma typed_indices n v : b ≤ n → typed n oks (indices e v).
Proof.
  intros Hb. eapply typed_bind; [by apply typed_isArrayLike|]. intros n' [len|] _ _.
  - apply typed_ret. intros. apply nums_ok.
  - eapply typed_bind; [by apply (typed_asks _ any)|]. intros n'' ks _ _. apply typed_ret. intros. apply strs_ok.
Qed.

Lemma call_fn_ok n f : b ≤ n → fok n f → cok n (call_fn e f).
Proof. intros Hb Hf. destruct f; [by eapply typed_call|done]. Qed.

Lemma args_ok n l args : oks n args → oks n (map (λ i, arg i args) l).
Proof. intros H. apply Forall_fmap, Forall_forall. intros i _. by apply vok_arg. Qed.

Lemma optimizeCb_ok n f c k : b ≤ n → fok n f → vok n c → cok n (optimizeCb e f c k).
Proof.
  intros Hb Hf Hc. pose proof (call_fn_ok n f Hb Hf) as Hcall.
  assert (Hc' : cok n (λ _ args, call_fn e f c args)).
  { intros n' this args Hn Ht Ha. apply Hcall; [done|by eapply vok_mono|done]. }
  assert (Hk : ∀ l, cok n (λ _ args, call_fn e f c (map (λ i, arg i args) l))).
  { intros l n' this args Hn Ht Ha. apply Hcall; [done|by eapply vok_mono|by apply args_ok]. }
  unfold optimizeCb. destruct c; try done; destruct k; done.
Qed.

(** ** Objects *)

Lemma typed_assign_key n u obj source k :
  b ≤ n → typed n any (assign_key e u obj source k).
Proof.
  intros Hb. eapply (typed_bind n any).
  - destruct u; [|by apply typed_ret]. eapply typed_bind; [by eapply typed_get|].
    intros. by apply typed_ret.
  - intros n' [] Hn _; [|by apply typed_ret]. eapply typed_bind; [eapply typed_get; [done|lia]|].
    intros n'' x Hn' Hx. by apply typed_put.
Qed.

Lemma typed_assigner n keysFunc u obj sources :
  b ≤ n → (∀ n v, typed n any (keysFunc v)) → vok n obj →
  typed n vok (assigner e keysFunc u obj sources).
Proof.
  intros Hb Hk Ho. unfold assigner. destruct (_ || _).
  - apply typed_ret. intros. by eapply vok_mono.
  - eapply (typed_bind n any).
    + apply (typed_for_each n _ any); [done| |by apply Forall_true]. intros n' source Hn _.
      eapply (typed_bind n' any); [apply Hk|]. intros n'' ks Hn' _.
      apply (typed_for_each _ _ any); [done| |by apply Forall_true]. intros n3 k Hn3 _.
      apply typed_assign_key. lia.
    + intros n' _ Hn _. apply typed_ret. intros n'' Hn'. eapply vok_mono; [|exact Ho]. lia.
Qed.

Lemma typed_allKeys n v : typed n any (_allKeys v).
Proof. by apply typed_asks. Qed.
Lemma typed_keys n v : typed n any (_keys v).
Proof. by apply typed_asks. Qed.

Lemma elems_ok h v : closed h → oks (length h) (elems_of h v).
Proof.
  intros Hc. unfold oks, elems_of. destruct v as [| | | | |l]; try constructor.
  destruct (h !! l) as [o|] eqn:Hl; [|constructor]. by apply (closed_lookup h l o Hc Hl).
Qed.

Lemma typed_clone n v : b ≤ n → vok n v → typed n vok (_clone e v).
Proof.
  intros Hb Hv. unfold _clone. destruct (negb _); [apply typed_ret; intros; by eapply vok_mono|].
  eapply (typed_bind n any); [by apply typed_asks|]. intros n' [] Hn _.
  - eapply (typed_bind n' oks); [apply typed_asks; intros; by apply elems_ok|].
    intros n'' xs Hn' Hxs. eapply typed_new_array; [done|lia|done].
  - eapply typed_bind; [eapply typed_new_object; [done|lia]|]. intros n'' o Hn' Ho.
    apply typed_assigner; [lia|apply typed_allKeys|done].
Qed.

Lemma typed_baseCreate n v : b ≤ n → vok n v → typed n vok (baseCreate e v).
Proof.
  intros Hb Hv. unfold baseCreate. destruct v as [| | | | |p]; try by eapply typed_new_object.
  apply typed_alloc. intros n' Hn. apply ook_set_proto; [|eapply ook_empty; [done|lia]].
  intros q [= <-]. simpl in Hv. lia.
Qed.

Lemma typed_create n p ps : b ≤ n → vok n p → typed n vok (_create e p ps).
Proof.
  intros Hb Hp. eapply typed_bind; [by apply typed_baseCreate|]. intros n' o Hn Ho.
  destruct (truthy ps).
  - apply typed_assigner; [lia|apply typed_keys|done].
  - apply typed_ret. intros. by eapply vok_mono.
Qed.

Lemma typed_same_attrs n x y ks : b ≤ n → typed n any (same_attrs e x y ks).
Proof.
  revert n. induction ks as [|k ks IH]; intros n Hb; [by apply typed_ret|]. simpl.
  eapply typed_bind; [by eapply typed_get|]. intros n1 v1 H1 _.
  eapply typed_bind; [eapply typed_get; [done|lia]|]. intros n2 v2 H2 _.
  eapply (typed_bind n2 any); [by apply typed_asks|]. intros n3 there H3 _.
  destruct (_ || _); [by apply typed_ret|]. apply IH. lia.
Qed.

Lemma typed_isMatch n x y : b ≤ n → typed n any (_isMatch e x y).
Proof.
  intros Hb. eapply typed_bind; [apply typed_keys|]. intros n' ks Hn _.
  destruct (nullish x); [by apply typed_ret|]. apply typed_same_attrs. lia.
Qed.

Lemma typed_matcher n attrs : b ≤ n → typed n cok (_matcher e attrs).
Proof.
  intros Hb. eapply typed_bind; [by eapply typed_new_object|]. intros n' o Hn Ho.
  eapply typed_bind; [apply typed_assigner; [lia|apply typed_keys|done]|]. intros n'' a Hn' Ha.
  apply typed_ret. intros n3 Hn3 n4 this args Hn4 _ _.
  eapply (typed_bind _ any); [apply typed_isMatch; lia|]. intros. by apply typed_ret.
Qed.

Lemma typed_cb n f c k : b ≤ n → fok n f → vok n c → typed n cok (cb e f c k).
Proof.
  intros Hb Hf Hc. assert (Ho : ∀ n', n ≤ n' → cok n' (optimizeCb e f c k)).
  { intros n' Hn. eapply cok_mono; [exact Hn|]. by apply optimizeCb_ok. }
  unfold cb. destruct f as [v|f]; [|by apply typed_ret]. destruct (nullish v).
  { apply typed_ret. intros n' Hn n'' this args Hn' _ Ha. apply typed_ret. intros n3 Hn3.
    apply vok_arg. by eapply voks_mono. }
  eapply (typed_bind n any); [by apply typed_asks|]. intros n' [] Hn _.
  { apply typed_ret. intros. apply Ho. lia. }
  destruct (_isObject v); [apply typed_matcher; lia|]. apply typed_ret.
  intros n1 H1 n2 this args H2 _ _. apply typed_property. lia.
Qed.

(** ** Loops *)

Lemma typed_at n v k : b ≤ n → typed n vok (js_at e v k).
Proof. intros Hb. by eapply typed_get. Qed.

Lemma typed_visit n f obj k :
  b ≤ n → cok n f → vok n obj → vok n k → typed n vok (visit e f obj k).
Proof.
  intros Hb Hf Ho Hk. eapply typed_bind; [by apply typed_at|]. intros n' x Hn Hx.
  apply Hf; [done|done|]. repeat (constructor; [by eauto using vok_mono|]). constructor.
Qed.

Lemma typed_search n test f obj ks :
  b ≤ n → cok n f → vok n obj → oks n ks → typed n okey (search e test f obj ks).
Proof.
  intros Hb Hf Ho Hks. revert n Hb Hf Ho Hks. induction ks as [|k ks IH]; intros n Hb Hf Ho Hks.
  { by apply typed_ret. }
  inversion Hks as [|?? Hk Hks']; subst. simpl. eapply typed_bind; [by apply typed_visit|].
  intros n' x Hn Hx. destruct (test x).
  - apply typed_ret. intros n'' Hn'. simpl. eapply vok_mono; [|exact Hk]. lia.
  - apply IH; [lia|by eapply cok_mono|by eapply vok_mono|by eapply voks_mono].
Qed.

Lemma typed_filter_loop n f obj ks :
  b ≤ n → cok n f → vok n obj → oks n ks → typed n oks (filter_loop e f obj ks).
Proof.
  revert n. induction ks as [|k ks IH]; intros n Hb Hf Ho Hks; [apply typed_ret; constructor|].
  inversion Hks as [|?? Hk Hks']; subst. simpl. eapply typed_bind; [by apply typed_at|].
  intros n1 x H1 Hx. eapply typed_bind.
  { apply Hf; [done|done|]. repeat (constructor; [by eauto using vok_mono|]). constructor. }
  intros n2 r H2 _. eapply typed_bind.
  { apply IH; [lia|eapply cok_mono; [|exact Hf]; lia|eapply vok_mono; [|exact Ho]; lia
      |eapply voks_mono; [|exact Hks']; lia]. }
  intros n3 xs H3 Hxs. apply typed_ret. intros n4 H4. assert (oks n4 xs) by by eapply voks_mono.
  destruct (truthy r); [|done]. constructor; [|done]. eapply vok_mono; [|exact Hx]. lia.
Qed.

Lemma typed_reduce_loop n f obj memo ks :
  b ≤ n → cok n f → vok n obj → vok n memo → oks n ks → typed n vok (reduce_loop e f obj memo ks).
Proof.
  revert n memo. induction ks as [|k ks IH]; intros n memo Hb Hf Ho Hm Hks.
  { apply typed_ret. intros. by eapply vok_mono. }
  inversion Hks as [|?? Hk Hks']; subst. simpl. eapply typed_bind; [by apply typed_at|].
  intros n1 x H1 Hx. eapply typed_bind.
  { apply Hf; [done|done|]. repeat (constructor; [by eauto using vok_mono|]). constructor. }
  intros n2 r H2 Hr. apply IH; [lia|eapply cok_mono; [|exact Hf]; lia|eapply vok_mono; [|exact Ho]; lia
      |done|eapply voks_mono; [|exact Hks']; lia].
Qed.

Lemma typed_map n obj f c : b ≤ n → vok n obj → fok n f → vok n c → typed n vok (_map e obj f c).
Proof.
  intros Hb Ho Hf Hc. eapply (typed_bind n oks).
  - eapply typed_bind; [by apply typed_cb|]. intros n1 g H1 Hg.
    eapply typed_bind; [apply typed_indices; lia|]. intros n2 ks H2 Hks.
    eapply (typed_bind n2 any).
    { unfold check_length. destruct (_ <? _)%Z; [by apply typed_ret|by apply typed_throw]. }
    intros n3 _ H3 _. apply (typed_mapM n3 vok _ vok);
      [apply vok_mono|apply vok_mono| |by eapply voks_mono].
    intros n4 k H4 Hk. apply typed_visit; [lia|eapply cok_mono; [|exact Hg]; lia
      |eapply vok_mono; [|exact Ho]; lia|done].
  - intros n' xs Hn Hxs. eapply typed_new_array; [done|lia|done].
Qed.

Lemma typed_filter n obj f c : b ≤ n → vok n obj → fok n f → vok n c → typed n vok (_filter e obj f c).
Proof.
  intros Hb Ho Hf Hc. eapply (typed_bind n oks).
  - eapply typed_bind; [by apply typed_cb|]. intros n1 g H1 Hg.
    eapply typed_bind; [apply typed_indices; lia|]. intros n2 ks H2 Hks.
    apply typed_filter_loop; [lia|by eapply cok_mono|eapply vok_mono; [|exact Ho]; lia|done].
  - intros n' xs Hn Hxs. eapply typed_new_array; [done|lia|done].
Qed.

Lemma negate_ok n f : cok n f → cok n (_negate f).
Proof.
  intros Hf n' this args Hn Ht Ha. eapply typed_bind; [by apply Hf|]. intros. by apply typed_ret.
Qed.

Lemma typed_reject n obj f c : b ≤ n → vok n obj → fok n f → vok n c → typed n vok (_reject e obj f c).
Proof.
  intros Hb Ho Hf Hc. eapply typed_bind; [by apply typed_cb|]. intros n' g Hn Hg.
  apply typed_filter; [lia|by eapply vok_mono|by apply negate_ok|by eapply vok_mono].
Qed.

Lemma typed_each n obj f c : b ≤ n → vok n obj → fok n f → vok n c → typed n vok (_each e obj f c).
Proof.
  intros Hb Ho Hf Hc. eapply typed_bind; [by apply typed_indices|]. intros n1 ks H1 Hks.
  eapply (typed_bind n1 any).
  - apply (typed_for_each n1 _ vok); [apply vok_mono| |done]. intros n2 k H2 Hk.
    eapply typed_bind; [apply typed_visit; [lia| |eapply vok_mono; [|exact Ho]; lia|done]|].
    + eapply cok_mono; [|by apply (optimizeCb_ok n)]. lia.
    + intros. by apply typed_ret.
  - intros n2 _ H2 _. apply typed_ret. intros n3 H3. eapply vok_mono; [|exact Ho]. lia.
Qed.

Lemma typed_searched n test obj f c :
  b ≤ n → vok n obj → fok n f → vok n c →
  typed n any (let* g := cb e f c (Some 3) in let* ks := indices e obj in search e test g obj ks).
Proof.
  intros Hb Ho Hf Hc. eapply typed_bind; [by apply typed_cb|]. intros n1 g H1 Hg.
  eapply typed_bind; [apply typed_indices; lia|]. intros n2 ks H2 Hks.
  eapply typed_any, typed_search; [lia|by eapply cok_mono|eapply vok_mono; [|exact Ho]; lia|done].
Qed.

Lemma typed_reduce n right obj f memo c :
  b ≤ n → vok n obj → fok n f → okey n memo → vok n c →
  typed n vok (reduce_from e right obj f memo c).
Proof.
  intros Hb Ho Hf Hm Hc. unfold reduce_from. eapply typed_bind; [by apply typed_isArrayLike|].
  intros n1 len H1 _. eapply typed_bind; [apply typed_indices; lia|]. intros n2 ks H2 Hks.
  assert (Hg : cok n2 (optimizeCb e f c (Some 4))).
  { eapply cok_mono; [|by apply (optimizeCb_ok n)]. lia. }
  assert (Hks' : oks n2 (if right then reverse ks else ks)).
  { destruct right; [|done]. by apply Forall_reverse. }
  assert (Ho' : vok n2 obj) by (eapply vok_mono; [|exact Ho]; lia).
  destruct memo as [memo|].
  - apply typed_reduce_loop; [lia|done|done|eapply vok_mono; [|exact Hm]; lia|done].
  - destruct (if right then reverse ks else ks) as [|k ks'] ; [apply typed_at; lia|].
    inversion Hks' as [|?? Hk Hks'']; subst. eapply typed_bind; [apply typed_at; lia|].
    intros n3 memo H3 Hmemo.
    apply typed_reduce_loop; [lia|by eapply cok_mono|by eapply vok_mono|done|by eapply voks_mono].
Qed.

Lemma typed_every n obj f c :
  b ≤ n → vok n obj → fok n f → vok n c → typed n any (_every e obj f c).
Proof.
  intros Hb Ho Hf Hc. eapply typed_bind; [by apply typed_cb|]. intros n1 g H1 Hg.
  eapply typed_bind; [apply typed_indices; lia|]. intros n2 ks H2 Hks.
  eapply typed_bind; [|intros; by apply typed_ret].
  apply typed_search; [lia|by eapply cok_mono|eapply vok_mono; [|exact Ho]; lia|done].
Qed.

Lemma typed_some n obj f c :
  b ≤ n → vok n obj → fok n f → vok n c → typed n any (_some e obj f c).
Proof.
  intros Hb Ho Hf Hc. eapply typed_bind; [by apply typed_cb|]. intros n1 g H1 Hg.
  eapply typed_bind; [apply typed_indices; lia|]. intros n2 ks H2 Hks.
  eapply typed_bind; [|intros; by apply typed_ret].
  apply typed_search; [lia|by eapply cok_mono|eapply vok_mono; [|exact Ho]; lia|done].
Qed.

Lemma typed_array_length n v : b ≤ n → typed n any (array_length e v).
Proof.
  intros Hb. eapply typed_bind; [by apply typed_property|]. intros n' len _ _. cbv zeta.
  destruct (is_nan _); [by apply typed_ret|]. destruct (Z_of_num _); [|done].
  destruct (0 <=? _)%Z; [by apply typed_ret|done].
Qed.

Lemma typed_find_index n right obj f c :
  b ≤ n → vok n obj → fok n f → vok n c → typed n okey (find_index_from e right obj f c).
Proof.
  intros Hb Ho Hf Hc. eapply typed_bind; [by apply typed_cb|]. intros n1 g H1 Hg.
  eapply typed_bind; [apply typed_array_length; lia|]. intros n2 len H2 _.
  apply typed_search; [lia|by eapply cok_mono|eapply vok_mono; [|exact Ho]; lia|].
  destruct right; [apply Forall_reverse|]; apply nums_ok.
Qed.

Lemma typed_find_key n obj f c :
  b ≤ n → vok n obj → fok n f → vok n c → typed n okey (find_key_of e obj f c).
Proof.
  intros Hb Ho Hf Hc. eapply typed_bind; [by apply typed_cb|]. intros n1 g H1 Hg.
  eapply typed_bind; [apply typed_keys|]. intros n2 ks H2 _.
  apply typed_search; [lia|by eapply cok_mono|eapply vok_mono; [|exact Ho]; lia|apply strs_ok].
Qed.

Lemma typed_find n obj f c :
  b ≤ n → vok n obj → fok n f → vok n c → typed n vok (_find e obj f c).
Proof.
  intros Hb Ho Hf Hc. eapply typed_bind; [by apply typed_isArrayLike|]. intros n1 len H1 _.
  eapply (typed_bind n1 okey).
  - apply (typed_mono n); [done|]. destruct len; [by apply typed_find_index|by apply typed_find_key].
  - intros n2 [k|] H2 _; [apply typed_at; lia|by apply typed_ret].
Qed.
End underscore.

(** In a closed heap, and with functions that keep heaps closed, the
    collection and object functions of underscore keep it closed, change no
    object's class and remove none, and answer and throw values of the heap
    only: no reference dangles, whatever the callbacks do. *)
Theorem underscore_typed (e : engine) (b n : nat) (obj c : jsval) (f : fn) (memo : option jsval)
    (sources : list jsval) :
  engine_ok e b → b ≤ n → vok n obj → fok n f → vok n c → okey n memo →
  typed n vok (_each e obj f c) ∧ typed n vok (_map e obj f c) ∧
  typed n vok (_filter e obj f c) ∧ typed n vok (_reject e obj f c) ∧
  typed n vok (_find e obj f c) ∧ typed n any (_every e obj f c) ∧ typed n any (_some e obj f c) ∧
  typed n vok (_reduce e obj f memo c) ∧ typed n vok (_reduceRight e obj f memo c) ∧
  typed n vok (_extend e obj sources) ∧ typed n vok (_extendOwn e obj sources) ∧
  typed n vok (_defaults e obj sources) ∧ typed n vok (_clone e obj) ∧ typed n vok (_create e obj c).
Proof.
  intros He Hb Ho Hf Hc Hm. split_and!.
  - by apply (typed_each e b).
  - by apply (typed_map e b).
  - by apply (typed_filter e b).
  - by apply (typed_reject e b).
  - by apply (typed_find e b).
  - by apply (typed_every e b).
  - by apply (typed_some e b).
  - by apply (typed_reduce e b).
  - by apply (typed_reduce e b).
  - by apply (typed_assigner e b); [|done|apply typed_allKeys|].
  - by apply (typed_assigner e b); [|done|apply typed_keys|].
  - by apply (typed_assigner e b); [|done|apply typed_allKeys|].
  - by apply (typed_clone e b).
  - by apply (typed_create e b).
Qed.

(** *** A sample *)

Lemma sample_engine_ok : engine_ok sample_engine 2.
Proof.
  split; [simpl; lia|simpl; lia|done|].
  intros l n this args Hn Ht Ha. apply typed_ret. intros n' Hn'. apply vok_arg. by eapply voks_mono.
Qed.

Lemma underscore_typed_witness :
  typed 4 vok (_map sample_engine (Ref 3) (Js (Ref 2)) Undef) ∧ closed sample_heap.
Proof.
  split.
  - apply (underscore_typed sample_engine 2 4 (Ref 3) Undef (Js (Ref 2)) None []).
    + exact sample_engine_ok.
    + lia.
    + simpl. lia.
    + simpl. lia.
    + exact I.
    + exact I.
  - unfold closed, sample_heap.
    repeat (constructor; [split; simpl; [by intros ? [= <-]; lia|done|by repeat constructor|constructor]|]).
    constructor.
Defined.
