(* ===== verification/Wrappers.v ===== *)
(** * Functions that run a limited number of times ([wordcut.js])

    [_.before], [_.after] and [_.once] of underscore and the [once] module.  A
    wrapper is a closure, whose variables are the state.  The function it
    wraps is a parameter: what it does in its run number [n] with an argument
    is a tree of the calls of the wrapper it makes itself, with what it does
    on each answer (an exception may be caught), up to its end.  So wrappers
    are re-entrant.  Fuel stands for the depth of the calls. *)

From S2P Require Import Prelude.

Section wrappers.
Context {A V X : Type}.

Inductive prog :=
| Return (v : V)
| Raise (x : X)
| Again (a : A) (k : option V + X → prog).

(** What a call of a wrapper answers: a value, [None] for undefined, or an
    exception; [Fault] is the exception of the wrapper itself. *)
Inductive raised := Thrown (x : X) | Fault.
Definition answer : Type := option V + raised.

(** An inner call, as the wrapped function sees it; it does not tell faults
    from its own exceptions. *)
Variable fault : X.
Definition seen (r : answer) : option V + X :=
  match r with inl v => inl v | inr (Thrown x) => inr x | inr Fault => inr fault end.

Section run.
Context {S : Type}.
Variable wrapper : A → S → option (answer * S).
Fixpoint run_prog (p : prog) (s : S) : option ((V + X) * S) :=
  match p with
  | Return v => Some (inl v, s)
  | Raise x => Some (inr x, s)
  | Again a k =>
      match wrapper a s with Some (r, s) => run_prog (k (seen r)) s | None => None end
  end.

(** The calls of the program, one after the other. *)
Fixpoint call_all (l : list A) (s : S) : option (list answer * S) :=
  match l with
  | [] => Some ([], s)
  | a :: l =>
      match wrapper a s with
      | Some (r, s) => match call_all l s with Some (rs, s) => Some (r :: rs, s) | None => None end
      | None => None
      end
  end.
End run.

Variable body : nat → A → prog.

(** ** [_.before] and [_.after] *)

(** [gone] is [func = null]; [counted] and [runs] are the calls and the runs,
    newest first, for the statements only. *)
Record limited := { times : Z; memo : option V; gone : bool; counted : nat; runs : list A }.

Definition set_times (n : Z) (s : limited) : limited :=
  {| times := n; memo := memo s; gone := gone s; counted := counted s; runs := runs s |}.
Definition count (s : limited) : limited :=
  {| times := times s; memo := memo s; gone := gone s; counted := counted s + 1; runs := runs s |}.
Definition set_memo (v : V) (s : limited) : limited :=
  {| times := times s; memo := Some v; gone := gone s; counted := counted s; runs := runs s |}.
Definition drop_func (s : limited) : limited :=
  {| times := times s; memo := memo s; gone := true; counted := counted s; runs := runs s |}.
Definition ran (a : A) (s : limited) : limited :=
  {| times := times s; memo := memo s; gone := gone s; counted := counted s; runs := a :: runs s |}.

Definition fresh (n : Z) : limited :=
  {| times := n; memo := None; gone := false; counted := 0; runs := [] |}.

Fixpoint before (fuel : nat) (a : A) (s : limited) : option (answer * limited) :=
  match fuel with
  | 0 => None
  | S fuel =>
      let s := count (set_times (times s - 1) s) in
      let after_run (s : limited) : option (answer * limited) :=
        let s := if (times s <=? 1)%Z then drop_func s else s in
        Some (inl (memo s), s) in
      if (0 <? times s)%Z then
        if gone s then Some (inr Fault, s)
        else
          match run_prog (before fuel) (body (length (runs s)) a) (ran a s) with
          | Some (inl v, s) => after_run (set_memo v s)
          | Some (inr x, s) => Some (inr (Thrown x), s)
          | None => None
          end
      else after_run s
  end.

Fixpoint after (fuel : nat) (a : A) (s : limited) : option (answer * limited) :=
  match fuel with
  | 0 => None
  | S fuel =>
      let s := count (set_times (times s - 1) s) in
      if (times s <? 1)%Z then
        match run_prog (after fuel) (body (length (runs s)) a) (ran a s) with
        | Some (inl v, s) => Some (inl (Some v), s)
        | Some (inr x, s) => Some (inr (Thrown x), s)
        | None => None
        end
      else Some (inl None, s)
  end.

(** [_.once = _.partial(_.before, 2)]. *)
Definition _once : nat → A → limited → option (answer * limited) := before.
Definition fresh_once : limited := fresh 2.

(** ** The [once] module *)

Record flagged := { called : bool; value : option V; once_runs : list A }.
Definition unused : flagged := {| called := false; value := None; once_runs := [] |}.
Definition set_called (a : A) (s : flagged) : flagged :=
  {| called := true; value := value s; once_runs := a :: once_runs s |}.
Definition set_value (v : V) (s : flagged) : flagged :=
  {| called := called s; value := Some v; once_runs := once_runs s |}.

(** [f.value = fn.apply(this, arguments)]. *)
Definition run_once (wrapper : A → flagged → option (answer * flagged)) (a : A) (s : flagged)
    : option (answer * flagged) :=
  match run_prog wrapper (body (length (once_runs s)) a) (set_called a s) with
  | Some (inl v, s) => Some (inl (Some v), set_value v s)
  | Some (inr x, s) => Some (inr (Thrown x), s)
  | None => None
  end.

Fixpoint once (fuel : nat) (a : A) (s : flagged) : option (answer * flagged) :=
  match fuel with
  | 0 => None
  | S fuel => if called s then Some (inl (value s), s) else run_once (once fuel) a s
  end.

Fixpoint onceStrict (fuel : nat) (a : A) (s : flagged) : option (answer * flagged) :=
  match fuel with
  | 0 => None
  | S fuel => if called s then Some (inr Fault, s) else run_once (onceStrict fuel) a s
  end.
End wrappers.

(** ** How often the function runs *)

Section facts.
Context {A V X : Type} (fault : X) (body : nat → A → @prog A V X).

(** What every call of a wrapper keeps, every inner call keeps. *)
Lemma run_prog_keeps {S} (wrapper : A → S → option (@answer V X * S)) (P : S → Prop) (R : S → S → Prop) :
  PreOrder R →
  (∀ a s, P s → ∃ r s', wrapper a s = Some (r, s') ∧ P s' ∧ R s s') →
  ∀ (p : @prog A V X) s, P s → ∃ r s', run_prog fault wrapper p s = Some (r, s') ∧ P s' ∧ R s s'.
Proof.
  intros HR Hw. induction p as [v|x|a k IH]; intros s Hs; simpl; [by eexists _, _..|].
  destruct (Hw a s Hs) as (r&s1&->&Hs1&H1). destruct (IH (seen fault r) s1 Hs1) as (r'&s2&->&Hs2&H2).
  eexists _, _. split; [reflexivity|]. split; [done|by transitivity s1].
Qed.

(** The variables of [_.before(n, func)]. *)
Definition limited_ok (n : Z) (s : @limited A V) : Prop :=
  (gone s = true → (times s <= 1)%Z) ∧ times s = (n - Z.of_nat (counted s))%Z ∧
  length (runs s) = Nat.min (counted s) (Z.to_nat (n - 1)).

(** Later: more calls, and the memo is fixed when no run is left. *)
Definition later (s s' : @limited A V) : Prop :=
  counted s ≤ counted s' ∧ (times s' <= times s)%Z ∧ ((times s <= 1)%Z → memo s' = memo s).

#[local] Instance later_preorder : PreOrder later.
Proof.
  split; [by repeat split|]. intros s1 s2 s3 (?&?&H1) (?&?&H2). split; [lia|]. split; [lia|].
  intros Hle. rewrite H2 by lia. by apply H1.
Qed.

Lemma before_call n fuel a s :
  limited_ok n s → (times s <= Z.of_nat fuel)%Z → 0 < fuel →
  ∃ r s', before fault body fuel a s = Some (r, s') ∧ limited_ok n s' ∧
    counted s < counted s' ∧ (times s' < times s)%Z ∧ r ≠ inr Fault ∧
    ((times s <= 1)%Z → r = inl (memo s) ∧ memo s' = memo s).
Proof.
  revert a s. induction fuel as [|fuel IH]; intros a s Hok Hf Hpos; [lia|].
  destruct Hok as (Hg&Ht&Hr). cbn [before]. set (s1 := count (set_times (times s - 1) s)).
  change (times s1) with (times s - 1)%Z. change (gone s1) with (gone s). clear Hpos.
  destruct (Z.ltb_spec 0 (times s - 1)) as [Hlt|Hge].
  - destruct (gone s) eqn:Hgone; [specialize (Hg eq_refl); lia|].
    assert (H1 : limited_ok n (ran a s1)).
    { split; [simpl; congruence|]. split; [simpl; lia|]. simpl. rewrite Hr. lia. }
    destruct (run_prog_keeps (before fault body fuel)
      (λ s, limited_ok n s ∧ (times s <= Z.of_nat fuel)%Z) later _) with
      (p := body (length (runs s1)) a) (s := ran a s1) as (r&s'&->&[Hok' _]&Hl&Hl'&_).
    + intros b s2 [H2 H2f]. destruct (IH b s2 H2 H2f) as (r&s3&->&H3&?&?&_&Hm); [lia|].
      eexists _, _. split; [reflexivity|]. split; [split; [done|lia]|].
      split; [lia|]. split; [lia|]. intros ?. by apply Hm.
    + split; [done|]. simpl. lia.
    + simpl in Hl, Hl'. destruct Hok' as (Hg'&Ht'&Hr'). destruct r as [v|x].
      * eexists _, _. split; [reflexivity|]. simpl. case_match eqn:Hle; simpl.
        -- apply Z.leb_le in Hle. simpl in Hle. repeat split; simpl; try done; lia.
        -- repeat split; simpl; try done; lia.
      * eexists _, _. split; [reflexivity|]. repeat split; simpl; try done; lia.
  - eexists _, _. split; [reflexivity|]. change (memo s1) with (memo s).
    assert (limited_ok n s1 ∧ limited_ok n (drop_func s1)) as [H1 H2].
    { split; (split; [simpl; intros; lia|]; split; [simpl; lia|]); simpl; rewrite Hr; lia. }
    destruct (times s - 1 <=? 1)%Z; (split; [done|]); simpl; repeat split; try done; lia.
Qed.

Lemma call_all_app {S} (w : A → S → option (@answer V X * S)) l a s rs s1 r s2 :
  call_all w l s = Some (rs, s1) → w a s1 = Some (r, s2) →
  call_all w (l ++ [a]) s = Some (rs ++ [r], s2).
Proof.
  revert s rs. induction l as [|b l IH]; intros s rs; simpl.
  - intros [= <- <-] ->. done.
  - destruct (w b s) as [[r' s']|]; [|done]. destruct (call_all w l s') as [[rs' s'']|] eqn:Hl; [|done].
    intros [= <- <-] Ha. by rewrite (IH _ _ Hl Ha).
Qed.
Lemma before_calls n l fuel :
  (n <= Z.of_nat fuel)%Z → 0 < fuel →
  ∃ rs s, call_all (before fault body fuel) l (fresh n) = Some (rs, s) ∧ limited_ok n s ∧
    length rs = length l ∧ length l ≤ counted s ∧ (∀ r, r ∈ rs → r ≠ inr Fault) ∧
    ∀ i r, Z.to_nat (n - 1) ≤ i → rs !! i = Some r → r = inl (memo s).
Proof.
  intros Hn Hf. induction l as [|a l (rs&s&H&Hok&Hlen&Hc&Hr&Hm)] using rev_ind.
  - exists [], (fresh n). split; [done|]. split; [split; [done|split; [simpl; lia|done]]|].
    split; [done|]. split; [simpl; lia|]. split; [intros r Hr; by apply not_elem_of_nil in Hr|done].
  - destruct (before_call n fuel a s Hok) as (r&s'&Hb&Hok'&Hc'&Ht&Hne&Hlast); [|done|].
    { destruct Hok as (_&->&_). lia. }
    exists (rs ++ [r]), s'. split; [by eapply call_all_app|]. split; [done|].
    rewrite !length_app, Hlen. split; [done|]. split; [simpl; lia|]. split.
    { intros x [Hx|Hx%list_elem_of_singleton]%elem_of_app; [by apply Hr|by subst]. }
    intros i x Hi Hx. destruct Hok as (_&Htimes&_). unfold answer in *.
    apply lookup_app_Some in Hx as [Hx|[Hge Hx]].
    + assert (i < length rs) by by eapply lookup_lt_Some. rewrite (Hm i x Hi Hx). f_equal.
      symmetry. apply Hlast. lia.
    + apply list_lookup_singleton_Some in Hx as [Hi0 <-].
      destruct Hlast as [-> ->]; [lia|done].
Qed.
End facts.

(** C34: [_.before(n, func)] runs [func] for as many calls as come, but never
    more than [n - 1] times, when [func] calls the wrapper again or throws as
    well; every call answers, and never by calling the [null] that [func]
    becomes; the calls after the last run give the last result. *)
Theorem before_spec {A V X : Type} (fault : X) (body : nat → A → @prog A V X) (n : Z) (l : list A)
    (fuel : nat) :
  (n <= Z.of_nat fuel)%Z → 0 < fuel →
  ∃ rs s, call_all (before fault body fuel) l (fresh n) = Some (rs, s) ∧
    length l ≤ counted s ∧ length (runs s) = Nat.min (counted s) (Z.to_nat (n - 1)) ∧
    (∀ r, r ∈ rs → r ≠ inr Fault) ∧
    ∀ i r, Z.to_nat (n - 1) ≤ i → rs !! i = Some r → r = inl (memo s).
Proof.
  intros Hn Hf. destruct (before_calls fault body n l fuel Hn Hf) as (rs&s&H&Hok&_&Hc&Hr).
  exists rs, s. split; [done|]. split; [done|]. split; [apply Hok|done].
Qed.

(** ** Two ways to run once *)

Section once.
Context {A V X : Type} (fault : X) (body : nat → A → @prog A V X).

(** The variables of [_.once(fn)] and of [once(fn)]. *)
Definition same_once (s : @limited A V) (f : @flagged A V) : Prop :=
  runs s = once_runs f ∧ memo s = value f ∧ length (runs s) ≤ 1 ∧
  (gone s = true → (times s <= 1)%Z) ∧
  (times s = 2%Z ∧ called f = false ∧ memo s = None ∧ runs s = [] ∨ (times s <= 1)%Z ∧ called f = true).

(** The wrapper has been called. *)
Definition used_once (s : @limited A V) (f : @flagged A V) : Prop :=
  same_once s f ∧ (times s <= 1)%Z.

(** Both give the same, or run out of fuel. *)
Definition agree {R} (x : option (R * @limited A V)) (y : option (R * @flagged A V)) : Prop :=
  match x, y with
  | Some (r, s), Some (r', f) => r = r' ∧ used_once s f
  | None, None => True
  | _, _ => False
  end.

Lemma agree_prog w1 w2 :
  (∀ a s f, same_once s f → agree (w1 a s) (w2 a f)) →
  ∀ (p : @prog A V X) s f, used_once s f → agree (run_prog fault w1 p s) (run_prog fault w2 p f).
Proof.
  intros Hw. induction p as [v|x|a k IH]; intros s f Hs; simpl; [done..|].
  specialize (Hw a s f (proj1 Hs)). unfold agree in Hw.
  destruct (w1 a s) as [[r s']|], (w2 a f) as [[r' f']|]; try done. destruct Hw as [-> Hs']. by apply IH.
Qed.

Lemma once_call fuel a s f :
  same_once s f → agree (_once fault body fuel a s) (once fault body fuel a f).
Proof.
  revert a s f. induction fuel as [|fuel IH]; intros a s f Hs; [done|]. unfold _once in *.
  cbn [before once]. set (s1 := count (set_times (times s - 1) s)).
  change (times s1) with (times s - 1)%Z. change (gone s1) with (gone s).
  destruct Hs as (Hruns&Hmemo&Hlen&Hgone&[(Ht&Hc&Hm&Hr)|[Ht Hc]]); rewrite Hc.
  - rewrite Ht. cbn [Z.ltb Z.sub Z.compare Z.pos_sub Z.add Z.opp Pos.pred_double].
    destruct (gone s); [specialize (Hgone eq_refl); lia|]. unfold run_once.
    rewrite <-Hruns. change (runs s1) with (runs s). rewrite Hr.
    assert (H1 : used_once (ran a s1) (set_called a f)).
    { unfold used_once, same_once. simpl. rewrite <-Hruns, Hr, <-Hmemo, Ht.
      split_and!; try done; by right. }
    pose proof (agree_prog _ _ IH (body (length (@nil A)) a) _ _ H1) as Hp. unfold agree in Hp.
    destruct (run_prog fault (before fault body fuel) _ _) as [[r s']|],
      (run_prog fault (once fault body fuel) _ _) as [[r' f']|]; try done.
    destruct Hp as [-> [(Hruns'&Hmemo'&Hlen'&Hgone'&Hd) Ht']].
    assert (Hc' : called f' = true) by (destruct Hd as [[? _]|[_ ?]]; [lia|done]).
    destruct r' as [v|x].
    + change (times (set_memo v s')) with (times s'). rewrite (proj2 (Z.leb_le _ _) Ht').
      split; [done|]. split; [|done]. unfold same_once. simpl. split_and!; try done; by right.
    + split; [done|]. split; [|done]. unfold same_once. split_and!; try done; by right.
  - rewrite (proj2 (Z.ltb_ge _ _)) by lia.
    rewrite (proj2 (Z.leb_le (times s - 1) 1)) by lia. simpl. split; [by f_equal|].
    split; [|simpl; lia]. unfold same_once. simpl. split_and!; try done; try lia; right; split; [lia|done].
Qed.

Lemma once_calls fuel l s f :
  same_once s f →
  match call_all (_once fault body fuel) l s, call_all (once fault body fuel) l f with
  | Some (rs, s), Some (rs', f) => rs = rs' ∧ same_once s f
  | None, None => True
  | _, _ => False
  end.
Proof.
  revert s f. induction l as [|a l IH]; intros s f Hs; simpl; [done|].
  pose proof (once_call fuel a s f Hs) as Hc. unfold agree in Hc.
  destruct (_once fault body fuel a s) as [[r s']|], (once fault body fuel a f) as [[r' f']|]; try done.
  destruct Hc as [-> [Hs' _]]. specialize (IH s' f' Hs').
  destruct (call_all (_once fault body fuel) l s') as [[rs s'']|],
    (call_all (once fault body fuel) l f') as [[rs' f'']|]; try done. by destruct IH as [-> ?].
Qed.

(** Every call of [onceStrict] after the first throws. *)
Lemma onceStrict_throws fuel a f :
  called f = true → onceStrict fault body (S fuel) a f = Some (inr Fault, f).
Proof. intros H. cbn [onceStrict]. by rewrite H. Qed.
End once.

(** The [once] module and [_.once] are the same: whatever the function
    does, calling the wrapper inside its run or throwing, the same sequence of
    calls gives the same answers and the same run, one at most. *)
Theorem once_agrees {A V X : Type} (fault : X) (body : nat → A → @prog A V X) (l : list A) (fuel : nat) :
  2 ≤ fuel →
  ∃ rs s f, call_all (_once fault body fuel) l fresh_once = Some (rs, s) ∧
    call_all (once fault body fuel) l unused = Some (rs, f) ∧
    runs s = once_runs f ∧ length (runs s) ≤ 1 ∧ (l ≠ [] → length (runs s) = 1).
Proof.
  intros Hf.
  destruct (before_calls fault body 2 l fuel) as (rs&s&Hs&(_&_&Hr)&_&Hc&_); [lia|lia|].
  assert (H0 : @same_once A V fresh_once unused).
  { unfold same_once. simpl. split_and!; try done; try lia; by left. }
  pose proof (once_calls fault body fuel l fresh_once unused H0) as Ha.
  unfold _once, fresh_once in *. rewrite Hs in Ha.
  destruct (call_all (once fault body fuel) l unused) as [[rs' f]|] eqn:Hf'; [|done].
  destruct Ha as [<- (Hruns&_&Hlen&_)]. exists rs, s, f. split_and!; try done.
  intros Hl. rewrite Hr. simpl. destruct l; [done|]. simpl in Hc. lia.
Qed.

(** ** Samples *)

(** The run calls the wrapper again, and throws if its argument is odd. *)
Definition sample_body (n a : nat) : @prog nat nat nat :=
  Again (a + 1) (λ _, if Nat.odd a then Raise a else Return (10 * a)).

Lemma before_spec_witness :
  ∃ rs s, call_all (before 0 sample_body 3) [4; 5; 6] (fresh 3) = Some (rs, s) ∧
    length (runs s) = Nat.min (counted s) 2.
Proof.
  destruct (before_spec 0 sample_body 3 [4; 5; 6] 3) as (rs&s&H&_&Hr&_); [lia|lia|].
  exists rs, s. split; [exact H|exact Hr].
Defined.

Lemma once_agrees_witness :
  ∃ rs s f, call_all (_once 0 sample_body 2) [4; 5] fresh_once = Some (rs, s) ∧
    call_all (once 0 sample_body 2) [4; 5] unused = Some (rs, f) ∧ length (runs s) = 1.
Proof.
  destruct (once_agrees 0 sample_body [4; 5] 2) as (rs&s&f&H1&H2&_&_&H3); [lia|].
  exists rs, s, f. split; [exact H1|]. split; [exact H2|]. by apply H3.
Defined.
