(* ===== verification/Inspect.v ===== *)
(** * [util.inspect] and [util.format] ([wordcut.js], the [util] module)

    [formatValue] prints a value over a heap: a hook of the value comes first,
    then primitives, then objects with their properties, those inside of which
    it is already as [[Circular]], and those that are too deep as [[Object]].
    The functions call each other through the argument [rec].  What the
    language has and the heap does not (names that are not enumerable, the
    text of regular expressions and dates) and the hooks of user code are
    fields of [host]; a hook neither throws nor changes the heap.  The
    objects have no accessors. *)

From S2P Require Import Prelude JsString JsValue JsMonad UnderscoreFacts Literals.

(** ** Settings *)

(** [ctx], but for the stack [seen]. *)
Record settings := { showHidden : bool; colors : bool; customInspect : bool }.

Record host := {
  own_names : heap → nat → list jstr;    (* Object.getOwnPropertyNames *)
  regexp_text : nat → jstr;              (* RegExp.prototype.toString *)
  date_text : nat → jstr;                (* Date.prototype.toString *)
  utc_text : nat → jstr;                 (* Date.prototype.toUTCString *)
  util_inspect : nat;                    (* exports.inspect *)
  error_proto : nat;                     (* Error.prototype *)
  run_hook : jsval → option Z → list jsval → jsval;   (* value.inspect(recurseTimes, ctx) *)
  json : jsval → option jsval }.         (* JSON.stringify; None when it throws *)

(** [inspect.styles] and [inspect.colors]; [name] has no style. *)
Definition style_codes (styleType : string) : option (Z * Z) :=
  if bool_decide (styleType = "special") then Some (36, 39)%Z
  else if bool_decide (styleType = "number") then Some (33, 39)%Z
  else if bool_decide (styleType = "boolean") then Some (33, 39)%Z
  else if bool_decide (styleType = "undefined") then Some (90, 39)%Z
  else if bool_decide (styleType = "null") then Some (1, 22)%Z
  else if bool_decide (styleType = "string") then Some (32, 39)%Z
  else if bool_decide (styleType = "date") then Some (35, 39)%Z
  else if bool_decide (styleType = "regexp") then Some (31, 39)%Z
  else None.

Definition code (n : Z) : jstr := [27; 91]%N ++ string_of_Z n ++ u "m".
Definition stylizeWithColor (str : jstr) (styleType : string) : jstr :=
  match style_codes styleType with
  | Some (on, off) => code on ++ str ++ code off
  | None => str
  end.
Definition stylizeNoColor (str : jstr) (styleType : string) : jstr := str.
Definition stylize (c : settings) : jstr → string → jstr :=
  if colors c then stylizeWithColor else stylizeNoColor.

(** ** Tests of types *)

Section types.
Variables (t : host) (h : heap).

Definition isObject (v : jsval) : bool :=
  match v with Ref _ => negb (is_function h v) | _ => false end.
Definition isRegExp (v : jsval) : bool := isObject v && bool_decide (class_of h v = "RegExp").
Definition isDate (v : jsval) : bool := isObject v && bool_decide (class_of h v = "Date").
Definition isError (v : jsval) : bool :=
  isObject v && (bool_decide (class_of h v = "Error")
                 || match v with Ref l => has_proto h l (error_proto t) | _ => false end).
Definition isString (v : jsval) : bool := match v with Str _ => true | _ => false end.
Definition isNull (v : jsval) : bool := match v with Null => true | _ => false end.
Definition isPrimitive (v : jsval) : bool := match v with Ref _ => false | _ => true end.
End types.

(** ** Lines *)

Definition line_feed : N := 10.

(** [str.split('\n').map(line => pad + line).join('\n')]. *)
Definition indent (pad str : jstr) : jstr :=
  join [line_feed] (map (app pad) (split_on line_feed str)).

(** The length of a match of [/\u001b\[\d\d?m/] at the start, or 0. *)
Definition code_length (s : jstr) : nat :=
  match s with
  | e :: b :: x :: y :: s =>
      if bool_decide (e = 27%N) && bool_decide (b = 91%N) && is_digit_unit x then
        if bool_decide (y = 109%N) then 4
        else match s with
             | z :: _ => if is_digit_unit y && bool_decide (z = 109%N) then 5 else 0
             | [] => 0
             end
      else 0
  | _ => 0
  end.
(** [replace(/\u001b\[\d\d?m/g, '')]; [skip] units belong to a match. *)
Fixpoint strip_codes (skip : nat) (s : jstr) : jstr :=
  match s with
  | [] => []
  | c :: s' =>
      match skip, code_length s with
      | S skip, _ => strip_codes skip s'
      | 0, 0 => c :: strip_codes 0 s'
      | 0, S n => strip_codes n s'
      end
  end.

Definition reduceToSingleString (output : list jstr) (base : jstr) (braces : jstr * jstr) : jstr :=
  let length := foldl (λ prev cur, prev + length (strip_codes 0 cur) + 1) 0 output in
  if 60 <? length then
    braces.1 ++ (if bool_decide (base = []) then [] else base ++ [line_feed] ++ u " ") ++ u " " ++
    join (u "," ++ [line_feed] ++ u "  ") output ++ u " " ++ braces.2
  else braces.1 ++ base ++ u " " ++ join (u ", ") output ++ u " " ++ braces.2.

(** ** Names *)

Definition is_name_start (c : N) : bool :=
  ((97 <=? c) && (c <=? 122) || (65 <=? c) && (c <=? 90) || (c =? 95))%N.
(** [[a-zA-Z_][a-zA-Z_0-9]*], between the double quotes. *)
Definition is_name (s : jstr) : bool :=
  match s with
  | [] => false
  | c :: s => is_name_start c && forallb (λ c, is_name_start c || is_digit_unit c) s
  end.
(** [/^\d+$/]. *)
Definition all_digits (key : jstr) : bool :=
  negb (bool_decide (key = [])) && forallb is_digit_unit key.

(** The double quotes at both ends become single ones. *)
Definition swap_quote (c : N) : N := if bool_decide (c = double_quote) then quote else c.
Definition outer_quotes (s : jstr) : jstr :=
  match s with
  | [] => []
  | c :: s =>
      swap_quote c :: match last s with
                      | Some d => removelast s ++ [swap_quote d]
                      | None => []
                      end
  end.
Definition quoted_name (key : jstr) : jstr :=
  outer_quotes (bare_double_quotes (escape_quotes (json_quote key))).

(** ** Values *)

Section inspect.
Variables (e : engine) (t : host) (c : settings) (h : heap).

Definition prop (v : jsval) (k : jstr) : jsval := default Undef (find_key e h v k).

(** [value] has a hook that is to be called. *)
Definition has_hook (value : jsval) : bool :=
  customInspect c && truthy value && is_function h (prop value (u "inspect"))
  && negb (bool_decide (prop value (u "inspect") = Ref (util_inspect t)))
  && negb (truthy (prop value (u "constructor"))
           && strict_eq (prop (prop value (u "constructor")) (u "prototype")) value).

Definition formatPrimitive (value : jsval) : option jstr :=
  match value with
  | Undef => Some (stylize c (u "undefined") "undefined")
  | Str s => Some (stylize c ([quote] ++ literal_body s ++ [quote]) "string")
  | Num _ => Some (stylize c (to_key e value) "number")
  | Bool _ => Some (stylize c (to_key e value) "boolean")
  | Null => Some (stylize c (u "null") "null")
  | Ref _ => None
  end.

(** [Error.prototype.toString]. *)
Definition error_text (value : jsval) : jstr :=
  let text v absent := match v with Undef => absent | _ => to_key e v end in
  let name := text (prop value (u "name")) (u "Error") in
  let msg := text (prop value (u "message")) [] in
  if bool_decide (name = []) then msg
  else if bool_decide (msg = []) then name else name ++ u ": " ++ msg.
Definition formatError (value : jsval) : jstr := u "[" ++ error_text value ++ u "]".

Definition function_text (value : jsval) : jstr :=
  let name := prop value (u "name") in
  u "[Function" ++ (if truthy name then u ": " ++ to_key e name else []) ++ u "]".

(** [formatValue] and [formatProperty] on what is inside, with the stack. *)
Variable rec : list jsval → jsval → option Z → option jstr.

(** The text of a value inside an object. *)
Definition format_inside (seen : list jsval) (v : jsval) (recurseTimes : option Z) (array : bool)
    : option jstr :=
  if existsb (strict_eq v) seen then Some (stylize c (u "[Circular]") "special")
  else
    str ← rec seen v (option_map (λ n, n - 1)%Z recurseTimes);
    Some (if bool_decide (line_feed ∈ str) then
            if array then drop 2 (indent (u "  ") str)
            else line_feed :: indent (u "   ") str
          else str).

(** [visible]: the key is in the table [visibleKeys]. *)
Definition formatProperty (seen : list jsval) (l : nat) (recurseTimes : option Z)
    (visible : jstr → bool) (key : jstr) (array : bool) : option jstr :=
  let v := default (prop (Ref l) key) (h !! l ≫= λ o, own_get o key) in
  str ← format_inside seen v recurseTimes array;
  Some
    (if visible key then
       if array && all_digits key then str
       else if is_name (concat (json_tokens key))
       then stylize c (concat (json_tokens key)) "name" ++ u ": " ++ str
       else stylize c (quoted_name key) "string" ++ u ": " ++ str
     else u "[" ++ key ++ u "]" ++ u ": " ++ str).

Definition formatArray (seen : list jsval) (l : nat) (recurseTimes : option Z)
    (visible : jstr → bool) (ks : list jstr) : option (list jstr) :=
  elems ← mapM (λ key, formatProperty seen l recurseTimes visible key true)
            (map index_key (seq 0 (length (elems_of h (Ref l)))));
  others ← mapM (λ key, formatProperty seen l recurseTimes visible key true)
             (filter (λ key, negb (all_digits key)) ks);
  Some (elems ++ others).

(** Objects without properties that are not printed with braces. *)
Definition format_bare (l : nat) : option jstr :=
  let value := Ref l in
  if is_function h value then Some (stylize c (function_text value) "special")
  else if isRegExp h value then Some (stylize c (regexp_text t l) "regexp")
  else if isDate h value then Some (stylize c (date_text t l) "date")
  else if isError t h value then Some (formatError value)
  else None.

(** What stands after the opening brace; the later assignments win. *)
Definition base_of (l : nat) : jstr :=
  let value := Ref l in
  if isError t h value then u " " ++ formatError value
  else if isDate h value then u " " ++ utc_text t l
  else if isRegExp h value then u " " ++ regexp_text t l
  else if is_function h value then u " " ++ function_text value
  else [].

(** An own [__proto__] is lost in the table of visible keys, an object literal. *)
Definition visible_key (l : nat) (key : jstr) : bool :=
  bool_decide (key ∈ keys h l) && negb (bool_decide (key = proto_key)).

Definition format_object (seen : list jsval) (l : nat) (recurseTimes : option Z) : option jstr :=
  let value := Ref l in
  let ks := if showHidden c then own_names t h l else keys h l in
  let array := is_array h value in
  let braces := if array then (u "[", u "]") else (u "{", u "}") in
  if isError t h value
     && (bool_decide (u "message" ∈ ks) || bool_decide (u "description" ∈ ks))
  then Some (formatError value)
  else
    match (if bool_decide (ks = []) then format_bare l else None) with
    | Some s => Some s
    | None =>
        if bool_decide (ks = []) && (negb array || (length (elems_of h value) =? 0))
        then Some (braces.1 ++ base_of l ++ braces.2)
        else if (if recurseTimes is Some n then n <? 0 else false)%Z then
          Some (if isRegExp h value then stylize c (regexp_text t l) "regexp"
                else stylize c (u "[Object]") "special")
        else
          output ←
            (if array then formatArray (seen ++ [value]) l recurseTimes (visible_key l) ks
             else mapM (λ key, formatProperty (seen ++ [value]) l recurseTimes (visible_key l)
                                 key array) ks);
          Some (reduceToSingleString output (base_of l) braces)
    end.
End inspect.

Section format_value.
Variables (e : engine) (t : host) (c : settings) (h : heap).

Fixpoint formatValue (fuel : nat) (seen : list jsval) (value : jsval) (recurseTimes : option Z)
    : option jstr :=
  match fuel with
  | 0 => None
  | S fuel =>
      if has_hook e t c h value then
        match run_hook t value recurseTimes seen with
        | Str s => Some s
        | ret => formatValue fuel seen ret recurseTimes
        end
      else
        match formatPrimitive e c value with
        | Some s => Some s
        | None =>
            match value with
            | Ref l => format_object e t c h (formatValue fuel) seen l recurseTimes
            | _ => None
            end
        end
  end.
End format_value.

(** ** [inspect] and [format] *)

(** An option that is undefined has a default; a depth of null is no limit. *)
Record inspect_options := {
  io_showHidden : option bool; io_depth : option (option Z); io_colors : option bool;
  io_customInspect : option bool }.
Definition default_options : inspect_options :=
  {| io_showHidden := None; io_depth := None; io_colors := None; io_customInspect := None |}.

Definition inspect_settings (opts : inspect_options) : settings :=
  {| showHidden := default false (io_showHidden opts); colors := default false (io_colors opts);
     customInspect := default true (io_customInspect opts) |}.

Section format.
Variables (e : engine) (t : host) (h : heap) (fuel : nat).

Definition inspect (obj : jsval) (opts : inspect_options) : option jstr :=
  formatValue e t (inspect_settings opts) h fuel [] obj (default (Some 2%Z) (io_depth opts)).

(** What replaces [%s], [%d] and [%j]. *)
Definition format_arg (spec : N) (x : jsval) : jstr :=
  if bool_decide (spec = 115%N) then to_key e x
  else if bool_decide (spec = 100%N) then
    to_key e (Num (to_number (e_runtime e) (to_primitive (e_runtime e) x)))
  else match json t x with Some s => to_key e s | None => u "[Circular]" end.

(** [String(f).replace(formatRegExp, ...)], and the arguments that are left. *)
Fixpoint format_specs (f : jstr) (args : list jsval) : jstr * list jsval :=
  match f with
  | [] => ([], args)
  | c :: f' =>
      let plain := let r := format_specs f' args in (c :: r.1, r.2) in
      match f' with
      | [] => plain
      | d :: f'' =>
          if bool_decide (c = 37%N) && bool_decide (d ∈ [115; 100; 106; 37]%N) then
            if bool_decide (d = 37%N) then let r := format_specs f'' args in (d :: r.1, r.2)
            else
              match args with
              | [] => let r := format_specs f'' args in (c :: d :: r.1, r.2)
              | x :: args => let r := format_specs f'' args in (format_arg d x ++ r.1, r.2)
              end
          else plain
      end
  end.

Definition format_rest (x : jsval) : option jstr :=
  if negb (isObject h x) then Some (to_key e x) else inspect x default_options.

Definition format (f : jsval) (args : list jsval) : option jstr :=
  match f with
  | Str f =>
      let r := format_specs f args in
      rest ← mapM format_rest r.2;
      Some (r.1 ++ concat (map (app (u " ")) rest))
  | _ =>
      objects ← mapM (λ x, inspect x default_options) (f :: args);
      Some (join (u " ") objects)
  end.
End format.

(** ** [deprecate] *)

Record process_flags := { noDeprecation : bool; throwDeprecation : bool; traceDeprecation : bool }.
Inductive notice := Traced (msg : jstr) | Logged (msg : jstr).

(** A call of the wrapper before it calls [fn]: an exception, or what is
    written and the new [warned]. *)
Definition deprecated (p : process_flags) (msg : jstr) (warned : bool)
    : jstr + (list notice * bool) :=
  if negb warned then
    if throwDeprecation p then inl msg
    else inr ([if traceDeprecation p then Traced msg else Logged msg], true)
  else inr ([], warned).

(** Calls of a function [deprecate] has made: what they write, one after the other. *)
Fixpoint deprecate (p : process_flags) (msg : jstr) (warned : bool) (calls : nat) : list (jstr + list notice) :=
  match calls with
  | 0 => []
  | S calls =>
      if noDeprecation p then inr [] :: deprecate p msg warned calls
      else
        match deprecated p msg warned with
        | inl x => inl x :: deprecate p msg warned calls
        | inr (written, warned) => inr written :: deprecate p msg warned calls
        end
  end.

(** ** [log] *)

Definition pad (n : nat) : jstr := if n <? 10 then u "0" ++ index_key n else index_key n.
Definition months : list jstr :=
  map u ["Jan"; "Feb"; "Mar"; "Apr"; "May"; "Jun"; "Jul"; "Aug"; "Sep"; "Oct"; "Nov"; "Dec"].
(** The fields of the time are arguments; [month] counts from 0. *)
Definition timestamp (date month hours minutes seconds : nat) : jstr :=
  join (u " ") [index_key date; default [] (months !! month);
                join (u ":") [pad hours; pad minutes; pad seconds]].

(** ** It ends *)

Lemma mapM_mono {A B} (f g : A → option B) xs ys :
  (∀ x y, f x = Some y → g x = Some y) → mapM f xs = Some ys → mapM g xs = Some ys.
Proof. intros Hfg. rewrite !mapM_Some. intros H. eapply Forall2_impl; [done|]. auto. Qed.

Lemma mapM_total {A B} (f : A → option B) xs :
  (∀ x, x ∈ xs → is_Some (f x)) → is_Some (mapM f xs).
Proof. intros H. apply mapM_is_Some. by apply Forall_forall. Qed.

Section ends.
Variables (e : engine) (t : host) (c : settings) (h : heap).

Lemma format_inside_mono r1 r2 seen v n array s :
  (∀ v n s, r1 seen v n = Some s → r2 seen v n = Some s) →
  format_inside c r1 seen v n array = Some s → format_inside c r2 seen v n array = Some s.
Proof.
  intros Hr. unfold format_inside. destruct (existsb _ _); [done|].
  intros (x&Hx&Hs)%bind_Some. by rewrite (Hr _ _ _ Hx).
Qed.

Lemma formatProperty_mono r1 r2 seen l n visible k array s :
  (∀ v n s, r1 seen v n = Some s → r2 seen v n = Some s) →
  formatProperty e c h r1 seen l n visible k array = Some s →
  formatProperty e c h r2 seen l n visible k array = Some s.
Proof.
  intros Hr. unfold formatProperty. intros (x&Hx&Hs)%bind_Some.
  rewrite (format_inside_mono _ _ _ _ _ _ _ Hr Hx). exact Hs.
Qed.

Lemma format_object_mono r1 r2 seen l n s :
  (∀ v n s, r1 (seen ++ [Ref l]) v n = Some s → r2 (seen ++ [Ref l]) v n = Some s) →
  format_object e t c h r1 seen l n = Some s → format_object e t c h r2 seen l n = Some s.
Proof.
  intros Hr. unfold format_object. destruct (isError t h (Ref l) && _); [done|].
  destruct (if bool_decide _ then format_bare _ _ _ _ _ else None); [done|].
  destruct (bool_decide _ && (negb _ || _)); [done|].
  destruct (match n with Some n => _ | None => false end); [done|].
  intros (out&Hout&Hs)%bind_Some. rewrite <-Hs. clear Hs.
  destruct (is_array h (Ref l)).
  - unfold formatArray in *. apply bind_Some in Hout as (a&Ha&Hout).
    apply bind_Some in Hout as (b&Hb&[= <-]).
    rewrite (mapM_mono _ (λ key, formatProperty e c h r2 (seen ++ [Ref l]) l n (visible_key h l) key true)
      _ _ (λ x y, formatProperty_mono _ _ _ _ _ _ _ _ _ Hr) Ha).
    simpl. rewrite (mapM_mono _ (λ key, formatProperty e c h r2 (seen ++ [Ref l]) l n (visible_key h l) key true)
      _ _ (λ x y, formatProperty_mono _ _ _ _ _ _ _ _ _ Hr) Hb). done.
  - rewrite (mapM_mono _ (λ key, formatProperty e c h r2 (seen ++ [Ref l]) l n (visible_key h l) key false)
      _ _ (λ x y, formatProperty_mono _ _ _ _ _ _ _ _ _ Hr) Hout). done.
Qed.
Lemma format_inside_total rec seen v n array :
  (∀ v n, existsb (strict_eq v) seen = false → is_Some (rec seen v n)) →
  is_Some (format_inside c rec seen v n array).
Proof.
  intros Hr. unfold format_inside. destruct (existsb _ _) eqn:Hs; [by eexists|].
  destruct (Hr v (option_map (λ n, n - 1)%Z n) Hs) as [s ->]. by eexists.
Qed.

Lemma formatProperty_total rec seen l n visible k array :
  (∀ v n, existsb (strict_eq v) seen = false → is_Some (rec seen v n)) →
  is_Some (formatProperty e c h rec seen l n visible k array).
Proof.
  intros Hr. unfold formatProperty.
  destruct (format_inside_total rec seen (default (prop e h (Ref l) k) (h !! l ≫= λ o, own_get o k))
    n array Hr) as [s ->].
  by eexists.
Qed.

(** Only an object of the heap is printed with what is in it. *)
Lemma format_object_total rec seen l n :
  (length h ≤ l → own_names t h l = []) →
  (∀ v n, l < length h → existsb (strict_eq v) (seen ++ [Ref l]) = false →
     is_Some (rec (seen ++ [Ref l]) v n)) →
  is_Some (format_object e t c h rec seen l n).
Proof.
  intros Hown Hr. unfold format_object. destruct (isError t h (Ref l) && _); [by eexists|].
  destruct (if bool_decide _ then format_bare _ _ _ _ _ else None); [by eexists|].
  destruct (decide (l < length h)) as [Hl|Hl].
  - destruct (bool_decide _ && (negb _ || _)); [by eexists|].
    destruct (match n with Some n => _ | None => false end); [by eexists|].
    assert (Hp : ∀ key array, is_Some (formatProperty e c h rec (seen ++ [Ref l]) l n
      (visible_key h l) key array)) by (intros; apply formatProperty_total; auto).
    destruct (is_array h (Ref l)).
    + unfold formatArray.
      destruct (mapM_total (λ key, formatProperty e c h rec (seen ++ [Ref l]) l n (visible_key h l) key true)
        (map index_key (seq 0 (length (elems_of h (Ref l)))))) as [a ->]; [auto|]. simpl.
      destruct (mapM_total (λ key, formatProperty e c h rec (seen ++ [Ref l]) l n (visible_key h l) key true)
        (filter (λ key, negb (all_digits key)) (if showHidden c then own_names t h l else keys h l)))
        as [b ->]; [auto|]. by eexists.
    + destruct (mapM_total (λ key, formatProperty e c h rec (seen ++ [Ref l]) l n (visible_key h l) key false)
        (if showHidden c then own_names t h l else keys h l)) as [a ->]; [auto|]. by eexists.
  - rewrite Hown by lia. unfold keys, is_array, class_of. rewrite lookup_ge_None_2 by lia.
    rewrite bool_decide_eq_true_2 by (by destruct (showHidden c)). by eexists.
Qed.

Lemma formatValue_mono n1 n2 seen v n s :
  n1 ≤ n2 → formatValue e t c h n1 seen v n = Some s → formatValue e t c h n2 seen v n = Some s.
Proof.
  revert n2 seen v n s. induction n1 as [|n1 IH]; intros n2 seen v n s Hn; [done|].
  destruct n2 as [|n2]; [lia|]. cbn [formatValue]. destruct (has_hook e t c h v).
  - destruct (run_hook t v n seen); try done; apply IH; lia.
  - destruct (formatPrimitive e c v); [done|]. destruct v as [| | | | |l]; try done.
    apply format_object_mono. intros v' n' s'. apply IH. lia.
Qed.

(** The stack holds objects of the heap, each once. *)
Definition stack_ok (seen : list jsval) : Prop :=
  ∃ ls, seen = map Ref ls ∧ NoDup ls ∧ Forall (λ l, l < length h) ls.

Lemma stack_length seen : stack_ok seen → length seen ≤ length h.
Proof.
  intros (ls&->&Hnd&Hls). rewrite length_map. rewrite <-(length_seq (length h) 0).
  apply submseteq_length, NoDup_submseteq; [done|]. intros x Hx. apply elem_of_seq.
  rewrite Forall_forall in Hls. specialize (Hls x Hx). lia.
Qed.

Lemma stack_push seen l :
  stack_ok seen → l < length h → existsb (strict_eq (Ref l)) seen = false → stack_ok (seen ++ [Ref l]).
Proof.
  intros (ls&->&Hnd&Hls) Hl Hseen. exists (ls ++ [l]). rewrite map_app. split; [done|].
  split; [|apply Forall_app; auto]. apply NoDup_app. split; [done|]. split; [|apply NoDup_singleton].
  intros x Hx ->%list_elem_of_singleton. apply not_true_iff_false in Hseen. apply Hseen.
  apply existsb_exists. exists (Ref l). split; [|apply Nat.eqb_refl].
  by apply list_elem_of_In, list_elem_of_fmap_2.
Qed.

Lemma formatValue_total fuel seen v n :
  (∀ v n seen, has_hook e t c h v = true → isString (run_hook t v n seen) = true) →
  (∀ l, length h ≤ l → own_names t h l = []) →
  stack_ok seen → existsb (strict_eq v) seen = false → length h < length seen + fuel →
  is_Some (formatValue e t c h fuel seen v n).
Proof.
  intros Hhook Hown. revert seen v n. induction fuel as [|fuel IH]; intros seen v n Hok Hseen Hfuel.
  - apply stack_length in Hok. lia.
  - cbn [formatValue]. destruct (has_hook e t c h v) eqn:Hh.
    { specialize (Hhook v n seen Hh). by destruct (run_hook t v n seen). }
    destruct (formatPrimitive e c v) eqn:Hp; [by eexists|].
    destruct v as [| | | | |l]; try done. apply format_object_total; [auto|].
    intros v' n' Hl Hv'. apply IH; [by apply stack_push|done|]. rewrite length_app. simpl. lia.
Qed.
End ends.

(** C35: [util.inspect] ends on every heap, with cycles or without a limit of
    depth, and without an answer of its own for more steps, when the hooks of
    user code return strings: one step more than the heap has objects. *)
Theorem inspect_ends (e : engine) (t : host) (h : heap) (obj : jsval) (opts : inspect_options) :
  (∀ v n seen, has_hook e t (inspect_settings opts) h v = true → isString (run_hook t v n seen) = true) →
  (∀ l, length h ≤ l → own_names t h l = []) →
  ∃ s, ∀ fuel, length h < fuel → inspect e t h fuel obj opts = Some s.
Proof.
  intros Hhook Hown.
  destruct (formatValue_total e t (inspect_settings opts) h (S (length h)) [] obj
    (default (Some 2%Z) (io_depth opts)) Hhook Hown) as [s Hs]; [|done|simpl; lia|].
  { exists []. split; [done|]. split; [apply NoDup_nil_2|constructor]. }
  exists s. intros fuel Hf. unfold inspect. by apply (formatValue_mono _ _ _ _ (S (length h))).
Qed.

(** A wrapper of [deprecate] warns once at most, or throws in every call. *)
Lemma deprecate_once p msg warned n :
  throwDeprecation p = false →
  ∃ notices, deprecate p msg warned n = map inr notices ∧ length (concat notices) ≤ 1 ∧
    (warned = true → concat notices = []).
Proof.
  intros Hp. revert warned. induction n as [|n IH]; intros warned; [by exists []; simpl; auto|]. simpl.
  destruct (noDeprecation p).
  - destruct (IH warned) as (ns&->&H1&H2). exists ([] :: ns). by simpl.
  - unfold deprecated. destruct warned; simpl.
    + destruct (IH true) as (ns&->&H1&H2). exists ([] :: ns). by simpl.
    + rewrite Hp. destruct (IH true) as (ns&->&H1&H2). specialize (H2 eq_refl).
      eexists (_ :: ns). split; [reflexivity|]. simpl. by rewrite H2.
Qed.

(** *** Samples *)

Example timestamp_sample : timestamp 26 1 16 19 4 = u "26 Feb 16:19:04".
Proof. reflexivity. Qed.

Definition sample_host : host :=
  {| own_names := keys; regexp_text := λ _, []; date_text := λ _, []; utc_text := λ _, [];
     util_inspect := 0; error_proto := 0; run_hook := λ _ _ _, Str []; json := λ _, None |}.

(** An object that holds itself, and a list that holds it twice. *)
Definition cyclic_heap : heap :=
  [sample_object "Object" None [];
   set_props [(u "self", Ref 1); (u "x", Num (num_of_Z 1))] (sample_object "Object" None []);
   sample_object "Array" None [Ref 1; Ref 1]].

Lemma inspect_ends_witness :
  ∃ s, ∀ fuel, length cyclic_heap < fuel →
    inspect sample_engine sample_host cyclic_heap fuel (Ref 2) default_options = Some s.
Proof.
  apply (inspect_ends sample_engine sample_host cyclic_heap (Ref 2) default_options).
  - intros v n seen _. reflexivity.
  - intros l Hl. simpl. unfold keys. by rewrite lookup_ge_None_2.
Defined.

Example inspect_cyclic :
  inspect sample_engine sample_host cyclic_heap 4 (Ref 2) default_options
  = Some (u "[ { self: [Circular], x: 1 }, { self: [Circular], x: 1 } ]").
Proof. vm_compute. reflexivity. Qed.

Example format_sample :
  format sample_engine sample_host cyclic_heap 4 (Str (u "%s=%d%% %s")) [Str (u "a"); num 7]
  = Some (u "a=7% %s").
Proof. vm_compute. reflexivity. Qed.

(** A property named [__proto__] is printed as if it were hidden. *)
Lemma inspect_proto_key :
  let h := [set_props [(proto_key, Num (num_of_Z 1))] (sample_object "Object" None [])] in
  inspect sample_engine sample_host h 2 (Ref 0) default_options = Some (u "{ [__proto__]: 1 }").
Proof. vm_compute. reflexivity. Qed.

(** A property of an array with a name of digits that is no index is not printed. *)
Lemma inspect_digit_key :
  let h := [set_props [(u "4294967295", Num (num_of_Z 1))] (sample_object "Array" None [])] in
  inspect sample_engine sample_host h 2 (Ref 0) default_options = Some (u "[  ]").
Proof. vm_compute. reflexivity. Qed.
