(* ===== verification/InspectReads.v ===== *)
(** * What [util.inspect] prints is read back

    [parse_value] reads JavaScript expressions of undefined, null, booleans,
    integers, strings, arrays and objects.  The text of plain data (a finite
    tree of those, with names that [formatProperty] quotes rightly) is such an
    expression of the data itself. *)

From S2P Require Import Prelude JsString JsValue Numbers JsMonad BraceExpansion Literals UnderscoreFacts Inspect.

(** ** Data *)

Inductive data :=
| DUndef | DNull | DBool (b : bool) | DInt (z : Z) | DStr (s : jstr)
| DArr (l : list data) | DObj (l : list (jstr * data)).

(** ** Reading expressions *)

Definition is_blank (c : N) : bool := bool_decide (c ∈ [32; 10]%N).
Fixpoint skip_blanks (s : jstr) : jstr :=
  match s with c :: s' => if is_blank c then skip_blanks s' else s | [] => [] end.

Definition is_word (c : N) : bool := is_name_start c || is_digit_unit c || (c =? 45)%N.
Fixpoint take_word (s : jstr) : jstr * jstr :=
  match s with
  | c :: s' => if is_word c then let r := take_word s' in (c :: r.1, r.2) else ([], s)
  | [] => ([], [])
  end.

Definition word_value (w : jstr) : option data :=
  if bool_decide (w = u "undefined") then Some DUndef
  else if bool_decide (w = u "null") then Some DNull
  else if bool_decide (w = u "true") then Some (DBool true)
  else if bool_decide (w = u "false") then Some (DBool false)
  else
    let z := match w with
             | 45%N :: w => (- digits_value w)%Z
             | _ => digits_value w
             end in
    if bool_decide (string_of_Z z = w) then Some (DInt z) else None.

Fixpoint parse_value (fuel : nat) (s : jstr) : option (data * jstr) :=
  match fuel with
  | 0 => None
  | S fuel =>
      match skip_blanks s with
      | [] => None
      | c :: s =>
          if bool_decide (c = 91%N) then
            match parse_elems fuel s with Some (l, s) => Some (DArr l, s) | None => None end
          else if bool_decide (c = 123%N) then
            match parse_props fuel s with Some (l, s) => Some (DObj l, s) | None => None end
          else if bool_decide (c = quote) then
            match read_literal s with Some (x, s) => Some (DStr x, s) | None => None end
          else
            match word_value (take_word (c :: s)).1 with
            | Some d => Some (d, (take_word (c :: s)).2)
            | None => None
            end
      end
  end
(** After an opening bracket or a comma. *)
with parse_elems (fuel : nat) (s : jstr) : option (list data * jstr) :=
  match fuel with
  | 0 => None
  | S fuel =>
      if bool_decide (head (skip_blanks s) = Some 93%N) then Some ([], tail (skip_blanks s))
      else
        match parse_value fuel s with
        | None => None
        | Some (d, s) =>
            match skip_blanks s with
            | c :: s =>
                if bool_decide (c = 93%N) then Some ([d], s)
                else if bool_decide (c = 44%N) then
                  match parse_elems fuel s with Some (l, s) => Some (d :: l, s) | None => None end
                else None
            | [] => None
            end
        end
  end
with parse_props (fuel : nat) (s : jstr) : option (list (jstr * data) * jstr) :=
  match fuel with
  | 0 => None
  | S fuel =>
      match skip_blanks s with
      | [] => None
      | c :: s =>
          if bool_decide (c = 125%N) then Some ([], s)
          else
            match (if bool_decide (c = quote) then read_literal s
                   else let r := take_word (c :: s) in if is_name r.1 then Some r else None) with
            | None => None
            | Some (k, s) =>
                match skip_blanks s with
                | c :: s =>
                    if bool_decide (c = 58%N) then
                      match parse_value fuel s with
                      | None => None
                      | Some (d, s) =>
                          match skip_blanks s with
                          | c :: s =>
                              if bool_decide (c = 125%N) then Some ([(k, d)], s)
                              else if bool_decide (c = 44%N) then
                                match parse_props fuel s with
                                | Some (l, s) => Some ((k, d) :: l, s)
                                | None => None
                                end
                              else None
                          | [] => None
                          end
                      end
                    else None
                | [] => None
                end
            end
      end
  end.

(** The value of an expression, with blanks around it. *)
Definition parse (s : jstr) : option data :=
  match parse_value (S (length s)) s with
  | Some (d, rest) => if bool_decide (skip_blanks rest = []) then Some d else None
  | None => None
  end.

Example parse_sample :
  parse (u "{ a: [ 1, -2 ], 'b c': 'x\'y', d: {} }")
  = Some (DObj [(u "a", DArr [DInt 1; DInt (-2)]); (u "b c", DStr (u "x'y")); (u "d", DObj [])]).
Proof. reflexivity. Qed.

(** ** Expressions, with blanks where they may be *)

Definition blanks (s : jstr) : Prop := Forall (λ c, is_blank c = true) s.
Definition no_lf (s : jstr) : Prop := line_feed ∉ s.

(** The text of a name before the colon. *)
Inductive name_text : jstr → jstr → Prop :=
| name_bare k : is_name k = true → name_text k k
| name_quoted b k : no_lf b → (∀ rest, read_literal (b ++ rest) = Some (k, rest)) →
    name_text (quote :: b) k.

Inductive prints : jstr → data → Prop :=
| prints_word w d : w ≠ [] → Forall (λ c, is_word c = true) w → word_value w = Some d → prints w d
| prints_str b s : no_lf b → (∀ rest, read_literal (b ++ rest) = Some (s, rest)) →
    prints (quote :: b) (DStr s)
| prints_arr body l : prints_elems body l → prints (91%N :: body ++ [93%N]) (DArr l)
| prints_obj body l : prints_props body l → prints (123%N :: body ++ [125%N]) (DObj l)
with prints_elems : jstr → list data → Prop :=
| elems_nil w : blanks w → prints_elems w []
| elems_one w1 s w2 d : blanks w1 → prints s d → blanks w2 → prints_elems (w1 ++ s ++ w2) [d]
| elems_cons w1 s w2 d body l : blanks w1 → prints s d → blanks w2 → prints_elems body l →
    prints_elems (w1 ++ s ++ w2 ++ 44%N :: body) (d :: l)
with prints_props : jstr → list (jstr * data) → Prop :=
| props_nil w : blanks w → prints_props w []
| props_one w1 n w2 w3 s w4 k d : blanks w1 → name_text n k → blanks w2 → blanks w3 →
    prints s d → blanks w4 → prints_props (w1 ++ n ++ w2 ++ 58%N :: w3 ++ s ++ w4) [(k, d)]
| props_cons w1 n w2 w3 s w4 k d body l : blanks w1 → name_text n k → blanks w2 → blanks w3 →
    prints s d → blanks w4 → prints_props body l →
    prints_props (w1 ++ n ++ w2 ++ 58%N :: w3 ++ s ++ w4 ++ 44%N :: body) ((k, d) :: l).

Scheme prints_mut := Minimality for prints Sort Prop
with prints_elems_mut := Minimality for prints_elems Sort Prop
with prints_props_mut := Minimality for prints_props Sort Prop.
Combined Scheme prints_ind_all from prints_mut, prints_elems_mut, prints_props_mut.

(** *** They are read *)

Lemma skip_blanks_app w s : blanks w → skip_blanks (w ++ s) = skip_blanks s.
Proof. induction 1 as [|c w Hc _ IH]; [done|]. cbn [app skip_blanks]. by rewrite Hc. Qed.

Lemma skip_blanks_cons c s : is_blank c = false → skip_blanks (c :: s) = c :: s.
Proof. intros H. cbn [skip_blanks]. by rewrite H. Qed.

Lemma word_not_blank c : is_word c = true → is_blank c = false.
Proof.
  intros H. apply bool_decide_eq_false_2. rewrite !not_elem_of_cons.
  split_and!; [intros ->; done|intros ->; done|apply not_elem_of_nil].
Qed.

(** What may follow a word. *)
Definition delimited (rest : jstr) : Prop := ∀ c, head rest = Some c → is_word c = false.

Lemma take_word_app w rest :
  Forall (λ c, is_word c = true) w → delimited rest → take_word (w ++ rest) = (w, rest).
Proof.
  intros Hw Hrest. induction Hw as [|c w Hc _ IH]; cbn [app take_word].
  - destruct rest as [|c rest]; [done|]. cbn [take_word]. by rewrite Hrest.
  - by rewrite Hc, IH.
Qed.

Lemma name_is_word k : is_name k = true → k ≠ [] ∧ Forall (λ c, is_word c = true) k.
Proof.
  destruct k as [|c k]; [done|]. cbn [is_name]. intros [Hc Hk]%andb_true_iff. split; [done|].
  constructor; [unfold is_word; by rewrite Hc|].
  rewrite forallb_forall in Hk. apply Forall_forall. intros x Hx%list_elem_of_In.
  unfold is_word. by rewrite (Hk x Hx).
Qed.

Lemma blank_not_word c : is_blank c = true → is_word c = false.
Proof. intros H. destruct (is_word c) eqn:E; [|done]. apply word_not_blank in E. congruence. Qed.

Lemma delimited_app w c rest : blanks w → is_word c = false → delimited (w ++ c :: rest).
Proof.
  intros Hw Hc d. destruct Hw as [|x w Hx _]; simpl; intros [= <-]; [done|by apply blank_not_word].
Qed.

Lemma prints_head s d : prints s d → ∃ c s', s = c :: s' ∧ is_blank c = false ∧ c ≠ 93%N.
Proof.
  destruct 1 as [w d Hne Hw _|b k _ _|body l _|body l _]; [|by eexists _, _..].
  destruct Hw as [|c w Hc _]; [done|]. exists c, w. split; [done|].
  split; [by apply word_not_blank|]. by intros ->.
Qed.

Lemma parse_value_blanks fuel w s : blanks w → parse_value fuel (w ++ s) = parse_value fuel s.
Proof. intros Hw. destruct fuel; [done|]. cbn [parse_value]. by rewrite skip_blanks_app. Qed.

Lemma parse_word fuel w d rest :
  w ≠ [] → Forall (λ c, is_word c = true) w → word_value w = Some d → delimited rest →
  parse_value (S fuel) (w ++ rest) = Some (d, rest).
Proof.
  intros Hne Hw Hd Hrest. pose proof (take_word_app w rest Hw Hrest) as Ht.
  destruct w as [|c w]; [done|]. inversion Hw as [|?? Hc _]; subst. cbn [parse_value app] in *.
  rewrite skip_blanks_cons by by apply word_not_blank.
  rewrite !bool_decide_eq_false_2 by by intros ->.
  rewrite Ht. cbn [fst snd]. by rewrite Hd.
Qed.

(** What follows the first expression of a list. *)
Lemma parse_elems_step fuel w1 s d w2 c rest :
  blanks w1 → prints s d → blanks w2 → is_word c = false → is_blank c = false →
  (∀ rest, delimited rest → parse_value fuel (s ++ rest) = Some (d, rest)) →
  parse_elems (S fuel) (w1 ++ s ++ w2 ++ c :: rest) =
    if bool_decide (c = 93%N) then Some ([d], rest)
    else if bool_decide (c = 44%N) then
      match parse_elems fuel rest with Some (l, s) => Some (d :: l, s) | None => None end
    else None.
Proof.
  intros H1 Hs H2 Hw Hb IH. destruct (prints_head _ _ Hs) as (x&s'&->&Hx&Hne).
  cbn [parse_elems]. rewrite skip_blanks_app by done.
  rewrite <-app_comm_cons, skip_blanks_cons by done. cbn [head].
  rewrite bool_decide_eq_false_2 by congruence.
  rewrite parse_value_blanks, app_comm_cons by done.
  rewrite IH by by apply delimited_app. rewrite skip_blanks_app, skip_blanks_cons by done. done.
Qed.

(** A name and its colon. *)
Lemma parse_props_step fuel w1 n w2 k w3 s d w4 c rest :
  blanks w1 → name_text n k → blanks w2 → blanks w3 → blanks w4 →
  is_word c = false → is_blank c = false →
  (∀ rest, delimited rest → parse_value fuel (s ++ rest) = Some (d, rest)) →
  parse_props (S fuel) (w1 ++ n ++ w2 ++ 58%N :: w3 ++ s ++ w4 ++ c :: rest) =
    if bool_decide (c = 125%N) then Some ([(k, d)], rest)
    else if bool_decide (c = 44%N) then
      match parse_props fuel rest with Some (l, s) => Some ((k, d) :: l, s) | None => None end
    else None.
Proof.
  intros H1 Hn H2 H3 H4 Hw Hb IH. cbn [parse_props]. rewrite skip_blanks_app by done.
  set (tail := w2 ++ 58%N :: w3 ++ s ++ w4 ++ c :: rest).
  assert (Hd : delimited tail) by by apply delimited_app.
  assert (Ht : skip_blanks tail = 58%N :: w3 ++ s ++ w4 ++ c :: rest)
    by (unfold tail; by rewrite skip_blanks_app).
  clearbody tail. destruct Hn as [k Hk|b k _ Hk].
  - destruct (name_is_word k Hk) as [Hne Hkw]. pose proof (take_word_app k tail Hkw Hd) as Htw.
    destruct k as [|x k]; [done|]. inversion Hkw as [|?? Hx _]; subst. cbn [app] in *.
    rewrite skip_blanks_cons by by apply word_not_blank.
    rewrite !(bool_decide_eq_false_2 (x = _)) by by intros ->.
    rewrite Htw. cbn [fst]. rewrite Hk, Ht.
    rewrite bool_decide_eq_true_2 by done. rewrite parse_value_blanks by done.
    rewrite IH by by apply delimited_app. by rewrite skip_blanks_app, skip_blanks_cons.
  - rewrite <-app_comm_cons, skip_blanks_cons by done.
    rewrite bool_decide_eq_false_2 by done. rewrite bool_decide_eq_true_2 by done. rewrite Hk, Ht.
    rewrite bool_decide_eq_true_2 by done. rewrite parse_value_blanks by done.
    rewrite IH by by apply delimited_app. by rewrite skip_blanks_app, skip_blanks_cons.
Qed.

Lemma prints_parsed :
  (∀ s d, prints s d → ∀ rest fuel, delimited rest → length s < fuel →
     parse_value fuel (s ++ rest) = Some (d, rest)) ∧
  (∀ body l, prints_elems body l → ∀ rest fuel, S (length body) < fuel →
     parse_elems fuel (body ++ 93%N :: rest) = Some (l, rest)) ∧
  (∀ body l, prints_props body l → ∀ rest fuel, S (length body) < fuel →
     parse_props fuel (body ++ 125%N :: rest) = Some (l, rest)).
Proof.
  apply prints_ind_all.
  - intros w d Hne Hw Hd rest fuel Hrest Hf. destruct fuel; [lia|]. by apply parse_word.
  - intros b s _ Hb rest fuel _ Hf. destruct fuel; [lia|]. cbn [parse_value app].
    rewrite skip_blanks_cons by done. cbn. by rewrite Hb.
  - intros body l _ IH rest fuel _ Hf. destruct fuel; [lia|]. cbn [parse_value app].
    rewrite <-app_assoc, skip_blanks_cons by done. cbn [app].
    rewrite bool_decide_eq_true_2 by done. rewrite IH; [done|].
    simpl in Hf. rewrite length_app in Hf. simpl in Hf. lia.
  - intros body l _ IH rest fuel _ Hf. destruct fuel; [lia|]. cbn [parse_value app].
    rewrite <-app_assoc, skip_blanks_cons by done. cbn [app].
    rewrite bool_decide_eq_false_2 by done. rewrite bool_decide_eq_true_2 by done. rewrite IH; [done|].
    simpl in Hf. rewrite length_app in Hf. simpl in Hf. lia.
  - intros w Hw rest fuel Hf. destruct fuel; [lia|]. cbn [parse_elems].
    by rewrite skip_blanks_app, skip_blanks_cons.
  - intros w1 s w2 d H1 Hs IH H2 rest fuel Hf. destruct fuel; [lia|]. rewrite <-!app_assoc.
    rewrite !length_app in Hf.
    rewrite (parse_elems_step _ _ _ d) by (done || (intros; apply IH; [done|lia])). done.
  - intros w1 s w2 d body l H1 Hs IHs H2 _ IH rest fuel Hf. destruct fuel; [lia|].
    rewrite <-!app_assoc. rewrite !length_app in Hf. simpl in Hf. cbn [app].
    rewrite (parse_elems_step _ _ _ d) by (done || (intros; apply IHs; [done|lia])).
    rewrite bool_decide_eq_false_2, bool_decide_eq_true_2 by done. by rewrite IH by lia.
  - intros w Hw rest fuel Hf. destruct fuel; [lia|]. cbn [parse_props].
    by rewrite skip_blanks_app, skip_blanks_cons.
  - intros w1 n w2 w3 s w4 k d H1 Hn H2 H3 Hs IH H4 rest fuel Hf. destruct fuel; [lia|].
    repeat (rewrite !length_app in Hf; simpl in Hf).
    repeat (rewrite <-!app_assoc; cbn [app]).
    rewrite (parse_props_step _ _ _ _ k _ _ d) by (done || (intros; apply IH; [done|lia])). done.
  - intros w1 n w2 w3 s w4 k d body l H1 Hn H2 H3 Hs IHs H4 _ IH rest fuel Hf. destruct fuel; [lia|].
    repeat (rewrite !length_app in Hf; simpl in Hf).
    repeat (rewrite <-!app_assoc; cbn [app]).
    rewrite (parse_props_step _ _ _ _ k _ _ d) by (done || (intros; apply IHs; [done|lia])).
    rewrite bool_decide_eq_false_2, bool_decide_eq_true_2 by done. by rewrite IH by lia.
Qed.

(** *** They may be indented *)

(** Blanks after each line feed. *)
Definition widen (pad s : jstr) : jstr :=
  concat (map (λ c, if bool_decide (c = line_feed) then line_feed :: pad else [c]) s).

Lemma widen_app pad s1 s2 : widen pad (s1 ++ s2) = widen pad s1 ++ widen pad s2.
Proof. unfold widen. by rewrite map_app, concat_app. Qed.

Lemma widen_cons pad c s : c ≠ line_feed → widen pad (c :: s) = c :: widen pad s.
Proof. intros H. unfold widen. cbn [map concat]. by rewrite bool_decide_eq_false_2. Qed.

Lemma widen_id pad s : no_lf s → widen pad s = s.
Proof.
  induction s as [|c s IH]; intros H; [done|]. apply not_elem_of_cons in H as [Hc Hs].
  rewrite widen_cons by congruence. by rewrite IH.
Qed.

Lemma join_more sep p q ps : join sep (p :: q :: ps) = p ++ sep ++ join sep (q :: ps).
Proof. done. Qed.

Lemma indent_widen pad s : indent pad s = pad ++ widen pad s.
Proof.
  unfold indent. induction s as [|c s IH]; [done|]. cbn [split_on].
  pose proof (split_on_nonempty line_feed s) as Hne.
  destruct (split_on line_feed s) as [|p ps]; [done|]. cbn [map] in IH.
  destruct (N.eqb_spec c line_feed) as [->|Hc].
  - cbn [map]. rewrite join_more, IH, app_nil_r. unfold widen at 2. cbn [map concat].
    by rewrite bool_decide_eq_true_2.
  - rewrite widen_cons by done. destruct ps as [|q ps]; cbn [map] in *.
    + cbn [join] in *. apply app_inv_head in IH. by rewrite IH.
    + rewrite join_more, <-app_assoc in *. apply app_inv_head in IH. by rewrite <-IH.
Qed.

Lemma widen_blanks pad w : blanks pad → blanks w → blanks (widen pad w).
Proof.
  intros Hp. induction 1 as [|c w Hc _ IH]; [constructor|]. unfold widen. cbn [map concat].
  apply Forall_app. split; [|done]. case_bool_decide; by repeat constructor.
Qed.

Lemma word_no_lf w : Forall (λ c, is_word c = true) w → no_lf w.
Proof. intros Hw Hin. rewrite Forall_forall in Hw. by apply Hw in Hin. Qed.

Lemma name_no_lf n k : name_text n k → no_lf n.
Proof.
  destruct 1 as [k Hk|b k Hb _].
  - by apply word_no_lf, name_is_word.
  - by apply not_elem_of_cons.
Qed.

Lemma prints_widen pad : blanks pad →
  (∀ s d, prints s d → prints (widen pad s) d) ∧
  (∀ body l, prints_elems body l → prints_elems (widen pad body) l) ∧
  (∀ body l, prints_props body l → prints_props (widen pad body) l).
Proof.
  intros Hp. apply prints_ind_all; intros.
  - rewrite widen_id by by apply word_no_lf. by constructor.
  - rewrite widen_id by by apply not_elem_of_cons. by constructor.
  - rewrite widen_cons, widen_app by done. by constructor.
  - rewrite widen_cons, widen_app by done. by constructor.
  - constructor. by apply widen_blanks.
  - rewrite !widen_app. constructor; auto using widen_blanks.
  - rewrite !widen_app, widen_cons by done. constructor; auto using widen_blanks.
  - constructor. by apply widen_blanks.
  - rewrite !widen_app, widen_cons, !widen_app by done.
    rewrite (widen_id _ n) by by eapply name_no_lf. constructor; auto using widen_blanks.
  - rewrite !widen_app, widen_cons, !widen_app, widen_cons by done.
    rewrite (widen_id _ n) by by eapply name_no_lf. constructor; auto using widen_blanks.
Qed.

(** ** The texts of literals and names *)

Lemma escape_quotes_snoc t c : escape_quotes (t ++ [c]) = escape_quotes t ++ quote_unit c.
Proof. rewrite escape_quotes_app. f_equal. unfold escape_quotes. cbn [map concat]. apply app_nil_r. Qed.

Lemma last_app_right {A} (s t : list A) : t ≠ [] → last (s ++ t) = last t.
Proof. destruct t as [|c t _] using rev_ind; [done|]. by rewrite app_assoc, !last_snoc. Qed.

Lemma last_escape_quotes t : last (escape_quotes t) = last t.
Proof.
  destruct t as [|c t _] using rev_ind; [done|]. rewrite escape_quotes_snoc, last_snoc.
  unfold quote_unit. case_bool_decide; [|by rewrite last_snoc].
  by rewrite last_app_right.
Qed.

Lemma unit_token_last c : c ≠ backslash → unit_token c ≠ [] ∧ last (unit_token c) ≠ Some backslash.
Proof.
  intros Hc. destruct (unit_token_ok c) as [->|[H|(Hne&_&Hl)]]; [done|exfalso|done].
  unfold unit_token in H.
  do 5 (destruct (bool_decide _); [done|]). destruct (bool_decide _ || bool_decide _).
  - by injection H as [= ->].
  - by destruct ((c <? 32)%N || is_lead c || is_trail c).
Qed.

Lemma last_tokens s : last s ≠ Some backslash → last (concat (json_tokens s)) ≠ Some backslash.
Proof.
  assert (∀ n s, length s < n → last s ≠ Some backslash →
    last (concat (json_tokens s)) ≠ Some backslash ∧ (s ≠ [] → concat (json_tokens s) ≠ [])) as H.
  { induction n as [|n IH]; intros t Hn Hl; [lia|]. destruct t as [|c [|d t]].
    - done.
    - cbn [json_tokens concat]. rewrite app_nil_r.
      destruct (unit_token_last c) as [H1 H2]; [by intros ->; apply Hl|]. by split.
    - rewrite json_tokens_cons. simpl in Hn. destruct (is_lead c && is_trail d) eqn:Hs.
      + cbn [concat]. split; [|done]. destruct (decide (t = [])) as [->|Ht].
        * by rewrite app_nil_r.
        * destruct (IH t) as [IH1 IH2]; [lia| |].
          { change (c :: d :: t) with ([c; d] ++ t) in Hl. by rewrite last_app_right in Hl. }
          rewrite last_app_right by auto. done.
      + destruct (IH (d :: t)) as [IH1 IH2]; [simpl; lia|done|]. cbn [concat].
        rewrite last_app_right by auto. split; [done|]. intros _ [_ ?]%app_nil. by apply IH2. }
  intros Hl. by destruct (H (S (length s)) s) as [? _]; [lia|done|].
Qed.

(** A double quote at the end stays, if no backslash comes before it. *)
Lemma bare_snoc s :
  last s ≠ Some backslash →
  bare_double_quotes (s ++ [double_quote]) = bare_double_quotes s ++ [double_quote].
Proof.
  assert (∀ n s, length s < n → last s ≠ Some backslash →
    bare_double_quotes (s ++ [double_quote]) = bare_double_quotes s ++ [double_quote]) as H.
  { induction n as [|n IH]; intros t Hn Hl; [lia|]. destruct t as [|c [|d t]]; [done| |].
    - cbn [app bare_double_quotes]. rewrite (bool_decide_eq_false_2 (c = backslash)); [done|].
      by intros ->.
    - simpl in Hn. cbn [app bare_double_quotes].
      destruct (bool_decide (c = backslash) && bool_decide (d = double_quote)).
      + cbn [app]. f_equal. destruct t as [|x t]; [done|]. by apply IH; [simpl in *; lia|].
      + cbn [app]. f_equal. apply (IH (d :: t)); [simpl; lia|done]. }
  apply (H (S (length s))). lia.
Qed.

Lemma quoted_name_body key :
  last key ≠ Some backslash → quoted_name key = quote :: literal_body key ++ [quote].
Proof.
  intros Hl. unfold quoted_name, json_quote, literal_body.
  set (b := concat (json_tokens key)).
  assert (Hb : last (escape_quotes b) ≠ Some backslash)
    by (rewrite last_escape_quotes; by apply last_tokens).
  change (escape_quotes (double_quote :: b ++ [double_quote]))
    with (double_quote :: escape_quotes (b ++ [double_quote])).
  rewrite escape_quotes_app. change (escape_quotes [double_quote]) with [double_quote].
  assert (bare_double_quotes (double_quote :: escape_quotes b ++ [double_quote])
    = double_quote :: bare_double_quotes (escape_quotes b) ++ [double_quote]) as ->.
  { rewrite <-bare_snoc by done. destruct (escape_quotes b); done. }
  cbn [outer_quotes]. rewrite last_snoc, removelast_last. done.
Qed.

Lemma escape_quotes_no_lf t : no_lf t → no_lf (escape_quotes t).
Proof.
  induction t as [|c t IH]; intros H; [done|]. apply not_elem_of_cons in H as [Hc Ht].
  change (escape_quotes (c :: t)) with (quote_unit c ++ escape_quotes t).
  apply not_elem_of_app. split; [|by apply IH]. unfold quote_unit.
  case_bool_decide; rewrite !not_elem_of_cons; split_and!; try done; apply not_elem_of_nil.
Qed.

Lemma bare_no_lf t : no_lf t → no_lf (bare_double_quotes t).
Proof.
  assert (∀ n t, length t < n → no_lf t → no_lf (bare_double_quotes t)) as H.
  { induction n as [|n IH]; intros s Hn H; [lia|]. destruct s as [|c [|d s]]; [done|done|].
    cbn [bare_double_quotes]. simpl in Hn. pose proof H as H'.
    apply not_elem_of_cons in H' as [Hc H']. pose proof H' as [Hd Hs]%not_elem_of_cons.
    destruct (bool_decide (c = backslash) && bool_decide (d = double_quote)).
    - apply not_elem_of_cons. split; [done|]. apply IH; [lia|done].
    - apply not_elem_of_cons. split; [done|]. apply (IH (d :: s)); [simpl; lia|done]. }
  apply (H (S (length t))). lia.
Qed.

Lemma unit_token_no_lf c : no_lf (unit_token c).
Proof.
  unfold no_lf, line_feed. intros Hin. destruct (decide (c = 10%N)) as [->|Hc].
  { revert Hin. apply (bool_decide_unpack _). vm_compute. exact I. }
  assert (Hh : ∀ n, 10%N ≠ hex_digit n) by (intros n; unfold hex_digit; case_match; lia).
  revert Hin. unfold unit_token.
  do 5 (destruct (bool_decide _); [apply (bool_decide_unpack _); vm_compute; exact I|]).
  destruct (bool_decide _ || bool_decide _); [unfold backslash; set_solver|].
  destruct ((c <? 32)%N || is_lead c || is_trail c); [|set_solver].
  change (u "\u") with [92; 117]%N. unfold hex4. set_solver.
Qed.

Lemma tokens_no_lf s : no_lf (concat (json_tokens s)).
Proof.
  assert (∀ n s, length s < n → no_lf (concat (json_tokens s))) as H.
  { induction n as [|n IH]; intros t Hn; [lia|]. destruct t as [|c [|d t]]; [apply not_elem_of_nil| |].
    - cbn [json_tokens concat]. rewrite app_nil_r. apply unit_token_no_lf.
    - rewrite json_tokens_cons. simpl in Hn. destruct (is_lead c && is_trail d) eqn:Hs; cbn [concat].
      + apply not_elem_of_app. split; [|apply IH; lia].
        apply andb_true_iff in Hs as [Hc Hd]. unfold is_lead, is_trail, no_lf, line_feed in *.
        bool_clean. rewrite !not_elem_of_cons. split_and!; [lia|lia|apply not_elem_of_nil].
      + apply not_elem_of_app. split; [apply unit_token_no_lf|]. apply IH. simpl. lia. }
  apply (H (S (length s))). lia.
Qed.

Lemma body_no_lf s : no_lf (literal_body s ++ [quote]).
Proof.
  apply not_elem_of_app. split; [|by apply not_elem_of_cons; split; [|apply not_elem_of_nil]].
  apply bare_no_lf, escape_quotes_no_lf, tokens_no_lf.
Qed.

Lemma body_reads s rest : units s → read_literal ((literal_body s ++ [quote]) ++ rest) = Some (s, rest).
Proof. intros Hs. rewrite <-app_assoc. by apply literal_body_reads. Qed.

Lemma plain_tokens s : backslash ∉ concat (json_tokens s) → concat (json_tokens s) = s.
Proof.
  assert (Ht : ∀ c, backslash ∉ unit_token c → unit_token c = [c]).
  { intros c. unfold unit_token.
    do 5 (destruct (bool_decide _); [intros []; by left|]).
    destruct (bool_decide _ || bool_decide _); [intros []; by left|].
    destruct ((c <? 32)%N || is_lead c || is_trail c); [intros []; by left|done]. }
  assert (∀ n s, length s < n → backslash ∉ concat (json_tokens s) → concat (json_tokens s) = s) as H.
  { induction n as [|n IH]; intros t Hn Hb; [lia|]. destruct t as [|c [|d t]]; [done| |].
    - cbn [json_tokens concat] in *. rewrite app_nil_r in *. by apply Ht.
    - rewrite json_tokens_cons in *. simpl in Hn. destruct (is_lead c && is_trail d); cbn [concat] in *;
        apply not_elem_of_app in Hb as [Hb1 Hb2].
      + by rewrite IH by (lia || done).
      + rewrite Ht by done. rewrite (IH (d :: t)) by (simpl; lia || done). done. }
  apply (H (S (length s))). lia.
Qed.

Lemma name_plain s : is_name (concat (json_tokens s)) = true → concat (json_tokens s) = s.
Proof.
  intros H. apply plain_tokens. apply name_is_word in H as [_ H]. intros Hin.
  rewrite Forall_forall in H. by apply H in Hin.
Qed.

(** A name that [formatProperty] quotes so that it reads back. *)
Definition good_name (k : jstr) : Prop :=
  units k ∧ last k ≠ Some backslash ∧ k ≠ proto_key.

Lemma name_printed k : good_name k →
  name_text (if is_name (concat (json_tokens k)) then concat (json_tokens k) else quoted_name k) k.
Proof.
  intros (Hu&Hl&_). destruct (is_name (concat (json_tokens k))) eqn:Hn.
  - pose proof (name_plain k Hn) as Hk. rewrite Hk in *. by constructor.
  - rewrite quoted_name_body by done. constructor; [apply body_no_lf|].
    intros rest. by apply body_reads.
Qed.

Lemma string_printed s : units s → prints ([quote] ++ literal_body s ++ [quote]) (DStr s).
Proof. intros Hs. constructor; [apply body_no_lf|]. intros rest. by apply body_reads. Qed.

(** ** Words *)

Lemma digit_word c : is_digit_unit c = true → is_word c = true.
Proof. intros H. unfold is_word. rewrite H. by rewrite orb_true_r. Qed.

Lemma word_value_digits z :
  string_of_Z z ≠ [] ∧ Forall (λ c, is_word c = true) (string_of_Z z) ∧
  word_value (string_of_Z z) = Some (DInt z).
Proof.
  destruct (string_of_Z_digits z) as (d&Hz&Hne&Hd&Hv&_).
  assert (Hw : Forall (λ c, is_word c = true) d) by (eapply Forall_impl; [done|apply digit_word]).
  destruct d as [|c d]; [done|]. inversion Hd as [|?? Hc _]; subst.
  assert (Hs : string_of_Z z = string_of_Z z) by done. rewrite Hz in Hs at 1.
  destruct (Z.ltb_spec z 0) as [Hneg|Hpos].
  - change (u "-" ++ c :: d) with (45%N :: c :: d) in *. rewrite Hz. split; [done|].
    split; [by constructor|]. unfold word_value. rewrite !bool_decide_eq_false_2 by done.
    rewrite Hv. replace (- Z.abs z)%Z with z by lia. rewrite bool_decide_eq_true_2; [done|].
    by rewrite <-Hs.
  - rewrite Hz. split; [done|]. split; [done|]. unfold word_value.
    assert (Hx : ∀ x s, is_digit_unit x = false → c :: d ≠ x :: s) by (intros ?? ? [= -> _]; congruence).
    rewrite (bool_decide_eq_false_2 (_ = u "undefined")) by by apply Hx.
    rewrite (bool_decide_eq_false_2 (_ = u "null")) by by apply Hx.
    rewrite (bool_decide_eq_false_2 (_ = u "true")) by by apply Hx.
    rewrite (bool_decide_eq_false_2 (_ = u "false")) by by apply Hx.
    assert (match c :: d with 45%N :: w => (- digits_value w)%Z | _ => digits_value (c :: d) end = z) as ->.
    { pose proof (Hx 45%N d eq_refl) as Hm. destruct (decide (c = 45%N)) as [->|Hcm]; [done|].
      transitivity (digits_value (c :: d)); [|lia]. clear -Hcm.
      destruct c as [|p]; [done|]. do 6 (destruct p as [p|p|]; try done). }
    rewrite bool_decide_eq_true_2; [done|]. by rewrite <-Hs.
Qed.

(** ** Lists between braces *)

(** The text of a property, with the value on lines of its own or not. *)
Definition property_text (o : jstr) (p : jstr * data) : Prop :=
  ∃ n w s, o = n ++ 58%N :: w ++ s ∧ name_text n p.1 ∧ blanks w ∧ prints s p.2.

Lemma elems_joined sep ss l :
  blanks sep → Forall2 prints ss l → l ≠ [] → ∀ w1 w2, blanks w1 → blanks w2 →
  prints_elems (w1 ++ join (44%N :: sep) ss ++ w2) l.
Proof.
  intros Hsep. induction 1 as [|s d ss l Hs Hl IH]; [done|]. intros _ w1 w2 H1 H2.
  destruct Hl as [|s' d' ss l Hs' Hl].
  - cbn [join]. by constructor.
  - rewrite join_more. rewrite <-!app_assoc. cbn [app].
    apply (elems_cons w1 s [] d); [done|done|constructor|]. by apply IH.
Qed.

Lemma props_joined sep ss l :
  blanks sep → Forall2 property_text ss l → l ≠ [] → ∀ w1 w2, blanks w1 → blanks w2 →
  prints_props (w1 ++ join (44%N :: sep) ss ++ w2) l.
Proof.
  intros Hsep. induction 1 as [|o [k d] ss l Ho Hl IH]; [done|]. intros _ w1 w2 H1 H2.
  destruct Ho as (n&w&s&->&Hn&Hw&Hs). cbn [fst snd] in *.
  destruct Hl as [|s' d' ss l Hs' Hl].
  - cbn [join]. rewrite <-!app_assoc. cbn [app]. rewrite <-!app_assoc.
    by apply (props_one w1 n [] w s w2); [done|done|constructor| | |].
  - rewrite join_more. repeat (rewrite <-!app_assoc; cbn [app]).
    apply (props_cons w1 n [] w s []); [done|done|constructor|done|done|constructor|]. by apply IH.
Qed.

Lemma blank_32 : blanks (u " ").
Proof. by repeat constructor. Qed.

Lemma list_printed out l :
  Forall2 prints out l → l ≠ [] → prints (reduceToSingleString out [] (u "[", u "]")) (DArr l).
Proof.
  intros Hl Hne. unfold reduceToSingleString. case_match; cbn [fst snd app].
  - rewrite bool_decide_eq_true_2 by done. cbn [app].
    change (u "[" ++ u " " ++ ?x ++ u " " ++ u "]") with (91%N :: (u " " ++ x ++ u " " ++ [93%N])).
    rewrite app_assoc, (app_assoc _ (u " ")), <-(app_assoc (u " ")).
    apply prints_arr, (elems_joined ([line_feed] ++ u "  ")); [by repeat constructor|done|done| |];
      apply blank_32.
  - change (u "[" ++ u " " ++ ?x ++ u " " ++ u "]") with (91%N :: (u " " ++ x ++ u " " ++ [93%N])).
    rewrite app_assoc, (app_assoc _ (u " ")), <-(app_assoc (u " ")).
    apply prints_arr, (elems_joined (u " ")); [by repeat constructor|done|done| |]; apply blank_32.
Qed.

Lemma object_printed out l :
  Forall2 property_text out l → l ≠ [] →
  prints (reduceToSingleString out [] (u "{", u "}")) (DObj l).
Proof.
  intros Hl Hne. unfold reduceToSingleString. case_match; cbn [fst snd app].
  - rewrite bool_decide_eq_true_2 by done. cbn [app].
    change (u "{" ++ u " " ++ ?x ++ u " " ++ u "}") with (123%N :: (u " " ++ x ++ u " " ++ [125%N])).
    rewrite app_assoc, (app_assoc _ (u " ")), <-(app_assoc (u " ")).
    apply prints_obj, (props_joined ([line_feed] ++ u "  ")); [by repeat constructor|done|done| |];
      apply blank_32.
  - change (u "{" ++ u " " ++ ?x ++ u " " ++ u "}") with (123%N :: (u " " ++ x ++ u " " ++ [125%N])).
    rewrite app_assoc, (app_assoc _ (u " ")), <-(app_assoc (u " ")).
    apply prints_obj, (props_joined (u " ")); [by repeat constructor|done|done| |]; apply blank_32.
Qed.

(** ** Plain data of a heap *)

Section plain.
Variables (e : engine) (t : host) (h : heap).

(** [v] is the data [d]: a finite tree, whose objects have no other class,
    own properties that read back, and do not inherit from [Error.prototype]. *)
Inductive unfolds : jsval → data → Prop :=
| unfolds_undef : unfolds Undef DUndef
| unfolds_null : unfolds Null DNull
| unfolds_bool b : unfolds (Bool b) (DBool b)
| unfolds_num z : (Z.abs z < 2 ^ 53)%Z → unfolds (Num (num_of_Z z)) (DInt z)
| unfolds_str s : units s → unfolds (Str s) (DStr s)
| unfolds_arr l o ds :
    h !! l = Some o → o_class o = "Array" → has_proto h l (error_proto t) = false →
    o_props o = [] → Forall2 unfolds (o_elems o) ds → unfolds (Ref l) (DArr ds)
| unfolds_obj l o ks ds :
    h !! l = Some o → o_class o = "Object" → has_proto h l (error_proto t) = false →
    o_elems o = [] → map fst (o_props o) = ks → NoDup ks → Forall good_name ks →
    Forall2 unfolds (map snd (o_props o)) ds → unfolds (Ref l) (DObj (zip ks ds)).

Fixpoint height (d : data) : nat :=
  match d with
  | DArr l => S (list_max (map height l))
  | DObj l => S (list_max (map (λ p, height p.2) l))
  | _ => 0
  end.

Lemma list_max_elem n ns : n ∈ ns → n ≤ list_max ns.
Proof. induction 1; simpl; lia. Qed.

Lemma height_zip ks ds : length ks = length ds → map (λ p : jstr * data, height p.2) (zip ks ds) = map height ds.
Proof.
  revert ds. induction ks as [|k ks IH]; intros [|d ds] H; try done. simpl in *. f_equal. apply IH. lia.
Qed.

Lemma unfolds_det n v d1 d2 : height d1 < n → unfolds v d1 → unfolds v d2 → d1 = d2.
Proof.
  revert v d1 d2. induction n as [|n IH]; intros v d1 d2 Hn; [lia|].
  assert (Hl : ∀ vs ds1 ds2, Forall2 unfolds vs ds1 → Forall2 unfolds vs ds2 →
    list_max (map height ds1) < n → ds1 = ds2).
  { intros vs ds1 ds2 H1. revert ds2. induction H1 as [|x d vs ds Hd _ IHl];
      intros ds2 H2 Hm; inversion H2; subst; [done|]. simpl in Hm. f_equal; [eapply IH; [|done..]; lia|]. apply IHl; [done|lia]. }
  destruct 1 as [| | |z Hz|s Hs|l o ds Hlo Ho _ Hp Hds|l o ks ds Hlo Ho _ He Hks _ _ Hds];
    inversion 1 as [| | |z' Hz' Hzz|s' Hs'|l' o' ds' Hlo' Ho' _ Hp' Hds'
      |l' o' ks' ds' Hlo' Ho' _ He' Hks' _ _ Hds']; subst; try done; try congruence.
  - f_equal. symmetry. apply num_of_Z_inj in Hzz; lia.
  - simplify_eq. f_equal. eapply Hl; [done|done|]. simpl in Hn. lia.
  - simplify_eq. f_equal. f_equal. eapply Hl; [done|done|]. simpl in Hn.
    rewrite height_zip in Hn; [lia|]. apply Forall2_length in Hds. by rewrite !length_map in *.
Qed.

(** *** The text of it *)

Context (c : settings).
Hypothesis Hhook : ∀ v, has_hook e t c h v = false.
Hypothesis Hcolors : colors c = false.
Hypothesis Hhidden : showHidden c = false.

Definition within (n : option Z) (d : data) : Prop :=
  match n with Some n => (Z.of_nat (height d) <= n + 1)%Z | None => True end.

(** What the values that hold [d] are. *)
Definition ancestors (seen : list jsval) (d : data) : Prop :=
  Forall (λ a, ∃ l da, a = Ref l ∧ unfolds a da ∧ height d < height da) seen.

Lemma not_seen seen v d : unfolds v d → ancestors seen d → existsb (strict_eq v) seen = false.
Proof.
  intros Hv Hs. apply not_true_iff_false. intros (a&Ha&Heq)%existsb_exists.
  unfold ancestors in Hs. rewrite Forall_forall in Hs.
  destruct (Hs a) as (l&da&->&Hda&Hh); [by apply list_elem_of_In|].
  destruct v; try done. apply Nat.eqb_eq in Heq as ->.
  pose proof (unfolds_det (S (height da)) _ _ _ (Nat.lt_succ_diag_r _) Hda Hv) as ->. lia.
Qed.

Lemma stylize_plain s k : stylize c s k = s.
Proof. unfold stylize. by rewrite Hcolors. Qed.

Lemma index_all_digits i : all_digits (index_key i) = true.
Proof.
  unfold all_digits. rewrite andb_true_iff. split.
  - apply negb_true_iff, bool_decide_eq_false_2. unfold index_key.
    destruct (string_of_Z_digits (Z.of_nat i)) as (d'&->&?&_). by destruct (Z.of_nat i <? 0)%Z.
  - apply forallb_forall. intros x Hx%list_elem_of_In. by apply (index_key_digits i).
Qed.

Lemma no_other_keys ns : filter (λ key, negb (all_digits key)) (map index_key ns) = [].
Proof.
  induction ns as [|n ns IH]; [done|]. cbn [map]. rewrite filter_cons_False; [|rewrite index_all_digits; by intros []].
  exact IH.
Qed.

(** The text of a value inside an object: as it is or on lines of its own. *)
Lemma inside_printed rec seen v d n array s :
  unfolds v d → ancestors seen d →
  rec seen v (option_map (λ n, n - 1)%Z n) = Some s → prints s d →
  ∃ w s', format_inside c rec seen v n array = Some (w ++ s') ∧ blanks w ∧ prints s' d ∧
    (array = true → w = []).
Proof.
  intros Hv Hs Hr Hp. unfold format_inside. rewrite (not_seen _ _ _ Hv Hs), Hr. simpl.
  case_bool_decide; [|exists [], s; split_and!; [done|constructor|done|done]]. destruct array.
  - exists [], (widen (u "  ") s). rewrite indent_widen. split; [done|].
    split; [constructor|]. split; [|done]. apply (prints_widen (u "  ")); [by repeat constructor|done].
  - exists (line_feed :: u "   "), (widen (u "   ") s). rewrite indent_widen. split; [done|].
    split; [by repeat constructor|]. split; [|done].
    apply (prints_widen (u "   ")); [by repeat constructor|done].
Qed.

Definition prints_inside (rec : list jsval → jsval → option Z → option jstr) (seen : list jsval)
    (n : option Z) (v : jsval) (d : data) : Prop :=
  unfolds v d ∧ ancestors seen d ∧
  ∃ s, rec seen v (option_map (λ n, n - 1)%Z n) = Some s ∧ prints s d.

Lemma elem_printed rec seen l o n visible i v d :
  h !! l = Some o → o_elems o !! i = Some v → prints_inside rec seen n v d →
  visible (index_key i) = true →
  ∃ s, formatProperty e c h rec seen l n visible (index_key i) true = Some s ∧ prints s d.
Proof.
  intros Hl Hi (Hv&Hs&s&Hr&Hp) Hvis. unfold formatProperty. rewrite Hl. simpl.
  assert (own_get o (index_key i) = Some v) as ->.
  { unfold own_get, entries. by rewrite (assoc_index_keys _ _ _ _ Hi). }
  simpl.
  destruct (inside_printed rec seen v d n true s Hv Hs Hr Hp) as (w&s'&->&_&Hp'&Hw).
  rewrite (Hw eq_refl). simpl. exists s'. split; [|done]. rewrite Hvis.
  by rewrite index_all_digits.
Qed.

Lemma prop_printed rec seen l o n visible k v d :
  h !! l = Some o → own_get o k = Some v → prints_inside rec seen n v d →
  good_name k → visible k = true →
  ∃ s, formatProperty e c h rec seen l n visible k false = Some s ∧ property_text s (k, d).
Proof.
  intros Hl Hk (Hv&Hs&s&Hr&Hp) Hname Hvis. unfold formatProperty. rewrite Hl. simpl. rewrite Hk. simpl.
  destruct (inside_printed rec seen v d n false s Hv Hs Hr Hp) as (w&s'&->&Hw&Hp'&_).
  simpl. rewrite Hvis, !stylize_plain.
  eexists. split; [reflexivity|].
  exists (if is_name (concat (json_tokens k)) then concat (json_tokens k) else quoted_name k), (u " " ++ w), s'.
  split; [by destruct (is_name _)|]. split; [by apply name_printed|]. split; [|done].
  apply Forall_app. split; [apply blank_32|done].
Qed.

Lemma mapM_printed {A B} (f : A → option jstr) (P : jstr → B → Prop) xs ds :
  Forall2 (λ x d, ∃ s, f x = Some s ∧ P s d) xs ds →
  ∃ ss, mapM f xs = Some ss ∧ Forall2 P ss ds.
Proof.
  induction 1 as [|x d xs ds (s&Hs&Hp) _ (ss&Hss&Hps)]; [by exists []|].
  exists (s :: ss). split; [|by constructor]. simpl. by rewrite Hs, Hss.
Qed.

Lemma plain_class l o s :
  h !! l = Some o → o_class o = s → s ≠ "Function" → s ≠ "RegExp" → s ≠ "Date" → s ≠ "Error" →
  has_proto h l (error_proto t) = false →
  isError t h (Ref l) = false ∧ format_bare e t c h l = None ∧ base_of e t h l = [].
Proof.
  intros Hl <- H1 H2 H3 H4 Hp.
  assert (Hc : class_of h (Ref l) = o_class o) by (unfold class_of; by rewrite Hl).
  assert (isError t h (Ref l) = false) as He.
  { unfold isError. rewrite Hc, Hp, bool_decide_eq_false_2 by done. apply andb_false_r. }
  assert (is_function h (Ref l) = false) as Hf.
  { unfold is_function. rewrite Hc. by apply bool_decide_eq_false_2. }
  assert (isRegExp h (Ref l) = false) as Hr.
  { unfold isRegExp. rewrite Hc, bool_decide_eq_false_2 by done. apply andb_false_r. }
  assert (isDate h (Ref l) = false) as Hd.
  { unfold isDate. rewrite Hc, bool_decide_eq_false_2 by done. apply andb_false_r. }
  split; [done|]. unfold format_bare, base_of. by rewrite He, Hf, Hr, Hd.
Qed.

(** The value inside is printed when it is deep enough. *)
Lemma below_ancestors seen l d d' :
  unfolds (Ref l) d → height d' < height d → ancestors seen d → ancestors (seen ++ [Ref l]) d'.
Proof.
  intros Hv Hlt Hs. apply Forall_app. split.
  - eapply Forall_impl; [exact Hs|]. intros a (l'&da&->&Hda&Hh). exists l', da. split_and!; [done|done|lia].
  - constructor; [|constructor]. by exists l, d.
Qed.

Lemma array_printed rec seen l o n ds :
  h !! l = Some o → o_class o = "Array" → has_proto h l (error_proto t) = false → o_props o = [] →
  (match n with Some n => (0 <= n)%Z | None => True end) ∨ ds = [] →
  Forall2 (prints_inside rec (seen ++ [Ref l]) n) (o_elems o) ds →
  ∃ s, format_object e t c h rec seen l n = Some s ∧ prints s (DArr ds).
Proof.
  intros Hl Ho Hp Hprops Hn Hds. destruct (plain_class l o _ Hl Ho) as (He&Hb&Hbase); try done.
  assert (Hk : keys h l = map index_key (seq 0 (length (o_elems o)))).
  { unfold keys, entries. rewrite Hl, Hprops, app_nil_r. apply fst_zip.
    by rewrite length_map, length_seq. }
  assert (Ha : is_array h (Ref l) = true).
  { unfold is_array, class_of. rewrite Hl. by apply bool_decide_eq_true_2. }
  unfold format_object. rewrite He, Hhidden, Ha, Hb, Hbase, Hk. cbn [andb elems_of fst snd]. rewrite Hl.
  destruct (decide (ds = [])) as [->|Hne].
  - apply Forall2_nil_inv_r in Hds. rewrite Hds. cbn. eexists. split; [reflexivity|].
    apply (prints_arr []), elems_nil. constructor.
  - assert (Hlen : length (o_elems o) ≠ 0).
    { apply Forall2_length in Hds. rewrite Hds. by destruct ds. }
    rewrite bool_decide_eq_false_2 by (by destruct (o_elems o)). cbn [andb].
    replace (match n with Some n => (n <? 0)%Z | None => false end) with false
      by (destruct n; [destruct Hn as [Hn|?]; [symmetry; by apply Z.ltb_ge|done]|done]).
    assert (Hel : Forall2 (λ key d, ∃ s, formatProperty e c h rec (seen ++ [Ref l]) l n
      (visible_key h l) key true = Some s ∧ prints s d) (map index_key (seq 0 (length (o_elems o)))) ds).
    { rewrite Forall2_fmap_l. apply Forall2_same_length_lookup_2.
      - rewrite length_seq. by eapply Forall2_length.
      - intros i j d Hi Hd. apply lookup_seq in Hi as [-> Hi]. simpl.
        destruct (lookup_lt_is_Some_2 (o_elems o) i Hi) as [v Hv].
        eapply elem_printed; [done|done| |].
        + by eapply (Forall2_lookup_lr _ _ _ i).
        + unfold visible_key. rewrite Hk. apply andb_true_iff. split.
          * apply bool_decide_eq_true_2, list_elem_of_fmap_2, elem_of_seq. lia.
          * apply negb_true_iff, bool_decide_eq_false_2. intros Hi'.
            assert (is_digit_unit 95 = true) as Hx; [|done].
            apply (index_key_digits i). rewrite Hi'. by left. }
    destruct (mapM_printed _ _ _ _ Hel) as (out&Hout&Hprint).
    unfold formatArray. cbn [elems_of]. rewrite Hl, Hout. simpl.
    rewrite no_other_keys. simpl. eexists. split; [reflexivity|]. rewrite app_nil_r.
    by apply list_printed.
Qed.

Lemma assoc_lookup (ps : list (jstr * jsval)) i k v :
  NoDup (map fst ps) → ps !! i = Some (k, v) → assoc k ps = Some v.
Proof.
  revert i. induction ps as [|[k' w] ps IH]; intros i Hnd Hi; [done|]. simpl in *.
  apply NoDup_cons in Hnd as [Hk Hnd]. destruct i as [|i]; simpl in Hi.
  - injection Hi as [= -> ->]. by rewrite bool_decide_eq_true_2.
  - rewrite bool_decide_eq_false_2; [by apply (IH i)|]. intros ->. apply Hk.
    apply list_elem_of_fmap. exists (k, v). split; [done|]. by eapply list_elem_of_lookup_2.
Qed.

Lemma object_text rec seen l o n ks ds :
  h !! l = Some o → o_class o = "Object" → has_proto h l (error_proto t) = false → o_elems o = [] →
  map fst (o_props o) = ks → NoDup ks → Forall good_name ks →
  (match n with Some n => (0 <= n)%Z | None => True end) ∨ ds = [] →
  Forall2 (prints_inside rec (seen ++ [Ref l]) n) (map snd (o_props o)) ds →
  ∃ s, format_object e t c h rec seen l n = Some s ∧ prints s (DObj (zip ks ds)).
Proof.
  intros Hl Ho Hp He <- Hnd Hnames Hn Hds. destruct (plain_class l o _ Hl Ho) as (Herr&Hb&Hbase); try done.
  assert (Hent : entries o = o_props o) by (unfold entries; by rewrite He).
  assert (Hk : keys h l = map fst (o_props o)) by (unfold keys; by rewrite Hl, Hent).
  assert (Ha : is_array h (Ref l) = false).
  { unfold is_array, class_of. rewrite Hl, Ho. done. }
  unfold format_object. rewrite Herr, Hhidden, Ha, Hb, Hbase, Hk. cbn [andb fst snd negb orb].
  destruct (decide (ds = [])) as [->|Hne].
  - apply Forall2_nil_inv_r, fmap_nil_inv in Hds. rewrite Hds. cbn. eexists. split; [reflexivity|].
    apply (prints_obj []), props_nil. constructor.
  - assert (Hps : o_props o ≠ []) by (intros Hps; rewrite Hps in Hds; by inversion Hds; subst).
    rewrite bool_decide_eq_false_2 by (by destruct (o_props o)). cbn [andb].
    replace (match n with Some n => (n <? 0)%Z | None => false end) with false
      by (destruct n; [destruct Hn as [Hn|?]; [symmetry; by apply Z.ltb_ge|done]|done]).
    assert (Hlen : length (o_props o) = length ds).
    { apply Forall2_length in Hds. by rewrite length_map in Hds. }
    assert (Hel : Forall2 (λ key p, ∃ s, formatProperty e c h rec (seen ++ [Ref l]) l n
      (visible_key h l) key false = Some s ∧ property_text s p)
      (map fst (o_props o)) (zip (map fst (o_props o)) ds)).
    { apply Forall2_same_length_lookup_2.
      - rewrite length_zip_with, length_map. lia.
      - intros i k [k' d] Hi Hd. apply lookup_zip_with_Some in Hd as (k''&d'&[= <- <-]&Hi'&Hd).
        simplify_eq. apply list_lookup_fmap_Some in Hi as ([k0 v]&->&Hi). cbn [fst] in *.
        assert (Hin : k0 ∈ map fst (o_props o)).
        { apply list_elem_of_fmap. exists (k0, v). split; [done|]. by eapply list_elem_of_lookup_2. }
        rewrite Forall_forall in Hnames.
        eapply prop_printed; [done| | |by apply Hnames|].
        + unfold own_get. rewrite Hent. by erewrite assoc_lookup.
        + eapply (Forall2_lookup_lr _ _ _ i); [done| |done].
          apply list_lookup_fmap_Some. by exists (k0, v).
        + unfold visible_key. rewrite Hk. apply andb_true_iff. split; [by apply bool_decide_eq_true_2|].
          apply negb_true_iff, bool_decide_eq_false_2. by apply Hnames. }
    destruct (mapM_printed _ _ _ _ Hel) as (out&Hout&Hprint). rewrite Hout. simpl.
    eexists. split; [reflexivity|]. apply object_printed; [done|].
    destruct (o_props o), ds; done.
Qed.

(** ** The text reads back *)

Lemma formatValue_prints fuel seen v d n :
  height d < fuel → unfolds v d → ancestors seen d → within n d →
  ∃ s, formatValue e t c h fuel seen v n = Some s ∧ prints s d.
Proof.
  revert seen v d n. induction fuel as [|fuel IH]; intros seen v d n Hf Hv Hs Hn; [lia|].
  cbn [formatValue]. rewrite Hhook.
  assert (Hin : ∀ l ds, unfolds (Ref l) d → v = Ref l → height d = S (list_max (map height ds)) → ∀ vs,
    Forall2 unfolds vs ds → Forall2 (prints_inside (formatValue e t c h fuel) (seen ++ [Ref l]) n) vs ds).
  { intros l ds Hl -> Hd vs Hvs. apply Forall2_same_length_lookup_2; [by eapply Forall2_length|].
    intros i x y Hx Hy. pose proof (Forall2_lookup_lr _ _ _ _ _ _ Hvs Hx Hy) as Hxy.
    assert (height y ≤ list_max (map height ds)).
    { apply list_max_elem, list_elem_of_fmap_2. by eapply list_elem_of_lookup_2. }
    assert (Ha : ancestors (seen ++ [Ref l]) y) by (apply (below_ancestors _ _ d); [done|lia|done]).
    split; [done|]. split; [done|]. apply IH; [lia|done|done|].
    unfold within in *. destruct n; simpl in *; [lia|done]. }
  destruct Hv as [| |b|z Hz|s Hu|l o ds Hlo Ho Hp Hps Hds|l o ks ds Hlo Ho Hp He Hks Hnd Hnames Hds];
    cbn [formatPrimitive].
  - eexists. split; [reflexivity|]. rewrite stylize_plain. by apply prints_word; [|repeat constructor|].
  - eexists. split; [reflexivity|]. rewrite stylize_plain. by apply prints_word; [|repeat constructor|].
  - eexists. split; [reflexivity|]. rewrite stylize_plain.
    destruct b; cbn [to_key]; by apply prints_word; [|repeat constructor|].
  - eexists. split; [reflexivity|]. rewrite stylize_plain. cbn [to_key].
    rewrite Z_of_num_of_Z by lia. rewrite (proj2 (Z.ltb_lt _ _)) by done.
    destruct (word_value_digits z) as (?&?&?). by apply prints_word.
  - eexists. split; [reflexivity|]. rewrite stylize_plain. by apply string_printed.
  - assert (Hv : unfolds (Ref l) (DArr ds)) by by eapply unfolds_arr.
    eapply array_printed; try done; [|by apply Hin].
    destruct n as [n|]; [|by left]. simpl in Hn. left. lia.
  - assert (Hv : unfolds (Ref l) (DObj (zip ks ds))) by by eapply unfolds_obj.
    assert (Hlen : length ks = length ds).
    { apply Forall2_length in Hds. rewrite <-Hks. by rewrite !length_map in *. }
    eapply object_text; try done; [|apply Hin; [done|done| |done]].
    + destruct n as [n|]; [|by left]. simpl in Hn. left. lia.
    + simpl. by rewrite height_zip.
Qed.
End plain.

(** C32: The text of plain data, in the heap in whatever way (shared or not,
    nested within the limit of depth), without colours, hidden properties and
    hooks, is read back as the data, line breaks or not. *)
Theorem inspect_reads (e : engine) (t : host) (h : heap) (fuel : nat) (obj : jsval)
    (opts : inspect_options) (d : data) :
  (∀ v, has_hook e t (inspect_settings opts) h v = false) →
  default false (io_colors opts) = false → default false (io_showHidden opts) = false →
  unfolds t h obj d → height d < fuel → within (default (Some 2%Z) (io_depth opts)) d →
  ∃ s, inspect e t h fuel obj opts = Some s ∧ parse s = Some d.
Proof.
  intros Hhook Hc Hh Hd Hf Hw.
  destruct (formatValue_prints e t h (inspect_settings opts) Hhook Hc Hh fuel [] obj d _ Hf Hd
    (Forall_nil_2 _) Hw) as (s&Hs&Hp).
  exists s. split; [exact Hs|]. unfold parse. rewrite <-(app_nil_r s) at 2.
  destruct prints_parsed as [H _]. rewrite (H s d Hp) by (done || lia). done.
Qed.

(** *** Samples *)

Definition data_heap : heap :=
  [sample_object "Object" None [];
   set_props [(u "list", Ref 2); (u "again", Ref 2); (u "it's", Str (u "x'y")); (u "none", Null)]
     (sample_object "Object" None []);
   sample_object "Array" None [num 1; Num (num_of_Z (-2)); Ref 3];
   sample_object "Object" None []].

Definition data_sample : data :=
  let list := DArr [DInt 1; DInt (-2); DObj []] in
  DObj [(u "list", list); (u "again", list); (u "it's", DStr (u "x'y")); (u "none", DNull)].

Lemma data_unfolds : unfolds sample_host data_heap (Ref 1) data_sample.
Proof.
  assert (Hlist : unfolds sample_host data_heap (Ref 2) (DArr [DInt 1; DInt (-2); DObj []])).
  { eapply unfolds_arr; [reflexivity|done|done|done|].
    repeat (constructor; [by apply unfolds_num|]). constructor; [|constructor].
    apply (unfolds_obj sample_host data_heap 3 (sample_object "Object" None []) [] []); try done;
      constructor. }
  apply (unfolds_obj sample_host data_heap 1 _ [u "list"; u "again"; u "it's"; u "none"]
    [DArr [DInt 1; DInt (-2); DObj []]; DArr [DInt 1; DInt (-2); DObj []]; DStr (u "x'y"); DNull]
    eq_refl); try done.
  - apply (bool_decide_unpack _). vm_compute. exact I.
  - repeat constructor; try (by repeat constructor); done.
  - repeat constructor; done.
Qed.

Lemma data_no_functions v : is_function data_heap v = false.
Proof.
  destruct v as [| | | | |l]; [reflexivity..|].
  do 4 (destruct l as [|l]; [reflexivity|]). reflexivity.
Qed.

Lemma inspect_reads_witness :
  ∃ s, inspect sample_engine sample_host data_heap 4 (Ref 1) default_options = Some s ∧
    parse s = Some data_sample.
Proof.
  apply inspect_reads.
  - intros v. unfold has_hook. by rewrite data_no_functions, !andb_false_r.
  - reflexivity.
  - reflexivity.
  - exact data_unfolds.
  - vm_compute. lia.
  - vm_compute. discriminate.
Defined.

(** A name that ends in a backslash is printed without its last escape. *)
Lemma inspect_backslash_name :
  let h := [set_props [(u "a\", Num (num_of_Z 1))] (sample_object "Object" None [])] in
  inspect sample_engine sample_host h 2 (Ref 0) default_options = Some (u "{ 'a\': 1 }") ∧
  parse (u "{ 'a\': 1 }") = None.
Proof. split; vm_compute; reflexivity. Qed.
