(* ===== verification/Minimatch.v ===== *)
(** * Glob matching

    The [minimatch] module of [lunr/wordcut.js]: building a matcher
    ([parseNegate], [braceExpand], [parse], [make]), [match] and [matchOne],
    and the module functions.  The regular expressions themselves are the
    JavaScript engine's: [engine] holds what the code asks of it.  A thrown
    TypeError, and a brace expansion without end, are [None]. *)

From S2P Require Import Prelude JsString BraceExpansion.

(** ** The engine and the options *)

Record engine := Engine {
  re_valid : jstr → bool;              (* new RegExp(source) does not throw *)
  re_test : jstr → bool → jstr → bool; (* source, the i flag, the string *)
  toLowerCase : jstr → jstr;
}.

Record options := Options {
  nobrace : bool;
  noglobstar : bool;
  dot : bool;
  noext : bool;
  nocase : bool;
  nonull : bool;
  matchBase : bool;
  nocomment : bool;
  nonegate : bool;
  flipNegate : bool;
}.

Definition no_options : options :=
  Options false false false false false false false false false false.

(** A RegExp object: what it was made from, and the [_glob] and [_src] set on
    it. *)
Record regexp := RegExp {
  source : jstr; flag_i : bool; _glob : option jstr; _src : option jstr }.

(** An element of a compiled pattern. *)
Inductive elem := GLOBSTAR | Str (s : jstr) | Rx (r : regexp).

#[export] Instance elem_is_globstar_dec p : Decision (p = GLOBSTAR).
Proof. destruct p; first [by left | by right]. Defined.

(** ** Constants *)

Definition slash : N := 47.
Definition backslash : N := 92.
Definition qmark : jstr := u "[^/]".
Definition star : jstr := qmark ++ u "*?".
Definition twoStarDot : jstr := u "(?:(?!(?:\/|^)(?:\.{1,2})($|\/)).)*?".
Definition twoStarNoDot : jstr := u "(?:(?!(?:\/|^)\.).)*?".

(** [plTypes[c].open] and [.close]. *)
Definition pl_open (c : N) : jstr := if (c =? 33)%N then u "(?:(?!(?:" else u "(?:".
Definition pl_close (c : N) : jstr :=
  if (c =? 33)%N then u "))[^/]*?)"
  else if (c =? 63)%N then u ")?"
  else if (c =? 43)%N then u ")+"
  else if (c =? 42)%N then u ")*"
  else u ")".

Definition reSpecials (c : N) : bool := bool_decide (c ∈ u "().*{}+?[]^$\!").

(** White space, as [trim] and [\s] see it. *)
Definition js_space (c : N) : bool :=
  (((9 <=? c) && (c <=? 13)) || (c =? 32) || (c =? 160) || (c =? 0x1680)
   || ((0x2000 <=? c) && (c <=? 0x200A)) || (c =? 0x2028) || (c =? 0x2029)
   || (c =? 0x202F) || (c =? 0x205F) || (c =? 0x3000) || (c =? 0xFEFF))%N.

Fixpoint trim_start (s : jstr) : jstr :=
  match s with c :: s' => if js_space c then trim_start s' else s | [] => [] end.
Definition trim (s : jstr) : jstr := reverse (trim_start (reverse (trim_start s))).

(** [s.replace(/\\(.)/g, '$1')]. *)
Fixpoint globUnescape (s : jstr) : jstr :=
  match s with
  | [] => []
  | c :: s' =>
      if (c =? backslash)%N then
        match s' with
        | d :: s'' => if line_end d then c :: globUnescape s' else d :: globUnescape s''
        | [] => [c]
        end
      else c :: globUnescape s'
  end.

Definition regExpEscape (s : jstr) : jstr :=
  concat (map (λ c, if bool_decide (c ∈ u "-[]{}()*+?.,\^$|#") || js_space c
                    then [backslash; c] else [c]) s).

(** [s.split(/\/+/)]. *)
Fixpoint slash_split_aux (s cur : jstr) (in_sep : bool) : list jstr :=
  match s with
  | [] => [cur]
  | c :: s' =>
      if (c =? slash)%N
      then if in_sep then slash_split_aux s' [] true
           else cur :: slash_split_aux s' [] true
      else slash_split_aux s' (cur ++ [c]) false
  end.
Definition slashSplit (s : jstr) : list jstr := slash_split_aux s [] false.

(** [pattern.match(/\{.*\}/)]. *)
Fixpoint has_braces (s : jstr) : bool :=
  match s with
  | [] => false
  | c :: s' => ((c =? lbrace)%N && brace_before_line_end s') || has_braces s'
  end.

(** ** [parse]: one path part to a regular expression *)

(** An open or closed extglob list; [reEnd] is set when it closes. *)
Record plist := PList { pl_type : N; reStart : nat; reEnd : option nat }.

Record pstate := PState {
  re : jstr;
  hasMagic : bool;
  escaping : bool;
  patternListStack : list plist;   (* the top first *)
  negativeLists : list plist;      (* the last pushed first *)
  stateChar : option N;
  inClass : bool;
  reClassStart : nat;
  classStart : nat;
}.

Definition add_re (st : pstate) (s : jstr) : pstate :=
  {| re := re st ++ s; hasMagic := hasMagic st; escaping := escaping st;
     patternListStack := patternListStack st; negativeLists := negativeLists st;
     stateChar := stateChar st; inClass := inClass st;
     reClassStart := reClassStart st; classStart := classStart st |}.
Definition set_magic (st : pstate) (b : bool) : pstate :=
  {| re := re st; hasMagic := b; escaping := escaping st;
     patternListStack := patternListStack st; negativeLists := negativeLists st;
     stateChar := stateChar st; inClass := inClass st;
     reClassStart := reClassStart st; classStart := classStart st |}.
Definition set_escaping (st : pstate) (b : bool) : pstate :=
  {| re := re st; hasMagic := hasMagic st; escaping := b;
     patternListStack := patternListStack st; negativeLists := negativeLists st;
     stateChar := stateChar st; inClass := inClass st;
     reClassStart := reClassStart st; classStart := classStart st |}.
Definition set_lists (st : pstate) (stack negs : list plist) : pstate :=
  {| re := re st; hasMagic := hasMagic st; escaping := escaping st;
     patternListStack := stack; negativeLists := negs;
     stateChar := stateChar st; inClass := inClass st;
     reClassStart := reClassStart st; classStart := classStart st |}.
Definition set_stateChar (st : pstate) (c : option N) : pstate :=
  {| re := re st; hasMagic := hasMagic st; escaping := escaping st;
     patternListStack := patternListStack st; negativeLists := negativeLists st;
     stateChar := c; inClass := inClass st;
     reClassStart := reClassStart st; classStart := classStart st |}.
Definition set_class (st : pstate) (b : bool) (rs cs : nat) : pstate :=
  {| re := re st; hasMagic := hasMagic st; escaping := escaping st;
     patternListStack := patternListStack st; negativeLists := negativeLists st;
     stateChar := stateChar st; inClass := b;
     reClassStart := rs; classStart := cs |}.
Definition set_re (st : pstate) (s : jstr) : pstate :=
  {| re := s; hasMagic := hasMagic st; escaping := escaping st;
     patternListStack := patternListStack st; negativeLists := negativeLists st;
     stateChar := stateChar st; inClass := inClass st;
     reClassStart := reClassStart st; classStart := classStart st |}.

Definition clearStateChar (st : pstate) : pstate :=
  match stateChar st with
  | None => st
  | Some c =>
      let st' :=
        if (c =? 42)%N then set_magic (add_re st star) true
        else if (c =? 63)%N then set_magic (add_re st qmark) true
        else add_re st [backslash; c] in
      set_stateChar st' None
  end.

(** What [parse] returns; a sub-parse returns a pair, except for the two
    shortcuts and the refusal of a slash. *)
Inductive parsed :=
| PFalse
| PElem (e : elem)
| PSub (re : jstr) (magic : bool).

(** [sp[0]] as a string and [sp[1]] as a condition. *)
Definition sp_0 (r : parsed) : jstr :=
  match r with PSub re _ => re | _ => u "undefined" end.
Definition sp_1 (r : parsed) : bool :=
  match r with PSub _ m => m | _ => false end.

(** [tail.replace(/((?:\\{2}){0,64})(\\?)\|/g, ...)]: [run] is the number of
    backslashes just before; of a run before a bar the last 129 at most are
    the match, its pairs are doubled and the bar is escaped once. *)
Fixpoint escape_bars (s : jstr) (run : nat) : jstr :=
  match s with
  | [] => replicate run backslash
  | c :: s' =>
      if (c =? backslash)%N then escape_bars s' (S run)
      else if (c =? 124)%N then
        let r := run `min` 129 in
        let pairs := 2 * (r / 2) in
        replicate (run - r) backslash
          ++ replicate pairs backslash ++ replicate pairs backslash
          ++ [backslash; c] ++ escape_bars s' 0
      else replicate run backslash ++ c :: escape_bars s' 0
  end.

(** [s.replace(/\)[+*?]?/, '')]: the first closing parenthesis. *)
Fixpoint drop_close (s : jstr) : jstr :=
  match s with
  | [] => []
  | c :: s' =>
      if (c =? 41)%N then
        match s' with
        | d :: s'' => if bool_decide (d ∈ u "+*?") then s'' else s'
        | [] => []
        end
      else c :: drop_close s'
  end.

Definition count_open (s : jstr) : nat := length (List.filter (N.eqb 40) s).

Inductive step_result := Continue (st : pstate) | Return (r : parsed).

Section parse.
Variable eng : engine.
Variable opts : options.

(** One iteration of the scan, for the unit [c] at [i]; [sub] is the
    recursive call on the contents of a class. *)
Definition parse_step (sub : jstr → option parsed) (pattern : jstr)
    (i : nat) (c : N) (st : pstate) : option step_result :=
  if escaping st && reSpecials c then
    Some (Continue (set_escaping (add_re st [backslash; c]) false))
  else if (c =? slash)%N then Some (Return PFalse)
  else if (c =? backslash)%N then
    Some (Continue (set_escaping (clearStateChar st) true))
  else if bool_decide (c ∈ u "?*+@!") then
    if inClass st then
      let c := if (c =? 33)%N && (i =? classStart st + 1) then 94%N else c in
      Some (Continue (add_re st [c]))
    else
      let st := set_stateChar (clearStateChar st) (Some c) in
      Some (Continue (if noext opts then clearStateChar st else st))
  else if (c =? 40)%N then
    if inClass st then Some (Continue (add_re st (u "(")))
    else match stateChar st with
    | None => Some (Continue (add_re st (u "\(")))
    | Some t =>
        let pl := {| pl_type := t; reStart := length (re st); reEnd := None |} in
        let st := set_lists st (pl :: patternListStack st) (negativeLists st) in
        let st := add_re st (if (t =? 33)%N then u "(?:(?!(?:" else u "(?:") in
        Some (Continue (set_stateChar st None))
    end
  else if (c =? 41)%N then
    match patternListStack st with
    | pl :: stack =>
        if inClass st then Some (Continue (add_re st (u "\)")))
        else
          let st := set_magic (clearStateChar st) true in
          let st := add_re st (pl_close (pl_type pl)) in
          let pl := {| pl_type := pl_type pl; reStart := reStart pl;
                       reEnd := Some (length (re st)) |} in
          Some (Continue (set_lists st stack
            (if (pl_type pl =? 33)%N then pl :: negativeLists st else negativeLists st)))
    | [] => Some (Continue (add_re st (u "\)")))
    end
  else if (c =? 124)%N then
    if inClass st || bool_decide (patternListStack st = []) || escaping st then
      Some (Continue (set_escaping (add_re st (u "\|")) false))
    else Some (Continue (add_re (clearStateChar st) (u "|")))
  else if (c =? 91)%N then
    let st := clearStateChar st in
    if inClass st then Some (Continue (add_re st (u "\[")))
    else
      let st := set_class st true (length (re st)) i in
      Some (Continue (add_re st [c]))
  else if (c =? 93)%N then
    if (i =? classStart st + 1) || negb (inClass st) then
      Some (Continue (set_escaping (add_re st (u "\]")) false))
    else
      let cs := substring pattern (classStart st + 1) i in
      if re_valid eng (u "[" ++ cs ++ u "]") then
        let st := set_class (set_magic st true) false (reClassStart st) (classStart st) in
        Some (Continue (add_re st [c]))
      else
        sp ← sub cs;
        let st := set_re st (take (reClassStart st) (re st) ++ u "\[" ++ sp_0 sp ++ u "\]") in
        let st := set_magic st (hasMagic st || sp_1 sp) in
        Some (Continue (set_class st false (reClassStart st) (classStart st)))
  else
    let st := clearStateChar st in
    if escaping st then Some (Continue (add_re (set_escaping st false) [c]))
    else if reSpecials c && negb ((c =? 94)%N && inClass st)
    then Some (Continue (add_re st [backslash; c]))
    else Some (Continue (add_re st [c])).

Fixpoint parse_scan (sub : jstr → option parsed) (pattern rest : jstr) (i : nat)
    (st : pstate) : option step_result :=
  match rest with
  | [] => Some (Continue st)
  | c :: rest' =>
      r ← parse_step sub pattern i c st;
      match r with
      | Return p => Some (Return p)
      | Continue st' => parse_scan sub pattern rest' (S i) st'
      end
  end.

(** An extglob left open: its opening is unread and its bars are escaped. *)
Definition close_list (st : pstate) (pl : plist) : pstate :=
  let tail := escape_bars (drop (reStart pl + length (pl_open (pl_type pl))) (re st)) 0 in
  let t := if (pl_type pl =? 42)%N then star
           else if (pl_type pl =? 63)%N then qmark
           else [backslash; pl_type pl] in
  set_magic (set_re st (take (reStart pl) (re st) ++ t ++ u "\(" ++ tail)) true.

(** A negative list: its lookahead is carried to the end of the pattern. *)
Definition extend_negative (isSub : bool) (re : jstr) (nl : plist) : jstr :=
  let reEnd := default 0 (reEnd nl) in
  let nlBefore := take (reStart nl) re in
  let nlFirst := substring re (reStart nl) (reEnd - 8) in
  let nlAfter := drop reEnd re in
  let nlLast := substring re (reEnd - 8) reEnd ++ nlAfter in
  let cleanAfter := Nat.iter (count_open nlBefore) drop_close nlAfter in
  let dollar := if bool_decide (cleanAfter = []) && negb isSub then u "$" else [] in
  nlBefore ++ nlFirst ++ cleanAfter ++ dollar ++ nlLast.

(** [(?!\.)] and the like. *)
Definition patternStart (pattern : jstr) : jstr :=
  match pattern with
  | 46%N :: _ => []
  | _ => if dot opts then u "(?!(?:^|\/)\.{1,2}(?:$|\/))" else u "(?!\.)"
  end.

Definition starts_like_dot (re : jstr) : bool :=
  match re with
  | c :: _ => (c =? 46)%N || (c =? 91)%N || (c =? 40)%N
  | [] => false
  end.

(** What comes after the scan. *)
Definition parse_finish (sub : jstr → option parsed) (isSub : bool) (pattern : jstr)
    (st : pstate) : option parsed :=
  st ← (if inClass st then
          sp ← sub (drop (classStart st + 1) pattern);
          let st := set_re st (take (reClassStart st) (re st) ++ u "\[" ++ sp_0 sp) in
          Some (set_magic st (hasMagic st || sp_1 sp))
        else Some st);
  let st := foldl close_list st (patternListStack st) in
  let st := clearStateChar st in
  let st := if escaping st then add_re st (u "\\") else st in
  let addPatternStart := starts_like_dot (re st) in
  let re1 := foldl (extend_negative isSub) (re st) (negativeLists st) in
  let re2 := if bool_decide (re1 ≠ []) && hasMagic st then u "(?=.)" ++ re1 else re1 in
  let re3 := if addPatternStart then patternStart pattern ++ re2 else re2 in
  if isSub then Some (PSub re3 (hasMagic st))
  else if negb (hasMagic st) then Some (PElem (Str (globUnescape pattern)))
  else
    let src := u "^" ++ re3 ++ u "$" in
    Some (PElem (Rx (if re_valid eng src
                     then {| source := src; flag_i := nocase opts; _glob := Some pattern;
                             _src := Some re3 |}
                     else {| source := u "$."; flag_i := false; _glob := None; _src := None |}))).

Definition initial_pstate : pstate :=
  {| re := []; hasMagic := nocase opts; escaping := false; patternListStack := [];
     negativeLists := []; stateChar := None; inClass := false;
     reClassStart := 0; classStart := 0 |}.

(** [parse]; the fuel is for the nested calls, each on a shorter string. *)
Fixpoint parse_fuel (fuel : nat) (pattern : jstr) (isSub : bool) : option parsed :=
  match fuel with
  | 0 => None
  | S fuel =>
      if (65536 <? N.of_nat (length pattern))%N then None
      else if negb (noglobstar opts) && bool_decide (pattern = u "**")
      then Some (PElem GLOBSTAR)
      else if bool_decide (pattern = []) then Some (PElem (Str []))
      else
        let sub := λ cs, parse_fuel fuel cs true in
        r ← parse_scan sub pattern pattern 0 initial_pstate;
        match r with
        | Return p => Some p
        | Continue st => parse_finish sub isSub pattern st
        end
  end.

Definition parse (pattern : jstr) : option parsed :=
  parse_fuel (S (length pattern)) pattern false.
End parse.

(** ** The matcher *)

Record minimatch_obj := Minimatch {
  mm_options : options;
  mm_set : list (list elem);
  mm_pattern : jstr;
  mm_negate : bool;
  mm_comment : bool;
  mm_empty : bool;
  mm_globSet : list jstr;
}.

(** [pattern.charAt(0) === '#'] and the test for a comment. *)
Definition is_comment (opts : options) (pattern : jstr) : bool :=
  negb (nocomment opts) && bool_decide (head pattern = Some 35%N).

(** [parseNegate]: the leading '!'s are dropped, each flips the sense. *)
Fixpoint negate_loop (pattern : jstr) (negate : bool) : jstr * bool :=
  match pattern with
  | c :: rest => if (c =? 33)%N then negate_loop rest (negb negate) else (pattern, negate)
  | [] => ([], negate)
  end.
Definition parseNegate (opts : options) (pattern : jstr) : jstr * bool :=
  if nonegate opts then (pattern, false) else negate_loop pattern false.

(** A part of a path that [**] does not swallow. *)
Definition dotted (opts : options) (f : jstr) : bool :=
  bool_decide (f = u ".") || bool_decide (f = u "..")
  || (negb (dot opts) && bool_decide (head f = Some 46%N)).

Section matching.
Variable eng : engine.
(** [expand] of the [brace-expansion] module, [expandTop] with its escape
    tokens and fuel. *)
Variable expand : jstr → option (list jstr).

Definition braceExpand (opts : options) (pattern : jstr) : option (list jstr) :=
  if nobrace opts || negb (has_braces pattern) then Some [pattern]
  else expand pattern.

(** [s.map(this.parse, this)], then the sets with a [false] are dropped. *)
Definition parse_parts (opts : options) (parts : list jstr) : option (list parsed) :=
  mapM (parse eng opts) parts.
Fixpoint elems_of (ps : list parsed) : option (list elem) :=
  match ps with
  | [] => Some []
  | PElem e :: ps' => es ← elems_of ps'; Some (e :: es)
  | _ :: _ => None
  end.

(** The constructor with [make]. *)
Definition new_Minimatch (pattern : jstr) (opts : options) : option minimatch_obj :=
  let pattern := trim pattern in
  if is_comment opts pattern then
    Some {| mm_options := opts; mm_set := []; mm_pattern := pattern; mm_negate := false;
            mm_comment := true; mm_empty := false; mm_globSet := [] |}
  else if bool_decide (pattern = []) then
    Some {| mm_options := opts; mm_set := []; mm_pattern := pattern; mm_negate := false;
            mm_comment := false; mm_empty := true; mm_globSet := [] |}
  else
    let '(pattern, negate) := parseNegate opts pattern in
    globSet ← braceExpand opts pattern;
    let globParts := map slashSplit globSet in
    compiled ← mapM (parse_parts opts) globParts;
    Some {| mm_options := opts; mm_set := omap elems_of compiled; mm_pattern := pattern;
            mm_negate := negate; mm_comment := false; mm_empty := false;
            mm_globSet := globSet |}.

(** A part against an element other than [**]. *)
Definition elem_hit (opts : options) (p : elem) (f : jstr) : bool :=
  match p with
  | GLOBSTAR => false
  | Str s =>
      if nocase opts then bool_decide (toLowerCase eng f = toLowerCase eng s)
      else bool_decide (f = s)
  | Rx r => re_test eng (source r) (flag_i r) f
  end.

Definition empty_file_end (file : list jstr) : bool :=
  match file with [[]] => true | _ => false end.

(** [matchOne]: both lists advance together; on [**] the inner loop tries
    the rest of the pattern at each later part it may reach. *)
Fixpoint matchOne (opts : options) (partial : bool) (pattern : list elem)
    (file : list jstr) : bool :=
  match pattern, file with
  | [], [] => true
  | _ :: _, [] => partial
  | [], _ => empty_file_end file
  | p :: ps, f :: fs =>
      if decide (p = GLOBSTAR) then
        match ps with
        | [] => forallb (λ f, negb (dotted opts f)) file
        | _ =>
            (fix swallow (file : list jstr) : bool :=
               match file with
               | [] => partial
               | f :: fs =>
                   if matchOne opts partial ps file then true
                   else if dotted opts f then false
                   else swallow fs
               end) file
        end
      else if elem_hit opts p f then matchOne opts partial ps fs else false
  end.

(** The last non-empty part, the first part when all are empty. *)
Definition basename_part (f : list jstr) : jstr :=
  default (default [] (head f)) (last (filter (λ s, s ≠ []) f)).

(** [match]. *)
Definition mm_match (mm : minimatch_obj) (f : jstr) (partial : bool) : bool :=
  if mm_comment mm then false
  else if mm_empty mm then bool_decide (f = [])
  else if bool_decide (f = u "/") && partial then true
  else
    let opts := mm_options mm in
    let f := slashSplit f in
    let filename := basename_part f in
    let hit := existsb (λ pattern,
      let file := if matchBase opts && (length pattern =? 1) then [filename] else f in
      matchOne opts partial pattern file) (mm_set mm) in
    if hit then (if flipNegate opts then true else negb (mm_negate mm))
    else if flipNegate opts then false else mm_negate mm.

(** [minimatch(p, pattern, options)]. *)
Definition minimatch (p pattern : jstr) (opts : options) : option bool :=
  if is_comment opts pattern then Some false
  else if bool_decide (trim pattern = []) then Some (bool_decide (p = []))
  else mm ← new_Minimatch pattern opts; Some (mm_match mm p false).

(** [minimatch.match(list, pattern, options)]. *)
Definition minimatch_match (l : list jstr) (pattern : jstr) (opts : options)
    : option (list jstr) :=
  mm ← new_Minimatch pattern opts;
  let l' := List.filter (λ f, mm_match mm f false) l in
  Some (if nonull opts && bool_decide (l' = []) then [pattern] else l').

(** [makeRe]: [None] is the [false] of an empty set or of a source the
    engine refuses. *)
Definition elem_src (opts : options) (p : elem) : jstr :=
  match p with
  | GLOBSTAR => if noglobstar opts then star else if dot opts then twoStarDot else twoStarNoDot
  | Str s => regExpEscape s
  | Rx r => default [] (_src r)
  end.
Definition makeRe (mm : minimatch_obj) : option regexp :=
  match mm_set mm with
  | [] => None
  | set =>
      let opts := mm_options mm in
      let re := join (u "|") (map (λ pattern,
        join (u "\/") (map (elem_src opts) pattern)) set) in
      let re := u "^(?:" ++ re ++ u ")$" in
      let re := if mm_negate mm then u "^(?!" ++ re ++ u ").*$" else re in
      if re_valid eng re
      then Some {| source := re; flag_i := nocase opts; _glob := None; _src := None |} else None
  end.
End matching.

(** ** What a pattern means

    [path_matches pattern file] says when a compiled pattern covers the parts
    of a path: [**] stands for any number of parts that are not dotted, the
    other elements for one part each; the last empty part of a path that ends
    with a slash needs no element. *)

Section meaning.
Variable eng : engine.
Variable opts : options.

Inductive path_matches : list elem → list jstr → Prop :=
| pm_end : path_matches [] []
| pm_trailing : path_matches [] [[]]
| pm_elem p f ps fs :
    elem_hit eng opts p f = true → path_matches ps fs → path_matches (p :: ps) (f :: fs)
| pm_globstar_end fs :
    fs ≠ [] → Forall (λ f, dotted opts f = false) fs → path_matches [GLOBSTAR] fs
| pm_globstar_zero ps fs :
    ps ≠ [] → path_matches ps fs → path_matches (GLOBSTAR :: ps) fs
| pm_globstar_more f ps fs :
    ps ≠ [] → dotted opts f = false →
    path_matches (GLOBSTAR :: ps) fs → path_matches (GLOBSTAR :: ps) (f :: fs).

Definition swallow (ps : list elem) : list jstr → bool :=
  fix swallow (file : list jstr) : bool :=
    match file with
    | [] => false
    | f :: fs =>
        if matchOne eng opts false ps file then true
        else if dotted opts f then false else swallow fs
    end.

Lemma matchOne_globstar ps fs :
  ps ≠ [] → fs ≠ [] → matchOne eng opts false (GLOBSTAR :: ps) fs = swallow ps fs.
Proof. destruct ps, fs; try done. Qed.

Lemma path_matches_nil ps : path_matches ps [] → ps = [].
Proof.
  remember [] as fs eqn:E. induction 1; subst; try done. by rewrite IHpath_matches in H.
Qed.

Lemma swallow_matches ps fs :
  (∀ fs, matchOne eng opts false ps fs = true ↔ path_matches ps fs) →
  ps ≠ [] → swallow ps fs = true ↔ path_matches (GLOBSTAR :: ps) fs.
Proof.
  intros Hps Hne. induction fs as [|f fs IH]; cbn [swallow].
  - split; [done|]. intros H. by apply path_matches_nil in H.
  - destruct (matchOne eng opts false ps (f :: fs)) eqn:E.
    + split; [|done]. intros _. apply pm_globstar_zero; [done|]. by apply Hps.
    + assert (¬ path_matches ps (f :: fs)) as Hno by (rewrite <-Hps, E; done).
      destruct (dotted opts f) eqn:Hd.
      * split; [done|]. intros H. exfalso. inversion H; subst; simplify_eq/=; try done.
        congruence.
      * rewrite IH. split; [intros; by apply pm_globstar_more|].
        intros H. inversion H; subst; simplify_eq/=; try done.
Qed.

Lemma matchOne_meaning pattern fs :
  matchOne eng opts false pattern fs = true ↔ path_matches pattern fs.
Proof.
  revert fs. induction pattern as [|p ps IH]; intros fs.
  - destruct fs as [|f fs]; [split; [constructor|done]|].
    cbn [matchOne empty_file_end]. split.
    + destruct f, fs; try done. constructor.
    + intros H. by inversion H.
  - destruct fs as [|f fs].
    { split; [done|]. intros H. by apply path_matches_nil in H. }
    destruct (decide (p = GLOBSTAR)) as [->|Hp].
    + destruct (decide (ps = [])) as [->|Hne].
      * cbn [matchOne]. rewrite decide_True by done.
        rewrite forallb_forall. split.
        -- intros H. apply pm_globstar_end; [done|]. apply Forall_forall. intros x Hx.
           apply negb_true_iff, H. by apply list_elem_of_In.
        -- intros H. inversion H as [| |? ? ? ? Hhit| ? ? Hall|? ? Hne|]; subst; try done.
           intros x Hx. apply list_elem_of_In in Hx. rewrite Forall_forall in Hall.
           by rewrite Hall.
      * rewrite matchOne_globstar by done. by apply swallow_matches.
    + cbn [matchOne]. rewrite decide_False by done.
      destruct (elem_hit eng opts p f) eqn:Hhit.
      * rewrite IH. split; [by apply pm_elem|]. intros H. by inversion H; subst.
      * split; [done|]. intros H. inversion H; subst; congruence.
Qed.
End meaning.

(** ** Negation *)

(** [n] exclamation marks. *)
Definition bangs (n : nat) : jstr := replicate n 33%N.

Lemma negate_loop_bangs n pattern b :
  head pattern ≠ Some 33%N → negate_loop (bangs n ++ pattern) b = (pattern, xorb (Nat.odd n) b).
Proof.
  intros Hh. revert b. induction n as [|n IH]; intros b.
  - change (bangs 0 ++ pattern) with pattern. rewrite xorb_false_l.
    destruct pattern as [|c pattern]; [done|]. cbn [negate_loop].
    destruct (N.eqb_spec c 33) as [->|]; done.
  - change (bangs (S n) ++ pattern) with (33%N :: bangs n ++ pattern). cbn [negate_loop].
    change (33 =? 33)%N with true. cbn [negb]. rewrite IH, Nat.odd_succ, <-Nat.negb_odd.
    by destruct (Nat.odd n), b.
Qed.

Section parsing.
Variable eng : engine.
Variable opts : options.

(** *** Termination: the nested calls are on shorter strings *)

Lemma parse_step_total sub pattern i c st :
  (∀ cs, length cs < length pattern → is_Some (sub cs)) → i < length pattern →
  ∃ r, parse_step eng opts sub pattern i c st = Some r ∧
    ∀ p', r = Return p' → p' = PFalse.
Proof.
  intros Hsub Hi. unfold parse_step.
  assert (Hcs : is_Some (sub (substring pattern (classStart st + 1) i))).
  { apply Hsub. rewrite length_substring by lia. lia. }
  destruct Hcs as [sp Hsp]. rewrite Hsp. cbn [mbind option_bind].
  repeat case_match; eexists; (split; [reflexivity|]); intros p' [=]; congruence.
Qed.

Lemma parse_scan_total sub pattern rest i st :
  (∀ cs, length cs < length pattern → is_Some (sub cs)) →
  i + length rest = length pattern →
  ∃ r, parse_scan eng opts sub pattern rest i st = Some r ∧
    ∀ p', r = Return p' → p' = PFalse.
Proof.
  intros Hsub. revert i st. induction rest as [|c rest IH]; intros i st Hlen; cbn [parse_scan].
  { eexists; split; [done|]. by intros p [=]. }
  cbn [length] in Hlen.
  destruct (parse_step_total sub pattern i c st Hsub ltac:(lia)) as (r&->&Hr).
  cbn [mbind option_bind]. destruct r as [st'|p]; [apply IH; lia|].
  eexists; split; [done|]. intros p' [= <-]. by apply Hr.
Qed.

Lemma parse_finish_total sub isSub pattern st :
  (∀ cs, length cs < length pattern → is_Some (sub cs)) → pattern ≠ [] →
  ∃ r, parse_finish eng opts sub isSub pattern st = Some r ∧
    (isSub = false → ∃ e, r = PElem e).
Proof.
  intros Hsub Hne. unfold parse_finish.
  assert (Hre : ∃ sp, sub (drop (classStart st + 1) pattern) = Some sp).
  { apply Hsub. rewrite length_drop. destruct pattern; [done|simpl; lia]. }
  destruct Hre as [sp Hsp]. rewrite Hsp.
  destruct (inClass st); cbn [mbind option_bind];
    (destruct isSub; [by eexists|]); case_match; (eexists; split; [done|]); eauto.
Qed.

Lemma parse_fuel_total fuel pattern isSub :
  length pattern < fuel → (N.of_nat (length pattern) ≤ 65536)%N →
  ∃ r, parse_fuel eng opts fuel pattern isSub = Some r ∧
    (isSub = false → r = PFalse ∨ ∃ e, r = PElem e).
Proof.
  revert pattern isSub. induction fuel as [|fuel IH]; intros pattern isSub Hf Hlong; [lia|].
  cbn [parse_fuel]. rewrite (proj2 (N.ltb_ge _ _)) by done.
  destruct (negb (noglobstar opts) && bool_decide (pattern = u "**"));
    [eexists; split; [done|]; intros _; right; by eexists|].
  case_bool_decide as Hne; [eexists; split; [done|]; intros _; right; by eexists|].
  assert (Hsub : ∀ cs, length cs < length pattern →
    is_Some (parse_fuel eng opts fuel cs true)).
  { intros cs Hcs. destruct (IH cs true) as (r&->&_); [lia|lia|by eexists]. }
  destruct (parse_scan_total _ pattern pattern 0 (initial_pstate opts) Hsub ltac:(lia))
    as (r&->&Hr).
  cbn [mbind option_bind]. destruct r as [st|p].
  - destruct (parse_finish_total _ isSub pattern st Hsub Hne) as (r&->&He).
    exists r. split; [done|]. auto.
  - rewrite (Hr p eq_refl). eexists. split; [done|]. by left.
Qed.

(** *** Patterns without magic *)

(** A unit that [parse] copies: it ends in the default case, unescaped. *)
Definition plain_unit (c : N) : Prop :=
  c ≠ slash ∧ c ≠ backslash ∧ c ∉ u "?*+@!" ∧ c ≠ 124%N ∧ reSpecials c = false.

#[global] Instance plain_unit_dec c : Decision (plain_unit c).
Proof. unfold plain_unit. apply _. Defined.

Lemma parse_step_plain sub pattern i c st :
  plain_unit c → escaping st = false → stateChar st = None → inClass st = false →
  parse_step eng opts sub pattern i c st = Some (Continue (add_re st [c])).
Proof.
  intros (H1&H2&H3&H4&H5) Hesc Hsc Hcl. unfold parse_step. rewrite Hesc, H5. cbn [andb].
  rewrite (proj2 (N.eqb_neq _ _) H1), (proj2 (N.eqb_neq _ _) H2).
  rewrite bool_decide_eq_false_2 by done.
  assert (Hn : ∀ x, x ∈ u "().*{}+?[]^$\!" → (c =? x)%N = false).
  { intros x Hx. apply N.eqb_neq. intros ->. unfold reSpecials in H5.
    by apply bool_decide_eq_false in H5. }
  rewrite (proj2 (N.eqb_neq _ _) H4).
  rewrite !Hn by (apply (bool_decide_unpack _); exact I).
  unfold clearStateChar. by rewrite Hsc, Hesc.
Qed.

Lemma parse_scan_plain sub pattern rest i st :
  Forall plain_unit rest → escaping st = false → stateChar st = None → inClass st = false →
  parse_scan eng opts sub pattern rest i st = Some (Continue (add_re st rest)).
Proof.
  intros Hall. revert i st. induction Hall as [|c rest Hc _ IH]; intros i st He Hs Hi.
  - cbn [parse_scan]. unfold add_re. destruct st; simpl. by rewrite app_nil_r.
  - cbn [parse_scan]. rewrite parse_step_plain by done. cbn [mbind option_bind].
    rewrite IH by done. unfold add_re; cbn. by rewrite <-app_assoc.
Qed.

Lemma globUnescape_plain s : Forall plain_unit s → globUnescape s = s.
Proof.
  induction 1 as [|c s (_&Hc&_) _ IH]; [done|]. cbn [globUnescape].
  by rewrite (proj2 (N.eqb_neq _ _) Hc), IH.
Qed.

Lemma parse_plain s :
  nocase opts = false → Forall plain_unit s → (N.of_nat (length s) ≤ 65536)%N →
  parse eng opts s = Some (PElem (Str s)).
Proof.
  intros Hnc Hall Hlen. unfold parse. cbn [parse_fuel].
  rewrite (proj2 (N.ltb_ge _ _)) by done.
  rewrite (bool_decide_eq_false_2 (s = u "**")).
  2:{ intros ->. inversion Hall as [|?? (_&_&Hc&_) _]. apply Hc.
      by apply (bool_decide_unpack _). }
  rewrite andb_false_r. case_bool_decide as Hne; [by rewrite Hne|].
  rewrite parse_scan_plain by done. cbn [mbind option_bind].
  unfold parse_finish. cbn. rewrite Hnc. cbn. by rewrite globUnescape_plain.
Qed.

Lemma matchOne_literal strs fs :
  nocase opts = false →
  matchOne eng opts false (map Str strs) fs
    = bool_decide (fs = strs) || bool_decide (fs = strs ++ [[]]).
Proof.
  intros Hnc. revert fs. induction strs as [|s strs IH]; intros fs.
  - destruct fs as [|[|c f] [|g fs]]; done.
  - destruct fs as [|f fs]; [done|]. cbn [map matchOne].
    rewrite decide_False by done. cbn [elem_hit]. rewrite Hnc.
    case_bool_decide as Hf; [subst f; rewrite IH|].
    + f_equal; apply bool_decide_ext; simpl; (split; [by intros ->|by intros [= ->]]).
    + rewrite !bool_decide_eq_false_2; [done|simpl; intros [=]; congruence..].
Qed.
End parsing.

(** [trim] leaves a string alone when its ends are not white space. *)
Lemma trim_start_le s : length (trim_start s) ≤ length s.
Proof. induction s as [|c s IH]; simpl; [done|]. destruct (js_space c); simpl; lia. Qed.

Lemma trim_start_id s : length (trim_start s) = length s → trim_start s = s.
Proof.
  destruct s as [|c s]; [done|]. cbn [trim_start]. destruct (js_space c); [|done].
  pose proof (trim_start_le s). simpl. lia.
Qed.

Lemma trim_fixed_ends s :
  trim s = s → trim_start s = s ∧ trim_start (reverse s) = reverse s.
Proof.
  unfold trim. intros H. pose proof (f_equal length H) as Hl.
  rewrite length_reverse in Hl.
  pose proof (trim_start_le (reverse (trim_start s))) as H1. rewrite length_reverse in H1.
  pose proof (trim_start_le s) as H2.
  assert (Hs : trim_start s = s) by (apply trim_start_id; lia).
  split; [done|]. rewrite Hs in *. apply trim_start_id. rewrite length_reverse. lia.
Qed.

Lemma trim_start_app s t : trim_start s = s → s ≠ [] → trim_start (s ++ t) = s ++ t.
Proof.
  destruct s as [|c s]; [done|]. cbn [trim_start app]. destruct (js_space c); [|done].
  intros H. pose proof (f_equal length H). pose proof (trim_start_le s). simpl in *. lia.
Qed.

Lemma trim_bangs n s : trim s = s → s ≠ [] → trim (bangs n ++ s) = bangs n ++ s.
Proof.
  intros Ht Hne. destruct (trim_fixed_ends s Ht) as [H1 H2].
  assert (Hs : trim_start (bangs n ++ s) = bangs n ++ s) by (by destruct n).
  unfold trim. rewrite Hs, reverse_app, trim_start_app; [|done|].
  - by rewrite <-reverse_app, reverse_involutive.
  - intros H. apply Hne. by rewrite <-(reverse_involutive s), H.
Qed.

(** ** The properties *)

(** C4: [matchOne] decides the meaning of a compiled pattern, globstars with
    their backtracking included, whatever the regular expressions are. *)
Theorem matchOne_correct (eng : engine) (opts : options) (pattern : list elem)
    (file : list jstr) :
  matchOne eng opts false pattern file = true ↔ path_matches eng opts pattern file.
Proof. apply matchOne_meaning. Qed.

(** Every leading '!' flips the answer of [minimatch]: [n] of them leave
    it when [n] is even and negate it when [n] is odd. *)
Theorem minimatch_negation (eng : engine) (expand : jstr → option (list jstr))
    (opts : options) (n : nat) (p pattern : jstr) :
  nonegate opts = false → flipNegate opts = false →
  pattern ≠ [] → trim pattern = pattern →
  head pattern ≠ Some 33%N → head pattern ≠ Some 35%N →
  minimatch eng expand p (bangs n ++ pattern) opts =
    xorb (Nat.odd n) <$> minimatch eng expand p pattern opts.
Proof.
  intros Hneg Hflip Hne Htrim Hbang Hhash.
  assert (Hcom : ∀ n, is_comment opts (bangs n ++ pattern) = false).
  { intros k. unfold is_comment. destruct k; cbn.
    - rewrite bool_decide_eq_false_2 by done. apply andb_false_r.
    - by rewrite andb_false_r. }
  assert (Hgen : ∀ n, minimatch eng expand p (bangs n ++ pattern) opts =
    globSet ← braceExpand expand opts pattern;
    compiled ← mapM (parse_parts eng opts) (map slashSplit globSet);
    Some (mm_match eng {| mm_options := opts; mm_set := omap elems_of compiled;
            mm_pattern := pattern; mm_negate := Nat.odd n; mm_comment := false;
            mm_empty := false; mm_globSet := globSet |} p false)).
  { intros k. unfold minimatch, new_Minimatch.
    assert (bangs k ++ pattern ≠ []) by by destruct k.
    rewrite trim_bangs, Hcom, bool_decide_eq_false_2 by done.
    rewrite ?trim_bangs, ?Hcom by done. unfold parseNegate. rewrite Hneg.
    rewrite negate_loop_bangs, xorb_false_r by done.
    destruct (braceExpand expand opts pattern); [|done]. cbn [mbind option_bind].
    by destruct (mapM _ _). }
  change pattern with (bangs 0 ++ pattern) at 2. rewrite !Hgen.
  destruct (braceExpand expand opts pattern) as [globSet|]; [|done]. cbn [mbind option_bind].
  destruct (mapM _ _) as [compiled|]; [|done]. cbn [mbind option_bind fmap option_fmap option_map].
  f_equal. unfold mm_match. cbn -[existsb Nat.odd].
  rewrite andb_false_r, Hflip. case_match; by destruct (Nat.odd n).
Qed.

Lemma minimatch_negation_witness :
  let eng := {| re_valid := λ _, true; re_test := λ _ _ _, false; toLowerCase := id |} in
  minimatch eng (λ s, Some [s]) (u "a/b") (bangs 3 ++ u "a/b") no_options =
    xorb (Nat.odd 3) <$> minimatch eng (λ s, Some [s]) (u "a/b") (u "a/b") no_options.
Proof.
  intros eng. apply (minimatch_negation eng (λ s, Some [s]) no_options 3 (u "a/b") (u "a/b"));
    first [reflexivity | discriminate].
Defined.

(** A pattern of plain units and slashes matches exactly the paths with
    the same parts, up to repeated slashes and one trailing slash, without any
    regular expression. *)
Theorem minimatch_literal (eng : engine) (expand : jstr → option (list jstr))
    (opts : options) (p pattern : jstr) :
  nocase opts = false → matchBase opts = false → flipNegate opts = false →
  Forall (λ c, c = slash ∨ plain_unit c) pattern →
  pattern ≠ [] → trim pattern = pattern → is_comment opts pattern = false →
  (N.of_nat (length pattern) ≤ 65536)%N →
  minimatch eng expand p pattern opts =
    Some (bool_decide (slashSplit p = slashSplit pattern)
          || bool_decide (slashSplit p = slashSplit pattern ++ [[]])).
Proof.
  intros Hnc Hmb Hflip Hall Hne Htrim Hcom Hlen.
  unfold minimatch, new_Minimatch.
  rewrite Hcom, Htrim, bool_decide_eq_false_2, Hcom by done.
  assert (Hneg : parseNegate opts pattern = (pattern, false)).
  { unfold parseNegate. destruct (nonegate opts); [done|].
    apply (negate_loop_bangs 0). destruct pattern as [|c s]; [done|].
    inversion Hall as [|?? [->|(_&_&Hc&_)] _]; subst; [done|]. intros [= ->].
    apply Hc. by apply (bool_decide_unpack _). }
  rewrite Hneg.
  assert (Hbr : has_braces pattern = false).
  { clear -Hall. induction Hall as [|c s Hc _ IH]; [done|]. cbn [has_braces].
    rewrite IH, orb_false_r. apply andb_false_iff. left. apply N.eqb_neq. intros ->.
    destruct Hc as [?|(_&_&_&_&Hc)]; [done|]. by vm_compute in Hc. }
  unfold braceExpand. rewrite Hbr, orb_true_r. cbn [mbind option_bind map].
  assert (Hparts : Forall (λ s, Forall plain_unit s ∧ length s ≤ length pattern) (slashSplit pattern)).
  { unfold slashSplit. clear -Hall.
    enough (∀ s cur b, Forall (λ c, c = slash ∨ plain_unit c) s → Forall plain_unit cur →
      Forall (λ x, Forall plain_unit x ∧ length x ≤ length cur + length s)
        (slash_split_aux s cur b)) as H by by apply (H pattern [] false).
    clear. induction s as [|c s IH]; intros cur b Hs Hcur; cbn [slash_split_aux].
    - repeat constructor; [done|simpl; lia].
    - inversion Hs as [|?? Hc Hs']; subst.
      assert (Hrec : Forall (λ x, Forall plain_unit x ∧ length x ≤ length cur + length (c :: s))
        (slash_split_aux s [] true)).
      { eapply Forall_impl; [apply IH; [done|constructor]|]. cbn. intros x [??]. split; [done|lia]. }
      destruct (N.eqb_spec c slash) as [->|Hns].
      + destruct b; [done|]. constructor; [split; [done|lia]|done].
      + eapply Forall_impl; [apply IH; [done|]|].
        * apply Forall_app. split; [done|]. constructor; [|constructor]. by destruct Hc.
        * cbn. rewrite length_app. cbn. intros x [??]. split; [done|lia]. }
  assert (Hmap : mapM (parse_parts eng opts) [slashSplit pattern] =
    Some [map (PElem ∘ Str) (slashSplit pattern)]).
  { cbn [mapM]. unfold parse_parts.
    assert (mapM (parse eng opts) (slashSplit pattern) = Some (map (PElem ∘ Str) (slashSplit pattern))) as ->.
    { induction Hparts as [|s l [Hs Hl] _ IH]; [done|]. cbn [mapM].
      rewrite parse_plain by (done || lia). cbn [mbind option_bind]. by rewrite IH. }
    done. }
  rewrite Hmap. cbn [mbind option_bind]. f_equal.
  assert (Hel : ∀ l, elems_of (map (PElem ∘ Str) l) = Some (map Str l)).
  { induction l as [|s l IH]; [done|]. cbn. by rewrite IH. }
  unfold mm_match. cbn [mm_comment mm_empty mm_options mm_set mm_negate omap list_omap].
  rewrite andb_false_r, Hel, Hmb, Hflip. cbn [andb existsb].
  rewrite matchOne_literal, orb_false_r by done. by case_match.
Qed.

Lemma minimatch_literal_witness :
  let eng := {| re_valid := λ _, true; re_test := λ _ _ _, false; toLowerCase := id |} in
  minimatch eng (λ s, Some [s]) (u "a//b/") (u "a/b") no_options =
    Some (bool_decide (slashSplit (u "a//b/") = slashSplit (u "a/b"))
          || bool_decide (slashSplit (u "a//b/") = slashSplit (u "a/b") ++ [[]])).
Proof.
  intros eng. apply (minimatch_literal eng (λ s, Some [s]) no_options (u "a//b/") (u "a/b"));
    try reflexivity; try discriminate.
  apply (bool_decide_unpack _). vm_compute. exact I.
Defined.

(** [parse] ends on every part it does not refuse for its length: the
    re-walk of an unfinished or invalid class is on a shorter string, and the
    result is [false] (a slash) or an element, never a sub-pattern. *)
Theorem parse_total (eng : engine) (opts : options) (pattern : jstr) :
  (N.of_nat (length pattern) ≤ 65536)%N →
  ∃ r, parse eng opts pattern = Some r ∧ (r = PFalse ∨ ∃ e, r = PElem e).
Proof.
  intros Hlen. unfold parse. destruct (parse_fuel_total eng opts (S (length pattern)) pattern false)
    as (r&->&Hr); [lia|done|]. exists r. split; [done|]. by apply Hr.
Qed.

Lemma parse_total_witness :
  let eng := {| re_valid := λ _, true; re_test := λ _ _ _, false; toLowerCase := id |} in
  ∃ r, parse eng no_options (u "+(a|[b") = Some r ∧ (r = PFalse ∨ ∃ e, r = PElem e).
Proof. intros eng. apply (parse_total eng no_options (u "+(a|[b")). vm_compute. discriminate. Defined.

(** The unread class of a trailing '[' is the empty string, whose shortcut is
    not a pair: the regular expression asks for the word "undefined". *)
Lemma parse_open_class_undefined (eng : engine) :
  re_valid eng (u "^(?!\.)(?=.)[^/]*?\[undefined$") = true →
  parse eng no_options (u "*[") =
    Some (PElem (Rx {| source := u "^(?!\.)(?=.)[^/]*?\[undefined$"; flag_i := false; _glob := Some (u "*[");
                       _src := Some (u "(?!\.)(?=.)[^/]*?\[undefined") |})).
Proof.
  intros H. vm_compute in H. vm_compute. by rewrite H.
Qed.
