(* ===== verification/Glob.v ===== *)
(** * The glob walker of the bundle ([glob/common] and [glob/sync] of [wordcut.js])

    [GlobSync]: a compiled pattern is walked over a file system.  The [fs]
    module is not part of the bundle: [fsys] is a parameter, and the walk, which
    is synchronous, sees one file system throughout.  The walk itself
    ([_process] and what it calls) is written against the class [Files], what
    it asks about paths; the instance of the code keeps the caches of a
    [GlobSync] object, the other asks the file system every time, and the
    theorems compare the two.  Warnings printed to the console are left out. *)

From S2P Require Import Prelude JsString PathPosix BraceExpansion Minimatch.

(** ** The file system *)

Record fstat := { isDirectory : bool; isSymbolicLink : bool }.

(** A call that throws gives [None], or the code of its error. *)
Record fsys := {
  lstatSync : jstr → option fstat;
  statSync : jstr → option fstat;
  readdirSync : jstr → list jstr + jstr;
  realpathSync : jstr → jstr + bool;  (* whether [er.syscall] was "stat" *)
}.

(** What the code takes from the language at run time: regular expressions,
    and [localeCompare], as the test whether it is at most 0. *)
Record runtime := { rt_engine : engine; locale_le : jstr → jstr → bool }.

(** ** Objects used as sets of strings *)

(** A string that is an array index, which [Object.keys] gives first. *)
Definition array_index (s : jstr) : option N :=
  match s with
  | [] => None
  | c :: s' =>
      if forallb is_digit_unit s && (negb (c =? 48)%N || bool_decide (s' = [])) then
        let n := Z.to_N (digits_value s) in
        if (n <? 4294967295)%N then Some n else None
      else None
  end.

(** [Object.keys] of an object whose keys were added in the order [l]. *)
Definition index_le (a b : N * jstr) : Prop := (a.1 ≤ b.1)%N.
#[export] Instance index_le_dec : RelDecision index_le.
Proof. unfold index_le. intros a b. apply _. Defined.

Definition object_keys (l : list jstr) : list jstr :=
  map snd (merge_sort index_le (omap (λ s, (λ n, (n, s)) <$> array_index s) l))
  ++ filter (λ s, array_index s = None) l.

(** [set[k] = true]. *)
Definition set_key (l : list jstr) (k : jstr) : list jstr :=
  if bool_decide (k ∈ l) then l else l ++ [k].

(** ** Settings *)

Record ignore_item := IgnoreItem { matcher : minimatch_obj; gmatcher : option minimatch_obj }.

Record glob_settings := GlobSettings {
  g_pattern : jstr;
  g_strict : bool; g_realpath : bool; g_follow : bool; g_dot : bool; g_mark : bool;
  g_nodir : bool; g_nounique : bool; g_nonull : bool; g_nosort : bool; g_nocase : bool;
  g_stat : bool; g_noprocess : bool; g_nomount : bool;
  g_maxLength : option N;              (* [None]: Infinity *)
  g_changedCwd : bool; g_cwd : jstr; g_root : jstr;
  g_ignore : list ignore_item;
  g_minimatch : minimatch_obj;
}.

(** The values of the cache: [true], [false], "FILE", "DIR" or a listing. *)
Inductive cache_entry :=
| CTrue | CFalse | CFile | CDir | CEntries (entries : list jstr).

Record caches := Caches {
  cache : gmap jstr cache_entry;
  statCache : gmap jstr (option fstat);    (* [None]: false *)
  symlinks : gmap jstr bool;
}.

Definition no_caches : caches := {| cache := ∅; statCache := ∅; symlinks := ∅ |}.

Definition set_cache (c : caches) (k : jstr) (v : cache_entry) : caches :=
  {| cache := <[k := v]> (cache c); statCache := statCache c; symlinks := symlinks c |}.
Definition set_statCache (c : caches) (k : jstr) (v : option fstat) : caches :=
  {| cache := cache c; statCache := <[k := v]> (statCache c); symlinks := symlinks c |}.
(** [statCache[to] = statCache[from]]; an entry that is [undefined] is none. *)
Definition copy_statCache (c : caches) (from to : jstr) : caches :=
  {| cache := cache c;
     statCache := partial_alter (λ _, statCache c !! from) to (statCache c);
     symlinks := symlinks c |}.
Definition set_symlink (c : caches) (k : jstr) (v : bool) : caches :=
  {| cache := cache c; statCache := statCache c; symlinks := <[k := v]> (symlinks c) |}.

(** The options of a call; [nonegate] and [nocomment] of [go_minimatch] are not
    read, and a [maxLength] of 0 is none. *)
Record glob_options := GlobOptions {
  go_minimatch : options;
  go_nonegate : option bool; go_nocomment : option bool; go_strict : option bool;
  go_realpath : bool; go_follow : bool; go_mark : bool; go_nodir : bool;
  go_nounique : bool; go_nosort : bool; go_stat : bool; go_noprocess : bool;
  go_nomount : bool; go_maxLength : N; go_ignore : list jstr;
  go_cwd : option jstr; go_root : option jstr;
}.

Definition ends_with_slash (p : jstr) : bool := bool_decide (last p = Some 47%N).
Definition starts_with_slash (p : jstr) : bool := bool_decide (head p = Some 47%N).

Section settings.
Variable rt : runtime.
Variable expand : jstr → option (list jstr).

(** The trailing globstars are taken off. *)
Fixpoint strip_globstars (fuel : nat) (pattern : jstr) : jstr :=
  match fuel with
  | 0 => pattern
  | S fuel =>
      let n := length pattern - 3 in
      if bool_decide (drop n pattern = u "/**") then strip_globstars fuel (take n pattern)
      else pattern
  end.

Definition ignoreMap (pattern : jstr) : option ignore_item :=
  m ← new_Minimatch (rt_engine rt) expand pattern no_options;
  if bool_decide (drop (length pattern - 3) pattern = u "/**") then
    g ← new_Minimatch (rt_engine rt) expand (strip_globstars (length pattern) pattern) no_options;
    Some (IgnoreItem m (Some g))
  else Some (IgnoreItem m None).

Definition setupIgnores (ignore : list jstr) : option (list ignore_item) :=
  mapM ignoreMap ignore.

(** The options [new Minimatch] is given: comments and negation are off unless
    they were set to false. *)
Definition minimatch_options (o : glob_options) : options :=
  let m := go_minimatch o in
  {| nobrace := nobrace m; noglobstar := noglobstar m; dot := dot m; noext := noext m;
     nocase := nocase m; nonull := nonull m; matchBase := matchBase m;
     nocomment := negb (bool_decide (go_nocomment o = Some false));
     nonegate := negb (bool_decide (go_nonegate o = Some false));
     flipNegate := flipNegate m |}.

Definition setopts (pattern : jstr) (o : glob_options) : option glob_settings :=
  let m := go_minimatch o in
  let base := matchBase m && bool_decide (47%N ∉ pattern) in
  if base && noglobstar m then None
  else
    let pattern := if base then u "**/" ++ pattern else pattern in
    ignore ← setupIgnores (go_ignore o);
    let cwd' := default cwd (go_cwd o) in
    let changed :=
      match go_cwd o with Some d => negb (bool_decide (resolve [d] = cwd)) | None => false end in
    let root :=
      match go_root o with
      | Some (c :: r) => c :: r
      | _ => resolve [cwd'; u "/"]
      end in
    mm ← new_Minimatch (rt_engine rt) expand pattern (minimatch_options o);
    Some {| g_pattern := pattern; g_strict := negb (bool_decide (go_strict o = Some false));
            g_realpath := go_realpath o; g_follow := go_follow o; g_dot := dot m;
            g_mark := go_nodir o || go_mark o; g_nodir := go_nodir o;
            g_nounique := go_nounique o; g_nonull := nonull m; g_nosort := go_nosort o;
            g_nocase := nocase m; g_stat := go_stat o; g_noprocess := go_noprocess o;
            g_nomount := go_nomount o;
            g_maxLength := (if (go_maxLength o =? 0)%N then None else Some (go_maxLength o));
            g_changedCwd := changed; g_cwd := cwd'; g_root := resolve [root];
            g_ignore := ignore; g_minimatch := mm |}.
End settings.

Section glob.
Variable rt : runtime.
Variable fs : fsys.
Variable self : glob_settings.

Definition makeAbs (f : jstr) : jstr :=
  if starts_with_slash f then path_join [g_root self; f]
  else if posix f || bool_decide (f = []) then f
  else if g_changedCwd self then resolve [g_cwd self; f]
  else resolve [f].

Definition isIgnored (path : jstr) : bool :=
  existsb (λ item, mm_match (rt_engine rt) (matcher item) path false
                   || match gmatcher item with
                      | Some g => mm_match (rt_engine rt) g path false
                      | None => false
                      end) (g_ignore self).
Definition childrenIgnored (path : jstr) : bool :=
  existsb (λ item, match gmatcher item with
                   | Some g => mm_match (rt_engine rt) g path false
                   | None => false
                   end) (g_ignore self).

(** ** What the walk asks *)

(** [f_readdir] is [None] when it throws, otherwise the entries if there are
    any to visit; [f_symlink] is [this.symlinks[abs]] as a condition. *)
Class Files (C : Type) := {
  f_readdir : jstr → bool → C → option (option (list jstr) * C);
  f_stat : jstr → C → bool * C;
  f_symlink : jstr → C → bool }.

(** *** With the caches of the object *)

(** [None] is the error thrown on. *)
Definition _readdirError (f : jstr) (code : jstr) (c : caches) : option caches :=
  if bool_decide (code ∈ [u "ENOTSUP"; u "ENOTDIR"]) then Some (set_cache c (makeAbs f) CFile)
  else
    let c := set_cache c (makeAbs f) CFalse in
    if bool_decide (code ∈ [u "ENOENT"; u "ELOOP"; u "ENAMETOOLONG"; u "UNKNOWN"]) then Some c
    else if g_strict self then None else Some c.

Definition child (abs e : jstr) : jstr :=
  if bool_decide (abs = u "/") then abs ++ e else abs ++ u "/" ++ e.

Definition _readdirEntries (abs : jstr) (entries : list jstr) (c : caches) : caches :=
  let c := if g_mark self || g_stat self then c
           else foldl (λ c e, set_cache c (child abs e) CTrue) c entries in
  set_cache c abs (CEntries entries).

(** [_readdir(abs, false)]. *)
Definition _readdir_plain (abs : jstr) (c : caches) : option (option (list jstr) * caches) :=
  match cache c !! abs with
  | Some CFalse | Some CFile => Some (None, c)
  | Some (CEntries l) => Some (Some l, c)
  | _ =>
      match readdirSync fs abs with
      | inl entries => Some (Some entries, _readdirEntries abs entries c)
      | inr code => c ← _readdirError abs code c; Some (None, c)
      end
  end.

Definition _readdirInGlobStar (abs : jstr) (c : caches)
    : option (option (list jstr) * caches) :=
  if g_follow self then _readdir_plain abs c
  else
    match lstatSync fs abs with
    | None => Some (None, c)
    | Some lstat =>
        let isSym := isSymbolicLink lstat in
        let c := set_symlink c abs isSym in
        if negb isSym && negb (isDirectory lstat) then Some (None, set_cache c abs CFile)
        else _readdir_plain abs c
    end.

Definition _readdir (abs : jstr) (inGlobStar : bool) (c : caches)
    : option (option (list jstr) * caches) :=
  if inGlobStar && bool_decide (symlinks c !! abs = None) then _readdirInGlobStar abs c
  else _readdir_plain abs c.

(** What [_stat] finds out of a path: the link, or what it leads to. *)
Definition full_stat (abs : jstr) : option fstat :=
  match lstatSync fs abs with
  | None => None
  | Some lstat =>
      if isSymbolicLink lstat then Some (default lstat (statSync fs abs)) else Some lstat
  end.

(** The end of [_stat]: [None] and [Some stat] are what [full_stat] gave. *)
Definition stat_result (abs : jstr) (needDir : bool) (stat : option fstat) (c : caches)
    : bool * caches :=
  match stat with
  | None => (false, c)
  | Some st =>
      let c := set_statCache c abs (Some st) in
      let k := if isDirectory st then CDir else CFile in
      let c := set_cache c abs
                 (match cache c !! abs with None | Some CFalse => k | Some old => old end) in
      (negb needDir || isDirectory st, c)
  end.

(** Whether the string is too long to be looked up. *)
Definition too_long (f : jstr) : bool :=
  match g_maxLength self with Some m => (m <? N.of_nat (length f))%N | None => false end.

Definition _stat (f : jstr) (c : caches) : bool * caches :=
  let abs := makeAbs f in
  let needDir := ends_with_slash f in
  let ask (_ : unit) :=
    stat_result abs needDir
      (match statCache c !! abs with Some (Some st) => Some st | _ => full_stat abs end) c in
  if too_long f then (false, c)
  else if g_stat self then ask tt
  else match cache c !! abs with
       | Some (CEntries _) | Some CDir => (true, c)
       | Some CFile => (negb needDir, c)
       | Some CTrue => if needDir then ask tt else (true, c)
       | Some CFalse => if needDir then ask tt else (false, c)
       | None => ask tt
       end.

#[local] Instance cached_files : Files caches := {
  f_readdir := _readdir;
  f_stat := _stat;
  f_symlink abs c := default false (symlinks c !! abs) }.

(** *** Without caches *)

(** An error that [_readdirError] does not throw on. *)
Definition tolerated (code : jstr) : bool :=
  bool_decide (code ∈ [u "ENOTSUP"; u "ENOTDIR"; u "ENOENT"; u "ELOOP"; u "ENAMETOOLONG"; u "UNKNOWN"])
  || negb (g_strict self).

Definition list_dir (abs : jstr) : option (option (list jstr)) :=
  match readdirSync fs abs with
  | inl entries => Some (Some entries)
  | inr code => if tolerated code then Some None else None
  end.

(** In a globstar only links and directories are listed, unless links are
    followed. *)
Definition read_dir (abs : jstr) (inGlobStar : bool) : option (option (list jstr)) :=
  if inGlobStar && negb (g_follow self) then
    match lstatSync fs abs with
    | None => Some None
    | Some lstat =>
        if isSymbolicLink lstat || isDirectory lstat then list_dir abs else Some None
    end
  else list_dir abs.

Definition stat_path (f : jstr) : bool :=
  if too_long f then false
  else match full_stat (makeAbs f) with
       | None => false
       | Some st => negb (ends_with_slash f) || isDirectory st
       end.

Definition is_link (abs : jstr) : bool :=
  negb (g_follow self) &&
  match lstatSync fs abs with Some st => isSymbolicLink st | None => false end.

#[local] Instance direct_files : Files unit := {
  f_readdir abs g c := (λ r, (r, c)) <$> read_dir abs g;
  f_stat f c := (stat_path f, c);
  f_symlink abs c := is_link abs }.
End glob.

(** ** The walk *)

(** The sets of matches, one per pattern of [minimatch.set]; [None] is a slot
    nothing was put in. *)
Abbreviation matches := (list (option (list jstr))).

(** [if (!this.matches[index]) this.matches[index] = Object.create(null)]. *)
Definition open_matches (index : nat) (m : matches) : matches :=
  alter (λ s, Some (default [] s)) index m.
(** [this.matches[index][e] = true], on a slot that is open. *)
Definition add_match (index : nat) (e : jstr) (m : matches) : matches :=
  alter (fmap (λ l, set_key l e)) index m.

(** How a walk ends: with its state, with an exception, or out of fuel. *)
Inductive outcome (S : Type) := Done (s : S) | Threw | NoFuel.
Arguments Done {S} s.
Arguments Threw {S}.
Arguments NoFuel {S}.

Definition and_then {S T} (r : outcome S) (k : S → outcome T) : outcome T :=
  match r with Done s => k s | Threw => Threw | NoFuel => NoFuel end.

(** A loop over an array. *)
Fixpoint for_each {S A} (f : A → S → outcome S) (l : list A) (s : S) : outcome S :=
  match l with [] => Done s | x :: l => and_then (f x s) (for_each f l) end.

(** The leading strings of a pattern, and the rest of it. *)
Fixpoint string_prefix (pattern : list elem) : list jstr * list elem :=
  match pattern with
  | Str s :: pattern => let '(p, remain) := string_prefix pattern in (s :: p, remain)
  | _ => ([], pattern)
  end.

(** An element as [join] writes it. *)
Definition elem_string (p : elem) : jstr :=
  match p with
  | Str s => s
  | GLOBSTAR => u "[object Object]"
  | Rx r => u "/" ++ source r ++ u "/" ++ (if flag_i r then u "i" else [])
  end.

Section walk.
Variable rt : runtime.
Variable self : glob_settings.
Context {C : Type} `{!Files C}.
Abbreviation St := (C * matches)%type.

(** The key a path that exists is put in the matches with. *)
Definition simple_key (path : jstr) : jstr :=
  if negb (bool_decide (path = [])) && posix path && negb (g_nomount self) then
    if starts_with_slash path then path_join [g_root self; path]
    else resolve [g_root self; path] ++ (if ends_with_slash path then u "/" else [])
  else path.

Definition _processSimple (path : jstr) (index : nat) (s : St) : outcome St :=
  let '(exists_, c) := f_stat path (fst s) in
  let m := open_matches index (snd s) in
  if negb exists_ then Done (c, m)
  else Done (c, add_match index (simple_key path) m).

(** [this.dot || rawGlob.charAt(0) === '.']; [None] is a TypeError. *)
Definition dot_ok (r : regexp) : option bool :=
  if g_dot self then Some true
  else glob ← _glob r; Some (bool_decide (head glob = Some 46%N)).

(** Whether an entry is one the element of the pattern asks for. *)
Definition entry_matches (prefix : option jstr) (r : regexp) (dotOk : bool) (e : jstr) : bool :=
  (negb (bool_decide (head e = Some 46%N)) || dotOk) &&
  let hit := re_test (rt_engine rt) (source r) (flag_i r) e in
  if mm_negate (g_minimatch self) && bool_decide (default [] prefix = []) then negb hit
  else hit.

(** The match an entry gives when it is the last part of the pattern. *)
Definition entry_key (prefix : option jstr) (e : jstr) : jstr :=
  let e :=
    match prefix with
    | Some (c :: p) => if ends_with_slash (c :: p) then (c :: p) ++ e else (c :: p) ++ u "/" ++ e
    | _ => e
    end in
  if starts_with_slash e && negb (g_nomount self) then path_join [g_root self; e] else e.

(** [prefix ? [prefix] : []]. *)
Definition prefix_parts (prefix : option jstr) : list elem :=
  match prefix with Some (c :: p) => [Str (c :: p)] | _ => [] end.

(** The prefix and the directory to read for the leading strings of a pattern:
    [None] is [null]. *)
Definition prefix_of (pattern : list elem) (strs : list jstr) : option jstr :=
  match strs with
  | [] => None
  | _ =>
      let prefix := join (u "/") strs in
      if posix prefix || posix (join (u "/") (map elem_string pattern)) then
        Some (if bool_decide (prefix = []) || negb (posix prefix) then u "/" ++ prefix
              else prefix)
      else Some prefix
  end.

Section step.
(** The recursive call of [_process]. *)
Variable process : list elem → nat → bool → St → outcome St.

Definition _processReaddir (prefix : option jstr) (abs : jstr) (r : regexp)
    (remain : list elem) (index : nat) (inGlobStar : bool) (s : St) : outcome St :=
  match f_readdir abs inGlobStar (fst s) with
  | None => Threw
  | Some (None, c) => Done (c, snd s)
  | Some (Some entries, c) =>
      match dot_ok r with
      | None => Threw
      | Some dotOk =>
          let matched := List.filter (entry_matches prefix r dotOk) entries in
          if bool_decide (matched = []) then Done (c, snd s)
          else if bool_decide (remain = []) && negb (g_mark self) && negb (g_stat self) then
            Done (c, foldl (λ m e, add_match index (entry_key prefix e) m)
                       (open_matches index (snd s)) matched)
          else
            for_each (λ e, process (prefix_parts prefix ++ Str e :: remain) index inGlobStar)
              matched (c, snd s)
      end
  end.

Definition _processGlobStar (prefix : option jstr) (abs : jstr) (remain : list elem)
    (index : nat) (inGlobStar : bool) (s : St) : outcome St :=
  match f_readdir abs inGlobStar (fst s) with
  | None => Threw
  | Some (None, c) => Done (c, snd s)
  | Some (Some entries, c) =>
      let gspref := prefix_parts prefix in
      and_then (process (gspref ++ remain) index false (c, snd s)) (λ s,
        if f_symlink abs (fst s) && inGlobStar then Done s
        else
          for_each (λ e s,
            if bool_decide (head e = Some 46%N) && negb (g_dot self) then Done s
            else
              and_then (process (gspref ++ Str e :: remain) index true s)
                (process (gspref ++ Str e :: GLOBSTAR :: remain) index true)) entries s)
  end.

(** [_process]; in [_processReaddir] and [_processGlobStar] [remain] is what
    follows the first element that is not a string. *)
Definition process_step (pattern : list elem) (index : nat) (inGlobStar : bool) (s : St)
    : outcome St :=
  let '(strs, remain) := string_prefix pattern in
  match remain with
  | [] => _processSimple (join (u "/") strs) index s
  | p :: remain =>
      let prefix := prefix_of pattern strs in
      let read := default (u ".") prefix in
      let abs := makeAbs self read in
      if childrenIgnored rt self read then Done s
      else match p with
           | GLOBSTAR => _processGlobStar prefix abs remain index inGlobStar s
           | Rx r => _processReaddir prefix abs r remain index inGlobStar s
           | Str _ => Done s (* not reached: the strings are in [strs] *)
           end
  end.
End step.

(** The depth of the recursion is bounded by the fuel. *)
Fixpoint _process (fuel : nat) (pattern : list elem) (index : nat) (inGlobStar : bool)
    (s : St) : outcome St :=
  match fuel with
  | 0 => NoFuel
  | S fuel => process_step (_process fuel) pattern index inGlobStar s
  end.

(** The loop of the constructor. *)
Fixpoint process_sets (fuel : nat) (sets : list (list elem)) (index : nat) (s : St)
    : outcome St :=
  match sets with
  | [] => Done s
  | set :: sets =>
      and_then (_process fuel set index false s) (process_sets fuel sets (S index))
  end.
End walk.

(** ** The end *)

Section finish.
Variable rt : runtime.
Variable fs : fsys.
Variable self : glob_settings.

(** [_finish] when [realpath] is set, for one set of matches. *)
Fixpoint realpaths (keys : list jstr) (set : list jstr) : option (list jstr) :=
  match keys with
  | [] => Some set
  | p :: keys =>
      let p := makeAbs self p in
      match realpathSync fs p with
      | inl real => realpaths keys (set_key set real)
      | inr true => realpaths keys (set_key set (makeAbs self p))
      | inr false => None
      end
  end.

Definition _finish (m : matches) : option matches :=
  if g_realpath self then
    mapM (λ s, match s with
               | None => Some None
               | Some l => Some <$> realpaths (object_keys l) []
               end) m
  else Some m.

(** [common.mark]. *)
Definition _mark (p : jstr) (c : caches) : jstr * caches :=
  let abs := makeAbs self p in
  match cache c !! abs with
  | None | Some CFalse => (p, c)
  | Some k =>
      let isDir := match k with CDir | CEntries _ => true | _ => false end in
      let slash := ends_with_slash p in
      let m := if isDir && negb slash then p ++ u "/"
               else if negb isDir && slash then take (length p - 1) p else p in
      (m, if bool_decide (m = p) then c
          else
            let mabs := makeAbs self m in
            set_cache (copy_statCache c abs mabs) mabs k)
  end.

Fixpoint mark_all (l : list jstr) (c : caches) : list jstr * caches :=
  match l with
  | [] => ([], c)
  | p :: l =>
      let '(m, c) := _mark p c in
      let '(ms, c) := mark_all l c in (m :: ms, c)
  end.

(** What [finish] gathers before it sorts: [literals] are the patterns that
    [nonull] puts for an empty set. *)
Definition set_keys (s : option (list jstr)) (literal : option jstr) : list jstr :=
  match object_keys (default [] s) with
  | [] => if g_nonull self then option_list literal else []
  | keys => keys
  end.

Definition gather (m : matches) (globSet : list jstr) : list jstr :=
  let l := concat (imap (λ i s, set_keys s (globSet !! i)) m) in
  if g_nounique self then l else object_keys (foldl set_key [] l).

Definition locale_order (a b : jstr) : Prop :=
  let f := λ s, if g_nocase self then toLowerCase (rt_engine rt) s else s in
  locale_le rt (f a) (f b) = true.
#[export] Instance locale_order_dec : RelDecision locale_order.
Proof. unfold locale_order. intros a b. apply _. Defined.

(** The names before they are marked. *)
Definition sorted_names (m : matches) : list jstr :=
  let all := gather m (mm_globSet (g_minimatch self)) in
  if g_nosort self then all else merge_sort locale_order all.

Definition finish (m : matches) (c : caches) : list jstr :=
  let all := sorted_names m in
  let all :=
    if g_mark self then
      let marked := (mark_all all c).1 in
      if g_nodir self then filter (λ e, ends_with_slash e = false) marked else marked
    else all in
  filter (λ e, isIgnored rt self e = false) all.
End finish.

(** ** [globSync] *)

(** [new GlobSync(pattern, options).found]: [None] is the [undefined] of
    [noprocess]. *)
Definition globSync (fuel : nat) (rt : runtime) (expand : jstr → option (list jstr)) (fs : fsys)
    (pattern : jstr) (o : glob_options) (c : caches) : outcome (option (list jstr)) :=
  if bool_decide (pattern = []) then Threw
  else match setopts rt expand pattern o with
  | None => Threw
  | Some self =>
      if g_noprocess self then Done None
      else
        let sets := mm_set (g_minimatch self) in
        and_then (process_sets (C := caches) rt self (Files0 := cached_files fs self)
                    fuel sets 0 (c, replicate (length sets) None)) (λ s,
          match _finish fs self (snd s) with
          | None => Threw
          | Some m => Done (Some (finish rt self m (fst s)))
          end)
  end.
