(* ===== verification/GlobFacts.v ===== *)
(** * The glob walker: what it finds, and that it ends

    The walk of [Glob] with its caches against the walk without, the names a
    pattern leads to as an inductive relation, the bound on its recursion, and
    the theorems about [globSync]. *)

From S2P Require Import Prelude JsString PathPosix BraceExpansion Minimatch Glob.

(** ** What the walk relies on of the file system

    Every path is missing, a directory whose entries exist, or another file;
    there are no links that lead nowhere and no directories that cannot be
    read. *)

Class FsLaws (fs : fsys) := {
  fs_listing abs :
    match full_stat fs abs with
    | None => readdirSync fs abs = inr (u "ENOENT")
    | Some st =>
        if isDirectory st
        then ∃ l, readdirSync fs abs = inl l ∧
             ∀ e, e ∈ l → is_Some (full_stat fs (child abs e))
        else readdirSync fs abs = inr (u "ENOTDIR")
    end }.

(** ** Paths *)

Lemma normalize_slashes x : isAbsolute x = true → normalize (sep ++ sep ++ x) = normalize x.
Proof.
  intros Hx. rewrite !normalize_eq. change (isAbsolute (sep ++ sep ++ x)) with true.
  rewrite Hx, !segs_sep_l. replace (trailing_slash (sep ++ sep ++ x)) with (trailing_slash x); [done|].
  unfold trailing_slash. destruct x as [|c x]; [done|]. by rewrite !last_app_ne.
Qed.

Lemma join_root x : isAbsolute x = true → path_join [u "/"; x] = normalize x.
Proof.
  intros Hx. rewrite <-normalize_slashes by done. unfold path_join. f_equal.
  destruct x as [|c x]; [done|]. unfold filter_truthy.
  rewrite filter_cons_True by done. rewrite filter_cons_True by done. done.
Qed.

Lemma isAbsolute_normalize x : isAbsolute x = true → isAbsolute (normalize x) = true.
Proof. intros Hx. rewrite normalize_eq, Hx. done. Qed.

Lemma isAbsolute_resolve l : isAbsolute (resolve l) = true.
Proof. by rewrite resolve_eq. Qed.

Lemma normalize_resolve l : normalize (resolve l) = resolve l.
Proof.
  rewrite resolve_eq. pose proof (resolved_segs_ok l) as [Hok Hp].
  destruct (decide (resolved_segs l = [])) as [->|Hne]; [done|].
  pose proof (normalize_fixed true false (resolved_segs l) Hok) as H.
  cbn [trail negb] in H. rewrite app_nil_r in H. apply H; [|done].
  rewrite normalizeArray_walk_eq. cbn [app]. unfold walk.
  rewrite (walk_fold_plain _ 0 [] Hp). cbn [snd]. by rewrite app_nil_r, reverse_involutive.
Qed.

Lemma starts_with_slash_abs f : starts_with_slash f = isAbsolute f.
Proof. done. Qed.

Lemma makeAbs_idem self f : g_root self = u "/" → makeAbs self (makeAbs self f) = makeAbs self f.
Proof.
  intros Hroot. unfold makeAbs at 2 3. rewrite Hroot, starts_with_slash_abs.
  destruct (isAbsolute f) eqn:Hf.
  - rewrite join_root by done. unfold makeAbs.
    rewrite starts_with_slash_abs, isAbsolute_normalize, Hroot, join_root by
      (try done; by apply isAbsolute_normalize). apply normalize_idem.
  - destruct (posix f || bool_decide (f = [])) eqn:Hp.
    + unfold makeAbs. by rewrite starts_with_slash_abs, Hf, Hp.
    + assert (∀ l, makeAbs self (resolve l) = resolve l) as Hr.
      { intros l. unfold makeAbs. rewrite starts_with_slash_abs, isAbsolute_resolve, Hroot.
        rewrite join_root by apply isAbsolute_resolve. apply normalize_resolve. }
      by destruct (g_changedCwd self).
Qed.

(** ** The caches tell what the file system would *)

Section caching.
Variable fs : fsys.
Context `{!FsLaws fs}.
Variable self : glob_settings.
Hypothesis Hroot : g_root self = u "/".

Definition entry_true (k : jstr) (v : cache_entry) : Prop :=
  match v with
  | CTrue => is_Some (full_stat fs k)
  | CFalse => full_stat fs k = None
  | CFile => ∃ st, full_stat fs k = Some st ∧ isDirectory st = false
  | CDir => ∃ st, full_stat fs k = Some st ∧ isDirectory st = true
  | CEntries l => readdirSync fs k = inl l
  end.

Definition caches_ok (c : caches) : Prop :=
  (∀ k v, cache c !! k = Some v → entry_true k v) ∧
  (∀ k v, statCache c !! k = Some v → full_stat fs k = v) ∧
  (∀ k b, symlinks c !! k = Some b → g_follow self = false ∧
     ∃ st, lstatSync fs k = Some st ∧ b = isSymbolicLink st).

Lemma no_caches_ok : caches_ok no_caches.
Proof. split_and!; intros ?? H; cbn in H; by rewrite lookup_empty in H. Qed.

Lemma set_cache_ok c k v : caches_ok c → entry_true k v → caches_ok (set_cache c k v).
Proof.
  intros (H1&H2&H3) Hv. split_and!; [|done..]. intros k' v'. simpl.
  destruct (decide (k = k')) as [<-|]; [rewrite lookup_insert_eq|rewrite lookup_insert_ne by done; auto].
  by intros [= <-].
Qed.

Lemma set_statCache_ok c k v : caches_ok c → full_stat fs k = v → caches_ok (set_statCache c k v).
Proof.
  intros (H1&H2&H3) Hv. split_and!; [done| |done]. intros k' v'. simpl.
  destruct (decide (k = k')) as [<-|]; [rewrite lookup_insert_eq|rewrite lookup_insert_ne by done; auto].
  by intros [= <-].
Qed.

(** What a listing gives, errors aside. *)
Definition entries_of (abs : jstr) : option (list jstr) :=
  match readdirSync fs abs with inl l => Some l | inr _ => None end.

Lemma entries_of_dir abs l :
  entries_of abs = Some l ↔ readdirSync fs abs = inl l.
Proof. unfold entries_of. split; [by destruct (readdirSync fs abs) as [?|?]; intros [= ->]|by intros ->]. Qed.

Lemma listed_is_dir abs l :
  readdirSync fs abs = inl l →
  (∃ st, full_stat fs abs = Some st ∧ isDirectory st = true) ∧
  ∀ e, e ∈ l → is_Some (full_stat fs (child abs e)).
Proof.
  intros H. pose proof (fs_listing abs) as Hl. destruct (full_stat fs abs) as [st|]; [|by rewrite H in Hl].
  destruct (isDirectory st) eqn:Hd; [|by rewrite H in Hl].
  destruct Hl as (l'&Hl'&Hc). rewrite H in Hl'. simplify_eq. eauto.
Qed.

Lemma not_dir_entries abs :
  match full_stat fs abs with Some st => isDirectory st = false | None => True end →
  entries_of abs = None.
Proof.
  pose proof (fs_listing abs) as Hl. unfold entries_of. destruct (full_stat fs abs) as [st|].
  - intros Hd. rewrite Hd in Hl. by rewrite Hl.
  - by rewrite Hl.
Qed.

Lemma readdirEntries_ok abs l c :
  caches_ok c → readdirSync fs abs = inl l → caches_ok (_readdirEntries self abs l c).
Proof.
  intros Hc Hl. pose proof (listed_is_dir abs l Hl) as [_ Hch]. unfold _readdirEntries.
  apply set_cache_ok; [|done]. destruct (g_mark self || g_stat self); [done|].
  clear Hl. revert c Hc. induction l as [|e l IH]; intros c Hc; [done|]. apply IH.
  - intros e' He'. apply Hch. by right.
  - apply set_cache_ok; [done|]. apply Hch. by left.
Qed.

Lemma readdirEntries_symlinks abs l c : symlinks (_readdirEntries self abs l c) = symlinks c.
Proof.
  unfold _readdirEntries. simpl. destruct (g_mark self || g_stat self); [done|].
  revert c. induction l as [|e l IH]; intros c; [done|]. simpl. by rewrite IH.
Qed.

Lemma readdirError_ok abs code c :
  makeAbs self abs = abs → readdirSync fs abs = inr code → caches_ok c →
  ∃ c', _readdirError self abs code c = Some c' ∧ caches_ok c' ∧ symlinks c' = symlinks c.
Proof.
  intros Habs Hr Hc. pose proof (fs_listing abs) as Hl. unfold _readdirError. rewrite Habs.
  destruct (full_stat fs abs) as [st|] eqn:Hst.
  - destruct (isDirectory st) eqn:Hd.
    + destruct Hl as (?&Hl&_). congruence.
    + assert (code = u "ENOTDIR") as -> by congruence.
      eexists; split; [by vm_compute|]. split; [|done]. apply set_cache_ok; [done|]. simpl. eauto.
  - assert (code = u "ENOENT") as -> by congruence.
    eexists; split; [by vm_compute|]. split; [|done]. by apply set_cache_ok.
Qed.

Lemma readdir_plain_ok abs c :
  makeAbs self abs = abs → caches_ok c →
  ∃ c', _readdir_plain fs self abs c = Some (entries_of abs, c') ∧ caches_ok c' ∧
        symlinks c' = symlinks c.
Proof.
  intros Habs Hc. unfold _readdir_plain.
  assert (∃ c', match readdirSync fs abs with
      | inl entries => Some (Some entries, _readdirEntries self abs entries c)
      | inr code => c ← _readdirError self abs code c; Some (None, c)
      end = Some (entries_of abs, c') ∧ caches_ok c' ∧ symlinks c' = symlinks c) as Hask.
  { unfold entries_of. destruct (readdirSync fs abs) as [l|code] eqn:Hr.
    - eexists; split; [done|]. split; [by apply readdirEntries_ok|apply readdirEntries_symlinks].
    - destruct (readdirError_ok abs code c Habs Hr Hc) as (c'&->&?&?). by exists c'. }
  destruct (cache c !! abs) as [v|] eqn:Hv; [|done].
  pose proof (proj1 Hc abs v Hv) as He. destruct v; simpl in He; try done.
  - exists c. by rewrite not_dir_entries by (by rewrite He).
  - exists c. destruct He as (st&Hst&Hd). by rewrite not_dir_entries by (by rewrite Hst).
  - exists c. unfold entries_of. by rewrite He.
Qed.

Lemma set_symlink_ok c k st :
  caches_ok c → g_follow self = false → lstatSync fs k = Some st →
  caches_ok (set_symlink c k (isSymbolicLink st)).
Proof.
  intros (H1&H2&H3) Hf Hl. split_and!; [done..|]. intros k' v'. simpl.
  destruct (decide (k = k')) as [<-|]; [rewrite lookup_insert_eq|rewrite lookup_insert_ne by done; auto].
  intros [= <-]. eauto.
Qed.

Lemma readdir_ok abs g c :
  makeAbs self abs = abs → caches_ok c →
  ∃ c', _readdir fs self abs g c = Some (entries_of abs, c') ∧ caches_ok c' ∧
        symlinks c ⊆ symlinks c' ∧
        (g = true → is_Some (entries_of abs) →
           default false (symlinks c' !! abs) = is_link fs self abs).
Proof.
  intros Habs Hc. unfold _readdir.
  destruct (g && bool_decide (symlinks c !! abs = None)) eqn:Hg.
  - bool_clean. subst g. unfold _readdirInGlobStar.
    destruct (g_follow self) eqn:Hf.
    + destruct (readdir_plain_ok abs c Habs Hc) as (c'&->&Hc'&Hs). exists c'.
      split_and!; [done..|by rewrite Hs|]. intros _ _. unfold is_link. rewrite Hf, Hs. by rewrite H0.
    + destruct (lstatSync fs abs) as [st|] eqn:Hl.
      * pose proof (set_symlink_ok c abs st Hc Hf Hl) as Hc1.
        assert (symlinks c ⊆ symlinks (set_symlink c abs (isSymbolicLink st))) as Hsub
          by by apply insert_subseteq.
        assert (default false (symlinks (set_symlink c abs (isSymbolicLink st)) !! abs)
                = is_link fs self abs) as Hlink.
        { simpl. rewrite lookup_insert_eq. unfold is_link. by rewrite Hf, Hl. }
        destruct (negb (isSymbolicLink st) && negb (isDirectory st)) eqn:Hb.
        -- bool_clean. assert (full_stat fs abs = Some st) as Hst.
           { unfold full_stat. rewrite Hl. by rewrite H. }
           eexists. rewrite not_dir_entries by (by rewrite Hst). split_and!; [done| |done|done].
           apply set_cache_ok; [done|]. simpl. eauto.
        -- destruct (readdir_plain_ok abs _ Habs Hc1) as (c'&->&Hc'&Hs). exists c'.
           rewrite Hs. done.
      * exists c. assert (full_stat fs abs = None) as Hst by (unfold full_stat; by rewrite Hl).
        rewrite not_dir_entries by (by rewrite Hst). split_and!; [done..|]. by intros _ [].
  - destruct (readdir_plain_ok abs c Habs Hc) as (c'&->&Hc'&Hs). exists c'.
    rewrite Hs. split_and!; [done..|]. intros -> _. bool_clean.
    destruct (symlinks c !! abs) as [b|] eqn:Hb; [|done].
    destruct (proj2 (proj2 Hc) abs b Hb) as (Hf&st&Hl&->). unfold is_link. by rewrite Hf, Hl.
Qed.

Lemma read_dir_eq abs g : read_dir fs self abs g = Some (entries_of abs).
Proof.
  assert (list_dir fs self abs = Some (entries_of abs)) as Hld.
  { unfold list_dir, entries_of. pose proof (fs_listing abs) as Hl.
    destruct (full_stat fs abs) as [st|]; [destruct (isDirectory st)|].
    - by destruct Hl as (l&->&_).
    - by rewrite Hl.
    - by rewrite Hl. }
  unfold read_dir. destruct (g && negb (g_follow self)); [|done].
  destruct (lstatSync fs abs) as [st|] eqn:Hl.
  - destruct (isSymbolicLink st || isDirectory st) eqn:Hb; [done|]. bool_clean.
    rewrite not_dir_entries; [done|]. unfold full_stat. by rewrite Hl, H.
  - rewrite not_dir_entries; [done|]. unfold full_stat. by rewrite Hl.
Qed.

Lemma stat_result_ok abs needDir c :
  caches_ok c →
  ∃ c', stat_result abs needDir (full_stat fs abs) c =
    (match full_stat fs abs with None => false | Some st => negb needDir || isDirectory st end, c') ∧
    caches_ok c' ∧ symlinks c' = symlinks c.
Proof.
  intros Hc. unfold stat_result. destruct (full_stat fs abs) as [st|] eqn:Hst; [|by exists c].
  eexists. split; [done|]. split; [|done]. pose proof (set_statCache_ok c abs (Some st) Hc Hst) as Hc1.
  apply set_cache_ok; [done|]. pose proof (proj1 Hc1 abs) as Hk.
  destruct (cache (set_statCache c abs (Some st)) !! abs) as [[]|]; simpl;
    try (by specialize (Hk _ eq_refl)); by destruct (isDirectory st) eqn:Hd; exists st.
Qed.

Lemma stat_ok f c :
  caches_ok c →
  ∃ c', _stat fs self f c = (stat_path fs self f, c') ∧ caches_ok c' ∧ symlinks c' = symlinks c.
Proof.
  intros Hc. unfold _stat, stat_path. destruct (too_long self f); [by exists c|].
  set (abs := makeAbs self f). set (nd := ends_with_slash f).
  assert ((match statCache c !! abs with Some (Some st) => Some st | _ => full_stat fs abs end)
          = full_stat fs abs) as ->.
  { destruct (statCache c !! abs) as [[st|]|] eqn:E; [|done..]. symmetry.
    by apply (proj1 (proj2 Hc)). }
  pose proof (stat_result_ok abs nd c Hc) as Hask.
  destruct (g_stat self); [done|]. destruct (cache c !! abs) as [v|] eqn:Hv; [|done].
  pose proof (proj1 Hc abs v Hv) as He. destruct v; simpl in He.
  - destruct nd; [done|]. exists c. by destruct He as [st ->].
  - destruct nd; [done|]. exists c. by rewrite He.
  - destruct He as (st&->&->). exists c. by rewrite orb_false_r.
  - destruct He as (st&->&->). exists c. by rewrite orb_true_r.
  - destruct (listed_is_dir abs _ He) as [(st&->&->) _]. exists c. by rewrite orb_true_r.
Qed.
End caching.

(** ** The caches change nothing of a walk *)

Section simulation.
Variable rt : runtime.
Variable fs : fsys.
Context `{!FsLaws fs}.
Variable self : glob_settings.
Hypothesis Hroot : g_root self = u "/".

Abbreviation cached := (cached_files fs self).
Abbreviation direct := (direct_files fs self).

(** From the caches [c], a cached walk and the direct one end alike. *)
Definition simulates (c : caches) (r : outcome (caches * matches)) (r' : outcome (unit * matches)) :
    Prop :=
  match r with
  | Done (c', m) => caches_ok fs self c' ∧ symlinks c ⊆ symlinks c' ∧ r' = Done (tt, m)
  | Threw => r' = Threw
  | NoFuel => r' = NoFuel
  end.

Lemma simulates_done c c' m :
  caches_ok fs self c' → symlinks c ⊆ symlinks c' → simulates c (Done (c', m)) (Done (tt, m)).
Proof. done. Qed.

Lemma simulates_weaken c c' r r' :
  symlinks c ⊆ symlinks c' → simulates c' r r' → simulates c r r'.
Proof. destruct r as [[c1 m]| |]; [|done..]. intros H (?&?&?). split_and!; [done|by etrans|done]. Qed.

Lemma simulates_and_then c r r' k k' :
  simulates c r r' →
  (∀ c1 m, caches_ok fs self c1 → symlinks c ⊆ symlinks c1 →
     simulates c1 (k (c1, m)) (k' (tt, m))) →
  simulates c (and_then r k) (and_then r' k').
Proof.
  destruct r as [[c1 m]| |]; simpl; [|by intros ->..]. intros (Hc&Hs&->) H. simpl.
  eapply simulates_weaken; [done|by apply H].
Qed.

Lemma simulates_for_each {A} (f : A → caches * matches → _) (f' : A → unit * matches → _) l c m :
  (∀ x c1 m1, caches_ok fs self c1 → symlinks c ⊆ symlinks c1 →
     simulates c1 (f x (c1, m1)) (f' x (tt, m1))) →
  caches_ok fs self c → simulates c (for_each f l (c, m)) (for_each f' l (tt, m)).
Proof.
  revert c m. induction l as [|x l IH]; intros c m Hf Hc; [by apply simulates_done|].
  simpl. apply simulates_and_then; [by apply Hf|]. intros c1 m1 Hc1 Hs. apply IH; [|done].
  intros y c2 m2 Hc2 Hs2. apply Hf; [done|by etrans].
Qed.

Lemma process_simulates fuel pattern index g c m :
  caches_ok fs self c →
  simulates c (_process rt self (Files0 := cached) fuel pattern index g (c, m))
    (_process rt self (Files0 := direct) fuel pattern index g (tt, m)).
Proof.
  revert pattern index g c m. induction fuel as [|fuel IH]; intros pattern index g c m Hc; [done|].
  cbn [_process]. unfold process_step.
  destruct (string_prefix pattern) as [strs [|p remain]].
  { unfold _processSimple. cbn [fst snd f_stat cached_files direct_files].
    destruct (stat_ok fs self (join (u "/") strs) c Hc) as (c'&->&Hc'&Hs).
    assert (symlinks c ⊆ symlinks c') by by rewrite Hs.
    by destruct (stat_path _ _ _). }
  set (prefix := prefix_of pattern strs). set (abs := makeAbs self (default (u ".") prefix)).
  destruct (childrenIgnored _ _ _); [by apply simulates_done|].
  assert (makeAbs self abs = abs) as Habs by by apply makeAbs_idem.
  destruct (readdir_ok fs self abs g c Habs Hc) as (c'&Hr&Hc'&Hs&Hlink).
  destruct p as [|s|r]; [|by apply simulates_done|].
  - unfold _processGlobStar. cbn [fst snd f_readdir cached_files direct_files].
    rewrite Hr, read_dir_eq by done. cbn [fmap option_fmap option_map].
    destruct (entries_of fs abs) as [entries|] eqn:He; [|by apply simulates_done].
    eapply simulates_weaken; [done|]. apply simulates_and_then; [by apply IH|].
    intros c1 m1 Hc1 Hs1. cbn [fst snd f_symlink cached_files direct_files].
    assert (default false (symlinks c1 !! abs) && g = is_link fs self abs && g) as ->.
    { destruct g; [|by rewrite !andb_false_r]. rewrite <-Hlink by done. f_equal.
      destruct (symlinks c1 !! abs) as [b|] eqn:Hb1.
      - rewrite Hlink by done. destruct (proj2 (proj2 Hc1) abs b Hb1) as (Hf&st&Hl&->).
        unfold is_link. by rewrite Hf, Hl.
      - destruct (symlinks c' !! abs) as [b|] eqn:Hb; [|done].
        by rewrite (lookup_weaken _ _ _ _ Hb Hs1) in Hb1. }
    destruct (is_link fs self abs && g); [by apply simulates_done|].
    apply simulates_for_each; [|done]. intros e c2 m2 Hc2 Hs2.
    destruct (_ && _); [by apply simulates_done|].
    apply simulates_and_then; [by apply IH|]. intros c3 m3 Hc3 _. by apply IH.
  - unfold _processReaddir. cbn [fst snd f_readdir cached_files direct_files].
    rewrite Hr, read_dir_eq by done. cbn [fmap option_fmap option_map].
    destruct (entries_of fs abs) as [entries|] eqn:He; [|by apply simulates_done].
    destruct (dot_ok self r) as [dotOk|]; [|done]. cbv zeta.
    case_bool_decide; [by apply simulates_done|].
    destruct (_ && _ && _); [by apply simulates_done|].
    eapply simulates_weaken; [done|]. apply simulates_for_each; [|done].
    intros e c2 m2 Hc2 Hs2. by apply IH.
Qed.

Lemma sets_simulate fuel sets index c m :
  caches_ok fs self c →
  simulates c (process_sets rt self (Files0 := cached) fuel sets index (c, m))
    (process_sets rt self (Files0 := direct) fuel sets index (tt, m)).
Proof.
  revert index c m. induction sets as [|set sets IH]; intros index c m Hc; [by apply simulates_done|].
  cbn [process_sets]. apply simulates_and_then; [by apply process_simulates|].
  intros c1 m1 Hc1 _. by apply IH.
Qed.
End simulation.

(** ** What a pattern finds

    [finds pattern inGlobStar k]: [k] is the name of a path that [pattern]
    leads to.  Leading strings are a path to look up; a regular expression
    stands for one entry of the directory so far; a globstar for no part at
    all, for any entry, or for an entry and more of the same. *)

Lemma string_prefix_rest pattern strs s remain : string_prefix pattern ≠ (strs, Str s :: remain).
Proof.
  revert strs. induction pattern as [|[|s'|r] pattern IH]; intros strs; simpl; [done..| |done].
  destruct (string_prefix pattern) as [p' r'] eqn:E. intros [= _ ->]. by eapply IH.
Qed.

Lemma elem_set_key l k x : x ∈ set_key l k ↔ x ∈ l ∨ x = k.
Proof.
  unfold set_key. case_bool_decide; [naive_solver|]. by rewrite elem_of_app, list_elem_of_singleton.
Qed.

Section finding.
Variable rt : runtime.
Variable fs : fsys.
Variable self : glob_settings.

(** The directory that a pattern reads first, when its children are not
    ignored, and the entries there. *)
Definition lists (pattern : list elem) (inGlobStar : bool) (prefix : option jstr)
    (p : elem) (remain : list elem) (entries : list jstr) : Prop :=
  let strs := (string_prefix pattern).1 in
  (string_prefix pattern).2 = p :: remain ∧ prefix = prefix_of pattern strs ∧
  childrenIgnored rt self (default (u ".") prefix) = false ∧
  read_dir fs self (makeAbs self (default (u ".") prefix)) inGlobStar = Some (Some entries).

(** An entry the regular expression picks. *)
Definition picks (prefix : option jstr) (r : regexp) (entries : list jstr) (e : jstr) : Prop :=
  ∃ dotOk, dot_ok self r = Some dotOk ∧ e ∈ entries ∧ entry_matches rt self prefix r dotOk e = true.

(** No part of the pattern is left and nothing asks for a look at the path. *)
Definition last_part (remain : list elem) : bool :=
  bool_decide (remain = []) && negb (g_mark self) && negb (g_stat self).

Inductive finds : list elem → bool → jstr → Prop :=
| finds_path pattern g strs :
    string_prefix pattern = (strs, []) → stat_path fs self (join (u "/") strs) = true →
    finds pattern g (simple_key self (join (u "/") strs))
| finds_last pattern g prefix r remain entries e :
    lists pattern g prefix (Rx r) remain entries → picks prefix r entries e →
    last_part remain = true → finds pattern g (entry_key self prefix e)
| finds_entry pattern g prefix r remain entries e k :
    lists pattern g prefix (Rx r) remain entries → picks prefix r entries e →
    last_part remain = false →
    finds (prefix_parts prefix ++ Str e :: remain) g k → finds pattern g k
| finds_nothing pattern g prefix remain entries k :
    lists pattern g prefix GLOBSTAR remain entries →
    finds (prefix_parts prefix ++ remain) false k → finds pattern g k
| finds_below pattern g prefix remain entries e more k :
    lists pattern g prefix GLOBSTAR remain entries →
    is_link fs self (makeAbs self (default (u ".") prefix)) && g = false →
    e ∈ entries → bool_decide (head e = Some 46%N) && negb (g_dot self) = false →
    finds (prefix_parts prefix ++ Str e :: (if more : bool then [GLOBSTAR] else []) ++ remain)
      true k →
    finds pattern g k.

Abbreviation direct := (direct_files fs self).

Definition in_matches (m : matches) (j : nat) (k : jstr) : Prop :=
  ∃ l, m !! j = Some (Some l) ∧ k ∈ l.

(** What a step of the walk adds to the matches of its pattern. *)
Definition adds (index : nat) (P : jstr → Prop) (m m' : matches) : Prop :=
  length m' = length m ∧
  ∀ j k, in_matches m' j k ↔ in_matches m j k ∨ (j = index ∧ P k).

Lemma adds_refl index m : adds index (λ _, False) m m.
Proof. split; [done|]. intros j k. naive_solver. Qed.

Lemma adds_mono index (P Q : jstr → Prop) m m' : (∀ k, P k ↔ Q k) → adds index P m m' → adds index Q m m'.
Proof. intros HPQ [Hl H]. split; [done|]. intros j k. rewrite H. naive_solver. Qed.

Lemma adds_trans index P Q m m1 m2 :
  adds index P m m1 → adds index Q m1 m2 → adds index (λ k, P k ∨ Q k) m m2.
Proof. intros [Hl1 H1] [Hl2 H2]. split; [congruence|]. intros j k. rewrite H2, H1. naive_solver. Qed.

Lemma open_adds index m : adds index (λ _, False) m (open_matches index m).
Proof.
  split; [apply length_alter|]. intros j k. unfold in_matches, open_matches.
  destruct (decide (j = index)) as [->|Hj]; [|rewrite list_lookup_alter_ne by congruence; naive_solver].
  rewrite list_lookup_alter_eq. destruct (m !! index) as [[l|]|]; simpl; [naive_solver| |naive_solver].
  split; [|naive_solver]. by intros (l&[= <-]&?%not_elem_of_nil).
Qed.

Lemma add_open_adds index e m :
  (∃ l, m !! index = Some (Some l)) →
  adds index (λ k, k = e) m (add_match index e m) ∧
  ∃ l, add_match index e m !! index = Some (Some l).
Proof.
  intros [l0 Hl0]. unfold add_match. split.
  - split; [apply length_alter|]. intros j k. unfold in_matches.
    destruct (decide (j = index)) as [->|Hj]; [|rewrite list_lookup_alter_ne by congruence; naive_solver].
    rewrite list_lookup_alter_eq, Hl0. simpl. split.
    + intros (l&[= <-]&Hk%elem_set_key). naive_solver.
    + intros Hk. eexists; split; [done|]. apply elem_set_key. naive_solver.
  - rewrite list_lookup_alter_eq, Hl0. simpl. eauto.
Qed.

Lemma open_is_open index m : index < length m → ∃ l, open_matches index m !! index = Some (Some l).
Proof.
  intros [x Hx]%lookup_lt_is_Some_2. unfold open_matches. rewrite list_lookup_alter_eq, Hx. simpl. eauto.
Qed.

Lemma fold_add_adds {A} index (f : A → jstr) l m :
  (∃ l, m !! index = Some (Some l)) →
  adds index (λ k, ∃ e, e ∈ l ∧ k = f e) m (foldl (λ m e, add_match index (f e) m) m l).
Proof.
  revert m. induction l as [|e l IH]; intros m Hm; simpl.
  - eapply adds_mono; [|apply adds_refl]. intros k. set_solver.
  - destruct (add_open_adds index (f e) m Hm) as [Ha Hm'].
    eapply adds_mono; [|eapply adds_trans; [exact Ha|by apply IH]].
    intros k. simpl. setoid_rewrite elem_of_cons. naive_solver.
Qed.

Lemma for_each_adds {A} index (f : A → unit * matches → outcome (unit * matches)) P l m m' :
  (∀ x m m', x ∈ l → index < length m → f x (tt, m) = Done (tt, m') → adds index (P x) m m') →
  index < length m → for_each f l (tt, m) = Done (tt, m') →
  adds index (λ k, ∃ x, x ∈ l ∧ P x k) m m'.
Proof.
  revert m. induction l as [|x l IH]; intros m Hf Hi; simpl.
  - intros [= <-]. eapply adds_mono; [|apply adds_refl]. set_solver.
  - destruct (f x (tt, m)) as [[[] m1]| |] eqn:Hx; [|done..]. simpl. intros Hr.
    assert (adds index (P x) m m1) as H1 by (apply Hf; [by left|done|done]).
    eapply adds_mono; [|eapply adds_trans; [exact H1|apply IH; [|by rewrite (proj1 H1)|done]]].
    + intros k. simpl. setoid_rewrite elem_of_cons. naive_solver.
    + intros y ? ? Hy. apply Hf. by right.
Qed.

Lemma lists_det pattern g pre pre' p p' remain remain' es es' :
  lists pattern g pre p remain es → lists pattern g pre' p' remain' es' →
  pre = pre' ∧ p = p' ∧ remain = remain' ∧ es = es'.
Proof.
  intros (H1&H2&_&H3) (H1'&H2'&_&H3'). assert (pre = pre') as <- by congruence.
  split_and!; congruence.
Qed.

Lemma finds_path_inv pattern g strs k :
  string_prefix pattern = (strs, []) →
  finds pattern g k ↔
    stat_path fs self (join (u "/") strs) = true ∧ k = simple_key self (join (u "/") strs).
Proof.
  intros Hp. split.
  - inversion 1 as [? ? ? Hs Hst| ? ? ? ? ? ? ? Hl|? ? ? ? ? ? ? ? Hl|? ? ? ? ? ? Hl|? ? ? ? ? ? ? ? Hl]; subst;
      try (destruct Hl as [Hl _]; by rewrite Hp in Hl).
    rewrite Hp in Hs. by simplify_eq.
  - intros [Hs ->]. by eapply finds_path.
Qed.

(** The case of a pattern whose first element that is not a string is known. *)
Ltac finds_cases Hl :=
  inversion 1 as [? ? ? Hs Hst| ? ? ? ? ? ? ? Hl'|? ? ? ? ? ? ? ? Hl'|? ? ? ? ? ? Hl'|? ? ? ? ? ? ? ? Hl'];
    subst;
    [destruct Hl as [Hl _]; by rewrite Hs in Hl
    |destruct (lists_det _ _ _ _ _ _ _ _ _ _ Hl Hl') as (?&?&?&?); simplify_eq ..].

Lemma finds_readdir_inv pattern g prefix r remain es k :
  lists pattern g prefix (Rx r) remain es →
  finds pattern g k ↔
    if last_part remain then ∃ e, picks prefix r es e ∧ k = entry_key self prefix e
    else ∃ e, picks prefix r es e ∧ finds (prefix_parts prefix ++ Str e :: remain) g k.
Proof.
  intros Hl. split.
  - finds_cases Hl; match goal with H : last_part _ = _ |- _ => rewrite H end; eauto.
  - destruct (last_part remain) eqn:Hlast.
    + intros (e&He&->). by eapply finds_last.
    + intros (e&He&Hk). by eapply finds_entry.
Qed.

Lemma finds_globstar_inv pattern g prefix remain es k :
  lists pattern g prefix GLOBSTAR remain es →
  finds pattern g k ↔
    finds (prefix_parts prefix ++ remain) false k ∨
    is_link fs self (makeAbs self (default (u ".") prefix)) && g = false ∧
    ∃ e, e ∈ es ∧ bool_decide (head e = Some 46%N) && negb (g_dot self) = false ∧
      (finds (prefix_parts prefix ++ Str e :: remain) true k ∨
       finds (prefix_parts prefix ++ Str e :: GLOBSTAR :: remain) true k).
Proof.
  intros Hl. split.
  - finds_cases Hl; [by left|]. right. split; [done|]. exists e. split_and!; [done..|].
    destruct more; [by right|by left].
  - intros [Hk|(Hlink&e&He&Hd&[Hk|Hk])].
    + by eapply finds_nothing.
    + by eapply (finds_below _ _ _ _ _ _ false).
    + by eapply (finds_below _ _ _ _ _ _ true).
Qed.

(** A pattern whose directory cannot be visited finds nothing. *)
Lemma finds_nothing_inv pattern g p remain k :
  (string_prefix pattern).2 = p :: remain →
  (∀ prefix p remain es, ¬ lists pattern g prefix p remain es) → ¬ finds pattern g k.
Proof.
  intros Hp Hno. inversion 1 as [? ? ? Hs Hst| | | |]; subst; [by rewrite Hs in Hp|by eapply Hno..].
Qed.

Lemma processSimple_adds strs pattern g index m m' :
  string_prefix pattern = (strs, []) → index < length m →
  _processSimple self (Files0 := direct) (join (u "/") strs) index (tt, m) = Done (tt, m') →
  adds index (finds pattern g) m m'.
Proof.
  intros Hp Hi. unfold _processSimple. cbn [fst snd f_stat direct_files].
  destruct (stat_path fs self (join (u "/") strs)) eqn:Hst; cbn [negb]; intros [= <-].
  - eapply adds_mono; [|eapply adds_trans; [apply open_adds|apply add_open_adds, open_is_open, Hi]].
    intros k. rewrite (finds_path_inv _ _ _ _ Hp), Hst. naive_solver.
  - eapply adds_mono; [|apply open_adds]. intros k. rewrite (finds_path_inv _ _ _ _ Hp), Hst. naive_solver.
Qed.

Section step.
Variable process : list elem → nat → bool → unit * matches → outcome (unit * matches).
Hypothesis IH : ∀ pattern index g m m', index < length m →
  process pattern index g (tt, m) = Done (tt, m') → adds index (finds pattern g) m m'.

Lemma processReaddir_adds pattern g prefix abs r remain index m m' es :
  lists pattern g prefix (Rx r) remain es → abs = makeAbs self (default (u ".") prefix) →
  index < length m →
  _processReaddir rt self (Files0 := direct) process prefix abs r remain index g (tt, m)
    = Done (tt, m') →
  adds index (finds pattern g) m m'.
Proof.
  intros Hl -> Hi. unfold _processReaddir. cbn [fst snd f_readdir direct_files].
  rewrite (proj2 (proj2 (proj2 Hl))). cbn [fmap option_fmap option_map].
  destruct (dot_ok self r) as [dotOk|] eqn:Hdot; [|done]. cbv zeta.
  set (matched := List.filter _ es).
  assert (∀ e, e ∈ matched ↔ picks prefix r es e) as Hm.
  { intros e. unfold matched, picks. rewrite list_elem_of_In, List.filter_In, <-list_elem_of_In.
    rewrite Hdot. naive_solver. }
  case_bool_decide as Hnil.
  { intros [= <-]. eapply adds_mono; [|apply adds_refl]. intros k.
    rewrite (finds_readdir_inv _ _ _ _ _ _ k Hl).
    destruct (last_part remain); (split; [done|]); intros (e&He%Hm&_);
      rewrite Hnil in He; by apply not_elem_of_nil in He. }
  fold (last_part remain). destruct (last_part remain) eqn:Hlast.
  - intros [= <-]. eapply adds_mono;
      [|eapply adds_trans; [apply open_adds|apply fold_add_adds, open_is_open, Hi]].
    intros k. rewrite finds_readdir_inv, Hlast by done. setoid_rewrite <-Hm. naive_solver.
  - intros Hr. eapply adds_mono;
      [|eapply (for_each_adds index _
          (λ e, finds (prefix_parts prefix ++ Str e :: remain) g)); [|exact Hi|exact Hr]].
    + intros k. rewrite finds_readdir_inv, Hlast by done. setoid_rewrite <-Hm. done.
    + intros e m1 m2 _ Hi1. by apply IH.
Qed.

Lemma processGlobStar_adds pattern g prefix abs remain index m m' es :
  lists pattern g prefix GLOBSTAR remain es → abs = makeAbs self (default (u ".") prefix) →
  index < length m →
  _processGlobStar self (Files0 := direct) process prefix abs remain index g (tt, m)
    = Done (tt, m') →
  adds index (finds pattern g) m m'.
Proof.
  intros Hl -> Hi. unfold _processGlobStar. cbn [fst snd f_readdir direct_files].
  rewrite (proj2 (proj2 (proj2 Hl))). cbn [fmap option_fmap option_map].
  destruct (process (prefix_parts prefix ++ remain) index false (tt, m)) as [[[] m1]| |] eqn:H1;
    [|done..]. cbn [and_then fst snd f_symlink direct_files].
  apply IH in H1; [|done]. destruct (is_link _ _ _ && g) eqn:Hlink.
  - intros [= <-]. eapply adds_mono; [|exact H1]. intros k.
    rewrite (finds_globstar_inv _ _ _ _ _ k Hl), Hlink. naive_solver.
  - intros Hr. eapply adds_mono; [|eapply adds_trans; [exact H1|
      eapply (for_each_adds index _ (λ e k,
        bool_decide (head e = Some 46%N) && negb (g_dot self) = false ∧
        (finds (prefix_parts prefix ++ Str e :: remain) true k ∨
         finds (prefix_parts prefix ++ Str e :: GLOBSTAR :: remain) true k)));
      [|by rewrite (proj1 H1)|exact Hr]]].
    + intros k. rewrite (finds_globstar_inv _ _ _ _ _ k Hl), Hlink. naive_solver.
    + intros e m2 m3 _ Hi2. cbn beta.
      destruct (bool_decide (head e = Some 46%N) && negb (g_dot self)).
      * intros [= <-]. eapply adds_mono; [|apply adds_refl]. naive_solver.
      * destruct (process _ index true (tt, m2)) as [[[] m4]| |] eqn:H4; [|done..].
        cbn [and_then]. intros H5. apply IH in H4; [|done].
        apply IH in H5; [|by rewrite (proj1 H4)].
        eapply adds_mono; [|eapply adds_trans; [exact H4|exact H5]]. naive_solver.
Qed.
End step.

Lemma process_adds fuel pattern index g m m' :
  index < length m →
  _process rt self (Files0 := direct) fuel pattern index g (tt, m) = Done (tt, m') →
  adds index (finds pattern g) m m'.
Proof.
  revert pattern index g m m'. induction fuel as [|fuel IH]; intros pattern index g m m' Hi; [done|].
  cbn [_process]. unfold process_step.
  destruct (string_prefix pattern) as [strs [|p remain]] eqn:Hp; [by apply processSimple_adds|].
  set (prefix := prefix_of pattern strs). set (abs := makeAbs self (default (u ".") prefix)).
  assert (∀ prefix' p' remain' es', lists pattern g prefix' p' remain' es' →
    prefix' = prefix ∧ p' = p ∧ remain' = remain ∧ childrenIgnored rt self (default (u ".") prefix) = false ∧
    read_dir fs self abs g = Some (Some es')) as Hlists.
  { intros ? ? ? ? (H1&->&H2&H3). rewrite Hp in *. simpl in *. by simplify_eq. }
  assert ((childrenIgnored rt self (default (u ".") prefix) = true ∨ ∀ es, read_dir fs self abs g ≠ Some (Some es)) →
    adds index (finds pattern g) m m) as Hnone.
  { intros Hno. eapply adds_mono; [|apply adds_refl]. intros k. split; [done|].
    intros Hk. eapply (finds_nothing_inv _ _ p remain _); [by rewrite Hp| |exact Hk].
    intros ? ? ? ? Hl. destruct (Hlists _ _ _ _ Hl) as (_&_&_&Hc&Hr).
    destruct Hno as [Hno|Hno]; [congruence|by eapply Hno]. }
  destruct (childrenIgnored rt self (default (u ".") prefix)) eqn:Hign.
  { intros [= <-]. apply Hnone. by left. }
  destruct p as [|s|r].
  - destruct (read_dir fs self abs g) as [[es|]|] eqn:Hr.
    + apply (processGlobStar_adds _ IH _ _ prefix abs _ _ _ _ es); [|done|done].
      unfold lists. by rewrite Hp.
    + unfold _processGlobStar. cbn [fst snd f_readdir direct_files]. rewrite Hr.
      intros [= <-]. apply Hnone. right. congruence.
    + unfold _processGlobStar. cbn [fst snd f_readdir direct_files]. by rewrite Hr.
  - by destruct (string_prefix_rest pattern strs s remain).
  - destruct (read_dir fs self abs g) as [[es|]|] eqn:Hr.
    + apply (processReaddir_adds _ IH _ _ prefix abs _ _ _ _ _ es); [|done|done].
      unfold lists. by rewrite Hp.
    + unfold _processReaddir. cbn [fst snd f_readdir direct_files]. rewrite Hr.
      intros [= <-]. apply Hnone. right. congruence.
    + unfold _processReaddir. cbn [fst snd f_readdir direct_files]. by rewrite Hr.
Qed.

Lemma sets_adds fuel sets index m m' :
  index + length sets ≤ length m →
  process_sets rt self (Files0 := direct) fuel sets index (tt, m) = Done (tt, m') →
  length m' = length m ∧
  ∀ j k, in_matches m' j k ↔ in_matches m j k ∨
    ∃ i pattern, sets !! i = Some pattern ∧ j = index + i ∧ finds pattern false k.
Proof.
  revert index m. induction sets as [|set sets IH]; intros index m Hlen; cbn [process_sets].
  { intros [= <-]. split; [done|]. intros j k. split; [by left|]. intros [?|(?&?&?&_)]; done. }
  simpl in Hlen. destruct (_process _ _ _ _ _ _ _) as [[[] m1]| |] eqn:H1; [|done..]. cbn [and_then].
  intros Hr. apply process_adds in H1 as [Hl1 H1]; [|lia].
  apply IH in Hr as [Hl2 H2]; [|lia]. split; [congruence|]. intros j k. rewrite H2, H1. split.
  - intros [[?|[-> ?]]|(i&pat&?&->&?)]; [by left| |].
    + right. exists 0, set. split_and!; [done|lia|done].
    + right. exists (S i), pat. split_and!; [done|lia|done].
  - intros [?|([|i]&pat&?&->&?)]; [by left; left| |]; simplify_eq/=.
    + left. right. split; [lia|done].
    + right. exists i, pat. split_and!; [done|lia|done].
Qed.
End finding.

(** ** The walk ends *)

Lemma walk_step_plain st e : plain e → (walk_step st e).2 = e :: st.2.
Proof.
  intros [H1 H2]. destruct st as [d l]. unfold walk_step.
  by rewrite decide_False, decide_False by done.
Qed.

Lemma segs_one e : seg_ok e → segs e = [e].
Proof. intros He. apply (segs_join [e]). by constructor. Qed.

Lemma segs_child p e : seg_ok e → segs (p ++ u "/" ++ e) = segs p ++ [e].
Proof.
  intros He. change (p ++ u "/" ++ e) with (p ++ slash :: e).
  by rewrite segs_app_slash, (segs_one e He).
Qed.

Lemma resolved_segs_snoc l rel :
  isAbsolute rel = false →
  resolved_segs (l ++ [rel]) =
    reverse (foldl walk_step (walk (segs_of (relevant (reverse l ++ [cwd])))) (segs rel)).2.
Proof.
  intros Hrel. unfold resolved_segs. rewrite reverse_app. change (reverse [rel]) with [rel].
  cbn [app relevant]. rewrite Hrel. unfold walk. by rewrite segs_of_snoc, foldl_app.
Qed.

Lemma segs_resolve l : segs (resolve l) = resolved_segs l.
Proof. rewrite resolve_eq, segs_sep_l, segs_join; [done|]. apply resolved_segs_ok. Qed.

Lemma segs_resolve_child l p e :
  isAbsolute p = false → isAbsolute (p ++ u "/" ++ e) = false → seg_ok e → plain e →
  segs (resolve (l ++ [p ++ u "/" ++ e])) = segs (resolve (l ++ [p])) ++ [e].
Proof.
  intros Hp Hpe He Hpl. rewrite !segs_resolve, !resolved_segs_snoc by done.
  rewrite segs_child by done. rewrite foldl_app. cbn [foldl].
  by rewrite walk_step_plain, reverse_cons by done.
Qed.

Lemma segs_normalize x : isAbsolute x = true → segs (normalize x) = reverse (walk (segs x)).2.
Proof.
  intros Hx. rewrite normalize_eq, Hx. cbn [negb]. rewrite segs_trail_l.
  rewrite normalizeArray_walk_eq. cbn [app]. case_decide as Hd; [by rewrite Hd|].
  rewrite segs_trail_r, segs_join; [done|].
  apply reverse_Forall, Forall_forall. intros s Hs%walk_in.
  pose proof (segs_ok x) as H. rewrite Forall_forall in H. auto.
Qed.

Section depth.
Variable self : glob_settings.
Hypothesis Hroot : g_root self = u "/".

(** How deep a path is. *)
Definition depth (f : jstr) : nat := length (segs (makeAbs self f)).

Lemma head_app_ne (p q : jstr) : p ≠ [] → head (p ++ q) = head p.
Proof. by destruct p. Qed.

Lemma isAbsolute_app p q : p ≠ [] → isAbsolute (p ++ q) = isAbsolute p.
Proof. intros Hp. unfold isAbsolute. by rewrite head_app_ne. Qed.

Lemma makeAbs_cases f :
  makeAbs self f =
    if isAbsolute f then normalize f
    else if bool_decide (f = []) then f
    else resolve ((if g_changedCwd self then [g_cwd self] else []) ++ [f]).
Proof.
  unfold makeAbs. rewrite Hroot, starts_with_slash_abs. destruct (isAbsolute f) eqn:Ha.
  - by apply join_root.
  - change (posix f) with (isAbsolute f). rewrite Ha. by destruct (g_changedCwd self).
Qed.

Lemma depth_child p e :
  p ≠ [] → seg_ok e → plain e → depth (p ++ u "/" ++ e) = S (depth p).
Proof.
  intros Hp He Hpl. unfold depth. rewrite !makeAbs_cases, isAbsolute_app by done.
  rewrite (bool_decide_eq_false_2 (p = [])), (bool_decide_eq_false_2 (p ++ u "/" ++ e = []))
    by (by destruct p).
  assert (isAbsolute (p ++ u "/" ++ e) = isAbsolute p) as Hpe by by apply isAbsolute_app.
  destruct (isAbsolute p) eqn:Ha.
  - rewrite !segs_normalize, segs_child by done. unfold walk. rewrite foldl_app. cbn [foldl].
    rewrite walk_step_plain, reverse_cons, length_app by done. simpl. lia.
  - rewrite segs_resolve_child, length_app by done. simpl. lia.
Qed.

Lemma seg_not_absolute e : seg_ok e → e ≠ [] ∧ isAbsolute e = false.
Proof.
  intros [He Hs]. split; [done|]. apply bool_decide_eq_false_2. destruct e as [|c e]; [done|].
  intros [= ->]. apply Hs. by left.
Qed.

Lemma depth_dot e : seg_ok e → plain e → depth e = S (depth (u ".")).
Proof.
  intros He Hpl. destruct (seg_not_absolute e He) as [Hne Ha].
  unfold depth. rewrite !makeAbs_cases, Ha. change (isAbsolute (u ".")) with false.
  rewrite (bool_decide_eq_false_2 (e = [])) by done. change (bool_decide (u "." = [])) with false.
  rewrite !segs_resolve, !resolved_segs_snoc, segs_one by done.
  change (segs (u ".")) with [u "."]. cbn [foldl].
  rewrite walk_step_plain, reverse_cons, length_app by done.
  destruct (walk _) as [d l']. simpl. lia.
Qed.
End depth.

Section termination.
Variable rt : runtime.
Variable fs : fsys.
Context `{!FsLaws fs}.
Variable self : glob_settings.
Hypothesis Hroot : g_root self = u "/".
Variable D : nat.
(** Entries have names, and only so many parts can be below each other. *)
Hypothesis Hnames : ∀ abs l e, readdirSync fs abs = inl l → e ∈ l → seg_ok e ∧ plain e.
Hypothesis Hdepth : ∀ abs l, readdirSync fs abs = inl l → length (segs abs) ≤ D.

Abbreviation direct := (direct_files fs self).

Definition is_magic (p : elem) : bool := match p with Str _ => false | _ => true end.
Definition magic (pattern : list elem) : nat := length (List.filter is_magic pattern).
Definition first_read (pattern : list elem) : jstr :=
  default (u ".") (prefix_of pattern (string_prefix pattern).1).

(** More than the depth of the recursion on a pattern. *)
Definition bound (pattern : list elem) : nat :=
  magic pattern * (D + 2) + (D + 1 - depth self (first_read pattern)).

Lemma magic_app a b : magic (a ++ b) = magic a + magic b.
Proof. unfold magic. by rewrite List.filter_app, length_app. Qed.

Lemma magic_prefix_parts prefix : magic (prefix_parts prefix) = 0.
Proof. by destruct prefix as [[|]|]. Qed.

Lemma string_prefix_magic pattern :
  magic pattern = magic (string_prefix pattern).2.
Proof.
  induction pattern as [|[|s|r] pattern IH]; [done..| |done]. simpl.
  destruct (string_prefix pattern) as [strs rest]. exact IH.
Qed.

Lemma posix_join s l : s ≠ [] → posix (join (u "/") (s :: l)) = isAbsolute s.
Proof.
  intros Hs. change posix with isAbsolute. destruct l as [|x l]; [done|].
  change (join (u "/") (s :: x :: l)) with (s ++ u "/" ++ join (u "/") (x :: l)).
  by apply isAbsolute_app.
Qed.

Lemma below_deeper prefix e remain :
  seg_ok e → plain e →
  depth self (default (u ".") prefix) <
    depth self (first_read (prefix_parts prefix ++ Str e :: GLOBSTAR :: remain)).
Proof.
  intros He Hpl. destruct (seg_not_absolute e He) as [Hne Ha]. unfold first_read.
  assert (prefix_of (Str e :: GLOBSTAR :: remain) [e] = Some e) as Hone.
  { unfold prefix_of. cbn [map elem_string]. rewrite !(posix_join e) by done. by rewrite Ha. }
  destruct prefix as [[|c p]|]; cbn [prefix_parts app string_prefix fst].
  - rewrite Hone. cbn [from_option id]. rewrite (depth_dot _ Hroot e) by done.
    unfold depth. rewrite (makeAbs_cases _ Hroot). simpl. lia.
  - cbn [from_option id]. set (q := c :: p). assert (q ≠ []) as Hq by done.
    assert (prefix_of (Str q :: Str e :: GLOBSTAR :: remain) [q; e] = Some (q ++ u "/" ++ e)) as ->.
    { unfold prefix_of. cbn [map elem_string]. rewrite !(posix_join q) by done.
      change (join (u "/") [q; e]) with (q ++ u "/" ++ e).
      rewrite (bool_decide_eq_false_2 (q ++ u "/" ++ e = [])) by done.
      by destruct (isAbsolute q). }
    cbn [from_option id]. rewrite (depth_child _ Hroot q e) by done. lia.
  - rewrite Hone. cbn [from_option id]. rewrite (depth_dot _ Hroot e) by done. lia.
Qed.

Lemma for_each_total {A S} (f : A → S → outcome S) l s :
  (∀ x s, x ∈ l → f x s ≠ NoFuel) → for_each f l s ≠ NoFuel.
Proof.
  revert s. induction l as [|x l IH]; intros s Hf; simpl; [done|].
  pose proof (Hf x s ltac:(by left)) as Hx. destruct (f x s); [|done..]. simpl.
  apply IH. intros y s' Hy. apply Hf. by right.
Qed.

Lemma process_total fuel pattern index g s :
  bound pattern < fuel →
  _process rt self (Files0 := direct) fuel pattern index g s ≠ NoFuel.
Proof.
  revert pattern index g s. induction fuel as [|fuel IH]; intros pattern index g s Hb; [lia|].
  cbn [_process]. unfold process_step.
  pose proof (string_prefix_magic pattern) as Hmag. unfold bound, first_read in Hb.
  destruct (string_prefix pattern) as [strs [|p remain]] eqn:Hp.
  { unfold _processSimple. destruct (f_stat _ _) as [[] c]; done. }
  cbn [fst snd] in *. set (prefix := prefix_of pattern strs) in *.
  destruct (childrenIgnored _ _ _); [done|].
  set (read := default (u ".") prefix) in *.
  assert (∀ q, magic q < magic pattern → bound q < fuel) as Hless.
  { intros q Hq. unfold bound. nia. }
  destruct p as [|x|r]; [|done|].
  - unfold _processGlobStar. cbn [f_readdir direct_files]. rewrite read_dir_eq by done.
    cbn [fmap option_fmap option_map].
    destruct (entries_of fs (makeAbs self read)) as [es|] eqn:Hes; [|done].
    apply entries_of_dir in Hes. pose proof (Hdepth _ _ Hes) as Hd. fold (depth self read) in Hd.
    assert (∀ l b s', magic l = 0 → _process rt self (Files0 := direct) fuel
      (prefix_parts prefix ++ l ++ remain) index b s' ≠ NoFuel) as Hskip.
    { intros l b s' Hl. apply IH, Hless. rewrite !magic_app, magic_prefix_parts, Hl, Hmag.
      unfold magic. simpl. lia. }
    pose proof (Hskip [] false (fst s, snd s) eq_refl) as H0. cbn [app] in H0.
    destruct (_process _ _ _ _ _ _ _) as [s1| |]; [|done..]. cbn [and_then].
    destruct (_ && _); [done|]. apply for_each_total. intros e s2 He.
    destruct (Hnames _ _ _ Hes He) as [Hok Hpl].
    destruct (_ && _); [done|]. pose proof (Hskip [Str e] true s2 eq_refl) as H1. cbn [app] in H1.
    destruct (_process _ _ _ _ _ _ _) as [s3| |]; [|done..]. cbn [and_then].
    apply IH. pose proof (below_deeper prefix e remain Hok Hpl) as Hdeep. fold read in Hdeep.
    unfold bound. rewrite magic_app, magic_prefix_parts.
    assert (magic (Str e :: GLOBSTAR :: remain) = magic pattern) as -> by (rewrite Hmag; done).
    lia.
  - unfold _processReaddir. cbn [f_readdir direct_files]. rewrite read_dir_eq by done.
    cbn [fmap option_fmap option_map].
    destruct (entries_of fs (makeAbs self read)) as [es|]; [|done].
    destruct (dot_ok self r); [|done]. cbv zeta. case_bool_decide; [done|].
    destruct (_ && _ && _); [done|]. apply for_each_total. intros e s2 _.
    apply IH, Hless. rewrite magic_app, magic_prefix_parts, Hmag. unfold magic. simpl. lia.
Qed.

Lemma sets_total fuel sets index s :
  Forall (λ p, bound p < fuel) sets →
  process_sets rt self (Files0 := direct) fuel sets index s ≠ NoFuel.
Proof.
  intros Hf. revert index s. induction Hf as [|p sets Hp _ IH]; intros index s; [done|].
  cbn [process_sets]. pose proof (process_total fuel p index false s Hp) as H.
  destruct (_process _ _ _ _ _ _ _); [apply IH|done..].
Qed.
End termination.

Section no_exceptions.
Variable rt : runtime.
Variable fs : fsys.
Context `{!FsLaws fs}.
Variable self : glob_settings.

Abbreviation direct := (direct_files fs self).

(** An element [_processReaddir] can test entries against. *)
Definition testable (p : elem) : Prop :=
  match p with Rx r => is_Some (dot_ok self r) | _ => True end.

Lemma string_prefix_testable pattern :
  Forall testable pattern → Forall testable (string_prefix pattern).2.
Proof.
  induction 1 as [|[|s|r] pattern Hp Hall IH]; [done|by constructor| |by constructor].
  simpl. by destruct (string_prefix pattern).
Qed.

Lemma prefix_parts_testable prefix : Forall testable (prefix_parts prefix).
Proof. destruct prefix as [[|]|]; repeat constructor. Qed.

Lemma for_each_no_throw {A S} (f : A → S → outcome S) l s :
  (∀ x s, f x s ≠ Threw) → for_each f l s ≠ Threw.
Proof.
  intros Hf. revert s. induction l as [|x l IH]; intros s; simpl; [done|].
  pose proof (Hf x s) as Hx. destruct (f x s); [apply IH|done..].
Qed.

Lemma process_no_throw fuel pattern index g s :
  Forall testable pattern →
  _process rt self (Files0 := direct) fuel pattern index g s ≠ Threw.
Proof.
  revert pattern index g s. induction fuel as [|fuel IH]; intros pattern index g s Hok; [done|].
  cbn [_process]. unfold process_step. pose proof (string_prefix_testable pattern Hok) as Hrest.
  destruct (string_prefix pattern) as [strs [|p remain]].
  { unfold _processSimple. destruct (f_stat _ _) as [[] c]; done. }
  cbn [snd] in Hrest. apply Forall_cons in Hrest as [Hp Hrest].
  destruct (childrenIgnored _ _ _); [done|].
  assert (∀ prefix l b s', Forall testable l → _process rt self (Files0 := direct) fuel
    (prefix_parts prefix ++ l ++ remain) index b s' ≠ Threw) as Hsub.
  { intros prefix l b s' Hl. apply IH. rewrite !Forall_app.
    split_and!; [apply prefix_parts_testable|done..]. }
  destruct p as [|x|r]; [|done|].
  - unfold _processGlobStar. cbn [f_readdir direct_files]. rewrite read_dir_eq by done.
    cbn [fmap option_fmap option_map]. destruct (entries_of _ _) as [es|]; [|done].
    set (prefix := prefix_of _ _).
    pose proof (Hsub prefix [] false (fst s, snd s) ltac:(constructor)) as H0. cbn [app] in H0.
    destruct (_process _ _ _ _ _ _ _) as [s1| |]; [|done..]. cbn [and_then].
    destruct (_ && _); [done|]. apply for_each_no_throw. intros e s2. destruct (_ && _); [done|].
    pose proof (Hsub prefix [Str e] true s2 ltac:(repeat constructor)) as H1. cbn [app] in H1.
    destruct (_process _ _ _ _ _ _ _) as [s3| |]; [|done..]. cbn [and_then].
    apply (Hsub prefix [Str e; GLOBSTAR]). repeat constructor.
  - unfold _processReaddir. cbn [f_readdir direct_files]. rewrite read_dir_eq by done.
    cbn [fmap option_fmap option_map]. destruct (entries_of _ _) as [es|]; [|done].
    destruct Hp as [dotOk ->]. cbv zeta. case_bool_decide; [done|].
    destruct (_ && _ && _); [done|]. apply for_each_no_throw. intros e s2.
    set (prefix := prefix_of _ _). apply (Hsub prefix [Str e]). repeat constructor.
Qed.

Lemma sets_no_throw fuel sets index s :
  Forall (Forall testable) sets →
  process_sets rt self (Files0 := direct) fuel sets index s ≠ Threw.
Proof.
  intros Hf. revert index s. induction Hf as [|p sets Hp _ IH]; intros index s; [done|].
  cbn [process_sets]. pose proof (process_no_throw fuel p index false s Hp) as H.
  destruct (_process _ _ _ _ _ _ _); [apply IH|done..].
Qed.
End no_exceptions.

(** ** The matches, put together *)

Lemma object_keys_perm l : object_keys l ≡ₚ l.
Proof.
  unfold object_keys.
  assert (map snd (merge_sort index_le (omap (λ s, (λ n, (n, s)) <$> array_index s) l))
          ≡ₚ filter (λ s, ¬ array_index s = None) l) as ->.
  { rewrite merge_sort_Permutation. induction l as [|s l IH]; [done|]. simpl.
    destruct (array_index s) eqn:Hs; simpl.
    - rewrite filter_cons_True by congruence. by rewrite IH.
    - rewrite filter_cons_False by tauto. done. }
  rewrite (comm (++)). induction l as [|s l IH]; [done|].
  destruct (decide (array_index s = None)) as [Hs|Hs].
  - rewrite filter_cons_True, filter_cons_False by tauto. simpl. by f_equiv.
  - rewrite filter_cons_False, filter_cons_True by done.
    rewrite <-Permutation_middle. by f_equiv.
Qed.

Lemma fold_set_key l acc :
  NoDup acc →
  NoDup (foldl set_key acc l) ∧ ∀ k, k ∈ foldl set_key acc l ↔ k ∈ acc ∨ k ∈ l.
Proof.
  revert acc. induction l as [|x l IH]; intros acc Hn; simpl; [split; [done|set_solver]|].
  destruct (IH (set_key acc x)) as [H1 H2].
  - unfold set_key. case_bool_decide; [done|]. apply NoDup_app. split_and!; [done| |apply NoDup_singleton].
    intros y Hy ->%list_elem_of_singleton. done.
  - split; [done|]. intros k. rewrite H2, elem_set_key, elem_of_cons. naive_solver.
Qed.

Section gathering.
Variable rt : runtime.
Variable self : glob_settings.
Hypothesis Hnull : g_nonull self = false.

Lemma elem_gather m globSet k : k ∈ gather self m globSet ↔ ∃ i, in_matches m i k.
Proof.
  assert (∀ s lit, set_keys self s lit = object_keys (default [] s)) as Hkeys.
  { intros s lit. unfold set_keys. rewrite Hnull. by destruct (object_keys _). }
  assert (k ∈ concat (imap (λ i s, set_keys self s (globSet !! i)) m) ↔ ∃ i, in_matches m i k) as Hc.
  { rewrite list_elem_of_In, in_concat. split.
    - intros (l&Hl%list_elem_of_In&Hk%list_elem_of_In).
      apply elem_of_lookup_imap_1 in Hl as (i&s&->&Hs). rewrite Hkeys in Hk.
      rewrite object_keys_perm in Hk. destruct s as [l|]; [|by apply not_elem_of_nil in Hk].
      exists i, l. done.
    - intros (i&l&Hl&Hk). exists (set_keys self (Some l) (globSet !! i)). split.
      + apply list_elem_of_In. by apply (elem_of_lookup_imap_2 (λ i s, set_keys self s (globSet !! i)) m).
      + apply list_elem_of_In. rewrite Hkeys. by rewrite object_keys_perm. }
  unfold gather. destruct (g_nounique self); [done|]. rewrite object_keys_perm.
  rewrite (proj2 (fold_set_key _ [] NoDup_nil_2)), Hc. set_solver.
Qed.

Lemma gather_nodup m globSet : g_nounique self = false → NoDup (gather self m globSet).
Proof.
  intros Hu. unfold gather. rewrite Hu, object_keys_perm. apply fold_set_key, NoDup_nil_2.
Qed.

Lemma elem_finish m c k :
  g_mark self = false →
  k ∈ finish rt self m c ↔ isIgnored rt self k = false ∧ ∃ i, in_matches m i k.
Proof.
  intros Hm. unfold finish, sorted_names. rewrite Hm, list_elem_of_filter. f_equiv.
  rewrite <-(elem_gather m (mm_globSet (g_minimatch self))).
  destruct (g_nosort self); [done|]. by rewrite merge_sort_Permutation.
Qed.

Lemma finish_nodup m c : g_mark self = false → g_nounique self = false → NoDup (finish rt self m c).
Proof.
  intros Hm Hu. unfold finish, sorted_names. rewrite Hm. apply NoDup_filter.
  destruct (g_nosort self); [|rewrite merge_sort_Permutation]; by apply gather_nodup.
Qed.
End gathering.

Lemma root_default rt expand pattern o self :
  setopts rt expand pattern o = Some self → default [] (go_root o) = [] → g_root self = u "/".
Proof.
  intros Hs Hr. unfold setopts in Hs. destruct (_ && noglobstar _); [done|].
  destruct (setupIgnores _ _ _); [|done]. cbn [mbind option_bind] in Hs.
  destruct (new_Minimatch _ _ _ _); [|done]. cbn [mbind option_bind] in Hs. injection Hs as <-.
  cbn [g_root].
  assert (∀ d, resolve [resolve [d; u "/"]] = u "/") as Hd.
  { intros d. rewrite (resolve_eq [d; u "/"]). done. }
  destruct (go_root o) as [[|c r]|]; [apply Hd|done|apply Hd].
Qed.

Lemma setopts_fields rt expand pattern o self :
  setopts rt expand pattern o = Some self →
  g_realpath self = go_realpath o ∧ g_mark self = go_nodir o || go_mark o ∧
  g_nonull self = nonull (go_minimatch o) ∧ g_nounique self = go_nounique o.
Proof.
  intros Hs. unfold setopts in Hs. destruct (_ && noglobstar _); [done|].
  destruct (setupIgnores _ _ _); [|done]. cbn [mbind option_bind] in Hs.
  destruct (new_Minimatch _ _ _ _); [|done]. cbn [mbind option_bind] in Hs. by injection Hs as <-.
Qed.

(** ** Properties *)

(** Fuel for the patterns of a walk over paths of [D] parts at most. *)
Definition walk_fuel (self : glob_settings) (D : nat) : nat :=
  S (max_list (map (bound self D) (mm_set (g_minimatch self)))).

Lemma walk_fuel_enough self D fuel :
  walk_fuel self D ≤ fuel →
  Forall (λ p, bound self D p < fuel) (mm_set (g_minimatch self)).
Proof.
  intros Hf. apply Forall_forall. intros p Hp.
  assert (bound self D p ≤ max_list (map (bound self D) (mm_set (g_minimatch self)))) as Hle.
  { apply max_list_elem_of_le, list_elem_of_fmap. eauto. }
  unfold walk_fuel in Hf. lia.
Qed.

(** C5: With the root "/" (the option [root] at its default), on a file system
    without broken links or unreadable directories, a walk with the caches of
    [GlobSync], from any caches that tell the truth, ends as the walk that asks
    the file system every time: with the same matches and caches that still
    tell the truth, or with the same exception.  (Another root breaks this: a
    failed listing is remembered for a path to which the root has been added a
    second time.) *)
Theorem glob_caches_transparent (rt : runtime) (fs : fsys) (self : glob_settings)
    (fuel : nat) (sets : list (list elem)) (index : nat) (c : caches) (m : matches) :
  FsLaws fs → g_root self = u "/" → caches_ok fs self c →
  match process_sets rt self (Files0 := cached_files fs self) fuel sets index (c, m) with
  | Done (c', m') =>
      caches_ok fs self c' ∧
      process_sets rt self (Files0 := direct_files fs self) fuel sets index (tt, m) = Done (tt, m')
  | Threw => process_sets rt self (Files0 := direct_files fs self) fuel sets index (tt, m) = Threw
  | NoFuel => process_sets rt self (Files0 := direct_files fs self) fuel sets index (tt, m) = NoFuel
  end.
Proof.
  intros Hfs Hroot Hc. pose proof (sets_simulate rt fs self Hroot fuel sets index c m Hc) as H.
  destruct (process_sets _ _ _ _ _ (c, m)) as [[c' m']| |]; [|done..].
  by destruct H as (?&_&?).
Qed.

(** What the sets hold when a walk has ended. *)
Lemma globSync_done rt expand fs pattern o self c fuel found :
  FsLaws fs → setopts rt expand pattern o = Some self → caches_ok fs self c →
  default [] (go_root o) = [] → go_realpath o = false →
  globSync fuel rt expand fs pattern o c = Done (Some found) →
  ∃ c' m, found = finish rt self m c' ∧
    ∀ i k, in_matches m i k ↔
      ∃ set, mm_set (g_minimatch self) !! i = Some set ∧ finds rt fs self set false k.
Proof.
  intros Hfs Hs Hc Hr Hreal Hg.
  assert (g_root self = u "/") as Hroot by by eapply root_default.
  destruct (setopts_fields _ _ _ _ _ Hs) as (Hreal'&_). rewrite Hreal in Hreal'.
  unfold globSync in Hg. rewrite Hs in Hg. destruct (bool_decide _); [done|].
  destruct (g_noprocess self); [done|]. cbv zeta in Hg.
  set (sets := mm_set (g_minimatch self)) in *.
  pose proof (sets_simulate rt fs self Hroot fuel sets 0 c (replicate (length sets) None) Hc) as Hsim.
  destruct (process_sets _ _ _ _ _ (c, _)) as [[c' m]| |]; [|done..].
  destruct Hsim as (_&_&Hd). cbn [and_then snd fst] in Hg.
  unfold _finish in Hg. rewrite Hreal' in Hg. injection Hg as <-.
  apply sets_adds in Hd as [_ Hm]; [|by rewrite length_replicate].
  exists c', m. split; [done|]. intros i k. rewrite Hm. split.
  - intros [(l&Hl&_)|(j&set&Hset&->&Hk)]; [by apply lookup_replicate in Hl as [? _]|by exists set].
  - intros (set&Hset&Hk). right. by exists i, set.
Qed.

(** C6: on such a file system, [globSync] without [mark], [realpath], [nonull]
    and a root of its own finds exactly the names its patterns lead to, the
    ignored ones left out, and each once unless [nounique] is set. *)
Theorem globSync_finds (rt : runtime) (expand : jstr → option (list jstr)) (fs : fsys)
    (pattern : jstr) (o : glob_options) (self : glob_settings) (c : caches) (fuel : nat)
    (found : list jstr) :
  FsLaws fs → setopts rt expand pattern o = Some self → caches_ok fs self c →
  default [] (go_root o) = [] → go_realpath o = false → go_mark o = false →
  go_nodir o = false → nonull (go_minimatch o) = false →
  globSync fuel rt expand fs pattern o c = Done (Some found) →
  (∀ k, k ∈ found ↔ isIgnored rt self k = false ∧
     ∃ set, set ∈ mm_set (g_minimatch self) ∧ finds rt fs self set false k) ∧
  (go_nounique o = false → NoDup found).
Proof.
  intros Hfs Hs Hc Hr Hreal Hmark Hdir Hnull Hg.
  destruct (setopts_fields _ _ _ _ _ Hs) as (_&Hmark'&Hnull'&Huniq).
  rewrite Hdir, Hmark in Hmark'. rewrite Hnull in Hnull'. simpl in Hmark'.
  destruct (globSync_done _ _ _ _ _ _ _ _ _ Hfs Hs Hc Hr Hreal Hg) as (c'&m&->&Hm). split.
  - intros k. rewrite elem_finish by done. f_equiv. setoid_rewrite Hm. split.
    + intros (i&set&Hset&Hk). exists set. split; [by eapply list_elem_of_lookup_2|done].
    + intros (set&[i Hset]%list_elem_of_lookup_1&Hk). by exists i, set.
  - intros Hu. apply finish_nodup; congruence.
Qed.

(** [globSync] ends: on such a file system, where entries have proper
    names and no listing lies deeper than [D] parts, the recursion is never
    deeper than [walk_fuel], whatever globstars and links there are; and it
    ends with a list when its regular expressions were valid and [realpath] is
    not asked for. *)
Theorem globSync_terminates (rt : runtime) (expand : jstr → option (list jstr)) (fs : fsys)
    (pattern : jstr) (o : glob_options) (self : glob_settings) (c : caches) (D fuel : nat) :
  FsLaws fs → setopts rt expand pattern o = Some self → caches_ok fs self c →
  default [] (go_root o) = [] →
  (∀ abs l e, readdirSync fs abs = inl l → e ∈ l → seg_ok e ∧ plain e) →
  (∀ abs l, readdirSync fs abs = inl l → length (segs abs) ≤ D) →
  walk_fuel self D ≤ fuel →
  globSync fuel rt expand fs pattern o c ≠ NoFuel ∧
  (pattern ≠ [] → go_realpath o = false → g_noprocess self = false →
   Forall (Forall (testable self)) (mm_set (g_minimatch self)) →
   ∃ found, globSync fuel rt expand fs pattern o c = Done (Some found)).
Proof.
  intros Hfs Hs Hc Hr Hnames Hdepth Hfuel.
  assert (g_root self = u "/") as Hroot by by eapply root_default.
  destruct (setopts_fields _ _ _ _ _ Hs) as (Hreal&_).
  unfold globSync. rewrite Hs. cbv zeta. set (sets := mm_set (g_minimatch self)).
  pose proof (sets_simulate rt fs self Hroot fuel sets 0 c (replicate (length sets) None) Hc) as Hsim.
  pose proof (sets_total rt fs self Hroot D Hnames Hdepth fuel sets 0
    (tt, replicate (length sets) None) (walk_fuel_enough self D fuel Hfuel)) as Htot.
  pose proof (sets_no_throw rt fs self fuel sets 0 (tt, replicate (length sets) None)) as Hthr.
  split.
  - destruct (bool_decide _); [done|]. destruct (g_noprocess self); [done|].
    destruct (process_sets _ _ _ _ _ (c, _)) as [[c' m]| |]; cbn [and_then];
      [by destruct (_finish _ _ _)|done|by rewrite Hsim in Htot].
  - intros Hp Hrp Hnp Hok. rewrite bool_decide_eq_false_2, Hnp by done. specialize (Hthr Hok).
    destruct (process_sets _ _ _ _ _ (c, _)) as [[c' m]| |]; cbn [and_then];
      [|by rewrite Hsim in Hthr|by rewrite Hsim in Htot].
    unfold _finish. rewrite Hreal, Hrp. eauto.
Qed.

(** ** An example *)

(** "/a.txt" and "/d/b.txt", and an engine that knows one expression. *)
Definition sample_fs : fsys :=
  let stat p :=
    if bool_decide (p ∈ [u "/"; u "/d"]) then
      Some {| isDirectory := true; isSymbolicLink := false |}
    else if bool_decide (p ∈ [u "/a.txt"; u "/d/b.txt"]) then
      Some {| isDirectory := false; isSymbolicLink := false |}
    else None in
  {| lstatSync := stat; statSync := stat;
     readdirSync p :=
       if bool_decide (p = u "/") then inl [u "a.txt"; u "d"]
       else if bool_decide (p = u "/d") then inl [u "b.txt"]
       else if bool_decide (p ∈ [u "/a.txt"; u "/d/b.txt"]) then inr (u "ENOTDIR")
       else inr (u "ENOENT");
     realpathSync p := inl p |}.

Definition sample_runtime : runtime :=
  {| rt_engine :=
       {| re_valid _ := true;
          re_test _ _ s := bool_decide (drop (length s - 4) s = u ".txt");
          toLowerCase s := s |};
     locale_le := jstr_leb |}.

Definition sample_options : glob_options :=
  {| go_minimatch := no_options; go_nonegate := None; go_nocomment := None; go_strict := None;
     go_realpath := false; go_follow := false; go_mark := false; go_nodir := false;
     go_nounique := false; go_nosort := false; go_stat := false; go_noprocess := false;
     go_nomount := false; go_maxLength := 0; go_ignore := []; go_cwd := None; go_root := None |}.

Definition sample_expand (p : jstr) : option (list jstr) := Some [p].

Definition sample_self : glob_settings := Eval vm_compute in
  match setopts sample_runtime sample_expand (u "**/*.txt") sample_options as r
    return match r with Some _ => glob_settings | None => unit end
  with Some self => self | None => tt end.

Lemma sample_fs_laws : FsLaws sample_fs.
Proof.
  split. intros abs. unfold full_stat, sample_fs. cbv zeta. cbn [lstatSync statSync readdirSync].
  destruct (bool_decide_reflect (abs ∈ [u "/"; u "/d"])) as [Hd|Hd].
  - cbn [isSymbolicLink isDirectory].
    apply elem_of_cons in Hd as [->|Hd]; [|apply list_elem_of_singleton in Hd as ->].
    + eexists; split; [done|]. intros e He.
      apply elem_of_cons in He as [->|He]; [|apply list_elem_of_singleton in He as ->]; by eexists.
    + eexists; split; [done|]. intros e ->%list_elem_of_singleton. by eexists.
  - rewrite (bool_decide_eq_false_2 (abs = u "/")) by (intros ->; apply Hd; by left).
    rewrite (bool_decide_eq_false_2 (abs = u "/d")) by (intros ->; apply Hd; by right; left).
    by destruct (bool_decide (abs ∈ [u "/a.txt"; u "/d/b.txt"])).
Qed.

Lemma sample_listing abs l :
  readdirSync sample_fs abs = inl l →
  (abs = u "/" ∧ l = [u "a.txt"; u "d"]) ∨ (abs = u "/d" ∧ l = [u "b.txt"]).
Proof.
  unfold sample_fs. cbv zeta. cbn [readdirSync].
  case_bool_decide; [naive_solver|]. case_bool_decide; [naive_solver|]. by case_bool_decide.
Qed.

Lemma sample_names abs l e :
  readdirSync sample_fs abs = inl l → e ∈ l → seg_ok e ∧ plain e.
Proof.
  assert (∀ s, bool_decide (s ≠ [] ∧ PathPosix.slash ∉ s ∧ s ≠ u "." ∧ s ≠ u "..") = true →
    seg_ok s ∧ plain s) as Hok.
  { intros s (?&?&?&?)%bool_decide_eq_true_1. done. }
  intros [[_ ->]|[_ ->]]%sample_listing He; apply Hok;
    repeat (apply elem_of_cons in He as [->|He]; [by vm_compute|]); by apply not_elem_of_nil in He.
Qed.

Lemma sample_depth abs l : readdirSync sample_fs abs = inl l → length (segs abs) ≤ 1.
Proof. intros [[-> _]|[-> _]]%sample_listing; vm_compute; lia. Qed.

Lemma glob_caches_transparent_witness :
  match process_sets sample_runtime sample_self (Files0 := cached_files sample_fs sample_self) 20
          (mm_set (g_minimatch sample_self)) 0 (no_caches, [None]) with
  | Done (c, m) => m = [Some [u "a.txt"; u "d/b.txt"]] ∧
      process_sets sample_runtime sample_self (Files0 := direct_files sample_fs sample_self) 20
        (mm_set (g_minimatch sample_self)) 0 (tt, [None]) = Done (tt, m)
  | _ => False
  end.
Proof.
  pose proof (glob_caches_transparent sample_runtime sample_fs sample_self 20
    (mm_set (g_minimatch sample_self)) 0 no_caches [None] sample_fs_laws eq_refl
    (no_caches_ok sample_fs sample_self)) as H.
  destruct (process_sets _ _ _ _ _ (no_caches, _)) as [[c m]| |] eqn:E; [|by vm_compute in E..].
  destruct H as [_ H]. split; [|exact H]. vm_compute in E. by injection E as _ <-.
Defined.

Lemma globSync_finds_witness :
  globSync 20 sample_runtime sample_expand sample_fs (u "**/*.txt") sample_options no_caches
    = Done (Some [u "a.txt"; u "d/b.txt"]) ∧
  ∃ set, set ∈ mm_set (g_minimatch sample_self) ∧
    finds sample_runtime sample_fs sample_self set false (u "d/b.txt").
Proof.
  split; [by vm_compute|].
  apply (globSync_finds sample_runtime sample_expand sample_fs (u "**/*.txt") sample_options
    sample_self no_caches 20 [u "a.txt"; u "d/b.txt"] sample_fs_laws
    ltac:(by vm_compute) (no_caches_ok _ _) eq_refl eq_refl eq_refl eq_refl eq_refl
    ltac:(by vm_compute)). right; left.
Defined.

Lemma globSync_terminates_witness :
  ∃ found, globSync (walk_fuel sample_self 1) sample_runtime sample_expand sample_fs
    (u "**/*.txt") sample_options no_caches = Done (Some found).
Proof.
  apply (globSync_terminates sample_runtime sample_expand sample_fs (u "**/*.txt")
    sample_options sample_self no_caches 1 (walk_fuel sample_self 1) sample_fs_laws
    ltac:(by vm_compute) (no_caches_ok _ _) eq_refl sample_names sample_depth (le_n _));
    [done..|]. vm_compute. repeat constructor. by eexists.
Defined.

(** A link that leads nowhere breaks the agreement: a failed attempt to list it
    is remembered as a missing path.  "l" alone is found, after "l/*" it is
    not. *)
Definition broken_link_fs : fsys :=
  let stat p :=
    if bool_decide (p = u "/") then Some {| isDirectory := true; isSymbolicLink := false |}
    else None in
  {| lstatSync p :=
       if bool_decide (p = u "/l") then Some {| isDirectory := false; isSymbolicLink := true |}
       else stat p;
     statSync := stat;
     readdirSync p := if bool_decide (p = u "/") then inl [u "l"] else inr (u "ENOENT");
     realpathSync p := inl p |}.

Lemma broken_link_order :
  globSync 20 sample_runtime (λ _, Some [u "l"; u "l/*"]) broken_link_fs (u "{l,l/*}")
    sample_options no_caches = Done (Some [u "l"]) ∧
  globSync 20 sample_runtime (λ _, Some [u "l/*"; u "l"]) broken_link_fs (u "{l/*,l}")
    sample_options no_caches = Done (Some []).
Proof. split; by vm_compute. Qed.

(** With another root a directory that is not there hides a file that is:
    [_readdirError] makes the path it is given, "/r/x", absolute again, and
    remembers "/r/r/x" as missing.  The file system keeps the laws. *)
Definition rooted_fs : fsys :=
  let stat p :=
    if bool_decide (p ∈ [u "/"; u "/r"; u "/r/r"]) then
      Some {| isDirectory := true; isSymbolicLink := false |}
    else if bool_decide (p = u "/r/r/x") then
      Some {| isDirectory := false; isSymbolicLink := false |}
    else None in
  {| lstatSync := stat; statSync := stat;
     readdirSync p :=
       if bool_decide (p ∈ [u "/"; u "/r"]) then inl [u "r"]
       else if bool_decide (p = u "/r/r") then inl [u "x"]
       else if bool_decide (p = u "/r/r/x") then inr (u "ENOTDIR") else inr (u "ENOENT");
     realpathSync p := inl p |}.

Definition rooted_options : glob_options :=
  {| go_minimatch := go_minimatch sample_options; go_nonegate := None; go_nocomment := None;
     go_strict := None; go_realpath := false; go_follow := false; go_mark := false;
     go_nodir := false; go_nounique := false; go_nosort := false; go_stat := false;
     go_noprocess := false; go_nomount := false; go_maxLength := 0; go_ignore := [];
     go_cwd := None; go_root := Some (u "/r") |}.

Lemma rooted_fs_laws : FsLaws rooted_fs.
Proof.
  split. intros abs. unfold full_stat, rooted_fs. cbn [lstatSync statSync readdirSync].
  destruct (decide (abs ∈ [u "/"; u "/r"; u "/r/r"])) as [Hd|Hd].
  - rewrite (bool_decide_eq_true_2 _ Hd). cbn.
    repeat (apply elem_of_cons in Hd as [->|Hd]); [..|by apply not_elem_of_nil in Hd];
      eexists; (split; [by vm_compute|]); intros e He%list_elem_of_singleton; subst e;
      vm_compute; by eexists.
  - rewrite (bool_decide_eq_false_2 _ Hd).
    assert (Hn : ∀ p, p ∈ [u "/"; u "/r"; u "/r/r"] → abs ≠ p) by (by intros p Hp ->).
    rewrite (bool_decide_eq_false_2 (abs ∈ _)), (bool_decide_eq_false_2 (abs = u "/r/r")).
    + by case_bool_decide.
    + apply Hn. by right; right; left.
    + intros Hin. apply Hd. apply elem_of_cons in Hin as [->|Hin]; [by left|].
      apply elem_of_cons in Hin as [->|Hin]; [by right; left|by apply not_elem_of_nil in Hin].
Qed.

Lemma root_order :
  globSync 20 sample_runtime (λ _, Some [u "/r/x"; u "/x/*"]) rooted_fs (u "{/r/x,/x/*}")
    rooted_options no_caches = Done (Some [u "/r/r/x"]) ∧
  globSync 20 sample_runtime (λ _, Some [u "/x/*"; u "/r/x"]) rooted_fs (u "{/x/*,/r/x}")
    rooted_options no_caches = Done (Some []).
Proof. split; by vm_compute. Qed.
