(* ===== verification/Inflight.v ===== *)
(** * [inflight] of the bundle ([wordcut.js])

    The table of requests under way: the first caller for a key gets the
    function to call with the answer ([RES]), later callers are put behind it.
    Here are the table and what [RES] does to it; [AsyncGlob] calls it, and
    [AsyncGlobInv] follows the callbacks through it.  [RES] is called
    through [once]; its second call, from [nextTick], is not. *)

From S2P Require Import Prelude JsString.

Section inflight.
Context {C : Type}.

(** [reqs[key]], and the variable [len] of the [RES] that runs on it. *)
Record request := Request { cbs : list C; len : option nat }.

(** The callbacks that no [RES] has reached. *)
Definition waiting (q : request) : list C := drop (default 0 (len q)) (cbs q).

Abbreviation table := (gmap jstr request).

(** Whether the caller gets a [RES], or [null]. *)
Definition inflight (key : jstr) (cb : C) (reqs : table) : bool * table :=
  match reqs !! key with
  | Some q => (false, <[key := Request (cbs q ++ [cb]) (len q)]> reqs)
  | None => (true, <[key := Request [cb] None]> reqs)
  end.

(** [RES] up to its loop: the callbacks it calls, in order.  [None] is the
    TypeError of a key without a request. *)
Definition res_start (key : jstr) (reqs : table) : option (list C * table) :=
  match reqs !! key with
  | Some q => Some (cbs q, <[key := Request (cbs q) (Some (length (cbs q)))]> reqs)
  | None => None
  end.

(** The [finally] block: whether [RES] is to run again, in a later tick. *)
Definition res_end (key : jstr) (reqs : table) : option (bool * table) :=
  match reqs !! key with
  | Some q =>
      let l := default 0 (len q) in
      if l <? length (cbs q)
      then Some (true, <[key := Request (drop l (cbs q)) None]> reqs)
      else Some (false, delete key reqs)
  | None => None
  end.
End inflight.
Arguments request : clear implicits.
