(* ===== verification/AsyncGlob.v ===== *)
(** * The asynchronous glob walker of the bundle ([glob.js] in [wordcut.js])

    [Glob] walks like [GlobSync], but asks the file system without waiting: an
    answer runs the code that waits for it, in any order of answers.  A
    function that takes a callback is a [task]; what it calls is put in its
    place, in order, in front of the other tasks ([todo], the stack of calls),
    so that the code between two callbacks of the file system is one task at a
    time and users of the object may [pause], [resume] or [abort] it between
    any two.  A callback is the data its function closes over.  Calls under
    way are [pending]; those [inflight] puts off are [ticks].  The object has
    a callback, so that an [error] event has a listener; the events are kept,
    newest first.  Files are read through [fsys], the argument of [Glob]. *)

From S2P Require Import Prelude JsString PathPosix BraceExpansion Minimatch Glob Inflight.

(** ** Callbacks and tasks *)

(** What follows the listing of a directory: [_processReaddir2] or
    [_processGlobStar2]; [remain] is what follows the first element that is
    not a string. *)
Inductive rdcont :=
| ThenReaddir (prefix : option jstr) (abs : jstr) (r : regexp) (remain : list elem)
    (index : nat) (inGlobStar : bool)
| ThenGlobStar (prefix : option jstr) (abs : jstr) (remain : list elem)
    (index : nat) (inGlobStar : bool).

(** A callback of [_readdir]: one of these, or the [RES] of a listing. *)
Inductive rdcb := Then (k : rdcont) | Res (abs : jstr) (inGlobStar : bool).

(** The callbacks in the table of requests: of a listing, [lstatcb_] of
    [_readdirInGlobStar] and [lstatcb_] of [_stat]. *)
Inductive waiter :=
| WReaddir (cb : rdcb)
| WLstat (abs : jstr) (cb : rdcb)
| WStat (f abs : jstr) (index : nat).

(** The arguments of a [RES]: entries, if any, or a stat, if there is one. *)
Inductive answer := AEntries (entries : option (list jstr)) | AStat (st : option fstat).

Inductive task :=
| TLoop (sets : list (list elem)) (index : nat)
| TProcess (pattern : list elem) (index : nat) (inGlobStar : bool)
| TDone
| TReaddir (abs : jstr) (inGlobStar : bool) (cb : rdcb)
| TLstat (abs : jstr) (cb : rdcb) (lstat : option fstat)
| TEntries (k : rdcont) (entries : option (list jstr))
| TGlobStarRest (prefix : option jstr) (abs : jstr) (remain : list elem) (index : nat)
    (inGlobStar : bool) (entries : list jstr)
| TStatted (f abs : jstr) (index : nat) (lstat : option fstat)
| TSimple (path : jstr) (index : nat) (exists_ : bool)
| TEmitMatch (index : nat) (e : jstr)
| TRes (key : jstr) (args : answer)
| TResEnd (key : jstr) (args : answer)
| TFinish
| TRealpathSet (index : nat)
| TNext
| TResume
| TAgain (pattern : list elem) (index : nat) (inGlobStar : bool).

(** Calls of [fs] under way. *)
Inductive op :=
| OpReaddir (abs : jstr) (inGlobStar : bool)
| OpLstat (key abs : jstr)
| OpStat (f abs : jstr) (index : nat) (lstat : fstat)
| OpRealpath (index : nat) (p : jstr).

Inductive event :=
| EMatch (e : jstr) | EStat (e : jstr) (st : fstat) | EError (code : option jstr)
| EEnd (found : list jstr) | EAbort | EPause | EResume.

(** The keys of [inflight]. *)
Definition lstat_key (abs : jstr) : jstr := u "lstat" ++ 0%N :: abs.
Definition stat_key (abs : jstr) : jstr := u "stat" ++ 0%N :: abs.
Definition readdir_key (abs : jstr) (inGlobStar : bool) : jstr :=
  u "readdir" ++ 0%N :: abs ++ 0%N :: (if inGlobStar then u "true" else u "false").

(** ** The object *)

Record glob := {
  processing : Z; cs : caches; reqs : gmap jstr (request waiter);
  found_sets : matches; emitQueue : list (nat * jstr);
  processQueue : list (list elem * nat * bool);
  paused : bool; aborted : bool; didRealpath : bool;
  rp_left : Z; rp_counts : list nat;
  events : list event;
  todo : list task; pending : list op; ticks : list (jstr * answer) }.

Definition set_processing (n : Z) (s : glob) : glob :=
  {| processing := n; cs := cs s; reqs := reqs s; found_sets := found_sets s;
     emitQueue := emitQueue s; processQueue := processQueue s; paused := paused s;
     aborted := aborted s; didRealpath := didRealpath s; rp_left := rp_left s;
     rp_counts := rp_counts s; events := events s; todo := todo s; pending := pending s;
     ticks := ticks s |}.
Definition set_cs (c : caches) (s : glob) : glob :=
  {| processing := processing s; cs := c; reqs := reqs s; found_sets := found_sets s;
     emitQueue := emitQueue s; processQueue := processQueue s; paused := paused s;
     aborted := aborted s; didRealpath := didRealpath s; rp_left := rp_left s;
     rp_counts := rp_counts s; events := events s; todo := todo s; pending := pending s;
     ticks := ticks s |}.
Definition set_reqs (r : gmap jstr (request waiter)) (s : glob) : glob :=
  {| processing := processing s; cs := cs s; reqs := r; found_sets := found_sets s;
     emitQueue := emitQueue s; processQueue := processQueue s; paused := paused s;
     aborted := aborted s; didRealpath := didRealpath s; rp_left := rp_left s;
     rp_counts := rp_counts s; events := events s; todo := todo s; pending := pending s;
     ticks := ticks s |}.
Definition set_found (m : matches) (s : glob) : glob :=
  {| processing := processing s; cs := cs s; reqs := reqs s; found_sets := m;
     emitQueue := emitQueue s; processQueue := processQueue s; paused := paused s;
     aborted := aborted s; didRealpath := didRealpath s; rp_left := rp_left s;
     rp_counts := rp_counts s; events := events s; todo := todo s; pending := pending s;
     ticks := ticks s |}.
Definition set_queues (eq : list (nat * jstr)) (pq : list (list elem * nat * bool)) (s : glob)
    : glob :=
  {| processing := processing s; cs := cs s; reqs := reqs s; found_sets := found_sets s;
     emitQueue := eq; processQueue := pq; paused := paused s;
     aborted := aborted s; didRealpath := didRealpath s; rp_left := rp_left s;
     rp_counts := rp_counts s; events := events s; todo := todo s; pending := pending s;
     ticks := ticks s |}.
Definition set_flags (p a : bool) (s : glob) : glob :=
  {| processing := processing s; cs := cs s; reqs := reqs s; found_sets := found_sets s;
     emitQueue := emitQueue s; processQueue := processQueue s; paused := p;
     aborted := a; didRealpath := didRealpath s; rp_left := rp_left s;
     rp_counts := rp_counts s; events := events s; todo := todo s; pending := pending s;
     ticks := ticks s |}.
Definition set_realpath (left : Z) (counts : list nat) (s : glob) : glob :=
  {| processing := processing s; cs := cs s; reqs := reqs s; found_sets := found_sets s;
     emitQueue := emitQueue s; processQueue := processQueue s; paused := paused s;
     aborted := aborted s; didRealpath := true; rp_left := left;
     rp_counts := counts; events := events s; todo := todo s; pending := pending s;
     ticks := ticks s |}.
Definition emit (e : event) (s : glob) : glob :=
  {| processing := processing s; cs := cs s; reqs := reqs s; found_sets := found_sets s;
     emitQueue := emitQueue s; processQueue := processQueue s; paused := paused s;
     aborted := aborted s; didRealpath := didRealpath s; rp_left := rp_left s;
     rp_counts := rp_counts s; events := e :: events s; todo := todo s; pending := pending s;
     ticks := ticks s |}.
Definition set_todo (l : list task) (s : glob) : glob :=
  {| processing := processing s; cs := cs s; reqs := reqs s; found_sets := found_sets s;
     emitQueue := emitQueue s; processQueue := processQueue s; paused := paused s;
     aborted := aborted s; didRealpath := didRealpath s; rp_left := rp_left s;
     rp_counts := rp_counts s; events := events s; todo := l; pending := pending s;
     ticks := ticks s |}.
Definition set_pending (l : list op) (s : glob) : glob :=
  {| processing := processing s; cs := cs s; reqs := reqs s; found_sets := found_sets s;
     emitQueue := emitQueue s; processQueue := processQueue s; paused := paused s;
     aborted := aborted s; didRealpath := didRealpath s; rp_left := rp_left s;
     rp_counts := rp_counts s; events := events s; todo := todo s; pending := l;
     ticks := ticks s |}.
Definition set_ticks (l : list (jstr * answer)) (s : glob) : glob :=
  {| processing := processing s; cs := cs s; reqs := reqs s; found_sets := found_sets s;
     emitQueue := emitQueue s; processQueue := processQueue s; paused := paused s;
     aborted := aborted s; didRealpath := didRealpath s; rp_left := rp_left s;
     rp_counts := rp_counts s; events := events s; todo := todo s; pending := pending s;
     ticks := l |}.

(** A call of [fs]. *)
Definition ask (o : op) (s : glob) : glob := set_pending (pending s ++ [o]) s.

Section glob.
Variable rt : runtime.
Variable fs : fsys.
Variable self : glob_settings.

(** The tasks that stand for the calls made, and the new state; [None] is an
    exception. *)
Abbreviation result := (option (list task * glob)).

(** [cb(null, entries)]. *)
Definition call_rd (cb : rdcb) (entries : option (list jstr)) : task :=
  match cb with
  | Then k => TEntries k entries
  | Res abs g => TRes (readdir_key abs g) (AEntries entries)
  end.

(** A callback of the table, called. *)
Definition call_waiter (w : waiter) (args : answer) : option task :=
  match w, args with
  | WReaddir cb, AEntries entries => Some (call_rd cb entries)
  | WLstat abs cb, AStat st => Some (TLstat abs cb st)
  | WStat f abs index, AStat st => Some (TStatted f abs index st)
  | _, _ => None
  end.

(** [cb = inflight(key, cb)], and [k] if it is the [RES]. *)
Definition with_inflight (key : jstr) (w : waiter) (s : glob) (k : glob → result) : result :=
  let '(first, r) := inflight key w (reqs s) in
  if first then k (set_reqs r s) else Some ([], set_reqs r s).

(** *** Matches *)

Definition _emitMatch (index : nat) (e : jstr) (s : glob) : result :=
  if aborted s then Some ([], s)
  else
    match found_sets s !! index with
    | Some (Some l) =>
        if bool_decide (e ∈ l) then Some ([], s)
        else if isIgnored rt self e then Some ([], s)
        else if paused s then
          Some ([], set_queues (emitQueue s ++ [(index, e)]) (processQueue s) s)
        else
          let abs := makeAbs self e in
          if g_nodir self && match cache (cs s) !! abs with
                             | Some CDir | Some (CEntries _) => true | _ => false end
          then Some ([], s)
          else
            let '(e, c) := if g_mark self then _mark self e (cs s) else (e, cs s) in
            let s := set_found (add_match index e (found_sets s)) (set_cs c s) in
            let s := match statCache c !! abs with
                     | Some (Some st) => emit (EStat e st) s | _ => s end in
            Some ([], emit (EMatch e) s)
    | _ => None
    end.

Definition _processSimple2 (path : jstr) (index : nat) (exists_ : bool) (s : glob) : result :=
  let s := set_found (open_matches index (found_sets s)) s in
  if negb exists_ then Some ([TDone], s)
  else Some ([TEmitMatch index (simple_key self path); TDone], s).

(** *** [_stat] *)

Definition _stat2 (f abs : jstr) (index : nat) (stat : option fstat) (s : glob) : result :=
  match stat with
  | None => Some ([TSimple f index false], set_cs (set_statCache (cs s) abs None) s)
  | Some st =>
      let needDir := ends_with_slash f in
      let c := set_statCache (cs s) abs (Some st) in
      if ends_with_slash abs && negb (isDirectory st)
      then Some ([TSimple f index false], set_cs c s)
      else
        let k := if isDirectory st then CDir else CFile in
        let c := set_cache c abs
                   (match cache c !! abs with None | Some CFalse => k | Some old => old end) in
        Some ([TSimple f index (negb (needDir && negb (isDirectory st)))], set_cs c s)
  end.

(** [lstatcb_] of [_stat]. *)
Definition lstatcb_stat (f abs : jstr) (index : nat) (lstat : option fstat) (s : glob) : result :=
  match lstat with
  | Some st => if isSymbolicLink st then Some ([], ask (OpStat f abs index st) s)
               else _stat2 f abs index lstat s
  | None => _stat2 f abs index lstat s
  end.

Definition async_stat (f : jstr) (index : nat) (s : glob) : result :=
  let abs := makeAbs self f in
  let needDir := ends_with_slash f in
  let answer (b : bool) := Some ([TSimple f index b], s) in
  let look (_ : unit) :=
    match statCache (cs s) !! abs with
    | Some None => answer false
    | Some (Some st) => answer (negb (needDir && negb (isDirectory st)))
    | None => with_inflight (stat_key abs) (WStat f abs index) s
                (λ s, Some ([], ask (OpLstat (stat_key abs) abs) s))
    end in
  if too_long self f then answer false
  else if g_stat self then look tt
  else match cache (cs s) !! abs with
       | Some (CEntries _) | Some CDir => answer true
       | Some CFile => answer (negb needDir)
       | Some CTrue => if needDir then look tt else answer true
       | Some CFalse => if needDir then look tt else answer false
       | None => look tt
       end.

(** *** [_readdir] *)

(** What is left of [_readdirInGlobStar] when its [lstat] is answered. *)
Definition lstatcb_readdir (abs : jstr) (cb : rdcb) (lstat : option fstat) (s : glob) : result :=
  match lstat with
  | None => Some ([call_rd cb None], s)
  | Some st =>
      let isSym := isSymbolicLink st in
      let c := set_symlink (cs s) abs isSym in
      if negb isSym && negb (isDirectory st)
      then Some ([call_rd cb None], set_cs (set_cache c abs CFile) s)
      else Some ([TReaddir abs false cb], set_cs c s)
  end.

Definition async_readdirInGlobStar (abs : jstr) (cb : rdcb) (s : glob) : result :=
  if aborted s then Some ([], s)
  else if g_follow self then Some ([TReaddir abs false cb], s)
  else with_inflight (lstat_key abs) (WLstat abs cb) s
         (λ s, Some ([], ask (OpLstat (lstat_key abs) abs) s)).

Definition async_readdir (abs : jstr) (inGlobStar : bool) (cb : rdcb) (s : glob) : result :=
  if aborted s then Some ([], s)
  else with_inflight (readdir_key abs inGlobStar) (WReaddir cb) s (λ s,
    let cb := Res abs inGlobStar in
    if inGlobStar && bool_decide (symlinks (cs s) !! abs = None)
    then async_readdirInGlobStar abs cb s
    else match cache (cs s) !! abs with
         | Some CFalse | Some CFile => Some ([call_rd cb None], s)
         | Some (CEntries l) => Some ([call_rd cb (Some l)], s)
         | _ => Some ([], ask (OpReaddir abs inGlobStar) s)
         end).

(** [readdirCb]: an error that is thrown on in [GlobSync] is an event here,
    and aborts the walk. *)
Definition readdirCb (abs : jstr) (cb : rdcb) (listing : list jstr + jstr) (s : glob) : result :=
  if aborted s then Some ([], s)
  else match listing with
       | inl entries =>
           Some ([call_rd cb (Some entries)], set_cs (_readdirEntries self abs entries (cs s)) s)
       | inr code =>
           match _readdirError self abs code (cs s) with
           | Some c => Some ([call_rd cb None], set_cs c s)
           | None =>
               let s := set_cs (set_cache (cs s) (makeAbs self abs) CFalse) s in
               Some ([call_rd cb None],
                     emit EAbort (set_flags (paused s) true (emit (EError (Some code)) s)))
           end
       end.

(** *** [_process] *)

(** An entry below the prefix. *)
Definition below (prefix : option jstr) (e : jstr) : jstr :=
  match prefix with
  | Some (c :: p) =>
      if bool_decide (c :: p = u "/") then (c :: p) ++ e else (c :: p) ++ u "/" ++ e
  | _ => e
  end.

(** The match an entry gives when it is the last part of the pattern. *)
Definition async_key (prefix : option jstr) (e : jstr) : jstr :=
  let e := below prefix e in
  if starts_with_slash e && negb (g_nomount self) then path_join [g_root self; e] else e.

Definition _processReaddir2 (prefix : option jstr) (r : regexp) (remain : list elem)
    (index : nat) (inGlobStar : bool) (entries : option (list jstr)) (s : glob) : result :=
  match entries with
  | None => Some ([TDone], s)
  | Some entries =>
      match dot_ok self r with
      | None => None
      | Some dotOk =>
          let matched := List.filter (entry_matches rt self prefix r dotOk) entries in
          if bool_decide (matched = []) then Some ([TDone], s)
          else if bool_decide (remain = []) && negb (g_mark self) && negb (g_stat self) then
            Some (map (λ e, TEmitMatch index (async_key prefix e)) matched ++ [TDone],
                  set_found (open_matches index (found_sets s)) s)
          else
            Some (map (λ e, TProcess (Str (below prefix e) :: remain) index inGlobStar) matched
                  ++ [TDone], s)
      end
  end.

Definition _processGlobStar2 (prefix : option jstr) (abs : jstr) (remain : list elem)
    (index : nat) (inGlobStar : bool) (entries : option (list jstr)) (s : glob) : result :=
  match entries with
  | None => Some ([TDone], s)
  | Some entries =>
      Some ([TProcess (prefix_parts prefix ++ remain) index false;
             TGlobStarRest prefix abs remain index inGlobStar entries], s)
  end.

(** The rest of [_processGlobStar2], which looks at [this.symlinks] after the
    first [_process] has returned. *)
Definition globstar_rest (prefix : option jstr) (abs : jstr) (remain : list elem) (index : nat)
    (inGlobStar : bool) (entries : list jstr) (s : glob) : result :=
  if default false (symlinks (cs s) !! abs) && inGlobStar then Some ([TDone], s)
  else
    Some (concat (map (λ e,
            if bool_decide (head e = Some 46%N) && negb (g_dot self) then []
            else [TProcess (prefix_parts prefix ++ Str e :: remain) index true;
                  TProcess (prefix_parts prefix ++ Str e :: GLOBSTAR :: remain) index true])
            entries) ++ [TDone], s).

Definition async_process (pattern : list elem) (index : nat) (inGlobStar : bool) (s : glob)
    : result :=
  if aborted s then Some ([], s)
  else
    let s := set_processing (processing s + 1) s in
    if paused s then
      Some ([], set_queues (emitQueue s) (processQueue s ++ [(pattern, index, inGlobStar)]) s)
    else
      let '(strs, remain) := string_prefix pattern in
      match remain with
      | [] => async_stat (join (u "/") strs) index s
      | p :: remain =>
          let prefix := prefix_of pattern strs in
          let read := default (u ".") prefix in
          let abs := makeAbs self read in
          if childrenIgnored rt self read then Some ([TDone], s)
          else match p with
               | GLOBSTAR =>
                   Some ([TReaddir abs inGlobStar
                            (Then (ThenGlobStar prefix abs remain index inGlobStar))], s)
               | Rx r =>
                   Some ([TReaddir abs inGlobStar
                            (Then (ThenReaddir prefix abs r remain index inGlobStar))], s)
               | Str _ => None (* not reached: the strings are in [strs] *)
               end
      end.

(** *** The end *)

Definition done (s : glob) : result :=
  let s := set_processing (processing s - 1) s in
  Some (if (processing s <=? 0)%Z then [TFinish] else [], s).

(** The caches [finish] leaves. *)
Definition finish_caches (m : matches) (c : caches) : caches :=
  if g_mark self then (mark_all self (sorted_names rt self m) c).2 else c.

Definition async_realpath (s : glob) : result :=
  let n := length (found_sets s) in
  let s := set_realpath (Z.of_nat n) (replicate n 0) s in
  Some (if n =? 0 then [TFinish] else map TRealpathSet (seq 0 n), s).

Definition async_finish (s : glob) : result :=
  if aborted s then Some ([], s)
  else if g_realpath self && negb (didRealpath s) then async_realpath s
  else
    let found := finish rt self (found_sets s) (cs s) in
    Some ([], emit (EEnd found) (set_cs (finish_caches (found_sets s) (cs s)) s)).

Definition _realpathSet (index : nat) (s : glob) : result :=
  match found_sets s !! index with
  | Some (Some matchset) =>
      let found := object_keys matchset in
      if bool_decide (found = []) then Some ([TNext], s)
      else
        let s := set_found (<[index := Some []]> (found_sets s)) s in
        let s := set_realpath (rp_left s) (<[index := length found]> (rp_counts s)) s in
        Some ([], set_pending (pending s ++ map (λ p, OpRealpath index (makeAbs self p)) found) s)
  | _ => Some ([TNext], s)
  end.

(** The callback of [fs.realpath]. *)
Definition realpathCb (index : nat) (p : jstr) (s : glob) : result :=
  let s := match realpathSync fs p with
           | inl real => set_found (add_match index real (found_sets s)) s
           | inr true => set_found (add_match index p (found_sets s)) s
           | inr false => emit (EError None) s
           end in
  let n := default 0 (rp_counts s !! index) - 1 in
  let s := set_realpath (rp_left s) (<[index := n]> (rp_counts s)) s in
  Some (if n =? 0 then [TNext] else [], s).

(** [next] of [_realpath]. *)
Definition next (s : glob) : result :=
  let s := set_realpath (rp_left s - 1) (rp_counts s) s in
  Some (if (rp_left s =? 0)%Z then [TFinish] else [], s).

(** *** [inflight] *)

Definition run_res (key : jstr) (args : answer) (s : glob) : result :=
  '(ws, r) ← res_start key (reqs s);
  calls ← mapM (λ w, call_waiter w args) ws;
  Some (calls ++ [TResEnd key args], set_reqs r s).

Definition end_res (key : jstr) (args : answer) (s : glob) : result :=
  '(again, r) ← res_end key (reqs s);
  let s := set_reqs r s in
  Some ([], if again : bool then set_ticks (ticks s ++ [(key, args)]) s else s).

(** *** The user's calls *)

Definition abort (s : glob) : glob := emit EAbort (set_flags (paused s) true s).
Definition pause (s : glob) : glob :=
  if paused s then s else emit EPause (set_flags true (aborted s) s).
Definition resume (s : glob) : list task * glob :=
  if paused s then
    let eq := emitQueue s in
    (map (λ e, TEmitMatch e.1 e.2) eq ++ [TResume],
     set_queues [] (processQueue s) (set_flags false (aborted s) (emit EResume s)))
  else ([], s).
(** The second half of [resume]. *)
Definition resume_processes (s : glob) : result :=
  Some (map (λ p, TAgain p.1.1 p.1.2 p.2) (processQueue s), set_queues (emitQueue s) [] s).
Definition process_again (pattern : list elem) (index : nat) (inGlobStar : bool) (s : glob)
    : result :=
  async_process pattern index inGlobStar (set_processing (processing s - 1) s).

(** ** Runs *)

Definition exec (t : task) (s : glob) : result :=
  match t with
  | TLoop [] _ => Some ([], s)
  | TLoop (set :: sets) index =>
      '(ts, s) ← async_process set index false s;
      Some (ts ++ (if sets is [] then [] else [TLoop sets (S index)]), s)
  | TProcess pattern index g => async_process pattern index g s
  | TDone => done s
  | TReaddir abs g cb => async_readdir abs g cb s
  | TLstat abs cb lstat => lstatcb_readdir abs cb lstat s
  | TEntries (ThenReaddir prefix _ r remain index g) entries =>
      _processReaddir2 prefix r remain index g entries s
  | TEntries (ThenGlobStar prefix abs remain index g) entries =>
      _processGlobStar2 prefix abs remain index g entries s
  | TGlobStarRest prefix abs remain index g entries =>
      globstar_rest prefix abs remain index g entries s
  | TStatted f abs index lstat => lstatcb_stat f abs index lstat s
  | TSimple path index exists_ => _processSimple2 path index exists_ s
  | TEmitMatch index e => _emitMatch index e s
  | TRes key args => run_res key args s
  | TResEnd key args => end_res key args s
  | TFinish => async_finish s
  | TRealpathSet index => _realpathSet index s
  | TNext => next s
  | TResume => resume_processes s
  | TAgain pattern index g => process_again pattern index g s
  end.

(** The file system answers. *)
Definition complete (o : op) (s : glob) : result :=
  match o with
  | OpReaddir abs g => readdirCb abs (Res abs g) (readdirSync fs abs) s
  | OpLstat key abs => Some ([TRes key (AStat (lstatSync fs abs))], s)
  | OpStat f abs index lstat => _stat2 f abs index (Some (default lstat (statSync fs abs))) s
  | OpRealpath index p => realpathCb index p s
  end.

(** The tasks of a call go in front. *)
Definition push (r : list task * glob) : glob := set_todo (r.1 ++ todo r.2) r.2.

(** A step of the code: the next task, or, when there is none, a tick or an
    answer.  Two ticks may be taken in any order. *)
Inductive step : glob → glob → Prop :=
| step_task s t l r :
    todo s = t :: l → exec t (set_todo l s) = Some r → step s (push r)
| step_tick s l1 key args l2 :
    todo s = [] → ticks s = l1 ++ (key, args) :: l2 →
    step s (push ([TRes key args], set_ticks (l1 ++ l2) s))
| step_answer s l1 o l2 r :
    todo s = [] → pending s = l1 ++ o :: l2 →
    complete o (set_pending (l1 ++ l2) s) = Some r → step s (push r).

(** A step of someone who holds the object, at any time. *)
Inductive user_step : glob → glob → Prop :=
| user_pause s : user_step s (pause s)
| user_resume s : user_step s (push (resume s))
| user_abort s : user_step s (abort s).

(** The constructor, with the caches it is given, up to the loop over the
    sets; [None] when [noprocess] is set. *)
Definition new_Glob (c : caches) : glob :=
  let sets := mm_set (g_minimatch self) in
  {| processing := 0; cs := c; reqs := ∅; found_sets := replicate (length sets) None;
     emitQueue := []; processQueue := []; paused := false; aborted := false;
     didRealpath := false; rp_left := 0; rp_counts := []; events := [];
     todo := (if g_noprocess self then []
              else match sets with [] => [TDone] | _ => [TLoop sets 0] end);
     pending := []; ticks := [] |}.

(** Nothing is left to do, nor to wait for. *)
Definition at_rest (s : glob) : Prop := todo s = [] ∧ pending s = [] ∧ ticks s = [].

(** A run that always takes the first answer, for a bounded number of steps. *)
Fixpoint run (fuel : nat) (s : glob) : option glob :=
  match fuel with
  | 0 => Some s
  | S fuel =>
      match todo s with
      | t :: l => r ← exec t (set_todo l s); run fuel (push r)
      | [] =>
          match ticks s with
          | (key, args) :: l => run fuel (push ([TRes key args], set_ticks l s))
          | [] =>
              match pending s with
              | o :: l => r ← complete o (set_pending l s); run fuel (push r)
              | [] => Some s
              end
          end
      end
  end.
End glob.

(** [glob.hasMagic]: whether a set has a part that is not a string; a first
    set that does not exist is a TypeError. *)
Definition hasMagic (sets : list (list elem)) : option bool :=
  match sets with
  | [] => None
  | [set] => Some (negb (forallb (λ p, match p with Str _ => true | _ => false end) set))
  | _ => Some true
  end.
