(* ===== verification/AsyncGlobInv.v ===== *)
(** * The asynchronous glob walker: its invariant

    The invariant of a run of [Glob] speaks of the [item]s of a state,
    everything that is still to happen: tasks, callbacks of the table, calls of
    [fs], ticks.  Each item owes some matches, carries some of [_processing]
    and owns the keys whose [RES] it will call.  Here are the items, the
    invariant and how the operations on a state that [AsyncGlob] is built of
    keep it; [AsyncGlobFacts] has the steps and the theorems. *)

From S2P Require Import Prelude JsString PathPosix BraceExpansion Minimatch Glob GlobFacts.
From S2P Require Import Inflight AsyncGlob.

(** ** Paths and keys *)

Lemma trail_last b (s : jstr) : s ≠ [] → last s ≠ Some 47%N → last (s ++ trail b) = Some 47%N → b = true.
Proof. intros Hs Hl. destruct b; [done|]. simpl. by rewrite app_nil_r. Qed.

Lemma abs_slash self f :
  g_root self = u "/" → ends_with_slash (makeAbs self f) = true →
  ends_with_slash f = true ∨ makeAbs self f = u "/".
Proof.
  intros Hroot. rewrite makeAbs_cases by done. unfold ends_with_slash. rewrite !bool_decide_eq_true.
  destruct (isAbsolute f) eqn:Hf; [|case_bool_decide; [auto|]].
  - rewrite normalize_eq, Hf. cbv zeta. cbn [negb].
    destruct (decide _) as [_|Hne]; [auto|]. intros Hl. left.
    pose proof (normalizeArray_ok _ false (segs_ok f)) as Hok.
    destruct (join_ends _ Hok Hne) as (Hj&_&Ht). rewrite last_app_ne in Hl.
    + apply trail_last in Hl; [|done..]. unfold trailing_slash in Hl. by apply bool_decide_eq_true in Hl.
    + by destruct (join sep _).
  - rewrite resolve_eq.
    match goal with |- context [resolved_segs ?l] => pose proof (resolved_segs_ok l) as [Hok _];
      set (L := resolved_segs l) in * end.
    destruct (decide (L = [])) as [->|Hne]; [auto|].
    destruct (join_ends L Hok Hne) as (Hj&_&Ht). rewrite last_app_ne by done. done.
Qed.

Lemma lstat_key_inj a b : lstat_key a = lstat_key b → a = b.
Proof. by intros [= ->]. Qed.
Lemma stat_key_inj a b : stat_key a = stat_key b → a = b.
Proof. by intros [= ->]. Qed.
Lemma readdir_key_inj a g b h : readdir_key a g = readdir_key b h → a = b ∧ g = h.
Proof.
  unfold readdir_key. intros [= H].
  assert (g = h) as ->.
  { apply (f_equal reverse) in H. rewrite !reverse_app in H.
    apply (f_equal (λ l, l !! 1)) in H.
    by destruct g, h; cbn in H. }
  split; [|done]. eapply app_inv_tail. exact H.
Qed.

(** ** What a pattern finds *)

Section finding.
Variable rt : runtime.
Variable fs : fsys.
Variable self : glob_settings.

(** As [finds] of [GlobFacts], with the patterns [_processReaddir2] makes. *)
Inductive afinds : list elem → bool → jstr → Prop :=
| afinds_path pattern g strs :
    string_prefix pattern = (strs, []) → stat_path fs self (join (u "/") strs) = true →
    afinds pattern g (simple_key self (join (u "/") strs))
| afinds_last pattern g prefix r remain entries e :
    lists rt fs self pattern g prefix (Rx r) remain entries →
    picks rt self prefix r entries e →
    last_part self remain = true → afinds pattern g (async_key self prefix e)
| afinds_entry pattern g prefix r remain entries e k :
    lists rt fs self pattern g prefix (Rx r) remain entries →
    picks rt self prefix r entries e →
    last_part self remain = false →
    afinds (Str (below prefix e) :: remain) g k → afinds pattern g k
| afinds_nothing pattern g prefix remain entries k :
    lists rt fs self pattern g prefix GLOBSTAR remain entries →
    afinds (prefix_parts prefix ++ remain) false k → afinds pattern g k
| afinds_below pattern g prefix remain entries e more k :
    lists rt fs self pattern g prefix GLOBSTAR remain entries →
    is_link fs self (makeAbs self (default (u ".") prefix)) && g = false →
    e ∈ entries → bool_decide (head e = Some 46%N) && negb (g_dot self) = false →
    afinds (prefix_parts prefix ++ Str e :: (if more : bool then [GLOBSTAR] else []) ++ remain)
      true k →
    afinds pattern g k.

(** What [_processGlobStar2] finds after its first [_process]. *)
Definition rest_finds (prefix : option jstr) (abs : jstr) (remain : list elem) (g : bool)
    (entries : list jstr) (key : jstr) : Prop :=
  is_link fs self abs && g = false ∧
  ∃ e (more : bool), e ∈ entries ∧ bool_decide (head e = Some 46%N) && negb (g_dot self) = false ∧
    afinds (prefix_parts prefix ++ Str e :: (if more then [GLOBSTAR] else []) ++ remain) true key.

(** What follows the listing of a directory finds. *)
Definition cont_finds (k : rdcont) (entries : option (list jstr)) (key : jstr) : Prop :=
  match entries with
  | None => False
  | Some entries =>
      match k with
      | ThenReaddir prefix _ r remain _ g =>
          ∃ e, picks rt self prefix r entries e ∧
            if last_part self remain then key = async_key self prefix e
            else afinds (Str (below prefix e) :: remain) g key
      | ThenGlobStar prefix abs remain _ g =>
          afinds (prefix_parts prefix ++ remain) false key ∨
          rest_finds prefix abs remain g entries key
      end
  end.

Context `{!FsLaws fs}.

Lemma lists_entries pattern g strs p remain es :
  string_prefix pattern = (strs, p :: remain) →
  let read := default (u ".") (prefix_of pattern strs) in
  childrenIgnored rt self read = false → entries_of fs (makeAbs self read) = Some es →
  lists rt fs self pattern g (prefix_of pattern strs) p remain es.
Proof.
  intros Hs read Hi He. unfold lists. rewrite Hs. split_and!; [done..|].
  rewrite read_dir_eq by done. f_equal. exact He.
Qed.

Lemma lists_inv pattern g strs p remain prefix p' remain' es :
  string_prefix pattern = (strs, p :: remain) →
  lists rt fs self pattern g prefix p' remain' es →
  p' = p ∧ remain' = remain ∧ prefix = prefix_of pattern strs ∧
  childrenIgnored rt self (default (u ".") (prefix_of pattern strs)) = false ∧
  entries_of fs (makeAbs self (default (u ".") (prefix_of pattern strs))) = Some es.
Proof.
  intros Hs (H1&H2&H3&H4). rewrite Hs in H1, H2. cbn in H1, H2. simplify_eq.
  rewrite read_dir_eq in H4 by done. by simplify_eq.
Qed.

Lemma afinds_simple pattern g strs key :
  string_prefix pattern = (strs, []) →
  afinds pattern g key ↔
    stat_path fs self (join (u "/") strs) = true ∧ key = simple_key self (join (u "/") strs).
Proof.
  intros Hs. split; [|intros [? ->]; by constructor].
  inversion 1 as [? ? ? Hs' Hst| ? ? ? ? ? ? ? Hl| ? ? ? ? ? ? ? ? Hl|? ? ? ? ? ? Hl
                 |? ? ? ? ? ? ? ? Hl]; subst;
    [rewrite Hs in Hs'; by simplify_eq|..]; destruct Hl as (Hl&_); by rewrite Hs in Hl.
Qed.

(** What a pattern with a part that is not a string finds. *)
Lemma afinds_magic pattern g strs p remain index key :
  string_prefix pattern = (strs, p :: remain) →
  let prefix := prefix_of pattern strs in
  let abs := makeAbs self (default (u ".") prefix) in
  afinds pattern g key ↔
    childrenIgnored rt self (default (u ".") prefix) = false ∧
    match p with
    | Rx r => cont_finds (ThenReaddir prefix abs r remain index g) (entries_of fs abs) key
    | GLOBSTAR => cont_finds (ThenGlobStar prefix abs remain index g) (entries_of fs abs) key
    | Str _ => False
    end.
Proof.
  intros Hs prefix abs. split.
  - inversion 1 as [? ? ? Hs' Hst| ? ? ? ? ? ? e Hl Hp Hlast| ? ? ? ? ? ? e ? Hl Hp Hlast Hf
                   |? ? ? ? ? ? Hl Hf|? ? ? ? ? e more ? Hl Hlk He Hd Hf]; subst;
      [by rewrite Hs in Hs'|..];
      destruct (lists_inv _ _ _ _ _ _ _ _ _ Hs Hl) as (<-&->&->&Hi&He');
      (split; [done|]); fold prefix in He'; fold abs in He'; rewrite He'; simpl.
    + exists e. by rewrite Hlast.
    + exists e. by rewrite Hlast.
    + by left.
    + right. split; [done|]. by exists e, more.
  - intros [Hi Hc]. destruct (entries_of fs abs) as [es|] eqn:He; [|by destruct p].
    pose proof (lists_entries _ g _ _ _ es Hs Hi He) as Hl.
    destruct p as [|s|r]; [|done|]; simpl in Hc.
    + destruct Hc as [Hc|(Hlk&e&more&Hin&Hd&Hc)]; [by eapply afinds_nothing|].
      eapply afinds_below; [exact Hl|done..].
    + destruct Hc as (e&Hp&Hc). destruct (last_part self remain) eqn:Hlast.
      * subst key. by eapply afinds_last.
      * by eapply afinds_entry.
Qed.
End finding.

(** ** What is still to happen

    Besides the parts of a state, [IHold key] is the [RES] of a key in the
    hands of the code that runs. *)

Inductive item :=
| ITask (t : task) | IWait (late : bool) (w : waiter) | IOp (o : op)
| ITick (key : jstr) (args : answer)
| IHold (key : jstr).

Definition serving (q : request waiter) : bool := bool_decide (is_Some (len q)).
Definition request_items (q : request waiter) : list item := map (IWait (serving q)) (waiting q).
Definition table_items (r : gmap jstr (request waiter)) : list item :=
  concat (map (λ p, request_items p.2) (map_to_list r)).
Definition table_keys (r : gmap jstr (request waiter)) : list (jstr * bool) :=
  map (λ p, (p.1, serving p.2)) (map_to_list r).

(** Callbacks of a request come after the others that wait. *)
Definition items (s : glob) : list item :=
  map ITask (todo s) ++ table_items (reqs s) ++ map IOp (pending s)
  ++ map (λ p, ITick p.1 p.2) (ticks s).

(** The keys whose [RES] an item will call, and whether it runs. *)
Definition cb_owner (cb : rdcb) : list (jstr * bool) :=
  match cb with Then _ => [] | Res abs g => [(readdir_key abs g, false)] end.
Definition owner (x : item) : list (jstr * bool) :=
  match x with
  | ITask (TReaddir _ _ cb) | ITask (TLstat _ cb _) => cb_owner cb
  | ITask (TRes key _) => [(key, false)]
  | ITask (TResEnd key _) => [(key, true)]
  | ITask _ => []
  | IWait _ (WReaddir cb) | IWait _ (WLstat _ cb) => cb_owner cb
  | IWait _ (WStat _ _ _) => []
  | IOp (OpReaddir abs g) => [(readdir_key abs g, false)]
  | IOp (OpLstat key _) => [(key, false)]
  | IOp _ => []
  | ITick key _ | IHold key => [(key, false)]
  end.

(** The calls of [done] to come, less those of patterns not yet begun. *)
Definition cb_jobs (cb : rdcb) : nat := match cb with Then _ => 1 | Res _ _ => 0 end.
Definition jobs (x : item) : nat :=
  match x with
  | ITask (TReaddir _ _ cb) | ITask (TLstat _ cb _) => cb_jobs cb
  | ITask (TDone | TEntries _ _ | TGlobStarRest _ _ _ _ _ _ | TStatted _ _ _ _ | TSimple _ _ _) => 1
  | ITask _ => 0
  | IWait _ (WReaddir cb) | IWait _ (WLstat _ cb) => cb_jobs cb
  | IWait _ (WStat _ _ _) => 1
  | IOp (OpStat _ _ _ _) => 1
  | IOp _ => 0
  | ITick _ _ | IHold _ => 0
  end.

Definition cont_index (k : rdcont) : nat :=
  match k with ThenReaddir _ _ _ _ i _ | ThenGlobStar _ _ _ i _ => i end.
Definition cont_abs (k : rdcont) : jstr :=
  match k with ThenReaddir _ abs _ _ _ _ | ThenGlobStar _ abs _ _ _ => abs end.
Definition cont_star (k : rdcont) : bool :=
  match k with ThenReaddir _ _ _ _ _ g | ThenGlobStar _ _ _ _ g => g end.
Definition cont_prefix (k : rdcont) : option jstr :=
  match k with ThenReaddir p _ _ _ _ _ | ThenGlobStar p _ _ _ _ => p end.

(** *** The table *)

Lemma table_items_insert r key q :
  table_items (<[key := q]> r) ≡ₚ request_items q ++ table_items (delete key r).
Proof.
  unfold table_items. rewrite <-insert_delete_eq, map_to_list_insert by apply lookup_delete_eq.
  done.
Qed.

Lemma table_items_lookup r key q :
  r !! key = Some q → table_items r ≡ₚ request_items q ++ table_items (delete key r).
Proof. intros Hq. unfold table_items. by rewrite <-(map_to_list_delete r key q Hq). Qed.

Lemma table_keys_insert r key q :
  table_keys (<[key := q]> r) ≡ₚ (key, serving q) :: table_keys (delete key r).
Proof.
  unfold table_keys. rewrite <-insert_delete_eq, map_to_list_insert by apply lookup_delete_eq.
  done.
Qed.

Lemma table_keys_lookup r key q :
  r !! key = Some q → table_keys r ≡ₚ (key, serving q) :: table_keys (delete key r).
Proof. intros Hq. unfold table_keys. by rewrite <-(map_to_list_delete r key q Hq). Qed.

Lemma elem_table_keys r key b :
  (key, b) ∈ table_keys r ↔ ∃ q, r !! key = Some q ∧ serving q = b.
Proof.
  unfold table_keys. rewrite list_elem_of_fmap. split.
  - intros ([k q]&[= -> ->]&Hq%elem_of_map_to_list). by exists q.
  - intros (q&Hq&<-). exists (key, q). split; [done|]. by apply elem_of_map_to_list.
Qed.

Lemma elem_table_items r x :
  x ∈ table_items r ↔ ∃ key q w, r !! key = Some q ∧ w ∈ waiting q ∧ x = IWait (serving q) w.
Proof.
  unfold table_items. rewrite list_elem_of_In, in_concat. setoid_rewrite <-list_elem_of_In.
  setoid_rewrite list_elem_of_fmap. split.
  - intros (l&([key q]&->&Hq%elem_of_map_to_list)&Hx). unfold request_items in Hx. cbn [snd] in Hx.
    apply list_elem_of_fmap in Hx as (w&->&Hw). by exists key, q, w.
  - intros (key&q&w&Hq&Hw&->). exists (request_items q). split.
    + exists (key, q). split; [done|]. by apply elem_of_map_to_list.
    + apply list_elem_of_fmap. by exists w.
Qed.

Lemma waiting_push (q : request waiter) w :
  default 0 (len q) ≤ length (cbs q) →
  waiting (Request (cbs q ++ [w]) (len q)) = waiting q ++ [w].
Proof. intros Hl. unfold waiting. cbn [cbs len]. by rewrite drop_app_le. Qed.

(** ** The invariant *)

Section invariant.
Variable rt : runtime.
Variable fs : fsys.
Context `{!FsLaws fs}.
Variable self : glob_settings.
Hypothesis Hroot : g_root self = u "/".
Hypothesis Hrootdir : ∀ st, full_stat fs (u "/") = Some st → isDirectory st = true.
Hypothesis Hmark : g_mark self = false.
Hypothesis Hnodir : g_nodir self = false.
Hypothesis Hreal : g_realpath self = false.
Abbreviation sets := (mm_set (g_minimatch self)).
Hypothesis Hsets : Forall (Forall (testable self)) sets.

Abbreviation afinds := (afinds rt fs self).
Abbreviation cont_finds := (cont_finds rt fs self).
Abbreviation entries_of := (entries_of fs).
Abbreviation ignored k := (isIgnored rt self k).

(** The matches an item will add to its set. *)
Definition simple_finds (f : jstr) (key : jstr) : Prop :=
  stat_path fs self f = true ∧ key = simple_key self f.
Definition cb_owes (cb : rdcb) (i : nat) (key : jstr) : Prop :=
  match cb with
  | Then k => i = cont_index k ∧ cont_finds k (entries_of (cont_abs k)) key
  | Res _ _ => False
  end.
Definition owes (x : item) (i : nat) (key : jstr) : Prop :=
  match x with
  | ITask (TLoop l index) => ∃ j set, l !! j = Some set ∧ i = index + j ∧ afinds set false key
  | ITask (TProcess p index g) => i = index ∧ afinds p g key
  | ITask (TReaddir _ _ cb) | ITask (TLstat _ cb _) => cb_owes cb i key
  | ITask (TEntries k entries) => i = cont_index k ∧ cont_finds k entries key
  | ITask (TGlobStarRest prefix abs remain index g entries) =>
      i = index ∧ rest_finds rt fs self prefix abs remain g entries key
  | ITask (TStatted f _ index _) => i = index ∧ simple_finds f key
  | ITask (TSimple f index b) => i = index ∧ b = true ∧ key = simple_key self f
  | ITask (TEmitMatch index e) => i = index ∧ key = e
  | ITask _ => False
  | IWait _ (WReaddir cb) | IWait _ (WLstat _ cb) => cb_owes cb i key
  | IWait _ (WStat f _ index) => i = index ∧ simple_finds f key
  | IOp (OpStat f _ index _) => i = index ∧ simple_finds f key
  | IOp _ => False
  | ITick _ _ | IHold _ => False
  end.
Definition owed (l : list item) (i : nat) (key : jstr) : Prop := ∃ x, x ∈ l ∧ owes x i key.

(** *** What is so of the items of a state *)

(** Links are followed, or it is known whether the path is one. *)
Definition link_known (s : glob) (abs : jstr) : Prop :=
  g_follow self = true ∨ is_Some (symlinks (cs s) !! abs).

Definition cont_ok (k : rdcont) : Prop :=
  cont_index k < length sets ∧
  cont_abs k = makeAbs self (default (u ".") (cont_prefix k)) ∧
  match k with
  | ThenReaddir _ _ r remain _ _ => is_Some (dot_ok self r) ∧ Forall (testable self) remain
  | ThenGlobStar _ _ remain _ _ => Forall (testable self) remain
  end.

Definition cb_ok (s : glob) (abs : jstr) (g : bool) (cb : rdcb) : Prop :=
  match cb with
  | Then k => cont_ok k ∧ cont_abs k = abs ∧ cont_star k = g
  | Res a h => a = abs ∧ h = true ∧ g = false ∧ link_known s abs
  end.

(** A path [_stat] asks about. *)
Definition looked_up (f abs : jstr) (index : nat) : Prop :=
  index < length sets ∧ abs = makeAbs self f ∧ too_long self f = false.

Definition waiter_ok (s : glob) (key : jstr) (w : waiter) : Prop :=
  match w with
  | WReaddir cb => ∃ abs g, key = readdir_key abs g ∧ makeAbs self abs = abs ∧ cb_ok s abs g cb
  | WLstat abs cb =>
      key = lstat_key abs ∧ makeAbs self abs = abs ∧ cb = Res abs true ∧ g_follow self = false
  | WStat f abs index => key = stat_key abs ∧ looked_up f abs index
  end.

Definition answer_ok (s : glob) (key : jstr) (a : answer) : Prop :=
  ∃ abs,
    (∃ g, key = readdir_key abs g ∧ a = AEntries (entries_of abs) ∧
          (g = true → is_Some (entries_of abs) → link_known s abs)) ∨
    ((key = lstat_key abs ∨ key = stat_key abs) ∧ a = AStat (lstatSync fs abs)).

Definition task_ok (s : glob) (t : task) : Prop :=
  match t with
  | TLoop l index => l ≠ [] ∧ l = drop index sets
  | TProcess p index _ => index < length sets ∧ Forall (testable self) p
  | TDone | TFinish => True
  | TReaddir abs g cb => makeAbs self abs = abs ∧ cb_ok s abs g cb
  | TLstat abs cb st =>
      makeAbs self abs = abs ∧ cb = Res abs true ∧ st = lstatSync fs abs ∧ g_follow self = false
  | TEntries k entries =>
      cont_ok k ∧ entries = entries_of (cont_abs k) ∧
      (cont_star k = true → is_Some entries → link_known s (cont_abs k))
  | TGlobStarRest prefix abs remain index g entries =>
      index < length sets ∧ abs = makeAbs self (default (u ".") prefix) ∧
      Forall (testable self) remain ∧ entries_of abs = Some entries ∧
      (g = true → link_known s abs)
  | TStatted f abs index lstat =>
      looked_up f abs index ∧ lstat = lstatSync fs abs
  | TSimple f index b => index < length sets ∧ b = stat_path fs self f
  | TEmitMatch index _ => ∃ l, found_sets s !! index = Some (Some l)
  | TRes key a | TResEnd key a => answer_ok s key a
  | TRealpathSet _ | TNext | TResume | TAgain _ _ _ => False
  end.

Definition item_ok (s : glob) (x : item) : Prop :=
  match x with
  | ITask t => task_ok s t
  | IWait _ _ | IHold _ => True
  | IOp (OpReaddir abs g) => makeAbs self abs = abs ∧ (g = true → link_known s abs)
  | IOp (OpLstat key abs) => key = lstat_key abs ∨ key = stat_key abs
  | IOp (OpStat f abs index lstat) =>
      looked_up f abs index ∧ lstatSync fs abs = Some lstat ∧ isSymbolicLink lstat = true
  | IOp (OpRealpath _ _) => False
  | ITick key a => answer_ok s key a
  end.

Definition table_ok (s : glob) : Prop :=
  ∀ key q, reqs s !! key = Some q →
    Forall (waiter_ok s key) (cbs q) ∧ default 0 (len q) ≤ length (cbs q).

(** The names the sets of the pattern lead to. *)
Definition wanted (i : nat) (key : jstr) : Prop :=
  ∃ set, sets !! i = Some set ∧ afinds set false key.

(** A state, and the items [x] the running code has taken out of it. *)
Record inv (x : list item) (s : glob) : Prop := {
  i_caches : caches_ok fs self (cs s);
  i_flags : paused s = false ∧ aborted s = false ∧ emitQueue s = [] ∧ processQueue s = [];
  i_len : length (found_sets s) = length sets;
  i_items : Forall (item_ok s) (x ++ items s);
  i_table : table_ok s;
  i_owner : concat (map owner (x ++ items s)) ≡ₚ table_keys (reqs s);
  i_jobs : processing s = Z.of_nat (sum_list_with jobs (x ++ items s));
  i_owes : ∀ i key, ignored key = false →
    wanted i key ↔ in_matches (found_sets s) i key ∨ owed (x ++ items s) i key }.

(** What only grows. *)
Definition grows (s s' : glob) : Prop :=
  symlinks (cs s) ⊆ symlinks (cs s') ∧
  ∀ i l, found_sets s !! i = Some (Some l) → ∃ l', found_sets s' !! i = Some (Some l').

Lemma grows_refl s : grows s s.
Proof. split; [done|]. eauto. Qed.

Lemma link_known_grows s s' abs : grows s s' → link_known s abs → link_known s' abs.
Proof. intros [Hs _] [H|[b Hb]]; [by left|]. right. exists b. by eapply lookup_weaken. Qed.

Lemma cb_ok_grows s s' abs g cb : grows s s' → cb_ok s abs g cb → cb_ok s' abs g cb.
Proof. intros Hg. destruct cb; [done|]. simpl. naive_solver eauto using link_known_grows. Qed.

Lemma waiter_ok_grows s s' key w : grows s s' → waiter_ok s key w → waiter_ok s' key w.
Proof.
  intros Hg. destruct w; [|done..]. intros (abs&g&?&?&?). exists abs, g.
  split_and!; [done..|by eapply cb_ok_grows].
Qed.

Lemma answer_ok_grows s s' key a : grows s s' → answer_ok s key a → answer_ok s' key a.
Proof.
  intros Hg (abs&[(g&?&?&Hk)|H]); exists abs; [left|by right].
  exists g. split_and!; [done..|]. eauto using link_known_grows.
Qed.

Lemma item_ok_grows s s' x : grows s s' → item_ok s x → item_ok s' x.
Proof.
  intros Hg. destruct x as [t|late w|o|key a|key]; [|done| | |done].
  - destruct t; simpl; try done;
      try (naive_solver eauto using link_known_grows, cb_ok_grows, answer_ok_grows).
    intros [l Hl]. by eapply (proj2 Hg).
  - destruct o; simpl; try done. naive_solver eauto using link_known_grows.
  - apply answer_ok_grows, Hg.
Qed.

(** *** Changes of a state *)

Lemma items_ask o s : items (ask o s) ≡ₚ IOp o :: items s.
Proof.
  unfold items, ask. cbn [todo reqs pending ticks set_pending]. rewrite map_app. cbn [map].
  solve_Permutation.
Qed.

Lemma items_wait key q w s :
  reqs s !! key = Some q → default 0 (len q) ≤ length (cbs q) →
  items (set_reqs (<[key := Request (cbs q ++ [w]) (len q)]> (reqs s)) s)
    ≡ₚ IWait (serving q) w :: items s.
Proof.
  intros Hq Hl. unfold items. cbn [todo reqs pending ticks set_reqs].
  rewrite table_items_insert, (table_items_lookup _ key q Hq). unfold request_items.
  rewrite waiting_push by done. rewrite map_app. unfold serving. cbn [map len].
  solve_Permutation.
Qed.

Lemma items_first key w s :
  reqs s !! key = None →
  items (set_reqs (<[key := Request [w] None]> (reqs s)) s) ≡ₚ IWait false w :: items s.
Proof.
  intros Hq. unfold items. cbn [todo reqs pending ticks set_reqs].
  rewrite table_items_insert, delete_id by done. unfold request_items. cbn. solve_Permutation.
Qed.

Lemma items_start key q s :
  reqs s !! key = Some q → len q = None →
  items s ≡ₚ map (IWait false) (cbs q) ++
    items (set_reqs (<[key := Request (cbs q) (Some (length (cbs q)))]> (reqs s)) s).
Proof.
  intros Hq Hl. unfold items. cbn [todo reqs pending ticks set_reqs].
  rewrite table_items_insert, (table_items_lookup _ key q Hq).
  replace (request_items q) with (map (IWait false) (cbs q)).
  2: { unfold request_items, waiting, serving. by rewrite Hl. }
  replace (request_items (Request (cbs q) (Some (length (cbs q))))) with (@nil item).
  2: { unfold request_items, waiting. cbn. by rewrite drop_all. }
  solve_Permutation.
Qed.

Lemma items_again key q s :
  reqs s !! key = Some q → is_Some (len q) →
  items s ≡ₚ map (IWait true) (waiting q) ++
    items (set_reqs (delete key (reqs s)) s) ∧
  items (set_reqs (<[key := Request (waiting q) None]> (reqs s)) s)
    ≡ₚ map (IWait false) (waiting q) ++ items (set_reqs (delete key (reqs s)) s).
Proof.
  intros Hq [l Hl]. unfold items. cbn [todo reqs pending ticks set_reqs].
  rewrite table_items_insert, (table_items_lookup _ key q Hq).
  replace (request_items q) with (map (IWait true) (waiting q)).
  2: { unfold request_items, serving. by rewrite Hl. }
  replace (request_items (Request (waiting q) None)) with (map (IWait false) (waiting q)).
  2: { unfold request_items. done. }
  split; solve_Permutation.
Qed.

Lemma items_tick key a s :
  items (set_ticks (ticks s ++ [(key, a)]) s) ≡ₚ ITick key a :: items s.
Proof.
  unfold items. cbn [todo reqs pending ticks set_ticks]. rewrite map_app. cbn [map fst snd].
  solve_Permutation.
Qed.

Lemma items_todo l s : items (set_todo l s) ≡ₚ map ITask l ++ items (set_todo [] s).
Proof. done. Qed.

Lemma owed_app l k i key : owed (l ++ k) i key ↔ owed l i key ∨ owed k i key.
Proof.
  unfold owed. setoid_rewrite elem_of_app. naive_solver.
Qed.

Lemma owed_cons x l i key : owed (x :: l) i key ↔ owes x i key ∨ owed l i key.
Proof. unfold owed. setoid_rewrite elem_of_cons. naive_solver. Qed.

Lemma owed_nil i key : owed [] i key ↔ False.
Proof. unfold owed. split; [intros (x&Hx&_)|done]. by apply not_elem_of_nil in Hx. Qed.

Lemma owed_perm l k i key : l ≡ₚ k → owed l i key ↔ owed k i key.
Proof. intros Hp. unfold owed. by setoid_rewrite Hp. Qed.

Lemma concat_perm {A} (l k : list (list A)) : l ≡ₚ k → concat l ≡ₚ concat k.
Proof. induction 1; simpl; [done|by f_equiv| |by etrans]. by rewrite !app_assoc, (Permutation_app_comm y). Qed.

Lemma owners_perm l k : l ≡ₚ k → concat (map owner l) ≡ₚ concat (map owner k).
Proof. intros Hp. by apply concat_perm, Permutation_map. Qed.

(** The items in hand and the items of the state are put down and taken up. *)
Lemma inv_items x y s s' :
  x ++ items s ≡ₚ y ++ items s' →
  cs s' = cs s → paused s' = paused s → aborted s' = aborted s → emitQueue s' = emitQueue s →
  processQueue s' = processQueue s → found_sets s' = found_sets s →
  processing s' = processing s → reqs s' = reqs s → inv x s → inv y s'.
Proof.
  intros Hp H1 H2 H3 H4 H5 H6 H7 H8 [].
  assert (Hg : grows s s') by (split; [by rewrite H1|rewrite H6; eauto]).
  split.
  - by rewrite H1.
  - by rewrite H2, H3, H4, H5.
  - by rewrite H6.
  - rewrite <-Hp. eapply Forall_impl; [exact i_items0|]. intros z Hz. by eapply item_ok_grows.
  - intros key q Hq. rewrite H8 in Hq. destruct (i_table0 key q Hq) as [Hw Hl]. split; [|done].
    eapply Forall_impl; [exact Hw|]. intros w. by apply waiter_ok_grows.
  - rewrite H8, <-i_owner0. by apply owners_perm.
  - rewrite H7, i_jobs0. by rewrite Hp.
  - intros i key Hi. rewrite H6, (i_owes0 i key Hi). by rewrite (owed_perm _ _ _ _ Hp).
Qed.

Lemma inv_perm x y s : x ≡ₚ y → inv x s → inv y s.
Proof. intros Hp. apply inv_items; [by rewrite Hp|done..]. Qed.

Lemma inv_ask o x s : inv (IOp o :: x) s → inv x (ask o s).
Proof. apply inv_items; [rewrite items_ask; solve_Permutation|done..]. Qed.

(** The parts of a state that hold no items change, and what is in hand. *)
Lemma inv_soft x y z s s' :
  inv (x ++ z) s →
  todo s' = todo s → reqs s' = reqs s → pending s' = pending s → ticks s' = ticks s →
  paused s' = paused s → aborted s' = aborted s → emitQueue s' = emitQueue s →
  processQueue s' = processQueue s →
  caches_ok fs self (cs s') → grows s s' → length (found_sets s') = length (found_sets s) →
  (processing s' + Z.of_nat (sum_list_with jobs x)
     = processing s + Z.of_nat (sum_list_with jobs y))%Z →
  concat (map owner x) ≡ₚ concat (map owner y) →
  Forall (item_ok s') y →
  (∀ i key, ignored key = false →
     in_matches (found_sets s') i key ∨ owed y i key ↔
     in_matches (found_sets s) i key ∨ owed x i key) →
  inv (y ++ z) s'.
Proof.
  intros [] Ht Hr Hp Hti H2 H3 H4 H5 Hc Hg Hl Hj Ho Hok Hw.
  assert (Hi : items s' = items s) by (unfold items; by rewrite Ht, Hr, Hp, Hti).
  split; rewrite ?Hi.
  - done.
  - by rewrite H2, H3, H4, H5.
  - by rewrite Hl.
  - rewrite <-app_assoc, !Forall_app in i_items0 |- *. destruct i_items0 as (_&Hz&Hs).
    split_and!; [done|eapply Forall_impl; [done|]; intros; by eapply item_ok_grows..].
  - intros key q Hq. rewrite Hr in Hq. destruct (i_table0 key q Hq) as [Hw' Hl']. split; [|done].
    eapply Forall_impl; [exact Hw'|]. intros w. by apply waiter_ok_grows.
  - rewrite Hr, <-i_owner0. rewrite <-!app_assoc, !map_app, !concat_app. by rewrite Ho.
  - rewrite <-app_assoc, !sum_list_with_app in i_jobs0 |- *. lia.
  - intros i key Hk. rewrite (i_owes0 i key Hk), <-!app_assoc, !(owed_app _ (z ++ _)).
    specialize (Hw i key Hk). tauto.
Qed.

Lemma inv_swap x y z s :
  inv (x ++ z) s → sum_list_with jobs x = sum_list_with jobs y →
  concat (map owner x) ≡ₚ concat (map owner y) → Forall (item_ok s) y →
  (∀ i key, ignored key = false → owed y i key ↔ owed x i key) → inv (y ++ z) s.
Proof.
  intros H Hj Ho Hok Hw. eapply inv_soft; [exact H|try done..]; [apply H|apply grows_refl|lia|].
  intros i key Hi. by rewrite Hw.
Qed.

(** One item in the place of another. *)
Lemma inv_swap1 a b x s :
  inv (a :: x) s → jobs a = jobs b → owner a = owner b → item_ok s b →
  (∀ i key, owes b i key ↔ owes a i key) → inv (b :: x) s.
Proof.
  intros H Hj Ho Hok Hw. apply (inv_swap [a] [b]); [done|simpl; lia| |by repeat constructor|].
  { simpl. by rewrite Ho. }
  intros i key _. rewrite !owed_cons, !owed_nil, Hw. done.
Qed.

(** *** The table of requests *)

Lemma table_ok_insert s key q :
  table_ok s → Forall (waiter_ok s key) (cbs q) → default 0 (len q) ≤ length (cbs q) →
  table_ok (set_reqs (<[key := q]> (reqs s)) s).
Proof.
  intros Ht Hq Hl k q'. cbn [reqs set_reqs].
  destruct (decide (key = k)) as [<-|Hk]; [rewrite lookup_insert_eq; intros [= <-]; done|].
  rewrite lookup_insert_ne by done. apply Ht.
Qed.

Lemma inv_wait key q w x s :
  reqs s !! key = Some q → waiter_ok s key w → inv (IWait (serving q) w :: x) s →
  inv x (set_reqs (<[key := Request (cbs q ++ [w]) (len q)]> (reqs s)) s).
Proof.
  intros Hq Hw []. destruct (i_table0 key q Hq) as [Hcb Hl].
  pose proof (items_wait key q w s Hq Hl) as Hp.
  assert (Hx : (IWait (serving q) w :: x) ++ items s ≡ₚ x ++
    items (set_reqs (<[key := Request (cbs q ++ [w]) (len q)]> (reqs s)) s))
    by (rewrite Hp; solve_Permutation).
  split; [done..| | | | |].
  - rewrite <-Hx. done.
  - apply table_ok_insert; [done| |]; cbn [cbs len].
    + apply Forall_app. split; [done|by repeat constructor].
    + rewrite length_app. lia.
  - cbn [reqs set_reqs]. rewrite <-(owners_perm _ _ Hx), i_owner0.
    rewrite (table_keys_lookup _ key q Hq), table_keys_insert. done.
  - cbn [processing set_reqs]. rewrite i_jobs0. by rewrite Hx.
  - intros i k Hk. cbn [found_sets set_reqs]. rewrite (i_owes0 i k Hk).
    by rewrite (owed_perm _ _ _ _ Hx).
Qed.

Lemma inv_first key a w x s :
  reqs s !! key = None → waiter_ok s key w → inv (a :: x) s →
  jobs (IWait false w) = jobs a → owner (IWait false w) = owner a →
  (∀ i k, owes (IWait false w) i k ↔ owes a i k) →
  inv (IHold key :: x) (set_reqs (<[key := Request [w] None]> (reqs s)) s).
Proof.
  intros Hq Hw [] Hj Ho Hs. pose proof (items_first key w s Hq) as Hp.
  assert (Hx : (IHold key :: x) ++ items (set_reqs (<[key := Request [w] None]> (reqs s)) s)
    ≡ₚ IHold key :: IWait false w :: x ++ items s) by (rewrite Hp; solve_Permutation).
  split; [done..| | | | |].
  - rewrite Hx. inversion i_items0; subst. by repeat constructor.
  - apply table_ok_insert; [done|by repeat constructor|]. simpl. lia.
  - cbn [reqs set_reqs]. rewrite (owners_perm _ _ Hx).
    cbn [map concat app] in i_owner0 |- *. rewrite Ho.
    rewrite table_keys_insert, delete_id, <-i_owner0 by done. cbn. done.
  - cbn [processing set_reqs]. rewrite Hx, i_jobs0.
    change (sum_list_with jobs (IHold key :: IWait false w :: x ++ items s))
      with (jobs (IWait false w) + sum_list_with jobs (x ++ items s)). rewrite Hj. done.
  - intros i k Hk. cbn [found_sets set_reqs]. rewrite (i_owes0 i k Hk).
    rewrite (owed_perm _ _ _ _ Hx). cbn [app]. rewrite !owed_cons, Hs. simpl. tauto.
Qed.

Lemma inv_owner_lookup x s z key b :
  inv x s → z ∈ x ++ items s → (key, b) ∈ owner z →
  ∃ q, reqs s !! key = Some q ∧ serving q = b.
Proof.
  intros [] Hz Hb. apply elem_table_keys. rewrite <-i_owner0.
  rewrite list_elem_of_In, in_concat. exists (owner z). rewrite <-!list_elem_of_In. split; [|done].
  apply list_elem_of_fmap. by exists z.
Qed.

Lemma serving_false (q : request waiter) : serving q = false ↔ len q = None.
Proof. unfold serving. rewrite bool_decide_eq_false. destruct (len q); naive_solver. Qed.

Lemma inv_start key a x s :
  inv (ITask (TRes key a) :: x) s →
  ∃ q, reqs s !! key = Some q ∧ len q = None ∧ Forall (waiter_ok s key) (cbs q) ∧
    answer_ok s key a ∧
    inv (map (IWait false) (cbs q) ++ ITask (TResEnd key a) :: x)
      (set_reqs (<[key := Request (cbs q) (Some (length (cbs q)))]> (reqs s)) s).
Proof.
  intros H. destruct (inv_owner_lookup _ _ (ITask (TRes key a)) key false H) as (q&Hq&Hs);
    [by left|by left|]. apply serving_false in Hs.
  destruct H. destruct (i_table0 key q Hq) as [Hcb Hl].
  inversion i_items0 as [|? ? Ha Hall]; subst.
  exists q. split_and!; [done..|]. pose proof (items_start key q s Hq Hs) as Hp.
  set (s' := set_reqs _ s) in *.
  assert (Hx : (map (IWait false) (cbs q) ++ ITask (TResEnd key a) :: x) ++ items s'
    ≡ₚ ITask (TResEnd key a) :: x ++ items s) by (rewrite Hp; solve_Permutation).
  split; [done..| | | | |].
  - rewrite Hx. by constructor.
  - by apply table_ok_insert.
  - rewrite (owners_perm _ _ Hx). cbn [reqs set_reqs s'].
    rewrite table_keys_insert. rewrite (table_keys_lookup _ key q Hq) in i_owner0.
    apply serving_false in Hs. rewrite Hs in i_owner0. cbn in i_owner0 |- *.
    apply Permutation_cons_inv in i_owner0. by rewrite i_owner0.
  - change (processing s') with (processing s). rewrite Hx, i_jobs0. done.
  - intros i k Hk. change (found_sets s') with (found_sets s). rewrite (i_owes0 i k Hk).
    rewrite (owed_perm _ _ _ _ Hx). cbn [app]. rewrite !owed_cons. done.
Qed.

Lemma inv_end key a x s :
  inv (ITask (TResEnd key a) :: x) s →
  ∃ q, reqs s !! key = Some q ∧ is_Some (len q) ∧
    inv (map (IWait true) (waiting q) ++ x) (set_reqs (delete key (reqs s)) s) ∧
    inv (ITick key a :: x) (set_reqs (<[key := Request (waiting q) None]> (reqs s)) s).
Proof.
  intros H. destruct (inv_owner_lookup _ _ (ITask (TResEnd key a)) key true H) as (q&Hq&Hs);
    [by left|by left|].
  assert (Hlen : is_Some (len q)) by by apply bool_decide_eq_true in Hs.
  destruct H. destruct (i_table0 key q Hq) as [Hcb Hl].
  inversion i_items0 as [|? ? Ha Hall]; subst.
  destruct (items_again key q s Hq Hlen) as [Hp Hp'].
  exists q. split; [done|]. split; [done|].
  rewrite (table_keys_lookup _ key q Hq), Hs in i_owner0. cbn in i_owner0.
  apply Permutation_cons_inv in i_owner0. split.
  - set (s' := set_reqs _ s) in *.
    assert (Hx : (map (IWait true) (waiting q) ++ x) ++ items s' ≡ₚ x ++ items s)
      by (rewrite Hp; solve_Permutation).
    split; [done..| | | | |].
    + by rewrite Hx.
    + intros k q'. cbn [reqs set_reqs s']. rewrite lookup_delete_Some. intros [_ Hk].
      by apply i_table0.
    + by rewrite (owners_perm _ _ Hx).
    + change (processing s') with (processing s). rewrite Hx, i_jobs0. done.
    + intros i k Hk. change (found_sets s') with (found_sets s). rewrite (i_owes0 i k Hk).
      rewrite (owed_perm _ _ _ _ Hx). cbn [app]. rewrite owed_cons. simpl. tauto.
  - set (s' := set_reqs (<[key:=_]> (reqs s)) s) in *.
    assert (Hit : items s ≡ₚ map (IWait true) (waiting q) ++ items (set_reqs (delete key (reqs s)) s))
      by done.
    assert (Hy : ∀ b : bool, Forall (item_ok s') (map (IWait b) (waiting q)) ∧
      concat (map owner (map (IWait b) (waiting q))) = concat (map owner (map (IWait true) (waiting q))) ∧
      sum_list_with jobs (map (IWait b) (waiting q)) = sum_list_with jobs (map (IWait true) (waiting q)) ∧
      ∀ i k, owed (map (IWait b) (waiting q)) i k ↔ owed (map (IWait true) (waiting q)) i k).
    { intros b. clear. induction (waiting q) as [|w l (I1&I2&I3&I4)]; [by repeat constructor|].
      split_and!; [by constructor|simpl; by rewrite I2|simpl; by rewrite I3|].
      intros i k. cbn [map]. rewrite !owed_cons, I4. done. }
    destruct (Hy false) as (Y1&Y2&Y3&Y4). split; [done..| | | | |].
    + cbn [app]. constructor; [done|]. rewrite Hp', Hp in *.
      rewrite !Forall_app in Hall |- *. naive_solver.
    + apply table_ok_insert; [done| |simpl; lia]. unfold waiting.
      by apply Forall_drop.
    + change (reqs s') with (<[key := Request (waiting q) None]> (reqs s)).
      rewrite table_keys_insert. change (serving (Request (waiting q) None)) with false.
      change (concat (map owner ((ITick key a :: x) ++ items s')))
        with ((key, false) :: concat (map owner (x ++ items s'))).
      rewrite <-i_owner0, !map_app, !concat_app, (owners_perm _ _ Hp'), (owners_perm _ _ Hit).
      rewrite !map_app, !concat_app. by rewrite Y2.
    + change (processing s') with (processing s). rewrite i_jobs0. f_equal.
      cbn [app]. change (sum_list_with jobs (?z :: ?l)) with (jobs z + sum_list_with jobs l).
      simpl. rewrite !sum_list_with_app, Hp', Hit, !sum_list_with_app, Y3. done.
    + intros i k Hk. change (found_sets s') with (found_sets s). rewrite (i_owes0 i k Hk).
      cbn [app]. rewrite !owed_cons, !owed_app, (owed_perm _ _ i k Hp'), (owed_perm _ _ i k Hit).
      rewrite !owed_app, Y4. simpl. tauto.
Qed.
End invariant.
