(* ===== verification/AsyncGlobFacts.v ===== *)
(** * The asynchronous glob walker: no answer is lost, and the order is free

    Whatever the order of the answers, a walk that nobody interferes with
    neither throws nor waits for ever, and what it finds is what [GlobSync]
    finds.  Each step keeps the invariant of [AsyncGlobInv] and makes the
    [weight] of what is still to happen smaller. *)

From S2P Require Import Prelude JsString PathPosix BraceExpansion Minimatch Glob GlobFacts.
From S2P Require Import Inflight AsyncGlob AsyncGlobInv.

Section walk.
Variable rt : runtime.
Variable fs : fsys.
Context `{!FsLaws fs}.
Variable self : glob_settings.
Hypothesis Hroot : g_root self = u "/".
Hypothesis Hrootdir : ∀ st, full_stat fs (u "/") = Some st → isDirectory st = true.
Hypothesis Hmark : g_mark self = false.
Hypothesis Hnodir : g_nodir self = false.
Hypothesis Hreal : g_realpath self = false.
Abbreviation sets := (mm_set (g_minimatch self)).
Hypothesis Hsets : Forall (Forall (testable self)) sets.

(** Directories are at most [D] deep and have at most [B] entries. *)
Variables D B : nat.
Hypothesis Hnames : ∀ abs l e, readdirSync fs abs = inl l → e ∈ l → seg_ok e ∧ plain e.
Hypothesis Hdepth : ∀ abs l, readdirSync fs abs = inl l → length (segs abs) ≤ D.
Hypothesis Hbranch : ∀ abs l, readdirSync fs abs = inl l → length l ≤ B.

Abbreviation inv := (inv rt fs self).
Abbreviation ignored k := (isIgnored rt self k).
Abbreviation entries_of := (entries_of fs).
Abbreviation afinds := (afinds rt fs self).
Abbreviation owed := (owed rt fs self).
Abbreviation owes := (owes rt fs self).
Abbreviation item_ok := (item_ok fs self).
Abbreviation link_known := (link_known self).
Abbreviation cont_ok := (cont_ok self).
Abbreviation waiter_ok := (waiter_ok self).
Abbreviation answer_ok := (answer_ok fs self).

(** ** Weights *)

Fixpoint W (n : nat) : nat := match n with 0 => 60 | S n => 60 + (2 * B + 1) * W n end.

(** A bound of the patterns that follow the listing of a directory. *)
Definition kids (k : rdcont) : nat :=
  match k with
  | ThenReaddir _ _ _ remain _ _ => magic remain * (D + 2) + (D + 1)
  | ThenGlobStar prefix _ remain _ _ =>
      S (magic remain) * (D + 2) + (D - depth self (default (u ".") prefix))
  end.
Definition cont_weight (k : rdcont) : nat :=
  12 + (if depth self (default (u ".") (cont_prefix k)) <=? D then (2 * B + 1) * W (kids k) else 0).
Definition cb_weight (cb : rdcb) : nat :=
  match cb with Then k => cont_weight k | Res _ _ => 3 end.
Definition waiter_weight (w : waiter) : nat :=
  match w with
  | WReaddir cb => cb_weight cb + 1
  | WLstat _ cb => cb_weight cb + 17
  | WStat _ _ _ => 11
  end.
Definition task_weight (t : task) : nat :=
  match t with
  | TLoop l _ => 1 + sum_list_with (λ set, S (W (bound self D set))) l
  | TProcess p _ _ => W (bound self D p)
  | TDone => 2
  | TReaddir _ g cb => cb_weight cb + (if g then 45 else 15)
  | TLstat _ cb _ => cb_weight cb + 16
  | TEntries k _ => cont_weight k
  | TGlobStarRest prefix abs remain i g _ =>
      5 + 2 * B * W (kids (ThenGlobStar prefix abs remain i g))
  | TStatted _ _ _ _ => 10
  | TSimple _ _ _ => 6
  | TRes _ _ => 3
  | _ => 1
  end.
Definition weight (x : item) : nat :=
  match x with
  | ITask t => task_weight t
  | IWait late w => waiter_weight w + (if late : bool then 5 else 0)
  | IOp (OpStat _ _ _ _) => 8
  | IOp _ => 4
  | ITick _ _ | IHold _ => 4
  end.
Definition total (x : list item) (s : glob) : nat := sum_list_with weight (x ++ items s).

Lemma W_mono n m : n ≤ m → W n ≤ W m.
Proof. induction 1; [done|]. cbn [W]. lia. Qed.

Lemma cont_weight_process p strs e remain k :
  string_prefix p = (strs, e :: remain) → e = GLOBSTAR ∨ is_Some (match e with Rx r => Some r | _ => None end) →
  cont_prefix k = prefix_of p strs →
  match k with
  | ThenReaddir _ _ _ rem _ _ => rem = remain
  | ThenGlobStar _ _ rem _ _ => rem = remain
  end →
  cont_weight k + 46 ≤ W (bound self D p).
Proof.
  intros Hs He Hp Hk. unfold cont_weight. rewrite Hp.
  assert (Hm : magic p = S (magic remain)).
  { rewrite string_prefix_magic, Hs. cbn [snd]. unfold magic.
    destruct He as [->|[r Hr]]; [done|]. by destruct e. }
  assert (Hb : bound self D p =
    S (magic remain) * (D + 2) + (D + 1 - depth self (default (u ".") (prefix_of p strs)))).
  { unfold bound, first_read. by rewrite Hm, Hs. }
  set (d := depth self _) in *. destruct (Nat.leb_spec d D).
  - assert (Hle : S (kids k) ≤ bound self D p).
    { rewrite Hb. destruct k; cbn [cont_prefix kids] in *; subst.
      - lia.
      - fold d. lia. }
    apply W_mono in Hle. cbn [W] in Hle. lia.
  - pose proof (W_mono 1 (bound self D p) ltac:(lia)) as H1. cbn [W] in H1. lia.
Qed.

Lemma total_perm x y s s' :
  x ++ items s ≡ₚ y ++ items s' → total x s = total y s'.
Proof. intros Hp. unfold total. by rewrite Hp. Qed.

Lemma total_cons a x s : total (a :: x) s = weight a + total x s.
Proof. done. Qed.

Lemma total_app x y s : total (x ++ y) s = sum_list_with weight x + total y s.
Proof. unfold total. by rewrite <-app_assoc, sum_list_with_app. Qed.

Lemma total_items x s s' : items s' = items s → total x s' = total x s.
Proof. intros H. unfold total. by rewrite H. Qed.

Lemma total_ask o x s : total x (ask o s) = weight (IOp o) + total x s.
Proof.
  rewrite <-total_cons. apply total_perm. rewrite items_ask. solve_Permutation.
Qed.

(** ** Tasks

    [goes t x s]: the task [t] runs; the invariant is kept, with [x] the other
    items in hand, and the weight drops. *)

Definition goes (a : item) (x : list item) (s : glob) (r : option (list task * glob)) : Prop :=
  ∃ ts s', r = Some (ts, s') ∧ inv (map ITask ts ++ x) s' ∧
    total (map ITask ts ++ x) s' < total (a :: x) s.

Lemma goes_soft a x s ts s' :
  inv (a :: x) s →
  todo s' = todo s → reqs s' = reqs s → pending s' = pending s → ticks s' = ticks s →
  paused s' = paused s → aborted s' = aborted s → emitQueue s' = emitQueue s →
  processQueue s' = processQueue s →
  caches_ok fs self (cs s') → grows s s' → length (found_sets s') = length (found_sets s) →
  (processing s' + Z.of_nat (jobs a)
     = processing s + Z.of_nat (sum_list_with jobs (map ITask ts)))%Z →
  owner a ≡ₚ concat (map owner (map ITask ts)) →
  Forall (item_ok s') (map ITask ts) →
  (∀ i key, ignored key = false →
     in_matches (found_sets s') i key ∨ owed (map ITask ts) i key ↔
     in_matches (found_sets s) i key ∨ owes a i key) →
  sum_list_with weight (map ITask ts) < weight a →
  goes a x s (Some (ts, s')).
Proof.
  intros H Ht Hr Hp Hti H2 H3 H4 H5 Hc Hg Hl Hj Ho Hok Hw Hwt.
  exists ts, s'. split; [done|]. split.
  - eapply (inv_soft rt fs self [a] (map ITask ts) x s); try done.
    + cbn. lia.
    + cbn. rewrite app_nil_r. done.
    + intros i key Hi. rewrite Hw, owed_cons, owed_nil by done. tauto.
  - rewrite total_app, total_cons.
    assert (total x s' = total x s) as ->; [|lia].
    apply total_items. unfold items. by rewrite Ht, Hr, Hp, Hti.
Qed.

(** The state stays as it is. *)
Lemma goes_same a x s ts :
  inv (a :: x) s → jobs a = sum_list_with jobs (map ITask ts) →
  owner a ≡ₚ concat (map owner (map ITask ts)) → Forall (item_ok s) (map ITask ts) →
  (∀ i key, owed (map ITask ts) i key ↔ owes a i key) →
  sum_list_with weight (map ITask ts) < weight a →
  goes a x s (Some (ts, s)).
Proof.
  intros H Hj Ho Hok Hw Hwt. apply goes_soft; try done; [apply H|apply grows_refl|by rewrite Hj|].
  intros i key _. by rewrite Hw.
Qed.

Lemma grows_same (s s' : glob) : cs s' = cs s → found_sets s' = found_sets s → grows s s'.
Proof. intros H1 H2. split; [by rewrite H1|]. rewrite H2. eauto. Qed.

Lemma done_goes x s : inv (ITask TDone :: x) s → goes (ITask TDone) x s (done s).
Proof.
  intros H. unfold done.
  destruct (_ <=? 0)%Z; apply goes_soft; try done; try apply H; try (by apply grows_same).
  all: try (cbn; lia).
  all: try (apply Forall_nil || by repeat constructor).
  all: intros i key _; cbn [map]; rewrite ?owed_cons, ?owed_nil; simpl; tauto.
Qed.

Lemma finish_goes x s : inv (ITask TFinish :: x) s → goes (ITask TFinish) x s (async_finish rt self s).
Proof.
  intros H. destruct (i_flags _ _ _ _ _ H) as (Hp&Ha&_&_). unfold async_finish.
  rewrite Ha, Hreal. cbn [andb negb].
  assert (finish_caches rt self (found_sets s) (cs s) = cs s) as -> by (unfold finish_caches; by rewrite Hmark).
  apply goes_soft; try done; [apply H|by apply grows_same|..|cbn; lia].
  intros i key _. cbn [map]. rewrite owed_nil. simpl. tauto.
Qed.

Lemma adds_in index P m m' i k : adds index P m m' → in_matches m' i k ↔ in_matches m i k ∨ (i = index ∧ P k).
Proof. intros [_ H]. apply H. Qed.

Lemma opens_grow m index i l :
  m !! i = Some (Some l) → ∃ l', open_matches index m !! i = Some (Some l').
Proof.
  unfold open_matches. intros Hm. destruct (decide (i = index)) as [->|Hi].
  - rewrite list_lookup_alter_eq, Hm. simpl. eauto.
  - rewrite list_lookup_alter_ne by congruence. eauto.
Qed.

Lemma add_grow m index e i l :
  m !! i = Some (Some l) → ∃ l', add_match index e m !! i = Some (Some l').
Proof.
  unfold add_match. intros Hm. destruct (decide (i = index)) as [->|Hi].
  - rewrite list_lookup_alter_eq, Hm. simpl. eauto.
  - rewrite list_lookup_alter_ne by congruence. eauto.
Qed.

Lemma emitMatch_goes x s index e :
  inv (ITask (TEmitMatch index e) :: x) s →
  goes (ITask (TEmitMatch index e)) x s (_emitMatch rt self index e s).
Proof.
  intros H. destruct (i_flags _ _ _ _ _ H) as (Hp&Ha&_&_).
  assert (Hok : task_ok fs self s (TEmitMatch index e))
    by (pose proof (i_items _ _ _ _ _ H) as Hi; by inversion Hi).
  destruct Hok as [l Hl]. unfold _emitMatch. rewrite Ha, Hl, Hp, Hmark, Hnodir. cbn [andb].
  assert (Hno : ∀ s' : glob, found_sets s' = found_sets s →
    (e ∈ l ∨ ignored e = true) →
    ∀ i key, ignored key = false →
     in_matches (found_sets s') i key ∨ owed [] i key ↔
     in_matches (found_sets s) i key ∨ owes (ITask (TEmitMatch index e)) i key).
  { intros s' -> He i key Hk. rewrite owed_nil. simpl. split; [tauto|].
    intros [?|[-> ->]]; [tauto|]. left. destruct He as [He|He]; [by exists l|congruence]. }
  case_bool_decide as He.
  { apply goes_soft; try done; [apply H|apply grows_refl| |cbn; lia]. apply Hno; auto. }
  destruct (ignored e) eqn:Hig.
  { apply goes_soft; try done; [apply H|apply grows_refl| |cbn; lia]. apply Hno; auto. }
  destruct (add_open_adds index e (found_sets s) (ex_intro _ l Hl)) as [Had _].
  destruct (statCache (cs s) !! makeAbs self e) as [[st|]|]; apply goes_soft; try done;
    try apply H; try (by cbn; lia); try apply Had;
    try (split; [done|]; intros i l' Hl'; by eapply add_grow);
    intros i key _; cbn [found_sets emit set_found set_cs];
    rewrite (adds_in _ _ _ _ _ _ Had), owed_nil; simpl; tauto.
Qed.

Lemma simple_goes x s f index b :
  inv (ITask (TSimple f index b) :: x) s →
  goes (ITask (TSimple f index b)) x s (_processSimple2 self f index b s).
Proof.
  intros H. assert (Hok : task_ok fs self s (TSimple f index b))
    by (pose proof (i_items _ _ _ _ _ H) as Hi; by inversion Hi).
  destruct Hok as [Hi _]. unfold _processSimple2.
  pose proof (open_adds index (found_sets s)) as Had.
  assert (Hopen : ∃ l, open_matches index (found_sets s) !! index = Some (Some l)).
  { apply open_is_open. by rewrite (i_len _ _ _ _ _ H). }
  destruct b; cbn [negb]; apply goes_soft; try done; try apply H; try apply Had;
    try (by cbn; lia); try (split; [done|]; intros i l' Hl'; by eapply opens_grow);
    try (by repeat constructor);
    intros i key _; cbn [found_sets set_found map];
    rewrite (adds_in _ _ _ _ _ _ Had), !owed_cons, owed_nil; simpl; naive_solver.
Qed.

(** *** Lists of tasks *)

Lemma sum_bound {A} (f : A → nat) l c : (∀ x, x ∈ l → f x ≤ c) → sum_list_with f l ≤ length l * c.
Proof.
  induction l as [|x l IH]; intros Hf; [done|]. cbn.
  pose proof (Hf x ltac:(by left)). specialize (IH (λ y Hy, Hf y ltac:(by right))). lia.
Qed.

Lemma sum_map {A C} (f : A → C) (g : C → nat) l : sum_list_with g (map f l) = sum_list_with (λ x, g (f x)) l.
Proof. induction l as [|x l IH]; [done|]. cbn. by rewrite IH. Qed.

Lemma sum_zero {A} (f : A → nat) l : (∀ x, x ∈ l → f x = 0) → sum_list_with f l = 0.
Proof. intros Hf. pose proof (sum_bound f l 0) as H. rewrite Nat.mul_0_r in H.
  enough (sum_list_with f l ≤ 0) by lia. apply H. intros x Hx. by rewrite Hf.
Qed.

Lemma owed_map {A} (f : A → item) l i key : owed (map f l) i key ↔ ∃ e, e ∈ l ∧ owes (f e) i key.
Proof.
  unfold AsyncGlobInv.owed. setoid_rewrite list_elem_of_fmap. naive_solver.
Qed.

(** Tasks that own nothing and carry nothing, and a [TDone]. *)
Lemma children_goes a x s s' l :
  inv (a :: x) s →
  todo s' = todo s → reqs s' = reqs s → pending s' = pending s → ticks s' = ticks s →
  paused s' = paused s → aborted s' = aborted s → emitQueue s' = emitQueue s →
  processQueue s' = processQueue s → processing s' = processing s →
  caches_ok fs self (cs s') → grows s s' → length (found_sets s') = length (found_sets s) →
  jobs a = 1 → owner a = [] →
  (∀ t, t ∈ l → jobs (ITask t) = 0 ∧ owner (ITask t) = [] ∧ item_ok s' (ITask t)) →
  (∀ i key, ignored key = false →
     in_matches (found_sets s') i key ∨ (∃ t, t ∈ l ∧ owes (ITask t) i key) ↔
     in_matches (found_sets s) i key ∨ owes a i key) →
  sum_list_with task_weight l + 2 < weight a →
  goes a x s (Some (l ++ [TDone], s')).
Proof.
  intros H Ht Hr Hp Hti H2 H3 H4 H5 H6 Hc Hg Hl Hj Ho Hch Hw Hwt.
  apply goes_soft; try done; rewrite ?map_app, ?Hj, ?Ho, ?H6.
  - rewrite sum_list_with_app, (sum_zero _ (map ITask l)); [cbn; lia|].
    intros y (t&->&Hy)%list_elem_of_fmap. by apply Hch.
  - rewrite concat_app. cbn [map concat owner app].
    enough (concat (map owner (map ITask l)) = []) as -> by done.
    rewrite map_map. clear Hw Hwt. induction l as [|t l IH]; [done|]. cbn.
    destruct (Hch t ltac:(by left)) as (_&Ht'&_). cbn [owner] in Ht'. rewrite Ht'. apply IH.
    intros t' Ht''. apply Hch. by right.
  - apply Forall_app. split; [|by repeat constructor]. apply Forall_forall.
    intros y (t&->&Hy)%list_elem_of_fmap. by apply Hch.
  - intros i key Hi. change (map ITask [TDone]) with [ITask TDone].
    rewrite owed_app, owed_map, owed_cons, owed_nil, <-Hw by done. simpl. tauto.
  - change (map ITask [TDone]) with [ITask TDone]. rewrite sum_list_with_app, sum_map.
    change (sum_list_with (λ t, weight (ITask t)) l) with (sum_list_with task_weight l).
    change (sum_list_with weight [ITask TDone]) with 2. lia.
Qed.

(** A listing that is there. *)
Lemma listed abs es :
  entries_of abs = Some es →
  length es ≤ B ∧ length (segs abs) ≤ D ∧ ∀ e, e ∈ es → seg_ok e ∧ plain e.
Proof.
  intros He%entries_of_dir. split_and!; eauto.
Qed.

Lemma cont_weight_listed k es :
  cont_abs k = makeAbs self (default (u ".") (cont_prefix k)) → entries_of (cont_abs k) = Some es →
  cont_weight k = 12 + (2 * B + 1) * W (kids k).
Proof.
  intros Hk He. destruct (listed _ _ He) as (_&Hd&_). unfold cont_weight, depth.
  rewrite <-Hk. apply Nat.leb_le in Hd. by rewrite Hd.
Qed.

Lemma filter_elem (f : jstr → bool) l e : e ∈ List.filter f l ↔ e ∈ l ∧ f e = true.
Proof. rewrite !list_elem_of_In, filter_In. done. Qed.

Lemma picks_filter prefix r dotOk es e :
  dot_ok self r = Some dotOk →
  picks rt self prefix r es e ↔ e ∈ List.filter (entry_matches rt self prefix r dotOk) es.
Proof.
  intros Hd. rewrite filter_elem. unfold picks. rewrite Hd. split; [naive_solver|]. intros [??]. eauto.
Qed.

Lemma readdir2_goes x s prefix abs r remain index g entries :
  let t := TEntries (ThenReaddir prefix abs r remain index g) entries in
  inv (ITask t :: x) s →
  goes (ITask t) x s (_processReaddir2 rt self prefix r remain index g entries s).
Proof.
  intros t H. assert (Hok : task_ok fs self s t)
    by (pose proof (i_items _ _ _ _ _ H) as Hi; by inversion Hi).
  destruct Hok as ((Hi&Habs&[dotOk Hdot]&Hrem)&Hen&_). cbn [cont_index cont_abs cont_prefix] in *.
  unfold _processReaddir2.
  assert (Hnone : (∀ i key, owes (ITask t) i key ↔ False) → goes (ITask t) x s (Some ([TDone], s))).
  { intros Hno. apply goes_same; try done; [by repeat constructor| |].
    - intros i key. rewrite Hno. cbn [map]. rewrite owed_cons, owed_nil. simpl. tauto.
    - cbn. unfold cont_weight. lia. }
  destruct entries as [es|]; [|apply Hnone; simpl; tauto].
  rewrite Hdot. set (matched := List.filter _ es).
  assert (Hpick : ∀ e, picks rt self prefix r es e ↔ e ∈ matched)
    by (intros e; by apply picks_filter).
  assert (Hlen : length matched ≤ B).
  { destruct (listed abs es) as [Hb _]; [done|]. etrans; [|exact Hb]. apply List.filter_length_le. }
  pose proof (cont_weight_listed (ThenReaddir prefix abs r remain index g) es Habs (eq_sym Hen)) as Hcw.
  pose proof (W_mono 0 (kids (ThenReaddir prefix abs r remain index g)) ltac:(lia)) as Hw0.
  set (k := ThenReaddir prefix abs r remain index g) in *. cbn [W] in Hw0.
  assert (HBw : length matched * W (kids k) ≤ B * W (kids k)) by (by apply Nat.mul_le_mono_r).
  assert (How : ∀ i key, owes (ITask t) i key ↔ i = index ∧ ∃ e, picks rt self prefix r es e ∧
      if last_part self remain then key = async_key self prefix e
      else afinds (Str (below prefix e) :: remain) g key) by done.
  setoid_rewrite Hpick in How.
  case_bool_decide as Hm.
  { apply Hnone. intros i key. split; [|done]. rewrite How. intros [_ (e&He&_)]. rewrite Hm in He.
    by apply not_elem_of_nil in He. }
  fold (last_part self remain). destruct (last_part self remain).
  - pose proof (open_adds index (found_sets s)) as Had.
    destruct (open_is_open index (found_sets s)) as [l0 Hl0];
      [by rewrite (i_len _ _ _ _ _ H)|].
    apply children_goes; try done; try apply H; try apply Had;
      try (split; [done|]; intros i l' Hl'; by eapply opens_grow).
    + intros t' (e&->&He)%list_elem_of_fmap. split_and!; [done..|]. by exists l0.
    + intros i key _. cbn [found_sets set_found]. rewrite (adds_in _ _ _ _ _ _ Had).
      setoid_rewrite list_elem_of_fmap. rewrite How. naive_solver.
    + rewrite sum_map. change (weight (ITask t)) with (cont_weight k). rewrite Hcw.
      eapply Nat.le_lt_trans; [apply Nat.add_le_mono_r, (sum_bound _ _ (W (kids k)))|lia].
      intros e _. cbn [task_weight]. lia.
  - apply children_goes; try done; try apply H; try (by apply grows_same).
    + intros t' (e&->&He)%list_elem_of_fmap. split_and!; [done..|]. split; [done|]. by constructor.
    + intros i key _. setoid_rewrite list_elem_of_fmap. rewrite How. naive_solver.
    + rewrite sum_map. change (weight (ITask t)) with (cont_weight k). rewrite Hcw.
      eapply Nat.le_lt_trans; [apply Nat.add_le_mono_r, (sum_bound _ _ (W (kids k)))|lia].
      intros e _. cbn [task_weight]. apply W_mono. unfold bound, k, kids.
      change (magic (Str (below prefix e) :: remain)) with (magic remain). lia.
Qed.

Lemma globstar2_goes x s prefix abs remain index g entries :
  let t := TEntries (ThenGlobStar prefix abs remain index g) entries in
  inv (ITask t :: x) s →
  goes (ITask t) x s (_processGlobStar2 prefix abs remain index g entries s).
Proof.
  intros t H. assert (Hok : task_ok fs self s t)
    by (pose proof (i_items _ _ _ _ _ H) as Hi; by inversion Hi).
  destruct Hok as ((Hi&Habs&Hrem)&Hen&Hlk). cbn [cont_index cont_abs cont_prefix cont_star] in *.
  destruct entries as [es|]; cbn [_processGlobStar2].
  - set (k := ThenGlobStar prefix abs remain index g) in *.
    pose proof (cont_weight_listed k es Habs (eq_sym Hen)) as Hcw.
    apply goes_same; try done.
    + constructor; [|constructor; [|constructor]].
      * split; [done|]. apply Forall_app. split; [apply prefix_parts_testable|done].
      * split_and!; try done. intros Hg. apply Hlk; [done|by eexists].
    + intros i key. cbn [map]. rewrite !owed_cons, owed_nil. simpl. tauto.
    + change (sum_list_with weight _) with
        (W (bound self D (prefix_parts prefix ++ remain)) + (5 + 2 * B * W (kids k) + 0)).
      change (weight (ITask t)) with (cont_weight k). rewrite Hcw.
      assert (W (bound self D (prefix_parts prefix ++ remain)) ≤ W (kids k)); [|lia].
      apply W_mono. unfold bound, k, kids. rewrite magic_app, magic_prefix_parts. lia.
  - apply goes_same; try done; [by repeat constructor| |].
    + intros i key. cbn [map]. rewrite owed_cons, owed_nil. simpl. tauto.
    + cbn. unfold cont_weight. lia.
Qed.

Lemma symlink_known s abs (g : bool) :
  caches_ok fs self (cs s) → (g = true → link_known s abs) →
  default false (symlinks (cs s) !! abs) && g = is_link fs self abs && g.
Proof.
  intros (_&_&Hc) Hk. destruct g; [|by rewrite !andb_false_r]. rewrite !andb_true_r.
  destruct (symlinks (cs s) !! abs) as [b|] eqn:Hb.
  - destruct (Hc abs b Hb) as (Hf&st&Hl&->). unfold is_link. by rewrite Hf, Hl.
  - destruct (Hk eq_refl) as [Hf|[b Hb']]; [|by rewrite Hb in Hb'].
    unfold is_link. by rewrite Hf.
Qed.

Lemma globstar_rest_goes x s prefix abs remain index g es :
  let t := TGlobStarRest prefix abs remain index g es in
  inv (ITask t :: x) s →
  goes (ITask t) x s (globstar_rest self prefix abs remain index g es s).
Proof.
  intros t H. assert (Hok : task_ok fs self s t)
    by (pose proof (i_items _ _ _ _ _ H) as Hi; by inversion Hi).
  destruct Hok as (Hi&Habs&Hrem&Hen&Hlk). unfold globstar_rest.
  rewrite symlink_known by (done || apply H).
  assert (How : ∀ i key, owes (ITask t) i key ↔
    i = index ∧ rest_finds rt fs self prefix abs remain g es key) by done.
  destruct (is_link fs self abs && g) eqn:Hlink.
  { apply goes_same; try done; [by repeat constructor| |cbn; lia].
    intros i key. cbn [map]. rewrite How, owed_cons, owed_nil. unfold rest_finds. rewrite Hlink.
    simpl. naive_solver. }
  set (k := ThenGlobStar prefix abs remain index g).
  set (f := λ e : jstr, if bool_decide (head e = Some 46%N) && negb (g_dot self) then [] else _).
  assert (Hel : ∀ t', t' ∈ concat (map f es) ↔ ∃ e (more : bool), e ∈ es ∧
    bool_decide (head e = Some 46%N) && negb (g_dot self) = false ∧
    t' = TProcess (prefix_parts prefix ++ Str e :: (if more then [GLOBSTAR] else []) ++ remain)
           index true).
  { intros t'. rewrite list_elem_of_In, in_concat. setoid_rewrite <-list_elem_of_In.
    setoid_rewrite list_elem_of_fmap. unfold f. split.
    - intros (l&(e&->&He)&Ht'). cbn beta in Ht'.
      destruct (bool_decide (head e = Some 46%N) && negb (g_dot self)) eqn:Hd; [by apply not_elem_of_nil in Ht'|].
      apply elem_of_cons in Ht' as [->|Ht']; [by exists e, false|].
      apply list_elem_of_singleton in Ht' as ->. by exists e, true.
    - intros (e&more&He&Hd&->). eexists. split; [by exists e|]. rewrite Hd.
      destruct more; [right|]; by left. }
  destruct (listed abs es Hen) as (Hb&Hd&Hnm).
  assert (Hpd : Forall (testable self) (prefix_parts prefix)) by apply prefix_parts_testable.
  apply children_goes; try done; try apply H; try (by apply grows_same).
  - intros t' (e&more&He&Hdot&->)%Hel. split_and!; [done..|]. split; [done|].
    apply Forall_app. split; [done|]. constructor; [done|]. by destruct more; [constructor|].
  - intros i key _. rewrite How. unfold rest_finds. rewrite Hlink. setoid_rewrite Hel. split.
    + intros [?|(t'&(e&more&He&Hdot&->)&[-> Ha])]; [by left|]. right. split_and!; [done..|].
      by exists e, more.
    + intros [?|(->&_&e&more&He&Hdot&Ha)]; [by left|]. right. eexists.
      split; [by exists e, more|]. done.
  - change (weight (ITask t)) with (5 + 2 * B * W (kids k)).
    assert (Hs : sum_list_with task_weight (concat (map f es)) ≤ length es * (2 * W (kids k))).
    { assert (Hone : ∀ e, e ∈ es → sum_list_with task_weight (f e) ≤ 2 * W (kids k)).
      { intros e He. unfold f.
        destruct (bool_decide (head e = Some 46%N) && negb (g_dot self)); [cbn; lia|].
        destruct (Hnm e He) as [Hseg Hpl].
        pose proof (below_deeper self Hroot prefix e remain Hseg Hpl) as Hdeep.
        assert (H1 : W (bound self D (prefix_parts prefix ++ Str e :: remain)) ≤ W (kids k)).
        { apply W_mono. unfold bound, k, kids. rewrite magic_app, magic_prefix_parts.
          change (magic (Str e :: remain)) with (magic remain). lia. }
        assert (H2 : W (bound self D (prefix_parts prefix ++ Str e :: GLOBSTAR :: remain)) ≤ W (kids k)).
        { apply W_mono. unfold bound, k, kids. rewrite magic_app, magic_prefix_parts.
          change (magic (Str e :: GLOBSTAR :: remain)) with (S (magic remain)).
          unfold depth in *. rewrite <-Habs in *. lia. }
        unfold sum_list_with. cbn [task_weight]. lia. }
      clear -Hone. induction es as [|e es IH]; [done|]. cbn [map concat length].
      rewrite sum_list_with_app. pose proof (Hone e ltac:(by left)).
      specialize (IH (λ y Hy, Hone y ltac:(by right))). lia. }
    assert (length es * (2 * W (kids k)) ≤ B * (2 * W (kids k))) by by apply Nat.mul_le_mono_r.
    lia.
Qed.

(** *** Looking up a path *)

(** As [goes], with a bound of the weight left. *)
Definition reaches (x : list item) (r : option (list task * glob)) (n : nat) : Prop :=
  ∃ ts s', r = Some (ts, s') ∧ inv (map ITask ts ++ x) s' ∧ total (map ITask ts ++ x) s' ≤ n.

Lemma goes_reaches a x s r n : reaches x r n → n < total (a :: x) s → goes a x s r.
Proof. intros (ts&s'&?&?&?) ?. exists ts, s'. split_and!; [done..|lia]. Qed.

Lemma reaches_goes a x s r n : goes a x s r → total (a :: x) s ≤ S n → reaches x r n.
Proof. intros (ts&s'&?&?&?) ?. exists ts, s'. split_and!; [done..|lia]. Qed.

Lemma total_wait key q w x s :
  reqs s !! key = Some q → default 0 (len q) ≤ length (cbs q) →
  total x (set_reqs (<[key := Request (cbs q ++ [w]) (len q)]> (reqs s)) s)
    = weight (IWait (serving q) w) + total x s.
Proof.
  intros Hq Hl. rewrite <-total_cons. apply total_perm. rewrite items_wait by done.
  solve_Permutation.
Qed.

Lemma total_first key w x s :
  reqs s !! key = None →
  total x (set_reqs (<[key := Request [w] None]> (reqs s)) s) = weight (IWait false w) + total x s.
Proof.
  intros Hq. rewrite <-total_cons. apply total_perm. rewrite items_first by done.
  solve_Permutation.
Qed.

(** A callback is put in the table; when it is the first, [k] makes the call. *)
Lemma inflight_reaches key a w x s k n :
  inv (a :: x) s → waiter_ok s key w →
  jobs (IWait false w) = jobs a → owner (IWait false w) = owner a →
  (∀ i key, owes (IWait false w) i key ↔ owes a i key) →
  total x s + waiter_weight w + 5 ≤ n →
  (∀ s1, s1 = set_reqs (<[key := Request [w] None]> (reqs s)) s →
     inv (IHold key :: x) s1 → total x s1 = total x s + waiter_weight w → reaches x (k s1) n) →
  reaches x (with_inflight key w s k) n.
Proof.
  intros H Hw Hj Ho How Hn Hk. unfold with_inflight, inflight.
  destruct (reqs s !! key) as [q|] eqn:Hq.
  - eexists [], _. split; [done|]. cbn [map app]. split.
    + apply inv_wait; [done..|]. by apply (inv_swap1 rt fs self a).
    + destruct (i_table _ _ _ _ _ H key q Hq) as [_ Hl].
      rewrite total_wait by done. cbn [weight]. destruct (serving q); lia.
  - apply Hk; [done| |].
    + by apply (inv_first rt fs self key a).
    + rewrite total_first by done. cbn [weight]. lia.
Qed.

(** The call is made. *)
Lemma ask_reaches key o x s n :
  inv (IHold key :: x) s → owner (IOp o) = [(key, false)] → jobs (IOp o) = 0 →
  (∀ i k, owes (IOp o) i k ↔ False) → item_ok s (IOp o) →
  total x s + 4 ≤ n → weight (IOp o) = 4 → reaches x (Some ([], ask o s)) n.
Proof.
  intros H Ho Hj How Hok Hn Hwt. eexists [], _. split; [done|]. cbn [map app]. split.
  - apply inv_ask. apply (inv_swap1 rt fs self (IHold key)); [done|done|done|done|].
    intros i k. rewrite How. done.
  - rewrite total_ask, Hwt. lia.
Qed.

Lemma stat_path_looked f abs st :
  abs = makeAbs self f → too_long self f = false → full_stat fs abs = Some st →
  stat_path fs self f = negb (ends_with_slash f && negb (isDirectory st)) ∧
  (ends_with_slash abs && negb (isDirectory st) = true → stat_path fs self f = false).
Proof.
  intros -> Hl Hst. unfold stat_path. rewrite Hl, Hst. split.
  - by destruct (ends_with_slash f), (isDirectory st).
  - intros He. bool_clean. destruct (abs_slash self f Hroot H) as [->|Hr]; [by rewrite H0|].
    rewrite Hr in Hst. by rewrite (Hrootdir st Hst) in H0.
Qed.

Lemma stat2_reaches a x s f abs index n :
  inv (a :: x) s → looked_up self f abs index → jobs a = 1 → owner a = [] →
  (∀ i key, owes a i key ↔ i = index ∧ simple_finds fs self f key) →
  total x s + 6 ≤ n →
  reaches x (_stat2 f abs index (full_stat fs abs) s) n.
Proof.
  intros H (Hi&Habs&Hl) Hj Ho How Hn.
  assert (Hgo : ∀ c, caches_ok fs self c → symlinks c = symlinks (cs s) →
    reaches x (Some ([TSimple f index (stat_path fs self f)], set_cs c s)) n).
  { intros c Hc Hs. eexists _, _. split; [done|]. cbn [map app]. split.
    - apply (inv_soft rt fs self [a] [ITask (TSimple f index (stat_path fs self f))] x s); try done.
      + split; [cbn [cs set_cs]; by rewrite Hs|eauto].
      + simpl. rewrite Hj. lia.
      + simpl. by rewrite Ho.
      + by repeat constructor.
      + intros i key _. rewrite !owed_cons, owed_nil, How. unfold simple_finds. simpl. naive_solver.
    - rewrite total_cons. assert (total x (set_cs c s) = total x s) as -> by done.
      cbn [weight task_weight]. lia. }
  pose proof (i_caches _ _ _ _ _ H) as Hc. unfold _stat2.
  destruct (full_stat fs abs) as [st|] eqn:Hst.
  - destruct (stat_path_looked f abs st Habs Hl Hst) as [H1 H2].
    destruct (ends_with_slash abs && negb (isDirectory st)).
    + rewrite <-(H2 eq_refl). apply Hgo; [|done]. by apply set_statCache_ok.
    + rewrite <-H1. apply Hgo; [|done].
      destruct (stat_result_ok fs self abs (ends_with_slash f) (cs s) Hc) as (c'&Hr&Hc'&_).
      rewrite Hst in Hr. cbn [stat_result] in Hr. injection Hr as <-. exact Hc'.
  - assert (stat_path fs self f = false) as Hfalse by (unfold stat_path; by rewrite Hl, <-Habs, Hst).
    rewrite <-Hfalse. apply Hgo; [|done]. by apply set_statCache_ok.
Qed.

Lemma full_stat_plain abs :
  match lstatSync fs abs with Some st => isSymbolicLink st = false | None => True end →
  full_stat fs abs = lstatSync fs abs.
Proof. unfold full_stat. destruct (lstatSync fs abs) as [st|]; [|done]. by intros ->. Qed.

Lemma statted_goes x s f abs index lstat :
  let t := TStatted f abs index lstat in
  inv (ITask t :: x) s → goes (ITask t) x s (lstatcb_stat f abs index lstat s).
Proof.
  intros t H. assert (Hok : task_ok fs self s t)
    by (pose proof (i_items _ _ _ _ _ H) as Hi; by inversion Hi).
  destruct Hok as (Hlo&->). unfold lstatcb_stat.
  assert (Hplain : full_stat fs abs = lstatSync fs abs →
    goes (ITask t) x s (_stat2 f abs index (lstatSync fs abs) s)).
  { intros <-. apply (goes_reaches _ _ _ _ (total x s + 6)).
    - by apply (stat2_reaches (ITask t)).
    - rewrite total_cons. cbn [weight task_weight t]. lia. }
  destruct (lstatSync fs abs) as [st|] eqn:Hst.
  - destruct (isSymbolicLink st) eqn:Hlink.
    + eexists [], _. split; [done|]. cbn [map app]. split.
      * apply inv_ask, (inv_swap1 rt fs self (ITask t)); try done.
      * rewrite total_ask, total_cons. cbn [weight task_weight t]. lia.
    + apply Hplain. rewrite full_stat_plain; rewrite Hst; done.
  - apply Hplain. rewrite full_stat_plain; rewrite Hst; done.
Qed.

Lemma stat_reaches x s f index n :
  index < length sets →
  inv (IWait false (WStat f (makeAbs self f) index) :: x) s →
  total x s + 20 ≤ n → reaches x (async_stat self f index s) n.
Proof.
  intros Hi H Hn. set (abs := makeAbs self f) in *.
  pose proof (i_caches _ _ _ _ _ H) as (Hc1&Hc2&Hc3).
  assert (Hans : ∀ b, b = stat_path fs self f → reaches x (Some ([TSimple f index b], s)) n).
  { intros b ->. eexists _, _. split; [done|]. cbn [map app]. split.
    - eapply (inv_swap1 rt fs self); [exact H|done..|].
      intros i key. simpl. unfold simple_finds. naive_solver.
    - rewrite total_cons. cbn [weight task_weight]. lia. }
  unfold async_stat. fold abs. destruct (too_long self f) eqn:Hl.
  { apply Hans. unfold stat_path. by rewrite Hl. }
  assert (Hstat : stat_path fs self f = match full_stat fs abs with None => false
    | Some st => negb (ends_with_slash f) || isDirectory st end)
    by (unfold stat_path; by rewrite Hl).
  assert (Hlook : reaches x
    (match statCache (cs s) !! abs with
     | Some None => Some ([TSimple f index false], s)
     | Some (Some st) =>
         Some ([TSimple f index (negb (ends_with_slash f && negb (isDirectory st)))], s)
     | None => with_inflight (stat_key abs) (WStat f abs index) s
                 (λ s, Some ([], ask (OpLstat (stat_key abs) abs) s))
     end) n).
  { destruct (statCache (cs s) !! abs) as [[st|]|] eqn:Hsc.
    - apply Hans. rewrite Hstat, (Hc2 _ _ Hsc). by destruct (ends_with_slash f), (isDirectory st).
    - apply Hans. by rewrite Hstat, (Hc2 _ _ Hsc).
    - apply (inflight_reaches _ (IWait false (WStat f abs index))); try done.
      + cbn [waiter_weight]. lia.
      + intros s1 _ H1 Ht. cbn [waiter_weight] in Ht. eapply ask_reaches; try done; [by right|lia]. }
  destruct (g_stat self); [exact Hlook|].
  destruct (cache (cs s) !! abs) as [v|] eqn:Hv; [|exact Hlook].
  pose proof (Hc1 _ _ Hv) as Htrue. destruct v; simpl in Htrue.
  - destruct (ends_with_slash f) eqn:Hends; [exact Hlook|]. apply Hans.
    destruct Htrue as [st Hst]. by rewrite Hstat, Hst.
  - destruct (ends_with_slash f) eqn:Hends; [exact Hlook|]. apply Hans. by rewrite Hstat, Htrue.
  - apply Hans. destruct Htrue as (st&Hst&Hd). by rewrite Hstat, Hst, Hd, orb_false_r.
  - apply Hans. destruct Htrue as (st&Hst&Hd). by rewrite Hstat, Hst, Hd, orb_true_r.
  - apply Hans. destruct (listed_is_dir fs abs _ Htrue) as [(st&Hst&Hd) _].
    by rewrite Hstat, Hst, Hd, orb_true_r.
Qed.

(** *** Listing a directory *)

Lemma set_reqs_cs r s : cs (set_reqs r s) = cs s.
Proof. done. Qed.

Lemma readdir_goes x s abs g cb :
  let t := TReaddir abs g cb in
  inv (ITask t :: x) s → goes (ITask t) x s (async_readdir self abs g cb s).
Proof.
  intros t H. assert (Hok : task_ok fs self s t)
    by (pose proof (i_items _ _ _ _ _ H) as Hi; by inversion Hi).
  destruct Hok as (Habs&Hcb). destruct (i_flags _ _ _ _ _ H) as (_&Ha&_&_).
  set (n := total x s + cb_weight cb + (if g then 44 else 14)).
  apply (goes_reaches _ _ _ _ n).
  2: { rewrite total_cons. cbn [weight task_weight t]. unfold n. destruct g; lia. }
  unfold async_readdir. rewrite Ha.
  apply (inflight_reaches _ (ITask t)); try done; [by exists abs, g| |].
  { cbn [waiter_weight]. unfold n. destruct g; lia. }
  intros s1 Hs1 H1 Ht1. cbn [waiter_weight] in Ht1.
  pose proof (i_caches _ _ _ _ _ H1) as Hc1.
  assert (Hn : total x s1 + (if g then 43 else 13) ≤ n) by (unfold n; rewrite Ht1; destruct g; lia).
  destruct (g && bool_decide (symlinks (cs s1) !! abs = None)) eqn:Hg.
  - apply andb_prop in Hg as [-> _]. unfold async_readdirInGlobStar.
    destruct (i_flags _ _ _ _ _ H1) as (_&Ha1&_&_). rewrite Ha1.
    destruct (g_follow self) eqn:Hf.
    + eexists _, _. split; [done|]. cbn [map app]. split.
      * apply (inv_swap1 rt fs self (IHold (readdir_key abs true))); try done.
        split; [done|]. split_and!; try done. by left.
      * rewrite total_cons. cbn [weight task_weight cb_weight]. lia.
    + apply (inflight_reaches _ (IHold (readdir_key abs true))); try done.
      * cbn [waiter_weight cb_weight]. lia.
      * intros s2 _ H2 Ht2. cbn [waiter_weight cb_weight] in Ht2.
        eapply ask_reaches; try done; [by left|lia].
  - assert (Hlk : g = true → link_known s1 abs).
    { intros ->. rewrite andb_true_l in Hg. apply bool_decide_eq_false in Hg. right.
      by destruct (symlinks (cs s1) !! abs). }
    assert (Hres : ∀ entries, entries = entries_of abs →
      reaches x (Some ([call_rd (Res abs g) entries], s1)) n).
    { intros entries ->. eexists _, _. split; [done|]. cbn [map app call_rd]. split.
      - apply (inv_swap1 rt fs self (IHold (readdir_key abs g))); try done.
        exists abs. left. exists g. split_and!; [done..|]. auto.
      - rewrite total_cons. cbn [weight task_weight]. destruct g; lia. }
    assert (Hask : reaches x (Some ([], ask (OpReaddir abs g) s1)) n).
    { eapply ask_reaches; try done. destruct g; lia. }
    destruct (cache (cs s1) !! abs) as [v|] eqn:Hv; [|exact Hask].
    pose proof (proj1 Hc1 _ _ Hv) as Htrue. destruct v; simpl in Htrue; try exact Hask.
    + apply Hres. symmetry. apply not_dir_entries; [done|]. by rewrite Htrue.
    + apply Hres. symmetry. apply not_dir_entries; [done|]. by destruct Htrue as (st&->&?).
    + apply Hres. symmetry. by apply entries_of_dir.
Qed.

Lemma lstat_goes x s abs cb lstat :
  let t := TLstat abs cb lstat in
  inv (ITask t :: x) s → goes (ITask t) x s (lstatcb_readdir abs cb lstat s).
Proof.
  intros t H. assert (Hok : task_ok fs self s t)
    by (pose proof (i_items _ _ _ _ _ H) as Hi; by inversion Hi).
  destruct Hok as (Habs&->&->&Hf). pose proof (i_caches _ _ _ _ _ H) as Hc.
  unfold lstatcb_readdir. cbn [call_rd].
  assert (Hnone : entries_of abs = None → ∀ s',
    item_ok s' (ITask (TRes (readdir_key abs true) (AEntries None)))).
  { intros He s'. exists abs. left. exists true. rewrite He. split_and!; [done..|].
    intros _ [? ?]. done. }
  destruct (lstatSync fs abs) as [st|] eqn:Hst.
  - pose proof (set_symlink_ok fs self (cs s) abs st Hc Hf Hst) as Hc'.
    assert (Hsub : symlinks (cs s) ⊆ symlinks (set_symlink (cs s) abs (isSymbolicLink st))).
    { apply map_subseteq_spec. intros k b Hb. cbn [symlinks set_symlink].
      destruct (decide (abs = k)) as [<-|Hk]; [|by rewrite lookup_insert_ne].
      rewrite lookup_insert_eq. destruct (proj2 (proj2 Hc) _ _ Hb) as (_&st'&Hst'&->). congruence. }
    destruct (negb (isSymbolicLink st) && negb (isDirectory st)) eqn:Hk.
    + apply andb_prop in Hk as [Hs%negb_true_iff Hd%negb_true_iff].
      assert (Hfull : full_stat fs abs = Some st) by (unfold full_stat; by rewrite Hst, Hs).
      apply goes_soft; try done.
      * apply set_cache_ok; [done|]. exists st. done.
      * split; [done|eauto].
      * constructor; [|constructor]. apply Hnone.
        apply not_dir_entries; [done|]. by rewrite Hfull.
      * intros i key _. cbn [map]. rewrite owed_cons, owed_nil. simpl. tauto.
      * cbn. lia.
    + apply goes_soft; try done.
      * split; [done|eauto].
      * constructor; [|constructor]. split; [done|]. split_and!; try done. right.
        cbn [cs set_cs symlinks set_symlink]. rewrite lookup_insert_eq. by eexists.
      * intros i key _. cbn [map]. rewrite owed_cons, owed_nil. simpl. tauto.
      * cbn. lia.
  - apply goes_same; try done.
    + constructor; [|constructor]. apply Hnone.
      apply not_dir_entries; [done|]. unfold full_stat. by rewrite Hst.
    + intros i key. cbn [map]. rewrite owed_cons, owed_nil. simpl. tauto.
    + cbn. lia.
Qed.

(** *** [_process] *)

Lemma process_reaches x s a p index g :
  inv (a :: x) s → index < length sets → Forall (testable self) p →
  jobs a = 0 → owner a = [] → (∀ i key, owes a i key ↔ i = index ∧ afinds p g key) →
  reaches x (async_process rt self p index g s) (total x s + W (bound self D p) - 1).
Proof.
  intros H Hi Htest Hj Ho How. destruct (i_flags _ _ _ _ _ H) as (Hp&Ha&_&_).
  unfold async_process. rewrite Ha. set (s1 := set_processing (processing s + 1) s).
  change (paused s1) with (paused s). rewrite Hp.
  assert (Hw0 : W 0 ≤ W (bound self D p)) by (apply W_mono; lia). cbn [W] in Hw0.
  assert (Hgo : ∀ b, jobs b = 1 → owner b = [] → item_ok s1 b →
    (∀ i key, owes b i key ↔ i = index ∧ afinds p g key) → inv (b :: x) s1).
  { intros b Hjb Hob Hokb Hwb. apply (inv_soft rt fs self [a] [b] x s); try done; try apply H.
    - by apply grows_same.
    - simpl. rewrite Hj, Hjb. lia.
    - simpl. by rewrite Ho, Hob.
    - by repeat constructor.
    - intros i key _. rewrite !owed_cons, !owed_nil, How, Hwb. done. }
  destruct (string_prefix p) as [strs [|e remain]] eqn:Hs.
  - apply stat_reaches; [done| |].
    + apply Hgo; try done. intros i key. rewrite (afinds_simple rt fs self p g strs key Hs). done.
    + change (total x s1) with (total x s). lia.
  - set (prefix := prefix_of p strs). set (abs := makeAbs self (default (u ".") prefix)).
    pose proof (afinds_magic rt fs self p g strs e remain index) as Hmagic.
    assert (Hrem : Forall (testable self) (e :: remain)).
    { pose proof (string_prefix_testable self p Htest) as Ht. by rewrite Hs in Ht. }
    inversion Hrem as [|? ? He Hrem']; subst.
    destruct (childrenIgnored rt self (default (u ".") prefix)) eqn:Hig.
    { eexists _, _. split; [done|]. cbn [map app]. split.
      - apply Hgo; try done. intros i key. rewrite (Hmagic key Hs). fold prefix. rewrite Hig.
        simpl. naive_solver.
      - rewrite total_cons. change (total x s1) with (total x s). cbn [weight task_weight]. lia. }
    assert (Habs : makeAbs self abs = abs) by (by apply makeAbs_idem).
    assert (Hcont : ∀ k, cont_ok k → cont_prefix k = prefix → cont_star k = g → cont_abs k = abs →
      cont_index k = index → cont_weight k + 46 ≤ W (bound self D p) →
      (∀ i key, owes (ITask (TReaddir abs g (Then k))) i key ↔ i = index ∧ afinds p g key) →
      reaches x (Some ([TReaddir abs g (Then k)], s1)) (total x s + W (bound self D p) - 1)).
    { intros k Hk1 Hk2 Hk3 Hk4 Hk5 Hk6 Hk7. eexists _, _. split; [done|]. cbn [map app]. split.
      - by apply Hgo.
      - rewrite total_cons. change (total x s1) with (total x s).
        cbn [weight task_weight cb_weight]. destruct g; lia. }
    destruct e as [|s0|r].
    + apply Hcont; try done.
      * eapply cont_weight_process; [exact Hs|by left|done|done].
      * intros i key. rewrite (Hmagic key Hs). fold prefix. rewrite Hig. simpl. naive_solver.
    + exfalso. by eapply string_prefix_rest.
    + apply Hcont; try done.
      * eapply cont_weight_process; [exact Hs|right; by eexists|done|done].
      * intros i key. rewrite (Hmagic key Hs). fold prefix. rewrite Hig. simpl. naive_solver.
Qed.

Lemma set_ok i set : sets !! i = Some set → Forall (testable self) set.
Proof. intros Hs. rewrite Forall_lookup in Hsets. by eapply Hsets. Qed.

(** The loop of the constructor begins a set and goes on. *)
Lemma loop_goes x s l index :
  let t := TLoop l index in
  inv (ITask t :: x) s → goes (ITask t) x s (exec rt self t s).
Proof.
  intros t H. assert (Hok : task_ok fs self s t)
    by (pose proof (i_items _ _ _ _ _ H) as Hi; by inversion Hi).
  destruct Hok as [Hne Hl]. destruct l as [|set l]; [done|]. cbn [exec t].
  assert (Hset : sets !! index = Some set).
  { rewrite <-(Nat.add_0_r index), <-lookup_drop, <-Hl. done. }
  assert (Hrest : l = drop (S index) sets).
  { rewrite <-Nat.add_1_r, <-drop_drop, <-Hl. done. }
  set (rest := match l with [] => [] | _ => [ITask (TLoop l (S index))] end).
  assert (Hsplit : inv ([ITask (TProcess set index false)] ++ rest ++ x) s).
  { rewrite app_assoc. apply (inv_swap rt fs self [ITask t]); [done|..].
    - unfold rest. by destruct l.
    - unfold rest. by destruct l.
    - constructor.
      + split; [by eapply lookup_lt_Some|by eapply set_ok].
      + unfold rest. destruct l; [constructor|]. constructor; [|constructor]. done.
    - intros i key _. rewrite owed_app, !owed_cons, !owed_nil. simpl. split.
      + intros [[[-> Ha]|[]]|Ho]; left.
        * exists 0, set. rewrite Nat.add_0_r. done.
        * unfold rest in Ho. destruct l as [|set' l]; [by apply owed_nil in Ho|].
          apply owed_cons in Ho as [Ho|Ho%owed_nil]; [|done]. destruct Ho as (j&set''&Hj&->&Ha).
          exists (S j), set''. split_and!; [done|lia|done].
      + intros [(j&set''&Hj&->&Ha)|[]]. destruct j as [|j].
        * left. left. cbn in Hj. simplify_eq. split; [lia|done].
        * right. unfold rest. destruct l as [|set' l]; [done|]. apply owed_cons. left.
          exists j, set''. split_and!; [done|lia|done]. }
  destruct (process_reaches (rest ++ x) s (ITask (TProcess set index false)) set index false Hsplit)
    as (ts&s'&->&Hinv&Htot); try done; [by eapply lookup_lt_Some|by eapply set_ok|].
  cbn [mbind option_bind]. eexists _, _. split; [done|].
  assert (Hmap : map ITask (ts ++ match l with [] => [] | _ => [TLoop l (S index)] end) ++ x
    = map ITask ts ++ rest ++ x).
  { rewrite map_app, <-app_assoc. unfold rest. by destruct l. }
  rewrite Hmap. split; [exact Hinv|]. eapply Nat.le_lt_trans; [exact Htot|].
  rewrite total_app, total_cons. cbn [weight task_weight t].
  change (sum_list_with (λ set, S (W (bound self D set))) (set :: l))
    with (S (W (bound self D set)) + sum_list_with (λ set, S (W (bound self D set))) l).
  assert (sum_list_with weight rest ≤ 1 + sum_list_with (λ set, S (W (bound self D set))) l); [|lia].
  unfold rest. destruct l as [|s0 l]; [cbn; lia|].
  change (sum_list_with weight [ITask (TLoop (s0 :: l) (S index))])
    with (1 + sum_list_with (λ set, S (W (bound self D set))) (s0 :: l) + 0). lia.
Qed.

(** *** [RES] *)

Lemma readdir_not_lstat a g b : readdir_key a g ≠ lstat_key b.
Proof. done. Qed.
Lemma readdir_not_stat a g b : readdir_key a g ≠ stat_key b.
Proof. done. Qed.

Lemma call_ok s key a w :
  waiter_ok s key w → answer_ok s key a →
  ∃ t, call_waiter w a = Some t ∧ task_weight t ≤ waiter_weight w ∧
    jobs (ITask t) = jobs (IWait false w) ∧ owner (ITask t) = owner (IWait false w) ∧
    item_ok s (ITask t) ∧ ∀ i k, owes (ITask t) i k ↔ owes (IWait false w) i k.
Proof.
  intros Hw (abs&Ha). destruct w as [cb|abs' cb|f abs' index]; simpl in Hw.
  - destruct Hw as (abs'&g&->&Habs&Hcb). destruct Ha as [(g'&Hk&->&Hlk)|[[Hk|Hk] ->]];
      [|by apply readdir_not_lstat in Hk|by apply readdir_not_stat in Hk].
    apply readdir_key_inj in Hk as [-> ->]. eexists. split; [done|].
    destruct cb as [k|b h]; simpl in Hcb.
    + destruct Hcb as (Hk&<-&<-). split_and!; try done. cbn. lia.
    + destruct Hcb as (->&->&->&Hl). split_and!; try done; [cbn; lia|].
      exists abs. left. exists true. done.
  - destruct Hw as (->&Habs&->&Hf). destruct Ha as [(g'&Hk&_)|[[Hk|Hk] ->]]; [done| |done].
    apply lstat_key_inj in Hk as ->. eexists. split; [done|]. split_and!; try done. cbn. lia.
  - destruct Hw as (->&Hlo). destruct Ha as [(g'&Hk&_)|[[Hk|Hk] ->]]; [done..|].
    apply stat_key_inj in Hk as ->. eexists. split; [done|]. split_and!; try done. cbn. lia.
Qed.

Lemma calls_ok s key a ws x :
  Forall (waiter_ok s key) ws → answer_ok s key a → inv (map (IWait false) ws ++ x) s →
  ∃ ts, mapM (λ w, call_waiter w a) ws = Some ts ∧ inv (map ITask ts ++ x) s ∧
    sum_list_with weight (map ITask ts) ≤ sum_list_with weight (map (IWait false) ws).
Proof.
  intros Hws Ha. revert x. induction Hws as [|w ws Hw _ IH]; intros x H; [by exists []|].
  destruct (call_ok s key a w Hw Ha) as (t&Hc&Hwt&Hj&Ho&Hok&How).
  assert (H1 : inv (map (IWait false) ws ++ ITask t :: x) s).
  { apply (inv_perm _ _ _ (ITask t :: map (IWait false) ws ++ x)); [solve_Permutation|].
    cbn [map app] in H. by eapply (inv_swap1 rt fs self). }
  destruct (IH _ H1) as (ts&Hm&Hinv&Hsum). exists (t :: ts). split_and!.
  - cbn. rewrite Hc. cbn. by rewrite Hm.
  - eapply inv_perm; [|exact Hinv]. cbn [map app]. solve_Permutation.
  - cbn [map]. unfold sum_list_with in *. cbn [weight] in *. lia.
Qed.

Lemma answer_ok_cs s s' key a : cs s' = cs s → answer_ok s key a → answer_ok s' key a.
Proof. intros Hc. unfold AsyncGlobInv.answer_ok, AsyncGlobInv.link_known. by rewrite Hc. Qed.

Lemma res_goes x s key a :
  let t := TRes key a in
  inv (ITask t :: x) s → goes (ITask t) x s (run_res key a s).
Proof.
  intros t H. destruct (inv_start rt fs self key a x s H) as (q&Hq&Hlen&Hws&Ha&Hinv).
  unfold run_res, res_start. rewrite Hq. cbn [mbind option_bind].
  pose proof (items_start key q s Hq Hlen) as Hit.
  set (s' := set_reqs (<[key := Request (cbs q) (Some (length (cbs q)))]> (reqs s)) s) in *.
  destruct (calls_ok s' key a (cbs q) (ITask (TResEnd key a) :: x)) as (ts&->&Hinv'&Hsum); try done.
  cbn [mbind option_bind]. eexists _, _. split; [done|].
  assert (Hmap : map ITask (ts ++ [TResEnd key a]) ++ x = map ITask ts ++ ITask (TResEnd key a) :: x)
    by by rewrite map_app, <-app_assoc.
  rewrite Hmap. split; [exact Hinv'|]. rewrite total_app, !total_cons.
  assert (total x s = sum_list_with weight (map (IWait false) (cbs q)) + total x s') as ->.
  { rewrite <-total_app. apply total_perm. rewrite Hit. solve_Permutation. }
  cbn [weight task_weight t]. lia.
Qed.

Lemma late_weight ws :
  sum_list_with weight (map (IWait true) ws)
    = 5 * length ws + sum_list_with weight (map (IWait false) ws).
Proof.
  induction ws as [|w ws IH]; [done|]. cbn [map length]. unfold sum_list_with in *.
  cbn [weight] in *. lia.
Qed.

Lemma end_goes x s key a :
  let t := TResEnd key a in
  inv (ITask t :: x) s → goes (ITask t) x s (end_res key a s).
Proof.
  intros t H. destruct (inv_end rt fs self key a x s H) as (q&Hq&Hlen&Hdel&Htick).
  destruct (items_again key q s Hq Hlen) as [Hit Hit'].
  unfold end_res, res_end. rewrite Hq. cbn [mbind option_bind].
  fold (waiting q).
  assert (Htot : total x s = sum_list_with weight (map (IWait true) (waiting q))
    + total x (set_reqs (delete key (reqs s)) s)).
  { rewrite <-total_app. apply total_perm. rewrite Hit. solve_Permutation. }
  destruct (Nat.ltb_spec (default 0 (len q)) (length (cbs q))) as [Hlt|Hge].
  - eexists _, _. split; [done|]. cbn [map app].
    set (s' := set_reqs (<[key := Request (waiting q) None]> (reqs s)) s) in *.
    change (ticks s) with (ticks s'). split.
    + apply (inv_items rt fs self (ITick key a :: x) x s'); [|done..]. rewrite items_tick. solve_Permutation.
    + rewrite total_cons, Htot, late_weight.
      assert (total x (set_ticks (ticks s' ++ [(key, a)]) s') =
        4 + (sum_list_with weight (map (IWait false) (waiting q))
             + total x (set_reqs (delete key (reqs s)) s))) as ->.
      { rewrite <-total_app. change 4 with (weight (ITick key a)). rewrite <-total_cons.
        apply total_perm. rewrite items_tick, Hit'. solve_Permutation. }
      assert (1 ≤ length (waiting q)) by (unfold waiting; rewrite length_drop; lia).
      cbn [weight task_weight t]. lia.
  - assert (Hw : waiting q = []) by (unfold waiting; by apply drop_ge).
    rewrite Hw in Hdel, Htot. eexists _, _. split; [done|]. cbn [map app] in *. split; [done|].
    rewrite total_cons, Htot. cbn. lia.
Qed.

(** *** Answers *)

Lemma readdirCb_goes x s abs g :
  let o := OpReaddir abs g in
  inv (IOp o :: x) s → goes (IOp o) x s (readdirCb self abs (Res abs g) (readdirSync fs abs) s).
Proof.
  intros o H. assert (Hok : item_ok s (IOp o))
    by (pose proof (i_items _ _ _ _ _ H) as Hi; by inversion Hi).
  destruct Hok as (Habs&Hlk). destruct (i_flags _ _ _ _ _ H) as (_&Ha&_&_).
  pose proof (i_caches _ _ _ _ _ H) as Hc. unfold readdirCb. rewrite Ha.
  assert (Hgo : ∀ c entries, caches_ok fs self c → symlinks c = symlinks (cs s) →
    entries = entries_of abs →
    goes (IOp o) x s (Some ([call_rd (Res abs g) entries], set_cs c s))).
  { intros c entries Hc' Hs ->. apply goes_soft; try done.
    - split; [cbn [cs set_cs]; by rewrite Hs|eauto].
    - constructor; [|constructor]. exists abs. left. exists g. split_and!; [done..|].
      intros Hg _. unfold AsyncGlobInv.link_known. cbn [cs set_cs]. rewrite Hs. by apply Hlk.
    - intros i key _. cbn [map call_rd]. rewrite owed_cons, owed_nil. simpl. tauto.
    - cbn. lia. }
  destruct (readdirSync fs abs) as [es|code] eqn:Hr.
  - apply Hgo; [by apply readdirEntries_ok|apply readdirEntries_symlinks|].
    symmetry. by apply entries_of_dir.
  - destruct (readdirError_ok fs self abs code (cs s) Habs Hr Hc) as (c'&->&Hc'&Hs).
    apply Hgo; [done..|]. unfold GlobFacts.entries_of. by rewrite Hr.
Qed.

Lemma answer_goes x s o :
  inv (IOp o :: x) s → goes (IOp o) x s (complete fs self o s).
Proof.
  intros H. assert (Hok : item_ok s (IOp o))
    by (pose proof (i_items _ _ _ _ _ H) as Hi; by inversion Hi).
  destruct o as [abs g|key abs|f abs index lstat|index p]; cbn [complete]; [| | |done].
  - by apply readdirCb_goes.
  - apply goes_same; try done.
    + constructor; [|constructor]. exists abs. right. done.
    + intros i k. cbn [map]. rewrite owed_cons, owed_nil. simpl. tauto.
    + cbn. lia.
  - destruct Hok as (Hlo&Hst&Hlink).
    assert (Hfull : Some (default lstat (statSync fs abs)) = full_stat fs abs).
    { unfold full_stat. by rewrite Hst, Hlink. }
    rewrite Hfull. apply (goes_reaches _ _ _ _ (total x s + 6)).
    + by apply (stat2_reaches (IOp (OpStat f abs index lstat))).
    + rewrite total_cons. cbn [weight]. lia.
Qed.

(** Every task of a walk that nobody interferes with. *)
Lemma exec_goes x s t : inv (ITask t :: x) s → goes (ITask t) x s (exec rt self t s).
Proof.
  intros H. assert (Hok : task_ok fs self s t)
    by (pose proof (i_items _ _ _ _ _ H) as Hi; by inversion Hi).
  destruct t; try done; [by apply loop_goes|..]; cbn [exec].
  - destruct Hok as [Hi Ht]. eapply goes_reaches; [by eapply process_reaches|].
    rewrite total_cons. cbn [weight task_weight]. pose proof (W_mono 0 (bound self D pattern)).
    cbn [W] in *. lia.
  - by apply done_goes.
  - by apply readdir_goes.
  - by apply lstat_goes.
  - destruct k; [by apply readdir2_goes|by apply globstar2_goes].
  - by apply globstar_rest_goes.
  - by apply statted_goes.
  - by apply simple_goes.
  - by apply emitMatch_goes.
  - by apply res_goes.
  - by apply end_goes.
  - by apply finish_goes.
Qed.
End walk.
