(* ===== verification/AsyncGlobRuns.v ===== *)
(** * The asynchronous glob walker: its runs

    Whatever the order of the answers, a plain walk ([plain_walk]) that nobody
    interferes with neither throws nor waits for ever, and what it finds is
    what the pattern leads to, which is what [GlobSync] finds when the pattern
    is relative. *)

From S2P Require Import Prelude JsString PathPosix BraceExpansion Minimatch Glob GlobFacts.
From S2P Require Import Inflight AsyncGlob AsyncGlobInv AsyncGlobFacts.

(** ** Steps *)

(** A [TProcess] or a [TEmitMatch] comes before a task that calls [done]. *)
Definition needs_cover (t : task) : bool :=
  match t with TProcess _ _ _ | TEmitMatch _ _ => true | _ => false end.
Fixpoint covered (l : list task) : Prop :=
  match l with
  | [] => True
  | t :: l => (needs_cover t = true → ∃ t', t' ∈ l ∧ jobs (ITask t') = 1) ∧ covered l
  end.

Lemma covered_app l k : covered l → covered k → covered (l ++ k).
Proof.
  induction l as [|t l IH]; [done|]. intros [Ht Hl] Hk. split; [|by apply IH].
  intros Hn. destruct (Ht Hn) as (t'&?&?). exists t'. split; [|done]. apply elem_of_app. by left.
Qed.

Lemma covered_done l : covered (l ++ [TDone]).
Proof.
  induction l as [|t l IH]; [by repeat constructor|]. split; [|done]. intros _.
  exists TDone. split; [|done]. apply elem_of_app. right. by left.
Qed.

(** Sets the loop has not begun, and calls of [_finish] to come. *)
Definition loop_sets (t : task) : nat := match t with TLoop l _ => length l | _ => 0 end.
Definition finishes (t : task) : nat := match t with TFinish => 1 | _ => 0 end.
Definition loops (s : glob) : nat := sum_list_with loop_sets (todo s).
Definition fins (s : glob) : nat := sum_list_with finishes (todo s).
Definition ends (s : glob) : list (list jstr) :=
  omap (λ e, match e with EEnd found => Some found | _ => None end) (events s).

(** A task without any of this. *)
Definition plain_task (t : task) : bool :=
  match t with
  | TLoop _ _ | TProcess _ _ _ | TEmitMatch _ _ | TFinish => false
  | _ => true
  end.

Lemma plain_tasks l :
  Forall (λ t, plain_task t = true) l →
  covered l ∧ sum_list_with loop_sets l = 0 ∧ sum_list_with finishes l = 0.
Proof.
  induction 1 as [|t l Ht _ (IH1&IH2&IH3)]; [done|]. unfold sum_list_with in *.
  split_and!; [split; [|done]|..]; destruct t; try done; simpl; lia.
Qed.

(** What a task does to the rest, [_finish] and [done] apart. *)
Record effect (t : task) (ts : list task) (s s' : glob) : Prop := {
  e_todo : todo s' = todo s;
  e_ends : ends s' = ends s;
  e_processing : (processing s' = processing s +
    match t with TLoop _ _ | TProcess _ _ _ => 1 | _ => 0 end)%Z;
  e_covered : covered ts;
  e_loops : sum_list_with loop_sets ts = loop_sets t - 1;
  e_fins : sum_list_with finishes ts = 0;
  e_found : found_sets s' = found_sets s ∨ needs_cover t = true ∨
    ∃ t', t' ∈ ts ∧ jobs (ITask t') = 1 }.

Lemma effect_plain t ts s s' :
  plain_task t = true →
  todo s' = todo s → ends s' = ends s → processing s' = processing s →
  Forall (λ t, plain_task t = true) ts → found_sets s' = found_sets s → effect t ts s s'.
Proof.
  intros Ht H1 H2 H3 (H4&H5&H6)%plain_tasks H7.
  split; try done; [rewrite H3; destruct t; try done; lia|rewrite H5; by destruct t|by left].
Qed.

Section effects.
Variable rt : runtime.
Variable self : glob_settings.

(** Tasks that leave the matches alone and make plain tasks. *)
Ltac plain_effect :=
  simplify_eq/=; repeat (case_match; simplify_eq/=; try done);
  apply effect_plain; try done; repeat constructor.

Lemma with_inflight_effect t key w s k ts s' :
  plain_task t = true →
  with_inflight key w s k = Some (ts, s') →
  (∀ r, k (set_reqs r s) = Some (ts, s') → effect t ts (set_reqs r s) s') →
  effect t ts s s'.
Proof.
  intros Ht H Hk. unfold with_inflight in H. destruct (inflight key w (reqs s)) as [[] r].
  - specialize (Hk r H). destruct Hk. by split.
  - simplify_eq. by apply effect_plain.
Qed.

Lemma stat2_effect t f abs index st s ts s' :
  plain_task t = true → _stat2 f abs index st s = Some (ts, s') → effect t ts s s'.
Proof. intros Ht. unfold _stat2. intros H. plain_effect. Qed.

Lemma stat_effect t f index s ts s' :
  plain_task t = true → async_stat self f index s = Some (ts, s') → effect t ts s s'.
Proof.
  intros Ht. unfold async_stat. intros H.
  assert (Hlook : ∀ r : option (list task * glob), r = Some (ts, s') →
    (∃ b, r = Some ([TSimple f index b], s)) ∨
    r = with_inflight (stat_key (makeAbs self f)) (WStat f (makeAbs self f) index) s
          (λ s, Some ([], ask (OpLstat (stat_key (makeAbs self f)) (makeAbs self f)) s)) →
    effect t ts s s').
  { intros r -> [[b Hb]|Hb].
    - simplify_eq. apply effect_plain; try done. by repeat constructor.
    - symmetry in Hb. eapply with_inflight_effect; [done|exact Hb|]. intros r' Hr.
      injection Hr as <- <-. by apply effect_plain. }
  eapply Hlook; [exact H|].
  repeat case_match; first [left; by eexists|by right].
Qed.

Lemma readdir_effect abs g cb s ts s' :
  async_readdir self abs g cb s = Some (ts, s') → effect (TReaddir abs g cb) ts s s'.
Proof.
  unfold async_readdir. destruct (aborted s).
  { intros. simplify_eq. by apply effect_plain. }
  intros H. eapply with_inflight_effect; [done|exact H|]. intros r Hr. clear H.
  cbv beta zeta in Hr.
  destruct (g && _).
  - unfold async_readdirInGlobStar in Hr. destruct (aborted _).
    { simplify_eq. by apply effect_plain. }
    destruct (g_follow self).
    { simplify_eq. apply effect_plain; try done. by repeat constructor. }
    eapply with_inflight_effect; [done|exact Hr|]. intros r' Hr'.
    injection Hr' as <- <-. by apply effect_plain.
  - plain_effect.
Qed.

Lemma process_effect p index g s ts s' :
  async_process rt self p index g s = Some (ts, s') →
  aborted s = false → effect (TProcess p index g) ts s s' ∧ Forall (λ t, plain_task t = true) ts ∧
    found_sets s' = found_sets s.
Proof.
  unfold async_process. intros H Ha. rewrite Ha in H.
  set (s1 := set_processing (processing s + 1) s) in *.
  assert (Hgo : ∀ ts s', effect TDone ts s1 s' → Forall (λ t, plain_task t = true) ts →
    found_sets s' = found_sets s1 →
    effect (TProcess p index g) ts s s' ∧ Forall (λ t, plain_task t = true) ts ∧
    found_sets s' = found_sets s).
  { intros ts0 s0 [] Hp Hf. split_and!; [|done..]. split; try done.
    - rewrite e_processing0. cbn. lia.
    - by left. }
  change (paused s1) with (paused s) in H. destruct (paused s).
  { simplify_eq. apply Hgo; [by apply effect_plain|constructor|done]. }
  destruct (string_prefix p) as [strs [|e remain]].
  - assert (He : effect TDone ts s1 s') by (by eapply stat_effect).
    assert (Hp : Forall (λ t, plain_task t = true) ts ∧ found_sets s' = found_sets s1).
    { clear -H. unfold async_stat, with_inflight in H.
      destruct (inflight _ _ _) as [[] r]; repeat (case_match; simplify_eq/=; try done);
        repeat constructor. }
    by apply Hgo; [|apply Hp..].
  - destruct (childrenIgnored _ _ _).
    { simplify_eq. apply Hgo; [|by repeat constructor|done].
      apply effect_plain; try done. by repeat constructor. }
    destruct e; [|done|]; simplify_eq; (apply Hgo; [|by repeat constructor|done]);
      (apply effect_plain; try done; by repeat constructor).
Qed.

Lemma calls_plain a ws ts :
  mapM (λ w, call_waiter w a) ws = Some ts → Forall (λ t, plain_task t = true) ts.
Proof.
  intros H%mapM_Some. induction H as [|w t ws ts Ht _ IH]; constructor; [|done].
  destruct w, a; try done; unfold call_waiter, call_rd in Ht; simplify_eq; try done.
  by destruct cb; simplify_eq.
Qed.


Lemma children_effect t l s s' :
  plain_task t = true → todo s' = todo s → ends s' = ends s → processing s' = processing s →
  Forall (λ t, loop_sets t = 0 ∧ finishes t = 0) l →
  effect t (l ++ [TDone]) s s'.
Proof.
  intros Ht H1 H2 H3 Hl. rewrite Forall_forall in Hl.
  assert (Hs : sum_list_with loop_sets (l ++ [TDone]) = 0 ∧
    sum_list_with finishes (l ++ [TDone]) = 0).
  { rewrite !sum_list_with_app, (sum_zero loop_sets l), (sum_zero finishes l); [done|..];
      intros e He; by apply Hl. }
  split; try done; [rewrite H3; destruct t; try done; lia|apply covered_done|..].
  - rewrite (proj1 Hs). by destruct t.
  - apply Hs.
  - right. right. exists TDone. split; [|done]. apply elem_of_app. right. by left.
Qed.

Lemma entries_effect k entries s ts s' :
  exec rt self (TEntries k entries) s = Some (ts, s') → effect (TEntries k entries) ts s s'.
Proof.
  cbn [exec]. destruct k as [prefix abs r remain index g|prefix abs remain index g]; intros H.
  - unfold _processReaddir2 in H. destruct entries as [es|]; [|by plain_effect].
    destruct (dot_ok self r) as [dotOk|]; [|done]. case_bool_decide; [by plain_effect|].
    destruct (_ && _ && _); simplify_eq; apply children_effect; try done;
      apply Forall_forall; intros t' (e&->&_)%list_elem_of_fmap; done.
  - unfold _processGlobStar2 in H. destruct entries as [es|]; [|by plain_effect]. simplify_eq.
    split; try done; [simpl; lia| |by left]. cbn [covered]. split; [|by repeat constructor].
    intros _. eexists. split; [by left|done].
Qed.

Lemma globstar_rest_effect prefix abs remain index g es s ts s' :
  let t := TGlobStarRest prefix abs remain index g es in
  exec rt self t s = Some (ts, s') → effect t ts s s'.
Proof.
  intros t. cbn [exec t]. unfold globstar_rest. destruct (_ && g); intros H; simplify_eq.
  - apply effect_plain; try done. by repeat constructor.
  - apply children_effect; try done. apply Forall_forall. intros t'.
    rewrite list_elem_of_In, in_concat. setoid_rewrite <-list_elem_of_In.
    setoid_rewrite list_elem_of_fmap. intros (l&(e&->&_)&Ht'). cbn beta in Ht'.
    destruct (bool_decide (head e = Some 46%N) && negb (g_dot self));
      [by apply not_elem_of_nil in Ht'|].
    apply elem_of_cons in Ht' as [->|Ht']; [done|]. by apply list_elem_of_singleton in Ht' as ->.
Qed.

Lemma emitMatch_effect index e s ts s' :
  _emitMatch rt self index e s = Some (ts, s') → effect (TEmitMatch index e) ts s s'.
Proof.
  unfold _emitMatch. intros H.
  assert (ts = [] ∧ todo s' = todo s ∧ ends s' = ends s ∧ processing s' = processing s)
    as (->&H1&H2&H3).
  { repeat (case_match; simplify_eq/=; try done). }
  split; try done; [rewrite H3; lia|]. right. by left.
Qed.

Lemma loop_effect l index s ts s' :
  l ≠ [] → aborted s = false →
  exec rt self (TLoop l index) s = Some (ts, s') → effect (TLoop l index) ts s s'.
Proof.
  intros Hl Ha. destruct l as [|set l]; [done|]. cbn [exec].
  destruct (async_process rt self set index false s) as [[ts0 s0]|] eqn:Hp; [|done].
  cbn [mbind option_bind]. intros H. simplify_eq.
  destruct (process_effect _ _ _ _ _ _ Hp Ha) as ([]&Hpl&Hf).
  destruct (plain_tasks _ Hpl) as (Hc&Hls&Hfs). split; try done.
  - apply covered_app; [done|]. by destruct l; repeat constructor.
  - rewrite sum_list_with_app, Hls. destruct l; simpl; lia.
  - rewrite sum_list_with_app, Hfs. by destruct l.
  - by left.
Qed.

Lemma exec_effect t s ts s' :
  aborted s = false → paused s = false → t ≠ TDone → t ≠ TFinish →
  match t with TLoop l _ => l ≠ [] | TRealpathSet _ | TNext | TResume | TAgain _ _ _ => False
             | _ => True end →
  exec rt self t s = Some (ts, s') → effect t ts s s'.
Proof.
  intros Ha Hp Hd Hf Ht H. destruct t; try done.
  - by eapply loop_effect.
  - by eapply process_effect.
  - by eapply readdir_effect.
  - cbn [exec] in H. unfold lstatcb_readdir, call_rd in H. plain_effect.
  - by eapply entries_effect.
  - by eapply globstar_rest_effect.
  - cbn [exec] in H. unfold lstatcb_stat in H. destruct lstat as [st|]; [|by eapply stat2_effect].
    destruct (isSymbolicLink st); [by plain_effect|by eapply stat2_effect].
  - cbn [exec] in H. unfold _processSimple2 in H. destruct exists_; simplify_eq/=.
    + apply (children_effect _ [TEmitMatch index (simple_key self path)]); try done.
      by repeat constructor.
    + by apply (children_effect _ []).
  - by eapply emitMatch_effect.
  - cbn [exec] in H. unfold run_res in H. destruct (res_start key (reqs s)) as [[ws r]|]; [|done].
    cbn [mbind option_bind] in H. destruct (mapM _ ws) as [calls|] eqn:Hc; [|done].
    cbn [mbind option_bind] in H. simplify_eq. apply effect_plain; try done.
    apply Forall_app. split; [by eapply calls_plain|by repeat constructor].
  - cbn [exec] in H. unfold end_res in H. destruct (res_end key (reqs s)) as [[[] r]|];
      cbn [mbind option_bind] in H; simplify_eq; by apply effect_plain.
Qed.

Lemma complete_effect fs o s ts s' :
  g_realpath self = false → (∀ i p, o ≠ OpRealpath i p) →
  complete fs self o s = Some (ts, s') →
  todo s' = todo s ∧ ends s' = ends s ∧ processing s' = processing s ∧
  found_sets s' = found_sets s ∧ Forall (λ t, plain_task t = true) ts.
Proof.
  intros Hr Ho H. destruct o; [| | |by edestruct Ho]; cbn [complete] in H.
  - unfold readdirCb, call_rd in H. repeat (case_match; simplify_eq/=; try done);
      split_and!; try done; by repeat constructor.
  - simplify_eq. split_and!; try done. by repeat constructor.
  - unfold _stat2 in H. repeat (case_match; simplify_eq/=; try done);
      split_and!; try done; by repeat constructor.
Qed.
End effects.

(** ** Runs *)

Section runs.
Variable rt : runtime.
Variable fs : fsys.
Context `{!FsLaws fs}.
Variable self : glob_settings.
Hypothesis Hroot : g_root self = u "/".
Hypothesis Hrootdir : ∀ st, full_stat fs (u "/") = Some st → isDirectory st = true.
Hypothesis Hmark : g_mark self = false.
Hypothesis Hnodir : g_nodir self = false.
Hypothesis Hreal : g_realpath self = false.
Abbreviation sets := (mm_set (g_minimatch self)).
Hypothesis Hsets : Forall (Forall (testable self)) sets.
Variables D B : nat.
Hypothesis Hnames : ∀ abs l e, readdirSync fs abs = inl l → e ∈ l → seg_ok e ∧ plain e.
Hypothesis Hdepth : ∀ abs l, readdirSync fs abs = inl l → length (segs abs) ≤ D.
Hypothesis Hbranch : ∀ abs l, readdirSync fs abs = inl l → length l ≤ B.

Abbreviation inv := (inv rt fs self).
Abbreviation total := (total self D B).
Abbreviation goes := (goes rt fs self D B).
Abbreviation step := (step rt fs self).
Abbreviation names m := (finish rt self m no_caches).

(** Of the sets, some have not been begun, each other one may have made an
    [end] event, and there is one more as long as a call of [done] is to come;
    when there is none, the last [end] event has told all. *)
Record good (s : glob) : Prop := {
  g_inv : inv [] s;
  g_covered : covered (todo s);
  g_ends : length (ends s) + fins s + loops s + (if (processing s =? 0)%Z then 0 else 1)
           ≤ length sets;
  g_last : loops s = 0 → processing s = 0%Z →
           1 ≤ fins s ∨ head (ends s) = Some (names (found_sets s)) }.

Lemma names_caches m c : finish rt self m c = names m.
Proof. unfold finish. by rewrite Hmark. Qed.

Lemma jobs_in x s t : inv x s → t ∈ x ++ items s → jobs t = 1 → (1 ≤ processing s)%Z.
Proof.
  intros H Ht Hj. rewrite (i_jobs _ _ _ _ _ H).
  pose proof (sum_list_with_in t jobs (x ++ items s) Ht). lia.
Qed.

Lemma items_push ts s : items (push (ts, s)) = map ITask ts ++ items s.
Proof. unfold items, push. cbn [fst snd todo set_todo]. by rewrite map_app, <-app_assoc. Qed.

Lemma goes_push a s r :
  goes a [] s r → ∀ r', r = Some r' → inv [] (push r') ∧ total [] (push r') < total [a] s.
Proof.
  intros (ts&s'&->&Hinv&Htot) r' [= <-]. split.
  - apply (inv_items rt fs self (map ITask ts ++ []) [] s'); [|done..|exact Hinv].
    rewrite items_push, app_nil_r. done.
  - eapply Nat.le_lt_trans; [|exact Htot]. unfold AsyncGlobFacts.total. rewrite items_push, app_nil_r. done.
Qed.

Lemma items_task t l s : todo s = t :: l → items s ≡ₚ ITask t :: items (set_todo l s).
Proof. intros Ht. unfold items. rewrite Ht. done. Qed.

Lemma take_task t l s :
  todo s = t :: l → inv [] s →
  inv [ITask t] (set_todo l s) ∧ total [ITask t] (set_todo l s) = total [] s.
Proof.
  intros Ht H. pose proof (items_task t l s Ht) as Hp. split.
  - by apply (inv_items rt fs self [] [ITask t] s).
  - symmetry. by apply total_perm.
Qed.

Lemma step_inv s s' : inv [] s → step s s' → inv [] s' ∧ total [] s' < total [] s.
Proof.
  intros H Hs. destruct Hs as [s t l r Ht Hr|s l1 key a l2 Ht Hk|s l1 o l2 r Ht Ho Hr].
  - destruct (take_task t l s Ht H) as [H1 <-].
    eapply goes_push; [|exact Hr]. by apply exec_goes.
  - set (s1 := set_ticks (l1 ++ l2) s).
    assert (Hp : items s ≡ₚ ITick key a :: items s1).
    { unfold items, s1. cbn [todo reqs pending ticks set_ticks]. rewrite Hk, !map_app.
      cbn [map fst snd]. solve_Permutation. }
    assert (H1 : inv [ITick key a] s1) by (by apply (inv_items rt fs self [] [ITick key a] s)).
    assert (total [ITick key a] s1 = total [] s) as <- by (symmetry; by apply total_perm).
    eapply goes_push; [|done]. apply goes_same; try done.
    + constructor; [|constructor]. pose proof (i_items _ _ _ _ _ H1) as Hi. by inversion Hi.
    + intros i k. cbn [map]. rewrite owed_cons, owed_nil. simpl. tauto.
    + cbn. lia.
  - set (s1 := set_pending (l1 ++ l2) s) in *.
    assert (Hp : items s ≡ₚ IOp o :: items s1).
    { unfold items, s1. cbn [todo reqs pending ticks set_pending]. rewrite Ho, !map_app.
      cbn [map]. solve_Permutation. }
    assert (H1 : inv [IOp o] s1) by (by apply (inv_items rt fs self [] [IOp o] s)).
    assert (total [IOp o] s1 = total [] s) as <- by (symmetry; by apply total_perm).
    eapply goes_push; [|exact Hr]. by apply answer_goes.
Qed.

Lemma covered_jobs s t l : inv [] s → todo s = t :: l → covered (todo s) → needs_cover t = true →
  (1 ≤ processing s)%Z.
Proof.
  intros H Ht Hc Hn. rewrite Ht in Hc. destruct Hc as [Hc _]. destruct (Hc Hn) as (t'&Hin&Hj).
  apply (jobs_in [] s (ITask t')); [done| |done]. cbn [app]. unfold items. rewrite Ht.
  apply elem_of_app. left. right. apply list_elem_of_fmap. by exists t'.
Qed.

Lemma sum_todo f t l s : todo s = t :: l → sum_list_with f (todo s) = f t + sum_list_with f l.
Proof. by intros ->. Qed.

(** A task other than [TDone] and [TFinish]. *)
Lemma good_effect s t l ts s' :
  good s → todo s = t :: l → inv [] (push (ts, s')) → effect t ts (set_todo l s) s' →
  (match t with TLoop l _ => l ≠ [] | _ => True end) → finishes t = 0 → good (push (ts, s')).
Proof.
  intros [H1 H2 H3 H4] Ht Hinv He Hl Hf. destruct He.
  change (todo (set_todo l s)) with l in *.
  assert (Hfins : fins (push (ts, s')) = fins s).
  { unfold fins, push. cbn [fst snd todo set_todo]. rewrite (sum_todo _ _ _ _ Ht), sum_list_with_app.
    rewrite e_fins0, e_todo0. lia. }
  assert (Hloops : loops (push (ts, s')) = loops s - (match t with TLoop _ _ => 1 | _ => 0 end)).
  { unfold loops, push. cbn [fst snd todo set_todo]. rewrite (sum_todo _ _ _ _ Ht), sum_list_with_app.
    rewrite e_loops0, e_todo0. destruct t as [[|]| | | | | | | | | | | | | | | |]; try done; simpl; lia. }
  assert (Hends : ends (push (ts, s')) = ends s) by done.
  assert (Hproc : processing (push (ts, s')) = (processing s +
    match t with TLoop _ _ | TProcess _ _ _ => 1 | _ => 0 end)%Z) by done.
  assert (Hnn : (0 ≤ processing s)%Z) by (rewrite (i_jobs _ _ _ _ _ H1); lia).
  pose proof (covered_jobs s t l H1 Ht H2) as Hcj.
  split; [done| | |].
  - unfold push. cbn [fst snd todo set_todo]. rewrite e_todo0. apply covered_app; [done|].
    rewrite Ht in H2. apply H2.
  - rewrite Hends, Hfins, Hloops, Hproc.
    assert (Hpos : match t with TLoop _ _ => 1 ≤ loops s | _ => True end).
    { destruct t as [[|]| | | | | | | | | | | | | | | |]; try done. unfold loops.
      rewrite (sum_todo _ _ _ _ Ht). simpl. lia. }
    destruct t; try (rewrite Nat.sub_0_r, Z.add_0_r; exact H3).
    + destruct (Z.eqb_spec (processing s + 1) 0); [lia|].
      destruct (Z.eqb_spec (processing s) 0); lia.
    + specialize (Hcj eq_refl). destruct (Z.eqb_spec (processing s + 1) 0); [lia|].
      destruct (Z.eqb_spec (processing s) 0); lia.
  - rewrite Hends, Hfins, Hloops, Hproc. intros Hl0 Hp0.
    destruct e_found0 as [Hfs|[Hn|(t'&Hin&Hj)]].
    + change (found_sets (push (ts, s'))) with (found_sets s'). rewrite Hfs.
      apply H4; destruct t; lia.
    + specialize (Hcj Hn). destruct t; lia.
    + exfalso. enough (1 ≤ processing (push (ts, s')))%Z by lia.
      apply (jobs_in [] _ (ITask t')); [done| |done]. cbn [app]. rewrite items_push.
      apply elem_of_app. left. apply list_elem_of_fmap. by exists t'.
Qed.

(** No task in sight: only plain ones are added. *)
Lemma good_plain s ts s' :
  good s → inv [] (push (ts, s')) → todo s' = todo s → ends s' = ends s →
  processing s' = processing s → found_sets s' = found_sets s →
  Forall (λ t, plain_task t = true) ts → good (push (ts, s')).
Proof.
  intros [H1 H2 H3 H4] Hinv Ht He Hp Hf (Hc&Hl&Hfi)%plain_tasks.
  assert (Hfins : fins (push (ts, s')) = fins s).
  { unfold fins, push. cbn [fst snd todo set_todo]. by rewrite sum_list_with_app, Hfi, Ht. }
  assert (Hloops : loops (push (ts, s')) = loops s).
  { unfold loops, push. cbn [fst snd todo set_todo]. by rewrite sum_list_with_app, Hl, Ht. }
  split; [done| | |].
  - unfold push. cbn [fst snd todo set_todo]. rewrite Ht. by apply covered_app.
  - rewrite Hfins, Hloops. change (ends (push (ts, s'))) with (ends s').
    change (processing (push (ts, s'))) with (processing s'). by rewrite He, Hp.
  - rewrite Hfins, Hloops. change (ends (push (ts, s'))) with (ends s').
    change (processing (push (ts, s'))) with (processing s').
    change (found_sets (push (ts, s'))) with (found_sets s'). by rewrite He, Hp, Hf.
Qed.

Lemma good_done s l ts s' :
  good s → todo s = TDone :: l → inv [] (push (ts, s')) →
  done (set_todo l s) = Some (ts, s') → good (push (ts, s')).
Proof.
  intros [H1 H2 H3 H4] Ht Hinv Hd. unfold done in Hd. injection Hd as <- <-.
  cbn [processing set_processing set_todo] in *.
  assert (Hp : (1 ≤ processing s)%Z).
  { apply (jobs_in [] s (ITask TDone)); [done| |done]. cbn [app]. unfold items. rewrite Ht. by left. }
  rewrite Ht in H2. destruct H2 as [_ H2].
  unfold fins, loops in H3, H4. rewrite Ht in H3, H4. cbn [sum_list_with finishes loop_sets] in H3, H4.
  destruct (Z.eqb_spec (processing s) 0); [lia|].
  split; [done| | |]; unfold push, fins, loops; cbn [fst snd todo set_todo set_processing];
    change (ends (set_todo _ _)) with (ends s);
    change (processing (set_todo _ _)) with (processing s - 1)%Z.
  - apply covered_app; [|done]. by destruct (_ <=? 0)%Z; repeat constructor.
  - destruct (Z.leb_spec (processing s - 1) 0); destruct (Z.eqb_spec (processing s - 1) 0);
      cbn [app sum_list_with finishes loop_sets] in *; lia.
  - intros _ Hz. left. rewrite Hz. cbn. lia.
Qed.

Lemma good_finish s l ts s' :
  good s → todo s = TFinish :: l → inv [] (push (ts, s')) →
  async_finish rt self (set_todo l s) = Some (ts, s') → good (push (ts, s')).
Proof.
  intros [H1 H2 H3 H4] Ht Hinv Hd. destruct (i_flags _ _ _ _ _ H1) as (_&Ha&_&_).
  unfold async_finish in Hd. change (aborted (set_todo l s)) with (aborted s) in Hd.
  rewrite Ha, Hreal in Hd. cbn [andb] in Hd. injection Hd as <- <-.
  rewrite Ht in H2. destruct H2 as [_ H2].
  unfold fins, loops in H3, H4. rewrite Ht in H3, H4. cbn [sum_list_with finishes loop_sets] in H3, H4.
  split; [done|done| |].
  - change (ends (push ([], ?s))) with (ends s). unfold fins, loops, push.
    cbn [fst snd todo set_todo app]. unfold ends. cbn. fold (ends s). lia.
  - intros _ _. right. unfold ends. cbn. by rewrite names_caches.
Qed.

Lemma step_good s s' : good s → step s s' → good s'.
Proof.
  intros Hg Hs. pose proof (proj1 (step_inv s s' (g_inv s Hg) Hs)) as Hinv.
  destruct (i_flags _ _ _ _ _ (g_inv s Hg)) as (Hp&Ha&_&_).
  destruct Hs as [s t l [ts s1] Ht Hr|s l1 key a l2 Ht Hk|s l1 o l2 [ts s1] Ht Ho Hr].
  - destruct (take_task t l s Ht (g_inv s Hg)) as [H1 _].
    assert (Hok : task_ok fs self (set_todo l s) t)
      by (pose proof (i_items _ _ _ _ _ H1) as Hi; by inversion Hi).
    assert (Hcases : t = TDone ∨ t = TFinish ∨ (t ≠ TDone ∧ t ≠ TFinish)).
    { destruct t; auto; right; right; done. }
    destruct Hcases as [->|[->|[Hd Hf]]];
      [by eapply good_done|by eapply good_finish|].
    eapply good_effect; [done|done|done| |by destruct t; try apply Hok|by destruct t].
    eapply exec_effect; [..|exact Hr]; try done. destruct t; try done. apply Hok.
  - apply (good_plain s [TRes key a] (set_ticks (l1 ++ l2) s)); try done. by repeat constructor.
  - assert (Hok : item_ok fs self s (IOp o)).
    { pose proof (i_items _ _ _ _ _ (g_inv s Hg)) as Hi. rewrite Forall_forall in Hi.
      apply Hi. cbn [app]. unfold items. rewrite Ho, map_app. cbn [map]. set_solver. }
    assert (Hne : ∀ i p, o ≠ OpRealpath i p) by by intros i p ->.
    destruct (complete_effect self fs o _ _ _ Hreal Hne Hr) as (E1&E2&E3&E4&E5).
    by apply (good_plain s ts s1).
Qed.

Lemma steps_good s s' : rtc step s s' → good s → good s'.
Proof. induction 1 as [|s s1 s' Hs _ IH]; [done|]. intros Hg. apply IH. by eapply step_good. Qed.

(** Every run of the code is finite. *)
Lemma good_finite s : good s → Acc (flip step) s.
Proof.
  remember (total [] s) as n eqn:Hn. revert s Hn.
  induction n as [n IH] using lt_wf_ind. intros s -> Hg. constructor. intros s' Hs.
  destruct (step_inv s s' (g_inv s Hg) Hs) as [_ Hlt]. eapply IH; [exact Hlt|done|].
  by eapply step_good.
Qed.

(** And does not stop before the end. *)
Lemma good_progress s : good s → at_rest s ∨ ∃ s', step s s'.
Proof.
  intros Hg. destruct (todo s) as [|t l] eqn:Ht.
  - destruct (ticks s) as [|[key a] l] eqn:Hk.
    + destruct (pending s) as [|o l] eqn:Ho; [by left|]. right.
      assert (Hp : items s ≡ₚ IOp o :: items (set_pending l s)).
      { unfold items. cbn [todo reqs pending ticks set_pending]. rewrite Ho. cbn [map].
        solve_Permutation. }
      assert (H1 : inv [IOp o] (set_pending l s))
        by (apply (inv_items rt fs self [] [IOp o] s); [done..|apply Hg]).
      assert (goes (IOp o) [] (set_pending l s) (complete fs self o (set_pending l s)))
        as (ts&s'&Hr&_) by by apply answer_goes.
      exists (push (ts, s')). by apply (step_answer rt fs self s [] o l).
    + right. eexists. by apply (step_tick rt fs self s [] key a l).
  - right. destruct (take_task t l s Ht (g_inv s Hg)) as [H1 _].
    assert (goes (ITask t) [] (set_todo l s) (exec rt self t (set_todo l s)))
      as (ts&s'&Hr&_) by by apply exec_goes.
    exists (push (ts, s')). by eapply step_task.
Qed.

(** *** The start and the end *)

Lemma start_good c :
  sets ≠ [] → g_noprocess self = false → caches_ok fs self c → good (new_Glob self c).
Proof.
  intros Hne Hnp Hc.
  assert (Htodo : todo (new_Glob self c) = [TLoop sets 0]).
  { unfold new_Glob. cbn [todo]. rewrite Hnp. by destruct sets. }
  assert (Hitems : items (new_Glob self c) = [ITask (TLoop sets 0)]).
  { unfold items. rewrite Htodo. cbn [reqs pending ticks new_Glob]. unfold table_items.
    by rewrite map_to_list_empty. }
  split.
  - split; rewrite ?Hitems; cbn [app].
    + done.
    + done.
    + apply length_replicate.
    + constructor; [|constructor]. by split; [|rewrite drop_0].
    + intros key q Hq. cbn [reqs new_Glob] in Hq. by rewrite lookup_empty in Hq.
    + unfold table_keys. cbn [reqs new_Glob]. by rewrite map_to_list_empty.
    + done.
    + intros i key _. rewrite owed_cons, owed_nil. unfold wanted. simpl. split.
      * intros (set&Hset&Hf). right. left. by exists i, set.
      * intros [(l&Hl&_)|[(j&set&Hj&->&Hf)|[]]].
        -- by apply lookup_replicate in Hl as [? _].
        -- by exists set.
  - rewrite Htodo. by repeat constructor.
  - unfold fins, loops, ends. rewrite Htodo. cbn [events new_Glob processing omap sum_list_with].
    simpl. lia.
  - unfold loops. rewrite Htodo. simpl. destruct sets; simpl; [done|]. lia.
Qed.

Lemma owner_waiter s key w k b :
  waiter_ok self s key w → (k, b) ∈ owner (IWait false w) →
  (∃ abs, k = readdir_key abs true) ∧ (∀ abs, key ≠ readdir_key abs true).
Proof.
  destruct w as [cb|abs cb|f abs index]; simpl.
  - intros (abs&g&->&_&Hcb) Hk. destruct cb as [k'|a h]; [by apply not_elem_of_nil in Hk|].
    destruct Hcb as (->&->&->&_). apply list_elem_of_singleton in Hk. simplify_eq.
    split; [by eexists|]. by intros abs' [_ ?]%readdir_key_inj.
  - intros (->&_&->&_) Hk. apply list_elem_of_singleton in Hk. simplify_eq.
    split; [by eexists|done].
  - intros _ Hk. by apply not_elem_of_nil in Hk.
Qed.

(** Nothing waits in the table for an answer that will not come. *)
Lemma rest_items s : inv [] s → at_rest s → reqs s = ∅ ∧ items s = [].
Proof.
  intros H (Ht&Hp&Hk).
  assert (Hit : items s = table_items (reqs s)).
  { unfold items. rewrite Ht, Hp, Hk. cbn [map app]. by rewrite app_nil_r. }
  assert (Hown : ∀ key q, reqs s !! key = Some q → ∃ key2 q2 w, reqs s !! key2 = Some q2 ∧
    waiter_ok self s key2 w ∧ (key, serving q) ∈ owner (IWait false w)).
  { intros key q Hq. assert (Hin : (key, serving q) ∈ table_keys (reqs s))
      by (apply elem_table_keys; by exists q).
    rewrite <-(i_owner _ _ _ _ _ H) in Hin. cbn [app] in Hin. rewrite Hit in Hin.
    rewrite list_elem_of_In, in_concat in Hin. setoid_rewrite <-list_elem_of_In in Hin.
    destruct Hin as (l&(x&->&Hx)%list_elem_of_fmap&Hin).
    apply elem_table_items in Hx as (key2&q2&w&Hq2&Hw&->). exists key2, q2, w.
    split_and!; [done| |done]. destruct (i_table _ _ _ _ _ H key2 q2 Hq2) as [Hall _].
    rewrite Forall_forall in Hall. apply Hall. unfold waiting in Hw.
    rewrite <-(take_drop (default 0 (len q2)) (cbs q2)). apply elem_of_app. by right. }
  assert (Hempty : reqs s = ∅).
  { apply map_eq. intros key. rewrite lookup_empty. destruct (reqs s !! key) as [q|] eqn:Hq; [|done].
    exfalso. destruct (Hown key q Hq) as (key2&q2&w&Hq2&Hw&Hin).
    destruct (owner_waiter _ _ _ _ _ Hw Hin) as [_ Hno].
    destruct (Hown key2 q2 Hq2) as (key3&q3&w3&_&Hw3&Hin3).
    destruct (owner_waiter _ _ _ _ _ Hw3 Hin3) as [[abs ->] _]. by eapply Hno. }
  split; [done|]. rewrite Hit, Hempty. unfold table_items. by rewrite map_to_list_empty.
Qed.

(** At rest the last [end] event has the names the sets lead to. *)
Lemma rest_ends s :
  good s → at_rest s → g_nonull self = false →
  ∃ found earlier, ends s = found :: earlier ∧ length (ends s) ≤ length sets ∧
    (∀ k, k ∈ found ↔ isIgnored rt self k = false ∧
       ∃ set, set ∈ sets ∧ afinds rt fs self set false k) ∧
    (g_nounique self = false → NoDup found).
Proof.
  intros [H _ He Hl] Hr Hnull. destruct (rest_items s H Hr) as [_ Hit]. destruct Hr as (Ht&_&_).
  assert (Hp : processing s = 0%Z) by (rewrite (i_jobs _ _ _ _ _ H), Hit; done).
  unfold loops, fins in *. rewrite Ht in *. cbn [sum_list_with] in *.
  destruct (Hl eq_refl Hp) as [?|Hlast]; [lia|].
  destruct (ends s) as [|found earlier]; [done|]. injection Hlast as ->.
  exists (names (found_sets s)), earlier. split; [done|]. split; [lia|]. split.
  - intros k. rewrite elem_finish by done. split.
    + intros [Hi (i&Hm)]. split; [done|].
      destruct (proj2 (i_owes _ _ _ _ _ H i k Hi) (or_introl Hm)) as (set&Hset&Hf).
      exists set. split; [by eapply list_elem_of_lookup_2|done].
    + intros [Hi (set&[i Hset]%list_elem_of_lookup_1&Hf)]. split; [done|]. exists i.
      destruct (proj1 (i_owes _ _ _ _ _ H i k Hi)) as [Hm|Ho]; [by exists set|done|].
      rewrite Hit in Ho. by apply owed_nil in Ho.
  - intros Hu. by apply finish_nodup.
Qed.
End runs.

(** ** The same as [GlobSync]

    A relative pattern has parts that do not begin or end with a slash, but
    the last may be empty. *)
Definition part_ok (p : elem) : Prop :=
  match p with Str s => s ≠ [] ∧ head s ≠ Some 47%N ∧ last s ≠ Some 47%N | _ => True end.
Definition relative_parts (p : list elem) : Prop :=
  ∃ q, (p = q ∨ p = q ++ [Str []]) ∧ Forall part_ok q.

Lemma relative_suffix p q : relative_parts (p ++ q) → relative_parts q.
Proof.
  revert q. induction p as [|x p IH]; intros q H; [done|]. apply IH. clear IH.
  destruct H as (r&[Hr|Hr]&Hok); cbn [app] in Hr.
  - exists (p ++ q). subst r. inversion Hok; subst. split; [by left|done].
  - destruct r as [|y r]; cbn [app] in Hr; simplify_eq.
    + assert (p ++ q = []) as -> by congruence. exists []. split; [by left|constructor].
    + inversion Hok; subst. exists r. split; [by right|done].
Qed.

Lemma relative_cons x p : part_ok x → relative_parts p → relative_parts (x :: p).
Proof.
  intros Hx (q&[->| ->]&Hok).
  - exists (x :: q). split; [by left|by constructor].
  - exists (x :: q). split; [by right|by constructor].
Qed.

Lemma string_prefix_app p strs rest : string_prefix p = (strs, rest) → p = map Str strs ++ rest.
Proof.
  revert strs. induction p as [|x p IH]; intros strs H; [by simplify_eq/=|].
  destruct x; simpl in H; try (by simplify_eq/=).
  destruct (string_prefix p) as [l r] eqn:Hp. simplify_eq. simpl. f_equal. by apply IH.
Qed.

(** The strings before a part that is not a string are proper. *)
Lemma relative_strs strs x remain :
  (∀ s, x ≠ Str s) → relative_parts (map Str strs ++ x :: remain) → Forall part_ok (map Str strs).
Proof.
  intros Hx (q&[Hq|Hq]&Hok).
  - subst q. by apply Forall_app in Hok as [? _].
  - destruct (exists_last (l := x :: remain)) as (r&y&Heq); [done|].
    rewrite Heq, app_assoc in Hq. apply app_inj_tail in Hq as [<- _].
    by apply Forall_app in Hok as [? _].
Qed.

Lemma join_cons2 (a b : jstr) l : join (u "/") (a :: b :: l) = a ++ u "/" ++ join (u "/") (b :: l).
Proof. done. Qed.

Lemma join_part strs :
  strs ≠ [] → Forall part_ok (map Str strs) → part_ok (Str (join (u "/") strs)).
Proof.
  induction strs as [|a [|b l] IH]; intros Hne H; [done|by inversion H|].
  apply Forall_cons in H as [Ha Hl]. cbn in Ha. destruct Ha as (Ha1&Ha2&Ha3).
  pose proof (IH ltac:(done) Hl) as (Hb1&Hb2&Hb3).
  rewrite join_cons2. split_and!.
  - by destruct a.
  - by destruct a.
  - rewrite !last_app_ne; [done|done|by intros [? ?]%app_nil].
Qed.

(** The prefix of a relative pattern is proper. *)
Lemma relative_prefix p strs x remain :
  string_prefix p = (strs, x :: remain) → relative_parts p →
  (strs = [] ∧ prefix_of p strs = None) ∨
  (strs ≠ [] ∧ prefix_of p strs = Some (join (u "/") strs) ∧ part_ok (Str (join (u "/") strs))).
Proof.
  intros Hs Hrel. pose proof (string_prefix_app _ _ _ Hs) as Hp.
  assert (Hx : ∀ s, x ≠ Str s) by (intros s ->; by eapply string_prefix_rest).
  rewrite Hp in Hrel. pose proof (relative_strs _ _ _ Hx Hrel) as Hok.
  destruct strs as [|s strs]; [by left|]. right. split; [done|].
  pose proof (join_part (s :: strs) ltac:(done) Hok) as Hj. split; [|done].
  apply Forall_cons in Hok as [Hs1 _]. cbn in Hs1. destruct Hs1 as (H1&H2&H3).
  assert (Habs : isAbsolute s = false) by (by apply bool_decide_eq_false_2).
  unfold prefix_of. rewrite Hp. cbn [map app elem_string].
  rewrite !posix_join, Habs by done. done.
Qed.

(** Patterns that read and name the same. *)
Definition kin (p q : list elem) : Prop :=
  (string_prefix p).2 = (string_prefix q).2 ∧
  prefix_of p (string_prefix p).1 = prefix_of q (string_prefix q).1 ∧
  join (u "/") (string_prefix p).1 = join (u "/") (string_prefix q).1.

Lemma kin_sym p q : kin p q → kin q p.
Proof. by intros (?&?&?). Qed.

Section same.
Variable rt : runtime.
Variable fs : fsys.
Variable self : glob_settings.
Hypothesis Hnames : ∀ abs l e, readdirSync fs abs = inl l → e ∈ l → seg_ok e ∧ plain e.

Lemma lists_kin p q g prefix x remain es :
  kin p q → lists rt fs self p g prefix x remain es → lists rt fs self q g prefix x remain es.
Proof.
  intros (H1&H2&_) (L1&L2&L3&L4). split_and!; [by rewrite <-H1|by rewrite <-H2|done..].
Qed.

Lemma string_prefix_pair p strs rest : string_prefix p = (strs, rest) →
  (string_prefix p).1 = strs ∧ (string_prefix p).2 = rest.
Proof. by intros ->. Qed.

Lemma finds_kin p q g k : kin p q → finds rt fs self p g k → finds rt fs self q g k.
Proof.
  intros Hk. inversion 1 as [? ? strs Hs Hst| | | |]; subst;
    [|match goal with Hl : lists _ _ _ p _ _ _ _ _ |- _ => apply (lists_kin _ _ _ _ _ _ _ Hk) in Hl end..].
  - destruct (string_prefix_pair _ _ _ Hs) as [Hs1 Hs2]. destruct Hk as (H1&_&H3).
    rewrite Hs1 in H3. rewrite Hs2 in H1. rewrite H3 in *. apply finds_path; [|done].
    rewrite H1. by destruct (string_prefix q).
  - by eapply finds_last.
  - by eapply finds_entry.
  - by eapply finds_nothing.
  - by eapply finds_below.
Qed.

Lemma afinds_kin p q g k : kin p q → afinds rt fs self p g k → afinds rt fs self q g k.
Proof.
  intros Hk. inversion 1 as [? ? strs Hs Hst| | | |]; subst;
    [|match goal with Hl : lists _ _ _ p _ _ _ _ _ |- _ => apply (lists_kin _ _ _ _ _ _ _ Hk) in Hl end..].
  - destruct (string_prefix_pair _ _ _ Hs) as [Hs1 Hs2]. destruct Hk as (H1&_&H3).
    rewrite Hs1 in H3. rewrite Hs2 in H1. rewrite H3 in *. apply afinds_path; [|done].
    rewrite H1. by destruct (string_prefix q).
  - by eapply afinds_last.
  - by eapply afinds_entry.
  - by eapply afinds_nothing.
  - by eapply afinds_below.
Qed.

Lemma below_proper P e : part_ok (Str P) → below (Some P) e = P ++ u "/" ++ e.
Proof.
  intros (H1&H2&H3). destruct P as [|c P]; [done|]. simpl below.
  rewrite bool_decide_eq_false_2; [done|]. intros Hc. apply H3. by rewrite Hc.
Qed.

(** The patterns the two walkers make of an entry. *)
Lemma entry_kin prefix e remain :
  match prefix with Some P => part_ok (Str P) | None => True end → part_ok (Str e) →
  kin (prefix_parts prefix ++ Str e :: remain) (Str (below prefix e) :: remain).
Proof.
  intros Hpre He. destruct prefix as [P|]; [|done]. rewrite below_proper by done.
  cbn in Hpre. destruct Hpre as (H1&H2&H3). assert (prefix_parts (Some P) = [Str P]) as -> by by destruct P.
  assert (Habs : isAbsolute P = false) by (by apply bool_decide_eq_false_2).
  assert (Hne : P ++ u "/" ++ e ≠ []) by (by destruct P).
  unfold kin. cbn [app string_prefix].
  destruct (string_prefix remain) as [l r] eqn:Hr. cbn [fst snd].
  assert (Hj : join (u "/") (P :: e :: l) = join (u "/") ((P ++ u "/" ++ e) :: l)).
  { destruct l as [|x l]; [done|]. rewrite !join_cons2, <-!app_assoc. done. }
  split_and!; [done| |done]. unfold prefix_of. cbn [map elem_string].
  rewrite <-Hj, !(posix_join P), !(posix_join (P ++ u "/" ++ e)) by done.
  by rewrite (isAbsolute_app P _ H1), Habs.
Qed.

Lemma entry_part es abs e : readdirSync fs abs = inl es → e ∈ es → part_ok (Str e).
Proof.
  intros Hr He. destruct (Hnames abs es e Hr He) as [[Hne Hs] _]. split_and!; [done|..].
  - intros Hh. apply Hs. destruct e; simplify_eq/=. by left.
  - intros (e'&->)%last_Some. apply Hs. apply elem_of_app. right. by left.
Qed.

Lemma lists_relative p g prefix x remain es :
  relative_parts p → lists rt fs self p g prefix x remain es →
  match prefix with Some P => part_ok (Str P) | None => True end ∧ relative_parts (x :: remain) ∧
  ∀ e, e ∈ es → part_ok (Str e).
Proof.
  intros Hrel (L1&L2&_&L4). destruct (string_prefix p) as [strs rest] eqn:Hs. cbn in L1, L2. subst rest.
  split_and!.
  - destruct (relative_prefix _ _ _ _ Hs Hrel) as [[_ Hn]|(_&Hp&Hok)]; subst prefix;
      [by rewrite Hn|by rewrite Hp].
  - rewrite (string_prefix_app _ _ _ Hs) in Hrel. by eapply relative_suffix.
  - intros e He. unfold read_dir, list_dir in L4.
    destruct (g && negb (g_follow self)).
    + destruct (lstatSync fs _) as [st|]; [|done]. destruct (_ || _); [|done].
      destruct (readdirSync fs _) as [l|code] eqn:Hr; [|by destruct (tolerated self code)].
      simplify_eq. by eapply entry_part.
    + destruct (readdirSync fs _) as [l|code] eqn:Hr; [|by destruct (tolerated self code)].
      simplify_eq. by eapply entry_part.
Qed.

Lemma relative_parts_prefix prefix p :
  match prefix with Some P => part_ok (Str P) | None => True end → relative_parts p →
  relative_parts (prefix_parts prefix ++ p).
Proof. intros Hp H. destruct prefix as [[|]|]; [done| |done]. by apply relative_cons. Qed.

Lemma key_same prefix e :
  match prefix with Some P => part_ok (Str P) | None => True end →
  async_key self prefix e = entry_key self prefix e.
Proof.
  intros Hp. unfold async_key, entry_key. destruct prefix as [P|]; [|done].
  rewrite below_proper by done. cbn in Hp. destruct Hp as (H1&H2&H3). destruct P as [|c P]; [done|].
  assert (ends_with_slash (c :: P) = false) as -> by (by apply bool_decide_eq_false_2). done.
Qed.

Lemma same_finds p g k : relative_parts p → afinds rt fs self p g k ↔ finds rt fs self p g k.
Proof.
  intros Hrel. split; intros H; revert Hrel;
    induction H as [p g strs Hs Hst|p g prefix r remain es e Hl Hp Hlast
      |p g prefix r remain es e k Hl Hp Hlast Hf IH|p g prefix remain es k Hl Hf IH
      |p g prefix remain es e more k Hl Hlk He Hd Hf IH]; intros Hrel;
    try (destruct (lists_relative _ _ _ _ _ _ Hrel Hl) as (Hpre&Hrem&Hes);
         pose proof (relative_suffix [_] _ Hrem : relative_parts remain) as Hrem').
  - by constructor.
  - rewrite key_same by done. by eapply finds_last.
  - destruct Hp as (d&Hd&He&Hm). eapply finds_entry; [done|by exists d|done|].
    assert (Hk := entry_kin prefix e remain Hpre (Hes e He)).
    apply (finds_kin _ _ _ _ (kin_sym _ _ Hk)), IH. apply relative_cons; [|done].
    destruct prefix as [P|]; [|by apply Hes]. rewrite below_proper by done.
    cbn in Hpre. destruct Hpre as (H1&H2&H3). destruct (Hes e He) as (E1&E2&E3).
    split_and!; [by destruct P|by destruct P|]. by rewrite !last_app_ne by (done || by destruct e).
  - eapply finds_nothing; [done|]. by apply IH, relative_parts_prefix.
  - eapply finds_below; [done..|]. apply IH, relative_parts_prefix; [done|].
    apply relative_cons; [by apply Hes|]. by destruct more.
  - by constructor.
  - rewrite <-key_same by done. by eapply afinds_last.
  - destruct Hp as (d&Hd&He&Hm). eapply afinds_entry; [done|by exists d|done|].
    apply (afinds_kin _ _ _ _ (entry_kin prefix e remain Hpre (Hes e He))), IH.
    apply relative_parts_prefix; [done|]. by apply relative_cons; [apply Hes|].
  - eapply afinds_nothing; [done|]. by apply IH, relative_parts_prefix.
  - eapply afinds_below; [done..|]. apply IH, relative_parts_prefix; [done|].
    apply relative_cons; [by apply Hes|]. by destruct more.
Qed.
End same.

(** ** The theorems *)

(** [run] takes steps. *)
Lemma run_steps rt fs self n s s' : run rt fs self n s = Some s' → rtc (step rt fs self) s s'.
Proof.
  revert s. induction n as [|n IH]; intros s H; [by injection H as ->|]. cbn [run] in H.
  destruct (todo s) as [|t l] eqn:Ht.
  - destruct (ticks s) as [|[key a] l] eqn:Hk.
    + destruct (pending s) as [|o l] eqn:Ho; [by injection H as ->|].
      destruct (complete fs self o (set_pending l s)) as [r|] eqn:Hr; [|done].
      eapply rtc_l; [|by apply IH]. by apply (step_answer rt fs self s [] o l).
    + eapply rtc_l; [|by apply IH]. by apply (step_tick rt fs self s [] key a l).
  - destruct (exec rt self t (set_todo l s)) as [r|] eqn:Hr; [|done].
    eapply rtc_l; [|by apply IH]. by eapply step_task.
Qed.

(** A walk whose parts the code can handle: the file system is lawful, rooted,
    [D] deep and [B] wide; no [mark], [nodir], [realpath], [noprocess] or root
    of its own; the pattern has sets, whose regular expressions were valid. *)
Record plain_walk (rt : runtime) (expand : jstr → option (list jstr)) (fs : fsys)
    (pattern : jstr) (o : glob_options) (self : glob_settings) (D B : nat) : Prop := {
  w_laws : FsLaws fs;
  w_root st : full_stat fs (u "/") = Some st → isDirectory st = true;
  w_names abs l e : readdirSync fs abs = inl l → e ∈ l → seg_ok e ∧ plain e;
  w_depth abs l : readdirSync fs abs = inl l → length (segs abs) ≤ D;
  w_branch abs l : readdirSync fs abs = inl l → length l ≤ B;
  w_settings : setopts rt expand pattern o = Some self;
  w_options : default [] (go_root o) = [] ∧ go_realpath o = false ∧ go_mark o = false ∧
    go_nodir o = false ∧ go_noprocess o = false;
  w_sets : mm_set (g_minimatch self) ≠ [];
  w_testable : Forall (Forall (testable self)) (mm_set (g_minimatch self)) }.

Lemma setopts_flags rt expand pattern o self :
  setopts rt expand pattern o = Some self →
  g_nodir self = go_nodir o ∧ g_noprocess self = go_noprocess o.
Proof.
  intros Hs. unfold setopts in Hs. destruct (_ && noglobstar _); [done|].
  destruct (setupIgnores _ _ _); [|done]. cbn [mbind option_bind] in Hs.
  destruct (new_Minimatch _ _ _ _); [|done]. cbn [mbind option_bind] in Hs. by injection Hs as <-.
Qed.

Lemma plain_settings rt expand fs pattern o self D B :
  plain_walk rt expand fs pattern o self D B →
  g_root self = u "/" ∧ g_mark self = false ∧ g_nodir self = false ∧ g_realpath self = false ∧
  g_noprocess self = false.
Proof.
  intros []. destruct w_options0 as (H1&H2&H3&H4&H5).
  destruct (setopts_fields _ _ _ _ _ w_settings0) as (->&->&_&_).
  destruct (setopts_flags _ _ _ _ _ w_settings0) as (->&->). rewrite H2, H3, H4, H5.
  split_and!; try done. by eapply root_default.
Qed.

Lemma plain_good rt expand fs pattern o self D B c :
  plain_walk rt expand fs pattern o self D B → caches_ok fs self c →
  good rt fs self (new_Glob self c).
Proof.
  intros Hw Hc. destruct (plain_settings _ _ _ _ _ _ _ _ Hw) as (H1&H2&H3&H4&H5). destruct Hw.
  by apply start_good.
Qed.

(** C8: A plain asynchronous walk ends. Plain is a walk over a file system
    that does not change, whose root is a directory, whose directories can
    all be listed and hold only names that lead somewhere, of bounded depth
    and width; of a pattern with at least one set, whose parts compiled to
    valid regular expressions; without the options [mark], [nodir],
    [realpath], [noprocess] and [root]; with caches that are true of the
    file system; that nobody pauses, resumes or aborts and that shares the
    table of [inflight] with no other walk. Then, whatever the order in
    which the file system answers and the ticks of [inflight] are taken,
    there is no run without end, and the code never throws nor waits for an
    answer nobody will give. *)
Theorem glob_async_ends (rt : runtime) (expand : jstr → option (list jstr)) (fs : fsys)
    (pattern : jstr) (o : glob_options) (self : glob_settings) (D B : nat) (c : caches) :
  plain_walk rt expand fs pattern o self D B → caches_ok fs self c →
  Acc (flip (step rt fs self)) (new_Glob self c) ∧
  ∀ s, rtc (step rt fs self) (new_Glob self c) s →
    (at_rest s ∧ reqs s = ∅) ∨ ∃ s', step rt fs self s s'.
Proof.
  intros Hw Hc. pose proof (plain_good _ _ _ _ _ _ _ _ _ Hw Hc) as Hgood.
  destruct (plain_settings _ _ _ _ _ _ _ _ Hw) as (H1&H2&H3&H4&H5). destruct Hw. split.
  - by eapply (good_finite rt fs self) with (D := D) (B := B).
  - intros s Hs.
    assert (Hg : good rt fs self s) by (by eapply (steps_good rt fs self) with (D := D) (B := B)).
    assert (at_rest s ∨ ∃ s', step rt fs self s s') as [Hr|Hp]; [|left|by right].
    { by eapply (good_progress rt fs self) with (D := D) (B := B). }
    split; [done|]. by apply (rest_items rt fs self s (g_inv _ _ _ _ Hg)).
Qed.

(** C7: A plain asynchronous walk agrees with [GlobSync]. Plain is a walk
    over a file system that does not change, whose root is a directory,
    whose directories can all be listed and hold only names that lead
    somewhere, of bounded depth and width; of a pattern with at least one
    set, whose parts compiled to valid regular expressions; without the
    options [mark], [nodir], [realpath], [noprocess] and [root]; that nobody
    pauses, resumes or aborts and that shares the table of [inflight] with
    no other walk. When nothing is left to do for such a walk of a relative
    pattern, without [nonull] and [nounique], its last [end] event has the
    names that [globSync] finds, in whatever order the answers came and
    whatever was in the two walks' caches, if it is true of the file system;
    there is at most one such event for each set of the pattern, so exactly
    one for a pattern without braces. *)
Theorem glob_async_agrees (rt : runtime) (expand : jstr → option (list jstr)) (fs : fsys)
    (pattern : jstr) (o : glob_options) (self : glob_settings) (D B : nat) (c c' : caches)
    (fuel : nat) (found : list jstr) (s : glob) :
  plain_walk rt expand fs pattern o self D B → caches_ok fs self c → caches_ok fs self c' →
  Forall relative_parts (mm_set (g_minimatch self)) →
  nonull (go_minimatch o) = false → go_nounique o = false →
  globSync fuel rt expand fs pattern o c' = Done (Some found) →
  rtc (step rt fs self) (new_Glob self c) s → at_rest s →
  ∃ last earlier, ends s = last :: earlier ∧ last ≡ₚ found ∧
    length (ends s) ≤ length (mm_set (g_minimatch self)).
Proof.
  intros Hw Hc Hc' Hrel Hnull Hu Hsync Hs Hr. pose proof (plain_good _ _ _ _ _ _ _ _ _ Hw Hc) as Hgood.
  destruct (plain_settings _ _ _ _ _ _ _ _ Hw) as (H1&H2&H3&H4&H5).
  destruct Hw. destruct w_options0 as (O1&O2&_).
  destruct (globSync_done _ _ _ _ _ _ _ _ _ w_laws0 w_settings0 Hc' O1 O2 Hsync) as (c1&m&->&Hm).
  assert (Hg : good rt fs self s) by (by eapply (steps_good rt fs self) with (D := D) (B := B)).
  destruct (setopts_fields _ _ _ _ _ w_settings0) as (_&_&Hn&Huq). rewrite Hnull in Hn. rewrite Hu in Huq.
  destruct (rest_ends rt fs self H2 s Hg Hr Hn) as (last&earlier&He&Hlen&Hl&Hd).
  exists last, earlier. split_and!; [done| |done].
  apply NoDup_Permutation; [by apply Hd|by apply finish_nodup|]. intros k.
  rewrite Hl, elem_finish by done. f_equiv. setoid_rewrite Hm. rewrite Forall_forall in Hrel. split.
  - intros (set&Hset&Hf). apply (same_finds rt fs self w_names0 set false k (Hrel set Hset)) in Hf.
    apply list_elem_of_lookup_1 in Hset as [i Hset]. by exists i, set.
  - intros (i&set&Hset&Hf). apply list_elem_of_lookup_2 in Hset. exists set. split; [done|].
    by apply (same_finds rt fs self w_names0 set false k (Hrel set Hset)).
Qed.

(** ** Witnesses and examples *)

Definition sample_start : glob := new_Glob sample_self no_caches.
Definition sample_end : glob := default sample_start (run sample_runtime sample_fs sample_self 100 sample_start).

Lemma sample_branch abs l : readdirSync sample_fs abs = inl l → length l ≤ 2.
Proof. intros [[-> ->]|[-> ->]]%sample_listing; simpl; lia. Qed.

Lemma sample_plain :
  plain_walk sample_runtime sample_expand sample_fs (u "**/*.txt") sample_options sample_self 1 2.
Proof.
  split.
  - apply sample_fs_laws.
  - intros st Hst. vm_compute in Hst. by injection Hst as <-.
  - apply sample_names.
  - apply sample_depth.
  - apply sample_branch.
  - vm_compute. reflexivity.
  - done.
  - done.
  - repeat constructor. vm_compute. by eexists.
Qed.

Lemma sample_run : run sample_runtime sample_fs sample_self 100 sample_start = Some sample_end.
Proof. vm_compute. reflexivity. Qed.

Lemma sample_rest : at_rest sample_end.
Proof. vm_compute. done. Qed.

Lemma glob_async_ends_witness :
  Acc (flip (step sample_runtime sample_fs sample_self)) sample_start.
Proof.
  apply (glob_async_ends sample_runtime sample_expand sample_fs (u "**/*.txt") sample_options
    sample_self 1 2 no_caches); [apply sample_plain|apply no_caches_ok].
Defined.

Lemma glob_async_agrees_witness :
  ∃ last earlier, ends sample_end = last :: earlier ∧ last ≡ₚ [u "a.txt"; u "d/b.txt"] ∧
    length (ends sample_end) ≤ 1.
Proof.
  apply (glob_async_agrees sample_runtime sample_expand sample_fs (u "**/*.txt") sample_options
    sample_self 1 2 no_caches no_caches 20 [u "a.txt"; u "d/b.txt"] sample_end).
  - apply sample_plain.
  - apply no_caches_ok.
  - apply no_caches_ok.
  - constructor; [|constructor]. eexists. split; [by left|]. repeat constructor.
  - reflexivity.
  - reflexivity.
  - vm_compute. reflexivity.
  - apply (run_steps _ _ _ 100), sample_run.
  - apply sample_rest.
Defined.

(** With a length of 5 set, the set [toolong] is looked up without asking, and
    [_finish] runs before the constructor has begun the set [a.txt]: there are
    two [end] events, and a callback, which is called once, gets the first. *)
Definition limited_options : glob_options :=
  {| go_minimatch := no_options; go_nonegate := None; go_nocomment := None; go_strict := None;
     go_realpath := false; go_follow := false; go_mark := false; go_nodir := false;
     go_nounique := false; go_nosort := false; go_stat := false; go_noprocess := false;
     go_nomount := false; go_maxLength := 5; go_ignore := []; go_cwd := None; go_root := None |}.
Definition limited_self : glob_settings := Eval vm_compute in
  match setopts sample_runtime (λ _, Some [u "toolong"; u "a.txt"]) (u "{toolong,a.txt}")
          limited_options as r
    return match r with Some _ => glob_settings | None => unit end
  with Some self => self | None => tt end.
Lemma end_before_all_sets :
  setopts sample_runtime (λ _, Some [u "toolong"; u "a.txt"]) (u "{toolong,a.txt}")
    limited_options = Some limited_self ∧
  ends <$> run sample_runtime sample_fs limited_self 100 (new_Glob limited_self no_caches)
    = Some [[u "a.txt"]; []].
Proof. split; vm_compute; reflexivity. Qed.

(** The walk of [*.txt] that asks for one listing, and its state after [n]
    steps; the listing is under way after two. *)
Definition flat_self : glob_settings := Eval vm_compute in
  match setopts sample_runtime (λ _, Some [u "*.txt"]) (u "*.txt") sample_options as r
    return match r with Some _ => glob_settings | None => unit end
  with Some self => self | None => tt end.
Definition flat_start : glob := new_Glob flat_self no_caches.
Definition flat_at (n : nat) : glob :=
  default flat_start (run sample_runtime sample_fs flat_self n flat_start).

(** A match that comes while the walk is paused is put off, but the [end] event
    is not: it comes without the match. *)
Lemma pause_loses_matches :
  ∃ s, run sample_runtime sample_fs flat_self 100 (pause (flat_at 2)) = Some s ∧
    at_rest s ∧ ends s = [[]] ∧ emitQueue s = [(0, u "a.txt")].
Proof. eexists. split; [vm_compute; reflexivity|]. vm_compute. done. Qed.

(** An aborted walk does not answer the requests it has made: the table, which
    all walks share, keeps them, and another walk waits for ever. *)
Lemma abort_blocks_others :
  ∃ s s', run sample_runtime sample_fs flat_self 100 (abort (flat_at 2)) = Some s ∧ at_rest s ∧
    run sample_runtime sample_fs flat_self 100 (set_reqs (reqs s) flat_start) = Some s' ∧
    at_rest s' ∧ events s' = [].
Proof.
  do 2 eexists. split; [vm_compute; reflexivity|]. split; [vm_compute; done|].
  split; [vm_compute; reflexivity|]. vm_compute. done.
Qed.
