(* ===== verification/NextTick.v ===== *)
(** * [process.nextTick] of the bundled browser shim ([wordcut.js])

    The queue of the [process] module: [nextTick] appends an item and schedules
    [drainQueue] when the queue was empty; [drainQueue] runs the items batch
    by batch; an item that throws leaves the loop, and the timer
    [cleanUpNextTick] it had set continues after that item.  An item may call
    [nextTick] while it runs, then throw.  A timer fires when no code runs.
    The two loops are a step each time round, so that a queue that never
    empties is a run that never ends. *)

From S2P Require Import Prelude.

Section next_tick.
Context {A : Type}.
(** What an item does when run: the items it schedules, in order, and
    whether it throws after that. *)
Variables (spawns : A → list A) (throws : A → bool).

Inductive task := DrainQueue | CleanUpNextTick.

(** Where the code is: at no code, at [while (len)], or at
    [while (++queueIndex < len)] with the timer set on entry. *)
Inductive mode :=
| Idle
| Loop (len timeout : nat)
| Inner (len timeout : nat).

Record state := {
  queue : list A; draining : bool; currentQueue : option (list A); queueIndex : Z;
  timers : list (nat * task); next_timer : nat;
  submitted : list A;   (* every item given to [nextTick], in order *)
  ran : list A;         (* every item run, in order *)
  pc : mode }.

Definition initial : state :=
  {| queue := []; draining := false; currentQueue := None; queueIndex := -1; timers := [];
     next_timer := 0; submitted := []; ran := []; pc := Idle |}.

(** [setTimeout(fun, 0)]. *)
Definition runTimeout (t : task) (s : state) : state :=
  {| queue := queue s; draining := draining s; currentQueue := currentQueue s;
     queueIndex := queueIndex s; timers := timers s ++ [(next_timer s, t)];
     next_timer := S (next_timer s); submitted := submitted s; ran := ran s; pc := pc s |}.

Definition clear (id : nat) (l : list (nat * task)) : list (nat * task) :=
  List.filter (λ p, negb (p.1 =? id)) l.

Definition nextTick (x : A) (s : state) : state :=
  let s := {| queue := queue s ++ [x]; draining := draining s;
              currentQueue := currentQueue s; queueIndex := queueIndex s;
              timers := timers s; next_timer := next_timer s;
              submitted := submitted s ++ [x]; ran := ran s; pc := pc s |} in
  if (length (queue s) =? 1) && negb (draining s) then runTimeout DrainQueue s else s.

Definition drainQueue (s : state) : state :=
  if draining s then s
  else
    let timeout := next_timer s in
    let s := runTimeout CleanUpNextTick s in
    {| queue := queue s; draining := true; currentQueue := currentQueue s;
       queueIndex := queueIndex s; timers := timers s; next_timer := next_timer s;
       submitted := submitted s; ran := ran s; pc := Loop (length (queue s)) timeout |}.

(** [while (len)]: the next batch, or the end. *)
Definition loop_step (len timeout : nat) (s : state) : state :=
  if len =? 0 then
    {| queue := queue s; draining := false; currentQueue := None;
       queueIndex := queueIndex s; timers := clear timeout (timers s);
       next_timer := next_timer s; submitted := submitted s; ran := ran s; pc := Idle |}
  else
    {| queue := []; draining := draining s; currentQueue := Some (queue s);
       queueIndex := queueIndex s; timers := timers s; next_timer := next_timer s;
       submitted := submitted s; ran := ran s; pc := Inner len timeout |}.

(** [while (++queueIndex < len)]: the next item, or the end of the batch. *)
Definition inner_step (len timeout : nat) (s : state) : state :=
  let i := (queueIndex s + 1)%Z in
  if (i <? Z.of_nat len)%Z then
    match currentQueue s ≫= λ q, q !! Z.to_nat i with
    | Some x =>
        let s := {| queue := queue s; draining := draining s; currentQueue := currentQueue s;
                    queueIndex := i; timers := timers s; next_timer := next_timer s;
                    submitted := submitted s; ran := ran s ++ [x];
                    pc := if throws x then Idle else Inner len timeout |} in
        foldl (λ s y, nextTick y s) s (spawns x)
    | None => s
    end
  else
    {| queue := queue s; draining := draining s; currentQueue := currentQueue s;
       queueIndex := -1; timers := timers s; next_timer := next_timer s;
       submitted := submitted s; ran := ran s; pc := Loop (length (queue s)) timeout |}.

Definition cleanUpNextTick (s : state) : state :=
  match draining s, currentQueue s with
  | true, Some cq =>
      let s := {| queue := (if length cq =? 0 then queue s else cq ++ queue s);
                  draining := false; currentQueue := currentQueue s;
                  queueIndex := if length cq =? 0 then (-1)%Z else queueIndex s;
                  timers := timers s; next_timer := next_timer s;
                  submitted := submitted s; ran := ran s; pc := pc s |} in
      if length (queue s) =? 0 then s else drainQueue s
  | _, _ => s
  end.

Definition fire (t : task) (s : state) : state :=
  match t with DrainQueue => drainQueue s | CleanUpNextTick => cleanUpNextTick s end.

Definition without (id : nat) (s : state) : state :=
  {| queue := queue s; draining := draining s; currentQueue := currentQueue s;
     queueIndex := queueIndex s; timers := clear id (timers s); next_timer := next_timer s;
     submitted := submitted s; ran := ran s; pc := pc s |}.

Inductive step : state → state → Prop :=
| step_submit s x : pc s = Idle → step s (nextTick x s)
| step_fire s id t : pc s = Idle → (id, t) ∈ timers s → step s (fire t (without id s))
| step_loop s len timeout : pc s = Loop len timeout → step s (loop_step len timeout s)
| step_inner s len timeout : pc s = Inner len timeout → step s (inner_step len timeout s).

(** The items still to run, in order. *)
Definition pending (s : state) : list A :=
  let rest := drop (Z.to_nat (queueIndex s + 1)) in
  match pc s with
  | Loop _ _ => rest (queue s)
  | Inner _ _ => rest (default [] (currentQueue s)) ++ queue s
  | Idle => if draining s then rest (default [] (currentQueue s)) ++ queue s else queue s
  end.

Definition timer_ok (s : state) : Prop :=
  Forall (λ p, p.1 < next_timer s) (timers s) ∧ NoDup (map fst (timers s)).

Definition pc_ok (s : state) : Prop :=
  match pc s with
  | Idle =>
      if draining s then
        (∃ cq, currentQueue s = Some cq ∧ cq ≠ [] ∧
           (0 <= queueIndex s < Z.of_nat (length cq))%Z) ∧
        ∃ id, (id, CleanUpNextTick) ∈ timers s
      else queueIndex s = (-1)%Z ∧ (queue s ≠ [] → ∃ id, (id, DrainQueue) ∈ timers s)
  | Loop len timeout =>
      draining s = true ∧ len = length (queue s) ∧
      (-1 <= queueIndex s)%Z ∧ (queueIndex s + 1 <= Z.of_nat len)%Z ∧
      (timeout, CleanUpNextTick) ∈ timers s
  | Inner len timeout =>
      draining s = true ∧ (-1 <= queueIndex s)%Z ∧ (queueIndex s + 1 <= Z.of_nat len)%Z ∧
      (timeout, CleanUpNextTick) ∈ timers s ∧
      ∃ cq, currentQueue s = Some cq ∧ len = length cq
  end.

Definition inv (s : state) : Prop :=
  submitted s = ran s ++ pending s ∧ pc_ok s ∧ timer_ok s.

(** ** Scheduling *)

Lemma clear_keeps id id' t l : (id', t) ∈ clear id l ↔ (id', t) ∈ l ∧ id' ≠ id.
Proof.
  unfold clear. rewrite !list_elem_of_In, List.filter_In. simpl.
  rewrite negb_true_iff, Nat.eqb_neq. done.
Qed.

Lemma clear_ok id l n :
  Forall (λ p, p.1 < n) l → NoDup (map fst l) →
  Forall (λ p, p.1 < n) (clear id l) ∧ NoDup (map fst (clear id l)).
Proof.
  intros Hf Hn. split.
  - rewrite Forall_forall in *. intros [i t] Hi. apply clear_keeps in Hi as [Hi _]. by apply Hf.
  - induction l as [|[i t] l IH]; [done|]. inversion Hf; subst. inversion Hn as [|?? Hni Hn']; subst.
    unfold clear; simpl. destruct (negb (i =? id)); [|by apply IH].
    simpl. constructor; [|by apply IH]. intros Hin. apply Hni.
    apply list_elem_of_fmap in Hin as ([j t']&->&Hin). apply clear_keeps in Hin as [Hin _].
    apply list_elem_of_fmap. by exists (j, t').
Qed.

Lemma timer_unique (l : list (nat * task)) i t t' : NoDup (map fst l) → (i, t) ∈ l → (i, t') ∈ l → t = t'.
Proof.
  intros Hn Ht Ht'. apply list_elem_of_lookup in Ht as [j Hj], Ht' as [k Hk].
  assert (j = k) as ->; [|congruence].
  eapply (NoDup_lookup (map fst l)); [done|..]; rewrite list_lookup_fmap;
    [by rewrite Hj|by rewrite Hk].
Qed.

Lemma runTimeout_ok t s : timer_ok s → timer_ok (runTimeout t s).
Proof.
  intros [Hf Hn]. split; simpl.
  - apply Forall_app. split; [|by repeat constructor]. eapply Forall_impl; [done|]. simpl. lia.
  - rewrite map_app. apply NoDup_app. split_and!; [done| |apply NoDup_singleton].
    intros i Hi Hx. simpl in Hx. apply list_elem_of_singleton in Hx as ->.
    apply list_elem_of_fmap in Hi as (p&Hp&Hi). rewrite Forall_forall in Hf.
    specialize (Hf p Hi). simpl in *. lia.
Qed.

Lemma nextTick_draining x s :
  draining s = true →
  nextTick x s =
    {| queue := queue s ++ [x]; draining := draining s; currentQueue := currentQueue s;
       queueIndex := queueIndex s; timers := timers s; next_timer := next_timer s;
       submitted := submitted s ++ [x]; ran := ran s; pc := pc s |}.
Proof. intros H. unfold nextTick. simpl. by rewrite H, andb_false_r. Qed.

Lemma foldl_nextTick_draining l s :
  draining s = true →
  foldl (λ s y, nextTick y s) s l =
    {| queue := queue s ++ l; draining := draining s; currentQueue := currentQueue s;
       queueIndex := queueIndex s; timers := timers s; next_timer := next_timer s;
       submitted := submitted s ++ l; ran := ran s; pc := pc s |}.
Proof.
  revert s. induction l as [|x l IH]; intros s H; simpl.
  - destruct s; simpl. by rewrite !app_nil_r.
  - rewrite IH by by rewrite nextTick_draining. rewrite nextTick_draining by done. simpl.
    by rewrite <-!app_assoc.
Qed.

(** ** The invariant *)

Lemma initial_inv : inv initial.
Proof. split_and!; [done|by split|]. split; constructor. Qed.

Lemma submit_inv s x : pc s = Idle → inv s → inv (nextTick x s).
Proof.
  intros Hpc (Hsub&Hok&Ht). unfold pending, pc_ok in *. rewrite Hpc in *.
  destruct (draining s) eqn:Hd.
  - rewrite nextTick_draining by done. split_and!; [|by unfold pc_ok; simpl; rewrite Hpc, Hd|done].
    unfold pending; simpl. rewrite Hpc, Hd, Hsub. by rewrite <-!app_assoc.
  - destruct Hok as [Hi Hq]. unfold nextTick; simpl. rewrite Hd. cbn [negb]. rewrite andb_true_r.
    destruct (length (queue s ++ [x]) =? 1) eqn:Hl.
    + split_and!; [| |by apply runTimeout_ok].
      * unfold pending; simpl. rewrite Hpc, Hsub. by rewrite <-app_assoc.
      * unfold pc_ok; simpl. rewrite Hpc. split; [done|]. intros _. exists (next_timer s).
        apply elem_of_app. right. by apply list_elem_of_singleton.
    + split_and!; [| |done].
      * unfold pending; simpl. rewrite Hpc, Hsub. by rewrite <-app_assoc.
      * unfold pc_ok; simpl. rewrite Hpc. split; [done|]. intros _. apply Hq.
        intros H0. rewrite H0 in Hl. done.
Qed.

Lemma loop_inv s len timeout :
  pc s = Loop len timeout → inv s → inv (loop_step len timeout s).
Proof.
  intros Hpc (Hsub&Hok&Ht). unfold pending, pc_ok in *. rewrite Hpc in *.
  destruct Hok as (Hd&->&Hlo&Hhi&Htm). unfold loop_step.
  destruct (Nat.eqb_spec (length (queue s)) 0) as [H0|H0].
  - assert (Hq : queue s = []) by by apply length_zero_iff_nil.
    split_and!; [| |destruct Ht; by apply clear_ok].
    + unfold pending; simpl. by rewrite Hsub, Hq, drop_nil.
    + unfold pc_ok; simpl. split; [lia|done].
  - split_and!; [| |done].
    + unfold pending; simpl. by rewrite Hsub, app_nil_r.
    + unfold pc_ok; simpl. split_and!; [done..|]. eauto.
Qed.

Lemma inner_inv s len timeout :
  pc s = Inner len timeout → inv s → inv (inner_step len timeout s).
Proof.
  intros Hpc (Hsub&Hok&Ht). unfold pending, pc_ok in *. rewrite Hpc in *.
  destruct Hok as (Hd&Hlo&Hhi&Htm&cq&Hcq&->). unfold inner_step. rewrite Hcq in *. simpl in *.
  destruct (Z.ltb_spec (queueIndex s + 1) (Z.of_nat (length cq))) as [Hlt|Hge].
  - destruct (lookup_lt_is_Some_2 cq (Z.to_nat (queueIndex s + 1))) as [x Hx]; [lia|].
    rewrite Hx. rewrite foldl_nextTick_draining by done.
    assert (Hdrop : drop (Z.to_nat (queueIndex s + 1)) cq =
      x :: drop (Z.to_nat (queueIndex s + 1 + 1)) cq).
    { rewrite (drop_S _ _ _ Hx). do 2 f_equal. lia. }
    split_and!; [| |done].
    + unfold pending; simpl. rewrite Hsub, Hdrop.
      destruct (throws x); simpl; rewrite ?Hd, ?Hcq; simpl;
        rewrite <-!app_assoc; simpl; by rewrite <-!app_assoc.
    + unfold pc_ok; simpl. destruct (throws x).
      * rewrite Hd. split; [|by exists timeout]. exists cq. split_and!; [done| |lia..].
        intros ->. done.
      * split_and!; [done|lia|lia|done|eauto].
  - split_and!; [| |done].
    + unfold pending; simpl. rewrite Hsub. by rewrite drop_ge by lia.
    + unfold pc_ok; simpl. split_and!; [done..|lia|lia|done].
Qed.

Lemma drain_inv s : pc s = Idle → inv s → inv (drainQueue s).
Proof.
  intros Hpc (Hsub&Hok&Ht). unfold drainQueue. destruct (draining s) eqn:Hd; [done|].
  unfold pending, pc_ok in *. rewrite Hpc, Hd in *. destruct Hok as [Hi Hq].
  split_and!; [| |by apply (runTimeout_ok CleanUpNextTick s)].
  - unfold pending; simpl. by rewrite Hi, Hsub.
  - unfold pc_ok; simpl. split_and!; [done..|lia|lia|].
    apply elem_of_app. right. by apply list_elem_of_singleton.
Qed.

Lemma without_inv s id t :
  pc s = Idle → (id, t) ∈ timers s → inv s →
  submitted (without id s) = ran (without id s) ++ pending (without id s) ∧
  timer_ok (without id s) ∧
  (t = CleanUpNextTick → draining s = false → inv (without id s)) ∧
  (t = DrainQueue → draining s = true → inv (without id s)).
Proof.
  intros Hpc Hin (Hsub&Hok&Ht).
  assert (Ht' : timer_ok (without id s)) by (destruct Ht; by apply clear_ok).
  destruct Ht as [Hf Hn].
  split_and!; [done|done|intros -> Hd|intros -> Hd]; (split_and!; [done| |done]);
    unfold pc_ok in *; simpl; rewrite Hpc, Hd in *.
  - destruct Hok as [Hi Hq]. split; [done|]. intros Hne. destruct (Hq Hne) as [id' Hid].
    exists id'. apply clear_keeps. split; [done|]. intros ->.
    by pose proof (timer_unique _ _ _ _ Hn Hin Hid).
  - destruct Hok as [Hcq [id' Hid]]. split; [done|]. exists id'. apply clear_keeps.
    split; [done|]. intros ->. by pose proof (timer_unique _ _ _ _ Hn Hin Hid).
Qed.

Lemma fire_inv s id t :
  pc s = Idle → (id, t) ∈ timers s → inv s → inv (fire t (without id s)).
Proof.
  intros Hpc Hin Hinv. destruct (without_inv s id t Hpc Hin Hinv) as (Hsub&Ht&Hc&Hdq).
  destruct Hinv as (_&Hok&_). destruct t; simpl.
  - unfold drainQueue. simpl. destruct (draining s) eqn:Hd; [by apply Hdq|].
    unfold pc_ok in Hok. rewrite Hpc, Hd in Hok. destruct Hok as [Hi _].
    split_and!; [| |by apply (runTimeout_ok CleanUpNextTick (without id s))].
    + unfold pending in *; simpl in *. rewrite Hpc, Hd in Hsub. by rewrite Hi.
    + unfold pc_ok; simpl. split_and!; [done..|lia|lia|].
      apply elem_of_app. right. by apply list_elem_of_singleton.
  - unfold cleanUpNextTick. simpl. destruct (draining s) eqn:Hd; [|by apply Hc].
    unfold pc_ok in Hok. rewrite Hpc, Hd in Hok. destruct Hok as [(cq&Hcq&Hne&Hi) _].
    rewrite Hcq. rewrite (proj2 (Nat.eqb_neq (length cq) 0)) by (by destruct cq).
    rewrite length_app, (proj2 (Nat.eqb_neq (_ + _) 0)) by (destruct cq; [done|simpl; lia]).
    unfold drainQueue. simpl.
    split_and!; [| |by apply (runTimeout_ok CleanUpNextTick (without id s))].
    + unfold pending in *; simpl in *. rewrite Hpc, Hd, Hcq in Hsub. rewrite Hsub. simpl.
      rewrite drop_app_le by lia. done.
    + unfold pc_ok; simpl. rewrite length_app. split_and!; [done..|lia|lia|].
      apply elem_of_app. right. by apply list_elem_of_singleton.
Qed.

Lemma reachable_inv s : rtc step initial s → inv s.
Proof.
  intros H. assert (Hi : inv initial) by apply initial_inv. revert Hi.
  induction H as [s|s1 s2 s3 Hs _ IH]; [done|]. intros Hi. apply IH.
  destruct Hs; [by apply submit_inv|by apply fire_inv|by apply loop_inv|by apply inner_inv].
Qed.

(** ** Properties *)

(** C23: in every run the items that have run are the first ones submitted,
    each once and in the order of the calls to [nextTick], whichever items
    throw; the others are pending. *)
Theorem nextTick_fifo (s : state) :
  rtc step initial s → submitted s = ran s ++ pending s.
Proof. intros H. by apply reachable_inv in H as [? _]. Qed.

(** The next item runs within three steps of code. *)
Lemma loop_runs s len timeout x rest :
  inv s → pc s = Loop len timeout → pending s = x :: rest →
  ∃ s', rtc step s s' ∧ ran s' = ran s ++ [x].
Proof.
  intros Hinv Hpc Hp. pose proof Hinv as (_&Hok&_). unfold pending, pc_ok in *. rewrite Hpc in *.
  destruct Hok as (Hd&->&Hlo&Hhi&Htm).
  assert (Hx : queue s !! Z.to_nat (queueIndex s + 1) = Some x).
  { rewrite <-(Nat.add_0_r (Z.to_nat _)), <-lookup_drop. by rewrite Hp. }
  pose proof (lookup_lt_Some _ _ _ Hx) as Hlt.
  eexists. split; [eapply rtc_l; [by apply step_loop|]; apply rtc_once; apply step_inner|].
  - unfold loop_step. by rewrite (proj2 (Nat.eqb_neq _ 0)) by lia.
  - unfold loop_step. rewrite (proj2 (Nat.eqb_neq _ 0)) by lia. unfold inner_step. simpl.
    rewrite (proj2 (Z.ltb_lt _ _)) by lia. rewrite Hx.
    by rewrite foldl_nextTick_draining.
Qed.

Lemma inner_runs s len timeout x rest :
  inv s → pc s = Inner len timeout → pending s = x :: rest →
  ∃ s', rtc step s s' ∧ ran s' = ran s ++ [x].
Proof.
  intros Hinv Hpc Hp. pose proof Hinv as (_&Hok&_). pose proof Hok as Hok'.
  unfold pending, pc_ok in Hp, Hok'. rewrite Hpc in Hp, Hok'.
  destruct Hok' as (Hd&Hlo&Hhi&Htm&cq&Hcq&->). rewrite Hcq in Hp. simpl in Hp.
  pose proof (inner_inv _ _ _ Hpc Hinv) as Hinv'.
  destruct (decide (queueIndex s + 1 < Z.of_nat (length cq))%Z) as [Hlt|Hge].
  - assert (Hx : cq !! Z.to_nat (queueIndex s + 1) = Some x).
    { destruct (lookup_lt_is_Some_2 cq (Z.to_nat (queueIndex s + 1))) as [y Hy]; [lia|].
      rewrite (drop_S _ _ _ Hy) in Hp. simpl in Hp. congruence. }
    eexists. split; [apply rtc_once; by apply step_inner|].
    unfold inner_step. rewrite (proj2 (Z.ltb_lt _ _)) by lia. rewrite Hcq. simpl. rewrite Hx.
    by rewrite foldl_nextTick_draining.
  - rewrite drop_ge in Hp by lia. simpl in Hp.
    assert (Hstep : step s (inner_step (length cq) timeout s)) by by apply step_inner.
    unfold inner_step in Hstep, Hinv'. rewrite (proj2 (Z.ltb_ge _ _)) in Hstep, Hinv' by lia.
    destruct (loop_runs _ (length (queue s)) timeout x rest Hinv') as (s'&Hs'&Hran); [done| |].
    + unfold pending. simpl. done.
    + exists s'. split; [by eapply rtc_l|done].
Qed.

(** No item is forgotten: from every reachable state with pending items
    the first of them can be run, by the code that is running or by a timer
    that is set, also after an item has thrown. *)
Theorem nextTick_progress (s : state) (x : A) (rest : list A) :
  rtc step initial s → pending s = x :: rest →
  ∃ s', rtc step s s' ∧ ran s' = ran s ++ [x].
Proof.
  intros Hr Hp. apply reachable_inv in Hr as Hinv. pose proof Hinv as (_&Hok&_).
  destruct (pc s) as [|len timeout|len timeout] eqn:Hpc;
    [|by eapply loop_runs|by eapply inner_runs].
  assert (Hfire : ∃ id t, (id, t) ∈ timers s ∧ pc (fire t (without id s)) ≠ Idle).
  { unfold pending, pc_ok in Hp, Hok. rewrite Hpc in Hp, Hok. destruct (draining s) eqn:Hd.
    - destruct Hok as [(cq&Hcq&Hne&Hi) [id Hid]]. exists id, CleanUpNextTick. split; [done|].
      simpl. unfold cleanUpNextTick. simpl. rewrite Hd, Hcq.
      rewrite (proj2 (Nat.eqb_neq (length cq) 0)) by (by destruct cq).
      by rewrite length_app, (proj2 (Nat.eqb_neq (_ + _) 0)) by (destruct cq; [done|simpl; lia]).
    - destruct Hok as [_ Hq]. destruct Hq as [id Hid]; [by rewrite Hp|].
      exists id, DrainQueue. split; [done|]. simpl. unfold drainQueue. simpl. by rewrite Hd. }
  destruct Hfire as (id&t&Hin&Hne).
  pose proof (fire_inv s id t Hpc Hin Hinv) as Hinv'.
  assert (Hstep : step s (fire t (without id s))) by by apply step_fire.
  assert (Hsame : ran (fire t (without id s)) = ran s ∧
                  submitted (fire t (without id s)) = submitted s).
  { destruct t; simpl; unfold cleanUpNextTick, drainQueue; simpl;
      repeat case_match; done. }
  destruct Hsame as [Hran Hsub].
  assert (Hp' : pending (fire t (without id s)) = x :: rest).
  { destruct Hinv as [H1 _], Hinv' as [H2 _]. rewrite Hran, Hsub, H1, Hp in H2.
    by apply app_inv_head in H2. }
  destruct (pc (fire t (without id s))) as [|len timeout|len timeout] eqn:Hpc'; [done|..].
  - destruct (loop_runs _ _ _ _ _ Hinv' Hpc' Hp') as (s'&Hs'&Hr').
    exists s'. split; [by eapply rtc_l|by rewrite Hr', Hran].
  - destruct (inner_runs _ _ _ _ _ Hinv' Hpc' Hp') as (s'&Hs'&Hr').
    exists s'. split; [by eapply rtc_l|by rewrite Hr', Hran].
Qed.
End next_tick.

(** One item that throws, then one that does not. *)
Definition one_throws (n : nat) : bool := n =? 1.

Lemma nextTick_fifo_witness :
  let s := nextTick 2 (nextTick 1 initial) in submitted s = ran s ++ pending s.
Proof.
  intros s. apply (nextTick_fifo (λ _, []) one_throws).
  eapply rtc_l; [by apply (step_submit _ _ initial 1)|].
  eapply rtc_l; [by apply (step_submit _ _ _ 2)|]. reflexivity.
Defined.

Lemma nextTick_progress_witness :
  ∃ s', rtc (step (λ _, []) one_throws) (nextTick 2 (nextTick 1 initial)) s' ∧ ran s' = [1].
Proof.
  apply (nextTick_progress (λ _, []) one_throws (nextTick 2 (nextTick 1 initial)) 1 [2]).
  - eapply rtc_l; [by apply (step_submit _ _ initial 1)|].
    eapply rtc_l; [by apply (step_submit _ _ _ 2)|]. reflexivity.
  - reflexivity.
Defined.
