(* ===== verification/Events.v ===== *)
(** * [EventEmitter] of the bundled [events] module ([wordcut.js])

    Listeners are functions: one of the user's, or the wrapper [once] makes,
    which carries its cell [fired], its type and the listener it wraps.  The
    listeners of an event are one function or a reference to an array, kept
    in a heap because [removeAllListeners] holds on to the array it empties
    while user code runs.  A user function is a parameter of the operations;
    [run_user] makes one of any program ([script]) that calls the emitter.
    [emit], [removeListener] and the wrappers call each other, so they take
    fuel: the depth of nested emissions.  Event names are those that
    [Object.prototype] has no property of. *)

From S2P Require Import Prelude.

Module events.

Inductive fn :=
| User (id : nat)
| OnceG (fired : nat) (type : string) (listener : fn).

#[export] Instance fn_eq_dec : EqDecision fn.
Proof. solve_decision. Defined.

(** [f.listener], a property only the wrappers have. *)
Definition listener_of (f : fn) : option fn :=
  match f with User _ => None | OnceG _ _ l => Some l end.

Inductive value := Str (s : string) | FnV (f : fn).

Inductive handler := One (f : fn) | Arr (r : nat).

Record array := { items : list fn; warned : bool }.

Record emitter := {
  _events : list (string * handler); heap : gmap nat array; next_ref : nat;
  _maxListeners : option Z; fired : gset nat; next_cell : nat;
  calls : list (nat * list value);   (* the user functions called, in order *)
  once_runs : list nat;              (* the cells whose listener was applied *)
  leaks : list (string * nat) }.     (* the warnings printed *)

Definition new_emitter : emitter :=
  {| _events := []; heap := ∅; next_ref := 0; _maxListeners := None; fired := ∅;
     next_cell := 0; calls := []; once_runs := []; leaks := [] |}.

(** ** The properties of [_events], in the order they were added *)

Fixpoint get (l : list (string * handler)) (k : string) : option handler :=
  match l with
  | [] => None
  | (k', h) :: l => if bool_decide (k' = k) then Some h else get l k
  end.
Fixpoint put (l : list (string * handler)) (k : string) (h : handler) :=
  match l with
  | [] => [(k, h)]
  | (k', h') :: l => if bool_decide (k' = k) then (k, h) :: l else (k', h') :: put l k h
  end.
Definition del (l : list (string * handler)) (k : string) : list (string * handler) :=
  List.filter (λ p, negb (bool_decide (p.1 = k))) l.

Definition with_events (s : emitter) (l : list (string * handler)) : emitter :=
  {| _events := l; heap := heap s; next_ref := next_ref s; _maxListeners := _maxListeners s;
     fired := fired s; next_cell := next_cell s; calls := calls s; once_runs := once_runs s;
     leaks := leaks s |}.
Definition with_array (s : emitter) (r : nat) (a : array) : emitter :=
  {| _events := _events s; heap := <[r := a]> (heap s); next_ref := next_ref s;
     _maxListeners := _maxListeners s; fired := fired s; next_cell := next_cell s;
     calls := calls s; once_runs := once_runs s; leaks := leaks s |}.
Definition alloc (s : emitter) (l : list fn) : nat * emitter :=
  (next_ref s,
   {| _events := _events s; heap := <[next_ref s := {| items := l; warned := false |}]> (heap s);
      next_ref := S (next_ref s); _maxListeners := _maxListeners s; fired := fired s;
      next_cell := next_cell s; calls := calls s; once_runs := once_runs s; leaks := leaks s |}).
Definition called (s : emitter) (id : nat) (args : list value) : emitter :=
  {| _events := _events s; heap := heap s; next_ref := next_ref s;
     _maxListeners := _maxListeners s; fired := fired s; next_cell := next_cell s;
     calls := calls s ++ [(id, args)]; once_runs := once_runs s; leaks := leaks s |}.
Definition fire_cell (s : emitter) (c : nat) : emitter :=
  {| _events := _events s; heap := heap s; next_ref := next_ref s;
     _maxListeners := _maxListeners s; fired := {[c]} ∪ fired s; next_cell := next_cell s;
     calls := calls s; once_runs := once_runs s ++ [c]; leaks := leaks s |}.
Definition new_cell (s : emitter) : nat * emitter :=
  (next_cell s,
   {| _events := _events s; heap := heap s; next_ref := next_ref s;
      _maxListeners := _maxListeners s; fired := fired s; next_cell := S (next_cell s);
      calls := calls s; once_runs := once_runs s; leaks := leaks s |}).
Definition warn (s : emitter) (type : string) (n : nat) : emitter :=
  {| _events := _events s; heap := heap s; next_ref := next_ref s;
     _maxListeners := _maxListeners s; fired := fired s; next_cell := next_cell s;
     calls := calls s; once_runs := once_runs s; leaks := leaks s ++ [(type, n)] |}.

Definition array_at (s : emitter) (r : nat) : array :=
  default {| items := []; warned := false |} (heap s !! r).

(** [setMaxListeners]: [None] is the TypeError. *)
Definition setMaxListeners (s : emitter) (n : Z) : option emitter :=
  if (n <? 0)%Z then None
  else Some {| _events := _events s; heap := heap s; next_ref := next_ref s;
               _maxListeners := Some n; fired := fired s; next_cell := next_cell s;
               calls := calls s; once_runs := once_runs s; leaks := leaks s |}.

Definition defaultMaxListeners : Z := 10.

(** [listeners] and [listenerCount]. *)
Definition listeners (s : emitter) (type : string) : list fn :=
  match get (_events s) type with
  | None => []
  | Some (One f) => [f]
  | Some (Arr r) => items (array_at s r)
  end.
Definition listenerCount (s : emitter) (type : string) : nat :=
  match get (_events s) type with
  | None => 0
  | Some (One _) => 1
  | Some (Arr r) => length (items (array_at s r))
  end.

(** ** Operations *)

(** The end of a call: it returns, it throws, or the fuel runs out while the
    emitter is as given. *)
Inductive outcome (A : Type) :=
  Returns (a : A) (s : emitter) | Throws (s : emitter) | NoFuel (s : emitter).
Arguments Returns {A} a s. Arguments Throws {A} s. Arguments NoFuel {A} s.

Definition and_then {A B} (o : outcome A) (f : A → emitter → outcome B) : outcome B :=
  match o with Returns a s => f a s | Throws s => Throws s | NoFuel s => NoFuel s end.

(** The index the backward scan of [removeListener] stops at. *)
Fixpoint last_match (l : list fn) (f : fn) : option nat :=
  match l with
  | [] => None
  | g :: l =>
      match last_match l f with
      | Some i => Some (S i)
      | None => if bool_decide (g = f ∨ listener_of g = Some f) then Some 0 else None
      end
  end.

Section emitter.
Variable user : nat → list value → emitter → outcome unit.

(** [removeListener], given how to emit. *)
Definition removeListener_with (emit : string → list value → emitter → outcome bool)
    (type : string) (listener : fn) (s : emitter) : outcome unit :=
  let notify s :=
    if bool_decide (get (_events s) "removeListener" = None) then Returns tt s
    else and_then (emit "removeListener" [Str type; FnV listener] s) (λ _ s, Returns tt s) in
  match get (_events s) type with
  | None => Returns tt s
  | Some (One f) =>
      if bool_decide (f = listener ∨ listener_of f = Some listener)
      then notify (with_events s (del (_events s) type))
      else Returns tt s
  | Some (Arr r) =>
      let a := array_at s r in
      match last_match (items a) listener with
      | None => Returns tt s
      | Some position =>
          notify (if length (items a) =? 1 then
                    with_events (with_array s r {| items := []; warned := warned a |})
                      (del (_events s) type)
                  else with_array s r {| items := delete position (items a);
                                         warned := warned a |})
      end
  end.

(** Calling a function: a wrapper removes itself, and applies its listener
    the first time. *)
Fixpoint call_fn (emit : string → list value → emitter → outcome bool)
    (f : fn) (args : list value) (s : emitter) : outcome unit :=
  match f with
  | User id => user id args (called s id args)
  | OnceG cell type listener =>
      and_then (removeListener_with emit type f s) (λ _ s,
        if bool_decide (cell ∈ fired s) then Returns tt s
        else call_fn emit listener args (fire_cell s cell))
  end.

Fixpoint call_all (emit : string → list value → emitter → outcome bool)
    (l : list fn) (args : list value) (s : emitter) : outcome unit :=
  match l with
  | [] => Returns tt s
  | f :: l => and_then (call_fn emit f args s) (λ _ s, call_all emit l args s)
  end.

(** [emit]: an array of listeners is copied before the first call. *)
Fixpoint emit (fuel : nat) (type : string) (args : list value) (s : emitter)
    : outcome bool :=
  match fuel with
  | 0 => NoFuel s
  | S fuel =>
      if bool_decide (type = "error") &&
         match get (_events s) "error" with
         | None => true
         | Some (Arr r) => length (items (array_at s r)) =? 0
         | Some (One _) => false
         end
      then Throws s
      else match get (_events s) type with
      | None => Returns false s
      | Some (One f) => and_then (call_fn (emit fuel) f args s) (λ _ s, Returns true s)
      | Some (Arr r) =>
          and_then (call_all (emit fuel) (items (array_at s r)) args s)
            (λ _ s, Returns true s)
      end
  end.

Definition removeListener (fuel : nat) := removeListener_with (emit fuel).

(** The warning of [addListener] for an array that has grown too long. *)
Definition check_leak (type : string) (s : emitter) : emitter :=
  match get (_events s) type with
  | Some (Arr r) =>
      let a := array_at s r in
      let m := default defaultMaxListeners (_maxListeners s) in
      if negb (warned a) && (0 <? m)%Z && (m <? Z.of_nat (length (items a)))%Z then
        warn (with_array s r {| items := items a; warned := true |}) type (length (items a))
      else s
  | _ => s
  end.

Definition append_listener (type : string) (listener : fn) (s : emitter) : emitter :=
  match get (_events s) type with
  | None => with_events s (put (_events s) type (One listener))
  | Some (Arr r) =>
      let a := array_at s r in
      with_array s r {| items := items a ++ [listener]; warned := warned a |}
  | Some (One f) =>
      let '(r, s) := alloc s [f; listener] in
      with_events s (put (_events s) type (Arr r))
  end.

Definition addListener (fuel : nat) (type : string) (listener : fn) (s : emitter)
    : outcome unit :=
  and_then
    (if bool_decide (get (_events s) "newListener" = None) then Returns true s
     else emit fuel "newListener" [Str type; FnV (default listener (listener_of listener))] s)
    (λ _ s, Returns tt (check_leak type (append_listener type listener s))).

Definition once (fuel : nat) (type : string) (listener : fn) (s : emitter) : outcome unit :=
  let '(cell, s) := new_cell s in
  addListener fuel type (OnceG cell type listener) s.

(** The loop of [removeAllListeners(type)] over the array it holds; [n]
    bounds its rounds. *)
Fixpoint remove_while (fuel n : nat) (type : string) (r : nat) (s : emitter) : outcome unit :=
  match last (items (array_at s r)) with
  | None => Returns tt s
  | Some f =>
      match n with
      | 0 => NoFuel s
      | S n => and_then (removeListener fuel type f s) (λ _ s, remove_while fuel n type r s)
      end
  end.

(** [removeAllListeners(type)]; with a listener of 'removeListener', an event
    without listeners reads a property of undefined. *)
Definition removeAllListeners_of (fuel : nat) (type : string) (s : emitter) : outcome unit :=
  if bool_decide (get (_events s) "removeListener" = None) then
    Returns tt (with_events s (del (_events s) type))
  else
    and_then
      match get (_events s) type with
      | None => Throws s
      | Some (One f) => removeListener fuel type f s
      | Some (Arr r) => remove_while fuel fuel type r s
      end
      (λ _ s, Returns tt (with_events s (del (_events s) type))).

Fixpoint remove_keys (fuel : nat) (keys : list string) (s : emitter) : outcome unit :=
  match keys with
  | [] => Returns tt s
  | k :: keys =>
      (* a property deleted before the loop gets to it is not visited *)
      if bool_decide (k = "removeListener") || bool_decide (get (_events s) k = None)
      then remove_keys fuel keys s
      else and_then (removeAllListeners_of fuel k s) (λ _ s, remove_keys fuel keys s)
  end.

Definition removeAllListeners (fuel : nat) (s : emitter) : outcome unit :=
  if bool_decide (get (_events s) "removeListener" = None) then Returns tt (with_events s [])
  else
    and_then (remove_keys fuel (map fst (_events s)) s) (λ _ s,
    and_then (removeAllListeners_of fuel "removeListener" s) (λ _ s,
    Returns tt (with_events s []))).

(** *** Programs that use an emitter *)

(** A call of the emitter, or of a function that was got from it. *)
Inductive op :=
| OpEmit (type : string) (args : list value) | OpOn (type : string) (f : fn)
| OpOnce (type : string) (f : fn) | OpRemove (type : string) (f : fn)
| OpRemoveAll (type : option string) | OpMax (n : Z) | OpListeners (type : string)
| OpCount (type : string) | OpCall (f : fn) (args : list value).

(** What it answers; [RThrew] when it throws. *)
Inductive reply := RUnit | RBool (b : bool) | RList (l : list fn) | RCount (n : nat) | RThrew.

Definition perform (fuel : nat) (o : op) (s : emitter) : outcome reply :=
  match o with
  | OpEmit type args => and_then (emit fuel type args s) (λ b s, Returns (RBool b) s)
  | OpOn type f => and_then (addListener fuel type f s) (λ _ s, Returns RUnit s)
  | OpOnce type f => and_then (once fuel type f s) (λ _ s, Returns RUnit s)
  | OpRemove type f => and_then (removeListener fuel type f s) (λ _ s, Returns RUnit s)
  | OpRemoveAll (Some type) =>
      and_then (removeAllListeners_of fuel type s) (λ _ s, Returns RUnit s)
  | OpRemoveAll None => and_then (removeAllListeners fuel s) (λ _ s, Returns RUnit s)
  | OpMax n => match setMaxListeners s n with Some s => Returns RUnit s | None => Throws s end
  | OpListeners type => Returns (RList (listeners s type)) s
  | OpCount type => Returns (RCount (listenerCount s type)) s
  | OpCall f args => and_then (call_fn (emit fuel) f args s) (λ _ s, Returns RUnit s)
  end.
End emitter.

(** A program: it calls the emitter, goes on as the answer says (it may catch
    what is thrown), and ends, by a throw or not. *)
Inductive script := Finish (throw : bool) | Perform (o : op) (k : reply → script).

Fixpoint run_script (step : op → emitter → outcome reply) (p : script) (s : emitter)
    : outcome unit :=
  match p with
  | Finish throw => if throw : bool then Throws s else Returns tt s
  | Perform o k =>
      match step o s with
      | Returns a s => run_script step (k a) s
      | Throws s => run_script step (k RThrew) s
      | NoFuel s => NoFuel s
      end
  end.

(** User functions that run programs: which one may depend on the function,
    its arguments and all the calls of user functions so far, so that every
    call may run one of its own.  [depth] bounds how deep they are nested. *)
Fixpoint run_user (code : nat → list value → list (nat * list value) → script) (depth : nat)
    (id : nat) (args : list value) (s : emitter) : outcome unit :=
  match depth with
  | 0 => NoFuel s
  | S depth => run_script (perform (run_user code depth) depth) (code id args (calls s)) s
  end.

(** ** The properties of an emitter *)

(** Each event has its own array, in the heap and not empty. *)
Definition emitter_ok (s : emitter) : Prop :=
  NoDup (map fst (_events s)) ∧
  (∀ k r, get (_events s) k = Some (Arr r) → r < next_ref s ∧ items (array_at s r) ≠ []) ∧
  (∀ k k' r, get (_events s) k = Some (Arr r) → get (_events s) k' = Some (Arr r) → k = k').

Lemma get_put l k h k' : get (put l k h) k' = if bool_decide (k = k') then Some h else get l k'.
Proof.
  induction l as [|[j g] l IH]; simpl; [done|].
  destruct (bool_decide_reflect (j = k)) as [->|Hjk]; simpl.
  - by case_bool_decide.
  - rewrite IH. repeat case_bool_decide; congruence.
Qed.

Lemma get_del l k k' : get (del l k) k' = if bool_decide (k = k') then None else get l k'.
Proof.
  induction l as [|[j g] l IH]; simpl; [by case_bool_decide|].
  destruct (bool_decide_reflect (j = k)) as [->|Hjk]; simpl.
  - rewrite IH. by repeat case_bool_decide.
  - rewrite IH. repeat case_bool_decide; congruence.
Qed.

Lemma put_keys l k h x : x ∈ map fst (put l k h) ↔ x = k ∨ x ∈ map fst l.
Proof.
  induction l as [|[j g] l IH]; simpl; [set_solver|].
  case_bool_decide as Hjk; simpl; [subst; set_solver|]. rewrite !elem_of_cons, IH. tauto.
Qed.

Lemma put_nodup l k h : NoDup (map fst l) → NoDup (map fst (put l k h)).
Proof.
  induction l as [|[j g] l IH]; simpl; intros H; [apply NoDup_singleton|].
  inversion H as [|?? Hj Hl]; subst.
  case_bool_decide as Hjk; simpl; [by subst|]. constructor; [|by apply IH].
  rewrite put_keys. intros [?|?]; congruence.
Qed.

Lemma del_nodup l k : NoDup (map fst l) → NoDup (map fst (del l k)).
Proof.
  induction l as [|[j g] l IH]; simpl; [done|]. intros Hn. inversion Hn as [|?? Hj Hn']; subst.
  destruct (negb _); simpl; [|by apply IH]. constructor; [|by apply IH].
  intros Hin. apply Hj. apply list_elem_of_fmap in Hin as ([k' h]&->&Hin).
  apply list_elem_of_In, List.filter_In in Hin as [Hin _].
  apply list_elem_of_fmap. exists (k', h). split; [done|]. by apply list_elem_of_In.
Qed.

Lemma listeners_put_one s k f k' :
  listeners (with_events s (put (_events s) k (One f))) k' =
    if bool_decide (k = k') then [f] else listeners s k'.
Proof. unfold listeners; simpl. rewrite get_put. by case_bool_decide. Qed.

Lemma listeners_with_array s k r a k' :
  emitter_ok s → get (_events s) k = Some (Arr r) →
  listeners (with_array s r a) k' = if bool_decide (k = k') then items a else listeners s k'.
Proof.
  intros (_&_&Hinj) Hk. unfold listeners; simpl.
  case_bool_decide as Hkk; [subst; rewrite Hk; unfold array_at; simpl; by rewrite lookup_insert_eq|].
  destruct (get (_events s) k') as [[f|r']|] eqn:Hk'; [done| |done].
  unfold array_at; simpl. rewrite lookup_insert_ne; [done|]. intros ->. apply Hkk. by eapply Hinj.
Qed.

Lemma append_listeners s type l k :
  emitter_ok s →
  listeners (append_listener type l s) k =
    if bool_decide (type = k) then listeners s type ++ [l] else listeners s k.
Proof.
  intros Hok. unfold append_listener.
  destruct (get (_events s) type) as [[f|r]|] eqn:Hg.
  - simpl. unfold listeners; simpl. rewrite get_put, Hg. case_bool_decide as Hk.
    + unfold array_at; simpl. by rewrite lookup_insert_eq.
    + destruct (get (_events s) k) as [[g|r]|] eqn:Hk'; [done| |done].
      destruct Hok as (_&Hr&_). destruct (Hr _ _ Hk') as [Hlt _].
      unfold array_at; simpl. by rewrite lookup_insert_ne by lia.
  - rewrite (listeners_with_array _ type) by done. simpl. unfold listeners at 2. by rewrite Hg.
  - rewrite listeners_put_one. unfold listeners at 2. by rewrite Hg.
Qed.

Lemma append_ok s type l : emitter_ok s → emitter_ok (append_listener type l s).
Proof.
  intros Hok. pose proof Hok as (Hn&Hr&Hinj). unfold append_listener.
  destruct (get (_events s) type) as [[f|r]|] eqn:Hg.
  - split_and!; simpl; [by apply put_nodup| |].
    + intros k r. rewrite get_put. case_bool_decide.
      * intros [= <-]. split; [lia|]. unfold array_at; simpl. by rewrite lookup_insert_eq.
      * intros Hk. destruct (Hr _ _ Hk). split; [lia|]. unfold array_at; simpl.
        by rewrite lookup_insert_ne by lia.
    + intros k k' r. rewrite !get_put. repeat case_bool_decide; [congruence| | |apply Hinj].
      * intros [= <-] Hk. destruct (Hr _ _ Hk). lia.
      * intros Hk [= <-]. destruct (Hr _ _ Hk). lia.
  - split_and!; [done| |done]. intros k r' Hk. simpl in *. destruct (Hr _ _ Hk). split; [done|].
    unfold array_at; simpl. destruct (decide (r' = r)) as [->|].
    + rewrite lookup_insert_eq. simpl. by destruct (items _).
    + by rewrite lookup_insert_ne.
  - split_and!; simpl; [by apply put_nodup| |].
    + intros k r. rewrite get_put. case_bool_decide; [done|apply Hr].
    + intros k k' r. rewrite !get_put. repeat case_bool_decide; try done. apply Hinj.
Qed.

Lemma check_leak_listeners type s k :
  emitter_ok s → listeners (check_leak type s) k = listeners s k ∧
  _events (check_leak type s) = _events s ∧ emitter_ok (check_leak type s).
Proof.
  intros Hok. unfold check_leak. destruct (get (_events s) type) as [[f|r]|] eqn:Hg; [done| |done].
  destruct (negb _ && _ && _); [|done].
  split_and!; [|done|].
  - change (listeners (warn ?s _ _) k) with (listeners s k).
    rewrite (listeners_with_array s type) by done. simpl. case_bool_decide as Hk; [|done].
    subst. unfold listeners. by rewrite Hg.
  - destruct Hok as (Hn&Hr&Hinj). split_and!; [done| |done]. intros k' r' Hk'. simpl in *.
    destruct (Hr _ _ Hk'). split; [done|]. unfold array_at; simpl.
    destruct (decide (r' = r)) as [->|]; [|by rewrite lookup_insert_ne].
    rewrite lookup_insert_eq. simpl. by destruct (Hr _ _ Hg).
Qed.

Lemma last_match_snoc l f : last_match (l ++ [f]) f = Some (length l).
Proof.
  induction l as [|g l IH]; simpl; [|by rewrite IH].
  by rewrite bool_decide_eq_true_2 by by left.
Qed.

Lemma last_match_lt l f i : last_match l f = Some i → i < length l.
Proof.
  revert i. induction l as [|g l IH]; intros i; simpl; [done|].
  destruct (last_match l f) as [j|]; [intros [= <-]; specialize (IH j eq_refl); lia|].
  case_bool_decide; [|done]. intros [= <-]. lia.
Qed.

(** A list without its last match. *)
Definition remove_last (l : list fn) (f : fn) : list fn :=
  match last_match l f with Some i => delete i l | None => l end.

Section facts.
Variable user : nat → list value → emitter → outcome unit.

(** Nobody listens to the emitter's own events. *)
Definition unobserved (s : emitter) : Prop :=
  get (_events s) "newListener" = None ∧ get (_events s) "removeListener" = None.

Lemma removeListener_listeners fuel type f s :
  emitter_ok s → get (_events s) "removeListener" = None →
  ∃ s', removeListener user fuel type f s = Returns tt s' ∧ emitter_ok s' ∧
    ∀ k, listeners s' k =
      if bool_decide (type = k) then remove_last (listeners s type) f else listeners s k.
Proof.
  intros Hok Hno. pose proof Hok as (Hn&Hr&Hinj).
  unfold removeListener, removeListener_with.
  assert (Hdel : ∀ k, get (del (_events s) type) k = None ∨
    get (del (_events s) type) k = get (_events s) k).
  { intros k. rewrite get_del. case_bool_decide; auto. }
  assert (Hdok : ∀ s', _events s' = del (_events s) type → next_ref s' = next_ref s →
    (∀ k r, get (del (_events s) type) k = Some (Arr r) → array_at s' r = array_at s r) →
    emitter_ok s').
  { intros s' He Hnr Harr. split_and!; rewrite ?He; [by apply del_nodup| |].
    - intros k r Hk. rewrite (Harr _ _ Hk), Hnr. rewrite get_del in Hk.
      case_bool_decide; [done|by eapply Hr].
    - intros k k' r. rewrite !get_del. repeat case_bool_decide; try done. apply Hinj. }
  destruct (get (_events s) type) as [[g|r]|] eqn:Hg.
  - case_bool_decide as Hm.
    + simpl. rewrite get_del. rewrite bool_decide_eq_true_2 by (by case_bool_decide).
      eexists. split_and!; [done|by apply Hdok|]. intros k. unfold listeners; simpl.
      rewrite get_del, Hg. case_bool_decide; [|done]. unfold remove_last. simpl.
      by rewrite bool_decide_eq_true_2.
    + eexists. split_and!; [done|done|]. intros k. case_bool_decide as Hk; [subst|done].
      unfold listeners. rewrite Hg. unfold remove_last. simpl. by rewrite bool_decide_eq_false_2.
  - assert (Hl : listeners s type = items (array_at s r)) by (unfold listeners; by rewrite Hg).
    destruct (last_match (items (array_at s r)) f) as [p|] eqn:Hp.
    + pose proof (last_match_lt _ _ _ Hp) as Hlt.
      destruct (Nat.eqb_spec (length (items (array_at s r))) 1) as [H1|H1]; simpl.
      * rewrite get_del. rewrite bool_decide_eq_true_2 by (by case_bool_decide).
        eexists. split_and!; [done| |].
        -- apply Hdok; [done..|]. intros k r' Hk. unfold array_at; simpl.
           rewrite lookup_insert_ne; [done|]. intros <-. rewrite get_del in Hk.
           case_bool_decide as Hkk; [done|]. apply Hkk. by eapply Hinj.
        -- intros k. unfold listeners; simpl. rewrite get_del, Hg. unfold remove_last. rewrite Hp.
           case_bool_decide as Hk.
           ++ destruct (items (array_at s r)) as [|g [|g' l]]; [done| |done].
              assert (p = 0) as -> by (simpl in Hlt; lia). done.
           ++ destruct (get (_events s) k) as [[g|r']|] eqn:Hk'; [done| |done].
              unfold array_at; simpl. rewrite lookup_insert_ne; [done|].
              intros <-. apply Hk. by eapply Hinj.
      * rewrite bool_decide_eq_true_2 by done. eexists. split_and!; [done| |].
        -- split_and!; [done| |done]. intros k r' Hk. simpl in *. destruct (Hr _ _ Hk).
           split; [done|]. unfold array_at; simpl.
           destruct (decide (r' = r)) as [->|]; [|by rewrite lookup_insert_ne].
           rewrite lookup_insert_eq. simpl. intros Hnil. apply (f_equal length) in Hnil.
           rewrite length_delete in Hnil by (by apply lookup_lt_is_Some_2). unfold array_at in *. simpl in Hnil. lia.
        -- intros k. rewrite (listeners_with_array s type) by done. simpl.
           case_bool_decide; [|done]. unfold remove_last. by rewrite Hl, Hp.
    + eexists. split_and!; [done|done|]. intros k. case_bool_decide as Hk; [subst|done].
      unfold remove_last. by rewrite Hl, Hp.
  - eexists. split_and!; [done|done|]. intros k. case_bool_decide as Hk; [subst|done].
    unfold listeners. by rewrite Hg.
Qed.

(** On an emitter nobody observes, [addListener] appends to the
    listeners of its event alone, and [removeListener] then takes the same
    listener away again: the listeners of every event are what they were. *)
Theorem addListener_removeListener (fuel : nat) (type : string) (f : fn) (s : emitter) :
  emitter_ok s → unobserved s → type ≠ "newListener" → type ≠ "removeListener" →
  ∃ s1 s2, addListener user fuel type f s = Returns tt s1 ∧
    (∀ k, listeners s1 k = if bool_decide (type = k) then listeners s type ++ [f]
                           else listeners s k) ∧
    removeListener user fuel type f s1 = Returns tt s2 ∧ ∀ k, listeners s2 k = listeners s k.
Proof.
  intros Hok [Hnew Hrem] Htn Htr.
  set (s1 := check_leak type (append_listener type f s)).
  assert (Hadd : addListener user fuel type f s = Returns tt s1).
  { unfold addListener. by rewrite bool_decide_eq_true_2. }
  pose proof (append_ok s type f Hok) as Hok'.
  assert (Hl : ∀ k, listeners s1 k = if bool_decide (type = k) then listeners s type ++ [f]
                                     else listeners s k).
  { intros k. unfold s1. rewrite (proj1 (check_leak_listeners type _ k Hok')).
    by apply append_listeners. }
  destruct (check_leak_listeners type _ type Hok') as (_&He&Hok1).
  assert (Hrem1 : get (_events s1) "removeListener" = None).
  { unfold s1. rewrite He. unfold append_listener.
    destruct (get (_events s) type) as [[g|r]|]; simpl; [|done|];
      rewrite get_put; by rewrite bool_decide_eq_false_2. }
  destruct (removeListener_listeners fuel type f s1 Hok1 Hrem1) as (s2&Hr&_&Hl2).
  exists s1, s2. split_and!; [done..|]. intros k. rewrite Hl2, !Hl.
  case_bool_decide as Hk; [subst|done]. rewrite bool_decide_eq_true_2 by done.
  unfold remove_last. rewrite last_match_snoc. rewrite delete_middle. by rewrite app_nil_r.
Qed.

(** [emit] returns whether there are listeners and calls, one after the
    other, those that were there when it began, however the calls change the
    emitter; an 'error' nobody listens to is thrown. *)
Theorem emit_snapshot (fuel : nat) (type : string) (args : list value) (s : emitter) :
  emitter_ok s →
  emit user (S fuel) type args s =
    (if bool_decide (listeners s type = []) then
       (if bool_decide (type = "error") then Throws s else Returns false s)
     else and_then (call_all user (emit user fuel) (listeners s type) args s)
            (λ _ s, Returns true s)).
Proof.
  intros (_&Hr&_). cbn [emit]. unfold listeners.
  destruct (bool_decide_reflect (type = "error")) as [->|Ht]; cbn [andb].
  - destruct (get (_events s) "error") as [[f|r]|] eqn:Hg; [..|done].
    + rewrite bool_decide_eq_false_2 by done. simpl.
      by destruct (call_fn user (emit user fuel) f args s).
    + destruct (Hr _ _ Hg) as [_ Hne]. rewrite bool_decide_eq_false_2 by done.
      by rewrite (proj2 (Nat.eqb_neq _ 0)) by (by destruct (items _)).
  - destruct (get (_events s) type) as [[f|r]|] eqn:Hg; [..|done].
    + rewrite bool_decide_eq_false_2 by done. simpl.
      by destruct (call_fn user (emit user fuel) f args s).
    + destruct (Hr _ _ Hg) as [_ Hne]. by rewrite bool_decide_eq_false_2.
Qed.
End facts.

(** ** [once] *)

(** A cell's listener has been applied only if the cell has fired, and once. *)
Definition once_inv (s : emitter) : Prop :=
  NoDup (once_runs s) ∧ ∀ c, c ∈ once_runs s → c ∈ fired s.

Definition ends_with {A} (P : emitter → Prop) (o : outcome A) : Prop :=
  match o with Returns _ s | Throws s | NoFuel s => P s end.

Lemma ends_and_then {A B} (P : emitter → Prop) (o : outcome A) (f : A → emitter → outcome B) :
  ends_with P o → (∀ a s, P s → ends_with P (f a s)) → ends_with P (and_then o f).
Proof. destruct o; simpl; auto. Qed.

Section once.
Variable user : nat → list value → emitter → outcome unit.
Hypothesis user_ok : ∀ id args s, once_inv s → ends_with once_inv (user id args s).

Lemma fire_cell_inv s c : once_inv s → c ∉ fired s → once_inv (fire_cell s c).
Proof.
  intros [Hn Hf] Hc. split; simpl.
  - apply NoDup_app. split_and!; [done| |apply NoDup_singleton].
    intros x Hx Hxc. apply list_elem_of_singleton in Hxc as ->. by apply Hc, Hf.
  - intros x Hx. apply elem_of_app in Hx as [Hx|Hx%list_elem_of_singleton]; set_solver.
Qed.

Lemma removeListener_with_inv em type f s :
  (∀ t args s, once_inv s → ends_with once_inv (em t args s)) →
  once_inv s → ends_with once_inv (removeListener_with em type f s).
Proof.
  intros Hem Hs. unfold removeListener_with.
  assert (Hnotify : ∀ s, once_inv s → ends_with once_inv
    (if bool_decide (get (_events s) "removeListener" = None) then Returns tt s
     else and_then (em "removeListener" [Str type; FnV f] s) (λ _ s, Returns tt s))).
  { intros s' Hs'. case_bool_decide; [done|]. apply ends_and_then; [by apply Hem|done]. }
  destruct (get (_events s) type) as [[g|r]|]; [| |done].
  - case_bool_decide; [by apply Hnotify|done].
  - destruct (last_match _ f); [|done]. apply Hnotify. by destruct (length _ =? 1).
Qed.

Lemma call_fn_inv em f args s :
  (∀ t args s, once_inv s → ends_with once_inv (em t args s)) →
  once_inv s → ends_with once_inv (call_fn user em f args s).
Proof.
  intros Hem. revert s. induction f as [id|c type f IH]; intros s Hs; cbn [call_fn].
  - by apply user_ok.
  - apply ends_and_then; [by apply removeListener_with_inv|]. intros _ s' Hs'.
    case_bool_decide as Hc; [done|]. by apply IH, fire_cell_inv.
Qed.

Lemma emit_inv fuel type args s :
  once_inv s → ends_with once_inv (emit user fuel type args s).
Proof.
  revert type args s. induction fuel as [|fuel IH]; intros type args s Hs; cbn [emit]; [done|].
  destruct (_ && _); [done|]. destruct (get (_events s) type) as [[f|r]|]; [| |done].
  - apply ends_and_then; [|done]. by apply call_fn_inv.
  - apply ends_and_then; [|done]. generalize (items (array_at s r)) as l. intros l.
    revert s Hs. induction l as [|f l IHl]; intros s Hs; cbn [call_all]; [done|].
    apply ends_and_then; [by apply call_fn_inv|]. intros _ s' Hs'. by apply IHl.
Qed.

Lemma addListener_inv fuel type f s :
  once_inv s → ends_with once_inv (addListener user fuel type f s).
Proof.
  intros Hs. unfold addListener.
  assert (Hend : ∀ s, once_inv s → once_inv (check_leak type (append_listener type f s))).
  { intros s' Hs'. unfold append_listener, check_leak.
    destruct (get (_events s') type) as [[g|r]|]; simpl;
      repeat match goal with |- context [match ?x with _ => _ end] => destruct x end; done. }
  apply ends_and_then; [case_bool_decide; [done|by apply emit_inv]|].
  intros _ s' Hs'. by apply Hend.
Qed.

Lemma removeListener_inv fuel type f s :
  once_inv s → ends_with once_inv (removeListener user fuel type f s).
Proof. intros Hs. apply removeListener_with_inv; [|done]. intros. by apply emit_inv. Qed.

Lemma remove_while_inv fuel n type r s :
  once_inv s → ends_with once_inv (remove_while user fuel n type r s).
Proof.
  revert s. induction n as [|n IH]; intros s Hs; cbn [remove_while];
    (destruct (last _) as [f|]; [|done]); [done|].
  apply ends_and_then; [by apply removeListener_inv|]. intros _ s'. apply IH.
Qed.

Lemma removeAllListeners_of_inv fuel type s :
  once_inv s → ends_with once_inv (removeAllListeners_of user fuel type s).
Proof.
  intros Hs. unfold removeAllListeners_of. case_bool_decide; [done|].
  apply ends_and_then; [|done]. destruct (get (_events s) type) as [[f|r]|]; [| |done].
  - by apply removeListener_inv.
  - by apply remove_while_inv.
Qed.

Lemma remove_keys_inv fuel keys s :
  once_inv s → ends_with once_inv (remove_keys user fuel keys s).
Proof.
  revert s. induction keys as [|k keys IH]; intros s Hs; cbn [remove_keys]; [done|].
  destruct (_ || _); [by apply IH|].
  apply ends_and_then; [by apply removeAllListeners_of_inv|]. intros _ s'. apply IH.
Qed.

Lemma removeAllListeners_inv fuel s :
  once_inv s → ends_with once_inv (removeAllListeners user fuel s).
Proof.
  intros Hs. unfold removeAllListeners. case_bool_decide; [done|].
  apply ends_and_then; [by apply remove_keys_inv|]. intros _ s1 Hs1.
  apply ends_and_then; [by apply removeAllListeners_of_inv|done].
Qed.

Lemma perform_inv fuel o s : once_inv s → ends_with once_inv (perform user fuel o s).
Proof.
  intros Hs. destruct o as [type args|type f|type f|type f|[type|]|n|type|type|f args]; simpl;
    try (apply ends_and_then; [|done]); [..|done|done|].
  - by apply emit_inv.
  - by apply addListener_inv.
  - unfold once, new_cell. by apply addListener_inv.
  - by apply removeListener_inv.
  - by apply removeAllListeners_of_inv.
  - by apply removeAllListeners_inv.
  - unfold setMaxListeners. by destruct (n <? 0)%Z.
  - apply call_fn_inv; [|done]. intros. by apply emit_inv.
Qed.
End once.

Lemma run_script_inv step p s :
  (∀ o s, once_inv s → ends_with once_inv (step o s)) →
  once_inv s → ends_with once_inv (run_script step p s).
Proof.
  intros Hstep. revert s. induction p as [throw|o k IH]; intros s Hs; simpl; [by destruct throw|].
  pose proof (Hstep o s Hs) as H. destruct (step o s); simpl in H; [by apply IH..|done].
Qed.

Lemma run_user_inv code depth id args s :
  once_inv s → ends_with once_inv (run_user code depth id args s).
Proof.
  revert id args s. induction depth as [|depth IH]; intros id args s Hs; cbn [run_user]; [done|].
  apply run_script_inv; [|done]. intros o s'. by apply perform_inv.
Qed.

(** C21: Whatever a program and the listeners do with an emitter - each may
    emit, add and remove listeners, call them itself and catch what is thrown,
    from within any nesting of emissions - the listener of each [once] is
    applied at most once: in the emitter the program leaves, whether it
    returns or throws, and in the one it has when the fuel runs out, however
    much there is, so also in a program that has no end. *)
Theorem once_at_most_once (code : nat → list value → list (nat * list value) → script)
    (main : script) (depth fuel : nat) :
  match run_script (perform (run_user code depth) fuel) main new_emitter with
  | Returns _ s | Throws s | NoFuel s => NoDup (once_runs s)
  end.
Proof.
  assert (H0 : once_inv new_emitter) by (split; [constructor|set_solver]).
  pose proof (run_script_inv (perform (run_user code depth) fuel) main new_emitter) as H.
  assert (Hstep : ∀ o s, once_inv s → ends_with once_inv (perform (run_user code depth) fuel o s)).
  { intros o s. apply perform_inv, run_user_inv. }
  specialize (H Hstep H0). by destruct (run_script _ _ _); destruct H.
Qed.

(** *** Instances *)

(** Function 0 emits its event again, the others do nothing. *)
Definition re_emit_code (id : nat) (args : list value) (history : list (nat * list value)) : script :=
  match id with 0 => Perform (OpEmit "x" []) (λ _, Finish false) | _ => Finish false end.
Definition re_emit := run_user re_emit_code 5.

(** The listener of [once] emits the event it waits for; it and the other
    listener are called as the order of the list says. *)
Example once_re_emits :
  match run_script (perform re_emit 5)
          (Perform (OpOnce "x" (User 0)) (λ _, Perform (OpOn "x" (User 1)) (λ _,
           Perform (OpEmit "x" []) (λ _, Perform (OpEmit "x" []) (λ _, Finish false))))) new_emitter with
  | Returns _ s => calls s = [(0, []); (1, []); (1, []); (1, [])] ∧ once_runs s = [0]
  | _ => False
  end.
Proof. vm_compute. done. Qed.

(** Two listeners of [once] on one array: the inner emission applies the
    second, and the outer one comes to its wrapper again. *)
Example once_fired :
  match run_script (perform re_emit 5)
          (Perform (OpOnce "x" (User 0)) (λ _, Perform (OpOnce "x" (User 1)) (λ _,
           Perform (OpEmit "x" []) (λ _, Finish false)))) new_emitter with
  | Returns _ s => calls s = [(0, []); (1, [])] ∧ once_runs s = [0; 1]
  | _ => False
  end.
Proof. vm_compute. done. Qed.

Definition two_listeners : emitter :=
  with_events new_emitter [("x", One (User 1)); ("y", One (User 2))].

Lemma two_listeners_ok : emitter_ok two_listeners.
Proof.
  split_and!.
  - apply (bool_decide_unpack _). vm_compute. exact I.
  - intros k r. simpl. repeat case_bool_decide; done.
  - intros k k' r. simpl. repeat case_bool_decide; done.
Qed.

Lemma addListener_removeListener_witness :
  ∃ s1 s2, addListener re_emit 3 "x" (User 7) two_listeners = Returns tt s1 ∧
    removeListener re_emit 3 "x" (User 7) s1 = Returns tt s2 ∧
    listeners s2 "x" = listeners two_listeners "x".
Proof.
  destruct (addListener_removeListener re_emit 3 "x" (User 7) two_listeners)
    as (s1&s2&?&_&?&H).
  - exact two_listeners_ok.
  - split; reflexivity.
  - discriminate.
  - discriminate.
  - exists s1, s2. auto.
Defined.

Lemma emit_snapshot_witness :
  emit re_emit 3 "x" [] two_listeners =
    and_then (call_all re_emit (emit re_emit 2) [User 1] [] two_listeners)
      (λ _ s, Returns true s).
Proof. exact (emit_snapshot re_emit 2 "x" [] two_listeners two_listeners_ok). Defined.
End events.
