(* ===== verification/Timing.v ===== *)
(** * [_.throttle] and [_.debounce] of the bundled underscore ([wordcut.js])

    The closures of both keep the same variables, a mark of time ([previous],
    [timestamp]), a timer, the saved call and the last result; they are one
    record, with the clock, the calls made and the runs of [func], newest
    first, next to them.  [func] is a parameter: the calls of the wrapper it
    makes itself, each some time after the previous one, and whether it
    throws.  So the wrappers are re-entrant, and fuel stands for the depth of
    the calls.  A call is its context and arguments, a value of [A]; the clock
    does not go back; a timer fires when it is due or later, and [setTimeout]
    returns a number other than 0. *)

From S2P Require Import Prelude.

Section timing.
Context {A V : Type}.

Record limiter := {
  now : Z; mark : Z; timeout : option Z; saved : option A; result : option V;
  calls : list (Z * A); runs : list (Z * A) }.

Definition advance (d : Z) (s : limiter) : limiter :=
  {| now := now s + d; mark := mark s; timeout := timeout s; saved := saved s;
     result := result s; calls := calls s; runs := runs s |}.
Definition set_mark (t : Z) (s : limiter) : limiter :=
  {| now := now s; mark := t; timeout := timeout s; saved := saved s;
     result := result s; calls := calls s; runs := runs s |}.
Definition set_timeout (due : option Z) (s : limiter) : limiter :=
  {| now := now s; mark := mark s; timeout := due; saved := saved s;
     result := result s; calls := calls s; runs := runs s |}.
Definition set_saved (a : option A) (s : limiter) : limiter :=
  {| now := now s; mark := mark s; timeout := timeout s; saved := a;
     result := result s; calls := calls s; runs := runs s |}.
Definition set_result (v : V) (s : limiter) : limiter :=
  {| now := now s; mark := mark s; timeout := timeout s; saved := saved s;
     result := Some v; calls := calls s; runs := runs s |}.
Definition called (a : A) (s : limiter) : limiter :=
  {| now := now s; mark := mark s; timeout := timeout s; saved := Some a;
     result := result s; calls := (now s, a) :: calls s; runs := runs s |}.
Definition ran (a : A) (s : limiter) : limiter :=
  {| now := now s; mark := mark s; timeout := timeout s; saved := saved s;
     result := result s; calls := calls s; runs := (now s, a) :: runs s |}.

Definition fresh (t : Z) : limiter :=
  {| now := t; mark := 0; timeout := None; saved := None; result := None;
     calls := []; runs := [] |}.

(** [if (!timeout) context = args = null]. *)
Definition forget (s : limiter) : limiter :=
  match timeout s with None => set_saved None s | Some _ => s end.

Inductive outcome := Returns (s : limiter) | Throws (s : limiter).
Definition state_of (o : outcome) : limiter := match o with Returns s | Throws s => s end.

(** The statements after a call that may throw. *)
Definition then_do (o : option outcome) (f : limiter → limiter) : option outcome :=
  match o with Some (Returns s) => Some (Returns (f s)) | _ => o end.

Variable script : A → list (Z * A) * bool.
Variable value : A → V.

Section func.
Variable wrapper : A → limiter → option outcome.

Fixpoint run_calls (l : list (Z * A)) (s : limiter) : option outcome :=
  match l with
  | [] => Some (Returns s)
  | (d, b) :: l =>
      match wrapper b (advance d s) with
      | Some (Returns s) => run_calls l s
      | o => o
      end
  end.

(** [result = func.apply(context, args)]. *)
Definition apply_func (a : A) (s : limiter) : option outcome :=
  match run_calls (script a).1 (ran a s) with
  | Some (Returns s) =>
      if (script a).2 then Some (Throws s) else Some (Returns (set_result (value a) s))
  | o => o
  end.
End func.

Variable wait : Z.

(** ** [_.throttle] *)

Section throttle.
(** [options.leading !== false] and [options.trailing !== false]. *)
Variables leading trailing : bool.

Fixpoint throttled (fuel : nat) (a : A) (s : limiter) : option outcome :=
  match fuel with
  | 0 => None
  | S fuel =>
      let t := now s in
      let previous := if (mark s =? 0)%Z && negb leading then t else mark s in
      let remaining := (wait - (t - previous))%Z in
      let s := set_mark previous (called a s) in
      if (remaining <=? 0)%Z || (wait <? remaining)%Z then
        then_do (apply_func (throttled fuel) a (set_mark t (set_timeout None s))) forget
      else if bool_decide (timeout s = None) && trailing
      then Some (Returns (set_timeout (Some (t + remaining)%Z) s))
      else Some (Returns s)
  end.

Definition throttle_later (fuel : nat) (s : limiter) : option outcome :=
  let s := set_timeout None (set_mark (if leading then now s else 0) s) in
  match saved s with
  | Some a => then_do (apply_func (throttled fuel) a s) forget
  | None => None    (* never, as [throttle_ok] shows *)
  end.
End throttle.

(** ** [_.debounce] *)

Section debounce.
Variable immediate : bool.

Fixpoint debounced (fuel : nat) (a : A) (s : limiter) : option outcome :=
  match fuel with
  | 0 => None
  | S fuel =>
      let s := set_mark (now s) (called a s) in
      let callNow := immediate && bool_decide (timeout s = None) in
      let s := match timeout s with
               | None => set_timeout (Some (now s + wait)%Z) s
               | Some _ => s
               end in
      if callNow then then_do (apply_func (debounced fuel) a s) (set_saved None)
      else Some (Returns s)
  end.

Definition debounce_later (fuel : nat) (s : limiter) : option outcome :=
  let last := (now s - mark s)%Z in
  if (last <? wait)%Z && (0 <=? last)%Z
  then Some (Returns (set_timeout (Some (now s + (wait - last))%Z) s))
  else
    let s := set_timeout None s in
    if immediate then Some (Returns s)
    else match saved s with
         | Some a => then_do (apply_func (debounced fuel) a s) forget
         | None => None    (* never, as [debounce_ok] shows *)
         end.
End debounce.

(** ** Runs of a wrapper: time passes, someone calls it, its timer fires *)

Section steps.
Variable wrapper : nat → A → limiter → option outcome.
Variable later : nat → limiter → option outcome.

Inductive step (s : limiter) : limiter → Prop :=
| step_tick d : (0 ≤ d)%Z → step s (advance d s)
| step_call fuel a o : wrapper fuel a s = Some o → step s (state_of o)
| step_fire fuel due o :
    timeout s = Some due → (due ≤ now s)%Z → later fuel s = Some o → step s (state_of o).

Variable I : limiter → Prop.
Hypothesis tick_ok : ∀ d s, (0 ≤ d)%Z → I s → I (advance d s).
Hypothesis forward : ∀ a, Forall (λ c, 0 ≤ c.1)%Z (script a).1.

(** What the calls keep, a run of [func] keeps. *)
Lemma run_calls_keeps (w : A → limiter → option outcome) l s o :
  (∀ a s o, w a s = Some o → I s → I (state_of o)) →
  Forall (λ c, 0 ≤ c.1)%Z l → run_calls w l s = Some o → I s → I (state_of o).
Proof.
  intros Hw Hl. revert s. induction Hl as [|[d b] l Hd _ IH]; intros s; simpl.
  - by intros [= <-].
  - simpl in Hd. intros Ho Hs. apply (tick_ok d) in Hs; [|done].
    destruct (w b (advance d s)) as [o'|] eqn:Hb; [|done].
    apply Hw in Hb; [|done]. destruct o'; [by eapply IH|]. by simplify_eq.
Qed.

Hypothesis result_ok : ∀ v s, I s → I (set_result v s).

Lemma apply_func_keeps (w : A → limiter → option outcome) a s o :
  (∀ a s o, w a s = Some o → I s → I (state_of o)) →
  apply_func w a s = Some o → I (ran a s) → I (state_of o).
Proof.
  unfold apply_func. intros Hw Ho Hs.
  destruct (run_calls w (script a).1 (ran a s)) as [o'|] eqn:Hr; [|done].
  pose proof (run_calls_keeps w _ _ _ Hw (forward a) Hr Hs) as H.
  destruct o'; [|by simplify_eq]. destruct (script a).2; simplify_eq; [done|].
  by apply result_ok.
Qed.

Lemma then_do_keeps o f o' :
  (∀ s, I s → I (f s)) → then_do o f = Some o' →
  (∀ o1, o = Some o1 → I (state_of o1)) → I (state_of o').
Proof.
  intros Hf Ho H. destruct o as [[s|s]|]; simpl in *; simplify_eq; simpl.
  - apply Hf. by apply (H (Returns s)).
  - by apply (H (Throws s)).
Qed.
End steps.

(** ** What the throttle keeps *)

(** Each run starts at least [wait] after the one before. *)
Fixpoint spaced (l : list (Z * A)) : Prop :=
  match l with
  | r :: ((r' :: _) as l') => (r'.1 + wait ≤ r.1)%Z ∧ spaced l'
  | _ => True
  end.

(** The last run, if any, is at or before [t]. *)
Definition last_by (t : Z) (l : list (Z * A)) : Prop :=
  match l with [] => True | r :: _ => (r.1 ≤ t)%Z end.

Lemma last_by_mono t t' l : (t ≤ t')%Z → last_by t l → last_by t' l.
Proof. destruct l; simpl; [done|lia]. Qed.

Lemma spaced_cons t a l : last_by (t - wait) l → spaced l → spaced ((t, a) :: l).
Proof. destruct l as [|r l]; simpl; [done|]. intros. split; [lia|done]. Qed.

Section throttle_facts.
Variables leading trailing : bool.
Hypothesis wait_pos : (0 < wait)%Z.
Hypothesis forward : ∀ a, Forall (λ c, 0 ≤ c.1)%Z (script a).1.

(** No run since the mark unless the timer is off and the mark is reset. *)
Definition marked (s : limiter) : Prop :=
  runs s = [] ∨ (mark s ≠ 0%Z ∧ last_by (mark s) (runs s)) ∨
  (leading = false ∧ mark s = 0%Z).

(** The latest call has been run, or the timer will run it. *)
Definition served (s : limiter) : Prop :=
  match calls s with
  | [] => True
  | (t, a) :: _ =>
      (∃ T l, runs s = (T, a) :: l ∧ (t ≤ T)%Z) ∨
      (∃ due, timeout s = Some due ∧ saved s = Some a ∧ (due ≤ t + wait)%Z)
  end.

Record throttle_ok (s : limiter) : Prop := {
  ok_clock : (wait ≤ now s)%Z;
  ok_mark : (0 ≤ mark s ≤ now s)%Z;
  ok_runs : last_by (now s) (runs s);
  ok_spaced : spaced (runs s);
  ok_marked : marked s;
  ok_timer : ∀ due, timeout s = Some due →
    mark s ≠ 0%Z ∧ due = (mark s + wait)%Z ∧
    ∃ t a l, calls s = (t, a) :: l ∧ saved s = Some a;
  ok_calls : last_by (now s) (calls s);
  ok_served : trailing = true → served s }.

Lemma throttle_fresh t : (wait ≤ t)%Z → throttle_ok (fresh t).
Proof. intros Ht. split; simpl; try done; try lia. by left. Qed.

Lemma throttle_advance d s : (0 ≤ d)%Z → throttle_ok s → throttle_ok (advance d s).
Proof.
  intros Hd []. split; simpl; try done; try lia.
  - eapply last_by_mono; [|done]. lia.
  - eapply last_by_mono; [|done]. lia.
Qed.

Lemma throttle_result v s : throttle_ok s → throttle_ok (set_result v s).
Proof. intros []. split; done. Qed.

Lemma throttle_forget s : throttle_ok s → throttle_ok (forget s).
Proof.
  intros [H1 H2 H3 H4 H5 H6 H7 H8]. unfold forget. destruct (timeout s) as [due|] eqn:Ht; [by constructor; rewrite ?Ht|].
  split; simpl; try done; [by rewrite Ht|]. intros Htr. specialize (H8 Htr). unfold served in *.
  simpl. destruct (calls s) as [|[t a] l]; [done|]. destruct H8 as [H8|(due&Hd&_)]; [by left|].
  congruence.
Qed.

(** A run at a time the code allows. *)
Lemma throttle_ran a t l m s :
  throttle_ok s → calls s = (t, a) :: l → last_by (now s - wait) (runs s) →
  (m = now s ∨ leading = false ∧ m = 0%Z) →
  throttle_ok (ran a (set_mark m (set_timeout None s))).
Proof.
  intros [H1 H2 H3 H4 H5 H6 H7 H8] Hc Hl Hm.
  assert (0 ≤ m ≤ now s)%Z by (destruct Hm as [|[]]; lia).
  split; simpl; try done; try lia; [by apply (spaced_cons (now s) a (runs s))|..].
  - unfold marked; simpl. right. destruct Hm as [->|[-> ->]]; [left|by right]. simpl. lia.
  - unfold served; simpl. intros _. rewrite Hc. left. rewrite Hc in H7. simpl in H7. eauto.
Qed.

Lemma throttled_keeps fuel a s o :
  throttled leading trailing fuel a s = Some o → throttle_ok s → throttle_ok (state_of o).
Proof.
  revert a s o. induction fuel as [|fuel IH]; intros a s o; [done|]. cbn [throttled].
  intros Ho Hs. pose proof Hs as [H1 H2 H3 H4 H5 H6 H7 H8].
  set (previous := if (mark s =? 0)%Z && negb leading then now s else mark s) in *.
  assert (Hp : (0 ≤ previous ≤ now s)%Z) by
    (subst previous; destruct ((mark s =? 0)%Z && negb leading); lia).
  destruct (_ || _) eqn:Hrem.
  - (* the window is over: run now *)
    assert (Hw : (previous + wait ≤ now s)%Z).
    { apply orb_true_iff in Hrem as [Hrem|Hrem]; apply Z.leb_le in Hrem || apply Z.ltb_lt in Hrem; lia. }
    assert (Hprev : previous = mark s).
    { subst previous. case_match eqn:Hc; [lia|done]. }
    eapply (then_do_keeps throttle_ok); [apply throttle_forget|exact Ho|].
    intros o1 Ho1.
    apply (apply_func_keeps throttle_ok throttle_advance forward throttle_result _ _ _ _ IH Ho1).
    change (throttle_ok (ran a (set_mark (now s) (set_timeout None
      (set_mark previous (called a s)))))).
    assert (Hl : last_by (now s - wait) (runs s)).
    { destruct H5 as [->|[[_ H5]|[-> H5]]]; [done| |].
      - eapply last_by_mono; [|done]. lia.
      - subst previous. rewrite H5 in Hw, Hprev. simpl in Hprev. lia. }
    split; simpl; try done; try lia.
    + by apply (spaced_cons (now s) a (runs s)).
    + right; left. simpl. lia.
    + intros _. left. simpl. exists (now s), (runs s). split; [done|lia].
  - (* inside the window *)
    apply orb_false_iff in Hrem as [Hr1 Hr2]. bool_clean.
    assert (Hm : runs s = [] ∨ previous ≠ 0%Z ∧ last_by previous (runs s)).
    { destruct H5 as [?|[[Hm0 H5]|[Hl Hm0]]]; [by left| |].
      - right. subst previous. case_match eqn:Hc; [bool_clean; lia|done].
      - right. subst previous. rewrite Hl, Hm0. simpl. split; [lia|done]. }
    assert (Hpt : ∀ due, timeout s = Some due → previous = mark s).
    { intros due Hdue. destruct (H6 due Hdue) as [? _]. subst previous.
      case_match eqn:Hc; [bool_clean; lia|done]. }
    assert (Hp0 : previous ≠ 0%Z).
    { subst previous. case_match eqn:Hc; [lia|]. intros H0. rewrite H0 in Hr1. lia. }
    assert (Hm' : last_by previous (runs s)) by (destruct Hm as [->|[_ ?]]; done).
    case_match eqn:Htimer; simplify_eq; simpl.
    + bool_clean. split; simpl; try done; try lia.
      * right; left. split; [done|exact Hm'].
      * intros due [= <-]. split; [done|]. split; [lia|eauto].
      * intros _. right. simpl. eexists. split_and!; [done..|lia].
    + split; simpl; try done; try lia.
      * right; left. split; [done|exact Hm'].
      * intros due Hdue. rewrite (Hpt due Hdue). destruct (H6 due Hdue) as (?&?&_).
        split; [done|]. split; [done|eauto].
      * intros Htr. right. simpl in *. destruct (timeout s) as [due|] eqn:Hdue.
        -- exists due. destruct (H6 due eq_refl) as (?&->&_). split_and!; [done..|lia].
        -- by rewrite Htr in Htimer.
Qed.

Lemma throttle_later_keeps fuel due s o :
  timeout s = Some due → (due ≤ now s)%Z → throttle_later leading trailing fuel s = Some o →
  throttle_ok s → throttle_ok (state_of o).
Proof.
  intros Hdue Hnow Ho Hs. pose proof Hs as [H1 H2 H3 H4 H5 H6 H7 H8].
  destruct (H6 due Hdue) as (Hm0&->&t&a&l&Hc&Hsaved).
  unfold throttle_later in Ho. simpl in Ho. rewrite Hsaved in Ho.
  eapply (then_do_keeps throttle_ok); [apply throttle_forget|exact Ho|].
  intros o1 Ho1.
  apply (apply_func_keeps throttle_ok throttle_advance forward throttle_result _ _ _ _
    (throttled_keeps fuel) Ho1).
  assert (Hl : last_by (now s - wait) (runs s)).
  { destruct H5 as [->|[[_ H5]|[_ ?]]]; [done| |done]. eapply last_by_mono; [|done]. lia. }
  pose proof (throttle_ran a t l (if leading then now s else 0) s Hs Hc Hl) as H.
  apply H. destruct leading; auto.
Qed.

Lemma throttle_steps s s' :
  rtc (step (throttled leading trailing) (throttle_later leading trailing)) s s' →
  throttle_ok s → throttle_ok s'.
Proof.
  induction 1 as [s|s s1 s2 Hs _ IH]; [done|]. intros Hok. apply IH. destruct Hs.
  - by apply throttle_advance.
  - by eapply throttled_keeps.
  - by eapply throttle_later_keeps.
Qed.

(** A run that started is never forgotten. *)
Lemma throttled_grows r fuel a s o :
  throttled leading trailing fuel a s = Some o → r ∈ runs s → r ∈ runs (state_of o).
Proof.
  revert a s o. induction fuel as [|fuel IH]; intros a s o; [done|]. cbn [throttled].
  destruct (_ || _); [|by case_match; intros [= <-]]. intros Ho Hs.
  eapply (then_do_keeps (λ s, r ∈ runs s)); [|exact Ho|].
  { intros s1 Hs1. unfold forget. destruct (timeout s1); exact Hs1. }
  intros o1 Ho1.
  refine (apply_func_keeps (λ s, r ∈ runs s) _ forward _ _ _ _ _ _ Ho1 _);
    [done|done|exact IH|by right].
Qed.

Lemma apply_func_runs fuel a s o :
  apply_func (throttled leading trailing fuel) a s = Some o → (now s, a) ∈ runs (state_of o).
Proof.
  intros Ho.
  refine (apply_func_keeps (λ s', (now s, a) ∈ runs s') _ forward _ _ _ _ _ _ Ho _);
    [done|done|apply throttled_grows|by left].
Qed.

Lemma throttle_pending s t a l :
  throttle_ok s → trailing = true → calls s = (t, a) :: l →
  (∃ T l', runs s = (T, a) :: l' ∧ (t ≤ T)%Z) ∨
  (∃ due, timeout s = Some due ∧ (due ≤ t + wait)%Z ∧
     ∀ d fuel o, throttle_later leading trailing fuel (advance d s) = Some o →
       (now s + d, a)%Z ∈ runs (state_of o)).
Proof.
  intros Hok Htr Hc. pose proof (ok_served _ Hok Htr) as Hs. unfold served in Hs.
  rewrite Hc in Hs. destruct Hs as [Hs|(due&Hdue&Hsv&Hle)]; [by left|right].
  exists due. split_and!; [done..|]. intros d fuel o Ho. unfold throttle_later in Ho.
  simpl in Ho. rewrite Hsv in Ho.
  eapply (then_do_keeps (λ s', (now s + d, a)%Z ∈ runs s')); [|exact Ho|].
  { intros s1 Hs1. unfold forget. destruct (timeout s1); exact Hs1. }
  intros o1 Ho1. by apply apply_func_runs in Ho1.
Qed.

(** *** Depth: a [func] whose own calls all fall into the window needs two levels *)

Definition total (l : list (Z * A)) : Z := foldr (λ c n, (c.1 + n)%Z) 0%Z l.

(** No run within the next [r] milliseconds. *)
Definition closed_for (r : Z) (s : limiter) : Prop :=
  (0 < now s)%Z ∧ (mark s ≤ now s)%Z ∧ (0 ≤ r < wait)%Z ∧
  ((mark s ≠ 0 ∧ now s + r < mark s + wait)%Z ∨ (leading = false ∧ mark s = 0%Z)).

Lemma closed_call r a fuel s :
  closed_for r s → ∃ s', throttled leading trailing (S fuel) a s = Some (Returns s') ∧
                         closed_for r s'.
Proof.
  intros (Hn&Hm&Hr&Hc). cbn [throttled].
  set (previous := if (mark s =? 0)%Z && negb leading then now s else mark s).
  assert (Hp : (previous ≤ now s)%Z ∧ previous ≠ 0%Z ∧ (now s + r < previous + wait)%Z).
  { subst previous. destruct Hc as [[H0 Hc]|[-> ->]]; [|simpl; lia].
    destruct (Z.eqb_spec (mark s) 0); simpl; lia. }
  destruct (Z.leb_spec (wait - (now s - previous)) 0); [lia|].
  destruct (Z.ltb_spec wait (wait - (now s - previous))); [lia|]. cbn [orb].
  case_match; eexists; (split; [done|]); unfold closed_for; simpl; lia.
Qed.

Lemma closed_run_calls r l fuel s :
  Forall (λ c, 0 ≤ c.1)%Z l → (total l ≤ r)%Z → closed_for r s →
  ∃ s', run_calls (throttled leading trailing (S fuel)) l s = Some (Returns s').
Proof.
  intros Hl. revert r s. induction Hl as [|[d b] l Hd Hl IH]; intros r s Ht Hs; [by eexists|].
  simpl in Hd, Ht. cbn [run_calls].
  assert (H0 : (0 ≤ total l)%Z).
  { clear -Hl. induction Hl as [|c l Hc _ IH]; simpl; lia. }
  destruct (closed_call (r - d) b fuel (advance d s)) as (s1&->&Hs1).
  { destruct Hs as (?&?&?&Hc). unfold closed_for; simpl. split_and!; try lia.
    destruct Hc as [?|?]; [left; lia|by right]. }
  eapply (IH (r - d)%Z); [lia|done].
Qed.

Hypothesis short : ∀ a, (total (script a).1 < wait)%Z.

Lemma apply_func_total fuel a s :
  (0 < now s)%Z → (mark s = now s ∨ leading = false ∧ mark s = 0%Z) →
  is_Some (apply_func (throttled leading trailing (S fuel)) a s).
Proof.
  intros Hn Hm. unfold apply_func.
  assert (0 ≤ total (script a).1)%Z.
  { induction (forward a); simpl; lia. }
  destruct (closed_run_calls (total (script a).1) (script a).1 fuel (ran a s))
    as [s' ->]; [done|done| |by case_match].
  pose proof (short a). unfold closed_for; simpl. split_and!; try lia.
  destruct Hm as [->|?]; [left; lia|by right].
Qed.

Lemma then_do_total o f : is_Some o → is_Some (then_do o f).
Proof. intros [[s|s] ->]; by eexists. Qed.

Lemma throttled_total fuel a s :
  (0 < now s)%Z → is_Some (throttled leading trailing (S (S fuel)) a s).
Proof.
  intros Hs. remember (S fuel) as n eqn:Hfuel. cbn [throttled].
  destruct (_ || _); [|destruct (_ && trailing); by eexists].
  apply then_do_total. subst n. apply apply_func_total; [done|by left].
Qed.

Lemma throttle_later_total fuel due s :
  throttle_ok s → timeout s = Some due →
  is_Some (throttle_later leading trailing (S fuel) s).
Proof.
  intros Hs Hdue. destruct (ok_timer _ Hs due Hdue) as (_&_&t&a&l&_&Hsv).
  unfold throttle_later. simpl. rewrite Hsv. apply then_do_total, apply_func_total; simpl.
  - pose proof (ok_clock _ Hs). lia.
  - destruct leading; auto.
Qed.
End throttle_facts.

(** ** What the debounce keeps *)

Section debounce_facts.
Variable immediate : bool.
Hypothesis forward : ∀ a, Forall (λ c, 0 ≤ c.1)%Z (script a).1.
Abbreviation deb := (debounced immediate).
Abbreviation deb_later := (debounce_later immediate).

(** A run at [T] follows [wait] milliseconds without a call, and is for the
    latest of the calls before. *)
Definition quiet (l : list (Z * A)) (r : Z * A) : Prop :=
  Forall (λ c, c.1 ≤ r.1 - wait ∨ r.1 ≤ c.1)%Z l ∧
  ∃ t, (t, r.2) ∈ l ∧ (t ≤ r.1)%Z ∧ Forall (λ c, c.1 ≤ t ∨ r.1 ≤ c.1)%Z l.

Record debounce_ok (s : limiter) : Prop := {
  d_mark : (mark s ≤ now s)%Z;
  d_calls : Forall (λ c, c.1 ≤ mark s)%Z (calls s);
  d_head : ∀ t a l, calls s = (t, a) :: l → mark s = t;
  d_runs : Forall (λ r, r.1 ≤ now s)%Z (runs s);
  d_timer : ∀ due, timeout s = Some due →
    (due ≤ mark s + wait)%Z ∧ ∃ t a l, calls s = (t, a) :: l ∧
      (immediate = false → saved s = Some a);
  d_idle : timeout s = None → calls s = [] ∨ (mark s + wait ≤ now s)%Z;
  d_quiet : Forall (quiet (calls s)) (runs s);
  d_served : timeout s = None → immediate = false →
    match calls s with [] => True | (t, a) :: _ => ∃ T, (T, a) ∈ runs s ∧ (t ≤ T)%Z end }.

Lemma debounce_fresh t : (0 ≤ t)%Z → debounce_ok (fresh t).
Proof. intros Ht. split; simpl; try done; try constructor; done. Qed.

Lemma debounce_advance d s : (0 ≤ d)%Z → debounce_ok s → debounce_ok (advance d s).
Proof.
  intros Hd []. split; simpl; try done; try lia.
  - eapply Forall_impl; [exact d_runs0|]. simpl. lia.
  - intros Ht. destruct (d_idle0 Ht); [by left|right; lia].
Qed.

Lemma debounce_result v s : debounce_ok s → debounce_ok (set_result v s).
Proof. intros []. split; done. Qed.

Lemma debounce_forget s : debounce_ok s → debounce_ok (forget s).
Proof.
  intros []. unfold forget. destruct (timeout s) as [due|] eqn:Ht;
    [by constructor; rewrite ?Ht|].
  split; simpl; try done; by rewrite Ht.
Qed.

Lemma debounce_unsaved s : immediate = true → debounce_ok s → debounce_ok (set_saved None s).
Proof.
  intros Hi []. split; simpl; try done. intros due Hdue.
  destruct (d_timer0 due Hdue) as (?&t&a&l&?&_). split; [done|].
  exists t, a, l. split; [done|]. by rewrite Hi.
Qed.

(** A call at the present keeps the runs quiet. *)
Lemma quiet_call t a l r : (r.1 ≤ t)%Z → quiet l r → quiet ((t, a) :: l) r.
Proof.
  intros Ht (Hq&u&Hu&Hut&Hl). split; [by constructor; [right|]|].
  exists u. split; [by right|]. split; [done|]. by constructor; [right|].
Qed.

(** The variables after a call, before [func] may run. *)
Definition noted (a : A) (s : limiter) : limiter :=
  let s := set_mark (now s) (called a s) in
  match timeout s with
  | None => set_timeout (Some (now s + wait)%Z) s
  | Some _ => s
  end.

Lemma noted_ok a s : debounce_ok s → debounce_ok (noted a s).
Proof.
  intros []. pose proof (conj d_runs0 d_quiet0) as Hrq%Forall_and.
  unfold noted. simpl. destruct (timeout s) as [due|] eqn:Ht; split; simpl;
    try done; try lia; try (rewrite Ht; done).
  - constructor; [simpl; lia|]. eapply Forall_impl; [exact d_calls0|]. simpl. lia.
  - by intros ??? [= <- _ _].
  - intros due'. rewrite Ht. intros [= <-]. destruct (d_timer0 due eq_refl) as [Hdue _].
    split; [lia|eauto 10].
  - apply (Forall_impl _ _ _ Hrq).
    intros r [? ?]. by apply quiet_call.
  - constructor; [simpl; lia|]. eapply Forall_impl; [exact d_calls0|]. simpl. lia.
  - by intros ??? [= <- _ _].
  - intros due [= <-]. split; [lia|eauto 10].
  - apply (Forall_impl _ _ _ Hrq).
    intros r [? ?]. by apply quiet_call.
Qed.

Lemma noted_timer a s : timeout (noted a s) ≠ None.
Proof. unfold noted. simpl. by destruct (timeout s) eqn:H; simpl; rewrite ?H. Qed.

Lemma debounced_eq fuel a s :
  deb (S fuel) a s =
    if immediate && bool_decide (timeout s = None)
    then then_do (apply_func (deb fuel) a (noted a s)) (set_saved None)
    else Some (Returns (noted a s)).
Proof. done. Qed.

Lemma debounced_keeps fuel a s o :
  deb fuel a s = Some o → debounce_ok s → debounce_ok (state_of o).
Proof.
  revert a s o. induction fuel as [|fuel IH]; intros a s o; [done|]. rewrite debounced_eq.
  intros Ho Hs. pose proof (noted_ok a s Hs) as Hn.
  destruct (immediate && _) eqn:Hnow; [|by simplify_eq]. bool_clean.
  eapply (then_do_keeps debounce_ok); [|exact Ho|].
  { intros s1. by apply debounce_unsaved. }
  intros o1 Ho1.
  apply (apply_func_keeps debounce_ok debounce_advance forward debounce_result _ _ _ _ IH Ho1).
  assert (Hr : quiet (calls (noted a s)) (now s, a)).
  { unfold noted. simpl. rewrite H0. simpl. split; simpl.
    - constructor; [right; simpl; lia|].
      destruct (d_idle _ Hs H0) as [-> |Hw]; [constructor|].
      eapply Forall_impl; [exact (d_calls _ Hs)|]. simpl. lia.
    - exists (now s). split; [by left|]. split; [lia|]. constructor; [left; simpl; lia|].
      eapply Forall_impl; [exact (d_calls _ Hs)|]. pose proof (d_mark _ Hs). simpl. lia. }
  assert (Hnow' : now (noted a s) = now s) by (unfold noted; simpl; by destruct (timeout s)).
  destruct Hn. split; simpl; try done.
  - constructor; [simpl; lia|done].
  - constructor; [by rewrite Hnow'|done].
  - intros Ht. by destruct (noted_timer a s).
Qed.

Lemma debounce_later_keeps fuel due s o :
  timeout s = Some due → deb_later fuel s = Some o →
  debounce_ok s → debounce_ok (state_of o).
Proof.
  intros Hdue Ho Hs. pose proof Hs as [H1 H2 H3 H4 H5 H6 H7 H8].
  destruct (H5 due Hdue) as (Hd&t&a&l&Hc&Hsv). unfold debounce_later in Ho.
  destruct (_ && _) eqn:Hlast.
  { simplify_eq. bool_clean. split; simpl; try done. intros due' [= <-]. split; [lia|].
    eauto 10. }
  assert (Hw : (mark s + wait ≤ now s)%Z).
  { apply andb_false_iff in Hlast as [?|?]; bool_clean; lia. }
  destruct immediate eqn:Hi.
  { simplify_eq. split; simpl; try done. all: intros; try congruence. by right. }
  simpl in Ho. rewrite Hsv in Ho by done. rewrite <-Hi in Ho.
  eapply (then_do_keeps debounce_ok); [apply debounce_forget|exact Ho|].
  intros o1 Ho1.
  apply (apply_func_keeps debounce_ok debounce_advance forward debounce_result _ _ _ _
    (debounced_keeps fuel) Ho1).
  split; simpl; try done.
  - constructor; [simpl; lia|done].
  - by right.
  - constructor; [|done]. pose proof (H3 t a l Hc) as Hm. split; simpl.
    + eapply Forall_impl; [exact H2|]. simpl. lia.
    + exists (mark s). split; [rewrite Hc, Hm; by left|]. split; [lia|].
      eapply Forall_impl; [exact H2|]. simpl. lia.
  - intros _ _. rewrite Hc. exists (now s). split; [by left|].
    pose proof (H3 t a l Hc). lia.
Qed.

Lemma debounce_steps s s' :
  rtc (step deb deb_later) s s' → debounce_ok s → debounce_ok s'.
Proof.
  induction 1 as [s|s s1 s2 Hs _ IH]; [done|]. intros Hok. apply IH. destruct Hs.
  - by apply debounce_advance.
  - by eapply debounced_keeps.
  - by eapply debounce_later_keeps.
Qed.

Lemma debounced_grows r fuel a s o :
  deb fuel a s = Some o → r ∈ runs s → r ∈ runs (state_of o).
Proof.
  revert a s o. induction fuel as [|fuel IH]; intros a s o; [done|]. rewrite debounced_eq.
  assert (Hn : runs (noted a s) = runs s) by (unfold noted; simpl; by destruct (timeout s)).
  destruct (immediate && _); [|intros [= <-]; simpl; by rewrite Hn]. intros Ho Hs.
  eapply (then_do_keeps (λ s, r ∈ runs s)); [|exact Ho|].
  { intros s1 Hs1. exact Hs1. }
  intros o1 Ho1.
  refine (apply_func_keeps (λ s, r ∈ runs s) _ forward _ _ _ _ _ _ Ho1 _);
    [done|done|exact IH|]. simpl. rewrite Hn. by right.
Qed.

(** The timer runs the latest call, or waits until its time is over. *)
Lemma debounce_pending s t a l :
  debounce_ok s → immediate = false → calls s = (t, a) :: l →
  (∃ T, (T, a) ∈ runs s ∧ (t ≤ T)%Z) ∨
  (∃ due, timeout s = Some due ∧ (due ≤ t + wait)%Z ∧
     ∀ d fuel o, (0 ≤ d)%Z → deb_later fuel (advance d s) = Some o →
       if (t + wait <=? now s + d)%Z then (now s + d, a)%Z ∈ runs (state_of o)
       else timeout (state_of o) = Some (t + wait)%Z ∧ runs (state_of o) = runs s).
Proof.
  intros Hok Hi Hc. pose proof (d_head _ Hok _ _ _ Hc) as Hm.
  destruct (timeout s) as [due|] eqn:Hdue.
  - right. exists due. destruct (d_timer _ Hok due Hdue) as (Hd&t'&a'&l'&Hc'&Hsv).
    rewrite Hc in Hc'. simplify_eq. split_and!; [done|lia|].
    intros d fuel o Hd0 Ho. unfold debounce_later in Ho. simpl in Ho.
    pose proof (d_mark _ Hok).
    destruct (Z.leb_spec (mark s + wait) (now s + d)) as [Hle|Hgt].
    + destruct (Z.ltb_spec (now s + d - mark s) wait); [lia|]. cbn [andb] in Ho.
      rewrite Hi, Hsv in Ho by done.
      eapply (then_do_keeps (λ s', (now s + d, a')%Z ∈ runs s')); [|exact Ho|].
      { intros s1 Hs1. unfold forget. destruct (timeout s1); exact Hs1. }
      intros o1 Ho1.
      refine (apply_func_keeps (λ s', (now s + d, a')%Z ∈ runs s') _ forward _ _ _ _ _ _ Ho1 _);
        [done|done|rewrite <-Hi; apply debounced_grows|by left].
    + destruct (Z.ltb_spec (now s + d - mark s) wait); [|lia].
      destruct (Z.leb_spec 0 (now s + d - mark s)); [|lia]. simplify_eq/=.
      split; [f_equal; lia|done].
  - left. pose proof (d_served _ Hok Hdue Hi) as H. by rewrite Hc in H.
Qed.

(** *** Depth: two levels are always enough *)

Lemma timer_set_keeps fuel a s :
  timeout s ≠ None ∨ immediate = false →
  ∃ s', deb (S fuel) a s = Some (Returns s') ∧ timeout s' ≠ None.
Proof.
  intros Ht. rewrite debounced_eq.
  assert (immediate && bool_decide (timeout s = None) = false) as ->.
  { destruct Ht as [Ht| ->]; [|done]. rewrite (bool_decide_eq_false_2 _ Ht).
    by destruct immediate. }
  eexists. split; [done|]. apply noted_timer.
Qed.

Lemma debounced_run_calls l fuel s :
  timeout s ≠ None ∨ immediate = false →
  ∃ s', run_calls (deb (S fuel)) l s = Some (Returns s').
Proof.
  revert s. induction l as [|[d b] l IH]; intros s Ht; [by eexists|].
  cbn [run_calls].
  destruct (timer_set_keeps fuel b (advance d s)) as (s1&->&H1); [by destruct Ht; [left|right]|].
  apply IH. by left.
Qed.

Lemma debounced_apply fuel a s :
  timeout s ≠ None ∨ immediate = false → is_Some (apply_func (deb (S fuel)) a s).
Proof.
  intros Ht. unfold apply_func.
  destruct (debounced_run_calls (script a).1 fuel (ran a s) Ht) as [s' ->]. by case_match.
Qed.

Lemma debounced_total fuel a s : is_Some (deb (S (S fuel)) a s).
Proof.
  rewrite debounced_eq. destruct (immediate && _); [|by eexists].
  apply then_do_total, debounced_apply. left. apply noted_timer.
Qed.

Lemma debounce_later_total fuel due s :
  debounce_ok s → timeout s = Some due → is_Some (deb_later (S fuel) s).
Proof.
  intros Hs Hdue. unfold debounce_later. destruct (_ && _); [by eexists|].
  destruct immediate eqn:Hi; [by eexists|].
  destruct (d_timer _ Hs due Hdue) as (_&t&a&l&_&Hsv).
  change (saved (set_timeout None s)) with (saved s). rewrite Hsv by done. rewrite <-Hi.
  apply then_do_total, debounced_apply. by right.
Qed.
End debounce_facts.

(** ** Properties *)

(** C36: a throttled function, whatever it does and whoever calls it, starts
    at most once in any [wait] milliseconds; and unless the trailing edge is
    off, the latest call has been run, or a timer due within [wait] of that
    call runs it whenever it fires. *)
Theorem throttle_spec leading trailing t s :
  (0 < wait ≤ t)%Z → (∀ a, Forall (λ c, 0 ≤ c.1)%Z (script a).1) →
  rtc (step (throttled leading trailing) (throttle_later leading trailing)) (fresh t) s →
  spaced (runs s) ∧
  (trailing = true → ∀ u a l, calls s = (u, a) :: l →
   (∃ T l', runs s = (T, a) :: l' ∧ (u ≤ T)%Z) ∨
   (∃ due, timeout s = Some due ∧ (due ≤ u + wait)%Z ∧
     ∀ d fuel o, throttle_later leading trailing fuel (advance d s) = Some o →
       (now s + d, a)%Z ∈ runs (state_of o))).
Proof.
  intros [Hw Ht] Hf Hs.
  pose proof (throttle_steps leading trailing Hw Hf _ _ Hs
    (throttle_fresh leading trailing Hw t Ht)) as Hok.
  split; [apply (ok_spaced _ _ _ Hok)|]. intros Htr u a l Hc.
  by apply (throttle_pending leading trailing Hf s u a l).
Qed.

(** C37: a debounced function runs only when [wait] milliseconds have passed
    without a call (apart from the call that triggers it, with [immediate]),
    and with the arguments of the latest call; without [immediate] the latest
    call has been run, or the timer is on, and when it fires it runs that call
    if its [wait] milliseconds are over and else is set to the time they are. *)
Theorem debounce_spec immediate t s :
  (0 ≤ t)%Z → (∀ a, Forall (λ c, 0 ≤ c.1)%Z (script a).1) →
  rtc (step (debounced immediate) (debounce_later immediate)) (fresh t) s →
  Forall (quiet (calls s)) (runs s) ∧
  (immediate = false → ∀ u a l, calls s = (u, a) :: l →
   (∃ T, (T, a) ∈ runs s ∧ (u ≤ T)%Z) ∨
   (∃ due, timeout s = Some due ∧ (due ≤ u + wait)%Z ∧
     ∀ d fuel o, (0 ≤ d)%Z → debounce_later immediate fuel (advance d s) = Some o →
       if (u + wait <=? now s + d)%Z then (now s + d, a)%Z ∈ runs (state_of o)
       else timeout (state_of o) = Some (u + wait)%Z ∧ runs (state_of o) = runs s)).
Proof.
  intros Ht Hf Hs.
  pose proof (debounce_steps immediate Hf _ _ Hs (debounce_fresh immediate t Ht)) as Hok.
  split; [apply (d_quiet _ _ Hok)|]. intros Hi u a l Hc.
  by apply (debounce_pending immediate Hf s u a l).
Qed.
End timing.
Arguments limiter : clear implicits.
Arguments outcome : clear implicits.

(** ** Witnesses *)

(** The function does nothing, but for the argument 7 it calls itself with 8
    five milliseconds later. *)
Definition sample_script (a : nat) : list (Z * nat) * bool :=
  (if Nat.eqb a 7 then [(5%Z, 8%nat)] else [], false).

Lemma sample_forward a : Forall (λ c, 0 ≤ c.1)%Z (sample_script a).1.
Proof. unfold sample_script. by case_match; repeat constructor. Defined.

Lemma reach_eq {A} (R : relation A) x y : x = y → rtc R x y.
Proof. intros ->. apply rtc_refl. Defined.

Abbreviation sample_throttled := (throttled sample_script (λ a : nat, a) 100 true true).
Abbreviation sample_debounced := (debounced sample_script (λ a : nat, a) 100 false).

Definition throttle_run : limiter nat nat :=
  match sample_throttled 3 7 (fresh 1000) with
  | Some o => match sample_throttled 3 9 (advance 20 (state_of o)) with
              | Some o => state_of o | None => fresh 0 end
  | None => fresh 0
  end.

Lemma throttle_spec_witness :
  runs throttle_run = [(1000%Z, 7)] ∧ timeout throttle_run = Some 1100%Z ∧
  spaced 100 (runs throttle_run) ∧
  (true = true → ∀ u a l, calls throttle_run = (u, a) :: l →
   (∃ T l', runs throttle_run = (T, a) :: l' ∧ (u ≤ T)%Z) ∨
   (∃ due, timeout throttle_run = Some due ∧ (due ≤ u + 100)%Z ∧
     ∀ d fuel o, throttle_later sample_script (λ a : nat, a) 100 true true fuel
         (advance d throttle_run) = Some o →
       (now throttle_run + d, a)%Z ∈ runs (state_of o))).
Proof.
  split; [vm_compute; reflexivity|]. split; [vm_compute; reflexivity|].
  apply (throttle_spec sample_script (λ a : nat, a) 100 true true 1000 throttle_run);
    [lia|exact sample_forward|].
  eapply rtc_l; [eapply (step_call _ _ _ 3%nat 7%nat); vm_compute; reflexivity|].
  eapply rtc_l; [by apply (step_tick _ _ _ 20%Z)|].
  eapply rtc_l; [eapply (step_call _ _ _ 3%nat 9%nat); vm_compute; reflexivity|].
  by apply reach_eq.
Defined.

Definition debounce_run : limiter nat nat :=
  match sample_debounced 3 7 (fresh 1000) with
  | Some o => match debounce_later sample_script (λ a : nat, a) 100 false 3
                      (advance 120 (state_of o)) with
              | Some o => state_of o | None => fresh 0 end
  | None => fresh 0
  end.

Lemma debounce_spec_witness :
  runs debounce_run = [(1120%Z, 7)] ∧ timeout debounce_run = Some 1225%Z ∧
  Forall (quiet 100 (calls debounce_run)) (runs debounce_run) ∧
  (false = false → ∀ u a l, calls debounce_run = (u, a) :: l →
   (∃ T, (T, a) ∈ runs debounce_run ∧ (u ≤ T)%Z) ∨
   (∃ due, timeout debounce_run = Some due ∧ (due ≤ u + 100)%Z ∧
     ∀ d fuel o, (0 ≤ d)%Z →
       debounce_later sample_script (λ a : nat, a) 100 false fuel (advance d debounce_run)
         = Some o →
       if (u + 100 <=? now debounce_run + d)%Z
       then (now debounce_run + d, a)%Z ∈ runs (state_of o)
       else timeout (state_of o) = Some (u + 100)%Z ∧
            runs (state_of o) = runs debounce_run)).
Proof.
  split; [vm_compute; reflexivity|]. split; [vm_compute; reflexivity|].
  apply (debounce_spec sample_script (λ a : nat, a) 100 false 1000 debounce_run);
    [lia|exact sample_forward|].
  eapply rtc_l; [eapply (step_call _ _ _ 3%nat 7%nat); vm_compute; reflexivity|].
  eapply rtc_l; [by apply (step_tick _ _ _ 120%Z)|].
  eapply rtc_l; [eapply (step_fire _ _ _ 3%nat 1100%Z);
    [reflexivity|cbn; lia|vm_compute; reflexivity]|].
  by apply reach_eq.
Defined.
