(* ===== verification/GoLang.v ===== *)
(** * The Go language and standard library, as the Go packages use them

    Strings are sequences of bytes ([string]); an [error] is its message, a
    nil error is [None], and a [(value, error)] pair is a sum.  Machine
    integers are [Z] with [wrap64] where the code can overflow.  The section
    on base64 is [encoding/base64.StdEncoding]. *)

From S2P Require Import Prelude.
From Stdlib Require Export Ascii.
From Stdlib Require String.

#[global] Open Scope string_scope.
#[global] Open Scope list_scope.
#[global] Open Scope nat_scope.

Abbreviation error := string.

(** [(value, error)]: exactly one of the two is meaningful. *)
Abbreviation result A := (A + error)%type.


(** ** Byte strings *)

(** [s[:n]] and [s[n:]] for [n <= len(s)]. *)
Fixpoint take_str (n : nat) (s : string) : string :=
  match n, s with
  | S n, String a s => String a (take_str n s)
  | _, _ => EmptyString
  end.
Fixpoint drop_str (n : nat) (s : string) : string :=
  match n, s with
  | S n, String _ s => drop_str n s
  | _, _ => s
  end.

(** [s[len(s)-1]]. *)
Definition last_byte (s : string) : option ascii := last (String.list_ascii_of_string s).
Definition first_byte (s : string) : option ascii := head (String.list_ascii_of_string s).

(** [strings.ToLower] and [strings.ToUpper].  ASCII letters change case, and
    so do the four other characters whose image is an ASCII letter: the Kelvin
    sign U+212A and the dotted I U+0130 in lower case, the dotless i U+0131 and
    the long s U+017F in upper case.  The bytes of other characters are kept:
    their image is no ASCII text, and ASCII texts are all that the code
    compares the results with. *)
Definition lower_byte (a : ascii) : ascii :=
  let n := N_of_ascii a in
  if ((65 <=? n) && (n <=? 90))%N then ascii_of_N (n + 32) else a.
Definition upper_byte (a : ascii) : ascii :=
  let n := N_of_ascii a in
  if ((97 <=? n) && (n <=? 122))%N then ascii_of_N (n - 32) else a.
Definition lower_two (a b : ascii) : option ascii :=
  if bool_decide (a = "196"%char ∧ b = "176"%char) then Some "i"%char else None.
Definition lower_three (a b c : ascii) : option ascii :=
  if bool_decide (a = "226"%char ∧ b = "132"%char ∧ c = "170"%char) then Some "k"%char else None.
Definition upper_two (a b : ascii) : option ascii :=
  if bool_decide (a = "196"%char ∧ b = "177"%char) then Some "I"%char
  else if bool_decide (a = "197"%char ∧ b = "191"%char) then Some "S"%char else None.

(** The characters of two and of three bytes that become a byte, and the
    bytes that are left. *)
Fixpoint case_str (one : ascii → ascii) (two : ascii → ascii → option ascii)
    (three : ascii → ascii → ascii → option ascii) (s : string) : string :=
  match s with
  | String a (String b s2 as s1) =>
      match two a b with
      | Some x => String x (case_str one two three s2)
      | None =>
          match s2 with
          | String c s3 =>
              match three a b c with
              | Some x => String x (case_str one two three s3)
              | None => String (one a) (case_str one two three s1)
              end
          | EmptyString => String (one a) (case_str one two three s1)
          end
      end
  | String a EmptyString => String (one a) EmptyString
  | EmptyString => EmptyString
  end.
Definition ToLower : string → string := case_str lower_byte lower_two lower_three.
Definition ToUpper : string → string := case_str upper_byte upper_two (λ _ _ _, None).

(** Byte by byte. *)
Definition map_str (f : ascii → ascii) (s : string) : string :=
  String.string_of_list_ascii (map f (String.list_ascii_of_string s)).

(** "K", the Kelvin sign and a long s. *)
Example case_examples :
  ToLower (String "075" (String "226" (String "132" (String "170" EmptyString)))) = "kk" ∧
  ToUpper (String "112" (String "111" (String "197" (String "191" "t")))) = "POST".
Proof. split; reflexivity. Qed.

#[local] Arguments String.append !_ _ : simpl nomatch.

Lemma append_nil_r s : s +:+ "" = s.
Proof. induction s; simpl; congruence. Qed.

Lemma append_length s t : String.length (s +:+ t) = String.length s + String.length t.
Proof. induction s; simpl; congruence. Qed.

Lemma append_inj_l s t t' : s +:+ t = s +:+ t' → t = t'.
Proof. induction s; simpl; [done|]. intros [=]; auto. Qed.

Lemma take_drop_str n s : take_str n s +:+ drop_str n s = s.
Proof. revert s. induction n as [|n IH]; intros [|a s]; simpl; [done..|]. by rewrite IH. Qed.

Lemma length_take_str n s : n ≤ String.length s → String.length (take_str n s) = n.
Proof.
  revert s. induction n as [|n IH]; intros [|a s]; simpl; intros; [done..|lia|].
  rewrite IH; lia.
Qed.

Lemma length_drop_str n s : String.length (drop_str n s) = String.length s - n.
Proof. revert s. induction n as [|n IH]; intros [|a s]; simpl; auto. Qed.

Lemma take_str_app n s t : n = String.length s → take_str n (s +:+ t) = s.
Proof. intros ->. induction s; simpl; [by destruct t|]. congruence. Qed.

Lemma drop_str_app n s t : n = String.length s → drop_str n (s +:+ t) = t.
Proof. intros ->. by induction s. Qed.

Lemma append_inj_r s s' t : s +:+ t = s' +:+ t → s = s'.
Proof.
  intros H. assert (Hl : String.length s = String.length s').
  { apply (f_equal String.length) in H. rewrite !append_length in H. lia. }
  rewrite <-(take_str_app _ s t eq_refl), H. by apply take_str_app.
Qed.

(** [strings.HasPrefix] and [strings.HasSuffix] as relations. *)
Definition has_prefix (p s : string) : Prop := ∃ t, s = p +:+ t.
Definition has_suffix (p s : string) : Prop := ∃ t, s = t +:+ p.

Lemma take_str_prefix p s :
  String.length p ≤ String.length s → take_str (String.length p) s = p ↔ has_prefix p s.
Proof.
  intros Hlen. split.
  - intros H. exists (drop_str (String.length p) s). by rewrite <-H at 1; rewrite take_drop_str.
  - intros [t ->]. by apply take_str_app.
Qed.

Lemma drop_str_suffix p s :
  String.length p ≤ String.length s →
  drop_str (String.length s - String.length p) s = p ↔ has_suffix p s.
Proof.
  intros Hlen. split.
  - intros H. eexists. by rewrite <-H at 1; rewrite take_drop_str.
  - intros [t ->]. apply drop_str_app. rewrite append_length. lia.
Qed.

Lemma has_prefix_length p s : has_prefix p s → String.length p ≤ String.length s.
Proof. intros [t ->]. rewrite append_length. lia. Qed.

Lemma has_suffix_length p s : has_suffix p s → String.length p ≤ String.length s.
Proof. intros [t ->]. rewrite append_length. lia. Qed.

(** ** Integers *)

(** A signed 64-bit result. *)
Definition wrap64 (n : Z) : Z := ((n + 2 ^ 63) mod 2 ^ 64 - 2 ^ 63)%Z.

Lemma wrap64_id n : (- 2 ^ 63 ≤ n < 2 ^ 63)%Z → wrap64 n = n.
Proof. intros. unfold wrap64. rewrite Z.mod_small; lia. Qed.

(** [strconv.Itoa] and the [%d] verb. *)
Fixpoint itoa_fuel (fuel : nat) (n : N) (acc : string) : string :=
  match fuel with
  | 0 => acc
  | S fuel =>
      let acc := String (ascii_of_N (48 + n mod 10)) acc in
      if (n <? 10)%N then acc else itoa_fuel fuel (n / 10) acc
  end.
Definition itoa (z : Z) : string :=
  let s := itoa_fuel (S (N.to_nat (N.log2 (Z.abs_N z)))) (Z.abs_N z) "" in
  if (z <? 0)%Z then "-" +:+ s else s.

(** ** [base64.StdEncoding] *)

Module base64.

Definition alphabet : list ascii :=
  String.list_ascii_of_string "ABCDEFGHIJKLMNOPQRSTUVWXYZabcdefghijklmnopqrstuvwxyz0123456789+/".

(** The character of a sextet, and [decodeMap]: [None] stands for 0xff. *)
Definition char_of (n : N) : ascii := nth (N.to_nat n) alphabet "="%char.
Definition decodeMap (c : ascii) : option N :=
  match list_find (eq c) alphabet with Some (i, _) => Some (N.of_nat i) | None => None end.

Definition byte (a : ascii) : N := N_of_ascii a.

Definition sextets3 (a b c : ascii) : list ascii :=
  let val := N.lor (N.lor (N.shiftl (byte a) 16) (N.shiftl (byte b) 8)) (byte c) in
  [char_of (N.land (N.shiftr val 18) 63); char_of (N.land (N.shiftr val 12) 63);
   char_of (N.land (N.shiftr val 6) 63); char_of (N.land val 63)].

(** [Encode]: three bytes at a time, then the remaining one or two, padded. *)
Fixpoint encode (s : list ascii) : list ascii :=
  match s with
  | a :: b :: c :: s' => sextets3 a b c ++ encode s'
  | [a; b] => take 3 (sextets3 a b zero) ++ ["="%char]
  | [a] => take 2 (sextets3 a zero zero) ++ ["="%char; "="%char]
  | [] => []
  end.

Definition newline (c : ascii) : bool :=
  bool_decide (c = "010"%char) || bool_decide (c = "013"%char).

Fixpoint skip_newlines (si : nat) (src : list ascii) : nat * list ascii :=
  match src with
  | c :: src' => if newline c then skip_newlines (S si) src' else (si, src)
  | [] => (si, [])
  end.

(** The bytes of a quantum of [length dbuf] sextets: one less than those. *)
Definition quantum_bytes (dbuf : list N) : list ascii :=
  let d := λ i, nth i dbuf 0%N in
  let val := N.lor (N.lor (N.lor (N.shiftl (d 0) 18) (N.shiftl (d 1) 12))
                          (N.shiftl (d 2) 6)) (d 3) in
  take (length dbuf - 1)
    [ascii_of_N (N.land (N.shiftr val 16) 255); ascii_of_N (N.land (N.shiftr val 8) 255);
     ascii_of_N (N.land val 255)].

(** The end of a padded quantum: anything but newlines after it is an error. *)
Definition padded_end (dbuf : list N) (si : nat) (src : list ascii) : list ascii * option nat :=
  let '(si, src) := skip_newlines si src in
  (quantum_bytes dbuf, match src with [] => None | _ => Some si end).

(** [Decode] from offset [si], [dbuf] holding the sextets of the current
    quantum: the bytes and, on a [CorruptInputError], its offset. *)
Fixpoint decode_from (si : nat) (dbuf : list N) (src : list ascii)
    : list ascii * option nat :=
  match src with
  | [] => ([], match dbuf with [] => None | _ => Some (si - length dbuf) end)
  | c :: src' =>
      match decodeMap c with
      | Some v =>
          let dbuf := dbuf ++ [v] in
          if length dbuf =? 4 then
            let '(out, err) := decode_from (S si) [] src' in (quantum_bytes dbuf ++ out, err)
          else decode_from (S si) dbuf src'
      | None =>
          if newline c then decode_from (S si) dbuf src'
          else if bool_decide (c ≠ "="%char) then ([], Some si)
          else match length dbuf with
          | 0 | 1 => ([], Some si)
          | 2 =>
              let '(si2, src2) := skip_newlines (S si) src' in
              match src2 with
              | [] => ([], Some si2)
              | c2 :: src3 =>
                  if bool_decide (c2 = "="%char) then padded_end dbuf (S si2) src3
                  else ([], Some (si2 - 1))
              end
          | _ => padded_end dbuf (S si) src'
          end
      end
  end.

Definition EncodeToString (s : string) : string :=
  String.string_of_list_ascii (encode (String.list_ascii_of_string s)).

Definition DecodeString (s : string) : result string :=
  match decode_from 0 [] (String.list_ascii_of_string s) with
  | (out, None) => inl (String.string_of_list_ascii out)
  | (_, Some i) => inr ("illegal base64 data at input byte " +:+ itoa (Z.of_nat i))
  end.

(** *** Decoding undoes encoding *)

Lemma decode_char n : (n < 64)%N → decodeMap (char_of n) = Some n.
Proof.
  assert (Hall : Forall (λ i, decodeMap (char_of (N.of_nat i)) = Some (N.of_nat i)) (seq 0 64))
    by (apply (bool_decide_unpack _); vm_compute; exact I).
  intros Hn. rewrite Forall_forall in Hall.
  rewrite <-(N2Nat.id n). apply Hall. apply elem_of_seq. lia.
Qed.

Lemma sextet_bound v : (N.land v 63 < 64)%N.
Proof. change 63%N with (N.ones 6). rewrite N.land_ones. by apply N.mod_lt. Qed.

Lemma byte_bound a : (byte a < 256)%N.
Proof. apply N_ascii_bounded. Qed.

Lemma testbit_high v n m : (v < 2 ^ n)%N → (n ≤ m)%N → N.testbit v m = false.
Proof.
  intros Hv Hm. destruct (N.eq_dec v 0%N) as [->|]; [apply N.bits_0|].
  apply N.bits_above_log2. apply N.log2_lt_pow2 in Hv; lia.
Qed.

Lemma testbit_byte a m : N.testbit (byte a) m = (m <? 8)%N && N.testbit (byte a) m.
Proof.
  destruct (N.ltb_spec m 8); [done|]. apply (testbit_high _ 8); [apply byte_bound|done].
Qed.

Lemma testbit_shiftl v n m :
  N.testbit (N.shiftl v n) m = (n <=? m)%N && N.testbit v (m - n).
Proof.
  destruct (N.leb_spec n m); [by rewrite N.shiftl_spec_high' by lia|].
  by rewrite N.shiftl_spec_low by lia.
Qed.

Lemma testbit_ones v k m : N.testbit (N.land v (N.ones k)) m = (m <? k)%N && N.testbit v m.
Proof.
  rewrite N.land_spec, andb_comm. f_equal.
  destruct (N.ltb_spec m k); [by apply N.ones_spec_low|by apply N.ones_spec_high].
Qed.

(** Sixteen more sextet bits than byte bits: the shifts put them back. *)
Lemma quantum_word a b c :
  let val := N.lor (N.lor (N.shiftl (byte a) 16) (N.shiftl (byte b) 8)) (byte c) in
  N.lor (N.lor (N.lor (N.shiftl (N.land (N.shiftr val 18) 63) 18)
                      (N.shiftl (N.land (N.shiftr val 12) 63) 12))
               (N.shiftl (N.land (N.shiftr val 6) 63) 6))
        (N.land val 63) = val.
Proof.
  intros val. apply N.bits_inj. intros i. change 63%N with (N.ones 6).
  rewrite !N.lor_spec, !testbit_shiftl, !testbit_ones, !N.shiftr_spec by lia.
  assert (Hv : (24 <=? i)%N = true → N.testbit val i = false).
  { intros H. apply N.leb_le in H. unfold val.
    rewrite !N.lor_spec, !testbit_shiftl, (testbit_byte a), (testbit_byte b), (testbit_byte c).
    rewrite !(proj2 (N.ltb_ge _ 8)) by lia. by rewrite !andb_false_r. }
  destruct (N.leb_spec 24 i) as [H|H].
  { rewrite Hv by done. rewrite !(proj2 (N.ltb_ge _ 6)) by lia. by rewrite !andb_false_r. }
  rewrite <-(N2Nat.id i) in *. generalize dependent (N.to_nat i). clear i. intros k _ Hk.
  do 24 (destruct k as [|k];
    [cbn -[N.testbit val]; rewrite ?orb_false_r; reflexivity|]). lia.
Qed.

Lemma word_byte x y s :
  (y < 256)%N → (∀ i, (i < 8)%N → N.testbit x (i + s) = N.testbit y i) →
  ascii_of_N (N.land (N.shiftr x s) 255) = ascii_of_N y.
Proof.
  intros Hy Hi. f_equal. apply N.bits_inj. intros i. change 255%N with (N.ones 8).
  rewrite testbit_ones, N.shiftr_spec by lia. destruct (N.ltb_spec i 8); cbn [andb]; [auto|].
  symmetry. by apply (testbit_high _ 8).
Qed.

(** The four sextets of three bytes carry the three bytes. *)
Lemma quantum_sextets a b c :
  let val := N.lor (N.lor (N.shiftl (byte a) 16) (N.shiftl (byte b) 8)) (byte c) in
  [ascii_of_N (N.land (N.shiftr val 16) 255); ascii_of_N (N.land (N.shiftr val 8) 255);
   ascii_of_N (N.land val 255)] = [a; b; c].
Proof.
  intros val. replace (N.land val 255) with (N.land (N.shiftr val 0) 255) by by rewrite N.shiftr_0_r.
  unfold val.
  rewrite (word_byte _ (byte a) 16), (word_byte _ (byte b) 8), (word_byte _ (byte c) 0);
    try apply byte_bound; [by unfold byte; rewrite !ascii_N_embedding|..]; intros i Hi;
    rewrite !N.lor_spec, !testbit_shiftl;
    rewrite (testbit_byte a), (testbit_byte b), (testbit_byte c);
    rewrite <-(N2Nat.id i) in *; generalize dependent (N.to_nat i); clear i; intros k Hk;
    (do 8 (destruct k as [|k]; [cbn -[N.testbit byte]; rewrite ?orb_false_r; reflexivity|]));
    lia.
Qed.

Lemma quantum_bytes_full a b c :
  let val := N.lor (N.lor (N.shiftl (byte a) 16) (N.shiftl (byte b) 8)) (byte c) in
  quantum_bytes [N.land (N.shiftr val 18) 63; N.land (N.shiftr val 12) 63;
                 N.land (N.shiftr val 6) 63; N.land val 63]%N = [a; b; c].
Proof.
  intros val. unfold quantum_bytes. cbv zeta. cbn [length nth Nat.sub take].
  pose proof (quantum_word a b c) as Hq. cbv zeta in Hq. fold val in Hq.
  rewrite Hq. apply quantum_sextets.
Qed.

(** A quantum cut short of its zero sextets gives the same leading bytes. *)
Lemma quantum_bytes_two a b :
  let val := N.lor (N.lor (N.shiftl (byte a) 16) (N.shiftl (byte b) 8)) (byte zero) in
  quantum_bytes [N.land (N.shiftr val 18) 63; N.land (N.shiftr val 12) 63;
                 N.land (N.shiftr val 6) 63]%N = [a; b].
Proof.
  intros val. pose proof (quantum_bytes_full a b zero) as H. cbn zeta in H. fold val in H.
  assert (Hz : N.land val 63 = 0%N).
  { apply N.bits_inj. intros i. change 63%N with (N.ones 6). unfold val.
    rewrite testbit_ones, !N.lor_spec, !testbit_shiftl, N.bits_0.
    change (byte zero) with 0%N. rewrite N.bits_0, orb_false_r.
    destruct (N.ltb_spec i 6); [|done].
    by rewrite !(proj2 (N.leb_gt _ _)) by lia. }
  rewrite Hz in H. exact (f_equal (take 2) H).
Qed.

Lemma quantum_bytes_one a :
  let val := N.lor (N.lor (N.shiftl (byte a) 16) (N.shiftl (byte zero) 8)) (byte zero) in
  quantum_bytes [N.land (N.shiftr val 18) 63; N.land (N.shiftr val 12) 63]%N = [a].
Proof.
  intros val. pose proof (quantum_bytes_two a zero) as H. cbn zeta in H. fold val in H.
  assert (Hz : N.land (N.shiftr val 6) 63 = 0%N).
  { apply N.bits_inj. intros i. change 63%N with (N.ones 6). unfold val.
    rewrite testbit_ones, N.shiftr_spec, !N.lor_spec, !testbit_shiftl, N.bits_0 by lia.
    change (byte zero) with 0%N. rewrite N.bits_0, andb_false_r, !orb_false_r.
    destruct (N.ltb_spec i 6); [|done].
    by rewrite !(proj2 (N.leb_gt _ _)) by lia. }
  rewrite Hz in H. exact (f_equal (take 1) H).
Qed.

Lemma decode_sextet si dbuf v rest :
  (v < 64)%N → length dbuf < 3 →
  decode_from si dbuf (char_of v :: rest) = decode_from (S si) (dbuf ++ [v]) rest.
Proof.
  intros Hv Hlen. cbn [decode_from]. rewrite decode_char by done.
  rewrite length_app. cbn [length]. by rewrite (proj2 (Nat.eqb_neq _ 4)) by lia.
Qed.

Lemma decode_quantum si v1 v2 v3 v4 rest :
  (v1 < 64)%N → (v2 < 64)%N → (v3 < 64)%N → (v4 < 64)%N →
  decode_from si [] (char_of v1 :: char_of v2 :: char_of v3 :: char_of v4 :: rest) =
    let '(out, err) := decode_from (4 + si) [] rest in
    (quantum_bytes [v1; v2; v3; v4] ++ out, err).
Proof.
  intros. rewrite !decode_sextet by (simpl; done || lia). cbn [decode_from].
  by rewrite decode_char.
Qed.

Lemma decode_padding_two si v w :
  decode_from si [v; w] ["="%char; "="%char] = (quantum_bytes [v; w], None).
Proof. reflexivity. Qed.

Lemma decode_padding_one si v w x :
  decode_from si [v; w; x] ["="%char] = (quantum_bytes [v; w; x], None).
Proof. reflexivity. Qed.

Lemma decode_encode s si : decode_from si [] (encode s) = (s, None).
Proof.
  revert si. induction s as [[|a [|b [|c s]]] IH] using (induction_ltof1 _ length);
    intros si; unfold ltof in IH; cbn [encode].
  - done.
  - unfold sextets3. cbn [take app].
    rewrite !decode_sextet by (try apply sextet_bound; simpl; lia).
    cbn [app]. by rewrite decode_padding_two, quantum_bytes_one.
  - unfold sextets3. cbn [take app].
    rewrite !decode_sextet by (try apply sextet_bound; simpl; lia).
    cbn [app]. by rewrite decode_padding_one, quantum_bytes_two.
  - unfold sextets3. cbn [app]. rewrite decode_quantum by apply sextet_bound.
    rewrite IH by (simpl; lia). by rewrite quantum_bytes_full.
Qed.

Lemma DecodeString_EncodeToString s : DecodeString (EncodeToString s) = inl s.
Proof.
  unfold DecodeString, EncodeToString.
  rewrite String.list_ascii_of_string_of_list_ascii, decode_encode.
  by rewrite String.string_of_list_ascii_of_string.
Qed.

End base64.

(** ** [strconv.ParseInt(s, 10, 64)] *)

Definition digit_of (a : ascii) : option N :=
  let n := N_of_ascii a in
  if ((48 <=? n) && (n <=? 57))%N then Some (n - 48)%N else None.

(** The loop of [strconv.ParseUint], which gives up as soon as the value does
    not fit 64 bits. *)
Fixpoint parse_digits (l : list ascii) (n : N) : result N :=
  match l with
  | [] => inl n
  | a :: l =>
      match digit_of a with
      | None => inr "invalid syntax"
      | Some d =>
          let n := (10 * n + d)%N in
          if (2 ^ 64 <=? n)%N then inr "value out of range" else parse_digits l n
      end
  end.

Definition ParseUint (l : list ascii) : result N :=
  match l with [] => inr "invalid syntax" | _ => parse_digits l 0 end.

(** The sign, if any, and the rest. *)
Definition split_sign (l : list ascii) : bool * list ascii :=
  match l with
  | "-"%char :: l => (true, l)
  | "+"%char :: l => (false, l)
  | l => (false, l)
  end.

Definition ParseInt (s : string) : result Z :=
  let '(neg, l) := split_sign (String.list_ascii_of_string s) in
  match ParseUint l with
  | inr err => inr err
  | inl un =>
      if negb neg && (2 ^ 63 <=? un)%N then inr "value out of range"
      else if neg && (2 ^ 63 <? un)%N then inr "value out of range"
      else inl (if neg then (- Z.of_N un)%Z else Z.of_N un)
  end.

(** The value a string of digits denotes. *)
Definition digits_value (l : list ascii) : option N :=
  foldl (λ acc a, match acc, digit_of a with
                  | Some n, Some d => Some (10 * n + d)%N
                  | _, _ => None
                  end) (Some 0%N) l.

#[local] Abbreviation digit_step :=
  (λ acc a, match acc, digit_of a with
            | Some n, Some d => Some (10 * n + d)%N
            | _, _ => None
            end).

Lemma digit_fold_none l : foldl digit_step None l = None.
Proof. induction l; simpl; auto. Qed.

Lemma digit_fold_mono l n m : foldl digit_step (Some n) l = Some m → (n ≤ m)%N.
Proof.
  revert n. induction l as [|a l IH]; simpl; intros n H; [by simplify_eq|].
  destruct (digit_of a) as [d|]; [|by rewrite digit_fold_none in H].
  specialize (IH _ H). lia.
Qed.

Lemma parse_digits_spec l n m :
  (n < 2 ^ 64)%N →
  parse_digits l n = inl m ↔ foldl digit_step (Some n) l = Some m ∧ (m < 2 ^ 64)%N.
Proof.
  revert n. induction l as [|a l IH]; intros n Hn; cbn [parse_digits foldl].
  - split; [intros [= <-]; done|]. by intros [[= ->] _].
  - destruct (digit_of a) as [d|].
    + destruct (N.leb_spec (2 ^ 64) (10 * n + d)).
      * split; [done|]. intros [Hf Hm]. apply digit_fold_mono in Hf. lia.
      * by apply IH.
    + rewrite digit_fold_none. split; [done|by intros []].
Qed.

Lemma ParseUint_spec l m :
  ParseUint l = inl m ↔ l ≠ [] ∧ digits_value l = Some m ∧ (m < 2 ^ 64)%N.
Proof.
  unfold ParseUint, digits_value. destruct l as [|a l]; [by split; [|intros []]|].
  rewrite parse_digits_spec by done. naive_solver.
Qed.

(** The digits [itoa] writes are read back. *)
Lemma digit_of_digit n : (n < 10)%N → digit_of (ascii_of_N (48 + n)) = Some n.
Proof.
  intros Hn. unfold digit_of. rewrite N_ascii_embedding by lia.
  destruct (N.leb_spec 48 (48 + n)), (N.leb_spec (48 + n) 57); try lia.
  f_equal/=. lia.
Qed.

Lemma itoa_fuel_digits fuel n acc :
  (n < 10 ^ N.of_nat fuel)%N →
  ∃ l, String.list_ascii_of_string (itoa_fuel fuel n acc)
       = l ++ String.list_ascii_of_string acc ∧ (0 < fuel → l ≠ []) ∧
       Forall (λ a, is_Some (digit_of a)) l ∧ foldl digit_step (Some 0%N) l = Some n.
Proof.
  revert n acc. induction fuel as [|fuel IH]; intros n acc Hn.
  - exists []. simpl in *. split_and!; [done|lia|done|f_equal; lia].
  - cbn [itoa_fuel].
    assert (Hd : digit_of (ascii_of_N (48 + n mod 10)) = Some (n mod 10)%N).
    { apply digit_of_digit. apply N.mod_lt. lia. }
    destruct (N.ltb_spec n 10).
    + exists [ascii_of_N (48 + n mod 10)]. split_and!; [done|done| |].
      * repeat constructor. by rewrite Hd.
      * cbn [foldl]. rewrite Hd. f_equal. rewrite N.mod_small by lia. lia.
    + destruct (IH (n / 10)%N (String (ascii_of_N (48 + n mod 10)) acc)) as (l&Hl&_&Hds&Hv).
      { apply N.Div0.div_lt_upper_bound. rewrite Nat2N.inj_succ, N.pow_succ_r' in Hn. lia. }
      exists (l ++ [ascii_of_N (48 + n mod 10)]). split_and!.
      * rewrite Hl. simpl. by rewrite <-app_assoc.
      * by destruct l.
      * apply Forall_app. split; [done|]. repeat constructor. by rewrite Hd.
      * rewrite foldl_snoc, Hv. cbn [foldl]. rewrite Hd. f_equal.
        pose proof (N.div_mod n 10). lia.
Qed.

Lemma itoa_fuel_enough n : (n < 10 ^ N.of_nat (S (N.to_nat (N.log2 n))))%N.
Proof.
  destruct (decide (n = 0)%N) as [->|Hn]; [done|].
  rewrite Nat2N.inj_succ, N2Nat.id.
  apply N.lt_le_trans with (2 ^ N.succ (N.log2 n))%N; [apply N.log2_spec; lia|].
  apply N.pow_le_mono_l. lia.
Qed.

Lemma itoa_digits z :
  ∃ l, String.list_ascii_of_string (itoa z)
       = (if (z <? 0)%Z then ["-"%char] else []) ++ l ∧ l ≠ [] ∧
       Forall (λ a, is_Some (digit_of a)) l ∧ digits_value l = Some (Z.abs_N z).
Proof.
  destruct (itoa_fuel_digits _ _ "" (itoa_fuel_enough (Z.abs_N z))) as (l&Hl&Hne&Hds&Hv).
  exists l. split_and!; [|apply Hne; lia|done|done].
  rewrite app_nil_r in Hl. unfold itoa.
  destruct (z <? 0)%Z; [|by rewrite Hl].
  cbn [String.append String.list_ascii_of_string app]. by rewrite Hl.
Qed.

Lemma split_sign_digit a l : is_Some (digit_of a) → split_sign (a :: l) = (false, a :: l).
Proof. intros [d Ha]. by destruct a as [[] [] [] [] [] [] [] []]. Qed.

(** [ParseInt] reads back what [%d] writes, exactly on 64 bits. *)
Lemma ParseInt_itoa z :
  ParseInt (itoa z) = if decide (- 2 ^ 63 ≤ z < 2 ^ 63)%Z then inl z else
                      inr "value out of range".
Proof.
  destruct (itoa_digits z) as (l&Hl&Hne&Hds&Hv). unfold ParseInt. rewrite Hl.
  assert (Hu : ParseUint l = if (2 ^ 64 <=? Z.abs_N z)%N then inr "value out of range"
                             else inl (Z.abs_N z)).
  { destruct (N.leb_spec (2 ^ 64) (Z.abs_N z)) as [Hb|Hb]; [|by apply ParseUint_spec].
    destruct (ParseUint l) as [m|err] eqn:Hp.
    - apply ParseUint_spec in Hp as (_&Hm&?). rewrite Hm in Hv. simplify_eq. lia.
    - unfold ParseUint in Hp. destruct l as [|a l]; [done|]. f_equal.
      assert (Hs : ∀ n, Forall (λ a, is_Some (digit_of a)) (a :: l) →
        parse_digits (a :: l) n = inr err → err = "value out of range").
      { clear. induction (a :: l) as [|b k IH]; intros n Hf; [done|]. cbn [parse_digits].
        inversion Hf as [|? ? [d Hd] Hf']; subst. rewrite Hd.
        case_match; [by intros [=]|by apply IH]. }
      by apply (Hs 0%N). }
  destruct (Z.ltb_spec z 0); cbn [app].
  - cbn [split_sign]. rewrite Hu. destruct (N.leb_spec (2 ^ 64) (Z.abs_N z)); cbn [negb andb].
    + case_decide; [lia|done].
    + destruct (N.ltb_spec (2 ^ 63) (Z.abs_N z)); case_decide; f_equal; lia.
  - inversion Hds as [|a k Ha Hk]; subst; [done|].
    rewrite split_sign_digit by done.
    rewrite Hu. destruct (N.leb_spec (2 ^ 64) (Z.abs_N z)); cbn [negb andb].
    + case_decide; [lia|done].
    + destruct (N.leb_spec (2 ^ 63) (Z.abs_N z)); case_decide; f_equal; lia.
Qed.
