(* ===== verification/Config.v ===== *)
(** * The configuration ([config/types.go], [defaults.go], [validate.go])

    The records are the structs of [config/types.go]: a pointer is an
    [option], a map that can be nil an [option] of a [gmap].  The section on
    defaults is [config/defaults.go], the one on validation
    [config/validate.go]: an error is its message and [None] the nil error.
    Reading the file, expanding the environment and parsing YAML
    ([config/loader.go]) are outside: the definitions
    start from the structs that parsing gives. *)

From S2P Require Import Prelude GoLang.
From Stdlib Require Export SpecFloat.

(** ** Data *)

Record OAuthConfig := {
  TokenEndpoint : string; ClientID : string; ClientSecret : string; Scope : string;
  ExtraParams : option (gmap string string) }.

Record AuthConfig := {
  auth_Method : string; auth_Headers : option (gmap string string);
  OAuth : option OAuthConfig }.

Record ResponseParserConfig := {
  rp_ListPath : string; rp_NameField : string; rp_ValuePath : string }.

Record OperationConfig := {
  op_Method : string; op_Endpoint : string; StatusCodes : list Z;
  ResponseParserOf : option ResponseParserConfig }.

Record ToolOutputConfig := { out_Format : string; out_Path : string; out_NameField : string }.

Record ToolOperationConfig := {
  Command : string; Args : list string; Output : ToolOutputConfig;
  SuccessExitCodes : list Z }.

Record ExternalToolConfig := {
  Env : option (gmap string string); EnvPassthrough : list string;
  Operations : option (gmap string (option ToolOperationConfig)) }.

Record FieldNamesConfig := { fn_NameField : string; fn_ValueField : string }.

Record VaultConfig := {
  v_ID : string; v_Name : string; v_Type : string; v_Endpoint : string;
  v_Method : string; v_Auth : option AuthConfig; v_FieldNames : FieldNamesConfig;
  v_Headers : option (gmap string string);
  OperationsOverride : option (gmap string (option OperationConfig));
  v_Timeout : Z; SkipSSLVerify : bool; ToolConfig : string;
  ResolvedTool : option ExternalToolConfig;
  LegacyAuthMethod : string; LegacyAuthHeaders : option (gmap string string) }.

Record FilterConfig := { Patterns : list string; Exclude : list string }.

Record Transform := { tr_Field : string; tr_Type : string; tr_Value : string }.

(** A [float64] is a [spec_float] of precision 53 and exponent range 1024. *)
Record RetryPolicy := {
  MaxRetries : Z; InitialBackoff : Z; MaxBackoff : Z; Multiplier : spec_float }.

Record SyncConfig := {
  s_ID : string; s_Source : string; Targets : list string; SyncType : string;
  Schedule : string; Filter : FilterConfig; Transforms : list Transform;
  s_RetryPolicy : RetryPolicy; ConcurrentWorkers : Z; Enabled : option bool }.

Definition IsEnabled (s : SyncConfig) : bool :=
  match Enabled s with None => true | Some b => b end.

Record ServerConfig := {
  Port : Z; Address : string; MetricsPort : Z; MetricsAddress : string }.

Record LoggingConfig := { Level : string; Format : string }.

Record Config := {
  Vaults : list VaultConfig; Syncs : list SyncConfig;
  Server : ServerConfig; Logging : LoggingConfig }.

Definition GetVaultType (vc : VaultConfig) : string :=
  if bool_decide (v_Type vc ≠ "") then v_Type vc else "generic".

Definition headers_made (a : AuthConfig) : AuthConfig :=
  match auth_Headers a with
  | None => {| auth_Method := auth_Method a; auth_Headers := Some ∅; OAuth := OAuth a |}
  | Some _ => a
  end.

Definition PopulateDefaults (vc : VaultConfig) : VaultConfig :=
  {| v_ID := v_ID vc; v_Name := v_Name vc;
     v_Type := if bool_decide (v_Type vc = "") then "generic" else v_Type vc;
     v_Endpoint := v_Endpoint vc; v_Method := v_Method vc;
     v_Auth := headers_made <$> v_Auth vc; v_FieldNames := v_FieldNames vc;
     v_Headers := match v_Headers vc with None => Some ∅ | h => h end;
     OperationsOverride := OperationsOverride vc; v_Timeout := v_Timeout vc;
     SkipSSLVerify := SkipSSLVerify vc; ToolConfig := ToolConfig vc;
     ResolvedTool := ResolvedTool vc; LegacyAuthMethod := LegacyAuthMethod vc;
     LegacyAuthHeaders := LegacyAuthHeaders vc |}.

(** ** Defaults *)

Definition default_Z (z d : Z) : Z := if (z =? 0)%Z then d else z.
Definition default_str (s d : string) : string := if bool_decide (s = "") then d else s.

(** [x == 0] of a float: both zeros. *)
Definition float_is_zero (x : spec_float) : bool :=
  match x with S754_zero _ => true | _ => false end.

(** The literal [2.0]. *)
Definition two : spec_float := S754_finite false (2 ^ 52) (-51).

Definition applyServerDefaults (s : ServerConfig) : ServerConfig :=
  {| Port := default_Z (Port s) 8080; Address := default_str (Address s) "0.0.0.0";
     MetricsPort := default_Z (MetricsPort s) 9090;
     MetricsAddress := default_str (MetricsAddress s) "0.0.0.0" |}.

Definition applyLoggingDefaults (l : LoggingConfig) : LoggingConfig :=
  {| Level := default_str (Level l) "info"; Format := default_str (Format l) "json" |}.

Definition sync_defaults (s : SyncConfig) : SyncConfig :=
  let p := s_RetryPolicy s in
  {| s_ID := s_ID s; s_Source := s_Source s; Targets := Targets s;
     SyncType := default_str (SyncType s) "unidirectional";
     Schedule := Schedule s; Filter := Filter s; Transforms := Transforms s;
     s_RetryPolicy :=
       {| MaxRetries := default_Z (MaxRetries p) 3;
          InitialBackoff := default_Z (InitialBackoff p) 1000;
          MaxBackoff := default_Z (MaxBackoff p) 60000;
          Multiplier := if float_is_zero (Multiplier p) then two else Multiplier p |};
     ConcurrentWorkers := ConcurrentWorkers s; Enabled := Enabled s |}.

Definition applySyncDefaults (l : list SyncConfig) : list SyncConfig := map sync_defaults l.

Definition vault_defaults (v : VaultConfig) : VaultConfig :=
  {| v_ID := v_ID v; v_Name := v_Name v; v_Type := v_Type v; v_Endpoint := v_Endpoint v;
     v_Method := default_str (v_Method v) "PUT";
     v_Auth := headers_made <$> v_Auth v; v_FieldNames := v_FieldNames v;
     v_Headers := v_Headers v; OperationsOverride := OperationsOverride v;
     v_Timeout := default_Z (v_Timeout v) 30; SkipSSLVerify := SkipSSLVerify v;
     ToolConfig := ToolConfig v; ResolvedTool := ResolvedTool v;
     LegacyAuthMethod := LegacyAuthMethod v; LegacyAuthHeaders := LegacyAuthHeaders v |}.

Definition applyVaultDefaults (l : list VaultConfig) : list VaultConfig := map vault_defaults l.

Definition applyConfigDefaults (c : Config) : Config :=
  {| Vaults := applyVaultDefaults (Vaults c); Syncs := applySyncDefaults (Syncs c);
     Server := applyServerDefaults (Server c); Logging := applyLoggingDefaults (Logging c) |}.

(** ** Validation *)

Definition tool_op (ops : option (gmap string (option ToolOperationConfig)))
    (name : string) : option ToolOperationConfig :=
  match ops with None => None | Some m => mjoin (m !! name) end.

Definition validateToolVault (v : VaultConfig) : option error :=
  if bool_decide (ToolConfig v = "") then
    Some ("vault " +:+ v_ID v +:+ ": 'tool_config' is required for type 'tool'")
  else match ResolvedTool v with
  | None => Some ("vault " +:+ v_ID v +:+ ": tool config file '" +:+ ToolConfig v
                  +:+ "' was not loaded")
  | Some t =>
      let ops := Operations t in
      match tool_op ops "list" with
      | None => Some ("vault " +:+ v_ID v
                      +:+ ": tool config must define an 'operations.list' entry")
      | Some l =>
          if bool_decide (Command l = "") then
            Some ("vault " +:+ v_ID v
                  +:+ ": tool config 'operations.list.command' must not be empty")
          else match tool_op ops "get" with
          | None => Some ("vault " +:+ v_ID v
                          +:+ ": tool config must define an 'operations.get' entry")
          | Some g =>
              if bool_decide (Command g = "") then
                Some ("vault " +:+ v_ID v
                      +:+ ": tool config 'operations.get.command' must not be empty")
              else None
          end
      end
  end.

Definition auth_methods : list string := ["bearer"; "basic"; "oauth2"; "api_key"; "custom"].

Definition validateHTTPVault (v : VaultConfig) : option error :=
  if bool_decide (v_Endpoint v = "") then
    Some ("vault " +:+ v_ID v +:+ " must have an endpoint")
  else if bool_decide (fn_NameField (v_FieldNames v) = "")
          || bool_decide (fn_ValueField (v_FieldNames v) = "") then
    Some ("vault " +:+ v_ID v
          +:+ " must define field_names.name_field and field_names.value_field")
  else match v_Auth v with
  | None => Some ("vault " +:+ v_ID v +:+ ": 'auth' configuration is required")
  | Some a =>
      if bool_decide (auth_Method a = "") then
        Some ("vault " +:+ v_ID v +:+ ": 'auth.method' is required")
      else if negb (bool_decide (ToLower (auth_Method a) ∈ auth_methods)) then
        Some ("vault " +:+ v_ID v +:+ ": invalid auth method '" +:+ auth_Method a
              +:+ "', must be one of: bearer, basic, oauth2, api_key, custom")
      else
        let method := ToUpper (v_Method v) in
        if bool_decide (method ≠ "PUT") && bool_decide (method ≠ "POST") then
          Some ("vault " +:+ v_ID v +:+ " has invalid method " +:+ v_Method v
                +:+ ", must be PUT or POST")
        else None
  end.

Definition validateSingleVault (v : VaultConfig) : option error :=
  if bool_decide (LegacyAuthMethod v ≠ "")
     || negb (bool_decide (default ∅ (LegacyAuthHeaders v) = ∅)) then
    Some ("vault " +:+ v_ID v +:+ ": legacy 'auth_method' and 'auth_headers' fields are no longer supported. Please migrate to the new 'auth' structure. See README.md for examples")
  else if bool_decide (ToLower (v_Type v) = "tool") then validateToolVault v
  else validateHTTPVault v.

(** The loop of [validateVaults], [vaultIDs] the set filled so far. *)
Fixpoint validateVaults_loop (vaults : list VaultConfig) (vaultIDs : gset string)
    : result (gset string) :=
  match vaults with
  | [] => inl vaultIDs
  | v :: vaults =>
      if bool_decide (v_ID v = "") then inr "vault must have an ID"
      else if bool_decide (v_ID v ∈ vaultIDs) then
        inr ("duplicate vault ID: " +:+ v_ID v)
      else match validateSingleVault v with
      | Some err => inr err
      | None => validateVaults_loop vaults ({[v_ID v]} ∪ vaultIDs)
      end
  end.

Definition validateVaults (vaults : list VaultConfig) : result (gset string) :=
  validateVaults_loop vaults ∅.

Fixpoint unknown_target (targets : list string) (vaultIDs : gset string) : option string :=
  match targets with
  | [] => None
  | t :: targets =>
      if bool_decide (t ∈ vaultIDs) then unknown_target targets vaultIDs else Some t
  end.

(** The checks of one sync, in the order of the code. *)
Definition validateSync (s : SyncConfig) (vaultIDs : gset string) : option error :=
  if bool_decide (s_ID s = "") then Some "sync must have an ID"
  else if bool_decide (s_Source s = "") then
    Some ("sync " +:+ s_ID s +:+ " must have a source")
  else if length (Targets s) =? 0 then
    Some ("sync " +:+ s_ID s +:+ " must have at least one target")
  else if negb (bool_decide (s_Source s ∈ vaultIDs)) then
    Some ("sync " +:+ s_ID s +:+ " references unknown source vault " +:+ s_Source s)
  else match unknown_target (Targets s) vaultIDs with
  | Some t => Some ("sync " +:+ s_ID s +:+ " references unknown target vault " +:+ t)
  | None =>
      if bool_decide (SyncType s = "bidirectional") && negb (length (Targets s) =? 1) then
        Some ("sync " +:+ s_ID s +:+ ": bidirectional sync only allowed for 1:1 (has "
              +:+ itoa (Z.of_nat (length (Targets s))) +:+ " targets)")
      else if bool_decide (SyncType s ≠ "unidirectional")
              && bool_decide (SyncType s ≠ "bidirectional") then
        Some ("sync " +:+ s_ID s +:+ ": invalid sync_type " +:+ SyncType s
              +:+ ", must be unidirectional or bidirectional")
      else None
  end.

Fixpoint validateSyncs (syncs : list SyncConfig) (vaultIDs : gset string) : option error :=
  match syncs with
  | [] => None
  | s :: syncs =>
      match validateSync s vaultIDs with
      | Some err => Some err
      | None => validateSyncs syncs vaultIDs
      end
  end.

Definition Validate (c : Config) : option error :=
  if length (Vaults c) =? 0 then Some "no vaults configured"
  else match validateVaults (Vaults c) with
  | inr err => Some err
  | inl vaultIDs => validateSyncs (Syncs c) vaultIDs
  end.

(** ** What a valid configuration is *)

Definition valid_tool_vault (v : VaultConfig) : Prop :=
  ToolConfig v ≠ "" ∧ ∃ t l g, ResolvedTool v = Some t ∧
    tool_op (Operations t) "list" = Some l ∧ Command l ≠ "" ∧
    tool_op (Operations t) "get" = Some g ∧ Command g ≠ "".

Definition valid_http_vault (v : VaultConfig) : Prop :=
  v_Endpoint v ≠ "" ∧ fn_NameField (v_FieldNames v) ≠ "" ∧
  fn_ValueField (v_FieldNames v) ≠ "" ∧
  (∃ a, v_Auth v = Some a ∧ ToLower (auth_Method a) ∈ auth_methods) ∧
  (ToUpper (v_Method v) = "PUT" ∨ ToUpper (v_Method v) = "POST").

Definition valid_vault (v : VaultConfig) : Prop :=
  LegacyAuthMethod v = "" ∧ default ∅ (LegacyAuthHeaders v) = ∅ ∧
  (if decide (ToLower (v_Type v) = "tool") then valid_tool_vault v else valid_http_vault v).

Definition valid_sync (ids : gset string) (s : SyncConfig) : Prop :=
  s_ID s ≠ "" ∧ s_Source s ≠ "" ∧ s_Source s ∈ ids ∧ Targets s ≠ [] ∧
  Forall (λ t, t ∈ ids) (Targets s) ∧
  (SyncType s = "unidirectional" ∨ (SyncType s = "bidirectional" ∧ (∃ t, Targets s = [t]))).

Definition vault_ids (l : list VaultConfig) : list string := map v_ID l.

Definition valid_config (c : Config) : Prop :=
  Vaults c ≠ [] ∧ NoDup (vault_ids (Vaults c)) ∧ "" ∉ vault_ids (Vaults c) ∧
  Forall valid_vault (Vaults c) ∧
  Forall (valid_sync (list_to_set (vault_ids (Vaults c)))) (Syncs c).

Lemma validateToolVault_spec v : validateToolVault v = None ↔ valid_tool_vault v.
Proof.
  unfold validateToolVault, valid_tool_vault. 
  case_bool_decide; [naive_solver|]. destruct (ResolvedTool v) as [t|]; [|naive_solver].
  destruct (tool_op (Operations t) "list") as [l|] eqn:Hl; [|naive_solver].
  case_bool_decide; [naive_solver|].
  destruct (tool_op (Operations t) "get") as [g|] eqn:Hg; [|naive_solver].
  case_bool_decide; naive_solver.
Qed.

Lemma no_auth_method m : ToLower m ∈ auth_methods → m ≠ "".
Proof. by intros H ->; apply (bool_decide_pack _) in H. Qed.

Lemma validateHTTPVault_spec v : validateHTTPVault v = None ↔ valid_http_vault v.
Proof.
  unfold validateHTTPVault, valid_http_vault.
  case_bool_decide as H1; [naive_solver|].
  case_bool_decide as H2; simpl; [naive_solver|].
  case_bool_decide as H3; simpl; [naive_solver|].
  destruct (v_Auth v) as [a|] eqn:Ha; [|naive_solver].
  case_bool_decide as H4; [split; [done|]|].
  { intros (_&_&_&(a'&[= <-]&Hm)&_). by apply no_auth_method in Hm. }
  case_bool_decide as H5; simpl; [|naive_solver].
  do 2 case_bool_decide; simpl; naive_solver.
Qed.

Lemma validateSingleVault_spec v : validateSingleVault v = None ↔ valid_vault v.
Proof.
  unfold validateSingleVault, valid_vault.
  do 2 case_bool_decide; simpl; [naive_solver..| |naive_solver].
  case_bool_decide; [rewrite decide_True, validateToolVault_spec by done
                    |rewrite decide_False, validateHTTPVault_spec by done];
    destruct (decide (LegacyAuthMethod v = "")); naive_solver.
Qed.

Lemma unknown_target_spec l ids : unknown_target l ids = None ↔ Forall (λ t, t ∈ ids) l.
Proof.
  induction l as [|t l IH]; simpl; [by split|]. rewrite Forall_cons, <-IH.
  case_bool_decide; naive_solver.
Qed.

Lemma validateSync_spec s ids : validateSync s ids = None ↔ valid_sync ids s.
Proof.
  unfold validateSync, valid_sync. rewrite <-unknown_target_spec.
  case_bool_decide; [naive_solver|]. case_bool_decide; [naive_solver|].
  destruct (Targets s) as [|t l] eqn:Ht; [naive_solver|]. cbn [length Nat.eqb].
  case_bool_decide; cbn [negb]; [|naive_solver].
  destruct (unknown_target (t :: l) ids) eqn:Hu; [by split; [done|intros (_&_&_&_&?&_)]|].
  case_bool_decide as Hb; cbn [andb].
  - rewrite Hb. destruct l as [|t' l]; cbn [length Nat.eqb negb]; [|naive_solver].
    rewrite (bool_decide_eq_false_2 ("bidirectional" ≠ "bidirectional")) by naive_solver.
    rewrite andb_false_r. naive_solver.
  - case_bool_decide; simpl; [|naive_solver].
    rewrite bool_decide_eq_true_2 by done. naive_solver.
Qed.

Lemma validateSyncs_spec l ids : validateSyncs l ids = None ↔ Forall (valid_sync ids) l.
Proof.
  induction l as [|s l IH]; simpl; [by split|]. rewrite Forall_cons, <-IH, <-validateSync_spec.
  destruct (validateSync s ids); naive_solver.
Qed.

Lemma validateVaults_loop_spec l ids ids' :
  validateVaults_loop l ids = inl ids' ↔
    NoDup (vault_ids l) ∧ "" ∉ vault_ids l ∧ Forall (λ i, i ∉ ids) (vault_ids l) ∧
    Forall valid_vault l ∧ ids' = list_to_set (vault_ids l) ∪ ids.
Proof.
  revert ids. induction l as [|v l IH]; intros ids; simpl.
  { split; [intros [= <-]|intros (_&_&_&_&->); f_equal; set_solver].
    split_and!; [constructor|set_solver|done|done|set_solver]. }
  rewrite NoDup_cons, not_elem_of_cons, !Forall_cons, <-validateSingleVault_spec.
  case_bool_decide; [naive_solver|]. case_bool_decide; [naive_solver|].
  destruct (validateSingleVault v); [naive_solver|]. rewrite IH.
  rewrite !Forall_forall. split.
  - intros (?&?&Hids&?&->). split_and!; try done; set_solver.
  - intros ([??]&[??]&[? Hids]&[_ ?]&->). split_and!; try done; set_solver.
Qed.

Lemma Validate_valid c : Validate c = None ↔ valid_config c.
Proof.
  unfold Validate, valid_config, validateVaults.
  destruct (Vaults c) as [|v l] eqn:Hv; [naive_solver|]. cbn [length Nat.eqb]. rewrite <-Hv.
  destruct (validateVaults_loop (Vaults c) ∅) as [ids|e] eqn:E.
  - apply validateVaults_loop_spec in E as (?&?&_&?&->).
    rewrite validateSyncs_spec, union_empty_r_L. rewrite Hv at 2. naive_solver.
  - split; [done|]. intros (_&?&?&?&_).
    assert (validateVaults_loop (Vaults c) ∅ = inl (list_to_set (vault_ids (Vaults c)) ∪ ∅)) as H';
      [|by rewrite H' in E].
    apply validateVaults_loop_spec. split_and!; try done. apply Forall_true. set_solver.
Qed.

Lemma default_str_idem s d : default_str (default_str s d) d = default_str s d.
Proof. unfold default_str. repeat case_bool_decide; congruence. Qed.

Lemma default_Z_idem z d : default_Z (default_Z z d) d = default_Z z d.
Proof. unfold default_Z. destruct (Z.eqb_spec z 0); [by destruct (Z.eqb_spec d 0)|].
  by rewrite (proj2 (Z.eqb_neq z 0)). Qed.

Lemma headers_made_idem a : headers_made (headers_made a) = headers_made a.
Proof. unfold headers_made. destruct a as [m [h|] o]; done. Qed.
#[export] Hint Rewrite default_str_idem default_Z_idem headers_made_idem : syncer_simpl.

Lemma sync_defaults_idem s : sync_defaults (sync_defaults s) = sync_defaults s.
Proof.
  unfold sync_defaults. cbn. autorewrite with syncer_simpl.
  by destruct (float_is_zero (Multiplier (s_RetryPolicy s))) eqn:E; simpl; rewrite ?E.
Qed.

Lemma vault_defaults_idem v : vault_defaults (vault_defaults v) = vault_defaults v.
Proof.
  unfold vault_defaults. cbn. autorewrite with syncer_simpl.
  destruct (v_Auth v) as [a|]; simpl; by rewrite ?headers_made_idem.
Qed.

(** ** Properties *)

(** C39: [Validate] accepts exactly the valid configurations: unique non-empty
    vault IDs, every vault complete for its type, every sync between known
    vaults, bidirectional ones with exactly one target. *)
Theorem Validate_spec (c : Config) : Validate c = None ↔ valid_config c.
Proof. apply Validate_valid. Qed.

(** Applying the defaults twice is applying them once, and what they give
    always has a sync type, a retry policy with retries and back-offs that are
    not zero, and a method for every vault. *)
Theorem applyConfigDefaults_idempotent (c : Config) :
  let d := applyConfigDefaults c in
  applyConfigDefaults d = d ∧
  Forall (λ s, SyncType s ≠ "" ∧ MaxRetries (s_RetryPolicy s) ≠ 0%Z ∧
               InitialBackoff (s_RetryPolicy s) ≠ 0%Z ∧ MaxBackoff (s_RetryPolicy s) ≠ 0%Z ∧
               float_is_zero (Multiplier (s_RetryPolicy s)) = false) (Syncs d) ∧
  Forall (λ v, v_Method v ≠ "" ∧ v_Timeout v ≠ 0%Z ∧
               ∀ a, v_Auth v = Some a → auth_Headers a ≠ None) (Vaults d).
Proof.
  assert (HZ : ∀ z d, d ≠ 0%Z → default_Z z d ≠ 0%Z).
  { intros z d Hd. unfold default_Z. by destruct (Z.eqb_spec z 0). }
  assert (Hs : ∀ s d, d ≠ "" → default_str s d ≠ "").
  { intros s d Hd. unfold default_str. by case_bool_decide. }
  intros d. split_and!.
  - unfold d, applyConfigDefaults, applySyncDefaults, applyVaultDefaults,
      applyServerDefaults, applyLoggingDefaults. cbn.
    rewrite !map_map. autorewrite with syncer_simpl. f_equal; apply map_ext; intros.
    + apply vault_defaults_idem.
    + apply sync_defaults_idem.
  - apply Forall_map, Forall_true. intros s. cbn. split_and!; auto; [by apply HZ..|].
    by destruct (float_is_zero (Multiplier (s_RetryPolicy s))) eqn:E.
  - apply Forall_map, Forall_true. intros v. cbn. split_and!; [by apply Hs|by apply HZ|].
    intros a. destruct (v_Auth v) as [[m [h|] o]|]; naive_solver.
Qed.
