(* ===== verification/Effects.v ===== *)
(** * Effectful code as finite trees of calls

    A Go function that talks to vaults, the database, the clock or sleeps is a
    [prog]: the calls it makes, in order, each continued with the call's
    result.  [run] interprets the calls against a handler that threads a
    world; [rg] is the rely-guarantee judgement of a program that other
    goroutines interleave with.  Every [prog] is finite: a Go loop becomes one
    only when its bound is known. *)

From S2P Require Import Prelude.

Section effects.
Context {E : Type → Type}.

Inductive prog (A : Type) : Type :=
| Ret (a : A)
| Call {X : Type} (e : E X) (k : X → prog A).
#[global] Arguments Ret {A} a.
#[global] Arguments Call {A X} e k.

Fixpoint bind {A B} (p : prog A) (f : A → prog B) : prog B :=
  match p with
  | Ret a => f a
  | Call e k => Call e (λ x, bind (k x) f)
  end.

Definition call {X} (e : E X) : prog X := Call e Ret.
End effects.
Arguments prog : clear implicits.

Notation "'let*' x := p 'in' q" := (bind p (λ x, q))
  (at level 10, x pattern, p at level 100, q at level 200,
   format "'[v' 'let*'  x  :=  p  'in' '/' q ']'") : syncer_scope.
Notation "p ;* q" := (bind p (λ _, q))
  (at level 100, right associativity) : syncer_scope.

(** The others may do anything. *)
Definition anything {W : Type} (w w' : W) : Prop := True.
#[export] Instance anything_preorder {W} : PreOrder (@anything W).
Proof. by split. Qed.

(** ** Running a program alone *)

Section run.
Context {E : Type → Type} {W : Type}.
Variable h : ∀ X, E X → W → X * W.
Arguments h {X}.

Fixpoint run {A} (p : prog E A) (w : W) : A * W :=
  match p with
  | Ret a => (a, w)
  | Call e k => let '(x, w) := h e w in run (k x) w
  end.

Lemma run_bind {A B} (p : prog E A) (f : A → prog E B) w :
  run (bind p f) w = let '(a, w) := run p w in run (f a) w.
Proof.
  revert w. induction p as [a|X e k IH]; intros w; simpl; [done|].
  destruct (h e w) as [x w']. apply IH.
Qed.

Lemma run_call {X} (e : E X) w : run (call e) w = h e w.
Proof. simpl. by destruct (h e w). Qed.

(** *** What a program may call *)

(** Every call [p] can reach satisfies [P]; the calls before it had results
    the handler can give. *)
Fixpoint calls (P : ∀ X, E X → Prop) {A} (p : prog E A) : Prop :=
  match p with
  | Ret _ => True
  | Call e k => P _ e ∧ ∀ w, calls P (k (h e w).1)
  end.

Lemma calls_bind P {A B} (p : prog E A) (f : A → prog E B) :
  calls P p → (∀ a, calls P (f a)) → calls P (bind p f).
Proof.
  intros Hp Hf. induction p as [a|X e k IH]; simpl in *; [done|].
  destruct Hp as [He Hk]. split; [done|]. intros w. by apply IH.
Qed.

Lemma calls_call (P : ∀ X, E X → Prop) {X} (e : E X) : P X e → calls P (call e).
Proof. by split. Qed.

Lemma calls_mono (P Q : ∀ X, E X → Prop) {A} (p : prog E A) :
  (∀ X e, P X e → Q X e) → calls P p → calls Q p.
Proof.
  intros HPQ. induction p as [a|X e k IH]; simpl; [done|]. intros [He Hk]. split; auto.
Qed.

(** What every such call keeps, a run keeps. *)
Lemma calls_run (P : ∀ X, E X → Prop) (I : W → Prop) {A} (p : prog E A) w :
  (∀ X e w, P X e → I w → I (h e w).2) → calls P p → I w → I (run p w).2.
Proof.
  intros Hh. revert w. induction p as [a|X e k IH]; intros w; simpl; [done|].
  intros [He Hk] Hw. specialize (Hh X e w He Hw). specialize (Hk w).
  destruct (h e w) as [x w']. by apply IH.
Qed.

(** *** Rely and guarantee *)

(** Between any two calls the others may do [R]; each call of [p] is allowed
    by [G]; when [p] returns, its result and the world satisfy [Q]. *)
Fixpoint rg {A} (R G : W → W → Prop) (p : prog E A) (Q : A → W → Prop) (w : W) : Prop :=
  ∀ w1, R w w1 →
    match p with
    | Ret a => Q a w1
    | Call e k => let '(x, w2) := h e w1 in G w1 w2 ∧ rg R G (k x) Q w2
    end.

Lemma rg_rely {A} (R G : W → W → Prop) `{!Transitive R} (p : prog E A) Q w w' :
  rg R G p Q w → R w w' → rg R G p Q w'.
Proof.
  intros H HR. destruct p; simpl in *; intros w1 H1; apply H; by etrans.
Qed.

Lemma rg_bind {A B} (R G : W → W → Prop) (p : prog E A) (f : A → prog E B) P Q w :
  Reflexive R →
  rg R G p P w → (∀ a w', P a w' → rg R G (f a) Q w') → rg R G (bind p f) Q w.
Proof.
  intros HR. revert w. induction p as [a|X e k IH]; intros w H HQ.
  - cbn [bind]. destruct (f a) eqn:Hfa; simpl in *; intros w1 Hw1.
    + specialize (HQ a w1 (H w1 Hw1)). rewrite Hfa in HQ. by apply HQ.
    + specialize (HQ a w1 (H w1 Hw1)). rewrite Hfa in HQ. by apply HQ.
  - simpl in *. intros w1 Hw1. specialize (H w1 Hw1).
    destruct (h e w1) as [x w2]. destruct H as [HG H]. split; [done|]. by apply IH.
Qed.

Lemma rg_ret {A} (R G : W → W → Prop) (a : A) (Q : A → W → Prop) w :
  (∀ w1, R w w1 → Q a w1) → rg R G (Ret a) Q w.
Proof. done. Qed.

Lemma rg_call {X} (R G : W → W → Prop) (e : E X) (Q : X → W → Prop) w :
  (∀ w1 x w2, R w w1 → h e w1 = (x, w2) → G w1 w2 ∧ (∀ w3, R w2 w3 → Q x w3)) →
  rg R G (call e) Q w.
Proof.
  intros H. simpl. intros w1 Hw1. destruct (h e w1) as [x w2] eqn:He.
  by eapply H.
Qed.

Lemma rg_mono {A} (R G G' : W → W → Prop) (p : prog E A) (Q Q' : A → W → Prop) w :
  rg R G p Q w → (∀ w1 w2, G w1 w2 → G' w1 w2) → (∀ a w, Q a w → Q' a w) →
  rg R G' p Q' w.
Proof.
  intros H HG HQ. revert w H. induction p as [a|X e k IH]; intros w H; simpl in *.
  - eauto.
  - intros w1 Hw1. specialize (H w1 Hw1). destruct (h e w1) as [x w2].
    destruct H; split; auto.
Qed.

(** Running alone is running with others that do nothing. *)
Lemma rg_run {A} (R G : W → W → Prop) `{!Reflexive R} (p : prog E A) Q w a w' :
  rg R G p Q w → run p w = (a, w') → rtc G w w' ∧ Q a w'.
Proof.
  revert w. induction p as [b|X e k IH]; intros w H Hrun; simpl in *.
  - simplify_eq. split; [done|]. by apply H.
  - specialize (H w ltac:(done)). destruct (h e w) as [x w2]. destruct H as [HG H].
    destruct (IH _ _ H Hrun). split; [|done]. by econstructor.
Qed.
End run.
