(* ===== verification/Pool.v ===== *)
(** * Goroutines behind a semaphore

    The shape of [executeSyncUnidirectionalConcurrent] and
    [executeSyncBidirectionalConcurrent]: every job is a goroutine that waits
    for one of [limit] places of a buffered channel, runs, sends its result on
    a channel with room for all of them and gives the place back.  Scheduling
    is free: a step is any goroutine's.  The file shows that the places bound
    what runs at once, that the pool always reaches the end, that the
    rely-guarantee judgements of the jobs hold of every schedule, and that
    one schedule is the sequential run. *)

From S2P Require Import Prelude Effects.

Inductive goroutine (E : Type → Type) (A : Type) : Type :=
| Waiting (p : prog E A)    (* before [semaphore <- struct{}{}] *)
| Running (p : prog E A)
| Done (a : A).             (* the result sent, the place given back *)
Arguments Waiting {E A} p.
Arguments Running {E A} p.
Arguments Done {E A} a.

Section pool.
Context {E : Type → Type} {W A : Type}.
Variable h : ∀ X, E X → W → X * W.
Variable limit : nat.
Arguments h {X}.
Implicit Types (pool : list (goroutine E A)) (w : W).

Definition is_running (t : goroutine E A) : bool :=
  match t with Running _ => true | _ => false end.
Definition running pool : nat := length (List.filter is_running pool).

(** One step of a goroutine that has its place. *)
Definition advance (p : prog E A) (w : W) : goroutine E A * W :=
  match p with
  | Ret a => (Done a, w)
  | Call e k => let '(x, w) := h e w in (Running (k x), w)
  end.

Inductive pool_step : list (goroutine E A) * W → list (goroutine E A) * W → Prop :=
| step_acquire pool w i p :
    pool !! i = Some (Waiting p) → running pool < limit →
    pool_step (pool, w) (<[i := Running p]> pool, w)
| step_advance pool w i p t w' :
    pool !! i = Some (Running p) → advance p w = (t, w') →
    pool_step (pool, w) (<[i := t]> pool, w').

Definition spawn (jobs : list (prog E A)) : list (goroutine E A) := map Waiting jobs.

Definition result_of (t : goroutine E A) : option A :=
  match t with Done a => Some a | _ => None end.
(** All results are in: [results] is closed and the collecting loop ends. *)
Definition finished pool (rs : list A) : Prop := map result_of pool = map Some rs.

(** One goroutine after the other. *)
Fixpoint run_jobs (jobs : list (prog E A)) (w : W) : list A * W :=
  match jobs with
  | [] => ([], w)
  | p :: jobs =>
      let '(a, w) := run (@h) p w in
      let '(rs, w) := run_jobs jobs w in (a :: rs, w)
  end.

(** ** The places *)

Lemma running_insert pool i t t' :
  pool !! i = Some t →
  running (<[i := t']> pool) + Nat.b2n (is_running t)
    = running pool + Nat.b2n (is_running t').
Proof.
  revert i. induction pool as [|s pool IH]; intros [|i] Hi; simplify_eq/=.
  - unfold running; simpl. destruct (is_running t), (is_running t'); simpl; lia.
  - specialize (IH i Hi). unfold running in *; simpl.
    destruct (is_running s); simpl; lia.
Qed.

Lemma running_spawn jobs : running (spawn jobs) = 0.
Proof. by induction jobs. Qed.

Lemma running_bound jobs w c :
  rtc pool_step (spawn jobs, w) c → running c.1 ≤ limit.
Proof.
  intros H. remember (spawn jobs, w) as c0 eqn:Hc.
  assert (Hr : running c0.1 ≤ limit) by (subst; simpl; rewrite running_spawn; lia).
  clear Hc. induction H as [|c0 c1 c2 Hs _ IH]; [done|]. apply IH.
  destruct Hs as [pool w1 i p Hi Hlt|pool w1 i p t w2 Hi _]; simpl in *;
    match goal with |- context [<[i := ?t']> pool] =>
      pose proof (running_insert pool i _ t' Hi) as Hrun end;
    simpl in Hrun; [lia|]. destruct t; simpl in Hrun; lia.
Qed.

Lemma running_exists pool : running pool ≠ 0 → ∃ i p, pool !! i = Some (Running p).
Proof.
  induction pool as [|t pool IH]; [done|]. destruct t as [p|p|a]; intros Hr.
  - destruct (IH Hr) as (i&q&?). by exists (S i), q.
  - by exists 0, p.
  - destruct (IH Hr) as (i&q&?). by exists (S i), q.
Qed.

Lemma all_done pool :
  (∀ i t, pool !! i = Some t → ∃ a, t = Done a) → ∃ rs, finished pool rs.
Proof.
  induction pool as [|t pool IH]; intros H; [by exists []|].
  destruct (H 0 t eq_refl) as [a ->].
  destruct IH as [rs Hrs]; [intros i; apply (H (S i))|].
  exists (a :: rs). unfold finished in *; simpl. by rewrite Hrs.
Qed.

Lemma finished_lookup pool rs i a :
  finished pool rs → rs !! i = Some a → pool !! i = Some (Done a).
Proof.
  unfold finished. intros Hf Ha.
  assert (H : map result_of pool !! i = Some (Some a)).
  { by rewrite Hf, list_lookup_fmap, Ha. }
  rewrite list_lookup_fmap in H. destruct (pool !! i) as [t|]; [|done].
  destruct t; by simplify_eq/=.
Qed.

Lemma finished_length pool rs : finished pool rs → length rs = length pool.
Proof. intros H. apply (f_equal length) in H. by rewrite !length_map in H. Qed.

(** ** Progress and termination *)

Lemma pool_cases pool :
  (∀ i t, pool !! i = Some t → ∃ a, t = Done a) ∨
  (∃ i p, pool !! i = Some (Running p)) ∨ (∃ i p, pool !! i = Some (Waiting p)).
Proof.
  induction pool as [|t pool IH]; [by left|]. destruct t as [p|p|a].
  - right; right. by exists 0, p.
  - right; left. by exists 0, p.
  - destruct IH as [IH|[(i&p&?)|(i&p&?)]].
    + left. intros [|i] t; [intros [= <-]; by eexists|apply IH].
    + right; left. by exists (S i), p.
    + right; right. by exists (S i), p.
Qed.

Lemma pool_progress pool w :
  0 < limit → (∃ rs, finished pool rs) ∨ (∃ c, pool_step (pool, w) c).
Proof.
  intros Hlim.
  assert (Hrun : ∀ i p, pool !! i = Some (Running p) → ∃ c, pool_step (pool, w) c).
  { intros i p Hi. destruct (advance p w) as [t w'] eqn:Ha.
    eexists. by eapply step_advance. }
  destruct (pool_cases pool) as [Hd|[(i&p&Hi)|(i&p&Hi)]]; [left; by apply all_done|right; eauto|].
  right. destruct (decide (running pool < limit)) as [Hlt|Hge].
  - eexists. by eapply step_acquire.
  - destruct (running_exists pool) as (j&q&Hj); [lia|eauto].
Qed.

Inductive goroutine_step : goroutine E A → goroutine E A → Prop :=
| g_acquire p : goroutine_step (Waiting p) (Running p)
| g_call X (e : E X) k x : goroutine_step (Running (Call e k)) (Running (k x))
| g_return a : goroutine_step (Running (Ret a)) (Done a).

Lemma goroutine_sn t : Acc (flip goroutine_step) t.
Proof.
  assert (Hd : ∀ a, Acc (flip goroutine_step) (Done a)).
  { intros a. constructor. intros t' Ht. inversion Ht. }
  assert (Hr : ∀ p, Acc (flip goroutine_step) (Running p)).
  { induction p as [a|X e k IH]; constructor; intros t' Ht.
    - unfold flip in Ht.
      assert (t' = Done a) as ->; [|done].
      refine (match Ht in goroutine_step s s' return
        match s with Running (Ret b) => s' = Done b | _ => True end with
        | g_return _ => eq_refl | _ => I end).
    - unfold flip in Ht.
      assert (∃ x, t' = Running (k x)) as [x ->]; [|done].
      refine (match Ht in goroutine_step s s' return
        match s with Running (Call e k) => ∃ x, s' = Running (k x) | _ => True end with
        | g_call _ _ _ x => ex_intro _ x eq_refl | _ => I end). }
  destruct t as [p|p|a]; [|done|done]. constructor. intros t' Ht. unfold flip in Ht.
  inversion Ht; subst. apply Hr.
Qed.

Inductive one_moves : list (goroutine E A) → list (goroutine E A) → Prop :=
| moves_here t t' pool : goroutine_step t t' → one_moves (t :: pool) (t' :: pool)
| moves_there t pool pool' : one_moves pool pool' → one_moves (t :: pool) (t :: pool').

Lemma one_moves_insert pool i t t' :
  pool !! i = Some t → goroutine_step t t' → one_moves pool (<[i := t']> pool).
Proof.
  revert i. induction pool as [|s pool IH]; intros [|i] Hi Hs; simplify_eq/=.
  - by constructor.
  - constructor. by apply IH.
Qed.

Lemma one_moves_sn pool : Acc (flip one_moves) pool.
Proof.
  induction pool as [|t pool IH]; [constructor; intros p Hp; inversion Hp|].
  revert pool IH. induction (goroutine_sn t) as [t _ IHt]. intros pool IH.
  induction IH as [pool Hp IHp]. constructor. intros p' Hm. unfold flip in Hm.
  inversion Hm; subst; [by apply IHt; [|constructor]|by apply IHp].
Qed.

Lemma pool_step_moves c c' : pool_step c c' → one_moves c.1 c'.1.
Proof.
  destruct 1 as [pool w i p Hi Hlt|pool w i p t w' Hi Ha]; simpl.
  - by eapply one_moves_insert; [|constructor].
  - eapply one_moves_insert; [done|]. destruct p as [a|X e k]; simpl in Ha.
    + simplify_eq. constructor.
    + destruct (h e w). simplify_eq. constructor.
Qed.

(** Every schedule ends. *)
Lemma pool_terminates c : Acc (flip pool_step) c.
Proof.
  destruct c as [pool w]. revert w. induction (one_moves_sn pool) as [pool _ IH]. intros w.
  constructor. intros [pool' w'] Hs. apply IH. by apply (pool_step_moves _ _ Hs).
Qed.

Lemma pool_finishes c :
  0 < limit → ∃ c' rs, rtc pool_step c c' ∧ finished c'.1 rs.
Proof.
  intros Hlim. induction (pool_terminates c) as [[pool w] _ IH].
  destruct (pool_progress pool w Hlim) as [[rs Hrs]|[c' Hc']].
  - by exists (pool, w), rs.
  - destruct (IH c' Hc') as (c''&rs&?&?). exists c'', rs. split; [by econstructor|done].
Qed.

Lemma pool_length c c' : rtc pool_step c c' → length c'.1 = length c.1.
Proof.
  induction 1 as [|c0 c1 c2 Hs _ IH]; [done|]. rewrite IH.
  destruct Hs; simpl; by rewrite length_insert.
Qed.

(** ** Schedules as lists *)

(** The goroutine [i] makes its next step. *)
Definition step_at (i : nat) (c : list (goroutine E A) * W)
    : option (list (goroutine E A) * W) :=
  match c.1 !! i with
  | Some (Waiting p) =>
      if (running c.1 <? limit)%nat then Some (<[i := Running p]> c.1, c.2) else None
  | Some (Running p) => let '(t, w) := advance p c.2 in Some (<[i := t]> c.1, w)
  | _ => None
  end.
Fixpoint follow (schedule : list nat) (c : list (goroutine E A) * W)
    : option (list (goroutine E A) * W) :=
  match schedule with
  | [] => Some c
  | i :: schedule => step_at i c ≫= follow schedule
  end.

Lemma follow_steps schedule c c' : follow schedule c = Some c' → rtc pool_step c c'.
Proof.
  revert c. induction schedule as [|i l IH]; intros [pool w]; simpl; [by intros [= <-]|].
  intros ([pool1 w1]&Hs&Hl)%bind_Some. econstructor; [|by apply IH]. clear IH Hl.
  unfold step_at in Hs; simpl in Hs. destruct (pool !! i) as [[p|p|a]|] eqn:Hi; try done.
  - destruct (Nat.ltb_spec (running pool) limit); simplify_eq. by eapply step_acquire.
  - destruct (advance p w) as [t w2] eqn:Ha. simplify_eq. by eapply step_advance.
Qed.

Lemma follow_reaches schedule pool w (Q : list (goroutine E A) → W → Prop) :
  match follow schedule (pool, w) with Some c => Q c.1 c.2 | None => False end →
  ∃ pool' w', rtc pool_step (pool, w) (pool', w') ∧ Q pool' w'.
Proof.
  destruct (follow schedule (pool, w)) as [[pool' w']|] eqn:Hf; [|done].
  intros HQ. exists pool', w'. split; [by eapply follow_steps|done].
Qed.

(** ** The sequential schedule *)

Lemma run_one pool w i p a w' :
  0 < limit → running pool = 0 → pool !! i = Some (Waiting p) → run (@h) p w = (a, w') →
  rtc pool_step (pool, w) (<[i := Done a]> pool, w').
Proof.
  intros Hlim Hr Hi Hrun. eapply rtc_l; [apply step_acquire; [done|lia]|].
  assert (Hlt : i < length pool) by (by eapply lookup_lt_Some).
  rewrite <-(list_insert_insert_eq pool i (Done a) (Running p)).
  assert (Hi' : <[i := Running p]> pool !! i = Some (Running p)).
  { apply list_lookup_insert_Some. left. split_and!; done. }
  revert Hi'. generalize (<[i := Running p]> pool) as pool'. clear Hi Hr Hlt.
  revert w Hrun. induction p as [b|X e k IH]; intros w Hrun pool' Hi; simpl in Hrun.
  - simplify_eq. apply rtc_once. by eapply step_advance.
  - destruct (h e w) as [x w2] eqn:He.
    eapply rtc_l; [eapply step_advance; [done|by simpl; rewrite He]|].
    rewrite <-(list_insert_insert_eq pool' i (Done a) (Running (k x))).
    apply (IH x); [done|]. apply list_lookup_insert_Some. left.
    split_and!; [done..|by eapply lookup_lt_Some].
Qed.

Lemma run_jobs_schedule jobs w rs w' :
  0 < limit → run_jobs jobs w = (rs, w') →
  rtc pool_step (spawn jobs, w) (map Done rs, w').
Proof.
  intros Hlim.
  enough (∀ done, run_jobs jobs w = (rs, w') →
    rtc pool_step (map Done done ++ spawn jobs, w) (map Done done ++ map Done rs, w'))
    as H by apply (H []).
  revert w rs. induction jobs as [|p jobs IH]; intros w rs done Hrun; simpl in Hrun.
  - by simplify_eq.
  - destruct (run (@h) p w) as [a w2] eqn:Hp, (run_jobs jobs w2) as [rs2 w3] eqn:Hj.
    simplify_eq/=. etrans.
    + eapply (run_one _ _ (length done) p a w2); [done| | |done].
      * unfold running. rewrite List.filter_app, length_app.
        fold (running (map Done done)). change (Waiting p :: spawn jobs) with (spawn (p :: jobs)).
        fold (running (spawn (p :: jobs))). rewrite running_spawn.
        clear. induction done; simpl; [done|]. unfold running in *. by simpl.
      * rewrite lookup_app_r by (by rewrite length_map). by rewrite length_map, Nat.sub_diag.
    + rewrite insert_app_r_alt by (by rewrite length_map).
      rewrite length_map, Nat.sub_diag. simpl.
      specialize (IH w2 rs2 (done ++ [a]) Hj). rewrite !map_app, <-!app_assoc in IH. exact IH.
Qed.

Lemma finished_map_Done (rs : list A) : finished (map Done rs) rs.
Proof. unfold finished. rewrite map_map. done. Qed.

(** ** Invariants of the calls *)

(** What every call of the jobs keeps, every schedule keeps. *)
Lemma pool_calls (P : ∀ X, E X → Prop) (I : W → Prop) jobs w c :
  (∀ X (e : E X) w, P X e → I w → I (h e w).2) → Forall (calls (@h) P) jobs → I w →
  rtc pool_step (spawn jobs, w) c → I c.2.
Proof.
  intros Hh Hjobs Hw Hs.
  assert (Hpool : Forall (λ t, match t with
    | Waiting p | Running p => calls (@h) P p | Done _ => True end) (spawn jobs)).
  { unfold spawn. by apply Forall_map. }
  change w with (spawn jobs, w).2 in Hw. change (spawn jobs) with (spawn jobs, w).1 in Hpool.
  induction Hs as [c|c c1 c2 Hs _ IH]; [done|]. destruct Hs as [pool w1 i p Hi _|pool w1 i p t w2 Hi Ha];
    simpl in *; pose proof (Forall_lookup_1 _ _ _ _ Hpool Hi) as Hp; simpl in Hp.
  - apply IH; [done|]. by apply Forall_insert.
  - destruct p as [a|X e k]; simpl in *.
    + simplify_eq. apply IH; [done|]. by apply Forall_insert.
    + destruct Hp as [He Hk]. specialize (Hh X e w1 He Hw). specialize (Hk w1).
      destruct (h e w1) as [x w3]. simplify_eq. apply IH; [done|]. by apply Forall_insert.
Qed.

(** ** Rely-guarantee for the pool *)

Section guarantee.
Variables (R G : nat → W → W → Prop) (Q : nat → A → W → Prop).
Context `{HR : ∀ i, PreOrder (R i)}.
Hypothesis HG : ∀ i j w w', i ≠ j → G j w w' → R i w w'.

Definition goroutine_ok (i : nat) (t : goroutine E A) (w : W) : Prop :=
  match t with
  | Waiting p | Running p => rg (@h) (R i) (G i) p (Q i) w
  | Done a => ∀ w1, R i w w1 → Q i a w1
  end.

Lemma goroutine_ok_rely i t w w' : goroutine_ok i t w → R i w w' → goroutine_ok i t w'.
Proof.
  destruct t; simpl; intros H Hw;
    [by apply (rg_rely _ (R i) (G i) p _ w)..|].
  intros w1 ?. apply H. by etrans.
Qed.

Lemma pool_step_ok c c' :
  pool_step c c' →
  (∀ i t, c.1 !! i = Some t → goroutine_ok i t c.2) →
  (∀ i t, c'.1 !! i = Some t → goroutine_ok i t c'.2) ∧
  (c.2 = c'.2 ∨ ∃ i, G i c.2 c'.2).
Proof.
  destruct 1 as [pool w i p Hi Hlt|pool w i p t w' Hi Ha]; simpl; intros Hok.
  - split; [|by left]. intros j t. rewrite list_lookup_insert_Some.
    intros [(->&<-&_)|[_ Ht]]; [apply (Hok _ _ Hi)|by apply Hok].
  - specialize (Hok i) as Hoki. specialize (Hoki _ Hi). simpl in Hoki.
    assert (goroutine_ok i t w' ∧ (w = w' ∨ G i w w')) as [Ht Hw].
    { destruct p as [a|X e k]; simpl in Ha, Hoki.
      - simplify_eq. by split; [|left].
      - specialize (Hoki w ltac:(done)). destruct (h e w) as [x w2].
        simplify_eq. destruct Hoki. by split; [|right]. }
    split.
    + intros j t'. rewrite list_lookup_insert_Some.
      intros [(->&<-&_)|[Hij Ht']]; [done|].
      destruct Hw as [<-|Hw]; [by apply Hok|].
      eapply goroutine_ok_rely; [by apply Hok|]. by eapply HG.
    + destruct Hw; [by left|right]. by exists i.
Qed.

Lemma pool_steps_ok c c' :
  rtc pool_step c c' →
  (∀ i t, c.1 !! i = Some t → goroutine_ok i t c.2) →
  (∀ i t, c'.1 !! i = Some t → goroutine_ok i t c'.2) ∧
  rtc (λ w w', ∃ i, G i w w') c.2 c'.2.
Proof.
  induction 1 as [c|c0 c1 c2 Hs _ IH]; intros Hok; [by split|].
  destruct (pool_step_ok _ _ Hs Hok) as [Hok1 Hw]. destruct (IH Hok1) as [Hok2 Hw2].
  split; [done|]. destruct Hw as [->|Hw]; [done|]. by econstructor.
Qed.

(** In every schedule each job's result satisfies its postcondition. *)
Lemma pool_ok jobs w pool w' rs :
  (∀ i p, jobs !! i = Some p → rg (@h) (R i) (G i) p (Q i) w) →
  rtc pool_step (spawn jobs, w) (pool, w') → finished pool rs →
  length rs = length jobs ∧
  (∀ i a, rs !! i = Some a → Q i a w') ∧ rtc (λ w w', ∃ i, G i w w') w w'.
Proof.
  intros Hjobs Hs Hf. destruct (pool_steps_ok _ _ Hs) as [Hok Hw]; simpl in *.
  { intros i t. unfold spawn. rewrite list_lookup_fmap.
    destruct (jobs !! i) eqn:Hj; intros; simplify_eq/=. eauto. }
  split_and!; [|intros i a Hi|done].
  - rewrite (finished_length _ _ Hf). apply pool_length in Hs. simpl in Hs.
    rewrite Hs. apply length_map.
  - apply (Hok i _ (finished_lookup _ _ _ _ Hf Hi)). done.
Qed.
End guarantee.
End pool.
