(* ===== verification/Store.v ===== *)
(** * The sync store ([storage/store.go], [storage/db.go], [storage/settings_store.go])

    The tables are the rows the SQL of the source describes; each statement is
    one atomic call, so that statements of different goroutines interleave.
    The database driver is a parameter twice: [driver_error] says whether a
    driver refuses a statement for its placeholders, [fault] which statement
    fails for a reason of its own (a lost connection).  A statement that fails
    changes nothing; [RowsAffected], asked of the result of one that was carried
    out, is a call that may fail of its own.  The order of the rows of a query
    is that of its ORDER BY, and of ties whatever the class [RowOrder] says.
    Clocks are parameters too, read once per call. *)

From S2P Require Import Prelude GoLang Config Effects Pool.

(** ** Configuration of the database *)

Abbreviation DBType := string.
Definition DBTypeSQLite : DBType := "sqlite".
Definition DBTypePostgres : DBType := "postgres".
Definition DBTypeMSSQL : DBType := "mssql".

Record DBConfig := { db_Type : DBType; db_DSN : string; db_Path : string }.

Definition space_byte (a : ascii) : bool :=
  bool_decide (a ∈ [" "; "009"; "010"; "011"; "012"; "013"]%char).
Fixpoint drop_spaces (l : list ascii) : list ascii :=
  match l with a :: l' => if space_byte a then drop_spaces l' else l | [] => [] end.
(** [strings.TrimSpace] on ASCII. *)
Definition TrimSpace (s : string) : string :=
  String.string_of_list_ascii
    (reverse (drop_spaces (reverse (drop_spaces (String.list_ascii_of_string s))))).

Definition DBConfigFromEnv (getenv : string → string) : DBConfig :=
  let dbType := ToLower (TrimSpace (getenv "DB_TYPE")) in
  {| db_Type := if bool_decide (dbType = "") then DBTypeSQLite else dbType;
     db_DSN := getenv "DB_DSN";
     db_Path := if bool_decide (getenv "DB_PATH" ≠ "") then getenv "DB_PATH" else "sync.db" |}.

(** The [%q] verb on a string without characters to escape. *)
Definition quoted (s : string) : string :=
  String "034"%char (s +:+ String "034"%char EmptyString).

(** [openDB]: the driver and the data source name given to [sql.Open]. *)
Definition openDB (cfg : DBConfig) : result (string * string) :=
  if bool_decide (db_Type cfg = DBTypeSQLite) then
    let dsn := if bool_decide (db_Path cfg = "") then "sync.db" else db_Path cfg in
    inl ("sqlite3", dsn +:+ "?_journal_mode=WAL&_foreign_keys=on")
  else if bool_decide (db_Type cfg = DBTypePostgres) then
    if bool_decide (db_DSN cfg = "") then
      inr "storage: DB_DSN is required for postgres backend"
    else inl ("postgres", db_DSN cfg)
  else if bool_decide (db_Type cfg = DBTypeMSSQL) then
    if bool_decide (db_DSN cfg = "") then
      inr "storage: DB_DSN is required for mssql backend"
    else inl ("sqlserver", db_DSN cfg)
  else inr ("storage: unsupported DB_TYPE " +:+ quoted (db_Type cfg)
            +:+ "; must be sqlite, postgres, or mssql").

Definition placeholder (dbType : DBType) (n : Z) : string :=
  if bool_decide (dbType = DBTypePostgres) then "$" +:+ itoa n
  else if bool_decide (dbType = DBTypeMSSQL) then "@p" +:+ itoa n
  else "?".

Definition placeholders (dbType : DBType) (start : Z) (count : nat) : string :=
  String.concat ", " (map (λ i, placeholder dbType (start + Z.of_nat i)) (seq 0 count)).

(** ** Rows *)

Record SyncObject := {
  so_ID : Z; SyncID : string; SourceVaultID : string; TargetVaultID : string;
  SecretName : string; ExternalID : string; SourceChecksum : string;
  TargetChecksum : string; LastSyncTime : Z; LastSyncStatus : string;
  LastSyncError : string; SyncCount : Z; FailureCount : Z; DirectionLast : string }.

(** The columns of the UNIQUE constraint. *)
Definition key : Type := string * string * string * string.
Definition key_of (o : SyncObject) : key :=
  (SyncID o, SourceVaultID o, TargetVaultID o, SecretName o).

Definition with_ID (i : Z) (o : SyncObject) : SyncObject :=
  {| so_ID := i; SyncID := SyncID o; SourceVaultID := SourceVaultID o;
     TargetVaultID := TargetVaultID o; SecretName := SecretName o;
     ExternalID := ExternalID o; SourceChecksum := SourceChecksum o;
     TargetChecksum := TargetChecksum o; LastSyncTime := LastSyncTime o;
     LastSyncStatus := LastSyncStatus o; LastSyncError := LastSyncError o;
     SyncCount := SyncCount o; FailureCount := FailureCount o;
     DirectionLast := DirectionLast o |}.

Record object_row := { row_obj : SyncObject; updated_at : Z }.

Record SyncRun := {
  r_ID : Z; r_SyncID : string; r_Status : string; TotalSynced : Z; TotalFailed : Z;
  DurationMs : Z; ErrorMessage : string; CreatedAt : Z }.

Record history_row := {
  sync_object_id : Z; h_sync_type : string; h_status : string; h_error : string;
  h_duration : Z; h_created_at : Z }.

Record setting_row := { set_value : string; set_created : Z; set_updated : Z }.

(** The tables, the dialect of the store, and how many statements and clock
    readings there have been. *)
Record store := {
  dbType : DBType; sync_objects : list object_row; next_object : Z;
  syncs_run : list SyncRun; sync_history : list history_row;
  app_settings : gmap string setting_row; stmts : nat; ticks : nat }.

Definition with_objects (s : store) (l : list object_row) (n : Z) : store :=
  {| dbType := dbType s; sync_objects := l; next_object := n; syncs_run := syncs_run s;
     sync_history := sync_history s; app_settings := app_settings s;
     stmts := stmts s; ticks := ticks s |}.
Definition with_runs (s : store) (l : list SyncRun) : store :=
  {| dbType := dbType s; sync_objects := sync_objects s; next_object := next_object s;
     syncs_run := l; sync_history := sync_history s; app_settings := app_settings s;
     stmts := stmts s; ticks := ticks s |}.
Definition with_history (s : store) (l : list history_row) : store :=
  {| dbType := dbType s; sync_objects := sync_objects s; next_object := next_object s;
     syncs_run := syncs_run s; sync_history := l; app_settings := app_settings s;
     stmts := stmts s; ticks := ticks s |}.
Definition with_settings (s : store) (m : gmap string setting_row) : store :=
  {| dbType := dbType s; sync_objects := sync_objects s; next_object := next_object s;
     syncs_run := syncs_run s; sync_history := sync_history s; app_settings := m;
     stmts := stmts s; ticks := ticks s |}.
Definition counted (s : store) : store :=
  {| dbType := dbType s; sync_objects := sync_objects s; next_object := next_object s;
     syncs_run := syncs_run s; sync_history := sync_history s;
     app_settings := app_settings s; stmts := S (stmts s); ticks := ticks s |}.
Definition ticked (s : store) : store :=
  {| dbType := dbType s; sync_objects := sync_objects s; next_object := next_object s;
     syncs_run := syncs_run s; sync_history := sync_history s;
     app_settings := app_settings s; stmts := stmts s; ticks := S (ticks s) |}.

(** ** Calls *)

(** A statement carries its first placeholder, the part of its text that
    drivers differ on. *)
Inductive StoreE : Type → Type :=
| Now : StoreE Z    (* time.Now, in nanoseconds *)
| ExecUpdateObject (ph : string) (obj : SyncObject) (now : Z) : StoreE (result Z)
| RowsAffected (n : Z) : StoreE (result Z)    (* asked of the result of an UPDATE of [n] rows *)
| ExecInsertObject (ph : string) (obj : SyncObject) (now : Z) : StoreE (option error)
| QueryObject (ph : string) (k : key) : StoreE (result (option SyncObject))
| QueryObjectsBySync (ph : string) (syncID : string) : StoreE (result (list SyncObject))
| ExecInsertHistory (ph : string) (row : history_row) : StoreE (option error)
| ExecInsertRun (ph : string) (run : SyncRun) : StoreE (option error)
| QueryRuns (ph : string) (syncID : string) (limit : Z) : StoreE (result (list SyncRun))
| ExecUpdateSetting (ph : string) (k value : string) (now : Z) : StoreE (result Z)
| ExecInsertSetting (ph : string) (k value : string) (now : Z) : StoreE (option error)
| QuerySetting (ph : string) (k : string) : StoreE (result (option string)).

(** *** What the statements do to the tables *)

(** UPDATE sync_objects SET ... WHERE key: the id and the key stay. *)
Definition update_row (obj : SyncObject) (now : Z) (r : object_row) : object_row :=
  if bool_decide (key_of (row_obj r) = key_of obj)
  then {| row_obj := with_ID (so_ID (row_obj r)) obj; updated_at := now |} else r.
Definition matching (k : key) (l : list object_row) : list object_row :=
  List.filter (λ r, bool_decide (key_of (row_obj r) = k)) l.

(** ORDER BY.  The order of rows of the same time is the database's choice,
    and so a parameter. *)
Class RowOrder := sort_rows : ∀ {A : Type}, (A → Z) → list A → list A.
Class RowOrderLaws `{RowOrder} : Prop := {
  sort_rows_perm {A} (time : A → Z) l : sort_rows time l ≡ₚ l;
  sort_rows_sorted {A} (time : A → Z) l :
    StronglySorted (λ a b, (time a ≤ time b)%Z) (sort_rows time l) }.
Arguments RowOrderLaws : clear implicits.
Arguments RowOrderLaws {_}.
(** A database that leaves rows that were inserted in the order of their times
    as they are (SQLite scans a table in the order of its row ids, and its
    sorter is stable). *)
Class InsertionOrder `{RowOrder} : Prop :=
  sort_rows_id : ∀ {A} (time : A → Z) (l : list A),
    StronglySorted (λ a b, (time a ≤ time b)%Z) l → sort_rows time l = l.
Arguments InsertionOrder {_}.

(** ORDER BY time DESC. *)
Definition later {A} (time : A → Z) (a b : A) : Prop := (time b ≤ time a)%Z.
Definition latest_first `{RowOrder} {A} (time : A → Z) (l : list A) : list A :=
  sort_rows (λ a, - time a)%Z l.

(** A stable sort is one choice. *)
Definition no_later {A} (time : A → Z) (a b : A) : Prop := (time a ≤ time b)%Z.
Fixpoint insert_by {A} (time : A → Z) (r : A) (l : list A) : list A :=
  match l with
  | [] => [r]
  | x :: l' => if (time r <=? time x)%Z then r :: l else x :: insert_by time r l'
  end.
Definition stable_order : RowOrder := λ A time l, foldr (insert_by time) [] l.

Lemma insert_by_perm {A} (time : A → Z) r l : insert_by time r l ≡ₚ r :: l.
Proof.
  induction l as [|x l IH]; simpl; [done|]. destruct (_ <=? _)%Z; [done|].
  rewrite IH. constructor.
Qed.
Lemma insert_by_sorted {A} (time : A → Z) r l :
  StronglySorted (no_later time) l → StronglySorted (no_later time) (insert_by time r l).
Proof.
  induction 1 as [|x l Hl IH Hx]; simpl; [repeat constructor|].
  destruct (Z.leb_spec (time r) (time x)) as [Hr|Hr].
  - constructor; [by constructor|]. constructor; [done|].
    eapply Forall_impl; [done|]. intros y. unfold no_later. lia.
  - constructor; [done|]. rewrite insert_by_perm. constructor; [unfold no_later; lia|done].
Qed.
Lemma stable_order_laws : @RowOrderLaws stable_order.
Proof.
  split; intros A time l; unfold sort_rows, stable_order.
  - induction l as [|x l IH]; simpl; [done|]. by rewrite insert_by_perm, IH.
  - induction l as [|x l IH]; simpl; [constructor|]. by apply insert_by_sorted.
Qed.
Lemma stable_order_insertion : @InsertionOrder stable_order.
Proof.
  intros A time l. unfold sort_rows, stable_order.
  induction 1 as [|x l _ IH Hx]; simpl; [done|]. rewrite IH.
  destruct Hx as [|y l Hy _]; [done|]. simpl. by rewrite (proj2 (Z.leb_le _ _) Hy).
Qed.

Definition unique_violation : error := "UNIQUE constraint failed".
Definition foreign_key_violation : error := "FOREIGN KEY constraint failed".

Section handler.
Context {order : RowOrder}.
Variable driver_error : DBType → string → option error.
Variable fault : nat → option error.
Variables clock db_clock : nat → Z.

Definition refused (s : store) (ph : string) : option error :=
  match driver_error (dbType s) ph with
  | Some e => Some e
  | None => fault (stmts s)
  end.

(** A statement that returns rows or a count, and one that only succeeds. *)
Definition query {A} (s : store) (ph : string) (f : result A * store) : result A * store :=
  match refused s ph with Some e => (inr e, counted s) | None => (f.1, counted f.2) end.
Definition exec (s : store) (ph : string) (f : option error * store) : option error * store :=
  match refused s ph with Some e => (Some e, counted s) | None => (f.1, counted f.2) end.

Definition created (run : SyncRun) (i t : Z) : SyncRun :=
  {| r_ID := i; r_SyncID := r_SyncID run; r_Status := r_Status run;
     TotalSynced := TotalSynced run; TotalFailed := TotalFailed run;
     DurationMs := DurationMs run; ErrorMessage := ErrorMessage run; CreatedAt := t |}.

Definition store_handle X (e : StoreE X) : store → X * store :=
  match e in StoreE X return store → X * store with
  | Now => λ s, (clock (ticks s), ticked s)
  | ExecUpdateObject ph obj now => λ s, query s ph
      (inl (Z.of_nat (length (matching (key_of obj) (sync_objects s)))),
       with_objects s (map (update_row obj now) (sync_objects s)) (next_object s))
  | RowsAffected n => λ s,
      (match fault (stmts s) with Some e => inr e | None => inl n end, counted s)
  | ExecInsertObject ph obj now => λ s, exec s ph
      (if bool_decide (matching (key_of obj) (sync_objects s) = []) then
         (None, with_objects s (sync_objects s ++
            [{| row_obj := with_ID (next_object s) obj; updated_at := now |}])
            (next_object s + 1))
       else (Some unique_violation, s))
  | QueryObject ph k => λ s, query s ph
      (inl (row_obj <$> head (matching k (sync_objects s))), s)
  | QueryObjectsBySync ph syncID => λ s, query s ph
      (inl (map row_obj (latest_first updated_at
         (List.filter (λ r, bool_decide (SyncID (row_obj r) = syncID)) (sync_objects s)))), s)
  | ExecInsertHistory ph row => λ s, exec s ph
      (if existsb (λ r, (so_ID (row_obj r) =? sync_object_id row)%Z) (sync_objects s)
       then (None, with_history s (sync_history s ++ [row]))
       else (Some foreign_key_violation, s))
  | ExecInsertRun ph run => λ s, exec s ph
      (None, with_runs s (syncs_run s ++
         [created run (Z.of_nat (length (syncs_run s)) + 1) (db_clock (stmts s))]))
  | QueryRuns ph syncID limit => λ s, query s ph
      (inl (take (Z.to_nat limit) (latest_first CreatedAt
         (List.filter (λ r, bool_decide (r_SyncID r = syncID)) (syncs_run s)))), s)
  | ExecUpdateSetting ph k value now => λ s, query s ph
      match app_settings s !! k with
      | Some row => (inl 1%Z, with_settings s (<[k := {| set_value := value;
          set_created := set_created row; set_updated := now |}]> (app_settings s)))
      | None => (inl 0%Z, s)
      end
  | ExecInsertSetting ph k value now => λ s, exec s ph
      match app_settings s !! k with
      | Some _ => (Some unique_violation, s)
      | None => (None, with_settings s (<[k := {| set_value := value;
          set_created := now; set_updated := now |}]> (app_settings s)))
      end
  | QuerySetting ph k => λ s, query s ph (inl (set_value <$> app_settings s !! k), s)
  end.
End handler.

(** ** The operations *)

Definition Unix (ns : Z) : Z := (ns / 10 ^ 9)%Z.

#[local] Open Scope syncer_scope.

(** The sync-object statements are written with '?', whatever the dialect. *)
Definition UpsertSyncObject (obj : SyncObject) : prog StoreE (option error) :=
  let* t := call Now in
  let now := Unix t in
  let* res := call (ExecUpdateObject "?" obj now) in
  match res with
  | inr err => Ret (Some err)
  | inl affected =>
      let* n := call (RowsAffected affected) in
      match n with
      | inr err => Ret (Some err)
      | inl n => if (n =? 0)%Z then call (ExecInsertObject "?" obj now) else Ret None
      end
  end.

(** [nil, nil] when there is no row. *)
Definition GetSyncObject (syncID sourceVaultID targetVaultID secretName : string)
    : prog StoreE (result (option SyncObject)) :=
  call (QueryObject "?" (syncID, sourceVaultID, targetVaultID, secretName)).

Definition GetSyncObjectsBySync (syncID : string) : prog StoreE (result (list SyncObject)) :=
  call (QueryObjectsBySync "?" syncID).

Definition RecordSyncHistory (syncObjectID : Z) (syncType status errorMsg : string)
    (durationMs : Z) : prog StoreE (option error) :=
  call (ExecInsertHistory "?" {| sync_object_id := syncObjectID; h_sync_type := syncType;
    h_status := status; h_error := errorMsg; h_duration := durationMs; h_created_at := 0 |}).

Definition RecordSyncRun (syncID status : string) (totalSynced totalFailed durationMs : Z)
    (errorMsg : string) : prog StoreE (option error) :=
  call (ExecInsertRun "?" {| r_ID := 0; r_SyncID := syncID; r_Status := status;
    TotalSynced := totalSynced; TotalFailed := totalFailed; DurationMs := durationMs;
    ErrorMessage := errorMsg; CreatedAt := 0 |}).

Definition GetSyncRuns (dbType : DBType) (syncID : string) (limit : Z)
    : prog StoreE (result (list SyncRun)) :=
  let limit := if (limit <=? 0)%Z then 100%Z else limit in
  call (QueryRuns (placeholder dbType 1) syncID limit).

Definition SetSetting (dbType : DBType) (k value : string) : prog StoreE (option error) :=
  let* t := call Now in
  let now := Unix t in
  let* res := call (ExecUpdateSetting (placeholder dbType 1) k value now) in
  match res with
  | inr err => Ret (Some ("storage: SetSetting update: " +:+ err))
  | inl affected =>
      let* n := call (RowsAffected affected) in
      match n with
      | inr err => Ret (Some ("storage: SetSetting rowsAffected: " +:+ err))
      | inl n =>
          if (n =? 0)%Z then
            let* e := call (ExecInsertSetting (placeholder dbType 1) k value now) in
            Ret (match e with
                 | Some err => Some ("storage: SetSetting insert: " +:+ err)
                 | None => None
                 end)
          else Ret None
      end
  end.

Definition GetSetting (dbType : DBType) (k : string) : prog StoreE (result (option string)) :=
  let* r := call (QuerySetting (placeholder dbType 1) k) in
  Ret (match r with inr err => inr ("storage: GetSetting: " +:+ err) | inl v => inl v end).

Definition IsSetupComplete (dbType : DBType) : prog StoreE (result bool) :=
  let* r := GetSetting dbType "setup_complete" in
  Ret (match r with inr err => inr err | inl v => inl (bool_decide (v ≠ None)) end).

Definition MarkSetupComplete (dbType : DBType) : prog StoreE (option error) :=
  SetSetting dbType "setup_complete" "true".

#[local] Close Scope syncer_scope.

(** ** The table of sync objects *)

#[local] Arguments key_of : simpl never.

Definition row_key (r : object_row) : key := key_of (row_obj r).
Definition row_id (r : object_row) : Z := so_ID (row_obj r).

(** One row per key, one per id, ids below the next one. *)
Definition store_ok (s : store) : Prop :=
  NoDup (map row_key (sync_objects s)) ∧ NoDup (map row_id (sync_objects s)) ∧
  Forall (λ r, (row_id r < next_object s)%Z) (sync_objects s).

Definition lookup_object (s : store) (k : key) : option SyncObject :=
  row_obj <$> head (matching k (sync_objects s)).

Definition empty_store (t : DBType) : store :=
  {| dbType := t; sync_objects := []; next_object := 1; syncs_run := []; sync_history := [];
     app_settings := ∅; stmts := 0; ticks := 0 |}.

Lemma update_row_key obj now r : row_key (update_row obj now r) = row_key r.
Proof. unfold update_row, row_key. case_bool_decide; simpl; [by destruct obj|done]. Qed.

Lemma update_row_id obj now r : row_id (update_row obj now r) = row_id r.
Proof. unfold update_row, row_id. by case_bool_decide. Qed.

Lemma key_of_with_ID i o : key_of (with_ID i o) = key_of o.
Proof. done. Qed.
#[export] Hint Rewrite update_row_key update_row_id key_of_with_ID : syncer_simpl.

Lemma matching_app k l1 l2 : matching k (l1 ++ l2) = matching k l1 ++ matching k l2.
Proof. apply List.filter_app. Qed.

Lemma matching_update k obj now l :
  matching k (map (update_row obj now) l) =
    (if bool_decide (k = key_of obj) then map (update_row obj now) (matching k l)
     else matching k l).
Proof.
  induction l as [|r l IH]; [by case_bool_decide|]. simpl.
  pose proof (update_row_key obj now r) as Hk. unfold row_key in Hk. rewrite Hk, IH.
  destruct (bool_decide_reflect (key_of (row_obj r) = k)) as [<-|Hne];
    case_bool_decide as He; try done.
  unfold update_row at 1. by rewrite bool_decide_eq_false_2.
Qed.

Lemma matching_nil_not_elem k l : matching k l = [] ↔ k ∉ map row_key l.
Proof.
  induction l as [|r l IH]; simpl; [split; [intros _; apply not_elem_of_nil|done]|].
  rewrite not_elem_of_cons. unfold row_key at 1.
  case_bool_decide; [split; [done|intros [??]; congruence]|].
  rewrite IH. split; [intros; split; [congruence|done]|by intros [??]].
Qed.

Lemma map_update_keys obj now l : map row_key (map (update_row obj now) l) = map row_key l.
Proof. rewrite map_map. apply map_ext, update_row_key. Qed.
Lemma map_update_ids obj now l : map row_id (map (update_row obj now) l) = map row_id l.
Proof. rewrite map_map. apply map_ext, update_row_id. Qed.

Section operations.
Context {order : RowOrder}.
Variable driver_error : DBType → string → option error.
Variable fault : nat → option error.
Variables clock db_clock : nat → Z.
Abbreviation handle := (store_handle driver_error fault clock db_clock).
Abbreviation run_store := (run handle).

Lemma store_handle_ok X (e : StoreE X) s : store_ok s → store_ok (handle X e s).2.
Proof.
  intros (Hk&Hi&Hn). destruct e; simpl; [done| |done|..|try done];
    unfold query, exec; destruct (refused _ _ s ph); try done.
  - unfold store_ok; simpl. rewrite map_update_keys, map_update_ids. split_and!; [done..|].
    apply Forall_map. eapply Forall_impl; [done|]. intros r. simpl. by rewrite update_row_id.
  - case_bool_decide as Hm; [|done]. unfold store_ok; simpl. rewrite !map_app. simpl.
    apply matching_nil_not_elem in Hm. split_and!.
    + apply NoDup_app. split_and!; [done| |apply NoDup_singleton].
      intros k Hx Hk'. apply list_elem_of_singleton in Hk' as ->. exact (Hm Hx).
    + apply NoDup_app. split_and!; [done| |apply NoDup_singleton].
      intros j Hx Hj. apply list_elem_of_singleton in Hj as ->.
      apply list_elem_of_fmap in Hx as (r&Hr&Hx). rewrite Forall_forall in Hn.
      specialize (Hn r Hx). unfold row_id in *. simpl in Hr. lia.
    + apply Forall_app. split; [|repeat constructor; unfold row_id; simpl; lia].
      eapply Forall_impl; [done|]. simpl. lia.
  - by destruct (existsb _ _).
  - by destruct (app_settings s !! k).
  - by destruct (app_settings s !! k).
Qed.

(** What a call leaves of the sync objects. *)
Lemma update_lookup ph obj now s n s' k :
  handle _ (ExecUpdateObject ph obj now) s = (inl n, s') →
  n = Z.of_nat (length (matching (key_of obj) (sync_objects s))) ∧
  lookup_object s' k =
    (if bool_decide (k = key_of obj) then (λ o, with_ID (so_ID o) obj) <$> lookup_object s k
     else lookup_object s k).
Proof.
  simpl. unfold query. destruct (refused _ _ s ph); [done|]. intros [= <- <-].
  split; [done|]. unfold lookup_object; simpl. rewrite matching_update.
  case_bool_decide as Hk; [|done]. destruct (matching k _) as [|r l] eqn:Hm; [done|].
  simpl. assert (key_of (row_obj r) = k) as Hr.
  { assert (r ∈ matching k (sync_objects s)) as Hin by (rewrite Hm; apply list_elem_of_here).
    apply list_elem_of_In, List.filter_In in Hin as [_ ?]. by bool_clean. }
  unfold update_row. by rewrite bool_decide_eq_true_2 by congruence.
Qed.

Lemma insert_lookup ph obj now s s' k :
  handle _ (ExecInsertObject ph obj now) s = (None, s') →
  matching (key_of obj) (sync_objects s) = [] ∧
  lookup_object s' k =
    (if bool_decide (k = key_of obj) then Some (with_ID (next_object s) obj)
     else lookup_object s k).
Proof.
  simpl. unfold exec. destruct (refused _ _ s ph); [done|].
  destruct (bool_decide_reflect (matching (key_of obj) (sync_objects s) = [])) as [Hm|];
    [|by intros [=]].
  intros [= <-]. split; [done|]. unfold lookup_object; simpl.
  rewrite matching_app. simpl. rewrite key_of_with_ID.
  destruct (bool_decide_reflect (k = key_of obj)) as [->|Hk].
  - rewrite Hm. by rewrite bool_decide_eq_true_2.
  - rewrite bool_decide_eq_false_2 by congruence. by rewrite app_nil_r.
Qed.

(** The tables but for the sync objects. *)
Definition same_other_tables (s s' : store) : Prop :=
  dbType s = dbType s' ∧ syncs_run s = syncs_run s' ∧ sync_history s = sync_history s' ∧
  app_settings s = app_settings s'.

#[global] Instance same_other_tables_preorder : PreOrder same_other_tables.
Proof. split; [done|]. intros ??? (?&?&?&?) (?&?&?&?). split_and!; by etrans. Qed.

Lemma matching_nil_lookup s k : matching k (sync_objects s) = [] ↔ lookup_object s k = None.
Proof. unfold lookup_object. by destruct (matching k (sync_objects s)). Qed.

(** The object a key maps to after an upsert of [obj]. *)
Definition upserted (s : store) (obj : SyncObject) : SyncObject :=
  with_ID (from_option so_ID (next_object s) (lookup_object s (key_of obj))) obj.

Lemma update_tables ph obj now s r s' :
  handle _ (ExecUpdateObject ph obj now) s = (r, s') →
  same_other_tables s s' ∧ next_object s' = next_object s ∧ stmts s' = S (stmts s) ∧
  ((∃ e, r = inr e) ∨ matching (key_of obj) (sync_objects s) = [] →
   sync_objects s' = sync_objects s).
Proof.
  simpl. unfold query. destruct (refused _ _ s ph); intros [= <- <-]; simpl; [done|].
  split_and!; [done..|]. intros [[? ?]|Hm]; [done|].
  apply matching_nil_not_elem in Hm. induction (sync_objects s) as [|x l IH]; [done|].
  simpl in *. apply not_elem_of_cons in Hm as [Hx Hm]. rewrite IH by done. f_equal.
  unfold update_row. by rewrite bool_decide_eq_false_2 by (unfold row_key in Hx; congruence).
Qed.

Lemma insert_tables ph obj now s r s' :
  handle _ (ExecInsertObject ph obj now) s = (r, s') →
  same_other_tables s s' ∧
  (r ≠ None → sync_objects s' = sync_objects s ∧ next_object s' = next_object s).
Proof.
  simpl. unfold exec. destruct (refused _ _ s ph); [by intros [= <- <-]|].
  case_bool_decide; by intros [= <- <-].
Qed.

Definition updated (s s' : store) (obj : SyncObject) : Prop :=
  ∀ k, lookup_object s' k =
    (if bool_decide (k = key_of obj) then Some (upserted s obj) else lookup_object s k).

Lemma upsert_run obj s r s' :
  run_store (UpsertSyncObject obj) s = (r, s') →
  same_other_tables s s' ∧
  match r with
  | None => updated s s' obj
  | Some _ =>
      (∀ k, lookup_object s' k = lookup_object s k) ∨
      is_Some (lookup_object s (key_of obj)) ∧ r = fault (S (stmts s)) ∧ updated s s' obj
  end.
Proof.
  unfold UpsertSyncObject, updated. cbn [bind call run].
  change (handle Z Now s) with (clock (ticks s), ticked s). cbn -[store_handle Z.eqb].
  set (now := Unix (clock (ticks s))).
  destruct (handle _ (ExecUpdateObject "?" obj now) (ticked s)) as [u s2] eqn:Hu.
  destruct (update_tables _ _ _ _ _ _ Hu) as (Hsame&Hnext&Hstmts&Hkeep).
  change (same_other_tables s s2) in Hsame. change (next_object s2 = next_object s) in Hnext.
  change (stmts s2 = S (stmts s)) in Hstmts.
  change (sync_objects (ticked s)) with (sync_objects s) in Hkeep.
  destruct u as [n|e]; [|intros [= <- <-]; split; [done|]; left; intros k; unfold lookup_object;
    rewrite Hkeep; [done|left; by eexists]].
  pose proof (λ k, update_lookup _ _ _ _ _ _ k Hu) as Hl.
  change (lookup_object (ticked s)) with (lookup_object s) in Hl.
  change (sync_objects (ticked s)) with (sync_objects s) in Hl.
  destruct (Hl (key_of obj)) as [Hn _]. unfold upserted.
  assert (Hup : is_Some (lookup_object s (key_of obj)) → ∀ k, lookup_object s2 k =
    (if bool_decide (k = key_of obj) then
       Some (with_ID (from_option so_ID (next_object s) (lookup_object s (key_of obj))) obj)
     else lookup_object s k)).
  { intros [o Ho] k. destruct (Hl k) as [_ ->]. case_bool_decide as Hk; [subst k|done].
    by rewrite Ho. }
  cbn [bind call run]. change (handle _ (RowsAffected n) s2) with
    (match fault (stmts s2) with Some e => inr e | None => inl n end, counted s2).
  rewrite Hstmts. destruct (fault (S (stmts s))) as [e|] eqn:Hf.
  { intros [= <- <-]. split; [done|].
    destruct (lookup_object s (key_of obj)) as [o|] eqn:Ho.
    - right. split_and!; [by eexists|done|]. by apply Hup.
    - left. intros k. unfold lookup_object. simpl. rewrite Hkeep; [done|]. right.
      by apply matching_nil_lookup. }
  destruct (Z.eqb_spec n 0) as [->|Hn0].
  - assert (Hm : matching (key_of obj) (sync_objects s) = []).
    { apply length_zero_iff_nil. lia. }
    rewrite (proj1 (matching_nil_lookup s (key_of obj)) Hm). cbn -[store_handle].
    rewrite <-Hnext.
    destruct (handle _ (ExecInsertObject "?" obj now) (counted s2)) as [o s3] eqn:Hi.
    destruct (insert_tables _ _ _ _ _ _ Hi) as [Hsame' Hkeep'].
    change (same_other_tables s2 s3) in Hsame'.
    intros [= <- <-]. split; [by etrans|]. destruct o as [e|].
    + left. destruct Hkeep' as [Ho' _]; [done|]. intros k. unfold lookup_object.
      rewrite Ho'. simpl. rewrite Hkeep; [done|by right].
    + intros k. destruct (insert_lookup _ _ _ _ _ k Hi) as [_ ->].
      case_bool_decide; [done|]. change (lookup_object (counted s2) k) with (lookup_object s2 k).
      destruct (Hl k) as [_ ->]. by rewrite bool_decide_eq_false_2.
  - intros [= <- <-]. split; [done|]. apply Hup.
    destruct (lookup_object s (key_of obj)) as [o|] eqn:Ho; [by eexists|].
    apply matching_nil_lookup in Ho. by rewrite Ho in Hn.
Qed.

Lemma run_store_ok {A} (p : prog StoreE A) s a s' :
  run_store p s = (a, s') → store_ok s → store_ok s'.
Proof.
  revert s. induction p as [b|X e k IH]; intros s; cbn [run]; [by intros [= _ <-]|].
  intros Hr Hok. pose proof (store_handle_ok _ e s Hok) as H.
  destruct (handle X e s) as [x s2]. by eapply IH.
Qed.

(** Without failing statements an upsert succeeds. *)
Lemma upsert_succeeds obj s :
  driver_error (dbType s) "?" = None → (∀ n, fault n = None) →
  (run_store (UpsertSyncObject obj) s).1 = None.
Proof.
  intros Hd Hf. unfold UpsertSyncObject. cbn -[Z.eqb Z.of_nat matching].
  unfold query, refused. cbn -[Z.eqb Z.of_nat matching].
  rewrite Hd, !Hf. cbn -[Z.eqb Z.of_nat matching]. rewrite !Hf.
  destruct (Z.eqb_spec (Z.of_nat (length (matching (key_of obj) (sync_objects s)))) 0) as [H|H];
    [|done].
  assert (Hm : matching (key_of obj) (sync_objects s) = []) by (apply length_zero_iff_nil; lia).
  cbn -[matching]. unfold exec, refused. cbn -[matching]. rewrite Hd, Hf. cbn -[matching].
  rewrite matching_update, Hm, (bool_decide_eq_true_2 (key_of obj = key_of obj)) by done. done.
Qed.

(** *** Upserts of several goroutines *)

Section concurrent.
Variable objs : list SyncObject.

(** The object is one of those submitted, with the id of its row. *)
Definition submitted (k : key) (o : SyncObject) : Prop :=
  ∃ obj i, obj ∈ objs ∧ key_of obj = k ∧ o = with_ID i obj.

(** What statements of upserts of [objs] do: a row keeps its id and holds what
    it held or a submitted object; a new row holds a submitted object. *)
Definition upserting (s s' : store) : Prop :=
  (store_ok s → store_ok s') ∧ same_other_tables s s' ∧
  ∀ k, match lookup_object s k with
       | Some o => ∃ o', lookup_object s' k = Some o' ∧ so_ID o' = so_ID o ∧
                     (o' = o ∨ submitted k o')
       | None => ∀ o', lookup_object s' k = Some o' → submitted k o'
       end.

#[local] Instance upserting_preorder : PreOrder upserting.
Proof.
  split.
  - intros s. split_and!; [done..|]. intros k.
    destruct (lookup_object s k) as [o|]; [|done]. exists o. auto.
  - intros s1 s2 s3 (Hok&Hsame&H) (Hok'&Hsame'&H'). split_and!; [by auto|by etrans|].
    intros k. specialize (H k). specialize (H' k).
    destruct (lookup_object s1 k) as [o|].
    + destruct H as (o2&Ho2&Hid&H). rewrite Ho2 in H'. destruct H' as (o3&Ho3&Hid'&H').
      exists o3. split_and!; [done|by etrans|]. destruct H' as [->|]; auto.
    + destruct (lookup_object s2 k) as [o2|]; [|done].
      destruct H' as (o3&->&_&H'). intros ? [= <-]. destruct H' as [->|]; auto.
Qed.

(** The upsert of the goroutine [j] leaves the rows of other keys alone. *)
Definition upserts_own (j : nat) (s s' : store) : Prop :=
  upserting s s' ∧
  ∀ k, (∀ obj, objs !! j = Some obj → key_of obj ≠ k) → lookup_object s' k = lookup_object s k.
(** What the goroutine [i] can see of the others. *)
Definition sees (i : nat) (s s' : store) : Prop :=
  upserting s s' ∧
  ∀ k, (∀ j obj, objs !! j = Some obj → key_of obj = k → j = i) →
    lookup_object s' k = lookup_object s k.

#[local] Instance sees_preorder i : PreOrder (sees i).
Proof.
  split.
  - intros s. by split.
  - intros s1 s2 s3 [H1 Hk1] [H2 Hk2]. split; [by etrans|]. intros k Hk.
    by rewrite Hk2, Hk1.
Qed.

Lemma own_sees i j s s' : i ≠ j → upserts_own j s s' → sees i s s'.
Proof.
  intros Hij [H Hk]. split; [done|]. intros k Hi. apply Hk. intros obj Hj Hkey.
  by apply Hij, symmetry, (Hi j obj).
Qed.

Lemma unchanged_own j s s' :
  (store_ok s → store_ok s') → same_other_tables s s' →
  (∀ k, lookup_object s' k = lookup_object s k) → upserts_own j s s'.
Proof.
  intros Hok Hsame Hk. split; [|auto]. split_and!; [done..|]. intros k. rewrite Hk.
  destruct (lookup_object s k) as [o|]; [|done]. exists o. auto.
Qed.

Lemma written_own j obj s s' i :
  objs !! j = Some obj → (store_ok s → store_ok s') → same_other_tables s s' →
  (∀ o, lookup_object s (key_of obj) = Some o → i = so_ID o) →
  (∀ k, lookup_object s' k =
     (if bool_decide (k = key_of obj) then Some (with_ID i obj) else lookup_object s k)) →
  upserts_own j s s'.
Proof.
  intros Hj Hok Hsame Hi Hk. split.
  - split_and!; [done..|]. intros k. rewrite Hk. case_bool_decide as Hkk.
    + subst k. assert (Hsub : submitted (key_of obj) (with_ID i obj)).
      { exists obj, i. split_and!; [by eapply list_elem_of_lookup_2|done..]. }
      destruct (lookup_object s (key_of obj)) as [o|] eqn:Ho; [|by intros ? [= <-]].
      eexists. split_and!; [done| |by right]. by apply Hi.
    + destruct (lookup_object s k) as [o|]; [|done]. exists o. auto.
  - intros k Hne. rewrite Hk. rewrite bool_decide_eq_false_2; [done|]. intros ->.
    by apply (Hne obj).
Qed.

Definition has_submitted (k : key) (s : store) : Prop :=
  ∃ o, lookup_object s k = Some o ∧ submitted k o.

Lemma has_submitted_stable k s s' : upserting s s' → has_submitted k s → has_submitted k s'.
Proof.
  intros (_&_&H) (o&Ho&Hsub). specialize (H k). rewrite Ho in H.
  destruct H as (o'&Ho'&_&[->|H]); [by exists o|by exists o'].
Qed.
Lemma new_has_submitted k s s' o :
  upserting s s' → lookup_object s k = None → lookup_object s' k = Some o → has_submitted k s'.
Proof. intros (_&_&H) Hn Ho. specialize (H k). rewrite Hn in H. exists o. auto. Qed.

(** The driver takes the statements and none fails. *)
Definition healthy (s : store) : Prop :=
  driver_error (dbType s) "?" = None ∧ ∀ n, fault n = None.
Lemma healthy_same s s' : same_other_tables s s' → healthy s → healthy s'.
Proof. intros (Ht&_) [Hd Hf]. split; [by rewrite <-Ht|done]. Qed.

(** No other goroutine upserts the key. *)
Definition alone (i : nat) (k : key) : Prop :=
  ∀ j obj, objs !! j = Some obj → key_of obj = k → j = i.

Definition upsert_result (i : nat) (s0 : store) (r : option error) (s : store) : Prop :=
  ∀ obj, objs !! i = Some obj →
    (r = None ∨ healthy s0 → has_submitted (key_of obj) s) ∧
    (healthy s0 → is_Some (lookup_object s0 (key_of obj)) ∨ alone i (key_of obj) → r = None).

Lemma handle_own X (e : StoreE X) i s :
  (∀ k, lookup_object (handle X e s).2 k = lookup_object s k) →
  same_other_tables s (handle X e s).2 → upserts_own i s (handle X e s).2.
Proof. intros. apply unchanged_own; [apply store_handle_ok|done..]. Qed.

Lemma ret_result i s0 obj r s :
  objs !! i = Some obj →
  (r = None ∨ healthy s0 → has_submitted (key_of obj) s) →
  (healthy s0 → is_Some (lookup_object s0 (key_of obj)) ∨ alone i (key_of obj) → r = None) →
  ∀ s', sees i s s' → upsert_result i s0 r s'.
Proof.
  intros Hi Hsub Hr s' [Hs _] obj' Hi'. simplify_eq.
  split; [|done]. intros H. eapply has_submitted_stable; [done|by apply Hsub].
Qed.

Lemma kept_some s s' k : upserting s s' → lookup_object s' k = None → lookup_object s k = None.
Proof.
  intros (_&_&H) Hn. specialize (H k). destruct (lookup_object s k) as [o|]; [|done].
  destruct H as (?&H&_). by rewrite Hn in H.
Qed.

(** The key had no row a while ago, so that only an upsert gives it one. *)
Definition open_key (i : nat) (k : key) (s : store) : Prop :=
  (lookup_object s k = None ∨ has_submitted k s) ∧ (alone i k → lookup_object s k = None).
Lemma open_key_stable i k s s' : sees i s s' → open_key i k s → open_key i k s'.
Proof.
  intros [Hs Hk] [H Ha]. split; [|intros; by rewrite Hk; auto].
  destruct H as [Hn|H]; [|right; by eapply has_submitted_stable].
  destruct (lookup_object s' k) as [o|] eqn:Ho; [right|by left].
  by eapply new_has_submitted.
Qed.

Lemma insert_rg i obj now s0 s :
  objs !! i = Some obj → same_other_tables s0 s → open_key i (key_of obj) s →
  lookup_object s0 (key_of obj) = None →
  rg handle (sees i) (upserts_own i) (call (ExecInsertObject "?" obj now)) (upsert_result i s0) s.
Proof.
  intros Hi Hsame0 Hopen H0. apply rg_call. intros s1 r s2 Hs1 Hh.
  destruct (insert_tables _ _ _ _ _ _ Hh) as [Hsame Hkeep].
  pose proof (store_handle_ok _ (ExecInsertObject "?" obj now) s1) as Hok.
  rewrite Hh in Hok. simpl in Hok.
  assert (Hsame1 : same_other_tables s0 s1) by (etrans; [done|apply Hs1]).
  destruct (open_key_stable _ _ _ _ Hs1 Hopen) as [Hor Ha].
  assert (Hins : healthy s0 → lookup_object s1 (key_of obj) = None → r = None).
  { intros [Hd Hf]%(healthy_same _ _ Hsame1) Ho%matching_nil_lookup. revert Hh. simpl.
    unfold exec, refused. rewrite Hd, Hf, bool_decide_eq_true_2 by done. by intros [= <-]. }
  destruct r as [e|].
  - assert (Hk : ∀ k, lookup_object s2 k = lookup_object s1 k).
    { intros k. unfold lookup_object. by rewrite (proj1 (Hkeep ltac:(done))). }
    assert (Hown : upserts_own i s1 s2) by (by apply unchanged_own).
    split; [done|]. apply (ret_result i s0 obj); [done| |].
    + intros [?|Hh0]; [done|]. eapply has_submitted_stable; [apply Hown|].
      destruct Hor as [Ho|]; [|done]. by specialize (Hins Hh0 Ho).
    + intros Hh0 [[? Hs]|Hal]; [by rewrite H0 in Hs|]. auto.
  - pose proof (λ k, insert_lookup _ _ _ _ _ k Hh) as Hk.
    destruct (Hk (key_of obj)) as [Hm Hl]. rewrite bool_decide_eq_true_2 in Hl by done.
    apply matching_nil_lookup in Hm. split.
    + apply (written_own i obj _ _ (next_object s1)); [done..| |apply Hk].
      by rewrite Hm.
    + apply (ret_result i s0 obj); [done| |done]. intros _. eexists. split; [done|].
      eexists obj, _. split_and!; [by eapply list_elem_of_lookup_2|done..].
Qed.

(** After the UPDATE: the row is there with its object, or there was none. *)
Lemma count_rg i obj now n s0 s :
  objs !! i = Some obj → same_other_tables s0 s →
  (if (n =? 0)%Z then lookup_object s0 (key_of obj) = None ∧ open_key i (key_of obj) s
   else has_submitted (key_of obj) s) →
  rg handle (sees i) (upserts_own i)
    (bind (call (RowsAffected n)) (λ n,
     match n with
     | inr err => Ret (Some err)
     | inl n => if (n =? 0)%Z then call (ExecInsertObject "?" obj now) else Ret None
     end)) (upsert_result i s0) s.
Proof.
  intros Hi Hsame0 Hn. cbn [bind call rg]. intros s1 Hs1.
  change (handle _ (RowsAffected n) s1) with
    (match fault (stmts s1) with Some e => inr e | None => inl n end, counted s1).
  split; [by apply (handle_own _ (RowsAffected n))|].
  assert (Hsame1 : same_other_tables s0 s1) by (etrans; [done|apply Hs1]).
  destruct (fault (stmts s1)) as [e|] eqn:Hf.
  { intros s2. apply (ret_result i s0 obj); [done| |]; [intros [?|[_ Hh]]|intros [_ Hh]];
      [done|by rewrite Hh in Hf..]. }
  destruct (n =? 0)%Z.
  - destruct Hn as [H0 Hn]. apply insert_rg; [done..| |done].
    by eapply open_key_stable in Hn.
  - intros s2. apply (ret_result i s0 obj); [done| |done]. intros _.
    eapply has_submitted_stable; [|done]. apply Hs1.
Qed.

Lemma upsert_rg i obj s :
  objs !! i = Some obj →
  rg handle (sees i) (upserts_own i) (UpsertSyncObject obj) (upsert_result i s) s.
Proof.
  intros Hi. unfold UpsertSyncObject. cbn [bind call rg]. intros s1 Hs1.
  change (handle Z Now s1) with (clock (ticks s1), ticked s1).
  split; [by apply (handle_own _ Now)|]. generalize (Unix (clock (ticks s1))) as now. intros now.
  intros s2 Hs2. assert (Hs02 : sees i s s2) by (by etrans). clear s1 Hs1 Hs2.
  destruct (handle _ (ExecUpdateObject "?" obj now) s2) as [u s3] eqn:Hu.
  destruct (update_tables _ _ _ _ _ _ Hu) as (Hsame&Hnext&_&Hkeep).
  pose proof (store_handle_ok _ (ExecUpdateObject "?" obj now) s2) as Hok.
  rewrite Hu in Hok. simpl in Hok.
  assert (Hsame3 : same_other_tables s s3) by (etrans; [apply Hs02|done]).
  assert (Hk : (∃ e, u = inr e) ∨ matching (key_of obj) (sync_objects s2) = [] →
    ∀ k, lookup_object s3 k = lookup_object s2 k).
  { intros H k. unfold lookup_object. by rewrite Hkeep. }
  destruct u as [n|e].
  - pose proof (λ k, update_lookup _ _ _ _ _ _ k Hu) as Hl.
    destruct (Hl (key_of obj)) as [Hn Ho]. rewrite bool_decide_eq_true_2 in Ho by done.
    destruct (lookup_object s2 (key_of obj)) as [o|] eqn:Ho2.
    + split.
      { apply (written_own i obj _ _ (so_ID o)); [done..|rewrite Ho2; congruence|].
        intros k. destruct (Hl k) as [_ ->]. case_bool_decide; [subst k|done]. by rewrite Ho2. }
      apply count_rg; [done..|]. destruct (Z.eqb_spec n 0) as [->|_].
      * destruct (matching (key_of obj) (sync_objects s2)) eqn:Hm; [|done].
        apply matching_nil_lookup in Hm. by rewrite Ho2 in Hm.
      * eexists. split; [done|]. eexists obj, _.
        split_and!; [by eapply list_elem_of_lookup_2|done..].
    + apply matching_nil_lookup in Ho2. rewrite Ho2 in Hn. simpl in Hn. subst n.
      specialize (Hk (or_intror Ho2)). split; [by apply unchanged_own|].
      apply count_rg; [done..|]. apply matching_nil_lookup in Ho2. simpl. split.
      * eapply kept_some; [apply Hs02|done].
      * split; [left|intros _]; by rewrite Hk.
  - split; [apply unchanged_own; [done..|]; apply Hk; left; by eexists|].
    intros s4. apply (ret_result i s obj); [done| |].
    + intros [?|Hh]; [done|]. apply (healthy_same s s2) in Hh as [Hd Hf]; [|apply Hs02].
      revert Hu. simpl. unfold query, refused. by rewrite Hd, Hf.
    + intros Hh. apply (healthy_same s s2) in Hh as [Hd Hf]; [|apply Hs02].
      revert Hu. simpl. unfold query, refused. by rewrite Hd, Hf.
Qed.

Lemma upserts_schedule limit s pool s' results :
  rtc (pool_step handle limit) (spawn (map UpsertSyncObject objs), s) (pool, s') →
  finished pool results →
  length results = length objs ∧ upserting s s' ∧
  (∀ k, k ∉ map key_of objs → lookup_object s' k = lookup_object s k) ∧
  ∀ i r, results !! i = Some r → upsert_result i s r s'.
Proof.
  intros Hs Hf.
  destruct (pool_ok handle limit sees upserts_own (λ i, upsert_result i s) own_sees
    (map UpsertSyncObject objs) s pool s' results) as (Hlen&Hres&Hw); [|done..|].
  { intros i p. rewrite list_lookup_fmap.
    destruct (objs !! i) as [obj|] eqn:Hi; intros; simplify_eq/=. by apply upsert_rg. }
  rewrite length_map in Hlen. split_and!; [done| | |done].
  - clear -Hw. induction Hw as [|s1 s2 s3 [i [H _]] _ IH]; [done|by etrans].
  - intros k Hk. clear -Hw Hk. induction Hw as [|s1 s2 s3 [i [_ H]] _ IH]; [done|].
    rewrite IH. apply H. intros obj Hi <-. destruct Hk.
    apply list_elem_of_fmap. exists obj. split; [done|]. by eapply list_elem_of_lookup_2.
Qed.
End concurrent.
End operations.

(** ** Properties *)

Section properties.
Context {order : RowOrder}.
Variable driver_error : DBType → string → option error.
Variable fault : nat → option error.
Variables clock db_clock : nat → Z.
Abbreviation handle := (store_handle driver_error fault clock db_clock).
Abbreviation run_store := (run handle).

(** C15: An upsert maps the object's key to the object, keeping the row's id,
    and touches nothing else, when it returns no error; without failing
    statements it does return none.  When it returns an error, every table is
    as it was, but for one case: the object had a row, and it was the count of
    the updated rows that failed; then the row has been updated all the same. *)
Theorem UpsertSyncObject_spec (obj : SyncObject) (s : store) :
  let '(r, s') := run_store (UpsertSyncObject obj) s in
  same_other_tables s s' ∧
  match r with
  | None => updated s s' obj
  | Some _ =>
      (∀ k, lookup_object s' k = lookup_object s k) ∨
      is_Some (lookup_object s (key_of obj)) ∧ r = fault (S (stmts s)) ∧ updated s s' obj
  end ∧
  (driver_error (dbType s) "?" = None → (∀ n, fault n = None) → r = None).
Proof.
  pose proof (upsert_succeeds driver_error fault clock db_clock obj s) as Hs.
  destruct (run_store (UpsertSyncObject obj) s) as [r s'] eqn:Hr.
  by apply upsert_run in Hr as [Hsame Hr].
Qed.

(** C14: Upserts of several goroutines, interleaved statement by statement in
    any order, on tables in which no key and no id is on two rows: this stays
    so; no other table and no row of another key is touched; and a row that
    was there keeps its id.  When an upsert returns no error, or the driver
    takes the statements and none fails, its key ends up on a row with one of
    the objects submitted for that key.  In the latter case an upsert returns no
    error when its key had a row before or no other goroutine upserts it (of
    two goroutines that insert the same key, one gets the constraint's
    error). *)
Theorem concurrent_upserts (limit : nat) (objs : list SyncObject) (s s' : store)
    (pool : list (goroutine StoreE (option error))) (results : list (option error)) :
  store_ok s →
  rtc (pool_step handle limit) (spawn (map UpsertSyncObject objs), s) (pool, s') →
  finished pool results →
  let healthy := driver_error (dbType s) "?" = None ∧ ∀ n, fault n = None in
  store_ok s' ∧ same_other_tables s s' ∧
  (∀ k, k ∉ map key_of objs → lookup_object s' k = lookup_object s k) ∧
  (∀ k o, lookup_object s k = Some o → so_ID <$> lookup_object s' k = Some (so_ID o)) ∧
  length results = length objs ∧
  ∀ i obj r, objs !! i = Some obj → results !! i = Some r →
    (r = None ∨ healthy →
     ∃ obj' id, obj' ∈ objs ∧ key_of obj' = key_of obj ∧
       lookup_object s' (key_of obj) = Some (with_ID id obj')) ∧
    (healthy →
     is_Some (lookup_object s (key_of obj)) ∨
       (∀ j obj', objs !! j = Some obj' → key_of obj' = key_of obj → j = i) →
     r = None).
Proof.
  intros Hok Hs Hf.
  destruct (upserts_schedule _ _ _ _ _ _ _ _ _ _ Hs Hf) as (Hlen&(Hok'&Hsame&Hk)&Hothers&Hres).
  split_and!; [auto|done|done| |done|].
  - intros k o Ho. specialize (Hk k). rewrite Ho in Hk. destruct Hk as (o'&->&Hid&_).
    simpl. by rewrite Hid.
  - intros i obj r Hi Hr. destruct (Hres i r Hr obj Hi) as [H1 H2]. split; [|exact H2].
    intros (o&Ho&obj'&id&Hobj'&Hkey&->)%H1. by exists obj', id.
Qed.

(** A database whose driver refuses '?' placeholders never gets a sync
    object: [UpsertSyncObject] fails on it whatever it is given, since its
    statements do not go through [placeholder]. *)
Theorem UpsertSyncObject_dialect (obj : SyncObject) (s : store) (e : error) :
  driver_error (dbType s) "?" = Some e →
  (run_store (UpsertSyncObject obj) s).1 = Some e ∧
  sync_objects (run_store (UpsertSyncObject obj) s).2 = sync_objects s.
Proof.
  intros Hd. unfold UpsertSyncObject. cbn. unfold query, refused. cbn. by rewrite Hd.
Qed.

(** A setting that was set is read back, and the others are unchanged,
    on every dialect that takes its own placeholders. *)
Theorem SetSetting_GetSetting (k v k' : string) (s : store) :
  driver_error (dbType s) (placeholder (dbType s) 1) = None → (∀ n, fault n = None) →
  let '(r, s') := run_store (SetSetting (dbType s) k v) s in
  r = None ∧ (run_store (GetSetting (dbType s) k') s').1 =
    inl (if bool_decide (k' = k) then Some v else set_value <$> app_settings s !! k').
Proof.
  intros Hd Hf. unfold SetSetting, GetSetting. cbn. unfold query, exec, refused. cbn.
  rewrite Hd, Hf. cbn. destruct (app_settings s !! k) as [row|] eqn:Hk; cbn;
    rewrite Hf; cbn; unfold exec, refused; cbn; rewrite ?Hd, ?Hf; cbn; rewrite ?Hk; cbn;
    (split; [done|]); rewrite ?Hd, ?Hf; cbn; do 2 f_equal;
    (case_bool_decide as Hkk; [subst; by rewrite lookup_insert_eq|
                               by rewrite lookup_insert_ne]).
Qed.

(** [GetSyncRuns] gives runs of the sync asked for, the latest first,
    never more than the limit and, when all fit, every one of them. *)
Theorem GetSyncRuns_spec {laws : RowOrderLaws} (syncID : string) (limit : Z) (s s' : store)
    (runs : list SyncRun) :
  run_store (GetSyncRuns (dbType s) syncID limit) s = (inl runs, s') →
  let limit := (if (limit <=? 0)%Z then 100%Z else limit) in
  (Z.of_nat (length runs) ≤ limit)%Z ∧ StronglySorted (later CreatedAt) runs ∧
  ∃ rest, runs ++ rest ≡ₚ List.filter (λ r, bool_decide (r_SyncID r = syncID)) (syncs_run s) ∧
    (rest ≠ [] → Z.of_nat (length runs) = limit).
Proof.
  intros H limit'. unfold GetSyncRuns in H. cbn in H. unfold query, refused in H.
  fold limit' in H. revert H.
  assert (0 < limit')%Z by (unfold limit'; destruct (Z.leb_spec limit 0); lia).
  generalize dependent limit'. intros n Hn.
  destruct (driver_error _ _); [done|]. destruct (fault _); [done|]. intros [= <- _].
  set (l := List.filter _ _). set (l' := latest_first CreatedAt l).
  assert (Hs : StronglySorted (later CreatedAt) l').
  { unfold l', latest_first.
    induction (sort_rows_sorted (λ a, - CreatedAt a)%Z l) as [|x xs _ IH Hx]; constructor; [done|].
    eapply Forall_impl; [done|]. intros y. unfold later. lia. }
  assert (Hp : l' ≡ₚ l) by apply sort_rows_perm.
  split_and!.
  - rewrite length_take. lia.
  - rewrite <-(take_drop (Z.to_nat n) l') in Hs. by apply StronglySorted_app_1_l in Hs.
  - exists (drop (Z.to_nat n) l'). rewrite take_drop. split; [done|].
    intros Hne. rewrite length_take. assert (Z.to_nat n < length l'); [|lia].
    destruct (decide (Z.to_nat n < length l')); [done|].
    destruct Hne. apply drop_ge. lia.
Qed.
End properties.

(** *** Instances *)

(** A PostgreSQL driver that takes only its own placeholders. *)
Definition strict_driver (t ph : string) : option error :=
  if bool_decide (t = DBTypePostgres) && bool_decide (ph = "?") then Some "syntax error" else None.
Definition no_fault (n : nat) : option error := None.
Definition counting (n : nat) : Z := Z.of_nat n.

Definition sample_object : SyncObject :=
  {| so_ID := 0; SyncID := "s"; SourceVaultID := "a"; TargetVaultID := "b"; SecretName := "n";
     ExternalID := ""; SourceChecksum := "x"; TargetChecksum := "x"; LastSyncTime := 0;
     LastSyncStatus := "success"; LastSyncError := ""; SyncCount := 0; FailureCount := 0;
     DirectionLast := "source_to_target" |}.

#[local] Existing Instances stable_order stable_order_laws.

Definition other_object : SyncObject :=
  {| so_ID := 0; SyncID := "s"; SourceVaultID := "a"; TargetVaultID := "b"; SecretName := "m";
     ExternalID := ""; SourceChecksum := "y"; TargetChecksum := "y"; LastSyncTime := 1;
     LastSyncStatus := "success"; LastSyncError := ""; SyncCount := 0; FailureCount := 0;
     DirectionLast := "source_to_target" |}.

(** Two goroutines and a key that has a row already. *)
Definition one_object : store :=
  (run (store_handle strict_driver no_fault counting counting) (UpsertSyncObject sample_object)
     (empty_store DBTypeSQLite)).2.

Lemma concurrent_upserts_witness :
  let handle := store_handle strict_driver no_fault counting counting in
  let c := run_jobs handle (map UpsertSyncObject [sample_object; other_object]) one_object in
  store_ok c.2 ∧ so_ID <$> lookup_object c.2 (key_of sample_object) = Some 1%Z ∧
  c.1 = [None; None].
Proof.
  intros handle c.
  destruct (concurrent_upserts strict_driver no_fault counting counting 1
    [sample_object; other_object] one_object c.2 (map Done c.1) c.1)
    as (Hok & _ & _ & Hid & _ & Hres).
  - eapply (run_store_ok strict_driver no_fault counting counting
      (UpsertSyncObject sample_object) (empty_store DBTypeSQLite));
      [vm_compute; reflexivity|repeat split; constructor].
  - apply (run_jobs_schedule handle); [lia|]. vm_compute. reflexivity.
  - apply finished_map_Done.
  - split_and!; [done| |vm_compute; reflexivity].
    apply (Hid _ (with_ID 1 sample_object)). vm_compute. reflexivity.
Defined.

(** Both find no row, and the second INSERT fails: the error is returned,
    though the row is there. *)
Example concurrent_inserts :
  let handle := store_handle strict_driver no_fault counting counting in
  (λ c, (map result_of c.1, length (sync_objects c.2))) <$>
    follow handle 2 [0; 1; 0; 0; 0; 1; 1; 1; 0; 0; 1; 1]
      (spawn (map UpsertSyncObject [sample_object; sample_object]), empty_store DBTypeSQLite) =
  Some ([Some None; Some (Some unique_violation)], 1).
Proof. vm_compute. reflexivity. Qed.

Lemma UpsertSyncObject_dialect_witness :
  let r := run (store_handle strict_driver no_fault counting counting)
             (UpsertSyncObject sample_object) (empty_store DBTypePostgres) in
  r.1 = Some "syntax error" ∧ sync_objects r.2 = [].
Proof.
  intros r. apply (UpsertSyncObject_dialect strict_driver no_fault counting counting
                     sample_object (empty_store DBTypePostgres)). reflexivity.
Defined.

Lemma SetSetting_GetSetting_witness :
  let run_store := λ A, @run _ _ (store_handle strict_driver no_fault counting counting) A in
  let '(r, s') := run_store _ (SetSetting DBTypePostgres "k" "v") (empty_store DBTypePostgres) in
  r = None ∧ (run_store _ (GetSetting DBTypePostgres "k") s').1 = inl (Some "v").
Proof.
  exact (SetSetting_GetSetting strict_driver no_fault counting counting "k" "v" "k"
           (empty_store DBTypePostgres) eq_refl (λ _, eq_refl)).
Defined.

Definition two_runs : store :=
  with_runs (empty_store DBTypeSQLite)
    (map (λ t, {| r_ID := t; r_SyncID := "s"; r_Status := "success"; TotalSynced := 1;
       TotalFailed := 0; DurationMs := 5; ErrorMessage := ""; CreatedAt := t |}) [1; 2]%Z).

Lemma GetSyncRuns_spec_witness :
  let r := run (store_handle strict_driver no_fault counting counting)
             (GetSyncRuns DBTypeSQLite "s" 1) two_runs in
  ∃ runs, r.1 = inl runs ∧ (Z.of_nat (length runs) ≤ 1)%Z.
Proof.
  intros r. eexists. split; [vm_compute; reflexivity|].
  eapply (GetSyncRuns_spec strict_driver no_fault counting counting "s" 1 two_runs).
  vm_compute. reflexivity.
Defined.
