(* ===== verification/Users.v ===== *)
(** * Users and sessions ([storage/user_store.go])

    The tables [users] and [sessions] next to those of [Store], one atomic
    call per SQL statement, and the operations of the user store.  The schema
    ([migrateUsers]) gives unique user names and tokens everywhere, and a
    foreign key with ON DELETE CASCADE on every database but MSSQL.  User
    names and tokens are compared byte by byte, as SQLite and PostgreSQL do.
    Entropy is part of the world: [crypto/rand] and the salted
    [bcrypt.GenerateFromPassword] are parameters indexed by how often they
    were asked. *)

From S2P Require Import Prelude GoLang Config Effects Pool Store.

(** ** Rows *)

Definition RoleAdmin : string := "admin".
Definition RoleUser : string := "user".

Record User := {
  u_ID : Z; Username : string; PasswordHash : string; Role : string;
  u_CreatedAt : Z; u_UpdatedAt : Z }.

Record Session := {
  s_ID : Z; s_UserID : Z; Token : string; ExpiresAt : Z; s_CreatedAt : Z }.

Definition with_hash (h : string) (u : User) : User :=
  {| u_ID := u_ID u; Username := Username u; PasswordHash := h; Role := Role u;
     u_CreatedAt := u_CreatedAt u; u_UpdatedAt := u_UpdatedAt u |}.
Definition with_role (r : string) (u : User) : User :=
  {| u_ID := u_ID u; Username := Username u; PasswordHash := PasswordHash u; Role := r;
     u_CreatedAt := u_CreatedAt u; u_UpdatedAt := u_UpdatedAt u |}.
Definition updated_on (now : Z) (u : User) : User :=
  {| u_ID := u_ID u; Username := Username u; PasswordHash := PasswordHash u; Role := Role u;
     u_CreatedAt := u_CreatedAt u; u_UpdatedAt := now |}.

(** The database with its user tables, the entropy used so far and how often
    the configuration was reloaded. *)
Record app := {
  base : store; users : list User; next_user : Z;
  sessions : list Session; next_session : Z; entropy : nat; reloads : nat }.

Definition with_base (w : app) (s : store) : app :=
  {| base := s; users := users w; next_user := next_user w; sessions := sessions w;
     next_session := next_session w; entropy := entropy w; reloads := reloads w |}.
Definition with_users (w : app) (l : list User) (n : Z) : app :=
  {| base := base w; users := l; next_user := n; sessions := sessions w;
     next_session := next_session w; entropy := entropy w; reloads := reloads w |}.
Definition with_sessions (w : app) (l : list Session) (n : Z) : app :=
  {| base := base w; users := users w; next_user := next_user w; sessions := l;
     next_session := n; entropy := entropy w; reloads := reloads w |}.
Definition drawn (w : app) : app :=
  {| base := base w; users := users w; next_user := next_user w; sessions := sessions w;
     next_session := next_session w; entropy := S (entropy w); reloads := reloads w |}.
Definition reloaded (w : app) : app :=
  {| base := base w; users := users w; next_user := next_user w; sessions := sessions w;
     next_session := next_session w; entropy := entropy w; reloads := S (reloads w) |}.

(** MSSQL's [sessions] does not reference [users]. *)
Definition references_users (t : DBType) : bool := negb (bool_decide (t = DBTypeMSSQL)).

(** ** Calls *)

Inductive UserE : Type → Type :=
| Base {X} (e : StoreE X) : UserE X
| ExecInsertUser (ph username passwordHash role : string) (now : Z) : UserE (option error)
| QueryUserByName (ph username : string) : UserE (result (option User))
| QueryUserByID (ph : string) (id : Z) : UserE (result (option User))
| QueryUsers : UserE (result (list User))
| ExecUpdatePassword (ph passwordHash : string) (now id : Z) : UserE (option error)
| ExecUpdateRole (ph role : string) (now id : Z) : UserE (option error)
| ExecDeleteUserSessions (ph : string) (id : Z) : UserE (option error)
| ExecDeleteUserRow (ph : string) (id : Z) : UserE (option error)
| CountUsers : UserE (result Z)
| ExecInsertSession (ph : string) (id : Z) (token : string) (expiresAt now : Z)
    : UserE (option error)
| QuerySession (ph token : string) (now : Z) : UserE (result (option Session))
| ExecDeleteSession (ph token : string) : UserE (option error)
| ExecDeleteExpired (ph : string) (now : Z) : UserE (option error)
| GenerateFromPassword (password : string) : UserE (result string)
| RandRead (n : nat) : UserE (result (list N))
| Reload : UserE unit.    (* [go onSetupComplete()] *)

Definition has_name (name : string) (u : User) : bool := bool_decide (Username u = name).
Definition has_id (id : Z) (u : User) : bool := (u_ID u =? id)%Z.
Definition has_token (token : string) (s : Session) : bool := bool_decide (Token s = token).
Definition of_user (id : Z) (s : Session) : bool := (s_UserID s =? id)%Z.

(** UPDATE users SET ... WHERE id. *)
Definition update_user (id : Z) (f : User → User) (u : User) : User :=
  if has_id id u then f u else u.

(** ORDER BY created_at ASC. *)
Definition earliest_first `{RowOrder} (l : list User) : list User := sort_rows u_CreatedAt l.

Section handler.
Context {order : RowOrder}.
Variable driver_error : DBType → string → option error.
Variable fault : nat → option error.
Variables clock db_clock : nat → Z.
Variable bcrypt : nat → string → result string.
Variable random : nat → nat → result (list N).

(** A statement whose effect is [f], unless the database refuses it. *)
Definition uquery {A} (w : app) (ph : string) (f : result A * app) : result A * app :=
  match refused driver_error fault (base w) ph with
  | Some e => (inr e, with_base w (counted (base w)))
  | None => (f.1, with_base f.2 (counted (base w)))
  end.
Definition uexec (w : app) (ph : string) (f : option error * app) : option error * app :=
  match refused driver_error fault (base w) ph with
  | Some e => (Some e, with_base w (counted (base w)))
  | None => (f.1, with_base f.2 (counted (base w)))
  end.

Definition user_handle X (e : UserE X) : app → X * app :=
  match e in UserE X return app → X * app with
  | Base e => λ w,
      let '(x, s) := store_handle driver_error fault clock db_clock _ e (base w) in
      (x, with_base w s)
  | ExecInsertUser ph username hash role now => λ w, uexec w ph
      (if existsb (has_name username) (users w) then (Some unique_violation, w)
       else (None, with_users w (users w ++
         [{| u_ID := next_user w; Username := username; PasswordHash := hash; Role := role;
             u_CreatedAt := now; u_UpdatedAt := now |}]) (next_user w + 1)))
  | QueryUserByName ph username => λ w,
      uquery w ph (inl (List.find (has_name username) (users w)), w)
  | QueryUserByID ph id => λ w, uquery w ph (inl (List.find (has_id id) (users w)), w)
  | QueryUsers => λ w, uquery w "" (inl (map (with_hash "") (earliest_first (users w))), w)
  | ExecUpdatePassword ph hash now id => λ w, uexec w ph
      (None, with_users w (map (update_user id (λ u, updated_on now (with_hash hash u)))
                             (users w)) (next_user w))
  | ExecUpdateRole ph role now id => λ w, uexec w ph
      (None, with_users w (map (update_user id (λ u, updated_on now (with_role role u)))
                             (users w)) (next_user w))
  | ExecDeleteUserSessions ph id => λ w, uexec w ph
      (None, with_sessions w (List.filter (λ s, negb (of_user id s)) (sessions w))
               (next_session w))
  | ExecDeleteUserRow ph id => λ w, uexec w ph
      (None,
       let w' := with_users w (List.filter (λ u, negb (has_id id u)) (users w)) (next_user w) in
       if references_users (dbType (base w))
       then with_sessions w' (List.filter (λ s, negb (of_user id s)) (sessions w))
              (next_session w)
       else w')
  | CountUsers => λ w, uquery w "" (inl (Z.of_nat (length (users w))), w)
  | ExecInsertSession ph id token expiresAt now => λ w, uexec w ph
      (if references_users (dbType (base w)) && negb (existsb (has_id id) (users w))
       then (Some foreign_key_violation, w)
       else if existsb (has_token token) (sessions w) then (Some unique_violation, w)
       else (None, with_sessions w (sessions w ++
         [{| s_ID := next_session w; s_UserID := id; Token := token; ExpiresAt := expiresAt;
             s_CreatedAt := now |}]) (next_session w + 1)))
  | QuerySession ph token now => λ w, uquery w ph
      (inl (List.find (λ s, has_token token s && (now <? ExpiresAt s)%Z) (sessions w)), w)
  | ExecDeleteSession ph token => λ w, uexec w ph
      (None, with_sessions w (List.filter (λ s, negb (has_token token s)) (sessions w))
               (next_session w))
  | ExecDeleteExpired ph now => λ w, uexec w ph
      (None, with_sessions w (List.filter (λ s, (now <? ExpiresAt s)%Z) (sessions w))
               (next_session w))
  | GenerateFromPassword password => λ w, (bcrypt (entropy w) password, drawn w)
  | RandRead n => λ w, (random (entropy w) n, drawn w)
  | Reload => λ w, (tt, reloaded w)
  end.
End handler.

(** The operations of the store run with the user tables next to it. *)
Fixpoint lift {A} (p : prog StoreE A) : prog UserE A :=
  match p with
  | Ret a => Ret a
  | Call e k => Call (Base e) (λ x, lift (k x))
  end.

(** ** The operations *)

#[local] Open Scope syncer_scope.

(** [fmt.Errorf("...: %w", err)] on a result and on an error. *)
Definition wrap {A} (msg : string) (r : result A) : result A :=
  match r with inr err => inr (msg +:+ err) | inl a => inl a end.
Definition wrap_err (msg : string) (r : option error) : option error :=
  match r with Some err => Some (msg +:+ err) | None => None end.

Definition GetUserByUsername (dbType : DBType) (username : string)
    : prog UserE (result (option User)) :=
  let* r := call (QueryUserByName (placeholder dbType 1) username) in
  Ret (wrap "storage: GetUserByUsername: " r).

Definition GetUserByID (dbType : DBType) (id : Z) : prog UserE (result (option User)) :=
  let* r := call (QueryUserByID (placeholder dbType 1) id) in
  Ret (wrap "storage: GetUserByID: " r).

Definition CreateUser (dbType : DBType) (username passwordHash role : string)
    : prog UserE (result (option User)) :=
  let* t := call (Base Now) in
  let now := Unix t in
  let* err := call (ExecInsertUser (placeholders dbType 1 5) username passwordHash role now) in
  match err with
  | Some err => Ret (inr ("storage: CreateUser: " +:+ err))
  | None => GetUserByUsername dbType username
  end.

Definition ListUsers : prog UserE (result (list User)) :=
  let* r := call QueryUsers in
  Ret (wrap "storage: ListUsers: " r).

Definition UpdateUserPassword (dbType : DBType) (userID : Z) (passwordHash : string)
    : prog UserE (option error) :=
  let* t := call (Base Now) in
  let* err := call (ExecUpdatePassword (placeholder dbType 1) passwordHash (Unix t) userID) in
  Ret (wrap_err "storage: UpdateUserPassword: " err).

Definition UpdateUserRole (dbType : DBType) (userID : Z) (role : string)
    : prog UserE (option error) :=
  let* t := call (Base Now) in
  let* err := call (ExecUpdateRole (placeholder dbType 1) role (Unix t) userID) in
  Ret (wrap_err "storage: UpdateUserRole: " err).

Definition DeleteUser (dbType : DBType) (userID : Z) : prog UserE (option error) :=
  let* err := call (ExecDeleteUserSessions (placeholder dbType 1) userID) in
  match err with
  | Some err => Ret (Some ("storage: DeleteUser sessions: " +:+ err))
  | None =>
      let* err := call (ExecDeleteUserRow (placeholder dbType 1) userID) in
      Ret (wrap_err "storage: DeleteUser: " err)
  end.

Definition HasUsers : prog UserE (result bool) :=
  let* r := call CountUsers in
  Ret (match r with
       | inr err => inr ("storage: HasUsers: " +:+ err)
       | inl count => inl (0 <? count)%Z
       end).

Definition CreateSession (dbType : DBType) (userID : Z) (token : string) (expiresAt : Z)
    : prog UserE (result Session) :=
  let* t := call (Base Now) in
  let now := Unix t in
  let* err := call (ExecInsertSession (placeholders dbType 1 4) userID token expiresAt now) in
  Ret (match err with
       | Some err => inr ("storage: CreateSession: " +:+ err)
       | None => inl {| s_ID := 0; s_UserID := userID; Token := token;
                        ExpiresAt := expiresAt; s_CreatedAt := now |}
       end).

Definition GetSessionByToken (dbType : DBType) (token : string)
    : prog UserE (result (option Session)) :=
  let* t := call (Base Now) in
  let* r := call (QuerySession (placeholder dbType 1) token (Unix t)) in
  Ret (wrap "storage: GetSessionByToken: " r).

Definition DeleteSession (dbType : DBType) (token : string) : prog UserE (option error) :=
  let* err := call (ExecDeleteSession (placeholder dbType 1) token) in
  Ret (wrap_err "storage: DeleteSession: " err).

Definition DeleteExpiredSessions (dbType : DBType) : prog UserE (option error) :=
  let* t := call (Base Now) in
  let* err := call (ExecDeleteExpired (placeholder dbType 1) (Unix t)) in
  Ret (wrap_err "storage: DeleteExpiredSessions: " err).

#[local] Close Scope syncer_scope.

(** ** What every statement keeps *)

(** Unique names, identifiers and tokens, identifiers below the next one, and
    where the schema says so only sessions of users that exist. *)
Record users_ok (w : app) : Prop := {
  ok_names : NoDup (map Username (users w));
  ok_ids : NoDup (map u_ID (users w));
  ok_next_user : Forall (λ u, u_ID u < next_user w)%Z (users w);
  ok_tokens : NoDup (map Token (sessions w));
  ok_sessions : NoDup (map s_ID (sessions w));
  ok_next_session : Forall (λ s, s_ID s < next_session w)%Z (sessions w);
  ok_owners : references_users (dbType (base w)) = true →
    Forall (λ s, s_UserID s ∈ map u_ID (users w)) (sessions w) }.

Definition empty_app (s : store) : app :=
  {| base := s; users := []; next_user := 1; sessions := []; next_session := 1;
     entropy := 0; reloads := 0 |}.

Lemma empty_app_ok s : users_ok (empty_app s).
Proof. split; simpl; intros; constructor. Qed.

(** A row of a column that must be unique. *)
Lemma NoDup_map_filter {A B} (f : A → B) (p : A → bool) (l : list A) :
  NoDup (map f l) → NoDup (map f (List.filter p l)).
Proof.
  induction l as [|x l IH]; simpl; [done|]. rewrite NoDup_cons. intros [Hx Hl].
  destruct (p x); simpl; [|auto]. apply NoDup_cons. split; [|auto].
  intros Hin. apply Hx. apply list_elem_of_fmap in Hin as (y&->&Hy).
  apply list_elem_of_fmap. exists y. split; [done|].
  apply list_elem_of_In, filter_In in Hy as [? _]. by apply list_elem_of_In.
Qed.

Lemma Forall_List_filter {A} (P : A → Prop) (p : A → bool) (l : list A) :
  Forall P l → Forall P (List.filter p l).
Proof. induction 1; simpl; [done|]. case_match; auto. Qed.

Lemma Forall_filter_and {A} (P : A → Prop) (p : A → bool) (l : list A) :
  Forall P l → Forall (λ x, P x ∧ p x = true) (List.filter p l).
Proof. induction 1; simpl; [done|]. case_match; auto. Qed.

Lemma NoDup_map_snoc {A B} (f : A → B) (l : list A) x :
  NoDup (map f l) → Forall (λ y, f y ≠ f x) l → NoDup (map f (l ++ [x])).
Proof.
  intros Hl Hx. rewrite map_app. apply NoDup_app. split_and!; [done| |apply NoDup_singleton].
  intros y Hy. simpl. rewrite list_elem_of_singleton. intros ->.
  apply list_elem_of_fmap in Hy as (z&Hz&Hin). rewrite Forall_forall in Hx.
  by apply (Hx z Hin).
Qed.

Lemma existsb_false_Forall {A} (p : A → bool) (l : list A) :
  existsb p l = false → Forall (λ x, p x = false) l.
Proof. induction l; simpl; [done|]. intros. bool_clean. auto. Qed.

Lemma existsb_elem {A} (p : A → bool) (l : list A) :
  existsb p l = true → ∃ x, x ∈ l ∧ p x = true.
Proof.
  rewrite existsb_exists. intros (x&Hx&?). exists x. by rewrite list_elem_of_In.
Qed.

Lemma find_elem {A} (p : A → bool) (l : list A) x :
  List.find p l = Some x → x ∈ l ∧ p x = true.
Proof. intros H%find_some. by rewrite list_elem_of_In. Qed.

Lemma map_update_user {B} (g : User → B) id f (l : list User) :
  (∀ u, g (f u) = g u) → map g (map (update_user id f) l) = map g l.
Proof.
  intros Hf. rewrite map_map. apply map_ext. intros u. unfold update_user. by case_match.
Qed.

Lemma Forall_map_update {P : User → Prop} id f (l : list User) :
  (∀ u, P u → P (f u)) → Forall P l → Forall P (map (update_user id f) l).
Proof.
  intros Hf. induction 1; simpl; constructor; [|done]. unfold update_user.
  case_match; auto.
Qed.

Lemma app_base_eta w : with_base w (base w) = w.
Proof. by destruct w. Qed.

Section facts.
Context {order : RowOrder}.
Variable driver_error : DBType → string → option error.
Variable fault : nat → option error.
Variables clock db_clock : nat → Z.
Variable bcrypt : nat → string → result string.
Variable random : nat → nat → result (list N).
Notation handle := (user_handle driver_error fault clock db_clock bcrypt random).

(** A statement is refused, or has its effect. *)
Lemma uexec_cases w ph f :
  (∃ err, uexec driver_error fault w ph f = (Some err, with_base w (counted (base w)))) ∨
  uexec driver_error fault w ph f = (f.1, with_base f.2 (counted (base w))).
Proof. unfold uexec. case_match; [left; by eexists|by right]. Qed.

Lemma uquery_cases {A} w ph (f : result A * app) :
  (∃ err, uquery driver_error fault w ph f = (inr err, with_base w (counted (base w)))) ∨
  uquery driver_error fault w ph f = (f.1, with_base f.2 (counted (base w))).
Proof. unfold uquery. case_match; [left; by eexists|by right]. Qed.

Lemma store_handle_dbType X (e : StoreE X) s :
  dbType (store_handle driver_error fault clock db_clock X e s).2 = dbType s.
Proof. destruct e; simpl; unfold query, exec; repeat case_match; done. Qed.

(** Only the user tables matter. *)
Lemma users_ok_base w s : dbType s = dbType (base w) → users_ok w → users_ok (with_base w s).
Proof. intros Hs []. split; simpl; try done. by rewrite Hs. Qed.

Lemma insert_user_ok w username hash role now :
  existsb (has_name username) (users w) = false → users_ok w →
  users_ok (with_users w (users w ++
    [{| u_ID := next_user w; Username := username; PasswordHash := hash; Role := role;
        u_CreatedAt := now; u_UpdatedAt := now |}]) (next_user w + 1)).
Proof.
  intros Hn%existsb_false_Forall []. split; simpl; try done.
  - apply NoDup_map_snoc; [done|]. apply (Forall_impl _ _ _ Hn). intros u Hu. simpl.
    by apply bool_decide_eq_false in Hu.
  - apply NoDup_map_snoc; [done|]. apply (Forall_impl _ _ _ ok_next_user0). simpl. lia.
  - apply Forall_app. split; [|repeat constructor; simpl; lia].
    apply (Forall_impl _ _ _ ok_next_user0). simpl. lia.
  - intros Hr. eapply Forall_impl; [by apply ok_owners0|]. intros s Hs.
    rewrite map_app. apply elem_of_app. by left.
Qed.

Lemma update_user_ok w id f :
  (∀ u, Username (f u) = Username u) → (∀ u, u_ID (f u) = u_ID u) → users_ok w →
  users_ok (with_users w (map (update_user id f) (users w)) (next_user w)).
Proof.
  intros Hn Hi []. split; simpl; rewrite ?map_update_user by done; try done.
  apply Forall_map_update; [|done]. intros u. by rewrite Hi.
Qed.

Lemma filter_sessions_ok w p : users_ok w →
  users_ok (with_sessions w (List.filter p (sessions w)) (next_session w)).
Proof.
  intros []. split; simpl; auto using NoDup_map_filter, Forall_List_filter.
Qed.

Lemma delete_user_ok w id : users_ok w →
  users_ok (with_sessions (with_users w (List.filter (λ u, negb (has_id id u)) (users w))
    (next_user w)) (List.filter (λ s, negb (of_user id s)) (sessions w)) (next_session w)).
Proof.
  intros []. split; simpl; auto using NoDup_map_filter, Forall_List_filter.
  intros Hr. eapply Forall_impl; [by apply Forall_filter_and, ok_owners0|].
  intros s [Hs Hid]. simpl in Hid. apply list_elem_of_fmap in Hs as (u&Hu&Hin).
  apply list_elem_of_fmap. exists u. split; [done|].
  apply list_elem_of_In, filter_In. split; [by apply list_elem_of_In|].
  unfold of_user, has_id in *. by rewrite <-Hu.
Qed.

Lemma delete_user_row_ok w id : references_users (dbType (base w)) = false → users_ok w →
  users_ok (with_users w (List.filter (λ u, negb (has_id id u)) (users w)) (next_user w)).
Proof.
  intros Hr []. split; simpl; auto using NoDup_map_filter, Forall_List_filter.
  by rewrite Hr.
Qed.

Lemma insert_session_ok w id token expiresAt now :
  references_users (dbType (base w)) && negb (existsb (has_id id) (users w)) = false →
  existsb (has_token token) (sessions w) = false → users_ok w →
  users_ok (with_sessions w (sessions w ++
    [{| s_ID := next_session w; s_UserID := id; Token := token; ExpiresAt := expiresAt;
        s_CreatedAt := now |}]) (next_session w + 1)).
Proof.
  intros Hr Ht%existsb_false_Forall []. split; simpl; try done.
  - apply NoDup_map_snoc; [done|]. apply (Forall_impl _ _ _ Ht). intros s Hs. simpl.
    by apply bool_decide_eq_false in Hs.
  - apply NoDup_map_snoc; [done|]. apply (Forall_impl _ _ _ ok_next_session0). simpl. lia.
  - apply Forall_app. split; [|repeat constructor; simpl; lia].
    apply (Forall_impl _ _ _ ok_next_session0). simpl. lia.
  - intros Href. apply Forall_app. split; [by apply ok_owners0|].
    rewrite Href in Hr. simpl in Hr. apply negb_false_iff, existsb_elem in Hr as (u&Hu&Hid).
    repeat constructor. simpl. apply list_elem_of_fmap. exists u. split; [|done].
    unfold has_id in Hid. by bool_clean.
Qed.

Lemma user_handle_ok X (e : UserE X) w : users_ok w → users_ok (handle X e w).2.
Proof.
  intros Hok. destruct e; simpl;
    try (match goal with
         | |- context [uexec _ _ ?w ?ph ?f] => destruct (uexec_cases w ph f) as [[? ->]| ->]
         | |- context [uquery _ _ ?w ?ph ?f] => destruct (uquery_cases w ph f) as [[? ->]| ->]
         end; simpl; [by apply users_ok_base| try (by apply users_ok_base)]).
  - pose proof (store_handle_dbType X e (base w)) as Ht.
    destruct (store_handle driver_error fault clock db_clock X e (base w)) as [x s].
    simpl in *. by apply users_ok_base.
  - case_match; simpl; [by apply users_ok_base|]. apply users_ok_base; [done|].
    by apply insert_user_ok.
  - apply users_ok_base; [done|]. by apply update_user_ok.
  - apply users_ok_base; [done|]. by apply update_user_ok.
  - apply users_ok_base; [done|]. by apply filter_sessions_ok.
  - destruct (references_users (dbType (base w))) eqn:Hr.
    + apply users_ok_base; [done|]. by apply delete_user_ok.
    + apply users_ok_base; [done|]. by apply delete_user_row_ok.
  - destruct (_ && _) eqn:Hr; simpl; [by apply users_ok_base|].
    case_match; simpl; [by apply users_ok_base|]. apply users_ok_base; [done|].
    by apply insert_session_ok.
  - apply users_ok_base; [done|]. by apply filter_sessions_ok.
  - apply users_ok_base; [done|]. by apply filter_sessions_ok.
  - destruct Hok. by split.
  - destruct Hok. by split.
  - destruct Hok. by split.
Qed.
End facts.
