(* ===== verification/Security.v ===== *)
(** * Encryption of stored credentials ([security/])

    [Encryptor] is the interface of [security/crypto.go]; each encryption
    draws fresh entropy, whose index is an argument.  [AESEncryptor] is its
    instance over AES-GCM ([Seal] and [Open], whose law is that opening what
    was sealed with the same key and nonce gives the plaintext back), the
    random source and PBKDF2, which are parameters.  [resolveEncryptor] of
    [main.go] is the last section. *)

From S2P Require Import Prelude GoLang Effects Store.

(** ** UTF-8 *)

(** [utf8.ValidString]: no overlong forms, surrogates or runes past U+10FFFF. *)
Definition between (lo hi : N) (c : ascii) : bool :=
  ((lo <=? N_of_ascii c) && (N_of_ascii c <=? hi))%N.
Definition cont : ascii → bool := between 128 191.
Fixpoint valid_bytes (l : list ascii) : bool :=
  match l with
  | [] => true
  | a :: l1 =>
      if between 0 127 a then valid_bytes l1
      else match l1 with
      | [] => false
      | b :: l2 =>
          if between 194 223 a then cont b && valid_bytes l2
          else match l2 with
          | [] => false
          | c :: l3 =>
              if between 224 239 a then
                between (if between 224 224 a then 160 else 128)
                        (if between 237 237 a then 159 else 191) b
                && cont c && valid_bytes l3
              else match l3 with
              | [] => false
              | d :: l4 =>
                  between 240 244 a
                  && between (if between 240 240 a then 144 else 128)
                             (if between 244 244 a then 143 else 191) b
                  && cont c && cont d && valid_bytes l4
              end
          end
      end
  end.
Definition ValidString (s : string) : bool := valid_bytes (String.list_ascii_of_string s).

(** ** The interface *)

Class Encryptor := {
  EncryptString : nat → string → result string;
  DecryptString : string → result string }.

(** An encryptor whose source of entropy does not fail. *)
Class EncryptorLaws `{Encryptor} := {
  encrypt_text n p : ∃ c, EncryptString n p = inl c ∧ ValidString c = true ∧ c ≠ "";
  decrypt_encrypt n p c : EncryptString n p = inl c → DecryptString c = inl p }.

(** ** [base64.URLEncoding] *)

Definition url_of_std (c : ascii) : ascii :=
  if bool_decide (c = "+"%char) then "-"%char
  else if bool_decide (c = "/"%char) then "_"%char else c.
(** ['+'] and ['/'] are no characters of this encoding, as ['!'] is none of
    the standard one. *)
Definition std_of_url (c : ascii) : ascii :=
  if bool_decide (c = "-"%char) then "+"%char
  else if bool_decide (c = "_"%char) then "/"%char
  else if bool_decide (c = "+"%char) || bool_decide (c = "/"%char) then "!"%char else c.

Definition URL_EncodeToString (s : string) : string := map_str url_of_std (base64.EncodeToString s).
Definition URL_DecodeString (s : string) : result string := base64.DecodeString (map_str std_of_url s).

Definition base64_char (c : ascii) : Prop := c ∈ "="%char :: base64.alphabet.

Lemma char_of_base64 n : base64_char (base64.char_of n).
Proof.
  unfold base64_char, base64.char_of. destruct (decide (N.to_nat n < length base64.alphabet)) as [Hn|Hn].
  - apply list_elem_of_further, list_elem_of_In, nth_In, Hn.
  - rewrite nth_overflow by lia. left.
Qed.

Lemma encode_base64 s : Forall base64_char (base64.encode s).
Proof.
  assert (base64_char "="%char) as Heq by left. pose proof char_of_base64 as Hc.
  induction s as [[|a [|b [|c s]]] IH] using (induction_ltof1 _ length);
    unfold ltof in IH; cbn [base64.encode]; unfold base64.sextets3; cbn [take app];
    rewrite ?Forall_cons; split_and?; auto.
  apply IH. simpl. lia.
Qed.

Lemma url_std c : base64_char c → std_of_url (url_of_std c) = c.
Proof.
  intros Hc. assert (Forall (λ c, std_of_url (url_of_std c) = c) ("="%char :: base64.alphabet)) as Hall
    by (apply (bool_decide_unpack _); vm_compute; exact I).
  rewrite Forall_forall in Hall. by apply Hall.
Qed.

Lemma URL_DecodeString_EncodeToString s : URL_DecodeString (URL_EncodeToString s) = inl s.
Proof.
  unfold URL_DecodeString, URL_EncodeToString, map_str, base64.EncodeToString.
  rewrite !String.list_ascii_of_string_of_list_ascii, map_map.
  replace (map _ (base64.encode _)) with (base64.encode (String.list_ascii_of_string s));
    [apply base64.DecodeString_EncodeToString|].
  symmetry. induction (encode_base64 (String.list_ascii_of_string s)); simpl; [done|].
  f_equal; [by apply url_std|done].
Qed.

Lemma base64_valid l : Forall base64_char l → valid_bytes l = true.
Proof.
  intros Hl. assert (Forall (λ c, between 0 127 c = true) ("="%char :: base64.alphabet)) as Hall
    by (apply (bool_decide_unpack _); vm_compute; exact I). rewrite Forall_forall in Hall.
  induction Hl as [|c l Hc _ IH]; simpl; [done|]. by rewrite (Hall c Hc).
Qed.

Lemma ValidString_EncodeToString s : ValidString (base64.EncodeToString s) = true.
Proof.
  unfold ValidString, base64.EncodeToString. rewrite String.list_ascii_of_string_of_list_ascii.
  apply base64_valid, encode_base64.
Qed.

(** ** AES-256-GCM *)

(** [cipher.AEAD]: [Seal] and [Open] with a key, a nonce and no further data. *)
Class GcmOps := {
  NonceSize : nat;
  Seal : string → string → string → string;
  Open : string → string → string → option string }.
Class GcmLaws `{GcmOps} := {
  nonce_size : 0 < NonceSize;
  open_seal key nonce p : String.length nonce = NonceSize → Open key nonce (Seal key nonce p) = Some p }.

Section aes.
Context `{!GcmOps}.
(** What [rand.Reader] gives, asked for the n-th time for so many bytes. *)
Variable random : nat → nat → result string.
Variable pbkdf2 : string → string → Z → nat → result string.

(** [aes.NewCipher]. *)
Definition NewCipher (key : string) : option error :=
  if bool_decide (String.length key ∈ [16; 24; 32]) then None
  else Some ("crypto/aes: invalid key size " +:+ itoa (Z.of_nat (String.length key))).

Definition NewAESEncryptor (key : string) : result string :=
  if bool_decide (String.length key ≠ 32)
  then inr ("security: AES-256 key must be 32 bytes, got " +:+ itoa (Z.of_nat (String.length key)))
  else inl key.

Definition Encrypt (key : string) (n : nat) (plaintext : string) : result string :=
  match NewCipher key with
  | Some err => inr ("security: failed to create AES cipher: " +:+ err)
  | None =>
      match random n NonceSize with
      | inr err => inr ("security: failed to generate nonce: " +:+ err)
      | inl nonce => inl (base64.EncodeToString (nonce +:+ Seal key nonce plaintext))
      end
  end.

Definition Decrypt (key ciphertext : string) : result string :=
  match base64.DecodeString ciphertext with
  | inr err => inr ("security: failed to decode ciphertext: " +:+ err)
  | inl data =>
      match NewCipher key with
      | Some err => inr ("security: failed to create AES cipher: " +:+ err)
      | None =>
          if String.length data <? NonceSize then inr "security: ciphertext too short"
          else
            match Open key (take_str NonceSize data) (drop_str NonceSize data) with
            | None => inr ("security: decryption failed (wrong key or corrupted data): " +:+
                           "cipher: message authentication failed")
            | Some plaintext => inl plaintext
            end
      end
  end.

Definition AESEncryptor (key : string) : Encryptor :=
  {| EncryptString := Encrypt key; DecryptString := Decrypt key |}.

Definition DerivedKeyLen : nat := 32.
Definition SaltLen : nat := 32.
Definition pbkdf2Iterations : Z := 600000.

Definition GenerateRandomBytes (n i : nat) : result string :=
  match random n i with
  | inr err => inr ("security: failed to generate random bytes: " +:+ err)
  | inl b => inl b
  end.

Definition GenerateMasterKey (n : nat) : result string :=
  match GenerateRandomBytes n DerivedKeyLen with
  | inr err => inr err
  | inl b => inl (URL_EncodeToString b)
  end.

Definition MasterKeyFromString (encoded : string) : result string :=
  match URL_DecodeString encoded with
  | inr err => inr ("security: invalid master key encoding: " +:+ err)
  | inl b =>
      if bool_decide (String.length b ≠ DerivedKeyLen)
      then inr ("security: master key must be " +:+ itoa (Z.of_nat DerivedKeyLen) +:+
                " bytes, got " +:+ itoa (Z.of_nat (String.length b)))
      else inl b
  end.

Definition GenerateSalt (n : nat) : result string :=
  match GenerateRandomBytes n SaltLen with
  | inr err => inr err
  | inl b => inl (base64.EncodeToString b)
  end.

Definition DeriveKey (passphrase saltBase64 : string) : result string :=
  match base64.DecodeString saltBase64 with
  | inr err => inr ("security: invalid salt encoding: " +:+ err)
  | inl salt =>
      match pbkdf2 passphrase salt pbkdf2Iterations DerivedKeyLen with
      | inr err => inr ("security: PBKDF2 key derivation failed: " +:+ err)
      | inl key => inl key
      end
  end.

(** ** What decryption undoes *)

Hypothesis random_bytes : ∀ n i, ∃ b, random n i = inl b ∧ String.length b = i.

Lemma take_drop_append a b :
  take_str (String.length a) (a +:+ b) = a ∧ drop_str (String.length a) (a +:+ b) = b.
Proof. induction a; simpl; [by destruct b|]. destruct IHa. split; congruence. Qed.

Lemma NewCipher_32 key : String.length key = 32 → NewCipher key = None.
Proof. intros Hk. unfold NewCipher. by rewrite Hk. Qed.

Lemma Encrypt_ok `{!GcmLaws} key n p : String.length key = 32 →
  ∃ c, Encrypt key n p = inl c ∧ ValidString c = true ∧ c ≠ "".
Proof.
  intros Hk. unfold Encrypt. rewrite NewCipher_32 by done.
  destruct (random_bytes n NonceSize) as (b & -> & Hb). eexists. split; [done|].
  split; [apply ValidString_EncodeToString|]. intros Hc.
  pose proof (base64.DecodeString_EncodeToString (b +:+ Seal key b p)) as Hd. rewrite Hc in Hd.
  injection Hd as Hd. apply (f_equal String.length) in Hd. rewrite append_length in Hd. simpl in Hd.
  pose proof nonce_size. lia.
Qed.

Lemma Decrypt_Encrypt `{!GcmLaws} key n p c : String.length key = 32 →
  Encrypt key n p = inl c → Decrypt key c = inl p.
Proof.
  intros Hk. unfold Encrypt, Decrypt. rewrite NewCipher_32 by done.
  destruct (random_bytes n NonceSize) as (b & -> & Hb). intros [= <-].
  rewrite base64.DecodeString_EncodeToString, append_length.
  replace (_ <? NonceSize) with false by (symmetry; apply Nat.ltb_ge; lia).
  rewrite <- Hb. destruct (take_drop_append b (Seal key b p)) as [-> ->]. by rewrite open_seal.
Qed.

(** A generated master key is one that [MasterKeyFromString] and
    [NewAESEncryptor] take. *)
Lemma MasterKey_roundtrip n : ∃ s key, GenerateMasterKey n = inl s ∧
  MasterKeyFromString s = inl key ∧ NewAESEncryptor key = inl key ∧ String.length key = 32.
Proof.
  unfold GenerateMasterKey, GenerateRandomBytes, MasterKeyFromString, NewAESEncryptor.
  destruct (random_bytes n DerivedKeyLen) as (b & -> & Hb). exists (URL_EncodeToString b), b.
  rewrite URL_DecodeString_EncodeToString, Hb. by unfold DerivedKeyLen in Hb.
Qed.
End aes.

(** AES with a key of 32 bytes is an encryptor as the configuration store
    expects it. *)
Lemma AESEncryptor_laws `{!GcmOps, !GcmLaws} random key :
  (∀ n i, ∃ b, random n i = inl b ∧ String.length b = i) → String.length key = 32 →
  @EncryptorLaws (AESEncryptor random key).
Proof.
  intros Hr Hk. split.
  - intros n p. by apply Encrypt_ok.
  - intros n p c. by apply Decrypt_Encrypt.
Qed.

(** ** The master key of [main.go] *)

Section resolve.
Context `{!GcmOps}.
Variable random : nat → nat → result string.

#[local] Open Scope syncer_scope.

(** [keyStr] is MASTER_ENCRYPTION_KEY, empty when it is not set; a generated
    key is printed, and comes with the result.  [n] counts the draws. *)
Definition key_encryptor (keyStr : string) : result string :=
  match MasterKeyFromString keyStr with
  | inr err => inr ("invalid MASTER_ENCRYPTION_KEY: " +:+ err)
  | inl keyBytes =>
      match NewAESEncryptor keyBytes with
      | inr err => inr ("failed to create encryptor: " +:+ err)
      | inl enc => inl enc
      end
  end.

Definition resolveEncryptor (t : DBType) (n : nat) (keyStr : string)
    : prog StoreE (option string * result string) :=
  if bool_decide (keyStr ≠ "") then Ret (None, key_encryptor keyStr)
  else
    let* r := GetSetting t "master_key_initialized" in
    match r with
    | inr err => Ret (None, inr ("failed to check master key status: " +:+ err))
    | inl (Some _) =>
        Ret (None, inr "MASTER_ENCRYPTION_KEY environment variable is required but not set")
    | inl None =>
        match GenerateMasterKey random n with
        | inr err => Ret (None, inr ("failed to generate master key: " +:+ err))
        | inl generated =>
            let* err := SetSetting t "master_key_initialized" "true" in
            Ret (Some generated,
                 match err with
                 | Some err => inr ("failed to persist key marker: " +:+ err)
                 | None => key_encryptor generated
                 end)
        end
    end.

(** A key given by the environment leaves no marker: a later start without it
    makes another key, with which nothing that is stored can be read. *)
Lemma resolveEncryptor_unmarked t n keyStr : keyStr ≠ "" →
  resolveEncryptor t n keyStr = Ret (None, key_encryptor keyStr).
Proof. intros Hk. unfold resolveEncryptor. by rewrite bool_decide_true. Qed.
End resolve.

(** ** An instance *)

(** A cipher that only authenticates: the nonce is its tag. *)
Definition tag_cipher : GcmOps := {|
  NonceSize := 12;
  Seal key nonce p := nonce +:+ p;
  Open key nonce c :=
    if bool_decide (take_str (String.length nonce) c = nonce)
    then Some (drop_str (String.length nonce) c) else None |}.

Lemma tag_cipher_laws : @GcmLaws tag_cipher.
Proof.
  split; [simpl; lia|]. intros key nonce p _. simpl.
  destruct (take_drop_append nonce p) as [-> ->]. by rewrite bool_decide_true.
Qed.

Fixpoint repeat_str (n : nat) (c : ascii) : string :=
  match n with O => EmptyString | S n => String c (repeat_str n c) end.
Definition tag_random (n i : nat) : result string := inl (repeat_str i "r"%char).

Lemma tag_random_bytes n i : ∃ b, tag_random n i = inl b ∧ String.length b = i.
Proof. eexists. split; [done|]. induction i as [|i IH]; simpl; [done|]. by f_equal. Qed.

Definition tag_key : string := repeat_str 32 "k"%char.
#[export] Instance tag_encryptor : Encryptor := @AESEncryptor tag_cipher tag_random tag_key.
#[export] Instance tag_encryptor_laws : EncryptorLaws.
Proof.
  apply (@AESEncryptor_laws tag_cipher tag_cipher_laws); [apply tag_random_bytes|reflexivity].
Qed.
