(* ===== verification/ConfigStore.v ===== *)
(** * The configuration in the database
      ([storage/config_store.go], [api/handler_config.go])

    The tables [config_vaults] and [config_syncs], one atomic call per SQL
    statement, the operations of the configuration store and the handlers of
    the configuration endpoints.  The text of a row is what [encoding/json]
    makes of a configuration, through the interface [JsonCodec]; the bodies of
    requests are the configurations they decode to.  Ids are compared byte by
    byte, as SQLite and PostgreSQL do.  [SaveVault] works on a
    copy of its argument that shares the authentication with it, so that it
    also gives what the caller's value has become. *)

From S2P Require Import Prelude GoLang Config Effects Store Security.

(** ** JSON *)

(** [T] is the type of texts, [no_text] tells the empty one. *)
Class JsonCodec (T : Type) := {
  Marshal_vault : VaultConfig → result T;
  Unmarshal_vault : T → result VaultConfig;
  Marshal_sync : SyncConfig → result T;
  Unmarshal_sync : T → result SyncConfig;
  no_text : T → bool }.

(** The fields tagged ["-"] are not written. *)
Definition wire_vault (v : VaultConfig) : VaultConfig :=
  {| v_ID := v_ID v; v_Name := v_Name v; v_Type := v_Type v; v_Endpoint := v_Endpoint v;
     v_Method := v_Method v; v_Auth := v_Auth v; v_FieldNames := v_FieldNames v;
     v_Headers := v_Headers v; OperationsOverride := OperationsOverride v;
     v_Timeout := v_Timeout v; SkipSSLVerify := SkipSSLVerify v; ToolConfig := ToolConfig v;
     ResolvedTool := None; LegacyAuthMethod := ""; LegacyAuthHeaders := None |}.

(** What JSON keeps: strings that are UTF-8, integers of 64 bits and finite
    numbers. *)
Definition text (s : string) : Prop := ValidString s = true.
Definition int64 (n : Z) : Prop := (- 2 ^ 63 ≤ n < 2 ^ 63)%Z.
Definition texts (m : option (gmap string string)) : Prop :=
  from_option (map_Forall (λ k v, text k ∧ text v)) True m.
Definition oauth_ok (o : OAuthConfig) : Prop :=
  text (TokenEndpoint o) ∧ text (ClientID o) ∧ text (ClientSecret o) ∧ text (Scope o) ∧
  texts (ExtraParams o).
Definition auth_ok (a : AuthConfig) : Prop :=
  text (auth_Method a) ∧ texts (auth_Headers a) ∧ from_option oauth_ok True (OAuth a).
Definition operation_ok (o : OperationConfig) : Prop :=
  text (op_Method o) ∧ text (op_Endpoint o) ∧ Forall int64 (StatusCodes o) ∧
  from_option (λ p, text (rp_ListPath p) ∧ text (rp_NameField p) ∧ text (rp_ValuePath p)) True
    (ResponseParserOf o).
Definition vault_ok (v : VaultConfig) : Prop :=
  Forall text [v_ID v; v_Name v; v_Type v; v_Endpoint v; v_Method v; ToolConfig v;
               fn_NameField (v_FieldNames v); fn_ValueField (v_FieldNames v)] ∧
  from_option auth_ok True (v_Auth v) ∧ texts (v_Headers v) ∧
  from_option (map_Forall (λ k o, text k ∧ from_option operation_ok True o)) True
    (OperationsOverride v) ∧
  int64 (v_Timeout v).
Definition sync_ok (s : SyncConfig) : Prop :=
  Forall text ([s_ID s; s_Source s; SyncType s; Schedule s] ++ Targets s ++
               Patterns (Filter s) ++ Exclude (Filter s)) ∧
  Forall (λ t, text (tr_Field t) ∧ text (tr_Type t) ∧ text (tr_Value t)) (Transforms s) ∧
  Forall int64 [MaxRetries (s_RetryPolicy s); InitialBackoff (s_RetryPolicy s);
                MaxBackoff (s_RetryPolicy s); ConcurrentWorkers s] ∧
  match Multiplier (s_RetryPolicy s) with S754_infinity _ | S754_nan => False | _ => True end.

(** What is written reads back as the fields that are written. *)
Class JsonLaws (T : Type) `{JsonCodec T} := {
  vault_json v : vault_ok v → ∃ d, Marshal_vault v = inl d ∧ no_text d = false ∧
    Unmarshal_vault d = inl (wire_vault v);
  sync_json s : sync_ok s → ∃ d, Marshal_sync s = inl d ∧ no_text d = false ∧
    Unmarshal_sync d = inl s }.

(** ** Rows and calls *)

Inductive table := config_vaults | config_syncs.
Definition table_name (t : table) : string :=
  match t with config_vaults => "config_vaults" | config_syncs => "config_syncs" end.

Section store.
Context {T : Type}.

Record config_row := { row_id : string; config_json : T; created_at : Z; c_updated_at : Z }.

(** The tables, their dialect, the statements, clock readings and draws of
    entropy so far, and how often [onConfigChanged] was called. *)
Record cworld := {
  c_dbType : DBType; vault_rows : list config_row; sync_rows : list config_row;
  c_stmts : nat; c_ticks : nat; draws : nat; notified : nat }.

Definition rows_of (t : table) (w : cworld) : list config_row :=
  match t with config_vaults => vault_rows w | config_syncs => sync_rows w end.
Definition with_rows (t : table) (l : list config_row) (w : cworld) : cworld :=
  {| c_dbType := c_dbType w;
     vault_rows := match t with config_vaults => l | config_syncs => vault_rows w end;
     sync_rows := match t with config_vaults => sync_rows w | config_syncs => l end;
     c_stmts := c_stmts w; c_ticks := c_ticks w; draws := draws w; notified := notified w |}.
Definition count_stmt (w : cworld) : cworld :=
  {| c_dbType := c_dbType w; vault_rows := vault_rows w; sync_rows := sync_rows w;
     c_stmts := S (c_stmts w); c_ticks := c_ticks w; draws := draws w; notified := notified w |}.
Definition count_tick (w : cworld) : cworld :=
  {| c_dbType := c_dbType w; vault_rows := vault_rows w; sync_rows := sync_rows w;
     c_stmts := c_stmts w; c_ticks := S (c_ticks w); draws := draws w; notified := notified w |}.
Definition count_draw (w : cworld) : cworld :=
  {| c_dbType := c_dbType w; vault_rows := vault_rows w; sync_rows := sync_rows w;
     c_stmts := c_stmts w; c_ticks := c_ticks w; draws := S (draws w); notified := notified w |}.
Definition notify (w : cworld) : cworld :=
  {| c_dbType := c_dbType w; vault_rows := vault_rows w; sync_rows := sync_rows w;
     c_stmts := c_stmts w; c_ticks := c_ticks w; draws := draws w; notified := S (notified w) |}.

Inductive ConfigE : Type → Type :=
| ConfigNow : ConfigE Z
| ExecUpdateRow (ph : string) (t : table) (id : string) (json : T) (now : Z) : ConfigE (result Z)
| CountRows (n : Z) : ConfigE (result Z)    (* RowsAffected of the result of an UPDATE *)
| ExecInsertRow (ph : string) (t : table) (id : string) (json : T) (now : Z) : ConfigE (option error)
| ExecDeleteRow (ph : string) (t : table) (id : string) : ConfigE (option error)
| QueryRow (ph : string) (t : table) (id : string) : ConfigE (result (option T))
| QueryRows (t : table) : ConfigE (result (list T))
| CallEncrypt (plaintext : string) : ConfigE (result string)
| OnConfigChanged : ConfigE unit.    (* [go h.onConfigChanged()] *)

Definition has_row_id (id : string) (r : config_row) : bool := bool_decide (row_id r = id).
Definition update_config (id : string) (json : T) (now : Z) (r : config_row) : config_row :=
  if has_row_id id r
  then {| row_id := row_id r; config_json := json; created_at := created_at r; c_updated_at := now |}
  else r.

(** ORDER BY created_at ASC. *)
Definition oldest_first `{RowOrder} (l : list config_row) : list config_row :=
  sort_rows created_at l.

Section handler.
Context {order : RowOrder} `{!Encryptor}.
Variable driver_error : DBType → string → option error.
Variable fault : nat → option error.
Variable clock : nat → Z.

Definition c_refused (w : cworld) (ph : string) : option error :=
  match driver_error (c_dbType w) ph with
  | Some e => Some e
  | None => fault (c_stmts w)
  end.
Definition cquery {A} (w : cworld) (ph : string) (f : result A * cworld) : result A * cworld :=
  match c_refused w ph with Some e => (inr e, count_stmt w) | None => (f.1, count_stmt f.2) end.
Definition cexec (w : cworld) (ph : string) (f : option error * cworld) : option error * cworld :=
  match c_refused w ph with Some e => (Some e, count_stmt w) | None => (f.1, count_stmt f.2) end.

Definition config_handle X (e : ConfigE X) : cworld → X * cworld :=
  match e in ConfigE X return cworld → X * cworld with
  | ConfigNow => λ w, (clock (c_ticks w), count_tick w)
  | ExecUpdateRow ph t id json now => λ w, cquery w ph
      (inl (Z.of_nat (length (List.filter (has_row_id id) (rows_of t w)))),
       with_rows t (map (update_config id json now) (rows_of t w)) w)
  | CountRows n => λ w,
      (match fault (c_stmts w) with Some e => inr e | None => inl n end, count_stmt w)
  | ExecInsertRow ph t id json now => λ w, cexec w ph
      (if existsb (has_row_id id) (rows_of t w) then (Some unique_violation, w)
       else (None, with_rows t (rows_of t w ++
         [{| row_id := id; config_json := json; created_at := now; c_updated_at := now |}]) w))
  | ExecDeleteRow ph t id => λ w, cexec w ph
      (None, with_rows t (List.filter (λ r, negb (has_row_id id r)) (rows_of t w)) w)
  | QueryRow ph t id => λ w, cquery w ph
      (inl (config_json <$> List.find (has_row_id id) (rows_of t w)), w)
  | QueryRows t => λ w, cquery w "" (inl (map config_json (oldest_first (rows_of t w))), w)
  | CallEncrypt p => λ w, (EncryptString (draws w) p, count_draw w)
  | OnConfigChanged => λ w, (tt, notify w)
  end.
End handler.

(** ** The operations of the store *)

#[local] Open Scope syncer_scope.
Context `{!JsonCodec T, !Encryptor}.
(** The order in which [range] visits a map. *)
Variable entries : gmap string string → list (string * string).
Variable dbType : DBType.
(** Whether [SetEncryptor] was called; main always does. *)
Variable encrypting : bool.

Definition upsertConfigRow (t : table) (id : string) (json : T) : prog ConfigE (option error) :=
  let* ns := call ConfigNow in
  let now := Unix ns in
  let* res := call (ExecUpdateRow (placeholder dbType 1) t id json now) in
  match res with
  | inr err => Ret (Some ("storage: upsert " +:+ table_name t +:+ " update: " +:+ err))
  | inl affected =>
      let* n := call (CountRows affected) in
      match n with
      | inr err => Ret (Some ("storage: upsert " +:+ table_name t +:+ " rowsAffected: " +:+ err))
      | inl n =>
          if (n =? 0)%Z then
            let* err := call (ExecInsertRow (placeholders dbType 1 4) t id json now) in
            Ret (match err with
                 | Some err => Some ("storage: upsert " +:+ table_name t +:+ " insert: " +:+ err)
                 | None => None
                 end)
          else Ret None
      end
  end.

(** [nil] stands for the empty string. *)
Definition getConfigJSON (t : table) (id : string) : prog ConfigE (result (option T)) :=
  let* raw := call (QueryRow (placeholder dbType 1) t id) in
  Ret match raw with
      | inr err => inr ("storage: getConfigJSON " +:+ table_name t +:+ ": " +:+ err)
      | inl (Some d) => inl (if no_text d then None else Some d)
      | inl None => inl None
      end.

Definition deleteConfigRow (t : table) (msg id : string) : prog ConfigE (option error) :=
  let* err := call (ExecDeleteRow (placeholder dbType 1) t id) in
  Ret (match err with Some err => Some (msg +:+ err) | None => None end).

Definition with_auth (a : AuthConfig) (v : VaultConfig) : VaultConfig :=
  {| v_ID := v_ID v; v_Name := v_Name v; v_Type := v_Type v; v_Endpoint := v_Endpoint v;
     v_Method := v_Method v; v_Auth := Some a; v_FieldNames := v_FieldNames v;
     v_Headers := v_Headers v; OperationsOverride := OperationsOverride v;
     v_Timeout := v_Timeout v; SkipSSLVerify := SkipSSLVerify v; ToolConfig := ToolConfig v;
     ResolvedTool := ResolvedTool v; LegacyAuthMethod := LegacyAuthMethod v;
     LegacyAuthHeaders := LegacyAuthHeaders v |}.
Definition with_secrets (hs : option (gmap string string)) (o : option OAuthConfig) (a : AuthConfig)
    : AuthConfig :=
  {| auth_Method := auth_Method a; auth_Headers := hs; OAuth := o |}.
Definition with_client_secret (s : string) (o : OAuthConfig) : OAuthConfig :=
  {| TokenEndpoint := TokenEndpoint o; ClientID := ClientID o; ClientSecret := s;
     Scope := Scope o; ExtraParams := ExtraParams o |}.

(** The loops assign to the map they range over: its keys stay. *)
Fixpoint encrypt_headers (l : list (string * string)) (m : gmap string string)
    : prog ConfigE (gmap string string * option error) :=
  match l with
  | [] => Ret (m, None)
  | (k, val) :: l =>
      let* enc := call (CallEncrypt val) in
      match enc with
      | inr err => Ret (m, Some ("storage: encrypt auth header " +:+ quoted k +:+ ": " +:+ err))
      | inl enc => encrypt_headers l (<[k := enc]> m)
      end
  end.
Fixpoint decrypt_headers (l : list (string * string)) (m : gmap string string)
    : result (gmap string string) :=
  match l with
  | [] => inl m
  | (k, val) :: l =>
      match DecryptString val with
      | inr err => inr ("storage: decrypt auth header " +:+ quoted k +:+ ": " +:+ err)
      | inl dec => decrypt_headers l (<[k := dec]> m)
      end
  end.

Definition range_headers (hs : option (gmap string string)) : list (string * string) :=
  match hs with Some m => entries m | None => [] end.

Definition encrypt_oauth (o : option OAuthConfig) : prog ConfigE (option OAuthConfig * option error) :=
  match o with
  | None => Ret (None, None)
  | Some o =>
      if bool_decide (ClientSecret o ≠ "") then
        let* enc := call (CallEncrypt (ClientSecret o)) in
        match enc with
        | inr err => Ret (Some o, Some ("storage: encrypt OAuth client_secret: " +:+ err))
        | inl enc => Ret (Some (with_client_secret enc o), None)
        end
      else Ret (Some o, None)
  end.
Definition decrypt_oauth (o : option OAuthConfig) : result (option OAuthConfig) :=
  match o with
  | None => inl None
  | Some o =>
      if bool_decide (ClientSecret o ≠ "") then
        match DecryptString (ClientSecret o) with
        | inr err => inr ("storage: decrypt OAuth client_secret: " +:+ err)
        | inl dec => inl (Some (with_client_secret dec o))
        end
      else inl (Some o)
  end.

(** The configuration as the changes in place leave it, and the error. *)
Definition encryptVaultAuth (v : VaultConfig) : prog ConfigE (VaultConfig * option error) :=
  match v_Auth v with
  | None => Ret (v, None)
  | Some a =>
      let* res := encrypt_headers (range_headers (auth_Headers a)) (default ∅ (auth_Headers a)) in
      let '(m, err) := res in
      let hs := match auth_Headers a with Some _ => Some m | None => None end in
      match err with
      | Some err => Ret (with_auth (with_secrets hs (OAuth a) a) v, Some err)
      | None =>
          let* res := encrypt_oauth (OAuth a) in
          let '(o, err) := res in
          Ret (with_auth (with_secrets hs o a) v, err)
      end
  end.

Definition decryptVaultAuth (v : VaultConfig) : result VaultConfig :=
  match v_Auth v with
  | None => inl v
  | Some a =>
      match decrypt_headers (range_headers (auth_Headers a)) (default ∅ (auth_Headers a)) with
      | inr err => inr err
      | inl m =>
          match decrypt_oauth (OAuth a) with
          | inr err => inr err
          | inl o =>
              let hs := match auth_Headers a with Some _ => Some m | None => None end in
              inl (with_auth (with_secrets hs o a) v)
          end
      end
  end.

(** The error, and what the caller's value has become. *)
Definition SaveVault (v : VaultConfig) : prog ConfigE (option error * VaultConfig) :=
  let* res := if encrypting then encryptVaultAuth v else Ret (v, None) in
  let '(raw, err) := res in
  match err with
  | Some err => Ret (Some err, raw)
  | None =>
      match Marshal_vault raw with
      | inr err => Ret (Some ("storage: SaveVault marshal: " +:+ err), raw)
      | inl data =>
          let* err := upsertConfigRow config_vaults (v_ID v) data in
          Ret (err, raw)
      end
  end.

Definition decode_vault (msg : string) (raw : T) : result VaultConfig :=
  match Unmarshal_vault raw with
  | inr err => inr (msg +:+ err)
  | inl v => if encrypting then decryptVaultAuth v else inl v
  end.

Definition GetVault (id : string) : prog ConfigE (result (option VaultConfig)) :=
  let* raw := getConfigJSON config_vaults id in
  Ret match raw with
      | inr err => inr err
      | inl None => inl None
      | inl (Some raw) =>
          match decode_vault "storage: GetVault unmarshal: " raw with
          | inr err => inr err
          | inl v => inl (Some v)
          end
      end.

Fixpoint decode_rows {A} (decode : T → result A) (l : list T) : result (list A) :=
  match l with
  | [] => inl []
  | raw :: l =>
      match decode raw with
      | inr err => inr err
      | inl v => match decode_rows decode l with inr err => inr err | inl vs => inl (v :: vs) end
      end
  end.

Definition ListVaults : prog ConfigE (result (list VaultConfig)) :=
  let* rows := call (QueryRows config_vaults) in
  Ret match rows with
      | inr err => inr ("storage: ListVaults query: " +:+ err)
      | inl rows => decode_rows (decode_vault "storage: ListVaults unmarshal: ") rows
      end.

Definition DeleteVault (id : string) : prog ConfigE (option error) :=
  deleteConfigRow config_vaults "storage: DeleteVault: " id.

Definition SaveSync (sc : SyncConfig) : prog ConfigE (option error) :=
  match Marshal_sync sc with
  | inr err => Ret (Some ("storage: SaveSync marshal: " +:+ err))
  | inl data => upsertConfigRow config_syncs (s_ID sc) data
  end.

Definition decode_sync (msg : string) (raw : T) : result SyncConfig :=
  match Unmarshal_sync raw with inr err => inr (msg +:+ err) | inl sc => inl sc end.

Definition GetSync (id : string) : prog ConfigE (result (option SyncConfig)) :=
  let* raw := getConfigJSON config_syncs id in
  Ret match raw with
      | inr err => inr err
      | inl None => inl None
      | inl (Some raw) =>
          match decode_sync "storage: GetSync unmarshal: " raw with
          | inr err => inr err
          | inl sc => inl (Some sc)
          end
      end.

Definition ListSyncs : prog ConfigE (result (list SyncConfig)) :=
  let* rows := call (QueryRows config_syncs) in
  Ret match rows with
      | inr err => inr ("storage: ListSyncs query: " +:+ err)
      | inl rows => decode_rows (decode_sync "storage: ListSyncs unmarshal: ") rows
      end.

Definition DeleteSync (id : string) : prog ConfigE (option error) :=
  deleteConfigRow config_syncs "storage: DeleteSync: " id.

Definition LoadConfig (serverCfg : ServerConfig) (loggingCfg : LoggingConfig)
    : prog ConfigE (result Config) :=
  let* vaults := ListVaults in
  match vaults with
  | inr err => Ret (inr ("storage: LoadConfig vaults: " +:+ err))
  | inl vaults =>
      let* syncs := ListSyncs in
      Ret match syncs with
          | inr err => inr ("storage: LoadConfig syncs: " +:+ err)
          | inl syncs => inl {| Vaults := vaults; Syncs := syncs;
                                Server := serverCfg; Logging := loggingCfg |}
          end
  end.

(** ** The handlers *)

Record vault_view := {
  view_id : string; view_name : string; view_type : string; view_endpoint : string;
  view_timeout : Z; view_auth_method : option string }.

Inductive config_content :=
| CError (msg : string)
| CVault (v : vault_view)
| CVaults (l : list vault_view)
| CSync (s : SyncConfig)
| CSyncs (l : list SyncConfig)
| CStatus (s : string)
| CTest (ok : bool) (message : string).
Record config_response := { c_code : Z; c_content : config_content }.
Definition config_ok (c : config_content) : config_response := {| c_code := 200; c_content := c |}.
Definition config_created (c : config_content) : config_response := {| c_code := 201; c_content := c |}.
Definition config_error (msg : string) (code : Z) : config_response :=
  {| c_code := code; c_content := CError msg |}.

Definition sanitiseVault (v : VaultConfig) : vault_view :=
  {| view_id := v_ID v; view_name := v_Name v; view_type := v_Type v;
     view_endpoint := v_Endpoint v; view_timeout := v_Timeout v;
     view_auth_method := auth_Method <$> v_Auth v |}.
Definition sanitiseVaults (l : list VaultConfig) : list vault_view := map sanitiseVault l.

Definition with_vault_id (id : string) (v : VaultConfig) : VaultConfig :=
  {| v_ID := id; v_Name := v_Name v; v_Type := v_Type v; v_Endpoint := v_Endpoint v;
     v_Method := v_Method v; v_Auth := v_Auth v; v_FieldNames := v_FieldNames v;
     v_Headers := v_Headers v; OperationsOverride := OperationsOverride v;
     v_Timeout := v_Timeout v; SkipSSLVerify := SkipSSLVerify v; ToolConfig := ToolConfig v;
     ResolvedTool := ResolvedTool v; LegacyAuthMethod := LegacyAuthMethod v;
     LegacyAuthHeaders := LegacyAuthHeaders v |}.
Definition with_sync_id (id : string) (s : SyncConfig) : SyncConfig :=
  {| s_ID := id; s_Source := s_Source s; Targets := Targets s; SyncType := SyncType s;
     Schedule := Schedule s; Filter := Filter s; Transforms := Transforms s;
     s_RetryPolicy := s_RetryPolicy s; ConcurrentWorkers := ConcurrentWorkers s;
     Enabled := Enabled s |}.

Definition reply (r : config_response) : prog ConfigE config_response := Ret r.
Definition notifyConfigChanged (r : config_response) : prog ConfigE config_response :=
  let* _ := call OnConfigChanged in reply r.

Definition ListVaultsConfig : prog ConfigE config_response :=
  let* vaults := ListVaults in
  reply match vaults with
        | inr _ => config_error "failed to list vaults" 500
        | inl l => config_ok (CVaults (sanitiseVaults l))
        end.

Definition CreateVault (body : result VaultConfig) : prog ConfigE config_response :=
  match body with
  | inr _ => reply (config_error "invalid request body" 400)
  | inl v =>
      if bool_decide (v_ID v = "") then reply (config_error "vault id is required" 400)
      else
        let* existing := GetVault (v_ID v) in
        match existing with
        | inr _ => reply (config_error "internal error" 500)
        | inl (Some _) => reply (config_error "vault already exists" 409)
        | inl None =>
            let* res := SaveVault v in
            let '(err, v) := res in
            match err with
            | Some _ => reply (config_error "failed to save vault" 500)
            | None => notifyConfigChanged (config_created (CVault (sanitiseVault v)))
            end
        end
  end.

Definition GetVaultConfig (id : string) : prog ConfigE config_response :=
  if bool_decide (id = "") then reply (config_error "vault_id is required" 400)
  else
    let* v := GetVault id in
    reply match v with
          | inr _ => config_error "internal error" 500
          | inl None => config_error "vault not found" 404
          | inl (Some v) => config_ok (CVault (sanitiseVault v))
          end.

Definition UpdateVault (id : string) (body : result VaultConfig) : prog ConfigE config_response :=
  if bool_decide (id = "") then reply (config_error "vault_id is required" 400)
  else
    match body with
    | inr _ => reply (config_error "invalid request body" 400)
    | inl v =>
        let v := with_vault_id id v in
        let* existing := GetVault id in
        match existing with
        | inr _ => reply (config_error "internal error" 500)
        | inl None => reply (config_error "vault not found" 404)
        | inl (Some _) =>
            let* res := SaveVault v in
            let '(err, v) := res in
            match err with
            | Some _ => reply (config_error "failed to update vault" 500)
            | None => notifyConfigChanged (config_ok (CVault (sanitiseVault v)))
            end
        end
    end.

Definition DeleteVaultConfig (id : string) : prog ConfigE config_response :=
  if bool_decide (id = "") then reply (config_error "vault_id is required" 400)
  else
    let* err := DeleteVault id in
    match err with
    | Some _ => reply (config_error "failed to delete vault" 500)
    | None => notifyConfigChanged (config_ok (CStatus "deleted"))
    end.

Definition ListSyncsConfig : prog ConfigE config_response :=
  let* syncs := ListSyncs in
  reply match syncs with
        | inr _ => config_error "failed to list syncs" 500
        | inl l => config_ok (CSyncs l)
        end.

Definition CreateSync (body : result SyncConfig) : prog ConfigE config_response :=
  match body with
  | inr _ => reply (config_error "invalid request body" 400)
  | inl sc =>
      if bool_decide (s_ID sc = "") then reply (config_error "sync id is required" 400)
      else
        let* existing := GetSync (s_ID sc) in
        match existing with
        | inr _ => reply (config_error "internal error" 500)
        | inl (Some _) => reply (config_error "sync already exists" 409)
        | inl None =>
            let* err := SaveSync sc in
            match err with
            | Some _ => reply (config_error "failed to save sync" 500)
            | None => notifyConfigChanged (config_created (CSync sc))
            end
        end
  end.

Definition GetSyncConfig (id : string) : prog ConfigE config_response :=
  if bool_decide (id = "") then reply (config_error "sync_id is required" 400)
  else
    let* sc := GetSync id in
    reply match sc with
          | inr _ => config_error "internal error" 500
          | inl None => config_error "sync not found" 404
          | inl (Some sc) => config_ok (CSync sc)
          end.

Definition UpdateSync (id : string) (body : result SyncConfig) : prog ConfigE config_response :=
  if bool_decide (id = "") then reply (config_error "sync_id is required" 400)
  else
    match body with
    | inr _ => reply (config_error "invalid request body" 400)
    | inl sc =>
        let sc := with_sync_id id sc in
        let* existing := GetSync id in
        match existing with
        | inr _ => reply (config_error "internal error" 500)
        | inl None => reply (config_error "sync not found" 404)
        | inl (Some _) =>
            let* err := SaveSync sc in
            match err with
            | Some _ => reply (config_error "failed to update sync" 500)
            | None => notifyConfigChanged (config_ok (CSync sc))
            end
        end
    end.

Definition DeleteSyncConfig (id : string) : prog ConfigE config_response :=
  if bool_decide (id = "") then reply (config_error "sync_id is required" 400)
  else
    let* err := DeleteSync id in
    match err with
    | Some _ => reply (config_error "failed to delete sync" 500)
    | None => notifyConfigChanged (config_ok (CStatus "deleted"))
    end.

(** [backend] is what [vault.NewBackend] and its [TestConnection] answer. *)
Definition TestVaultConnection (backend : VaultConfig → option error)
    (body : result VaultConfig) : prog ConfigE config_response :=
  match body with
  | inr _ => reply (config_error "invalid request body" 400)
  | inl v =>
      if bool_decide (v_Endpoint v = "") then reply (config_error "endpoint is required" 400)
      else reply (config_ok match backend v with
                            | Some err => CTest false err
                            | None => CTest true "Connection successful"
                            end)
  end.

#[local] Close Scope syncer_scope.
End store.
Arguments config_row : clear implicits.
Arguments cworld : clear implicits.
Arguments ConfigE : clear implicits.
