(* ===== verification/Runner.v ===== *)
(** * Scheduling: [sync/runner.go] and the reload of [main.go]

    The cron library is the interface [CronOps], with what its documentation
    says of the jobs a scheduler holds as [CronLaws]; [list_cron] is an
    instance.  A job is the closure of [Start]: the engine and the sync it
    executes.  Locks are left out: each method is one step. *)

From S2P Require Import Prelude GoLang Config Effects Store.

(** ** The cron library *)

Class CronOps (C J : Type) := {
  cron_New : C;
  AddFunc : C → string → J → C * result Z;
  cron_Start : C → C;
  cron_Stop : C → C;
  Entry_Next : C → Z → option Z }. (* Entry(id).Next, None when there is no such entry *)

(** What a scheduler holds, and whether it runs them. *)
Class CronLaws (C J : Type) `{CronOps C J} := {
  jobs : C → list (Z * (string * J));
  active : C → bool;
  valid_schedule : string → bool;
  jobs_New : jobs cron_New = [];
  active_New : active cron_New = false;
  AddFunc_valid c s j : valid_schedule s = true → ∃ c' i,
    AddFunc c s j = (c', inl i) ∧ jobs c' = jobs c ++ [(i, (s, j))] ∧
    i ∉ map fst (jobs c) ∧ active c' = active c;
  AddFunc_invalid c s j : valid_schedule s = false → ∃ c' e,
    AddFunc c s j = (c', inr e) ∧ jobs c' = jobs c ∧ active c' = active c;
  jobs_Start c : jobs (cron_Start c) = jobs c;
  active_Start c : active (cron_Start c) = true;
  jobs_Stop c : jobs (cron_Stop c) = jobs c;
  active_Stop c : active (cron_Stop c) = false }.

Section runner.
Context {E C : Type} `{!CronOps C (E * SyncConfig)}.

Record Runner := { r_engine : E; r_cron : C; syncMap : gmap string Z; r_running : bool }.

Definition NewRunner (engine : E) : Runner :=
  {| r_engine := engine; r_cron := cron_New; syncMap := ∅; r_running := false |}.

Definition set_cron (c : C) (r : Runner) : Runner :=
  {| r_engine := r_engine r; r_cron := c; syncMap := syncMap r; r_running := r_running r |}.
Definition map_sync (id : string) (i : Z) (r : Runner) : Runner :=
  {| r_engine := r_engine r; r_cron := r_cron r; syncMap := <[id := i]> (syncMap r);
     r_running := r_running r |}.
Definition set_running (b : bool) (r : Runner) : Runner :=
  {| r_engine := r_engine r; r_cron := r_cron r; syncMap := syncMap r; r_running := b |}.

(** The loop of [Start]. *)
Fixpoint schedule_all (syncs : list SyncConfig) (r : Runner) : Runner * option error :=
  match syncs with
  | [] => (r, None)
  | s :: syncs =>
      if negb (IsEnabled s) then schedule_all syncs r
      else if bool_decide (Schedule s = "") then schedule_all syncs r
      else
        match AddFunc (r_cron r) (Schedule s) (r_engine r, s) with
        | (c, inr err) =>
            (set_cron c r, Some ("failed to schedule sync " +:+ s_ID s +:+ ": " +:+ err))
        | (c, inl i) => schedule_all syncs (map_sync (s_ID s) i (set_cron c r))
        end
  end.

Definition Start (cfg : Config) (r : Runner) : Runner * option error :=
  if r_running r then (r, Some "runner already started")
  else
    match schedule_all (Syncs cfg) r with
    | (r, Some err) => (r, Some err)
    | (r, None) => (set_running true (set_cron (cron_Start (r_cron r)) r), None)
    end.

Definition Stop (r : Runner) : Runner :=
  if r_running r then set_running false (set_cron (cron_Stop (r_cron r)) r) else r.

(** The sync that the engine is to execute. *)
Definition ExecuteSyncNow (syncID : string) (cfg : Config) : result SyncConfig :=
  match find (λ s, bool_decide (s_ID s = syncID)) (Syncs cfg) with
  | None => inr ("sync not found: " +:+ syncID)
  | Some s => inl s
  end.

Definition GetNextRun (syncID : string) (r : Runner) : option Z :=
  match syncMap r !! syncID with
  | None => None
  | Some i => match Entry_Next (r_cron r) i with
              | Some next => if (next =? 0)%Z then None else Some next
              | None => None
              end
  end.

Definition IsRunning (r : Runner) : bool := r_running r.

(** The entries by sync; of an entry only the next time is kept. *)
Definition GetEntries (r : Runner) : gmap string Z := omap (Entry_Next (r_cron r)) (syncMap r).

(** The map [GetSyncStatus] returns. *)
Record status := {
  st_sync_id : string; last_run : option SyncRun; total_objects : Z; synced_objects : Z;
  failed_objects : Z; recent_runs : list SyncRun; next_run : option Z }.

#[local] Open Scope syncer_scope.
Definition GetSyncStatus (dbType : DBType) (syncID : string) (r : Runner) : prog StoreE (result status) :=
  let* runs := GetSyncRuns dbType syncID 10 in
  match runs with
  | inr err => Ret (inr err)
  | inl runs =>
      let* objects := GetSyncObjectsBySync syncID in
      match objects with
      | inr err => Ret (inr err)
      | inl objects =>
          let synced := length (List.filter (λ o,
            bool_decide (LastSyncStatus o = "success") || bool_decide (LastSyncStatus o = "in_sync"))
            objects) in
          Ret (inl {| st_sync_id := syncID; last_run := head runs;
                      total_objects := Z.of_nat (length objects); synced_objects := Z.of_nat synced;
                      failed_objects := Z.of_nat (length objects) - Z.of_nat synced;
                      recent_runs := runs; next_run := GetNextRun syncID r |})
      end
  end.

(** ** The runners of [main.go] and what the handlers have *)

(** The runners made so far, by reference: [runner] is main's variable,
    [h_cfg] and [h_runner] the fields of [api.Handler]. *)
Record app := { runners : list Runner; runner : nat; h_cfg : Config; h_runner : nat }.

Definition new_runner (r : Runner) (a : app) : app :=
  {| runners := runners a ++ [r]; runner := runner a; h_cfg := h_cfg a; h_runner := h_runner a |}.
Definition stop_runner (a : app) : app :=
  {| runners := alter Stop (runner a) (runners a); runner := runner a; h_cfg := h_cfg a;
     h_runner := h_runner a |}.
Definition set_runner (n : nat) (a : app) : app :=
  {| runners := runners a; runner := n; h_cfg := h_cfg a; h_runner := h_runner a |}.
Definition SetConfig (cfg : Config) (a : app) : app :=
  {| runners := runners a; runner := runner a; h_cfg := cfg; h_runner := h_runner a |}.
Definition SetRunner (n : nat) (a : app) : app :=
  {| runners := runners a; runner := runner a; h_cfg := h_cfg a; h_runner := n |}.

(** What a request reads under the handler's lock. *)
Definition getState (a : app) : option Runner * Config := (runners a !! h_runner a, h_cfg a).

(** The state after each step of [reloadConfig], which another goroutine may
    see; [load] is what [store.LoadConfig] returns and [newEngine] the
    dependency of that name. *)
Definition reload_states (load : result Config) (newEngine : Config → result E) (a : app) : list app :=
  match load with
  | inr _ => [a]
  | inl cfg =>
      match newEngine cfg with
      | inr _ => [a]
      | inl engine =>
          match Start cfg (NewRunner engine) with
          | (r, Some _) => [new_runner r a]
          | (r, None) =>
              let n := length (runners a) in
              let a1 := new_runner r a in
              let a2 := set_runner n (stop_runner a1) in
              let a3 := SetConfig cfg a2 in
              [a1; a2; a3; SetRunner n a3]
          end
      end
  end.
Definition reloadConfig (load : result Config) (newEngine : Config → result E) (a : app) : app :=
  default a (last (reload_states load newEngine a)).

(** The start of [run]: an error ends the program. *)
Definition start_app (load : result Config) (newEngine : Config → result E) : result app :=
  match load with
  | inr err => inr err
  | inl cfg =>
      match newEngine cfg with
      | inr err => inr err
      | inl engine =>
          let made r := {| runners := [r]; runner := 0; h_cfg := cfg; h_runner := 0 |} in
          if bool_decide (0 < length (Syncs cfg))
          then match Start cfg (NewRunner engine) with
               | (_, Some err) => inr err
               | (r, None) => inl (made r)
               end
          else inl (made (NewRunner engine))
      end
  end.

(** What one load meets: the database's configuration and the engines. *)
Definition loaded : Type := result Config * (Config → result E).

(** A run of the program: the start and the reloads after it. *)
Definition reloads (loads : list loaded) (a : app) : app :=
  fold_left (λ a l, reloadConfig l.1 l.2 a) loads a.

(** ** What the runners promise *)
Context `{!CronLaws C (E * SyncConfig)}.

Definition is_scheduled (s : SyncConfig) : bool :=
  IsEnabled s && negb (bool_decide (Schedule s = "")).
Definition scheduled (syncs : list SyncConfig) : list SyncConfig := List.filter is_scheduled syncs.
Definition job_of (e : E) (s : SyncConfig) : string * (E * SyncConfig) := (Schedule s, (e, s)).

(** The map of a runner leads to jobs of the syncs it names. *)
Definition map_ok (e : E) (m : gmap string Z) (js : list (Z * (string * (E * SyncConfig)))) : Prop :=
  map_Forall (λ id i, ∃ s, s_ID s = id ∧ (i, job_of e s) ∈ js) m.

Record serves (cfg : Config) (e : E) (r : Runner) : Prop := {
  sv_engine : r_engine r = e;
  sv_jobs : map snd (jobs (r_cron r)) = map (job_of e) (scheduled (Syncs cfg));
  sv_dom : dom (syncMap r) = list_to_set (map s_ID (scheduled (Syncs cfg)));
  sv_map : map_ok e (syncMap r) (jobs (r_cron r));
  sv_active : active (r_cron r) = r_running r;
  sv_running : r_running r = true ∨ Syncs cfg = [] }.

(** The configuration a load can put in use, and the one in use. *)
Definition accepted (l : loaded) : option (Config * E) :=
  match l.1 with
  | inr _ => None
  | inl cfg =>
      match l.2 cfg with
      | inr _ => None
      | inl e => if forallb (λ s, valid_schedule (Schedule s)) (scheduled (Syncs cfg))
                 then Some (cfg, e) else None
      end
  end.
Definition in_use (loads : list loaded) (s : Config * E) : Config * E :=
  fold_left (λ s l, default s (accepted l)) loads s.

Lemma map_ok_mono e m js js' : js ⊆ js' → map_ok e m js → map_ok e m js'.
Proof. intros Hs Hm. eapply map_Forall_impl; [exact Hm|]. naive_solver. Qed.

Lemma scheduled_cons s syncs :
  scheduled (s :: syncs) = if is_scheduled s then s :: scheduled syncs else scheduled syncs.
Proof. done. Qed.

Lemma schedule_all_cons s syncs r :
  schedule_all (s :: syncs) r =
    if is_scheduled s then
      match AddFunc (r_cron r) (Schedule s) (r_engine r, s) with
      | (c, inr err) =>
          (set_cron c r, Some ("failed to schedule sync " +:+ s_ID s +:+ ": " +:+ err))
      | (c, inl i) => schedule_all syncs (map_sync (s_ID s) i (set_cron c r))
      end
    else schedule_all syncs r.
Proof. unfold is_scheduled. simpl. destruct (IsEnabled s); [|done]. by case_bool_decide. Qed.

Lemma schedule_all_ok syncs r :
  forallb (λ s, valid_schedule (Schedule s)) (scheduled syncs) = true →
  map_ok (r_engine r) (syncMap r) (jobs (r_cron r)) →
  ∃ r', schedule_all syncs r = (r', None) ∧ r_engine r' = r_engine r ∧
    map snd (jobs (r_cron r')) = map snd (jobs (r_cron r)) ++ map (job_of (r_engine r)) (scheduled syncs) ∧
    dom (syncMap r') = dom (syncMap r) ∪ list_to_set (map s_ID (scheduled syncs)) ∧
    map_ok (r_engine r) (syncMap r') (jobs (r_cron r')) ∧
    active (r_cron r') = active (r_cron r) ∧ r_running r' = r_running r.
Proof.
  revert r. induction syncs as [|s syncs IH]; intros r Hv Hm.
  { exists r. rewrite app_nil_r. split_and!; try done. set_solver. }
  rewrite schedule_all_cons. rewrite scheduled_cons in Hv |- *.
  destruct (is_scheduled s); [|by apply IH]. simpl in Hv. apply andb_prop in Hv as [Hs Hv].
  destruct (AddFunc_valid (r_cron r) (Schedule s) (r_engine r, s) Hs) as (c & i & -> & Hj & _ & Hac).
  destruct (IH (map_sync (s_ID s) i (set_cron c r)) Hv) as (r' & H1 & H2 & H3 & H4 & H5 & H6 & H7).
  { simpl. rewrite Hj. apply map_Forall_insert_2.
    - exists s. split; [done|]. unfold job_of. set_solver.
    - eapply map_ok_mono; [|done]. set_solver. }
  simpl in *. rewrite Hj, map_app, <- app_assoc in H3. exists r'. split_and!; try done.
  - rewrite H4, dom_insert_L. set_solver.
  - congruence.
Qed.

Lemma schedule_all_err syncs r :
  forallb (λ s, valid_schedule (Schedule s)) (scheduled syncs) = false →
  ∃ r' err, schedule_all syncs r = (r', Some err) ∧ active (r_cron r') = active (r_cron r).
Proof.
  revert r. induction syncs as [|s syncs IH]; intros r Hv; [done|].
  rewrite schedule_all_cons. rewrite scheduled_cons in Hv.
  destruct (is_scheduled s); [|by apply IH]. simpl in Hv.
  destruct (valid_schedule (Schedule s)) eqn:Hs; simpl in Hv.
  - destruct (AddFunc_valid (r_cron r) (Schedule s) (r_engine r, s) Hs) as (c & i & -> & _ & _ & Hac).
    destruct (IH (map_sync (s_ID s) i (set_cron c r)) Hv) as (r' & err & -> & Ha).
    exists r', err. by rewrite Ha.
  - destruct (AddFunc_invalid (r_cron r) (Schedule s) (r_engine r, s) Hs) as (c & e & -> & _ & Hac).
    eauto.
Qed.

(** [Start] on a new runner. *)
Lemma Start_new cfg e :
  if forallb (λ s, valid_schedule (Schedule s)) (scheduled (Syncs cfg))
  then ∃ r, Start cfg (NewRunner e) = (r, None) ∧ serves cfg e r ∧ r_running r = true
  else ∃ r err, Start cfg (NewRunner e) = (r, Some err) ∧ active (r_cron r) = false.
Proof.
  unfold Start. destruct (forallb _ _) eqn:Hv; simpl.
  - destruct (schedule_all_ok (Syncs cfg) (NewRunner e) Hv) as (r & -> & H2 & H3 & H4 & H5 & H6 & H7).
    { apply map_Forall_empty. }
    simpl in *. rewrite jobs_New in H3. simpl in H3. eexists. split_and!; [done| |done].
    split; simpl; rewrite ?jobs_Start, ?active_Start; auto. by rewrite H4, dom_empty_L, (left_id_L ∅ (∪)).
  - destruct (schedule_all_err (Syncs cfg) (NewRunner e) Hv) as (r & err & -> & Ha).
    simpl in Ha. rewrite active_New in Ha. eauto.
Qed.

Lemma Stop_inactive cfg e r : serves cfg e r → active (r_cron (Stop r)) = false.
Proof.
  intros Hs. unfold Stop. destruct (r_running r) eqn:Hr; simpl; [apply active_Stop|].
  by rewrite (sv_active _ _ _ Hs).
Qed.

(** The app serves the configuration in use and all other runners are stopped. *)
Definition app_inv (s : Config * E) (a : app) : Prop :=
  (∃ r, runners a !! runner a = Some r ∧ serves s.1 s.2 r) ∧
  (∀ i r, i ≠ runner a → runners a !! i = Some r → active (r_cron r) = false) ∧
  h_runner a = runner a ∧ h_cfg a = s.1.

Lemma start_app_inv l s : accepted l = Some s →
  ∃ a, start_app l.1 l.2 = inl a ∧ app_inv s a.
Proof.
  unfold accepted, start_app. destruct l as [[cfg|] newEngine]; simpl; [|done].
  destruct (newEngine cfg) as [e|]; [|done]. pose proof (Start_new cfg e) as Hst.
  destruct (forallb _ _) eqn:Hv; [|done]. intros [= <-]. destruct Hst as (r & -> & Hs & _).
  assert (∀ r, serves cfg e r → app_inv (cfg, e)
    {| runners := [r]; runner := 0; h_cfg := cfg; h_runner := 0 |}) as Happ.
  { intros r' Hr'. split_and!; simpl; [eauto| |done|done]. by intros [|[]] ?. }
  case_bool_decide as Hlen; eexists; (split; [done|]); apply Happ; [done|].
  assert (Syncs cfg = []) as Hn by (destruct (Syncs cfg); simpl in *; [done|lia]).
  split; simpl; rewrite ?Hn, ?jobs_New, ?active_New; auto. apply map_Forall_empty.
Qed.

Lemma reloadConfig_inv l s a : app_inv s a →
  app_inv (default s (accepted l)) (reloadConfig l.1 l.2 a).
Proof.
  intros Ha. unfold accepted, reloadConfig, reload_states.
  destruct l as [[cfg|] newEngine]; simpl; [|done].
  destruct (newEngine cfg) as [e|]; simpl; [|done]. pose proof (Start_new cfg e) as Hst.
  destruct Ha as ((r0 & Hr0 & Hs0) & Hoth & Hh & Hc).
  pose proof (lookup_lt_Some _ _ _ Hr0) as Hlt.
  destruct (forallb _ _) eqn:Hv; simpl.
  - destruct Hst as (r & -> & Hs & _). simpl. split_and!; simpl; [|intros i r' Hi|done|done].
    + exists r. split; [|done]. rewrite list_lookup_alter_ne by lia. by rewrite list_lookup_middle.
    + destruct (decide (i = runner a)) as [->|Hne].
      * rewrite list_lookup_alter, decide_True by done. rewrite lookup_app_l, Hr0 by done. intros [= <-].
        by eapply Stop_inactive.
      * rewrite list_lookup_alter_ne by done. intros Hl. apply lookup_app_Some in Hl as [Hl|[? Hl]].
        -- by eapply Hoth.
        -- destruct (i - length (runners a)) eqn:?; [lia|done].
  - destruct Hst as (r & err & -> & Hact). simpl. split_and!; simpl; [|intros i r' Hi Hl|done|done].
    + exists r0. split; [|done]. by apply lookup_app_l_Some.
    + apply lookup_app_Some in Hl as [Hl|[? Hl]]; [by eapply Hoth|].
      destruct (i - length (runners a)); naive_solver.
Qed.

Lemma reloads_inv loads s a : app_inv s a → app_inv (in_use loads s) (reloads loads a).
Proof.
  revert s a. induction loads as [|l loads IH]; intros s a Ha; [done|]. apply IH.
  by apply reloadConfig_inv.
Qed.

Lemma start_app_fails l : accepted l = None → ∃ err, start_app l.1 l.2 = inr err.
Proof.
  unfold accepted, start_app. destruct l as [[cfg|] newEngine]; simpl; [|eauto].
  destruct (newEngine cfg) as [e|]; [|eauto]. pose proof (Start_new cfg e) as Hst.
  destruct (forallb _ _) eqn:Hv; [done|]. intros _. destruct Hst as (r & err & -> & _).
  case_bool_decide as Hlen; [eauto|].
  exfalso. destruct (Syncs cfg); simpl in *; [done|lia].
Qed.

(** [SetConfig] and [SetRunner] are two steps: between them a request reads
    the new configuration with the old runner, which has been stopped. *)
Lemma reload_torn l s s' a : app_inv s a → accepted l = Some s' →
  ∃ a' r, a' ∈ reload_states l.1 l.2 a ∧ getState a' = (Some r, s'.1) ∧
    r_engine r = s.2 ∧ active (r_cron r) = false.
Proof.
  intros ((r0 & Hr0 & Hs0) & _ & Hh & _). unfold accepted, reload_states.
  destruct l as [[cfg|] newEngine]; simpl; [|done].
  destruct (newEngine cfg) as [e|]; [|done]. pose proof (Start_new cfg e) as Hst.
  destruct (forallb _ _); [|done]. intros [= <-]. destruct Hst as (r & -> & _).
  eexists _, (Stop r0). split_and!; [by do 2 apply list_elem_of_further; apply list_elem_of_here| | |].
  - unfold getState. simpl. rewrite Hh, list_lookup_alter, decide_True by done.
    by rewrite (lookup_app_l_Some _ _ _ _ Hr0).
  - unfold Stop. rewrite <- (sv_engine _ _ _ Hs0). by destruct (r_running r0).
  - by eapply Stop_inactive.
Qed.

(** Stopping a runner forgets no job: a second start adds each of them again. *)
Lemma Start_after_Stop cfg e r :
  forallb (λ s, valid_schedule (Schedule s)) (scheduled (Syncs cfg)) = true →
  serves cfg e r → r_running r = true →
  ∃ r', Start cfg (Stop r) = (r', None) ∧ active (r_cron r') = true ∧
    map snd (jobs (r_cron r')) =
      map (job_of e) (scheduled (Syncs cfg)) ++ map (job_of e) (scheduled (Syncs cfg)).
Proof.
  intros Hv [He Hj Hd Hm Ha _] Hr. unfold Start, Stop. rewrite Hr. simpl.
  destruct (schedule_all_ok (Syncs cfg) (set_running false (set_cron (cron_Stop (r_cron r)) r)) Hv)
    as (r' & -> & H2 & H3 & _); simpl in *.
  { by rewrite jobs_Stop, He. }
  eexists. split_and!; [done|apply active_Start|]. simpl. by rewrite jobs_Start, H3, jobs_Stop, Hj, He.
Qed.

(** C18: The program is never left without its runner: when the configuration
    loaded at the start cannot be put in use (it fails to load, its engine
    cannot be made, or a schedule is refused) the start fails; otherwise, after
    any sequence of reloads, whatever each of them meets, the runner in use
    holds exactly the jobs of the enabled syncs with a schedule of the last
    configuration that could be put in use, with its engine, and its map names
    jobs of exactly these syncs; it runs (unless no reload has succeeded since a
    start without syncs); every other runner made so far is stopped; and the
    handlers have the same runner and configuration. *)
Theorem reloads_serve (l : loaded) :
  match accepted l with
  | None => ∃ err, start_app l.1 l.2 = inr err
  | Some s => ∃ a, start_app l.1 l.2 = inl a ∧
      ∀ loads, app_inv (in_use loads s) (reloads loads a)
  end.
Proof.
  destruct (accepted l) as [s|] eqn:Hl; [|by apply start_app_fails].
  destruct (start_app_inv l s Hl) as (a & Ha & Hinv). exists a. split; [done|].
  intros loads. by apply reloads_inv.
Qed.
End runner.

(** ** A scheduler that is a list of jobs *)

Record list_cron (J : Type) := { lc_jobs : list (Z * (string * J)); lc_active : bool }.
Arguments lc_jobs {J}. Arguments lc_active {J}.

(** Five fields. *)
Definition five_fields (s : string) : bool :=
  bool_decide (length (List.filter (λ c, bool_decide (c = " "%char)) (String.list_ascii_of_string s)) = 4).

Definition next_id {A} (l : list (Z * A)) : Z := (1 + foldr Z.max 0 (map fst l))%Z.

#[export] Instance list_cron_ops {J} : CronOps (list_cron J) J := {|
  cron_New := {| lc_jobs := []; lc_active := false |};
  AddFunc c s j :=
    if five_fields s
    then ({| lc_jobs := lc_jobs c ++ [(next_id (lc_jobs c), (s, j))]; lc_active := lc_active c |},
          inl (next_id (lc_jobs c)))
    else (c, inr "expected exactly 5 fields");
  cron_Start c := {| lc_jobs := lc_jobs c; lc_active := true |};
  cron_Stop c := {| lc_jobs := lc_jobs c; lc_active := false |};
  Entry_Next c i := if bool_decide (i ∈ map fst (lc_jobs c)) then Some 60%Z else None |}.

Lemma next_id_fresh {A} (l : list (Z * A)) : next_id l ∉ map fst l.
Proof.
  assert (∀ i, i ∈ map fst l → i ≤ foldr Z.max 0 (map fst l))%Z as Hle.
  { intros i. induction (map fst l) as [|x m IH]; simpl; [set_solver|].
    intros [->|Hi]%elem_of_cons; [lia|]. specialize (IH Hi). lia. }
  intros Hin%Hle. unfold next_id in Hin. lia.
Qed.

#[export] Instance list_cron_laws {J} : CronLaws (list_cron J) J.
Proof.
  refine {| jobs := lc_jobs; active := lc_active; valid_schedule := five_fields |}; try done.
  - intros c s j Hv. simpl. rewrite Hv. eexists _, _. split_and!; [done..| |done].
    apply next_id_fresh.
  - intros c s j Hv. simpl. rewrite Hv. eauto.
Defined.

#[local] Definition runner_sync (id schedule : string) (enabled : option bool) : SyncConfig :=
  {| s_ID := id; s_Source := "a"; Targets := ["b"]; SyncType := "unidirectional";
     Schedule := schedule; Filter := {| Patterns := []; Exclude := [] |}; Transforms := [];
     s_RetryPolicy := {| MaxRetries := 0; InitialBackoff := 1; MaxBackoff := 1; Multiplier := two |};
     ConcurrentWorkers := 1; Enabled := enabled |}.
#[local] Definition runner_config (syncs : list SyncConfig) : Config :=
  {| Vaults := []; Syncs := syncs;
     Server := {| Port := 8080; Address := ""; MetricsPort := 9090; MetricsAddress := "" |};
     Logging := {| Level := "info"; Format := "json" |} |}.
#[local] Definition runner_loads : list loaded :=
  [ (inl (runner_config [runner_sync "x" "every hour" None]), λ _, inl 1); (* a schedule is refused *)
    (inr "database is locked", λ _, inl 2);
    (inl (runner_config [runner_sync "x" "0 * * * *" (Some false); runner_sync "y" "5 4 * * *" None]),
     λ _, inl 3);
    (inl (runner_config []), λ _, inr "no such vault") ].

(** Only the third of the reloads counts. *)
Lemma reloads_serve_witness :
  ∃ a, start_app (C := list_cron (nat * SyncConfig))
         (inl (runner_config [runner_sync "x" "0 * * * *" None])) (λ _, inl 0) = inl a ∧
    ∃ r, runners (reloads runner_loads a) !! runner (reloads runner_loads a) = Some r ∧
      r_engine r = 3 ∧ active (r_cron r) = true ∧
      map snd (jobs (r_cron r)) = [("5 4 * * *", (3, runner_sync "y" "5 4 * * *" None))] ∧
      length (runners (reloads runner_loads a)) = 3.
Proof.
  destruct (reloads_serve (C := list_cron (nat * SyncConfig))
    (inl (runner_config [runner_sync "x" "0 * * * *" None]), λ _, inl 0)) as (a & Ha & Hall).
  exists a. split; [exact Ha|].
  destruct (Hall runner_loads) as ((r & Hr & [He Hj _ _ Hact Hrun]) & _).
  exists r. split_and!; [exact Hr|exact He| |exact Hj|].
  - rewrite Hact. destruct Hrun as [Hrun|Hn]; [exact Hrun|discriminate Hn].
  - injection Ha as <-. vm_compute. reflexivity.
Defined.
