(* ===== verification/ConfigFacts.v ===== *)
(** * The configuration endpoints implement a registry

    The specification is two lists of configurations, in the order in which
    they were created; the theorem relates every request to it. *)

From S2P Require Import Prelude GoLang Effects Store Users Config Security ConfigStore Runner.

(** ** The specification *)

Record registry := { reg_vaults : list VaultConfig; reg_syncs : list SyncConfig }.

Section lists.
Context {A : Type} (id : A → string).
Definition named (k : string) (x : A) : bool := bool_decide (id x = k).
Definition look (k : string) (l : list A) : option A := List.find (named k) l.
Definition put (x : A) (l : list A) : list A :=
  if existsb (named (id x)) l then map (λ y, if named (id x) y then x else y) l else l ++ [x].
Lemma look_none k l : look k l = None → existsb (named k) l = false.
Proof.
  unfold look. induction l as [|x l IH]; simpl; [done|]. by destruct (named k x).
Qed.

Definition discard (k : string) (l : list A) : list A := List.filter (λ y, negb (named k y)) l.
End lists.

Definition set_vaults (l : list VaultConfig) (g : registry) : registry :=
  {| reg_vaults := l; reg_syncs := reg_syncs g |}.
Definition set_syncs (l : list SyncConfig) (g : registry) : registry :=
  {| reg_vaults := reg_vaults g; reg_syncs := l |}.

Inductive config_request :=
| GetVaults | PostVault (body : result VaultConfig) | GetVaultReq (id : string)
| PutVault (id : string) (body : result VaultConfig) | DeleteVaultReq (id : string)
| GetSyncs | PostSync (body : result SyncConfig) | GetSyncReq (id : string)
| PutSync (id : string) (body : result SyncConfig) | DeleteSyncReq (id : string).

(** The answer, what becomes of the registry, and whether the configuration
    is to be reloaded. *)
Definition expected (r : config_request) (g : registry) : config_response * registry * bool :=
  let bad := (config_error "invalid request body" 400, g, false) in
  match r with
  | GetVaults => (config_ok (CVaults (sanitiseVaults (reg_vaults g))), g, false)
  | PostVault (inr _) => bad
  | PostVault (inl v) =>
      if bool_decide (v_ID v = "") then (config_error "vault id is required" 400, g, false)
      else match look v_ID (v_ID v) (reg_vaults g) with
           | Some _ => (config_error "vault already exists" 409, g, false)
           | None => (config_created (CVault (sanitiseVault v)),
                      set_vaults (reg_vaults g ++ [v]) g, true)
           end
  | GetVaultReq id =>
      if bool_decide (id = "") then (config_error "vault_id is required" 400, g, false)
      else match look v_ID id (reg_vaults g) with
           | None => (config_error "vault not found" 404, g, false)
           | Some v => (config_ok (CVault (sanitiseVault v)), g, false)
           end
  | PutVault id body =>
      if bool_decide (id = "") then (config_error "vault_id is required" 400, g, false)
      else match body, look v_ID id (reg_vaults g) with
           | inr _, _ => bad
           | inl _, None => (config_error "vault not found" 404, g, false)
           | inl v, Some _ =>
               let v := with_vault_id id v in
               (config_ok (CVault (sanitiseVault v)), set_vaults (put v_ID v (reg_vaults g)) g, true)
           end
  | DeleteVaultReq id =>
      if bool_decide (id = "") then (config_error "vault_id is required" 400, g, false)
      else (config_ok (CStatus "deleted"), set_vaults (discard v_ID id (reg_vaults g)) g, true)
  | GetSyncs => (config_ok (CSyncs (reg_syncs g)), g, false)
  | PostSync (inr _) => bad
  | PostSync (inl s) =>
      if bool_decide (s_ID s = "") then (config_error "sync id is required" 400, g, false)
      else match look s_ID (s_ID s) (reg_syncs g) with
           | Some _ => (config_error "sync already exists" 409, g, false)
           | None => (config_created (CSync s), set_syncs (reg_syncs g ++ [s]) g, true)
           end
  | GetSyncReq id =>
      if bool_decide (id = "") then (config_error "sync_id is required" 400, g, false)
      else match look s_ID id (reg_syncs g) with
           | None => (config_error "sync not found" 404, g, false)
           | Some s => (config_ok (CSync s), g, false)
           end
  | PutSync id body =>
      if bool_decide (id = "") then (config_error "sync_id is required" 400, g, false)
      else match body, look s_ID id (reg_syncs g) with
           | inr _, _ => bad
           | inl _, None => (config_error "sync not found" 404, g, false)
           | inl s, Some _ =>
               let s := with_sync_id id s in
               (config_ok (CSync s), set_syncs (put s_ID s (reg_syncs g)) g, true)
           end
  | DeleteSyncReq id =>
      if bool_decide (id = "") then (config_error "sync_id is required" 400, g, false)
      else (config_ok (CStatus "deleted"), set_syncs (discard s_ID id (reg_syncs g)) g, true)
  end.

(** Requests one after the other: the answers, the registry and the reloads. *)
Fixpoint expected_all (rs : list config_request) (g : registry)
    : list config_response * registry * nat :=
  match rs with
  | [] => ([], g, 0)
  | r :: rs =>
      let '(a, g1, b) := expected r g in
      let '(l, g2, n) := expected_all rs g1 in
      (a :: l, g2, (if b then 1 else 0) + n)
  end.

(** Bodies are what a decoder of JSON gives, and ids are UTF-8. *)
Definition vault_body (b : result VaultConfig) : Prop :=
  match b with inl v => vault_ok v ∧ wire_vault v = v | inr _ => True end.
Definition sync_body (b : result SyncConfig) : Prop :=
  match b with inl s => sync_ok s | inr _ => True end.
Definition request_ok (r : config_request) : Prop :=
  match r with
  | PostVault b => vault_body b
  | PutVault id b => vault_body b ∧ text id
  | PostSync b => sync_body b
  | PutSync id b => sync_body b ∧ text id
  | _ => True
  end.

(** ** Rows that hold configurations *)

Section rows.
Context {T A : Type} `{!JsonCodec T} (reads : T → A → Prop) (id : A → string).
Implicit Types (l : list (config_row T)) (xs : list A).

Definition row_holds (r : config_row T) (x : A) : Prop :=
  row_id r = id x ∧ no_text (config_json r) = false ∧ reads (config_json r) x.

Record holds (now : Z) l xs : Prop := {
  h_rows : Forall2 row_holds l xs;
  h_ids : NoDup (map id xs);
  h_sorted : StronglySorted (λ a b, (created_at a ≤ created_at b)%Z) l;
  h_past : Forall (λ r, (created_at r ≤ now)%Z) l }.

Lemma holds_later now now' l xs : (now ≤ now')%Z → holds now l xs → holds now' l xs.
Proof.
  intros Hn [? ? ? Hp]. split; try done. eapply Forall_impl; [exact Hp|]. simpl. lia.
Qed.

Lemma row_holds_named k r x : row_holds r x → has_row_id k r = named id k x.
Proof. intros [Hr _]. unfold has_row_id, named. by rewrite Hr. Qed.

Lemma holds_exists k l xs : Forall2 row_holds l xs → existsb (has_row_id k) l = existsb (named id k) xs.
Proof.
  induction 1 as [|r x l xs Hr _ IH]; simpl; [done|]. by rewrite IH, (row_holds_named k r x).
Qed.

Lemma holds_find k l xs : Forall2 row_holds l xs →
  option_Forall2 row_holds (List.find (has_row_id k) l) (look id k xs).
Proof.
  unfold look. induction 1 as [|r x l xs Hr _ IH]; simpl; [constructor|].
  rewrite (row_holds_named k r x Hr). destruct (named id k x); [by constructor|done].
Qed.

Lemma oldest_first_sorted {order : RowOrder} {ties : InsertionOrder} l :
  StronglySorted (λ a b, (created_at a ≤ created_at b)%Z) l → oldest_first l = l.
Proof. apply sort_rows_id. Qed.

Lemma decode_rows_holds decode l xs : (∀ d x, reads d x → decode d = inl x) →
  Forall2 row_holds l xs → decode_rows decode (map config_json l) = inl xs.
Proof.
  intros Hd. induction 1 as [|r x l xs (_ & _ & Hr) _ IH]; simpl; [done|].
  by rewrite (Hd _ _ Hr), IH.
Qed.

Lemma holds_update now k d t l xs x : id x = k → no_text d = false → reads d x →
  existsb (named id k) xs = true → holds now l xs →
  holds now (map (update_config k d t) l) (put id x xs).
Proof.
  intros <- Hd Hx He [Hr Hi Hs Hp]. unfold put. rewrite He. split.
  - clear -Hr Hd Hx. induction Hr as [|r y l xs Hy _ IH]; simpl; constructor; [|done].
    unfold update_config. rewrite (row_holds_named _ r y Hy).
    case_match eqn:Hn; [|done]. unfold named in Hn. bool_clean.
    destruct Hy as (Hy & _). split_and!; simpl; [congruence|done|done].
  - replace (map id (map _ xs)) with (map id xs); [done|]. rewrite map_map. apply map_ext.
    intros y. case_match eqn:Hn; [|done]. unfold named in Hn. by bool_clean.
  - clear -Hs. induction Hs as [|r l _ IH Hr]; simpl; constructor; [done|].
    apply Forall_map. eapply Forall_impl; [exact Hr|]. intros y. unfold update_config. simpl.
    by do 2 case_match.
  - apply Forall_map. eapply Forall_impl; [exact Hp|]. intros y. unfold update_config. simpl.
    by case_match.
Qed.

Lemma holds_insert now k d l xs x : id x = k → no_text d = false → reads d x →
  existsb (named id k) xs = false → holds now l xs →
  holds now (l ++ [{| row_id := k; config_json := d; created_at := now; c_updated_at := now |}])
    (xs ++ [x]).
Proof.
  intros <- Hd Hx He [Hr Hi Hs Hp]. split.
  - apply Forall2_app; [done|]. constructor; [|constructor]. done.
  - rewrite map_app. apply NoDup_app. split_and!; [done| |apply NoDup_singleton].
    intros i Hin. simpl. rewrite list_elem_of_singleton. intros ->.
    apply list_elem_of_fmap in Hin as (y & Hy & Hin). apply eq_true_false_abs in He; [done|].
    apply existsb_exists. exists y. split; [by apply list_elem_of_In|].
    unfold named. by apply bool_decide_eq_true.
  - clear -Hs Hp. induction Hs as [|r l Hs IH Hr]; simpl; [repeat constructor|].
    apply Forall_cons in Hp as [Hrn Hp]. constructor; [auto|].
    apply Forall_app. split; [done|]. by constructor.
  - apply Forall_app. split; [done|]. constructor; [simpl; lia|done].
Qed.

Lemma holds_discard now k l xs : holds now l xs →
  holds now (List.filter (λ r, negb (has_row_id k r)) l) (discard id k xs).
Proof.
  intros [Hr Hi Hs Hp]. split.
  - unfold discard. clear -Hr. induction Hr as [|r x l xs Hx _ IH]; simpl; [constructor|].
    rewrite (row_holds_named k r x Hx). destruct (named id k x); simpl; [done|by constructor].
  - by apply NoDup_map_filter.
  - clear -Hs. induction Hs as [|r l _ IH Hr]; simpl; [constructor|].
    destruct (negb _); [|done]. constructor; [done|]. by apply Forall_List_filter.
  - by apply Forall_List_filter.
Qed.

Lemma filter_existsb {B} (p : B → bool) (l : list B) :
  (Z.of_nat (length (List.filter p l)) =? 0)%Z = negb (existsb p l).
Proof. induction l as [|x l IH]; simpl; [done|]. by destruct (p x); simpl. Qed.
End rows.

(** ** The operations *)

Section operations.
Context {T : Type} `{!JsonCodec T, !JsonLaws T, !Encryptor, !EncryptorLaws}.
Context {order : RowOrder} {ties : InsertionOrder}.
Variable entries : gmap string string → list (string * string).
Hypothesis entries_perm : ∀ m, entries m ≡ₚ map_to_list m.
Variable driver_error : DBType → string → option error.
Variable fault : nat → option error.
Variable clock : nat → Z.
Variable dbType : DBType.
Variable encrypting : bool.
(** The driver takes the statements, and nothing else goes wrong. *)
Hypothesis takes_none : driver_error dbType "" = None.
Hypothesis takes_one : driver_error dbType (placeholder dbType 1) = None.
Hypothesis takes_four : driver_error dbType (placeholders dbType 1 4) = None.
Hypothesis no_faults : ∀ n, fault n = None.
Hypothesis clock_monotone : ∀ i j, i ≤ j → (clock i ≤ clock j)%Z.

Abbreviation crun := (run (config_handle (T := T) driver_error fault clock)).
Abbreviation SaveVault' := (SaveVault (T := T) entries dbType encrypting).
Abbreviation decode_vault' := (decode_vault (T := T) entries encrypting).

(** *** Encryption *)

(** [c] is [p] encrypted. *)
Definition sealed (p c : string) : Prop := DecryptString c = inl p ∧ text c.

Definition drawn_by (n : nat) (w : cworld T) : cworld T :=
  {| c_dbType := c_dbType w; vault_rows := vault_rows w; sync_rows := sync_rows w;
     c_stmts := c_stmts w; c_ticks := c_ticks w; draws := draws w + n; notified := notified w |}.

Lemma EncryptString_sealed n p : ∃ c, EncryptString n p = inl c ∧ sealed p c ∧ c ≠ "".
Proof.
  destruct (encrypt_text n p) as (c & Hc & Ht & Hne). exists c. split_and!; [done| |done].
  split; [by eapply decrypt_encrypt|done].
Qed.

Lemma entries_keys m : NoDup (entries m).*1.
Proof. rewrite (entries_perm m). apply NoDup_fst_map_to_list. Qed.
Lemma entries_elem m k v : (k, v) ∈ entries m ↔ m !! k = Some v.
Proof. rewrite (entries_perm m). apply elem_of_map_to_list. Qed.

Lemma encrypt_headers_run l m w : NoDup l.*1 →
  ∃ m' n, crun (encrypt_headers l m) w = ((m', None), drawn_by n w) ∧
    (∀ k p, (k, p) ∈ l → ∃ c, m' !! k = Some c ∧ sealed p c) ∧
    (∀ k, k ∉ l.*1 → m' !! k = m !! k).
Proof.
  revert m w. induction l as [|[k p] l IH]; intros m w Hnd; csimpl in Hnd.
  { exists m, 0. simpl. unfold drawn_by. rewrite Nat.add_0_r. destruct w. simpl.
    split_and!; [done| |done]. intros k p Hin. by apply not_elem_of_nil in Hin. }
  apply NoDup_cons in Hnd as [Hk Hnd]. csimpl.
  destruct (EncryptString_sealed (draws w) p) as (c & Hc & Hs & _). rewrite Hc. simpl.
  destruct (IH (<[k := c]> m) (count_draw w) Hnd) as (m' & n & -> & Hin & Hout).
  exists m', (S n). split_and!.
  - f_equal. unfold drawn_by, count_draw. simpl. f_equal. lia.
  - intros k' p' [[= -> ->]|Hin']%elem_of_cons; [|by apply Hin].
    exists c. rewrite Hout by done. by rewrite lookup_insert_eq.
  - intros k' Hk'. apply not_elem_of_cons in Hk' as [Hne Hk'].
    rewrite Hout by done. by rewrite lookup_insert_ne.
Qed.

Lemma decrypt_headers_run l m f : NoDup l.*1 →
  (∀ k c, (k, c) ∈ l → DecryptString c = inl (f k)) →
  ∃ m', decrypt_headers l m = inl m' ∧
    (∀ k, k ∈ l.*1 → m' !! k = Some (f k)) ∧ (∀ k, k ∉ l.*1 → m' !! k = m !! k).
Proof.
  revert m. induction l as [|[k c] l IH]; intros m Hnd Hd; csimpl in Hnd.
  { exists m. split_and!; [done| |done]. intros k Hin. by apply not_elem_of_nil in Hin. }
  apply NoDup_cons in Hnd as [Hk Hnd]. simpl. rewrite (Hd k c) by left.
  destruct (IH (<[k := f k]> m) Hnd) as (m' & -> & Hin & Hout).
  { intros k' c' Hin. apply Hd. by right. }
  exists m'. split_and!; [done| |].
  - intros k' [->|Hin']%elem_of_cons; [|by apply Hin]. rewrite Hout by done. by rewrite lookup_insert_eq.
  - intros k' Hk'. apply not_elem_of_cons in Hk' as [Hne Hk'].
    rewrite Hout by done. by rewrite lookup_insert_ne.
Qed.

Definition sealed_map (m m' : gmap string string) : Prop :=
  ∀ k, option_Forall2 sealed (m !! k) (m' !! k).

Lemma encrypt_entries m w :
  ∃ m' n, crun (encrypt_headers (entries m) m) w = ((m', None), drawn_by n w) ∧ sealed_map m m'.
Proof.
  destruct (encrypt_headers_run (entries m) m w (entries_keys m)) as (m' & n & Hr & Hin & Hout).
  exists m', n. split; [done|]. intros k. destruct (m !! k) as [p|] eqn:Hk.
  - destruct (Hin k p) as (c & -> & Hc); [by apply entries_elem|]. by constructor.
  - rewrite Hout, Hk; [constructor|]. intros Hel. apply list_elem_of_fmap in Hel as ([k' p] & -> & Hel).
    apply entries_elem in Hel. simpl in Hk. congruence.
Qed.

Lemma decrypt_entries m m' : sealed_map m m' → decrypt_headers (entries m') m' = inl m.
Proof.
  intros Hs.
  destruct (decrypt_headers_run (entries m') m' (λ k, default "" (m !! k)) (entries_keys m'))
    as (m2 & -> & Hin & Hout).
  { intros k c Hel%entries_elem. specialize (Hs k). rewrite Hel in Hs.
    inversion Hs as [p ? [Hd _] Hp|]; subst. by rewrite Hd. }
  f_equal. apply map_eq. intros k. pose proof (Hs k) as Hk. destruct (m' !! k) as [c|] eqn:Hc.
  - rewrite Hin by (apply list_elem_of_fmap; exists (k, c); by rewrite entries_elem).
    by inversion Hk.
  - rewrite Hout, Hc; [by inversion Hk|]. intros Hel.
    apply list_elem_of_fmap in Hel as ([k' p] & -> & Hel). apply entries_elem in Hel. simpl in Hc. congruence.
Qed.

Lemma sealed_texts m m' : sealed_map m m' → texts (Some m) → texts (Some m').
Proof.
  intros Hs Hm k c Hc. specialize (Hs k). rewrite Hc in Hs. inversion Hs as [p ? [_ Ht] Hp|]; subst.
  split; [|done]. by apply (Hm k p).
Qed.

Lemma encrypt_oauth_run o w :
  ∃ o' n, crun (encrypt_oauth o) w = ((o', None), drawn_by n w) ∧
    (from_option oauth_ok True o → from_option oauth_ok True o') ∧
    decrypt_oauth o' = inl o.
Proof.
  assert (drawn_by 0 w = w) as Hw by (unfold drawn_by; rewrite Nat.add_0_r; by destruct w).
  destruct o as [o|]; simpl; [|exists None, 0; by rewrite Hw]. case_bool_decide as He; simpl.
  - destruct (EncryptString_sealed (draws w) (ClientSecret o)) as (c & Hc & [Hd Ht] & Hne). rewrite Hc.
    exists (Some (with_client_secret c o)), 1. split_and!; [| |].
    + simpl. unfold count_draw, drawn_by. by rewrite Nat.add_1_r.
    + intros (?&?&?&?&?). by split_and!.
    + simpl. rewrite bool_decide_true, Hd by done. by destruct o.
  - exists (Some o), 0. rewrite Hw. split_and!; [done|done|]. simpl. by case_bool_decide.
Qed.

Definition vault_reads (d : T) (v : VaultConfig) : Prop := ∀ msg, decode_vault' msg d = inl v.
Definition sync_reads (d : T) (s : SyncConfig) : Prop := ∀ msg, decode_sync msg d = inl s.

Lemma sync_json_reads s : sync_ok s → ∃ d, Marshal_sync s = inl d ∧ no_text d = false ∧ sync_reads d s.
Proof.
  intros Hs. destruct (sync_json s Hs) as (d & Hm & Hn & Hu). exists d. split_and!; [done..|].
  intros msg. unfold decode_sync. by rewrite Hu.
Qed.

(** Encryption leaves a configuration that is written and read back as the
    one before, and that shows the same to the frontend. *)
Lemma encryptVaultAuth_run v w : vault_ok v → wire_vault v = v →
  ∃ raw n, crun (encryptVaultAuth entries v) w = ((raw, None), drawn_by n w) ∧
    vault_ok raw ∧ decryptVaultAuth entries (wire_vault raw) = inl v ∧
    sanitiseVault raw = sanitiseVault v.
Proof.
  intros Hv Hw. pose proof Hv as (Hst & Ha & Hrest).
  unfold encryptVaultAuth. destruct (v_Auth v) as [a|] eqn:Hauth; simpl in Ha.
  2: { exists v, 0. simpl. unfold drawn_by. rewrite Nat.add_0_r. destruct w.
       split_and!; [done|done| |done]. rewrite Hw. unfold decryptVaultAuth. by rewrite Hauth. }
  destruct Ha as (Hmeth & Hhs & Ho). rewrite run_bind.
  assert (∃ m n, crun (encrypt_headers (range_headers entries (auth_Headers a))
      (default ∅ (auth_Headers a))) w = ((m, None), drawn_by n w) ∧
    let hs := match auth_Headers a with Some _ => Some m | None => None end in
    texts hs ∧ (∃ m', decrypt_headers (range_headers entries hs) (default ∅ hs) = inl m' ∧
                 match hs with Some _ => Some m' | None => None end = auth_Headers a))
    as (m & n & Hr & Ht & m' & Hd & Hm').
  { destruct (auth_Headers a) as [h|]; simpl.
    - destruct (encrypt_entries h w) as (m & n & Hr & Hs). exists m, n.
      split_and!; [done|by eapply sealed_texts|]. exists h. by rewrite (decrypt_entries h m Hs).
    - exists ∅, 0. unfold drawn_by. rewrite Nat.add_0_r. destruct w. eauto. }
  rewrite Hr. simpl. rewrite run_bind.
  destruct (encrypt_oauth_run (OAuth a) (drawn_by n w)) as (o & n' & -> & Hook & Hdo). simpl.
  eexists _, (n + n'). split_and!.
  - f_equal. unfold drawn_by. simpl. by rewrite Nat.add_assoc.
  - split; [done|]. split; [|done]. simpl. split_and!; auto.
  - unfold decryptVaultAuth. simpl. rewrite Hd, Hdo. f_equal.
    destruct v, a. unfold with_auth, with_secrets, wire_vault in *. simpl in *. simplify_eq.
    by rewrite Hm'.
  - unfold sanitiseVault. simpl. by rewrite Hauth.
Qed.

Lemma vault_json_reads v w : vault_ok v → wire_vault v = v →
  ∃ raw n d, crun (if encrypting then encryptVaultAuth entries v else Ret (v, None)) w
      = ((raw, None), drawn_by n w) ∧
    Marshal_vault raw = inl d ∧ no_text d = false ∧ vault_reads d v ∧
    sanitiseVault raw = sanitiseVault v.
Proof.
  intros Hv Hw. unfold vault_reads, decode_vault. destruct encrypting.
  - destruct (encryptVaultAuth_run v w Hv Hw) as (raw & n & Hr & Hok & Hd & Hsan).
    destruct (vault_json raw Hok) as (d & Hm & Hn & Hu). exists raw, n, d.
    split_and!; try done. intros msg. by rewrite Hu, Hd.
  - destruct (vault_json v Hv) as (d & Hm & Hn & Hu). exists v, 0, d.
    unfold drawn_by. rewrite Nat.add_0_r. split_and!; try done; [by destruct w|].
    intros msg. by rewrite Hu, Hw.
Qed.

(** *** Statements *)

Definition bound (w : cworld T) : Z := Unix (clock (c_ticks w)).

(** Nothing but the rows of [t] and the counts differ. *)
Record changed (t : table) (l : list (config_row T)) (w w' : cworld T) : Prop := {
  ch_type : c_dbType w' = c_dbType w;
  ch_rows : rows_of t w' = l;
  ch_others t' : t' ≠ t → rows_of t' w' = rows_of t' w;
  ch_ticks : c_ticks w ≤ c_ticks w';
  ch_notified : notified w' = notified w }.

Lemma c_refused_none w ph : c_dbType w = dbType → driver_error dbType ph = None →
  c_refused (T := T) driver_error fault w ph = None.
Proof. intros Ht Hp. unfold c_refused. rewrite Ht, Hp. apply no_faults. Qed.

Lemma Unix_monotone a b : (a ≤ b)%Z → (Unix a ≤ Unix b)%Z.
Proof. intros. unfold Unix. apply Z.div_le_mono; lia. Qed.

Lemma update_config_none id (d : T) now l :
  existsb (has_row_id id) l = false → map (update_config id d now) l = l.
Proof.
  induction l as [|r l IH]; simpl; [done|]. intros [Hr Hl]%orb_false_iff.
  unfold update_config at 1. rewrite Hr. by rewrite IH.
Qed.

Lemma upsertConfigRow_run t id d w : c_dbType w = dbType →
  ∃ w', crun (upsertConfigRow dbType t id d) w = (None, w') ∧
    changed t (if existsb (has_row_id id) (rows_of t w)
               then map (update_config id d (bound w)) (rows_of t w)
               else rows_of t w ++ [{| row_id := id; config_json := d; created_at := bound w;
                                       c_updated_at := bound w |}]) w w'.
Proof.
  intros Ht. destruct t; unfold upsertConfigRow; simpl; unfold cquery; simpl;
    rewrite c_refused_none by done; simpl; rewrite no_faults; simpl; rewrite filter_existsb;
    destruct (existsb _ _) eqn:He; simpl; rewrite ?(update_config_none id d) by done; unfold cexec;
    rewrite ?c_refused_none by done; rewrite ?He; simpl.
  all: eexists; (split; [reflexivity|]); split; cbn; auto; by intros [].
Qed.

Lemma getConfigJSON_run {A} reads (name : A → string) now t id xs w : c_dbType w = dbType →
  holds reads name now (rows_of t w) xs →
  ∃ r w', crun (getConfigJSON dbType t id) w = (inl r, w') ∧ changed t (rows_of t w) w w' ∧
    option_Forall2 reads r (look name id xs).
Proof.
  intros Ht Hh. unfold getConfigJSON. simpl. unfold cquery. rewrite c_refused_none by done. simpl.
  destruct (holds_find reads name id _ _ (h_rows _ _ _ _ _ Hh)) as [r x (_ & Hn & Hr)|]; simpl.
  - rewrite Hn. eexists (Some _), _. split_and!; [reflexivity|by destruct t|by constructor].
  - eexists None, _. split_and!; [reflexivity|by destruct t|constructor].
Qed.

Lemma deleteConfigRow_run t msg id w : c_dbType w = dbType →
  ∃ w', crun (deleteConfigRow dbType t msg id) w = (None, w') ∧
    changed t (List.filter (λ r, negb (has_row_id id r)) (rows_of t w)) w w'.
Proof.
  intros Ht. unfold deleteConfigRow. simpl. unfold cexec. rewrite c_refused_none by done. simpl.
  eexists. split; [done|]. destruct t; split; simpl; try done; by intros [].
Qed.

Lemma list_rows_run {A} reads (name : A → string) now t xs decode w : c_dbType w = dbType →
  holds reads name now (rows_of t w) xs → (∀ d x, reads d x → decode d = inl x) →
  ∃ rows w', crun (call (QueryRows t)) w = (inl rows, w') ∧ changed t (rows_of t w) w w' ∧
    decode_rows decode rows = inl xs.
Proof.
  intros Ht Hh Hd. simpl. unfold cquery. rewrite c_refused_none by done. simpl.
  eexists _, _. split; [done|]. split; [by destruct t|].
  rewrite oldest_first_sorted by apply (h_sorted _ _ _ _ _ Hh).
  by eapply decode_rows_holds, (h_rows _ _ _ _ _ Hh).
Qed.

(** *** The tables represent the registry *)

Record represents (w : cworld T) (g : registry) : Prop := {
  rp_type : c_dbType w = dbType;
  rp_vaults : holds vault_reads v_ID (bound w) (vault_rows w) (reg_vaults g);
  rp_syncs : holds sync_reads s_ID (bound w) (sync_rows w) (reg_syncs g) }.
Definition became (w w' : cworld T) (g : registry) : Prop :=
  represents w' g ∧ notified w' = notified w.

Lemma bound_changed t l w w' : changed t l w w' → (bound w ≤ bound w')%Z.
Proof. intros Hc. apply Unix_monotone, clock_monotone, (ch_ticks _ _ _ _ Hc). Qed.

Lemma became_vaults w w' g l xs : represents w g → changed config_vaults l w w' →
  holds vault_reads v_ID (bound w) l xs → became w w' (set_vaults xs g).
Proof.
  intros [Ht Hv Hs] Hc Hh. pose proof (bound_changed _ _ _ _ Hc) as Hb.
  destruct Hc as [Hty Hr Ho _ Hn]. split; [|done]. split; simpl in *.
  - congruence.
  - rewrite Hr. by eapply holds_later.
  - specialize (Ho config_syncs). simpl in Ho. rewrite Ho by done. by eapply holds_later.
Qed.

Lemma became_syncs w w' g l xs : represents w g → changed config_syncs l w w' →
  holds sync_reads s_ID (bound w) l xs → became w w' (set_syncs xs g).
Proof.
  intros [Ht Hv Hs] Hc Hh. pose proof (bound_changed _ _ _ _ Hc) as Hb.
  destruct Hc as [Hty Hr Ho _ Hn]. split; [|done]. split; simpl in *.
  - congruence.
  - specialize (Ho config_vaults). simpl in Ho. rewrite Ho by done. by eapply holds_later.
  - rewrite Hr. by eapply holds_later.
Qed.

Lemma set_vaults_same g : set_vaults (reg_vaults g) g = g. Proof. by destruct g. Qed.
Lemma set_syncs_same g : set_syncs (reg_syncs g) g = g. Proof. by destruct g. Qed.

Lemma drawn_represents n w g : represents w g → became w (drawn_by n w) g.
Proof. intros [? ? ?]. by split. Qed.

Lemma became_trans w1 w2 w3 g g' : became w1 w2 g → became w2 w3 g' → became w1 w3 g'.
Proof. intros [_ H1] [? H2]. split; [done|congruence]. Qed.

(** An upsert of what reads as [x] puts [x] into the list. *)
Lemma upsert_holds {A} (reads : T → A → Prop) name now t d x w l xs :
  no_text d = false → reads d x → holds reads name now l xs → rows_of t w = l → now = bound w →
  holds reads name now
    (if existsb (has_row_id (name x)) (rows_of t w)
     then map (update_config (name x) d (bound w)) (rows_of t w)
     else rows_of t w ++ [{| row_id := name x; config_json := d; created_at := bound w;
                             c_updated_at := bound w |}]) (put name x xs).
Proof.
  intros Hd Hx Hh -> ->. rewrite (holds_exists reads name _ _ _ (h_rows _ _ _ _ _ Hh)).
  destruct (existsb (named name (name x)) xs) eqn:He.
  - by apply holds_update.
  - unfold put. rewrite He. by apply holds_insert.
Qed.

Lemma GetVault_run id w g : represents w g →
  ∃ w', crun (GetVault entries dbType encrypting id) w = (inl (look v_ID id (reg_vaults g)), w') ∧
    became w w' g.
Proof.
  intros Hr. unfold GetVault. rewrite run_bind.
  destruct (getConfigJSON_run _ _ _ config_vaults id _ w (rp_type _ _ Hr) (rp_vaults _ _ Hr))
    as (r & w' & -> & Hc & Hl).
  exists w'. split; [|rewrite <- (set_vaults_same g); eapply became_vaults; [done..|apply rp_vaults, Hr]].
  simpl. destruct Hl as [d v Hd|]; [by rewrite Hd|done].
Qed.

Lemma GetSync_run id w g : represents w g →
  ∃ w', crun (GetSync dbType id) w = (inl (look s_ID id (reg_syncs g)), w') ∧ became w w' g.
Proof.
  intros Hr. unfold GetSync. rewrite run_bind.
  destruct (getConfigJSON_run _ _ _ config_syncs id _ w (rp_type _ _ Hr) (rp_syncs _ _ Hr))
    as (r & w' & -> & Hc & Hl).
  exists w'. split; [|rewrite <- (set_syncs_same g); eapply became_syncs; [done..|apply rp_syncs, Hr]].
  simpl. destruct Hl as [d s Hd|]; [by rewrite Hd|done].
Qed.

Lemma SaveVault_run v w g : represents w g → vault_ok v → wire_vault v = v →
  ∃ raw w', crun (SaveVault' v) w = ((None, raw), w') ∧
    became w w' (set_vaults (put v_ID v (reg_vaults g)) g) ∧ sanitiseVault raw = sanitiseVault v.
Proof.
  intros Hr Hv Hw. unfold SaveVault. rewrite run_bind.
  destruct (vault_json_reads v w Hv Hw) as (raw & n & d & -> & Hm & Hn & Hd & Hs). cbv iota beta.
  rewrite Hm, run_bind. destruct (drawn_represents n w g Hr) as [Hr' Hno].
  destruct (upsertConfigRow_run config_vaults (v_ID v) d _ (rp_type _ _ Hr')) as (w' & -> & Hc). simpl.
  exists raw, w'. split_and!; [done| |done]. apply (became_trans w (drawn_by n w) w' g); [by split|].
  eapply (became_vaults _ _ _ _ _ Hr' Hc), upsert_holds; try done. apply (rp_vaults _ _ Hr').
Qed.

Lemma SaveSync_run s w g : represents w g → sync_ok s →
  ∃ w', crun (SaveSync dbType s) w = (None, w') ∧
    became w w' (set_syncs (put s_ID s (reg_syncs g)) g).
Proof.
  intros Hr Hs. unfold SaveSync. destruct (sync_json_reads s Hs) as (d & -> & Hn & Hd).
  destruct (upsertConfigRow_run config_syncs (s_ID s) d _ (rp_type _ _ Hr)) as (w' & -> & Hc).
  exists w'. split; [done|]. eapply (became_syncs _ _ _ _ _ Hr Hc), upsert_holds; try done.
  apply (rp_syncs _ _ Hr).
Qed.

Lemma DeleteVault_run id w g : represents w g →
  ∃ w', crun (DeleteVault dbType id) w = (None, w') ∧
    became w w' (set_vaults (discard v_ID id (reg_vaults g)) g).
Proof.
  intros Hr. unfold DeleteVault.
  destruct (deleteConfigRow_run config_vaults "storage: DeleteVault: " id w (rp_type _ _ Hr))
    as (w' & -> & Hc).
  exists w'. split; [done|]. eapply became_vaults; [done..|]. apply holds_discard, Hr.
Qed.

Lemma DeleteSync_run id w g : represents w g →
  ∃ w', crun (DeleteSync dbType id) w = (None, w') ∧
    became w w' (set_syncs (discard s_ID id (reg_syncs g)) g).
Proof.
  intros Hr. unfold DeleteSync.
  destruct (deleteConfigRow_run config_syncs "storage: DeleteSync: " id w (rp_type _ _ Hr))
    as (w' & -> & Hc).
  exists w'. split; [done|]. eapply became_syncs; [done..|]. apply holds_discard, Hr.
Qed.

Lemma ListVaults_run w g : represents w g →
  ∃ w', crun (ListVaults entries encrypting) w = (inl (reg_vaults g), w') ∧ became w w' g.
Proof.
  intros Hr. unfold ListVaults. rewrite run_bind.
  destruct (list_rows_run _ _ _ config_vaults _ (decode_vault' "storage: ListVaults unmarshal: ") w
    (rp_type _ _ Hr) (rp_vaults _ _ Hr)) as (rows & w' & -> & Hc & Hd); [by intros d x Hd|].
  exists w'. split; [simpl; by rewrite Hd|]. rewrite <- (set_vaults_same g).
  eapply became_vaults; [done..|apply rp_vaults, Hr].
Qed.

Lemma ListSyncs_run w g : represents w g →
  ∃ w', crun ListSyncs w = (inl (reg_syncs g), w') ∧ became w w' g.
Proof.
  intros Hr. unfold ListSyncs. rewrite run_bind.
  destruct (list_rows_run _ _ _ config_syncs _ (decode_sync "storage: ListSyncs unmarshal: ") w
    (rp_type _ _ Hr) (rp_syncs _ _ Hr)) as (rows & w' & -> & Hc & Hd); [by intros d x Hd|].
  exists w'. split; [simpl; by rewrite Hd|]. rewrite <- (set_syncs_same g).
  eapply became_syncs; [done..|apply rp_syncs, Hr].
Qed.

Lemma LoadConfig_run server logging w g : represents w g →
  ∃ w', crun (LoadConfig entries encrypting server logging) w =
      (inl {| Vaults := reg_vaults g; Syncs := reg_syncs g; Server := server; Logging := logging |}, w') ∧
    became w w' g.
Proof.
  intros Hr. unfold LoadConfig. rewrite run_bind.
  destruct (ListVaults_run w g Hr) as (w1 & -> & Hb1). rewrite run_bind.
  destruct (ListSyncs_run w1 g (proj1 Hb1)) as (w2 & -> & Hb2).
  exists w2. split; [done|]. by eapply became_trans.
Qed.

(** ** The requests *)

Definition serve_config (r : config_request) : prog (ConfigE T) config_response :=
  match r with
  | GetVaults => ListVaultsConfig entries encrypting
  | PostVault b => CreateVault entries dbType encrypting b
  | GetVaultReq id => GetVaultConfig entries dbType encrypting id
  | PutVault id b => UpdateVault entries dbType encrypting id b
  | DeleteVaultReq id => DeleteVaultConfig dbType id
  | GetSyncs => ListSyncsConfig
  | PostSync b => CreateSync dbType b
  | GetSyncReq id => GetSyncConfig dbType id
  | PutSync id b => UpdateSync dbType id b
  | DeleteSyncReq id => DeleteSyncConfig dbType id
  end.
Fixpoint serve_configs (rs : list config_request) (w : cworld T) : list config_response * cworld T :=
  match rs with
  | [] => ([], w)
  | r :: rs =>
      let '(a, w) := crun (serve_config r) w in
      let '(l, w) := serve_configs rs w in (a :: l, w)
  end.

(** A handler answers as expected. *)
Definition answers (p : prog (ConfigE T) config_response) (w : cworld T)
    (e : config_response * registry * bool) : Prop :=
  let '(a, g, b) := e in
  ∃ w', crun p w = (a, w') ∧ represents w' g ∧ notified w' = (if b then 1 else 0) + notified w.

Lemma answers_reply a w w' g : became w w' g →
  ∃ w2, crun (reply a) w' = (a, w2) ∧ represents w2 g ∧ notified w2 = 0 + notified w.
Proof. intros [? Hn]. by exists w'. Qed.

Lemma notify_became w w' g a : became w w' g →
  ∃ w2, crun (notifyConfigChanged a) w' = (a, w2) ∧ represents w2 g ∧ notified w2 = 1 + notified w.
Proof.
  intros [[? ? ?] Hn]. exists (notify w'). split_and!; [done|by split|]. simpl. by rewrite Hn.
Qed.

Lemma with_vault_id_ok id v : vault_ok v → wire_vault v = v → text id →
  vault_ok (with_vault_id id v) ∧ wire_vault (with_vault_id id v) = with_vault_id id v.
Proof.
  intros (Hst & Hrest) Hw Hid. split.
  - split; [|done]. apply Forall_cons in Hst as [_ Hst]. by constructor.
  - unfold with_vault_id, wire_vault in *. destruct v. simpl in *. congruence.
Qed.

Lemma with_sync_id_ok id s : sync_ok s → text id → sync_ok (with_sync_id id s).
Proof.
  intros (Hst & Hrest) Hid. split; [|done]. apply Forall_cons in Hst as [_ Hst]. by constructor.
Qed.

Lemma became_refl w g : represents w g → became w w g.
Proof. done. Qed.

(** Guards that do not touch the database. *)
Ltac refuse_early := case_bool_decide; [by apply answers_reply, became_refl|].

Lemma ListVaultsConfig_answers w g : represents w g →
  answers (ListVaultsConfig entries encrypting) w (expected GetVaults g).
Proof.
  intros Hr. destruct (ListVaults_run w g Hr) as (w' & Hl & Hb). unfold answers, expected, ListVaultsConfig.
  rewrite run_bind, Hl. by apply answers_reply.
Qed.

Lemma CreateVault_answers b w g : represents w g → vault_body b →
  answers (CreateVault entries dbType encrypting b) w (expected (PostVault b) g).
Proof.
  intros Hr Hok. unfold answers, expected, CreateVault.
  destruct b as [v|]; [|by apply answers_reply, became_refl]. destruct Hok as [Hv Hw]. refuse_early.
  destruct (GetVault_run (v_ID v) w g Hr) as (w1 & Hg & Hb1). rewrite run_bind, Hg.
  destruct (look v_ID (v_ID v) (reg_vaults g)) as [v'|] eqn:Hl; [by apply answers_reply|].
  rewrite run_bind. destruct (SaveVault_run v w1 g (proj1 Hb1) Hv Hw) as (raw & w2 & -> & Hb2 & ->).
  unfold put in Hb2. rewrite look_none in Hb2 by done. by eapply notify_became, became_trans.
Qed.

Lemma GetVaultConfig_answers id w g : represents w g →
  answers (GetVaultConfig entries dbType encrypting id) w (expected (GetVaultReq id) g).
Proof.
  intros Hr. unfold answers, expected, GetVaultConfig. refuse_early.
  destruct (GetVault_run id w g Hr) as (w1 & Hg & Hb1). rewrite run_bind, Hg.
  destruct (look v_ID id (reg_vaults g)); by apply answers_reply.
Qed.

Lemma UpdateVault_answers id b w g : represents w g → vault_body b → text id →
  answers (UpdateVault entries dbType encrypting id b) w (expected (PutVault id b) g).
Proof.
  intros Hr Hok Hid. unfold answers, expected, UpdateVault. refuse_early.
  destruct b as [v|]; [|by apply answers_reply, became_refl]. destruct Hok as [Hv Hw].
  destruct (GetVault_run id w g Hr) as (w1 & Hg & Hb1). cbv zeta. rewrite run_bind, Hg.
  destruct (look v_ID id (reg_vaults g)) as [v'|] eqn:Hl; [|by apply answers_reply].
  destruct (with_vault_id_ok id v Hv Hw Hid) as [Hv2 Hw2]. rewrite run_bind.
  destruct (SaveVault_run _ w1 g (proj1 Hb1) Hv2 Hw2) as (raw & w2 & -> & Hb2 & ->).
  by eapply notify_became, became_trans.
Qed.

Lemma DeleteVaultConfig_answers id w g : represents w g →
  answers (DeleteVaultConfig dbType id) w (expected (DeleteVaultReq id) g).
Proof.
  intros Hr. unfold answers, expected, DeleteVaultConfig. refuse_early.
  destruct (DeleteVault_run id w g Hr) as (w1 & Hd & Hb1). rewrite run_bind, Hd.
  by apply notify_became.
Qed.

Lemma ListSyncsConfig_answers w g : represents w g →
  answers ListSyncsConfig w (expected GetSyncs g).
Proof.
  intros Hr. destruct (ListSyncs_run w g Hr) as (w' & Hl & Hb). unfold answers, expected, ListSyncsConfig.
  rewrite run_bind, Hl. by apply answers_reply.
Qed.

Lemma CreateSync_answers b w g : represents w g → sync_body b →
  answers (CreateSync dbType b) w (expected (PostSync b) g).
Proof.
  intros Hr Hok. unfold answers, expected, CreateSync.
  destruct b as [s|]; [|by apply answers_reply, became_refl]. refuse_early.
  destruct (GetSync_run (s_ID s) w g Hr) as (w1 & Hg & Hb1). rewrite run_bind, Hg.
  destruct (look s_ID (s_ID s) (reg_syncs g)) as [s'|] eqn:Hl; [by apply answers_reply|].
  rewrite run_bind. destruct (SaveSync_run s w1 g (proj1 Hb1) Hok) as (w2 & -> & Hb2).
  unfold put in Hb2. rewrite look_none in Hb2 by done. by eapply notify_became, became_trans.
Qed.

Lemma GetSyncConfig_answers id w g : represents w g →
  answers (GetSyncConfig dbType id) w (expected (GetSyncReq id) g).
Proof.
  intros Hr. unfold answers, expected, GetSyncConfig. refuse_early.
  destruct (GetSync_run id w g Hr) as (w1 & Hg & Hb1). rewrite run_bind, Hg.
  destruct (look s_ID id (reg_syncs g)); by apply answers_reply.
Qed.

Lemma UpdateSync_answers id b w g : represents w g → sync_body b → text id →
  answers (UpdateSync dbType id b) w (expected (PutSync id b) g).
Proof.
  intros Hr Hok Hid. unfold answers, expected, UpdateSync. refuse_early.
  destruct b as [s|]; [|by apply answers_reply, became_refl].
  destruct (GetSync_run id w g Hr) as (w1 & Hg & Hb1). cbv zeta. rewrite run_bind, Hg.
  destruct (look s_ID id (reg_syncs g)) as [s'|] eqn:Hl; [|by apply answers_reply].
  rewrite run_bind.
  destruct (SaveSync_run _ w1 g (proj1 Hb1) (with_sync_id_ok id s Hok Hid)) as (w2 & -> & Hb2).
  by eapply notify_became, became_trans.
Qed.

Lemma DeleteSyncConfig_answers id w g : represents w g →
  answers (DeleteSyncConfig dbType id) w (expected (DeleteSyncReq id) g).
Proof.
  intros Hr. unfold answers, expected, DeleteSyncConfig. refuse_early.
  destruct (DeleteSync_run id w g Hr) as (w1 & Hd & Hb1). rewrite run_bind, Hd.
  by apply notify_became.
Qed.

Lemma serve_config_answers r w g : represents w g → request_ok r →
  answers (serve_config r) w (expected r g).
Proof.
  destruct r; simpl request_ok; unfold serve_config.
  - intros. by apply ListVaultsConfig_answers.
  - by apply CreateVault_answers.
  - intros. by apply GetVaultConfig_answers.
  - intros ? []. by apply UpdateVault_answers.
  - intros. by apply DeleteVaultConfig_answers.
  - intros. by apply ListSyncsConfig_answers.
  - by apply CreateSync_answers.
  - intros. by apply GetSyncConfig_answers.
  - intros ? []. by apply UpdateSync_answers.
  - intros. by apply DeleteSyncConfig_answers.
Qed.

Lemma requests_implement rs w g server logging :
  represents w g → Forall request_ok rs →
  let '(l, w') := serve_configs rs w in
  let '(l', g', n) := expected_all rs g in
  l = l' ∧ represents w' g' ∧ notified w' = n + notified w ∧
  (crun (LoadConfig entries encrypting server logging) w').1 =
    inl {| Vaults := reg_vaults g'; Syncs := reg_syncs g'; Server := server; Logging := logging |}.
Proof.
  intros Hr Hok. revert w g Hr. induction Hok as [|r rs Hreq _ IH]; intros w g Hr; cbn [serve_configs expected_all].
  - split_and!; [done..|]. by destruct (LoadConfig_run server logging w g Hr) as (w' & -> & _).
  - pose proof (serve_config_answers r w g Hr Hreq) as Ha. unfold answers in Ha.
    destruct (expected r g) as [[a g1] b]. destruct Ha as (w1 & -> & Hr1 & Hn1).
    specialize (IH w1 g1 Hr1). destruct (serve_configs rs w1) as [l w2].
    destruct (expected_all rs g1) as [[l' g2] n]. destruct IH as (-> & Hr2 & Hn2 & Hl).
    split_and!; try done. rewrite Hn2, Hn1. lia.
Qed.

(** C19: The configuration endpoints implement the registry: starting from tables
    that represent one, any requests, one after the other, get the answers the
    registry gives (not found, exists already, a missing id, a bad body, the
    views without credentials), the tables represent what becomes of it, each
    change and nothing else notifies the daemon, and what the daemon then loads
    is exactly the configurations of the registry in the order of their
    creation, credentials decrypted.  No statement fails, the clock does not
    go back, and the database leaves rows of the same second in the order of
    their insertion, as SQLite does. *)
Theorem config_implements_registry rs w g server logging :
  represents w g → Forall request_ok rs →
  let '(l, w') := serve_configs rs w in
  let '(l', g', n) := expected_all rs g in
  l = l' ∧ represents w' g' ∧ notified w' = n + notified w ∧
  (crun (LoadConfig entries encrypting server logging) w').1 =
    inl {| Vaults := reg_vaults g'; Syncs := reg_syncs g'; Server := server; Logging := logging |}.
Proof. apply requests_implement. Qed.
End operations.

(** ** With the runner: a change reaches the schedule *)

Section runner.
Context {T : Type} `{!JsonCodec T, !JsonLaws T, !Encryptor, !EncryptorLaws}.
Context {order : RowOrder} {ties : InsertionOrder}.
Context {E C : Type} `{!CronOps C (E * SyncConfig), !CronLaws C (E * SyncConfig)}.
Variable entries : gmap string string → list (string * string).
Hypothesis entries_perm : ∀ m, entries m ≡ₚ map_to_list m.
Variable clock : nat → Z.
Variable dbType : DBType.
Hypothesis clock_monotone : ∀ i j, i ≤ j → (clock i ≤ clock j)%Z.
Hypothesis takes_none : strict_driver dbType "" = None.
Hypothesis takes_one : strict_driver dbType (placeholder dbType 1) = None.
Hypothesis takes_four : strict_driver dbType (placeholders dbType 1 4) = None.

(** The reload that follows any requests puts what the registry has become in
    use, when its engine can be made and its schedules are valid. *)
Lemma requests_reach_runner rs (w : cworld T) g server logging newEngine (e : E) s (a : app) :
  represents entries clock dbType true w g → Forall request_ok rs → app_inv s a →
  let w' := (serve_configs entries strict_driver no_fault clock dbType true rs w).2 in
  let g' := (expected_all rs g).1.2 in
  let cfg := {| Vaults := reg_vaults g'; Syncs := reg_syncs g'; Server := server; Logging := logging |} in
  newEngine cfg = inl e →
  forallb (λ s, valid_schedule (Schedule s)) (scheduled (Syncs cfg)) = true →
  app_inv (cfg, e)
    (reloadConfig (run (config_handle strict_driver no_fault clock) (LoadConfig entries true server logging) w').1
       newEngine a).
Proof.
  intros Hr Hok Ha w' g' cfg He Hv.
  pose proof (requests_implement entries entries_perm strict_driver no_fault clock dbType true
    takes_none takes_one takes_four (λ _, eq_refl) clock_monotone rs w g server logging Hr Hok) as Hc.
  subst w' g' cfg. destruct (serve_configs _ _ _ _ _ _ rs w) as [l w'].
  destruct (expected_all rs g) as [[l' g'] n]. simpl in *. destruct Hc as (_ & _ & _ & Hl). rewrite Hl.
  pose proof (reloadConfig_inv (inl {| Vaults := reg_vaults g'; Syncs := reg_syncs g';
    Server := server; Logging := logging |}, newEngine) s a Ha) as Hre.
  unfold accepted in Hre. simpl in Hre. by rewrite He, Hv in Hre.
Qed.
End runner.

(** ** Instances *)

#[local] Existing Instances stable_order stable_order_insertion.

(** Texts that are what was written: [None] is the empty one. *)
#[export] Instance plain_json : JsonCodec (option (VaultConfig + SyncConfig)) := {|
  Marshal_vault v := inl (Some (inl (wire_vault v)));
  Unmarshal_vault d := match d with Some (inl v) => inl v | _ => inr "unexpected end of JSON input" end;
  Marshal_sync s := inl (Some (inr s));
  Unmarshal_sync d := match d with Some (inr s) => inl s | _ => inr "unexpected end of JSON input" end;
  no_text d := match d with None => true | Some _ => false end |}.
#[export] Instance plain_json_laws : JsonLaws (option (VaultConfig + SyncConfig)).
Proof. split; intros x _; by eexists. Qed.

Definition bearer (token : string) : VaultConfig :=
  {| v_ID := "a"; v_Name := "A"; v_Type := "vault"; v_Endpoint := "https://a"; v_Method := "PUT";
     v_Auth := Some {| auth_Method := "bearer"; auth_Headers := Some {[ "token" := token ]};
                       OAuth := None |};
     v_FieldNames := {| fn_NameField := "name"; fn_ValueField := "value" |}; v_Headers := None;
     OperationsOverride := None; v_Timeout := 30; SkipSSLVerify := false; ToolConfig := "";
     ResolvedTool := None; LegacyAuthMethod := ""; LegacyAuthHeaders := None |}.
Definition hourly (id : string) : SyncConfig :=
  {| s_ID := id; s_Source := "a"; Targets := ["b"]; SyncType := "unidirectional";
     Schedule := "0 * * * *"; Filter := {| Patterns := []; Exclude := [] |}; Transforms := [];
     s_RetryPolicy := {| MaxRetries := 0; InitialBackoff := 1; MaxBackoff := 1; Multiplier := two |};
     ConcurrentWorkers := 1; Enabled := None |}.
Definition empty_tables : cworld (option (VaultConfig + SyncConfig)) :=
  {| c_dbType := DBTypeSQLite; vault_rows := []; sync_rows := []; c_stmts := 0; c_ticks := 0;
     draws := 0; notified := 0 |}.

Definition some_server : ServerConfig :=
  {| Port := 8080; Address := ""; MetricsPort := 9090; MetricsAddress := "" |}.
Definition some_logging : LoggingConfig := {| Level := "info"; Format := "json" |}.

Lemma bearer_ok token : ValidString token = true → vault_ok (bearer token).
Proof.
  intros Ht. split; [repeat (constructor; [reflexivity|]); constructor|].
  split; [|by split_and!]. split; [reflexivity|]. split; [|done].
  apply map_Forall_singleton. by split.
Qed.
Lemma hourly_ok id : ValidString id = true → sync_ok (hourly id).
Proof.
  intros Hid. split; [constructor; [exact Hid|]; repeat (constructor; [reflexivity|]); constructor|].
  split; [constructor|]. split; [|done]. repeat (constructor; [by unfold int64; simpl|]). constructor.
Qed.

Lemma empty_tables_represent entries clock encrypting :
  represents entries clock DBTypeSQLite encrypting empty_tables {| reg_vaults := []; reg_syncs := [] |}.
Proof. split; simpl; [done|split|split]; constructor. Qed.

(** [SaveVault] encrypts the headers of its caller: a value that is saved
    twice is stored encrypted twice, and reads back as a ciphertext. *)
Lemma SaveVault_twice :
  let h := config_handle (T := option (VaultConfig + SyncConfig)) strict_driver no_fault counting in
  let save v := SaveVault map_to_list DBTypeSQLite true v in
  let read w := (run h (GetVault map_to_list DBTypeSQLite true "a") w).1 in
  let r1 := run h (save (bearer "s3cret")) empty_tables in
  let r2 := run h (save r1.1.2) r1.2 in
  r1.1.1 = None ∧ read r1.2 = inl (Some (bearer "s3cret")) ∧
  r2.1.1 = None ∧ r1.1.2 ≠ bearer "s3cret" ∧ read r2.2 = inl (Some r1.1.2).
Proof. vm_compute. split_and!; congruence. Qed.

#[local] Definition some_requests : list config_request :=
  [ PostVault (inl (bearer "s3cret")); PostVault (inl (bearer "other"));
    PostSync (inl (hourly "x")); PostSync (inl (hourly "y"));
    PutSync "z" (inl (hourly "x")); PutVault "a" (inl (bearer "new"));
    DeleteSyncReq "x"; PostSync (inr "EOF"); GetVaultReq "b"; GetVaults ].

Lemma config_implements_registry_witness :
  let '(l, w') := serve_configs map_to_list strict_driver no_fault counting DBTypeSQLite true
                    some_requests empty_tables in
  map c_code l = [201; 409; 201; 201; 404; 200; 200; 400; 404; 200]%Z ∧
  represents map_to_list counting DBTypeSQLite true w'
    {| reg_vaults := [bearer "new"]; reg_syncs := [hourly "y"] |} ∧
  notified w' = 5.
Proof.
  assert (Forall request_ok some_requests) as Hok.
  { repeat (constructor; [first [done | split; [by apply bearer_ok|reflexivity] | by apply hourly_ok
      | split; [split; [by apply bearer_ok|reflexivity]|reflexivity]
      | split; [by apply hourly_ok|reflexivity]]|]). constructor. }
  assert (∀ i j, i ≤ j → (counting i ≤ counting j)%Z) as Hmon by (intros; unfold counting; lia).
  pose proof (config_implements_registry map_to_list (λ _, reflexivity _) strict_driver no_fault counting
    DBTypeSQLite true eq_refl eq_refl eq_refl (λ _, eq_refl) Hmon some_requests empty_tables
    {| reg_vaults := []; reg_syncs := [] |} some_server some_logging
    (empty_tables_represent _ _ _) Hok) as Hall.
  destruct (serve_configs _ _ _ _ _ _ some_requests empty_tables) as [l w'].
  destruct Hall as (-> & Hr & Hn & _). split_and!; [reflexivity|exact Hr|exact Hn].
Defined.
