(* ===== verification/Policy.v ===== *)
(** * What a sync does to names and values, and how often it tries

    The pure helpers of [sync/engine.go]: [matchPattern] and [filterSecrets],
    [applyTransforms], [effectiveRetryPolicy], and the retry loop [withRetry]
    over any kind of call, sleeping being a call of its own.  [float64] is the
    Standard Library's [spec_float] at binary64. *)

From S2P Require Import Prelude GoLang Config Effects.

(** ** Filters *)

(** [pattern == "*"], then equality, then a leading star compared with the
    suffix, then a trailing star compared with the prefix. *)
Definition matchPattern (pattern name : string) : bool :=
  let lp := String.length pattern in
  let ln := String.length name in
  if bool_decide (pattern = "*") then true
  else if bool_decide (pattern = name) then true
  else if (0 <? lp) && bool_decide (first_byte pattern = Some "*"%char) && (lp - 1 <=? ln) then
    bool_decide (drop_str (ln - (lp - 1)) name = drop_str 1 pattern)
  else if (0 <? lp) && bool_decide (last_byte pattern = Some "*"%char) then
    if ln <? lp - 1 then false
    else bool_decide (take_str (lp - 1) name = take_str (lp - 1) pattern)
  else false.

Fixpoint filter_loop (filter : FilterConfig) (secrets : list string) : list string :=
  match secrets with
  | [] => []
  | secret :: secrets =>
      let excluded := existsb (λ p, matchPattern p secret) (Exclude filter) in
      if excluded then filter_loop filter secrets
      else if (0 <? length (Patterns filter))
              && negb (existsb (λ p, matchPattern p secret) (Patterns filter))
      then filter_loop filter secrets
      else secret :: filter_loop filter secrets
  end.

Definition filterSecrets (secrets : list string) (filter : FilterConfig) : list string :=
  if (length (Patterns filter) =? 0) && (length (Exclude filter) =? 0) then secrets
  else filter_loop filter secrets.

(** ** Transforms *)

Definition transform_step (t : Transform) (value : string) : result string :=
  if bool_decide (tr_Field t ≠ "value") then inl value
  else if bool_decide (tr_Type t = "base64_encode") then inl (base64.EncodeToString value)
  else if bool_decide (tr_Type t = "base64_decode") then
    match base64.DecodeString value with
    | inl decoded => inl decoded
    | inr err => inr ("base64_decode transform failed: " +:+ err)
    end
  else inr ("unsupported transform type: " +:+ tr_Type t).

Fixpoint applyTransforms (value : string) (transforms : list Transform) : result string :=
  match transforms with
  | [] => inl value
  | t :: transforms =>
      match transform_step t value with
      | inl value => applyTransforms value transforms
      | inr err => inr err
      end
  end.

(** ** Retries *)

Definition default_policy : RetryPolicy :=
  {| MaxRetries := 3; InitialBackoff := 1000; MaxBackoff := 60000; Multiplier := two |}.

Definition effectiveRetryPolicy (p : RetryPolicy) : RetryPolicy :=
  if (0 <? MaxRetries p)%Z || (0 <? InitialBackoff p)%Z then p else default_policy.

(** [float64(n)] and [int(x)]: the conversion back truncates; a value outside
    the 64-bit integers gives what amd64 does, the least of them. *)
Definition float_of_int (n : Z) : spec_float := binary_normalize 53 1024 n 0 false.
Definition int_of_float (x : spec_float) : Z :=
  let least := (- 2 ^ 63)%Z in
  match x with
  | S754_zero _ => 0%Z
  | S754_finite s m e =>
      let a := (if (0 <=? e)%Z then Zpos m * 2 ^ e else Zpos m / 2 ^ (- e))%Z in
      let v := if s then (- a)%Z else a in
      if (least <=? v)%Z && (v <? 2 ^ 63)%Z then v else least
  | _ => least
  end.

Definition next_backoff (policy : RetryPolicy) (backoff : Z) : Z :=
  let b := int_of_float (SFmul 53 1024 (float_of_int backoff) (Multiplier policy)) in
  if (MaxBackoff policy <? b)%Z then MaxBackoff policy else b.

(** [time.Duration(backoff) * time.Millisecond], in nanoseconds. *)
Definition sleep_duration (backoff : Z) : Z := wrap64 (backoff * 10 ^ 6).

Section retry.
Context {E : Type → Type}.
Variable sleep : Z → prog E unit.
Variable policy : RetryPolicy.
Variable fn : prog E (option error).

(** The rest of the loop from [attempt]; [fuel] counts the attempts left, so
    that [attempt + fuel = MaxRetries + 1] all along.  This is the Go loop for
    every [MaxRetries] below the greatest int.  For that one the condition
    [attempt <= MaxRetries] holds of every int, the counter wraps around and
    the loop has no end (a finite [prog] stops after its 2^63 attempts). *)
Fixpoint retry_loop (fuel : nat) (attempt backoff : Z) (lastErr : option error)
    : prog E (option error) :=
  match fuel with
  | 0 => Ret (Some ("max retries exceeded: " +:+ default "%!w(<nil>)" lastErr))
  | S fuel =>
      (let* err := fn in
       match err with
       | None => Ret None
       | Some e =>
           if (attempt <? MaxRetries policy)%Z then
             let* _ := sleep (sleep_duration backoff) in
             retry_loop fuel (attempt + 1) (next_backoff policy backoff) (Some e)
           else retry_loop fuel (attempt + 1) backoff (Some e)
       end)%syncer
  end.

Definition withRetry : prog E (option error) :=
  retry_loop (Z.to_nat (MaxRetries policy + 1)) 0 (InitialBackoff policy) None.
End retry.

(** ** Filters: what a pattern matches *)

(** [*] everything, a name itself, [*s] the names ending in [s], and [s*]
    those starting with [s] when [s] does not start with a star.  A star
    elsewhere is an ordinary character. *)
Definition pattern_matches (pattern name : string) : Prop :=
  pattern = "*" ∨ pattern = name ∨
  (∃ s, pattern = String "*" s ∧ has_suffix s name) ∨
  (∃ s, pattern = s +:+ "*" ∧ first_byte pattern ≠ Some "*"%char ∧ has_prefix s name).

Lemma last_byte_spec s a : last_byte s = Some a ↔ ∃ s', s = s' +:+ String a EmptyString.
Proof.
  unfold last_byte. split.
  - intros H. apply last_Some in H as [l Hl]. exists (String.string_of_list_ascii l).
    rewrite <-(String.string_of_list_ascii_of_string s), Hl. clear.
    induction l as [|b l IH]; [done|]. simpl. by rewrite IH.
  - intros [s' ->]. apply last_Some. exists (String.list_ascii_of_string s').
    induction s' as [|b s' IH]; [done|].
    change (String b s' +:+ String a "") with (String b (s' +:+ String a "")). simpl. by rewrite IH.
Qed.

Lemma take_last s a :
  take_str (String.length (s +:+ String a EmptyString) - 1) (s +:+ String a EmptyString) = s.
Proof. apply take_str_app. rewrite append_length. simpl. lia. Qed.

Lemma matchPattern_matches pattern name :
  matchPattern pattern name = true ↔ pattern_matches pattern name.
Proof.
  unfold matchPattern, pattern_matches.
  case_bool_decide as H1; [tauto|]. case_bool_decide as H2; [tauto|].
  destruct pattern as [|a p].
  { split; [done|]. intros [?|[?|[(s&?&_)|(s&Hs&_)]]]; [done..|]. by destruct s. }
  cbn [first_byte String.list_ascii_of_string head String.length].
  replace (S (String.length p) - 1) with (String.length p) by lia.
  change (0 <? S (String.length p)) with true. cbn [andb].
  change (first_byte (String a p)) with (Some a).
  destruct (decide (a = "*"%char)) as [->|Ha].
  - rewrite bool_decide_eq_true_2 by done. cbn [andb].
    destruct (Nat.leb_spec (String.length p) (String.length name)) as [Hle|Hgt].
    + rewrite bool_decide_eq_true. change (drop_str 1 (String "*" p)) with p.
      rewrite drop_str_suffix by done. split; [|naive_solver].
      intros H. right; right; left. by exists p.
    + destruct (bool_decide _).
      * rewrite (proj2 (Nat.ltb_lt _ _)) by done. split; [done|].
        intros [?|[?|[(s&[= ->]&Hs)|(s&_&?&_)]]]; [done..| |done].
        apply has_suffix_length in Hs. lia.
      * split; [done|].
        intros [?|[?|[(s&[= ->]&Hs)|(s&_&?&_)]]]; [done..| |done].
        apply has_suffix_length in Hs. lia.
  - rewrite (bool_decide_eq_false_2 (Some a = _)) by congruence. cbn [andb].
    destruct (bool_decide_reflect (last_byte (String a p) = Some "*"%char)) as [Hl|Hl].
    + apply last_byte_spec in Hl as [s Hs].
      assert (Hlen : String.length s = String.length p).
      { apply (f_equal String.length) in Hs. rewrite append_length in Hs. simpl in Hs. lia. }
      assert (Htake : take_str (String.length p) (String a p) = s).
      { rewrite Hs. apply take_str_app. done. }
      rewrite Htake, <-Hlen. destruct (Nat.ltb_spec (String.length name) (String.length s)).
      * split; [done|]. intros [?|[?|[(s'&[= -> ->]&_)|(s'&Hs'&_&Hp)]]]; [done..|].
        rewrite Hs in Hs'. apply append_inj_r in Hs' as <-. apply has_prefix_length in Hp. lia.
      * rewrite bool_decide_eq_true, take_str_prefix by done. split.
        { intros Hp. right; right; right. exists s. split_and!; [done|congruence|done]. }
        intros [?|[?|[(s'&[= -> ->]&_)|(s'&Hs'&_&Hp)]]]; [done..|].
        rewrite Hs in Hs'. by apply append_inj_r in Hs' as <-.
    + split; [done|]. intros [?|[?|[(s'&[= -> ->]&_)|(s'&Hs'&_&Hp)]]]; [done..|].
      destruct Hl. apply last_byte_spec. eauto.
Qed.

(** What [filterSecrets] keeps. *)
Definition selected (filter : FilterConfig) (name : string) : Prop :=
  (∀ p, p ∈ Exclude filter → ¬ pattern_matches p name) ∧
  (Patterns filter = [] ∨ ∃ p, p ∈ Patterns filter ∧ pattern_matches p name).

#[export] Instance pattern_matches_dec p n : Decision (pattern_matches p n).
Proof.
  destruct (matchPattern p n) eqn:E; [left; by apply matchPattern_matches|right].
  rewrite <-matchPattern_matches. congruence.
Defined.

Lemma existsb_matches ps n :
  existsb (λ p, matchPattern p n) ps = true ↔ ∃ p, p ∈ ps ∧ pattern_matches p n.
Proof.
  rewrite existsb_exists. by setoid_rewrite list_elem_of_In; setoid_rewrite matchPattern_matches.
Qed.

#[export] Instance selected_dec f n : Decision (selected f n).
Proof.
  destruct (existsb (λ p, matchPattern p n) (Exclude f)) eqn:Hx.
  { right. apply existsb_matches in Hx as (p&Hp&Hm). intros [H _]. by apply (H p). }
  assert (Hno : ∀ p, p ∈ Exclude f → ¬ pattern_matches p n).
  { intros p Hp Hm. assert (existsb (λ p, matchPattern p n) (Exclude f) = true); [|congruence].
    apply existsb_matches. eauto. }
  destruct (existsb (λ p, matchPattern p n) (Patterns f)) eqn:Hp.
  - left. split; [done|]. right. by apply existsb_matches.
  - destruct (decide (Patterns f = [])); [left; by split; [|left]|right].
    intros [_ [?|He]]; [done|]. apply existsb_matches in He. congruence.
Defined.

Lemma filter_loop_filter f l : filter_loop f l = filter (selected f) l.
Proof.
  induction l as [|n l IH]; [done|]. cbn [filter_loop]. rewrite filter_cons, IH.
  destruct (existsb (λ p, matchPattern p n) (Exclude f)) eqn:Hx.
  - rewrite decide_False; [done|]. apply existsb_matches in Hx as (p&Hp&Hm).
    intros [H _]. by apply (H p).
  - assert (Hno : ∀ p, p ∈ Exclude f → ¬ pattern_matches p n).
    { intros p Hp Hm. assert (existsb (λ p, matchPattern p n) (Exclude f) = true); [|congruence].
      apply existsb_matches. eauto. }
    destruct (existsb (λ p, matchPattern p n) (Patterns f)) eqn:Hp; cbn [negb].
    + rewrite andb_false_r, decide_True; [done|]. split; [done|]. right. by apply existsb_matches.
    + rewrite andb_true_r. destruct (Patterns f) as [|p ps] eqn:Hps; cbn [length Nat.ltb Nat.leb].
      * rewrite decide_True; [done|]. split; [done|]. by left.
      * rewrite decide_False; [done|]. intros [_ [He|He]]; [congruence|].
        rewrite Hps in He. apply existsb_matches in He. congruence.
Qed.

Lemma filterSecrets_filter secrets f : filterSecrets secrets f = filter (selected f) secrets.
Proof.
  unfold filterSecrets. destruct (length (Patterns f) =? 0) eqn:Hp; cbn [andb];
    [|apply filter_loop_filter].
  destruct (length (Exclude f) =? 0) eqn:Hx; [|apply filter_loop_filter].
  bool_clean. apply length_zero_iff_nil in Hp, Hx.
  induction secrets as [|n l IH]; [done|]. rewrite filter_cons, decide_True, <-IH; [done|].
  split; [rewrite Hx; set_solver|by left].
Qed.

(** ** Retries against a scripted function *)

(** The [n]-th attempt returns [script n]; the sleeps are written down. *)
Inductive RetryE : Type → Type :=
| Attempt : RetryE (option error)
| Sleep (d : Z) : RetryE unit.

Definition retry_handle (script : nat → option error) X (e : RetryE X)
    : nat * list Z → X * (nat * list Z) :=
  match e in RetryE X return nat * list Z → X * (nat * list Z) with
  | Attempt => λ '(n, l), (script n, (S n, l))
  | Sleep d => λ '(n, l), (tt, (n, l ++ [d]))
  end.

Definition scripted (policy : RetryPolicy) (script : nat → option error)
    : option error * (nat * list Z) :=
  run (retry_handle script) (withRetry (λ d, call (Sleep d)) policy (call Attempt)) (0, []).

(** The durations slept, in order: the initial back-off, then each next one. *)
Fixpoint backoffs (policy : RetryPolicy) (n : nat) (backoff : Z) : list Z :=
  match n with
  | 0 => []
  | S n => sleep_duration backoff :: backoffs policy n (next_backoff policy backoff)
  end.

(** The first of [fuel] attempts from the [n]-th that succeeds, counted from 0. *)
Fixpoint first_success (script : nat → option error) (n fuel : nat) : option nat :=
  match fuel with
  | 0 => None
  | S fuel =>
      match script n with
      | None => Some 0
      | Some _ => S <$> first_success script (S n) fuel
      end
  end.

Definition last_error (script : nat → option error) (n fuel : nat) (last : option error) :=
  match fuel with 0 => last | S k => script (n + k) end.

Lemma retry_loop_spec policy script fuel n attempt backoff last l :
  (attempt + Z.of_nat fuel = MaxRetries policy + 1)%Z →
  run (retry_handle script)
    (retry_loop (λ d, call (Sleep d)) policy (call Attempt) fuel attempt backoff last) (n, l) =
  match first_success script n fuel with
  | Some k => (None, (n + S k, l ++ backoffs policy k backoff))
  | None => (Some ("max retries exceeded: "
                   +:+ default "%!w(<nil>)" (last_error script n fuel last)),
             (n + fuel, l ++ backoffs policy (fuel - 1) backoff))
  end.
Proof.
  revert n attempt backoff last l. induction fuel as [|fuel IH]; intros n attempt backoff last l Hf.
  { cbn. by rewrite Nat.add_0_r, app_nil_r. }
  cbn [retry_loop first_success]. rewrite run_bind, run_call. cbn [retry_handle].
  destruct (script n) as [e|] eqn:Hs.
  2:{ cbn. rewrite app_nil_r. do 2 f_equal. lia. }
  destruct fuel as [|fuel].
  - rewrite (proj2 (Z.ltb_ge _ _)) by lia. cbn. rewrite app_nil_r, !Nat.add_0_r, Hs. do 2 f_equal. lia.
  - rewrite (proj2 (Z.ltb_lt _ _)) by lia. rewrite run_bind, run_call. cbn [retry_handle].
    rewrite IH by lia. destruct (first_success script (S n) (S fuel)) as [k|]; cbn [fmap option_fmap option_map].
    + cbn [backoffs]. rewrite <-app_assoc. do 2 f_equal. lia.
    + cbn [last_error Nat.sub backoffs]. rewrite Nat.sub_0_r, <-app_assoc.
      replace (S n + fuel) with (n + S fuel) by lia. do 2 f_equal. lia.
Qed.

(** ** Retries among other goroutines *)

Section retry_rg.
Context {E : Type → Type} {W : Type}.
Variable h : ∀ X, E X → W → X * W.
Variable sleep : Z → prog E unit.
Variable fn : prog E (option error).
Variables R G : W → W → Prop.
Context `{HR : !PreOrder R}.
Variables (P : W → Prop) (Q : W → Prop).
Hypothesis P_stable : ∀ w w', P w → R w w' → P w'.
Hypothesis Q_stable : ∀ w w', Q w → R w w' → Q w'.
Hypothesis fn_ok : ∀ w, P w → rg h R G fn (λ r w, match r with None => Q w | Some _ => P w end) w.
Hypothesis sleep_ok : ∀ d w, P w → rg h R G (sleep d) (λ _, P) w.

(** [P] while attempts fail, [Q] once one succeeds. *)
Lemma rg_withRetry policy w :
  P w → rg h R G (withRetry sleep policy fn)
          (λ r w, match r with None => Q w | Some _ => P w end) w.
Proof.
  unfold withRetry. generalize (Z.to_nat (MaxRetries policy + 1)) as fuel.
  intros fuel. generalize 0%Z as attempt, (InitialBackoff policy) as backoff,
    (None : option error) as last.
  revert w. induction fuel as [|fuel IH]; intros w attempt backoff last Hw; cbn [retry_loop].
  { apply rg_ret. intros w1. by apply P_stable. }
  eapply rg_bind; [apply _|by apply fn_ok|]. intros [e|] w' Hw'.
  - destruct (attempt <? MaxRetries policy)%Z; [|by apply IH].
    eapply rg_bind; [apply _|by apply sleep_ok|]. intros [] w2 Hw2. by apply IH.
  - apply rg_ret. intros w1. by apply Q_stable.
Qed.
End retry_rg.

(** ** Properties *)

(** [matchPattern] matches exactly what [pattern_matches] says. *)
Theorem matchPattern_spec (pattern name : string) :
  matchPattern pattern name = true ↔ pattern_matches pattern name.
Proof. apply matchPattern_matches. Qed.

(** C40: [filterSecrets] keeps, in order, the names no exclude pattern matches
    and, when there are patterns, that some pattern matches. *)
Theorem filterSecrets_spec (secrets : list string) (f : FilterConfig) :
  filterSecrets secrets f = filter (selected f) secrets.
Proof. apply filterSecrets_filter. Qed.

(** A transform of the value. *)
Definition on_value (type : string) : Transform :=
  {| tr_Field := "value"; tr_Type := type; tr_Value := "" |}.

Lemma applyTransforms_app v ts ts' :
  applyTransforms v (ts ++ ts') =
    match applyTransforms v ts with inl v => applyTransforms v ts' | inr e => inr e end.
Proof.
  revert v. induction ts as [|t ts IH]; intros v; [done|]. simpl.
  destruct (transform_step t v); [apply IH|done].
Qed.

(** Decoding undoes encoding: [n] base64 encodings followed by [n]
    decodings give every value back, whatever transforms of other fields stand
    between them. *)
Theorem applyTransforms_roundtrip (n : nat) (v : string) (others : list Transform) :
  applyTransforms v (replicate n (on_value "base64_encode")
    ++ filter (λ t, tr_Field t ≠ "value") others
    ++ replicate n (on_value "base64_decode")) = inl v.
Proof.
  assert (Ho : ∀ v, applyTransforms v (filter (λ t, tr_Field t ≠ "value") others) = inl v).
  { clear. intros v. induction others as [|t l IH]; [done|]. rewrite filter_cons.
    case_decide; [|done]. simpl. unfold transform_step. by rewrite bool_decide_eq_true_2. }
  revert v. induction n as [|n IH]; intros v; [cbn; by rewrite app_nil_r|].
  rewrite (replicate_S_end n (on_value "base64_decode")), (app_assoc (filter _ _)), app_assoc,
    applyTransforms_app.
  cbn [replicate app]. cbn [applyTransforms].
  change (transform_step (on_value "base64_encode") v) with
    (inl (base64.EncodeToString v) : result string). cbv beta iota. rewrite IH.
  unfold transform_step. cbn -[base64.DecodeString]. by rewrite base64.DecodeString_EncodeToString.
Qed.

(** C16: [withRetry] calls its function until it succeeds, at most
    [MaxRetries + 1] times, and sleeps the policy's back-offs between the
    calls and not after the last one; a policy with a negative [MaxRetries]
    fails without one call.  (For a [MaxRetries] below the greatest int; with
    that one the Go counter would wrap around after 2^63 failures.) *)
Theorem withRetry_spec (policy : RetryPolicy) (script : nat → option error) :
  let tries := Z.to_nat (MaxRetries policy + 1) in
  scripted policy script =
  match first_success script 0 tries with
  | Some k => (None, (S k, backoffs policy k (InitialBackoff policy)))
  | None => (Some ("max retries exceeded: "
                   +:+ default "%!w(<nil>)" (last_error script 0 tries None)),
             (tries, backoffs policy (tries - 1) (InitialBackoff policy)))
  end.
Proof.
  intros tries. unfold scripted, withRetry. destruct (decide (0 ≤ MaxRetries policy + 1)%Z).
  - rewrite retry_loop_spec by (unfold tries; lia). fold tries.
    by destruct (first_success script 0 tries).
  - assert (tries = 0) as -> by (unfold tries; lia).
    by replace (Z.to_nat _) with 0 by lia.
Qed.

(** A policy left at zero retries three times, waiting 1, 2 and 4
    seconds, and every other back-off but the first is at most [MaxBackoff]. *)
Theorem backoff_bounds (p : RetryPolicy) (n : nat) :
  backoffs (effectiveRetryPolicy {| MaxRetries := 0; InitialBackoff := 0; MaxBackoff := MaxBackoff p;
                                    Multiplier := Multiplier p |}) 3 1000
    = [10 ^ 9; 2 * 10 ^ 9; 4 * 10 ^ 9]%Z ∧
  (Nat.iter (S n) (next_backoff p) (InitialBackoff p) ≤ MaxBackoff p)%Z.
Proof.
  split; [vm_compute; reflexivity|]. simpl. unfold next_backoff at 1.
  destruct (Z.ltb_spec (MaxBackoff p)
    (int_of_float (SFmul 53 1024 (float_of_int (Nat.iter n (next_backoff p) (InitialBackoff p)))
       (Multiplier p)))); lia.
Qed.
