(* ===== verification/VaultParser.v ===== *)
(** * What vaults answer ([vault/parser.go])

    A decoded JSON text is a [json].  [JsonText] is [encoding/json] and the number format of [strconv],
    of the standard library. *)

From S2P Require Import Prelude GoLang Config.

(** ** JSON values *)

(** [interface{}] as [json.Unmarshal] fills it. *)
#[local] Unset Elimination Schemes.
Inductive json :=
| JNull
| JBool (b : bool)
| JNum (f : spec_float)
| JStr (s : string)
| JArr (l : list json)
| JObj (m : gmap string json).
#[local] Set Elimination Schemes.

Class JsonText := {
  Unmarshal : string → result json;
  Marshal : json → result string;
  FormatFloat : spec_float → string }.    (* strconv, verb 'g', shortest *)

Definition go_type (j : json) : string :=
  match j with
  | JNull => "<nil>" | JBool _ => "bool" | JNum _ => "float64" | JStr _ => "string"
  | JArr _ => "[]interface {}" | JObj _ => "map[string]interface {}"
  end.

(** [strings.Split(s, c)] for a separator of one byte. *)
Fixpoint split_at (c : ascii) (s : string) : list string :=
  match s with
  | EmptyString => [EmptyString]
  | String a s =>
      if bool_decide (a = c) then EmptyString :: split_at c s
      else match split_at c s with
           | part :: rest => String a part :: rest
           | [] => [String a EmptyString]
           end
  end.

(** ** The parser *)

Record JsonPathParser := {
  jp_ListPath : string; jp_NameField : string; jp_ValuePath : string; jp_ValueField : string }.

(** A null value of the path gives a null: [%T] of nil is "<nil>". *)
Fixpoint navigate (parts : list string) (current : json) : result json :=
  match parts with
  | [] => inl current
  | part :: parts =>
      if bool_decide (part = "") then navigate parts current
      else match current with
           | JObj m =>
               match m !! part with
               | Some val => navigate parts val
               | None => inr ("path not found: " +:+ part)
               end
           | v => inr ("cannot navigate through " +:+ go_type v)
           end
  end.
Definition getValueAtPath (data : json) (path : string) : result json :=
  navigate (split_at "."%char path) data.

Section parser.
Context `{!JsonText}.

(** The verb [%v] on a value that is no string, array or object. *)
Definition format_v (j : json) : string :=
  match j with
  | JNull => "<nil>"
  | JBool b => if b then "true" else "false"
  | JNum f => FormatFloat f
  | JStr s => s
  | JArr _ | JObj _ => ""
  end.

(** What was decoded is always encoded again: the other branch is dead. *)
Definition valueToString (val : json) : string :=
  match val with
  | JArr _ | JObj _ => match Marshal val with inl s => s | inr _ => format_v val end
  | v => format_v v
  end.

(** [json.Unmarshal] into a [map[string]interface{}]: null leaves it nil. *)
Definition unmarshal_object (body : string) : result (gmap string json) :=
  match Unmarshal body with
  | inr err => inr err
  | inl (JObj m) => inl m
  | inl JNull => inl ∅
  | inl v => inr ("json: cannot unmarshal into Go value of type map[string]interface {}: " +:+ go_type v)
  end.

Definition array_of (v : option json) : option (list json) :=
  match v with Some (JArr l) => Some l | _ => None end.

(** The items of a list response: the path, then the usual fields. *)
Definition list_items (p : JsonPathParser) (data : gmap string json) : list json :=
  let items :=
    if bool_decide (jp_ListPath p ≠ "") then
      match getValueAtPath (JObj data) (jp_ListPath p) with
      | inl (JArr l) => l
      | _ => []
      end
    else [] in
  match items with
  | _ :: _ => items
  | [] =>
      match array_of (data !! "data") with
      | Some val => val
      | None =>
          match array_of (data !! "value") with
          | Some val => val
          | None => default [] (array_of (data !! "keys"))
          end
      end
  end.

Definition item_name (p : JsonPathParser) (item : json) : option string :=
  match item with
  | JObj m =>
      let nameField := if bool_decide (jp_NameField p = "") then "name" else jp_NameField p in
      match m !! nameField with Some (JStr name) => Some name | _ => None end
  | JStr str => Some str
  | _ => None
  end.

Definition ParseList (p : JsonPathParser) (body : string) : result (list string) :=
  match unmarshal_object body with
  | inr err => inr ("failed to parse JSON response: " +:+ err)
  | inl data => inl (omap (item_name p) (list_items p data))
  end.

Fixpoint first_member (fields : list string) (data : gmap string json) : option json :=
  match fields with
  | [] => None
  | f :: fields => match data !! f with Some v => Some v | None => first_member fields data end
  end.

Definition ParseGetValue (p : JsonPathParser) (body : string) : result string :=
  match unmarshal_object body with
  | inr err => inr ("failed to parse JSON response: " +:+ err)
  | inl data =>
      let at_path :=
        if bool_decide (jp_ValuePath p ≠ "") then getValueAtPath (JObj data) (jp_ValuePath p)
        else inr "" in
      match at_path with
      | inl val => inl (valueToString val)
      | inr _ =>
          let field := if bool_decide (jp_ValueField p ≠ "") then data !! jp_ValueField p
                       else None in
          match field with
          | Some val => inl (valueToString val)
          | None =>
              match first_member ["value"; "data"; "secret"] data with
              | Some val => inl (valueToString val)
              | None => inr "could not extract value from response"
              end
          end
      end
  end.
End parser.

Definition path_parser (l n v : string) : JsonPathParser :=
  {| jp_ListPath := l; jp_NameField := n; jp_ValuePath := v; jp_ValueField := "" |}.

Definition GetParserForVaultType (vaultType : string) : JsonPathParser :=
  let t := ToLower vaultType in
  if bool_decide (t = "vaultwarden") then path_parser "data" "name" "data"
  else if bool_decide (t = "bitwarden") then path_parser "data" "name" "data"
  else if bool_decide (t = "vault") then path_parser "data.keys" "key" "data.data"
  else if bool_decide (t = "azure") then path_parser "value" "name" "value"
  else if bool_decide (t = "keeper") then path_parser "records" "title" "data"
  else if bool_decide (t = "aws") then path_parser "SecretList" "Name" "SecretString"
  else path_parser "data" "name" "value".

Definition NewParserFromConfig (cfg : option ResponseParserConfig) : JsonPathParser :=
  match cfg with
  | None => GetParserForVaultType "generic"
  | Some cfg => path_parser (rp_ListPath cfg) (rp_NameField cfg) (rp_ValuePath cfg)
  end.
