(* ===== verification/VaultClient.v ===== *)
(** * The HTTP client of a vault ([vault/client.go])

    A client talks to its server by the calls [Do] and [HttpNow] of a [prog];
    its state is its configuration, its parser and the OAuth token it keeps.
    An operation gives its result and the client after it, or [None] when it
    panics.  URLs and headers are strings; whether [http.NewRequest] takes a
    method and a URL is a parameter, as is the order of [range] over a map. *)

From S2P Require Import Prelude GoLang Config Effects Store Policy Security VaultParser.

(** ** Strings *)

Definition prefixb (p s : string) : bool := bool_decide (take_str (String.length p) s = p).
Definition suffixb (p s : string) : bool :=
  (String.length p <=? String.length s) &&
  bool_decide (drop_str (String.length s - String.length p) s = p).
Definition TrimSuffix (s p : string) : string :=
  if suffixb p s then take_str (String.length s - String.length p) s else s.

(** [strings.Contains], and [strings.Replace] of the first occurrence. *)
Fixpoint Contains (s p : string) : bool :=
  prefixb p s || match s with EmptyString => false | String _ s => Contains s p end.
Fixpoint ReplaceFirst (s old new : string) : string :=
  if prefixb old s then new +:+ drop_str (String.length old) s
  else match s with EmptyString => EmptyString | String a s => String a (ReplaceFirst s old new) end.

(** [strings.ReplaceAll] of a text that is not empty; [skip] bytes of an
    occurrence are still to be passed. *)
Fixpoint replace_from (skip : nat) (s old new : string) : string :=
  match s with
  | EmptyString => EmptyString
  | String a s' =>
      match skip with
      | S skip => replace_from skip s' old new
      | O => if prefixb old s then new +:+ replace_from (String.length old - 1) s' old new
             else String a (replace_from 0 s' old new)
      end
  end.
Definition ReplaceAll (s old new : string) : string := replace_from 0 s old new.

(** [net/url]: letters, digits and "-_.~" stay; a path segment also keeps
    "$&+=:@", a query turns spaces into "+". *)
Definition letter_or_digit (n : N) : bool :=
  ((48 <=? n) && (n <=? 57) || (65 <=? n) && (n <=? 90) || (97 <=? n) && (n <=? 122))%N.
Definition one_of (s : string) (c : ascii) : bool :=
  existsb (λ d, bool_decide (d = c)) (String.list_ascii_of_string s).
Definition unreserved (c : ascii) : bool := letter_or_digit (N_of_ascii c) || one_of "-_.~" c.
Definition upperhex (n : N) : ascii :=
  nth (N.to_nat n) (String.list_ascii_of_string "0123456789ABCDEF") "0"%char.
Definition percent (c : ascii) : string :=
  String "%" (String (upperhex (N.shiftr (N_of_ascii c) 4))
    (String (upperhex (N.land (N_of_ascii c) 15)) EmptyString)).
Fixpoint escape_with (f : ascii → string) (s : string) : string :=
  match s with EmptyString => EmptyString | String c s => f c +:+ escape_with f s end.
Definition byte_str (c : ascii) : string := String c EmptyString.
Definition PathEscape : string → string :=
  escape_with (λ c, if unreserved c || one_of "$&+=:@" c then byte_str c else percent c).
Definition QueryEscape : string → string :=
  escape_with (λ c, if unreserved c then byte_str c
                    else if bool_decide (c = " "%char) then "+" else percent c).

(** [textproto.CanonicalMIMEHeaderKey]: a name with a byte that no header has
    stays as it is. *)
Definition token_byte (c : ascii) : bool :=
  letter_or_digit (N_of_ascii c) || one_of "!#$%&'*+-.^_`|~" c.
Fixpoint canonical (upper : bool) (s : string) : string :=
  match s with
  | EmptyString => EmptyString
  | String c s =>
      String ((if upper then upper_byte else lower_byte) c) (canonical (bool_decide (c = "-"%char)) s)
  end.
Definition CanonicalHeaderKey (k : string) : string :=
  if forallb token_byte (String.list_ascii_of_string k) then canonical true k else k.
Definition header_set (k v : string) (h : gmap string string) : gmap string string :=
  <[CanonicalHeaderKey k := v]> h.

(** ** Requests *)

Record http_request := {
  rq_method : string; rq_url : string; rq_header : gmap string string; rq_body : string }.
(** The body as far as it was read, and the error of reading. *)
Record http_response := { rs_status : Z; rs_body : string; rs_error : option error }.

Inductive HttpE : Type → Type :=
| Do (r : http_request) : HttpE (result http_response)
| HttpNow : HttpE Z.

Record client := {
  cl_cfg : VaultConfig; cl_parser : JsonPathParser; oauthToken : string; oauthExpires : Z }.
Definition with_token (token : string) (expires : Z) (c : client) : client :=
  {| cl_cfg := cl_cfg c; cl_parser := cl_parser c; oauthToken := token; oauthExpires := expires |}.

(** ** The configuration of a client *)

Definition operations (cfg : VaultConfig) : gmap string (option OperationConfig) :=
  default ∅ (OperationsOverride cfg).
Definition with_operations (m : gmap string (option OperationConfig)) (v : VaultConfig) : VaultConfig :=
  {| v_ID := v_ID v; v_Name := v_Name v; v_Type := v_Type v; v_Endpoint := v_Endpoint v;
     v_Method := v_Method v; v_Auth := v_Auth v; v_FieldNames := v_FieldNames v;
     v_Headers := v_Headers v; OperationsOverride := Some m;
     v_Timeout := v_Timeout v; SkipSSLVerify := SkipSSLVerify v; ToolConfig := ToolConfig v;
     ResolvedTool := ResolvedTool v; LegacyAuthMethod := LegacyAuthMethod v;
     LegacyAuthHeaders := LegacyAuthHeaders v |}.

Definition operation (method endpoint : string) (codes : list Z) (p : option ResponseParserConfig)
    : OperationConfig :=
  {| op_Method := method; op_Endpoint := endpoint; StatusCodes := codes; ResponseParserOf := p |}.
Definition response (l n v : string) : option ResponseParserConfig :=
  Some {| rp_ListPath := l; rp_NameField := n; rp_ValuePath := v |}.

Definition merge_operation (current defaults : OperationConfig) : OperationConfig :=
  operation (default_str (op_Method current) (op_Method defaults))
    (default_str (op_Endpoint current) (op_Endpoint defaults))
    (match StatusCodes current with [] => StatusCodes defaults | l => l end)
    (match ResponseParserOf current with None => ResponseParserOf defaults | p => p end).
Definition mergeOperationDefaults (name : string) (defaults : OperationConfig) (cfg : VaultConfig)
    : VaultConfig :=
  with_operations (<[name := Some match operations cfg !! name with
                                  | Some (Some current) => merge_operation current defaults
                                  | _ => defaults
                                  end]> (operations cfg)) cfg.

(** The metadata path of a key-value path. *)
Definition metadata_path (base : string) : string :=
  if Contains base "/data/" then ReplaceFirst base "/data/" "/metadata/"
  else if suffixb "/data" base then TrimSuffix base "/data" +:+ "/metadata"
  else base.
Definition hashiCorpListEndpoint (base : string) : string :=
  TrimSuffix (metadata_path base) "/" +:+ "?list=true".
Definition hashiCorpDeleteEndpoint (base : string) : string :=
  TrimSuffix (metadata_path base) "/" +:+ "/{name}".

Definition applyDefaultOperations (cfg : VaultConfig) : VaultConfig :=
  let cfg := with_operations (operations cfg) cfg in
  let t := ToLower (GetVaultType cfg) in
  let base := TrimSuffix (v_Endpoint cfg) "/" in
  if bool_decide (t = "azure") then
    let secretEndpoint := base +:+ "/{name}?api-version=7.4" in
    mergeOperationDefaults "delete" (operation "DELETE" secretEndpoint [200; 204]%Z None)
      (mergeOperationDefaults "set" (operation "PUT" secretEndpoint [200; 201]%Z None)
        (mergeOperationDefaults "get" (operation "GET" secretEndpoint [] (response "" "" "value"))
          (mergeOperationDefaults "list"
             (operation "GET" (base +:+ "?api-version=7.4") [] (response "value" "name" "")) cfg)))
  else if bool_decide (t = "vault") then
    let dataEndpoint := base +:+ "/{name}" in
    mergeOperationDefaults "delete" (operation "DELETE" (hashiCorpDeleteEndpoint base) [200; 204]%Z None)
      (mergeOperationDefaults "set" (operation "POST" dataEndpoint [200; 201; 204]%Z None)
        (mergeOperationDefaults "get" (operation "GET" dataEndpoint [] (response "" "" "data.data"))
          (mergeOperationDefaults "list"
             (operation "GET" (hashiCorpListEndpoint base) [] (response "data.keys" "key" "")) cfg)))
  else if bool_decide (t = "bitwarden") || bool_decide (t = "vaultwarden") then
    mergeOperationDefaults "delete" (operation "DELETE" (base +:+ "/{name}") [200; 204]%Z None)
      (mergeOperationDefaults "set" (operation "POST" base [200; 201]%Z None)
        (mergeOperationDefaults "list" (operation "GET" "" [] (response "data" "name" "")) cfg))
  else if bool_decide (t = "keeper") then
    mergeOperationDefaults "get" (operation "GET" "" [] (response "" "" "data"))
      (mergeOperationDefaults "list" (operation "GET" "" [] (response "records" "title" "")) cfg)
  else cfg.

Definition NewClient (cfg : VaultConfig) : client :=
  let cfg := applyDefaultOperations (PopulateDefaults cfg) in
  {| cl_cfg := cfg;
     cl_parser := match operations cfg !! "list" with
                  | Some (Some o) =>
                      match ResponseParserOf o with
                      | Some p => NewParserFromConfig (Some p)
                      | None => GetParserForVaultType (GetVaultType cfg)
                      end
                  | _ => GetParserForVaultType (GetVaultType cfg)
                  end;
     oauthToken := ""; oauthExpires := 0 |}.

Definition operationConfig (c : client) (op : string) : option OperationConfig :=
  default None (operations (cl_cfg c) !! op).
Definition operationEndpoint (c : client) (op name : string) : string :=
  let base := TrimSuffix (v_Endpoint (cl_cfg c)) "/" in
  let defaultEndpoint :=
    if bool_decide (op = "delete") || bool_decide (op = "get") || bool_decide (op = "set")
    then base +:+ "/" +:+ PathEscape name else base in
  match operationConfig c op with
  | Some o => if bool_decide (op_Endpoint o ≠ "")
              then ReplaceAll (op_Endpoint o) "{name}" (PathEscape name) else defaultEndpoint
  | None => defaultEndpoint
  end.
Definition default_method (c : client) (op : string) : string :=
  if bool_decide (op = "set") then ToUpper (v_Method (cl_cfg c))
  else if bool_decide (op = "delete") then "DELETE" else "GET".
Definition operationMethod (c : client) (op : string) : string :=
  match operationConfig c op with
  | Some o => if bool_decide (op_Method o ≠ "") then ToUpper (op_Method o) else default_method c op
  | None => default_method c op
  end.
Definition default_codes (op : string) : list Z :=
  if bool_decide (op = "set") then [200; 201; 204]%Z
  else if bool_decide (op = "delete") then [200; 204]%Z else [200]%Z.
Definition operationStatusCodes (c : client) (op : string) : list Z :=
  match operationConfig c op with
  | Some o => match StatusCodes o with [] => default_codes op | l => l end
  | None => default_codes op
  end.
Definition operationParser (c : client) (op : string) : JsonPathParser :=
  match option_bind _ _ ResponseParserOf (operationConfig c op) with
  | Some p => NewParserFromConfig (Some p)
  | None => if bool_decide (op = "list") then cl_parser c
            else GetParserForVaultType (GetVaultType (cl_cfg c))
  end.
Definition isSuccessStatus (status : Z) (allowed : list Z) : bool := existsb (Z.eqb status) allowed.

(** ** OAuth and headers *)

Section client.
#[local] Open Scope syncer_scope.
Context `{!JsonText}.
Variable new_request : string → string → option error.
Variable entries : gmap string string → list (string * string).

Definition string_leb (a b : string) : Prop := String.leb a b = true.
#[local] Instance string_leb_dec : RelDecision string_leb.
Proof. unfold string_leb. intros a b. apply _. Defined.

Definition encodeParams (params : gmap string string) : string :=
  String.concat "&" (merge_sort string_leb
    (map (λ p, QueryEscape p.1 +:+ "=" +:+ QueryEscape p.2) (entries params))).

Definition getDefaultTokenEndpoint (c : client) : string :=
  let endpoint := v_Endpoint (cl_cfg c) in
  let t := ToLower (GetVaultType (cl_cfg c)) in
  if bool_decide (t = "vaultwarden") then
    let baseURL := TrimSuffix endpoint "/api/ciphers" in
    (if bool_decide (baseURL = endpoint) then TrimSuffix endpoint "/" else baseURL) +:+
    "/identity/connect/token"
  else if bool_decide (t = "bitwarden") then
    let endpoint := TrimSuffix endpoint "/" in
    if Contains endpoint "api.bitwarden.com" then "https://identity.bitwarden.com/connect/token"
    else TrimSuffix endpoint "/api/ciphers" +:+ "/identity/connect/token"
  else if bool_decide (t = "vault") then
    let baseURL := TrimSuffix endpoint "/v1" in
    (if bool_decide (baseURL = endpoint) then TrimSuffix endpoint "/" else baseURL) +:+
    "/v1/auth/oauth/token"
  else if bool_decide (t = "azure") then
    "https://login.microsoftonline.com/{tenant}/oauth2/v2.0/token"
  else TrimSuffix endpoint "/" +:+ "/oauth/token".

Definition oauth_params (o : OAuthConfig) : gmap string string :=
  let scope := if bool_decide (Scope o = "") then "api" else Scope o in
  default ∅ (ExtraParams o) ∪
  {[ "grant_type" := "client_credentials"; "client_id" := ClientID o;
     "client_secret" := ClientSecret o; "scope" := scope ]}.

(** [time.Duration(expiresIn-300) * time.Second], in nanoseconds. *)
Definition token_lifetime (tokenResp : gmap string json) : Z :=
  let expiresIn := match tokenResp !! "expires_in" with
                   | Some (JNum f) => f
                   | _ => float_of_int 3600
                   end in
  wrap64 (int_of_float (SFsub 53 1024 expiresIn (float_of_int 300)) * 10 ^ 9).

(** The response to a request for a token. *)
Definition read_token (resp : http_response) : result (string * Z) :=
  match rs_error resp with
  | Some err => inr ("failed to read OAuth response: " +:+ err)
  | None =>
      if (negb (rs_status resp =? 200)%Z) then
        inr ("OAuth token request failed with status " +:+ itoa (rs_status resp) +:+ ": " +:+
             rs_body resp)
      else
        match unmarshal_object (rs_body resp) with
        | inr err => inr ("failed to parse OAuth response: " +:+ err)
        | inl tokenResp =>
            match tokenResp !! "access_token" with
            | Some (JStr token) => inl (token, token_lifetime tokenResp)
            | _ => inr "access_token not found in OAuth response"
            end
        end
  end.

Definition exchange_token (o : OAuthConfig) (c : client) : prog HttpE (result string * client) :=
  let tokenURL := if bool_decide (TokenEndpoint o = "") then getDefaultTokenEndpoint c
                  else TokenEndpoint o in
  match new_request "POST" tokenURL with
  | Some err => Ret (inr ("failed to create OAuth token request: " +:+ err), c)
  | None =>
      let* resp := call (Do {|
        rq_method := "POST"; rq_url := tokenURL;
        rq_header := header_set "Content-Type" "application/x-www-form-urlencoded" ∅;
        rq_body := encodeParams (oauth_params o) |}) in
      match resp with
      | inr err =>
          Ret (inr ("failed to exchange OAuth credentials (URL: " +:+ tokenURL +:+ "): " +:+ err), c)
      | inl resp =>
          match read_token resp with
          | inr err => Ret (inr err, c)
          | inl (token, lifetime) =>
              let* now := call HttpNow in
              Ret (inl token, with_token token (now + lifetime) c)
          end
      end
  end.

Definition request_token (c : client) : prog HttpE (result string * client) :=
  match option_bind _ _ OAuth (v_Auth (cl_cfg c)) with
  | None => Ret (inr "OAuth config not found", c)
  | Some o =>
      if bool_decide (ClientID o = "") || bool_decide (ClientSecret o = "")
      then Ret (inr "client_id or client_secret not configured for OAuth 2.0", c)
      else exchange_token o c
  end.
Definition getOAuthToken (c : client) : prog HttpE (result string * client) :=
  if bool_decide (oauthToken c = "") then request_token c
  else
    let* now := call HttpNow in
    if (now <? oauthExpires c)%Z then Ret (inl (oauthToken c), c) else request_token c.

Definition authorization (kind credentials : string) : gmap string string → gmap string string :=
  header_set "Authorization" (kind +:+ " " +:+ credentials).

(** [None] when there is no authentication to look at: the source follows a
    nil pointer. *)
Definition addAuthHeaders (c : client) (h : gmap string string)
    : prog HttpE (option (result (gmap string string) * client)) :=
  match v_Auth (cl_cfg c) with
  | None => Ret None
  | Some a =>
      let authHeaders := default ∅ (auth_Headers a) in
      let m := ToLower (auth_Method a) in
      if bool_decide (m = "oauth2") then
        let* res := getOAuthToken c in
        Ret (Some match res with
                  | (inr err, c) => (inr ("failed to get OAuth token: " +:+ err), c)
                  | (inl token, c) => (inl (authorization "Bearer" token h), c)
                  end)
      else
        Ret (Some (inl
          (if bool_decide (m = "bearer") then
             match authHeaders !! "token" with
             | Some token => authorization "Bearer" token h
             | None => h
             end
           else if bool_decide (m = "basic") then
             match authHeaders !! "username", authHeaders !! "password" with
             | Some username, Some password =>
                 authorization "Basic" (base64.EncodeToString (username +:+ ":" +:+ password)) h
             | _, _ => h
             end
           else if bool_decide (m = "api_key") then
             match authHeaders !! "api_key" with
             | Some key => header_set "X-API-Key" key h
             | None => h
             end
           else if bool_decide (m = "custom") then
             foldl (λ h p, header_set p.1 p.2 h) h (entries authHeaders)
           else h), c))
  end.

Definition addCustomHeaders (c : client) (h : gmap string string) : gmap string string :=
  foldl (λ h p, header_set p.1 p.2 h) h (entries (default ∅ (v_Headers (cl_cfg c)))).

(** ** The operations *)

(** The request that every operation makes in its own words [failed]: the
    response, once there is one. *)
Definition send (failed method url : string) (body : option string) (c : client)
    : prog HttpE (option (result http_response * client)) :=
  match new_request method url with
  | Some err => Ret (Some (inr ("failed to create request: " +:+ err), c))
  | None =>
      let* h := addAuthHeaders c ∅ in
      match h with
      | None => Ret None
      | Some (inr err, c) => Ret (Some (inr ("failed to add auth headers: " +:+ err), c))
      | Some (inl h, c) =>
          let h := addCustomHeaders c h in
          let h := match body with
                   | Some _ => header_set "Content-Type" "application/json" h
                   | None => h
                   end in
          let* resp := call (Do {| rq_method := method; rq_url := url; rq_header := h;
                                   rq_body := default "" body |}) in
          Ret (Some (match resp with inr err => inr (failed +:+ err) | inl resp => inl resp end, c))
      end
  end.

(** The result of an operation from its response. *)
Definition then_read {A} (p : prog HttpE (option (result http_response * client)))
    (f : http_response → result A) : prog HttpE (option (result A * client)) :=
  let* r := p in
  Ret match r with
      | None => None
      | Some (inr err, c) => Some (inr err, c)
      | Some (inl resp, c) => Some (f resp, c)
      end.

Definition bad_status (resp : http_response) : error :=
  "vault returned status " +:+ itoa (rs_status resp) +:+ ": " +:+ rs_body resp.
(** The body of a response whose status is one of [allowed]. *)
Definition body_of (allowed : list Z) (resp : http_response) : result string :=
  if negb (isSuccessStatus (rs_status resp) allowed) then inr (bad_status resp)
  else match rs_error resp with
       | Some err => inr ("failed to read response: " +:+ err)
       | None => inl (rs_body resp)
       end.
Definition no_body (allowed : list Z) (resp : http_response) : result unit :=
  if negb (isSuccessStatus (rs_status resp) allowed) then inr (bad_status resp) else inl tt.

Definition ListSecrets (c : client) : prog HttpE (option (result (list string) * client)) :=
  then_read (send "failed to list secrets: " (operationMethod c "list") (operationEndpoint c "list" "") None c)
    (λ resp, match body_of (operationStatusCodes c "list") resp with
             | inr err => inr err
             | inl body => match ParseList (operationParser c "list") body with
                           | inr err => inr ("failed to parse list response: " +:+ err)
                           | inl names => inl names
                           end
             end).

Definition getSecretByOperation (name : string) (c : client) : prog HttpE (option (result string * client)) :=
  then_read (send "failed to get secret: " (operationMethod c "get") (operationEndpoint c "get" name) None c)
    (λ resp, match body_of (operationStatusCodes c "get") resp with
             | inr err => inr err
             | inl body => match ParseGetValue (operationParser c "get") body with
                           | inr err => inr ("failed to parse get response: " +:+ err)
                           | inl value => inl value
                           end
             end).

(** The value of the first item of that name; an item without a value field
    gives what [%v] makes of nil. *)
Definition item_value (c : client) (name : string) (item : json) : option string :=
  let nameField := default_str (fn_NameField (v_FieldNames (cl_cfg c))) "name" in
  let valueField := default_str (fn_ValueField (v_FieldNames (cl_cfg c))) "value" in
  match item with
  | JObj m =>
      match m !! nameField with
      | Some (JStr n) => if bool_decide (n = name)
                         then Some (valueToString (default JNull (m !! valueField))) else None
      | _ => None
      end
  | _ => None
  end.
Definition find_secret (c : client) (name : string) (body : string) : result string :=
  match unmarshal_object body with
  | inr err => inr ("failed to parse response: " +:+ err)
  | inl data =>
      match head (omap (item_value c name) (default [] (array_of (data !! "data")))) with
      | Some value => inl value
      | None => inr ("could not extract secret data for: " +:+ name)
      end
  end.

Definition getSecretFromList (name : string) (c : client) : prog HttpE (option (result string * client)) :=
  let* secrets := ListSecrets c in
  match secrets with
  | None => Ret None
  | Some (inr err, c) => Ret (Some (inr err, c))
  | Some (inl secrets, c) =>
      if negb (existsb (λ s, bool_decide (s = name)) secrets)
      then Ret (Some (inr ("secret not found: " +:+ name), c))
      else
        then_read (send "failed to get secret: " "GET" (TrimSuffix (v_Endpoint (cl_cfg c)) "/") None c)
          (λ resp, match body_of [200]%Z resp with
                   | inr err => inr err
                   | inl body => find_secret c name body
                   end)
  end.

Definition GetSecret (name : string) (c : client) : prog HttpE (option (result string * client)) :=
  let t := ToLower (GetVaultType (cl_cfg c)) in
  if bool_decide (t = "vaultwarden") || bool_decide (t = "bitwarden")
  then getSecretFromList name c else getSecretByOperation name c.

(** A value that looks like an array or object is sent as one. *)
Definition value_data (value : string) : json :=
  if prefixb "{" (TrimSpace value) || prefixb "[" (TrimSpace value) then
    match Unmarshal value with inl j => j | inr _ => JStr value end
  else JStr value.
Definition payload (c : client) (name value : string) : gmap string json :=
  let valueField := fn_ValueField (v_FieldNames (cl_cfg c)) in
  let p := <[valueField := value_data value]> {[ fn_NameField (v_FieldNames (cl_cfg c)) := JStr name ]} in
  if bool_decide (ToLower valueField = "login") then <["type" := JNum (float_of_int 1)]> p else p.

Definition SetSecret (name value : string) (c : client) : prog HttpE (option (result unit * client)) :=
  match Marshal (JObj (payload c name value)) with
  | inr err => Ret (Some (inr ("failed to marshal payload: " +:+ err), c))
  | inl body =>
      then_read (send "failed to set secret: " (operationMethod c "set") (operationEndpoint c "set" name)
                   (Some body) c)
        (no_body (operationStatusCodes c "set"))
  end.

Definition DeleteSecret (name : string) (c : client) : prog HttpE (option (result unit * client)) :=
  then_read (send "failed to delete secret: " (operationMethod c "delete")
               (operationEndpoint c "delete" name) None c)
    (no_body (operationStatusCodes c "delete")).

Definition TestConnection (c : client) : prog HttpE (option (result unit * client)) :=
  then_read (send "connection failed: " "GET" (TrimSuffix (v_Endpoint (cl_cfg c)) "/") None c)
    (λ resp, if (rs_status resp =? 200)%Z || (rs_status resp =? 401)%Z then inl tt
             else inr ("vault returned unexpected status " +:+ itoa (rs_status resp))).
#[local] Close Scope syncer_scope.
End client.

(** ** Escaping *)

(** Undoing [percent]. *)
Definition hex_value (c : ascii) : N :=
  let n := N_of_ascii c in if (n <=? 57)%N then n - 48 else n - 55.
Fixpoint unescape (s : string) : string :=
  match s with
  | String "%" (String a (String b s)) => String (ascii_of_N (16 * hex_value a + hex_value b)) (unescape s)
  | String c s => String c (unescape s)
  | EmptyString => EmptyString
  end.

Definition path_byte (c : ascii) : bool := unreserved c || one_of "$&+=:@" c.

Definition all_bytes : list ascii := map ascii_of_nat (seq 0 256).
Lemma all_bytes_elem c : c ∈ all_bytes.
Proof.
  apply list_elem_of_In, in_map_iff. exists (nat_of_ascii c). split; [apply ascii_nat_embedding|].
  apply in_seq. pose proof (nat_ascii_bounded c). lia.
Qed.

Lemma bytes_check (P : ascii → Prop) `{!∀ c, Decision (P c)} :
  forallb (λ c, bool_decide (P c)) all_bytes = true → ∀ c, P c.
Proof.
  intros Hall c. rewrite forallb_forall in Hall. eapply bool_decide_eq_true, Hall.
  apply list_elem_of_In, all_bytes_elem.
Qed.

(** A byte of an escaped segment separates nothing. *)
Definition harmless (c : ascii) : Prop := path_byte c = true ∨ c = "%"%char.
#[local] Instance harmless_dec c : Decision (harmless c).
Proof. unfold harmless. apply _. Defined.
Lemma percent_harmless : ∀ c, Forall harmless (String.list_ascii_of_string (percent c)).
Proof. refine (bytes_check _ _). vm_compute. reflexivity. Qed.

Lemma unescape_byte : ∀ c, path_byte c = true → c ≠ "%"%char.
Proof. refine (bytes_check _ _). vm_compute. reflexivity. Qed.

Lemma unescape_percent c s : unescape (percent c +:+ s) = String c (unescape s).
Proof.
  unfold percent. simpl. f_equal. revert c.
  refine (bytes_check (λ c, ascii_of_N (16 * hex_value (upperhex (N.shiftr (N_of_ascii c) 4)) +
    hex_value (upperhex (N.land (N_of_ascii c) 15))) = c) _). vm_compute. reflexivity.
Qed.

Lemma PathEscape_cons c s :
  PathEscape (String c s) = (if path_byte c then byte_str c else percent c) +:+ PathEscape s.
Proof. done. Qed.

Lemma unescape_PathEscape s : unescape (PathEscape s) = s.
Proof.
  induction s as [|c s IH]; [done|]. rewrite PathEscape_cons. destruct (path_byte c) eqn:Hc.
  - pose proof (unescape_byte c Hc) as Hne. unfold byte_str.
    transitivity (String c (unescape (PathEscape s))); [|by rewrite IH].
    change (byte_str c +:+ PathEscape s) with (String c (PathEscape s)).
    destruct c as [[] [] [] [] [] [] [] []]; done.
  - by rewrite unescape_percent, IH.
Qed.

Lemma PathEscape_harmless s : Forall harmless (String.list_ascii_of_string (PathEscape s)).
Proof.
  induction s as [|c s IH]; [constructor|]. rewrite PathEscape_cons. destruct (path_byte c) eqn:Hc.
  - constructor; [by left|done].
  - pose proof (percent_harmless c) as Hp. unfold percent in *. simpl in *.
    repeat (apply Forall_cons in Hp as [? Hp]; constructor; [done|]). done.
Qed.

(** ** A client and its server *)

Section server.
Context {W : Type}.
Variable serve : http_request → W → result http_response * W.
Variable now : W → Z * W.

Definition http_handle X (e : HttpE X) : W → X * W :=
  match e in HttpE X return W → X * W with
  | Do r => serve r
  | HttpNow => now
  end.

Context `{!JsonText}.
Variable new_request : string → string → option error.
Variable entries : gmap string string → list (string * string).

(** Without authentication every operation that gets to its request panics. *)
Lemma send_panics failed method url body c w :
  v_Auth (cl_cfg c) = None → new_request method url = None →
  run http_handle (send new_request entries failed method url body c) w = (None, w).
Proof. intros Ha Hn. unfold send. rewrite Hn. unfold addAuthHeaders. by rewrite Ha. Qed.

(** A token that is used was either kept and has not expired, or has just come. *)
Lemma getOAuthToken_fresh c w token c' w' :
  run http_handle (getOAuthToken new_request entries c) w = ((inl token, c'), w') →
  (token = oauthToken c ∧ c' = c ∧ ((now w).1 < oauthExpires c)%Z ∧ w' = (now w).2) ∨
  (∃ r w1 resp w2 lifetime, serve r w1 = (inl resp, w2) ∧ read_token resp = inl (token, lifetime) ∧
     rq_method r = "POST" ∧ c' = with_token token ((now w2).1 + lifetime)%Z c ∧ w' = (now w2).2).
Proof.
  assert (∀ w, run http_handle (request_token new_request entries c) w = ((inl token, c'), w') →
    ∃ r w1 resp w2 lifetime, serve r w1 = (inl resp, w2) ∧ read_token resp = inl (token, lifetime) ∧
      rq_method r = "POST" ∧ c' = with_token token ((now w2).1 + lifetime)%Z c ∧ w' = (now w2).2) as Hreq.
  { intros w0. unfold request_token, exchange_token.
    destruct (option_bind _ _ _ _) as [o|]; [|done]. destruct (bool_decide _ || _); [done|].
    destruct (new_request _ _); [done|]. simpl.
    match goal with |- context [serve ?r w0] => destruct (serve r w0) as [[resp|] w2] eqn:Hs end; [|done].
    destruct (read_token resp) as [[tk l]|] eqn:Hr; [|done]. simpl.
    destruct (now w2) as [t w3] eqn:Hn. simpl. intros [= -> <- <-]. do 5 eexists.
    split_and!; [exact Hs|exact Hr|done|by rewrite Hn|by rewrite Hn]. }
  unfold getOAuthToken. case_bool_decide as Ht; [intros; right; by eapply Hreq|]. simpl.
  destruct (now w) as [t w1]. case_match eqn:Hlt; [|intros; right; by eapply Hreq].
  simpl. intros [= <- <- <-]. left. bool_clean. done.
Qed.
End server.

(** ** What is set is read back *)

(** [encoding/json] on the values it writes: those that come from a text, the
    strings that are UTF-8, and objects of such values. *)
Class JsonTextLaws `{JsonText} := {
  json_ok : json → Prop;
  ok_decoded s j : Unmarshal s = inl j → json_ok j;
  ok_string s : ValidString s = true → json_ok (JStr s);
  ok_object m : map_Forall (λ k j, ValidString k = true ∧ json_ok j) m → json_ok (JObj m);
  ok_number n : json_ok (JNum (float_of_int n));
  marshal_reads j : json_ok j → ∃ s, Marshal j = inl s ∧ Unmarshal s = inl j }.

(** A server of documents: what is sent to a URL is what is there. *)
Record documents := { docs : gmap string string; doc_clock : Z }.
Definition with_docs (m : gmap string string) (w : documents) : documents :=
  {| docs := m; doc_clock := doc_clock w |}.
Definition answer (status : Z) (body : string) : result http_response :=
  inl {| rs_status := status; rs_body := body; rs_error := None |}.
Definition doc_serve (r : http_request) (w : documents) : result http_response * documents :=
  if bool_decide (rq_method r = "PUT") || bool_decide (rq_method r = "POST")
  then (answer 200 "", with_docs (<[rq_url r := rq_body r]> (docs w)) w)
  else if bool_decide (rq_method r = "DELETE")
  then (answer 204 "", with_docs (delete (rq_url r) (docs w)) w)
  else match docs w !! rq_url r with
       | Some body => (answer 200 body, w)
       | None => (answer 404 "not found", w)
       end.
Definition doc_now (w : documents) : Z * documents := (doc_clock w, w).
Abbreviation doc_handle := (http_handle doc_serve doc_now).

Section documents.
Context `{!JsonText, !JsonTextLaws}.
Variable entries : gmap string string → list (string * string).
Abbreviation takes_all := (λ _ _ : string, None : option error).

(** What a value is read back as: itself, unless it looks like an array or an
    object and is one, which comes back in the layout of [json.Marshal]. *)
Definition as_read (value : string) : string := valueToString (value_data value).

Lemma as_read_plain value :
  prefixb "{" (TrimSpace value) = false → prefixb "[" (TrimSpace value) = false →
  as_read value = value.
Proof. intros H1 H2. unfold as_read, value_data. by rewrite H1, H2. Qed.

(** The members the parser of a generic vault looks for, one after the other. *)
Definition value_members : list string := ["value"; "data"; "secret"].

(** A generic vault without operations of its own, with an authentication that
    is not OAuth, whose field names are UTF-8 and whose name field is none of
    [value_members]. *)
Record plain_config (cfg : VaultConfig) : Prop := {
  pc_type : ToLower (GetVaultType cfg) = "generic";
  pc_operations : default ∅ (OperationsOverride cfg) = ∅;
  pc_method : ToUpper (v_Method cfg) = "PUT" ∨ ToUpper (v_Method cfg) = "POST";
  pc_auth : ∃ a, v_Auth cfg = Some a ∧ ToLower (auth_Method a) ≠ "oauth2";
  pc_value : ValidString (fn_ValueField (v_FieldNames cfg)) = true;
  pc_name : ValidString (fn_NameField (v_FieldNames cfg)) = true;
  pc_apart : fn_NameField (v_FieldNames cfg) ∉ value_members }.

(** The value is written to a member that is looked for. *)
Definition readable (cfg : VaultConfig) : bool :=
  bool_decide (fn_ValueField (v_FieldNames cfg) ∈ value_members).

Definition doc_url (cfg : VaultConfig) (name : string) : string :=
  TrimSuffix (v_Endpoint cfg) "/" +:+ "/" +:+ PathEscape name.

Lemma doc_url_inj cfg n n' : doc_url cfg n = doc_url cfg n' → n = n'.
Proof.
  intros He. apply append_inj_l in He. apply (append_inj_l "/") in He.
  by rewrite <- (unescape_PathEscape n), He, unescape_PathEscape.
Qed.

Record client_ok (cfg : VaultConfig) (c : client) : Prop := {
  co_type : ToLower (GetVaultType (cl_cfg c)) = "generic";
  co_operation op : operationConfig c op = None;
  co_method : ToUpper (v_Method (cl_cfg c)) = "PUT" ∨ ToUpper (v_Method (cl_cfg c)) = "POST";
  co_auth : ∃ a, v_Auth (cl_cfg c) = Some a ∧ ToLower (auth_Method a) ≠ "oauth2";
  co_fields : v_FieldNames (cl_cfg c) = v_FieldNames cfg;
  co_endpoint : v_Endpoint (cl_cfg c) = v_Endpoint cfg }.

Lemma NewClient_ok cfg : plain_config cfg → client_ok cfg (NewClient cfg).
Proof.
  intros [Ht Ho Hm (a & Ha & Hao) _ _ _].
  assert (ToLower (GetVaultType (PopulateDefaults cfg)) = "generic") as Ht2.
  { unfold GetVaultType in *. simpl. by destruct (bool_decide (v_Type cfg = "")) eqn:He; bool_clean;
      [rewrite He in Ht|case_bool_decide]. }
  assert (applyDefaultOperations (PopulateDefaults cfg) = with_operations ∅ (PopulateDefaults cfg)) as Hc.
  { unfold applyDefaultOperations, operations. simpl. rewrite Ho.
    unfold GetVaultType in *. simpl in *. by rewrite Ht2. }
  unfold NewClient. rewrite Hc. split; simpl; try done.
  rewrite Ha. eexists. split; [done|]. unfold headers_made. by destruct (auth_Headers a).
Qed.

Lemma send_docs cfg failed method url body c w : client_ok cfg c →
  ∃ h, run doc_handle (send takes_all entries failed method url body c) w =
    let '(r, w') := doc_serve {| rq_method := method; rq_url := url; rq_header := h;
                                 rq_body := default "" body |} w in
    (Some (match r with inr err => inr (failed +:+ err) | inl resp => inl resp end, c), w').
Proof.
  intros Hc. destruct (co_auth _ _ Hc) as (a & Ha & Hao). unfold send, addAuthHeaders. rewrite Ha.
  rewrite (bool_decide_false (ToLower (auth_Method a) = "oauth2")) by done. simpl. by eexists.
Qed.

Lemma payload_members cfg c name value k : client_ok cfg c → plain_config cfg →
  k ∈ value_members →
  payload c name value !! k =
    if bool_decide (k = fn_ValueField (v_FieldNames cfg)) then Some (value_data value) else None.
Proof.
  intros Hc Hp Hk. unfold payload. rewrite (co_fields _ _ Hc).
  assert (k ≠ "type") as Ht by (by intros ->; vm_compute in Hk; set_solver).
  assert (k ≠ fn_NameField (v_FieldNames cfg)) as Hn by (intros ->; by apply (pc_apart _ Hp)).
  destruct (bool_decide (ToLower _ = "login")); [rewrite lookup_insert_ne by done|];
    (case_bool_decide as Hv; [subst k; by rewrite lookup_insert_eq|]);
    by rewrite lookup_insert_ne, lookup_singleton_ne by done.
Qed.

Lemma payload_marshals cfg c name value : client_ok cfg c → plain_config cfg →
  ValidString name = true → ValidString value = true →
  ∃ s, Marshal (JObj (payload c name value)) = inl s ∧ Unmarshal s = inl (JObj (payload c name value)).
Proof.
  intros Hc Hp Hn Hv. apply marshal_reads, ok_object. unfold payload. rewrite (co_fields _ _ Hc).
  assert (Hbase : map_Forall (λ k j, ValidString k = true ∧ json_ok j)
    (<[fn_ValueField (v_FieldNames cfg) := value_data value]>
       ({[ fn_NameField (v_FieldNames cfg) := JStr name ]} : gmap string json))).
  { apply map_Forall_insert_2.
    - split; [apply Hp|]. unfold value_data. destruct (_ || _); [|by apply ok_string].
      destruct (Unmarshal value) eqn:Hu; [by eapply ok_decoded|by apply ok_string].
    - apply map_Forall_singleton. split; [apply Hp|by apply ok_string]. }
  destruct (bool_decide _); [|done]. apply map_Forall_insert_2; [|done].
  split; [reflexivity|apply ok_number].
Qed.

(** *** The documents hold a map of values *)

Definition reads_value (cfg : VaultConfig) (body value : string) : Prop :=
  ∃ m, Unmarshal body = inl (JObj m) ∧ ∀ k, k ∈ value_members →
    m !! k = if bool_decide (k = fn_ValueField (v_FieldNames cfg)) then Some (value_data value)
             else None.
(** What reading the document of a value gives. *)
Definition read_back (cfg : VaultConfig) (value : string) : result string :=
  if readable cfg then inl (as_read value)
  else inr "failed to parse get response: could not extract value from response".
Definition stores (cfg : VaultConfig) (m : gmap string string) (w : documents) : Prop :=
  ∀ n, option_Forall2 (reads_value cfg) (docs w !! doc_url cfg n) (m !! n).

Lemma endpoint_docs cfg c op name : client_ok cfg c → op ∈ ["get"; "set"; "delete"] →
  operationEndpoint c op name = doc_url cfg name.
Proof.
  intros Hc Hop. unfold operationEndpoint. rewrite (co_operation _ _ Hc), (co_endpoint _ _ Hc).
  rewrite !elem_of_cons in Hop. by destruct Hop as [->|[->|[->|Hop%not_elem_of_nil]]].
Qed.

Lemma SetSecret_docs cfg c name value m w : client_ok cfg c → plain_config cfg →
  ValidString name = true → ValidString value = true → stores cfg m w →
  ∃ w', run doc_handle (SetSecret takes_all entries name value c) w = (Some (inl tt, c), w') ∧
    stores cfg (<[name := value]> m) w'.
Proof.
  intros Hc Hp Hn Hv Hs. unfold SetSecret.
  destruct (payload_marshals cfg c name value Hc Hp Hn Hv) as (body & -> & Hu).
  unfold then_read. rewrite run_bind. edestruct (send_docs cfg) as [h ->]; [done|].
  unfold operationMethod, default_method, operationStatusCodes. rewrite !(co_operation _ _ Hc).
  change (bool_decide ("set" = "set")) with true. cbv iota.
  unfold doc_serve. cbn [rq_method].
  assert (bool_decide (ToUpper (v_Method (cl_cfg c)) = "PUT") ||
          bool_decide (ToUpper (v_Method (cl_cfg c)) = "POST") = true) as ->
    by (by destruct (co_method _ _ Hc) as [-> | ->]).
  simpl. eexists. split; [done|].
  intros n. simpl. rewrite (endpoint_docs cfg) by (done || set_solver).
  destruct (decide (n = name)) as [->|Hne].
  - rewrite !lookup_insert_eq. constructor. eexists. split; [done|]. intros k Hk.
    by apply payload_members.
  - rewrite !lookup_insert_ne; [apply Hs|done|]. intros He%doc_url_inj. congruence.
Qed.

Lemma DeleteSecret_docs cfg c name m w : client_ok cfg c → stores cfg m w →
  ∃ w', run doc_handle (DeleteSecret takes_all entries name c) w = (Some (inl tt, c), w') ∧
    stores cfg (delete name m) w'.
Proof.
  intros Hc Hs. unfold DeleteSecret.
  unfold then_read. rewrite run_bind. edestruct (send_docs cfg) as [h ->]; [done|].
  unfold operationMethod, default_method, operationStatusCodes. rewrite !(co_operation _ _ Hc).
  simpl. unfold doc_serve. simpl. eexists. split; [done|].
  intros n. simpl. rewrite (endpoint_docs cfg) by (done || set_solver).
  destruct (decide (n = name)) as [->|Hne].
  - rewrite !lookup_delete_eq. constructor.
  - rewrite !lookup_delete_ne; [apply Hs|done|]. intros He%doc_url_inj. congruence.
Qed.

Lemma GetSecret_docs cfg c name m w : client_ok cfg c → stores cfg m w →
  run doc_handle (GetSecret takes_all entries name c) w =
    (Some (match m !! name with
           | Some value => read_back cfg value
           | None => inr "vault returned status 404: not found"
           end, c), w).
Proof.
  intros Hc Hs. unfold GetSecret. rewrite (co_type _ _ Hc). simpl. unfold getSecretByOperation, then_read.
  rewrite run_bind. edestruct (send_docs cfg) as [h ->]; [done|].
  unfold operationMethod, default_method, operationStatusCodes, operationParser, doc_serve.
  rewrite !(co_operation _ _ Hc). simpl. rewrite (endpoint_docs cfg) by (done || set_solver).
  unfold GetParserForVaultType. rewrite (co_type _ _ Hc). simpl.
  destruct (Hs name) as [body value (p & Hu & Hv)|]; simpl; [|done].
  unfold body_of. simpl. unfold ParseGetValue, unmarshal_object. rewrite Hu. simpl.
  pose proof (Hv "value" ltac:(by left)) as H1.
  pose proof (Hv "data" ltac:(by right; left)) as H2.
  pose proof (Hv "secret" ltac:(by right; right; left)) as H3.
  unfold getValueAtPath, read_back, readable, value_members. simpl. rewrite H1, H2, H3.
  destruct (decide (fn_ValueField (v_FieldNames cfg) = "value")) as [->|N1]; [done|].
  rewrite (bool_decide_eq_false_2 ("value" = _)) by congruence.
  destruct (decide (fn_ValueField (v_FieldNames cfg) = "data")) as [->|N2]; [done|].
  rewrite (bool_decide_eq_false_2 ("data" = _)) by congruence.
  destruct (decide (fn_ValueField (v_FieldNames cfg) = "secret")) as [->|N3]; [done|].
  rewrite (bool_decide_eq_false_2 ("secret" = _)) by congruence.
  rewrite bool_decide_eq_false_2; [done|]. rewrite !elem_of_cons. by intros [?|[?|[?|?%not_elem_of_nil]]].
Qed.

(** Writes and deletions, one after the other, with what they return. *)
Fixpoint apply_changes (c : client) (l : list (string * option string)) (w : documents)
    : list (option (result unit * client)) * documents :=
  match l with
  | [] => ([], w)
  | (name, value) :: l =>
      let '(r, w) := run doc_handle match value with
                                    | Some v => SetSecret takes_all entries name v c
                                    | None => DeleteSecret takes_all entries name c
                                    end w in
      let '(rs, w) := apply_changes c l w in (r :: rs, w)
  end.
Definition change (m : gmap string string) (p : string * option string) : gmap string string :=
  partial_alter (λ _, p.2) p.1 m.

Lemma apply_changes_stores cfg c l m w : client_ok cfg c → plain_config cfg →
  Forall (λ p, ValidString p.1 = true ∧ from_option (λ v, ValidString v = true) True p.2) l →
  stores cfg m w →
  Forall (λ r, r = Some (inl tt, c)) (apply_changes c l w).1 ∧
  stores cfg (foldl change m l) (apply_changes c l w).2.
Proof.
  intros Hc Hp Hl. revert m w. induction Hl as [|[name value] l [Hn Hv] _ IH]; intros m w Hs; [done|].
  assert (∃ w', run doc_handle match value with
      | Some v => SetSecret takes_all entries name v c
      | None => DeleteSecret takes_all entries name c
      end w = (Some (inl tt, c), w') ∧ stores cfg (change m (name, value)) w') as (w' & Hr & Hs').
  { destruct value as [v|]; [by apply SetSecret_docs|by apply DeleteSecret_docs]. }
  cbn [apply_changes]. rewrite Hr. specialize (IH _ _ Hs').
  destruct (apply_changes c l w') as [rs w2]. destruct IH. split; [by constructor|done].
Qed.

(** C20: Against a server that keeps what is sent to a URL, the client of a
    generic vault (one without operations of its own, with an authentication
    that is not OAuth, the method PUT or POST, field names that are UTF-8, and
    a name field other than "value", "data" and "secret") is a map from names to values: every write
    and deletion succeeds, and reading a name after any of them gives the last
    value written when the value field is "value", "data" or "secret", or the
    server's 404 when there is none, for all names and values that are UTF-8,
    whatever bytes they have (no name reaches another's document).  A value
    that is a JSON array or object comes back in the layout of the encoder.
    With any other value field, writes succeed but no value can be read: the
    field is used for writing only. *)
Theorem client_is_a_map cfg l name :
  plain_config cfg →
  Forall (λ p, ValidString p.1 = true ∧ from_option (λ v, ValidString v = true) True p.2) l →
  let c := NewClient cfg in
  let '(rs, w) := apply_changes c l {| docs := ∅; doc_clock := 0 |} in
  Forall (λ r, r = Some (inl tt, c)) rs ∧
  run doc_handle (GetSecret takes_all entries name c) w =
    (Some (match foldl change ∅ l !! name with
           | Some value =>
               if bool_decide (fn_ValueField (v_FieldNames cfg) ∈ ["value"; "data"; "secret"])
               then inl (as_read value)
               else inr "failed to parse get response: could not extract value from response"
           | None => inr "vault returned status 404: not found"
           end, c), w).
Proof.
  intros Hp Hl c. pose proof (NewClient_ok cfg Hp) as Hc.
  destruct (apply_changes_stores cfg c l ∅ {| docs := ∅; doc_clock := 0 |} Hc Hp Hl) as [Hr Hs].
  { intros n. rewrite !lookup_empty. constructor. }
  destruct (apply_changes c l _) as [rs w]. split; [done|]. by eapply GetSecret_docs.
Qed.

(** A null gives the text of Go's nil: for the path of a get, and for an item
    of a list without the value field. *)
Lemma null_is_a_secret p body m :
  jp_ValuePath p = "value" → Unmarshal body = inl (JObj m) → m !! "value" = Some JNull →
  ParseGetValue p body = inl "<nil>".
Proof.
  intros Hp Hu Hm. unfold ParseGetValue, unmarshal_object. rewrite Hu, Hp. simpl.
  unfold getValueAtPath. simpl. by rewrite Hm.
Qed.
Lemma missing_value_is_a_secret cfg c name :
  client_ok cfg c → v_FieldNames cfg = {| fn_NameField := "name"; fn_ValueField := "value" |} →
  item_value c name (JObj {[ "name" := JStr name ]}) = Some "<nil>".
Proof.
  intros Hc Hf. unfold item_value. rewrite (co_fields _ _ Hc), Hf. simpl.
  rewrite lookup_singleton_eq. by rewrite bool_decide_true.
Qed.
End documents.

(** ** An instance of [JsonText] *)

(** Values are numbered, and texts are the bits of their numbers. *)
Definition float_code (f : spec_float) : (bool + bool) + option (bool * positive * Z) :=
  match f with
  | S754_zero s => inl (inl s)
  | S754_infinity s => inl (inr s)
  | S754_nan => inr None
  | S754_finite s m e => inr (Some (s, m, e))
  end.
Definition float_of_code (c : (bool + bool) + option (bool * positive * Z)) : spec_float :=
  match c with
  | inl (inl s) => S754_zero s
  | inl (inr s) => S754_infinity s
  | inr None => S754_nan
  | inr (Some (s, m, e)) => S754_finite s m e
  end.
Lemma float_of_float_code f : float_of_code (float_code f) = f.
Proof. by destruct f. Qed.

Abbreviation leaf := (bool + ((bool + bool) + option (bool * positive * Z)) + string)%type.
Fixpoint tree_of (j : json) : gen_tree leaf :=
  match j with
  | JNull => GenNode 0 []
  | JBool b => GenLeaf (inl (inl b))
  | JNum f => GenLeaf (inl (inr (float_code f)))
  | JStr s => GenLeaf (inr s)
  | JArr l => GenNode 1 (map tree_of l)
  | JObj m => GenNode 2 (map_fold (λ k j l, GenLeaf (inr k) :: tree_of j :: l) [] m)
  end.
Fixpoint of_tree (t : gen_tree leaf) : json :=
  match t with
  | GenLeaf (inl (inl b)) => JBool b
  | GenLeaf (inl (inr f)) => JNum (float_of_code f)
  | GenLeaf (inr s) => JStr s
  | GenNode 0 _ => JNull
  | GenNode 1 l => JArr (map of_tree l)
  | GenNode _ l =>
      JObj ((fix members l := match l with
                              | GenLeaf (inr k) :: j :: l => <[k := of_tree j]> (members l)
                              | _ => ∅
                              end) l)
  end.

Fixpoint json_size (j : json) : nat :=
  match j with
  | JArr l => S (sum_list_with json_size l)
  | JObj m => S (map_fold (λ _ j n, json_size j + n) 0 m)
  | _ => 1
  end.

(** Induction through arrays and objects. *)
Lemma json_rect_size (P : json → Prop) :
  P JNull → (∀ b, P (JBool b)) → (∀ f, P (JNum f)) → (∀ s, P (JStr s)) →
  (∀ l, Forall P l → P (JArr l)) → (∀ m, map_Forall (λ _, P) m → P (JObj m)) → ∀ j, P j.
Proof.
  intros Hn Hb Hf Hs Hl Hm j. remember (json_size j) as n eqn:Heq. revert j Heq.
  induction (lt_wf n) as [n _ IH]. intros j ->.
  destruct j as [|b|f|s|l|m]; [done|done|done|done| |]; simpl in IH.
  - apply Hl. induction l as [|j l IHl]; constructor.
    + apply (IH (json_size j)); [simpl; lia|done].
    + apply IHl. intros y Hy. apply IH. simpl in *. lia.
  - apply Hm. revert IH. clear. revert m.
    apply (map_fold_weak_ind (λ r m,
      (∀ y, y < S r → ∀ j, y = json_size j → P j) → map_Forall (λ _, P) m)).
    + intros _. apply map_Forall_empty.
    + intros k j m r ? IHm IH. apply map_Forall_insert_2.
      * apply (IH (json_size j)); [lia|done].
      * apply IHm. intros y Hy. apply IH. lia.
Qed.

Lemma of_tree_of j : of_tree (tree_of j) = j.
Proof.
  induction j as [|b|f|s|l Hl|m Hm] using json_rect_size; simpl; [done|done| |done| |].
  - by rewrite float_of_float_code.
  - f_equal. induction Hl as [|j l Hj _ IH]; simpl; [done|]. by rewrite Hj, IH.
  - f_equal. revert Hm. revert m. apply (map_fold_weak_ind (λ l m, map_Forall (λ _ j, of_tree (tree_of j) = j) m →
      (fix members l := match l with
                        | GenLeaf (inr k) :: j :: l => <[k := of_tree j]> (members l)
                        | _ => ∅
                        end) l = m)); [done|].
    intros k j m l Hk IH Hm. apply map_Forall_insert in Hm as [Hj Hm]; [|done]. rewrite Hj, IH; done.
Qed.


Fixpoint bits (p : positive) : string :=
  match p with
  | xH => EmptyString
  | xO p => String "0" (bits p)
  | xI p => String "1" (bits p)
  end.
Fixpoint of_bits (s : string) : option positive :=
  match s with
  | EmptyString => Some xH
  | String c s =>
      match of_bits s with
      | None => None
      | Some p => if bool_decide (c = "0"%char) then Some (xO p)
                  else if bool_decide (c = "1"%char) then Some (xI p) else None
      end
  end.
Lemma of_bits_bits p : of_bits (bits p) = Some p.
Proof. induction p as [p IH|p IH|]; simpl; rewrite ?IH; done. Qed.

#[export] Instance bit_text : JsonText := {|
  Marshal j := inl (bits (encode (tree_of j)));
  Unmarshal s :=
    match of_bits s with
    | None => inr "invalid character"
    | Some p => match decode (A := gen_tree leaf) p with
                | Some t => inl (of_tree t)
                | None => inr "unexpected end of JSON input"
                end
    end;
  FormatFloat _ := "1" |}.
#[export] Instance bit_text_laws : JsonTextLaws.
Proof.
  refine {| json_ok _ := True |}; try done. intros j _. eexists. split; [done|]. simpl.
  by rewrite of_bits_bits, decode_encode, of_tree_of.
Qed.

Definition rest_vault : VaultConfig :=
  {| v_ID := "a"; v_Name := ""; v_Type := ""; v_Endpoint := "https://h/secrets/"; v_Method := "put";
     v_Auth := Some {| auth_Method := "bearer"; auth_Headers := Some {[ "token" := "t" ]}; OAuth := None |};
     v_FieldNames := {| fn_NameField := "name"; fn_ValueField := "value" |}; v_Headers := None;
     OperationsOverride := None; v_Timeout := 30; SkipSSLVerify := false; ToolConfig := "";
     ResolvedTool := None; LegacyAuthMethod := ""; LegacyAuthHeaders := None |}.

Lemma rest_vault_plain : plain_config rest_vault.
Proof.
  split; try reflexivity; [by left|eexists; split; [reflexivity|discriminate]|].
  apply (bool_decide_unpack _). vm_compute. exact I.
Qed.

#[local] Definition some_changes : list (string * option string) :=
  [("db", Some "one"); ("../db", Some "two"); ("db", Some "three"); ("x?y", Some "four"); ("x?y", None)].

(** A name with a slash is a document of its own. *)
Lemma client_is_a_map_witness :
  let c := NewClient rest_vault in
  let w := (apply_changes map_to_list c some_changes {| docs := ∅; doc_clock := 0 |}).2 in
  let get n := fst <$> (run (http_handle doc_serve doc_now) (GetSecret (λ _ _, None) map_to_list n c) w).1 in
  get "db" = Some (inl "three") ∧ get "../db" = Some (inl "two") ∧
  get "x?y" = Some (inr "vault returned status 404: not found").
Proof.
  assert (Forall (λ p, ValidString p.1 = true ∧ from_option (λ v, ValidString v = true) True p.2)
            some_changes) as Hok by (repeat constructor).
  pose proof (λ n, client_is_a_map map_to_list rest_vault some_changes n rest_vault_plain Hok) as Hall.
  cbv zeta in *. destruct (apply_changes _ _ some_changes _) as [rs w]. cbv iota beta in Hall. simpl snd.
  split_and!.
  - destruct (Hall "db") as [_ ->]. reflexivity.
  - destruct (Hall "../db") as [_ ->]. reflexivity.
  - destruct (Hall "x?y") as [_ ->]. reflexivity.
Defined.
