(* ===== verification/Sha256.v ===== *)
(** * [crypto/sha256], for [hashString]

    SHA-256 on byte strings with 32-bit words as [N], and [hashString] of
    [sync/engine.go], its lower-case hexadecimal form. *)

From S2P Require Import Prelude GoLang.

Module sha256.
#[local] Open Scope N_scope.

Definition w32 (x : N) : N := N.land x (N.ones 32).
Definition add32 (a b : N) : N := w32 (a + b).
Definition rotr (n x : N) : N := N.lor (N.shiftr x n) (w32 (N.shiftl x (32 - n))).
Definition not32 (x : N) : N := N.lxor x (N.ones 32).

Definition Ch x y z := N.lxor (N.land x y) (N.land (not32 x) z).
Definition Maj x y z := N.lxor (N.lxor (N.land x y) (N.land x z)) (N.land y z).
Definition Sigma0 x := N.lxor (N.lxor (rotr 2 x) (rotr 13 x)) (rotr 22 x).
Definition Sigma1 x := N.lxor (N.lxor (rotr 6 x) (rotr 11 x)) (rotr 25 x).
Definition sigma0 x := N.lxor (N.lxor (rotr 7 x) (rotr 18 x)) (N.shiftr x 3).
Definition sigma1 x := N.lxor (N.lxor (rotr 17 x) (rotr 19 x)) (N.shiftr x 10).

(** The constants are the first 32 bits of the fractional parts of the cube
    roots of the first 64 primes, and of the square roots of the first 8. *)
Definition is_prime (n : nat) : bool :=
  forallb (λ d, negb (n mod d =? 0)%nat) (seq 2 (n - 2)).
Definition primes : list N := map N.of_nat (List.filter is_prime (seq 2 310)).

(** The greatest [r] below [2 ^ bits] with [r ^ k <= n]. *)
Fixpoint root (k n : N) (bits : nat) (r : N) : N :=
  match bits with
  | O => r
  | S bits =>
      let r' := r + 2 ^ N.of_nat bits in
      root k n bits (if r' ^ k <=? n then r' else r)
  end.
Definition root_bits (k p : N) : N := w32 (root k (N.shiftl p (32 * k)) 40 0).

Definition K : list N := Eval vm_compute in map (root_bits 3) primes.
Definition H0 : list N := Eval vm_compute in map (root_bits 2) (take 8 primes).

(** The message schedule, latest word first: [n] more words. *)
Fixpoint schedule (n : nat) (w : list N) : list N :=
  match n with
  | O => w
  | S n =>
      let at_ i := nth i w 0 in
      schedule n (add32 (add32 (sigma1 (at_ 1%nat)) (at_ 6%nat))
                        (add32 (sigma0 (at_ 14%nat)) (at_ 15%nat)) :: w)
  end.

Definition round (st : list N) (kw : N * N) : list N :=
  match st with
  | [a; b; c; d; e; f; g; h] =>
      let t1 := add32 (add32 (add32 h (Sigma1 e)) (Ch e f g)) (add32 kw.1 kw.2) in
      let t2 := add32 (Sigma0 a) (Maj a b c) in
      [add32 t1 t2; a; b; c; add32 d t1; e; f; g]
  | _ => st
  end.

Definition block (st : list N) (words : list N) : list N :=
  zip_with add32 st (foldl round st (zip K (reverse (schedule 48 (reverse words))))).

(** Big-endian numbers of [n] bytes. *)
Fixpoint bytes_be (n : nat) (x : N) : list N :=
  match n with O => [] | S n => bytes_be n (x / 256) ++ [x mod 256] end.
Fixpoint words_of (l : list N) : list N :=
  match l with
  | a :: b :: c :: d :: l => (((a * 256 + b) * 256 + c) * 256 + d) :: words_of l
  | _ => []
  end.

Definition pad (l : list N) : list N :=
  let n := length l in
  let zeros := ((119 - n mod 64) mod 64)%nat in
  l ++ [128] ++ replicate zeros 0 ++ bytes_be 8 (8 * N.of_nat n).

Fixpoint blocks (n : nat) (st words : list N) : list N :=
  match n with
  | O => st
  | S n => blocks n (block st (take 16 words)) (drop 16 words)
  end.

Definition sum (s : string) : list N :=
  let m := words_of (pad (map N_of_ascii (String.list_ascii_of_string s))) in
  foldr (λ w l, bytes_be 4 w ++ l) [] (blocks (length m / 16)%nat H0 m).

Definition hex_digit (n : N) : ascii :=
  ascii_of_N (if n <? 10 then 48 + n else 87 + n).
Definition hex (l : list N) : string :=
  foldr (λ b s, String (hex_digit (b / 16)) (String (hex_digit (b mod 16)) s)) EmptyString l.
End sha256.

Definition hashString (s : string) : string := sha256.hex (sha256.sum s).

(** Two published test values. *)
Example hash_empty :
  hashString "" = "e3b0c44298fc1c149afbf4c8996fb92427ae41e4649b934ca495991b7852b855".
Proof. vm_compute. reflexivity. Qed.

Example hash_two_blocks :
  hashString "abcdbcdecdefdefgefghfghighijhijkijkljklmklmnlmnomnopnopq"
    = "248d6a61d20638b8e5c026930c3e6039a33ce45964ff2167f6ecedd419db06c1".
Proof. vm_compute. reflexivity. Qed.

#[global] Arguments hashString : simpl never.
