(* ===== verification/Engine.v ===== *)
(** * The sync engine ([sync/engine.go])

    Every function that talks to a vault or to the store is a [prog] over
    [EngineE]; the concurrent part of a run is a [Pool] of such programs, one
    goroutine per secret and target behind the semaphore.  A vault backend is
    named by its vault ID; what the engine relies on of backends is the class
    [VaultLaws].  The log lines are left out. *)

From S2P Require Import Prelude GoLang Config Effects Pool Store Policy Sha256.

(** ** Backends *)

(** [vault.Backend]: the three operations the engine calls, on the state [V]
    of all vaults. *)
Class VaultOps (V : Type) := {
  list_secrets : string → V → result (list string) * V;
  get_secret : string → string → V → result string * V;
  set_secret : string → string → string → V → option error * V }.

(** What the engine relies on.  [view b v] is the contents of vault [b]:
    reading changes no contents; a listing that succeeds has the names that are
    there; a value read is the one there; a write
    touches its secret only and, when it reports no error, is in effect; a
    write that reports one may or may not have taken effect. *)
Class VaultLaws (V : Type) `{!VaultOps V} := {
  view : string → V → gmap string string;
  list_keeps b v b' : view b' (list_secrets b v).2 = view b' v;
  list_lists b v l v' n :
    list_secrets b v = (inl l, v') → n ∈ l ↔ is_Some (view b v !! n);
  get_keeps b n v b' : view b' (get_secret b n v).2 = view b' v;
  get_reads b n v x v' : get_secret b n v = (inl x, v') → view b v !! n = Some x;
  set_keeps b n x v b' n' :
    (b', n') ≠ (b, n) → view b' (set_secret b n x v).2 !! n' = view b' v !! n';
  set_writes b n x v v' : set_secret b n x v = (None, v') → view b v' !! n = Some x;
  set_fails b n x v :
    view b (set_secret b n x v).2 !! n = view b v !! n ∨
    view b (set_secret b n x v).2 !! n = Some x }.

(** ** Calls *)

Inductive EngineE : Type → Type :=
| ListSecrets (b : string) : EngineE (result (list string))
| GetSecret (b n : string) : EngineE (result string)
| SetSecret (b n x : string) : EngineE (option error)
| TimeSleep (ns : Z) : EngineE unit
| Stored {X} (e : StoreE X) : EngineE X.

Record world (V : Type) := { vaults : V; db : store; slept : list Z }.
Arguments vaults {V}. Arguments db {V}. Arguments slept {V}.

Section handler.
Context {order : RowOrder} {V : Type} `{!VaultOps V}.
Variable driver_error : DBType → string → option error.
Variable fault : nat → option error.
Variables clock db_clock : nat → Z.

Definition on_vaults {A} (f : V → A * V) (w : world V) : A * world V :=
  let '(a, v) := f (vaults w) in (a, {| vaults := v; db := db w; slept := slept w |}).

Definition engine_handle X (e : EngineE X) : world V → X * world V :=
  match e in EngineE X return world V → X * world V with
  | ListSecrets b => on_vaults (list_secrets b)
  | GetSecret b n => on_vaults (get_secret b n)
  | SetSecret b n x => on_vaults (set_secret b n x)
  | TimeSleep ns => λ w,
      (tt, {| vaults := vaults w; db := db w; slept := slept w ++ [ns] |})
  | Stored e => λ w,
      let '(x, d) := store_handle driver_error fault clock db_clock _ e (db w) in
      (x, {| vaults := vaults w; db := d; slept := slept w |})
  end.
End handler.

(** The store's operations, called from the engine. *)
Fixpoint stored {A} (p : prog StoreE A) : prog EngineE A :=
  match p with
  | Ret a => Ret a
  | Call e k => Call (Stored e) (λ x, stored (k x))
  end.

(** ** The engine *)

(** The vaults of [cfg] whose factory succeeded; one whose connection test
    fails is kept. *)
Definition newEngineWithBackendFactory (factory : VaultConfig → option error) (cfg : Config)
    : gset string :=
  foldl (λ backends v,
    match factory v with Some _ => backends | None => {[v_ID v]} ∪ backends end) ∅ (Vaults cfg).

Section engine.
(** [e.backends]: the IDs of the vaults with a backend. *)
Variable backends : gset string.
Variable syncCfg : SyncConfig.
#[local] Open Scope syncer_scope.

Definition time_sleep (ns : Z) : prog EngineE unit := call (TimeSleep ns).
Definition now_unix : prog EngineE Z :=
  let* t := call (Stored Now) in Ret (Unix t).

(** A sync object of this sync; what the struct literals leave out is zero. *)
Definition sync_object (targetID secretName sourceSum targetSum : string) (t : Z)
    (status err direction : string) : SyncObject :=
  {| so_ID := 0; SyncID := s_ID syncCfg; SourceVaultID := s_Source syncCfg;
     TargetVaultID := targetID; SecretName := secretName; ExternalID := "";
     SourceChecksum := sourceSum; TargetChecksum := targetSum; LastSyncTime := t;
     LastSyncStatus := status; LastSyncError := err; SyncCount := 0; FailureCount := 0;
     DirectionLast := direction |}.

(** [e.store.UpsertSyncObject(obj)], its error dropped. *)
Definition record_object (targetID secretName sourceSum targetSum status err direction : string)
    : prog EngineE unit :=
  let* t := now_unix in
  let* _ := stored (UpsertSyncObject
              (sync_object targetID secretName sourceSum targetSum t status err direction)) in
  Ret tt.

Definition syncSecretUnidirectional (targetID secretName : string)
    : prog EngineE (option error) :=
  if negb (bool_decide (targetID ∈ backends)) then
    Ret (Some ("target vault backend not found: " +:+ targetID))
  else
    let* secret := call (GetSecret (s_Source syncCfg) secretName) in
    match secret with
    | inr err => Ret (Some ("failed to get secret from source: " +:+ err))
    | inl secretValue =>
        match applyTransforms secretValue (Transforms syncCfg) with
        | inr err => Ret (Some ("failed to apply transforms: " +:+ err))
        | inl value =>
            let retryPolicy := effectiveRetryPolicy (s_RetryPolicy syncCfg) in
            let* err := withRetry time_sleep retryPolicy
                          (call (SetSecret targetID secretName value)) in
            let sourceChecksum := hashString secretValue in
            match err with
            | Some e =>
                let* _ := record_object targetID secretName sourceChecksum "" "failed" e
                            "source_to_target" in
                Ret (Some e)
            | None =>
                let* _ := record_object targetID secretName sourceChecksum sourceChecksum
                            "success" "" "source_to_target" in
                Ret None
            end
        end
    end.

(** Which way a divergence is settled. *)
Definition choose_direction (existingObj : option SyncObject) : string :=
  match existingObj with
  | None => "source_to_target"
  | Some o =>
      if bool_decide (DirectionLast o = "target_to_source") then "source_to_target"
      else "target_to_source"
  end.

Definition syncSecretBidirectional (targetID secretName : string)
    : prog EngineE (option error) :=
  let* sourceSecret := call (GetSecret (s_Source syncCfg) secretName) in
  match sourceSecret with
  | inr err => Ret (Some ("failed to get secret from source: " +:+ err))
  | inl sourceValue =>
      let* targetSecret := call (GetSecret targetID secretName) in
      match targetSecret with
      | inr _ => syncSecretUnidirectional targetID secretName
      | inl targetValue =>
          let sourceChecksum := hashString sourceValue in
          let targetChecksum := hashString targetValue in
          if bool_decide (sourceChecksum = targetChecksum) then
            let* _ := record_object targetID secretName sourceChecksum targetChecksum
                        "in_sync" "" "none" in
            Ret None
          else
            let* existing := stored (GetSyncObject (s_ID syncCfg) (s_Source syncCfg)
                                       targetID secretName) in
            match existing with
            | inr err => Ret (Some ("failed to get sync object: " +:+ err))
            | inl existingObj =>
                let direction := choose_direction existingObj in
                let retryPolicy := effectiveRetryPolicy (s_RetryPolicy syncCfg) in
                if bool_decide (direction = "source_to_target") then
                  let* err := withRetry time_sleep retryPolicy
                                (call (SetSecret targetID secretName sourceValue)) in
                  match err with
                  | Some e =>
                      let* _ := record_object targetID secretName sourceChecksum targetChecksum
                                  "failed" e "source_to_target" in
                      Ret (Some e)
                  | None =>
                      let* _ := record_object targetID secretName sourceChecksum sourceChecksum
                                  "success" "" direction in
                      Ret None
                  end
                else
                  let* err := withRetry time_sleep retryPolicy
                                (call (SetSecret (s_Source syncCfg) secretName targetValue)) in
                  match err with
                  | Some e =>
                      let* _ := record_object targetID secretName sourceChecksum targetChecksum
                                  "failed" e "target_to_source" in
                      Ret (Some e)
                  | None =>
                      let* _ := record_object targetID secretName targetChecksum targetChecksum
                                  "success" "" direction in
                      Ret None
                  end
            end
      end
  end.

(** ** A run *)

(** A goroutine sends whether it got no error. *)
Definition job (p : prog EngineE (option error)) : prog EngineE bool :=
  let* err := p in Ret (bool_decide (err = None)).

Definition uni_jobs (secrets : list string) : list (prog EngineE bool) :=
  secrets ≫= λ secretName,
    map (λ targetID, job (syncSecretUnidirectional targetID secretName)) (Targets syncCfg).

Definition bi_jobs (targetID : string) (secrets : list string) : list (prog EngineE bool) :=
  map (λ secretName, job (syncSecretBidirectional targetID secretName)) secrets.

(** Capacity of the semaphore. *)
Definition workerCount : nat :=
  Z.to_nat (if (ConcurrentWorkers syncCfg <=? 0)%Z then 1 else ConcurrentWorkers syncCfg).

(** How [ExecuteSync] ends before any goroutine starts, the run's start time
    and jobs otherwise; a bidirectional sync without a target indexes out of
    range. *)
Inductive started :=
| Early (err : option error)
| Panic
| Started (startTime : Z) (jobs : list (prog EngineE bool)).

(** [time.Since(startTime).Milliseconds()]. *)
Definition since_ms (startTime : Z) : prog EngineE Z :=
  let* t := call (Stored Now) in Ret (Z.quot (t - startTime) (10 ^ 6)).

Definition ExecuteSync_start : prog EngineE started :=
  let* startTime := call (Stored Now) in
  if negb (bool_decide (s_Source syncCfg ∈ backends)) then
    Ret (Early (Some ("source vault backend not found: " +:+ s_Source syncCfg)))
  else
    let* secrets := call (ListSecrets (s_Source syncCfg)) in
    match secrets with
    | inr err =>
        let msg := "failed to list secrets from source: " +:+ err in
        let* ms := since_ms startTime in
        let* _ := stored (RecordSyncRun (s_ID syncCfg) "failed" 0 0 ms msg) in
        Ret (Early (Some err))
    | inl _ =>
        (* the concurrent functions list the secrets again *)
        if bool_decide (SyncType syncCfg = "unidirectional") then
          let* listed := call (ListSecrets (s_Source syncCfg)) in
          Ret (Started startTime
                 match listed with
                 | inr _ => []
                 | inl names => uni_jobs (filterSecrets names (Filter syncCfg))
                 end)
        else if bool_decide (SyncType syncCfg = "bidirectional") then
          match Targets syncCfg with
          | [] => Ret Panic
          | targetID :: _ =>
              if negb (bool_decide (targetID ∈ backends)) then
                Ret (Early (Some ("target vault backend not found: " +:+ targetID)))
              else
                let* listed := call (ListSecrets (s_Source syncCfg)) in
                Ret (Started startTime
                       match listed with
                       | inr _ => []
                       | inl names => bi_jobs targetID (filterSecrets names (Filter syncCfg))
                       end)
          end
        else Ret (Started startTime [])
    end.

Definition count (b : bool) (rs : list bool) : Z :=
  Z.of_nat (length (List.filter (Bool.eqb b) rs)).

Definition run_status (successCount failureCount : Z) : string :=
  let status := if (0 <? failureCount)%Z then "partial" else "success" in
  if (successCount =? 0)%Z then "failed" else status.

Definition ExecuteSync_end (startTime : Z) (results : list bool) : prog EngineE (option error) :=
  let successCount := count true results in
  let failureCount := count false results in
  let* duration := since_ms startTime in
  let* _ := stored (RecordSyncRun (s_ID syncCfg) (run_status successCount failureCount)
                      successCount failureCount duration "") in
  Ret None.

Section run.
Context {W : Type}.
Variable h : ∀ X, EngineE X → W → X * W.

(** The run in which goroutines are started, and run to their ends in any
    schedule: [results] is what they send, one result a goroutine. *)
Definition finished_run (w : W) (results : list bool) (err : option error) (w' : W) : Prop :=
  ∃ startTime jobs w1 pool w2,
    run h ExecuteSync_start w = (Started startTime jobs, w1) ∧
    rtc (pool_step h workerCount) (spawn jobs, w1) (pool, w2) ∧ finished pool results ∧
    run h (ExecuteSync_end startTime results) w2 = (err, w').

(** A run: it ends at its start, or panics there ([None]), or is finished_run. *)
Inductive ExecuteSync (w : W) : option (option error) → W → Prop :=
| execute_early err w' :
    run h ExecuteSync_start w = (Early err, w') → ExecuteSync w (Some err) w'
| execute_panic w' :
    run h ExecuteSync_start w = (Panic, w') → ExecuteSync w None w'
| execute_run results err w' :
    finished_run w results err w' → ExecuteSync w (Some err) w'.

(** The schedule of one goroutine after the other. *)
Definition ExecuteSync_seq (w : W) : option (option error) * W :=
  match run h ExecuteSync_start w with
  | (Early err, w) => (Some err, w)
  | (Panic, w) => (None, w)
  | (Started startTime jobs, w) =>
      let '(results, w) := run_jobs h jobs w in
      let '(err, w) := run h (ExecuteSync_end startTime results) w in (Some err, w)
  end.
End run.
End engine.

(** ** Vaults in memory *)

(** An implementation of the interface: a map of maps whose writes fail as a
    script says. *)
Record memory := { contents : gmap string (gmap string string); failures : list (option error) }.

Definition memory_view (b : string) (v : memory) : gmap string string :=
  default ∅ (contents v !! b).

#[export] Instance memory_vaults : VaultOps memory := {|
  list_secrets b v :=
    (match contents v !! b with
     | None => inr "connection refused"
     | Some m => inl (map fst (map_to_list m))
     end, v);
  get_secret b n v :=
    (match memory_view b v !! n with Some x => inl x | None => inr "secret not found" end, v);
  set_secret b n x v :=
    match failures v with
    | Some e :: l => (Some e, {| contents := contents v; failures := l |})
    | l => (None, {| contents := <[b := <[n := x]> (memory_view b v)]> (contents v);
                     failures := tail l |})
    end |}.

#[export] Program Instance memory_laws : VaultLaws memory := {| view := memory_view |}.
Next Obligation. done. Qed.
Next Obligation.
  simpl. intros b v l v' n. unfold memory_view.
  destruct (contents v !! b) as [m|]; [|done]. intros [= <- _]. simpl.
  rewrite list_elem_of_fmap. split.
  - intros ([k x]&->&Hx). apply elem_of_map_to_list in Hx. by eexists.
  - intros [x Hx]. exists (n, x). split; [done|]. by apply elem_of_map_to_list.
Qed.
Next Obligation. done. Qed.
Next Obligation. simpl. intros b n v x v'. by destruct (memory_view b v !! n); intros [= -> _]. Qed.
Next Obligation.
  simpl. intros b n x v b' n' Hne. destruct (failures v) as [|[e|] l]; [|done|];
    (unfold memory_view at 1; simpl; destruct (decide (b' = b)) as [->|];
      [rewrite lookup_insert_eq; simpl; rewrite lookup_insert_ne by congruence; done
      |by rewrite lookup_insert_ne]).
Qed.
Next Obligation.
  simpl. intros b n x v v'. destruct (failures v) as [|[e|] l]; intros [= <-];
    unfold memory_view; simpl; rewrite lookup_insert_eq; simpl; by rewrite lookup_insert_eq.
Qed.
Next Obligation.
  simpl. intros b n x v. destruct (failures v) as [|[e|] l]; [right|by left|right];
    unfold memory_view; simpl; rewrite lookup_insert_eq; simpl; by rewrite lookup_insert_eq.
Qed.
