(* ===== verification/EngineFacts.v ===== *)
(** * The sync engine: what its runs guarantee

    Which calls the functions of [Engine] make, the rely-guarantee judgements
    of its goroutines, and the theorems about whole runs, which hold of every
    schedule. *)

From S2P Require Import Prelude GoLang Config Effects Pool Store Policy Sha256 Engine.

(** ** Which calls a program makes *)

Section only.
Context {E : Type → Type} (P : ∀ X, E X → Prop).

Fixpoint only {A} (p : prog E A) : Prop :=
  match p with
  | Ret _ => True
  | Call e k => P _ e ∧ ∀ x, only (k x)
  end.

Lemma only_bind {A B} (p : prog E A) (f : A → prog E B) :
  only p → (∀ a, only (f a)) → only (bind p f).
Proof. induction p as [a|X e k IH]; simpl; [auto|]. intros [? ?]. split; auto. Qed.

Lemma only_withRetry sleep policy fn :
  (∀ d, only (sleep d)) → only fn → only (withRetry sleep policy fn).
Proof.
  intros Hs Hf. unfold withRetry. generalize (Z.to_nat (MaxRetries policy + 1)) as fuel.
  intros fuel. generalize 0%Z, (InitialBackoff policy), (None : option error).
  induction fuel as [|fuel IH]; intros a b l; cbn [retry_loop]; [done|].
  apply only_bind; [done|]. intros [e|]; [|done].
  destruct (a <? MaxRetries policy)%Z; [|done]. by apply only_bind.
Qed.

Lemma rg_only {W A} (h : ∀ X, E X → W → X * W) (G : W → W → Prop) (p : prog E A) w :
  only p → (∀ X (e : E X) w, P X e → G w (h X e w).2) →
  rg h anything G p (λ _ _, True) w.
Proof.
  intros Hp HG. revert w. induction p as [a|X e k IH]; intros w; simpl; [done|].
  destruct Hp as [He Hk]. intros w1 _. specialize (HG X e w1 He).
  destruct (h X e w1) as [x w2]. split; [done|]. by apply IH.
Qed.
End only.

(** ** The vaults a run touches *)

Section views.
Context {order : RowOrder} {V : Type} `{!VaultOps V, !VaultLaws V}.
Variable driver_error : DBType → string → option error.
Variable fault : nat → option error.
Variables clock db_clock : nat → Z.
Abbreviation handle := (engine_handle (V := V) driver_error fault clock db_clock).

Definition wview (b : string) (w : world V) : gmap string string := view b (vaults w).
Definition same_views (w w' : world V) : Prop := ∀ b, wview b w' = wview b w.

#[global] Instance same_views_preorder : PreOrder same_views.
Proof. split; [done|]. intros w1 w2 w3 H1 H2 b. by rewrite H2, H1. Qed.

Lemma handle_list b w : same_views w (handle _ (ListSecrets b) w).2.
Proof.
  intros b'. unfold wview. simpl. unfold on_vaults.
  pose proof (list_keeps b (vaults w) b') as H. by destruct (list_secrets b (vaults w)).
Qed.

Lemma handle_get b n w : same_views w (handle _ (GetSecret b n) w).2.
Proof.
  intros b'. unfold wview. simpl. unfold on_vaults.
  pose proof (get_keeps b n (vaults w) b') as H. by destruct (get_secret b n (vaults w)).
Qed.

Lemma handle_get_reads b n w x w' :
  handle _ (GetSecret b n) w = (inl x, w') → wview b w' !! n = Some x.
Proof.
  intros H. pose proof (handle_get b n w b) as Hv. rewrite H in Hv. simpl in Hv.
  rewrite Hv. revert H. simpl. unfold on_vaults, wview.
  destruct (get_secret b n (vaults w)) as [r v] eqn:Hg. intros [= -> _].
  by apply get_reads in Hg.
Qed.

Lemma handle_sleep ns w : same_views w (handle _ (TimeSleep ns) w).2.
Proof. done. Qed.

Lemma handle_stored X (e : StoreE X) w : same_views w (handle _ (Stored e) w).2.
Proof. intros b. simpl. by destruct (store_handle _ _ _ _ _ e (db w)). Qed.

Lemma handle_set b n x w r w' :
  handle _ (SetSecret b n x) w = (r, w') →
  (∀ b' n', (b', n') ≠ (b, n) → wview b' w' !! n' = wview b' w !! n') ∧
  (wview b w' !! n = wview b w !! n ∨ wview b w' !! n = Some x) ∧
  (r = None → wview b w' !! n = Some x).
Proof.
  simpl. unfold on_vaults, wview.
  pose proof (set_keeps b n x (vaults w)) as Hk. pose proof (set_fails b n x (vaults w)) as Hf.
  pose proof (set_writes b n x (vaults w)) as Hw.
  destruct (set_secret b n x (vaults w)) as [o v]. intros [= <- <-]. simpl in *.
  split_and!; [done..|]. intros ->. by eapply Hw.
Qed.

(** Programs that leave every vault alone, whatever the others do. *)
Lemma rg_quiet {A} (R G : world V → world V → Prop) `{!PreOrder R}
    (p : prog EngineE A) (P : world V → Prop) w :
  only (λ X e, ∀ w, same_views w (handle X e w).2) p →
  (∀ w w', same_views w w' → R w w' ∧ G w w') →
  (∀ w w', P w → R w w' → P w') → P w →
  rg handle R G p (λ _, P) w.
Proof.
  intros Hp HRG HP. revert w. induction p as [a|X e k IH]; intros w Hw.
  - apply rg_ret. intros w1. by apply HP.
  - simpl in *. destruct Hp as [He Hk]. intros w1 Hw1. specialize (He w1).
    destruct (handle X e w1) as [x w2]. simpl in He. destruct (HRG _ _ He) as [HR HG].
    split; [done|]. apply IH; [done|]. eapply HP; [by eapply HP|done].
Qed.

Lemma only_stored {A} (p : prog StoreE A) :
  only (λ X e, ∀ w, same_views w (handle X e w).2) (stored p).
Proof. induction p as [a|X e k IH]; simpl; [done|]. split; [apply handle_stored|done]. Qed.

Lemma only_record_object cfg t n s1 s2 st e d :
  only (λ X e, ∀ w, same_views w (handle X e w).2) (record_object cfg t n s1 s2 st e d).
Proof.
  unfold record_object. apply only_bind.
  - split; [apply handle_stored|done].
  - intros z. apply only_bind; [apply only_stored|done].
Qed.
End views.
#[export] Hint Resolve only_record_object only_stored handle_list handle_get handle_sleep
  handle_stored : syncer.

(** ** Unidirectional runs *)

Section unidirectional.
Context {order : RowOrder} {V : Type} `{!VaultOps V, !VaultLaws V}.
Variable driver_error : DBType → string → option error.
Variable fault : nat → option error.
Variables clock db_clock : nat → Z.
Abbreviation handle := (engine_handle (V := V) driver_error fault clock db_clock).
Variable backends : gset string.
Variable syncCfg : SyncConfig.
Variable names : list string.
Abbreviation source := (s_Source syncCfg).
Hypothesis source_not_target : source ∉ Targets syncCfg.

(** The value the source's secret [n] has after the transforms. *)
Definition wanted (w : world V) (n v : string) : Prop :=
  ∃ s, wview source w !! n = Some s ∧ applyTransforms s (Transforms syncCfg) = inl v.

(** What any goroutines of the run may do to the vaults. *)
Definition uni_step (w w' : world V) : Prop :=
  wview source w' = wview source w ∧
  ∀ b n, wview b w' !! n = wview b w !! n ∨
    (b ∈ Targets syncCfg ∧ n ∈ names ∧ ∃ v, wanted w n v ∧ wview b w' !! n = Some v).

#[local] Instance uni_step_preorder : PreOrder uni_step.
Proof.
  split; [split; [done|by left]|].
  intros w1 w2 w3 [Hs1 H1] [Hs2 H2]. split; [congruence|]. intros b n.
  destruct (H2 b n) as [Heq|(Hb&Hn&v&(s&Hs&Hv)&Heq)].
  - rewrite Heq. apply H1.
  - right. split_and!; [done..|]. exists v. split; [|done]. exists s. by rewrite <-Hs1.
Qed.

Lemma same_views_uni w w' : same_views w w' → uni_step w w' ∧ uni_step w w'.
Proof. intros H. assert (uni_step w w'); [|done]. split; [apply H|]. left. by rewrite H. Qed.

Lemma wanted_stable n v w w' : wanted w n v → uni_step w w' → wanted w' n v.
Proof. intros (s&Hs&Hv) [Heq _]. exists s. by rewrite Heq. Qed.

Lemma wanted_det w n v v' : wanted w n v → wanted w n v' → v = v'.
Proof. intros (s&?&?) (s'&?&?). congruence. Qed.

(** What a goroutine that reports success leaves. *)
Definition copied (t n : string) (w : world V) : Prop :=
  ∃ v, wanted w n v ∧ wview t w !! n = Some v.

Lemma copied_stable t n w w' : copied t n w → uni_step w w' → copied t n w'.
Proof.
  intros (v&Hv&Ht) H. pose proof (wanted_stable _ _ _ _ Hv H) as Hv'.
  exists v. split; [done|]. destruct H as [_ H].
  destruct (H t n) as [->|(_&_&v'&Hw&->)]; [done|]. by rewrite (wanted_det _ _ _ _ Hw Hv).
Qed.

Lemma syncSecretUnidirectional_rg t n w :
  t ∈ Targets syncCfg → n ∈ names →
  rg handle uni_step uni_step (syncSecretUnidirectional backends syncCfg t n)
    (λ r w, r = None → copied t n w) w.
Proof.
  intros Ht Hn. unfold syncSecretUnidirectional.
  destruct (negb _); [by apply rg_ret|].
  eapply (rg_bind _ _ _ _ _ (λ r w, ∀ x, r = inl x → wview source w !! n = Some x)); [apply _| |].
  { apply rg_call. intros w1 r w2 _ Hg. pose proof (handle_get driver_error fault clock db_clock source n w1) as Hv.
    rewrite Hg in Hv. split; [by apply same_views_uni|].
    intros w3 [Hs _] x ->. rewrite Hs. by eapply handle_get_reads. }
  intros [x|e] w1 Hx; [|by apply rg_ret]. specialize (Hx x eq_refl).
  destruct (applyTransforms x (Transforms syncCfg)) as [v|e] eqn:Hv; [|by apply rg_ret].
  assert (Hw : wanted w1 n v) by (by exists x).
  eapply (rg_bind _ _ _ _ _
    (λ r w, match r with None => copied t n w | Some _ => wanted w n v end)); [apply _| |].
  { apply rg_withRetry; [apply _|..|done].
    - intros ????. by eapply wanted_stable.
    - intros ????. by eapply copied_stable.
    - clear w1 Hx Hw w. intros w Hw. apply rg_call. intros w1 r w2 H1 Hset.
      apply handle_set in Hset as (Hk&Hf&Hok). pose proof (wanted_stable _ _ _ _ Hw H1) as Hw1.
      assert (Hts : t ≠ source) by (by intros ->).
      assert (Hstep : uni_step w1 w2).
      { split.
        - apply map_eq. intros n'. apply Hk. congruence.
        - intros b n'. destruct (decide ((b, n') = (t, n))) as [[= -> ->]|Hne]; [|by left; apply Hk].
          destruct Hf as [Hf|Hf]; [by left|]. right. split_and!; [done..|]. by exists v. }
      split; [done|]. intros w3 H3. destruct r as [e|].
      + eapply wanted_stable; [|done]. by eapply wanted_stable.
      + eapply copied_stable; [|done]. exists v. split; [by eapply wanted_stable|auto].
    - intros d w2 Hw2. apply rg_quiet; [apply _|..|done].
      + split; [apply handle_sleep|done].
      + apply same_views_uni.
      + intros ????. by eapply wanted_stable. }
  intros [e|] w2 Hw2.
  - eapply (rg_bind _ _ _ _ _ (λ _ _, True)); [apply _| |by intros; apply rg_ret].
    apply (rg_quiet driver_error fault clock db_clock _ _ _ (λ _, True));
      [apply only_record_object|apply same_views_uni|done|done].
  - eapply (rg_bind _ _ _ _ _ (λ _, copied t n)); [apply _| |].
    + apply rg_quiet; [apply _|apply only_record_object|apply same_views_uni| |done].
      intros ????. by eapply copied_stable.
    + intros _ w3 Hw3. apply rg_ret. intros w4 H4 _. by eapply copied_stable.
Qed.

Lemma job_rg t n w :
  t ∈ Targets syncCfg → n ∈ names →
  rg handle uni_step uni_step (job (syncSecretUnidirectional backends syncCfg t n))
    (λ b w, b = true → copied t n w) w.
Proof.
  intros Ht Hn. unfold job. eapply rg_bind; [apply _|by apply syncSecretUnidirectional_rg|].
  intros r w' Hr. apply rg_ret. intros w1 H1 Hb. bool_clean.
  eapply copied_stable; [by apply Hr|done].
Qed.
End unidirectional.

(** ** The sync runs a program records *)

Section runs.
Context {order : RowOrder} {V : Type} `{!VaultOps V}.
Variable driver_error : DBType → string → option error.
Variable fault : nat → option error.
Variables clock db_clock : nat → Z.
Abbreviation handle := (engine_handle (V := V) driver_error fault clock db_clock).

Definition same_runs (w w' : world V) : Prop :=
  syncs_run (db w') = syncs_run (db w) ∧ dbType (db w') = dbType (db w).

#[global] Instance same_runs_preorder : PreOrder same_runs.
Proof. split; [done|]. intros ??? [] []. split; congruence. Qed.

Abbreviation quiet := (λ X (e : EngineE X), ∀ w, same_runs w (handle X e w).2).

Lemma quiet_vaults {A} (f : V → A * V) w : same_runs w (on_vaults f w).2.
Proof. unfold on_vaults. by destruct (f (vaults w)). Qed.

Lemma quiet_stored X (e : StoreE X) w :
  match e with ExecInsertRun _ _ => False | _ => True end →
  same_runs w (handle X (Stored e) w).2.
Proof.
  intros He. unfold same_runs. simpl.
  destruct (store_handle driver_error fault clock db_clock X e (db w)) as [x d] eqn:E.
  revert E. destruct e; simpl in *; [by intros [= <- <-]| |by intros [= <- <-]|..|done| | | |];
    unfold query, exec; destruct (refused _ _ (db w) ph); try by intros [= <- <-].
  - case_bool_decide; by intros [= <- <-].
  - destruct (existsb _ _); by intros [= <- <-].
  - destruct (app_settings (db w) !! k); by intros [= <- <-].
  - destruct (app_settings (db w) !! k); by intros [= <- <-].
Qed.

Definition no_run X (e : StoreE X) : Prop :=
  match e with ExecInsertRun _ _ => False | _ => True end.

Lemma quiet_stored_prog {A} (p : prog StoreE A) : only no_run p → only quiet (stored p).
Proof.
  induction p as [a|X e k IH]; simpl; [done|]. intros [He Hk].
  split; [|by auto]. intros w. by apply quiet_stored.
Qed.

Lemma quiet_record_object cfg t n s1 s2 st e d :
  only quiet (record_object cfg t n s1 s2 st e d).
Proof.
  unfold record_object, now_unix.
  apply only_bind; [|intros z; apply only_bind; [|done]].
  - apply only_bind; [|done]. split; [|done]. intros w. by apply quiet_stored.
  - apply quiet_stored_prog. unfold UpsertSyncObject. cbn. split_and!; [done..|].
    intros t'. split; [done|]. intros [k|]; cbn; [|done]. split; [done|].
    intros [k'|]; cbn; [|done]. by destruct (k' =? 0)%Z.
Qed.

Lemma quiet_get b n : only quiet (call (GetSecret b n)).
Proof. split; [intros; apply quiet_vaults|done]. Qed.

Lemma quiet_set_retried policy b n x :
  only quiet (withRetry time_sleep policy (call (SetSecret b n x))).
Proof. apply only_withRetry; [done|]. split; [intros; apply quiet_vaults|done]. Qed.

Lemma quiet_unidirectional backends cfg t n :
  only quiet (syncSecretUnidirectional backends cfg t n).
Proof.
  unfold syncSecretUnidirectional. destruct (negb _); [done|].
  apply only_bind; [apply quiet_get|]. intros [x|]; [|done].
  destruct (applyTransforms _ _); [|done].
  apply only_bind; [apply quiet_set_retried|]. intros [e|];
    (apply only_bind; [apply quiet_record_object|done]).
Qed.


Lemma quiet_job p : only quiet p → only quiet (job p).
Proof. intros. by apply only_bind. Qed.

(** No schedule of quiet goroutines records a run. *)
Lemma pool_same_runs limit (jobs : list (prog EngineE bool)) w pool w' :
  Forall (only quiet) jobs → rtc (pool_step handle limit) (spawn jobs, w) (pool, w') →
  same_runs w w'.
Proof.
  intros Hall Hs.
  destruct (pool_steps_ok handle limit (λ _, anything) (λ _, same_runs) (λ _ _ _, True)
    ltac:(done) _ _ Hs) as [_ Hw].
  { intros i t Hi. simpl in Hi. unfold spawn in Hi. rewrite list_lookup_fmap in Hi.
    destruct (jobs !! i) as [p|] eqn:Hp; simplify_eq/=.
    apply (rg_only quiet); [|by auto]. rewrite Forall_forall in Hall. apply Hall.
    by eapply list_elem_of_lookup_2. }
  simpl in Hw. clear -Hw. induction Hw as [w|w1 w2 w3 [_ H] _ IH]; [reflexivity|].
  by transitivity w2.
Qed.
End runs.

(** ** The start and the end of a run *)

Section whole_run.
Context {order : RowOrder} {V : Type} `{!VaultOps V, !VaultLaws V}.
Variable driver_error : DBType → string → option error.
Variable fault : nat → option error.
Variables clock db_clock : nat → Z.
Abbreviation handle := (engine_handle (V := V) driver_error fault clock db_clock).
Variable backends : gset string.
Variable syncCfg : SyncConfig.
Abbreviation source := (s_Source syncCfg).

Definition unchanged (w w' : world V) : Prop := same_views w w' ∧ same_runs w w'.

#[local] Instance unchanged_preorder : PreOrder unchanged.
Proof.
  split; [done|]. intros w1 w2 w3 [Hv Hr] [Hv' Hr'].
  split; [intros b; by rewrite Hv', Hv|by transitivity w2].
Qed.

Lemma list_unchanged b w : unchanged w (handle _ (ListSecrets b) w).2.
Proof. split; [apply handle_list|apply quiet_vaults]. Qed.

Lemma now_unchanged w : unchanged w (handle _ (Stored Now) w).2.
Proof. split; [apply handle_stored|by apply quiet_stored]. Qed.

(** The answer of the second listing, the one the goroutines are for. *)
Definition second_listing (w : world V) : result (list string) :=
  (list_secrets source (list_secrets source (vaults w)).2).1.
(** The names a run is about: those the filter selects of that answer, and
    none when it is an error. *)
Definition selected_names (w : world V) : list string :=
  match second_listing w with
  | inl l => filterSecrets l (Filter syncCfg)
  | inr _ => []
  end.

Lemma selected_names_spec w l n :
  second_listing w = inl l →
  n ∈ selected_names w ↔ selected (Filter syncCfg) n ∧ is_Some (wview source w !! n).
Proof.
  unfold selected_names, second_listing. intros Hl. rewrite Hl.
  destruct (list_secrets source (list_secrets source (vaults w)).2) as [o v] eqn:H. simpl in Hl.
  subst o. rewrite filterSecrets_filter, list_elem_of_filter, (list_lists _ _ _ _ n H).
  unfold wview. by rewrite list_keeps.
Qed.

Lemma start_started w t jobs w1 :
  run handle (ExecuteSync_start backends syncCfg) w = (Started t jobs, w1) →
  unchanged w w1 ∧
    ((SyncType syncCfg = "unidirectional" ∧
      jobs = uni_jobs backends syncCfg (selected_names w)) ∨
     (SyncType syncCfg = "bidirectional" ∧ ∃ target, head (Targets syncCfg) = Some target ∧
        target ∈ backends ∧ jobs = bi_jobs backends syncCfg target (selected_names w)) ∨
     (SyncType syncCfg ≠ "unidirectional" ∧ SyncType syncCfg ≠ "bidirectional" ∧ jobs = [])).
Proof.
  unfold ExecuteSync_start. rewrite run_bind, run_call.
  destruct (handle _ (Stored Now) w) as [t0 w2] eqn:Hnow.
  assert (H2 : unchanged w w2) by (pose proof (now_unchanged w) as H; by rewrite Hnow in H).
  assert (Hw2 : vaults w2 = vaults w) by (by injection Hnow as _ <-).
  destruct (negb _); [done|]. rewrite run_bind, run_call.
  destruct (handle _ (ListSecrets source) w2) as [r w3] eqn:Hl.
  assert (H3 : unchanged w w3).
  { etrans; [done|]. pose proof (list_unchanged source w2) as H. by rewrite Hl in H. }
  assert (Hw3 : vaults w3 = (list_secrets source (vaults w)).2).
  { rewrite <-Hw2. revert Hl. simpl. unfold on_vaults.
    destruct (list_secrets source (vaults w2)). by intros [= _ <-]. }
  destruct r as [l|e].
  2:{ rewrite run_bind. destruct (run handle (since_ms t0) w3). rewrite run_bind.
      by destruct (run handle (stored _) w0). }
  assert (Hstart : ∀ r w4, handle _ (ListSecrets source) w3 = (r, w4) → unchanged w w4 ∧
    second_listing w = r).
  { intros r w4 Hr. split.
    - etrans; [done|]. pose proof (list_unchanged source w3) as H. by rewrite Hr in H.
    - unfold second_listing. rewrite <-Hw3. revert Hr. simpl. unfold on_vaults.
      destruct (list_secrets source (vaults w3)). by intros [= -> _]. }
  case_bool_decide as Hu.
  { rewrite run_bind, run_call. destruct (handle _ (ListSecrets source) w3) as [r w4].
    intros [= <- <- <-]. destruct (Hstart _ _ eq_refl) as [H4 Hn]. split; [done|].
    left. split; [done|]. unfold selected_names. rewrite Hn. by destruct r. }
  case_bool_decide as Hb.
  2:{ intros [= <- <- <-]. split; [done|]. by right; right. }
  destruct (Targets syncCfg) as [|target ts]; [done|].
  destruct (bool_decide_reflect (target ∈ backends)); [|done]. cbn [negb].
  rewrite run_bind, run_call. destruct (handle _ (ListSecrets source) w3) as [r w4].
  intros [= <- <- <-]. destruct (Hstart _ _ eq_refl) as [H4 Hn]. split; [done|].
  right; left. split; [done|]. exists target. split_and!; [done..|].
  unfold selected_names. rewrite Hn. by destruct r.
Qed.

Lemma start_early w err w' :
  run handle (ExecuteSync_start backends syncCfg) w = (Early err, w') → err ≠ None.
Proof.
  unfold ExecuteSync_start. rewrite run_bind. destruct (run handle (call _) w) as [t w1].
  destruct (negb _); [by intros [= <- _]|]. rewrite run_bind.
  destruct (run handle (call _) w1) as [[l|e] w2].
  - case_bool_decide; [rewrite run_bind; by destruct (run _ _ w2)|].
    case_bool_decide; [|done]. destruct (Targets syncCfg); [done|].
    destruct (negb _); [by intros [= <- _]|]. rewrite run_bind. by destruct (run _ _ w2).
  - rewrite run_bind. destruct (run _ _ w2) as [ms w3]. rewrite run_bind.
    destruct (run _ _ w3). by intros [= <- _].
Qed.

Definition recordable (w : world V) : Prop :=
  driver_error (dbType (db w)) "?" = None ∧ ∀ n, fault n = None.

(** The row of a run. *)
Definition run_row (i created duration : Z) (results : list bool) : SyncRun :=
  {| r_ID := i; r_SyncID := s_ID syncCfg;
     r_Status := run_status (count true results) (count false results);
     TotalSynced := count true results; TotalFailed := count false results;
     DurationMs := duration; ErrorMessage := ""; CreatedAt := created |}.

(** What a run adds to the runs of the store. *)
Definition run_recorded (results : list bool) (w w' : world V) : Prop :=
  ∃ i created duration, syncs_run (db w') =
    syncs_run (db w) ++ [run_row i created duration results].

Lemma end_records t results w err w' :
  run handle (ExecuteSync_end syncCfg t results) w = (err, w') →
  err = None ∧ same_views w w' ∧
  (run_recorded results w w' ∨ syncs_run (db w') = syncs_run (db w)) ∧
  (recordable w → run_recorded results w w').
Proof.
  intros H. unfold ExecuteSync_end, since_ms in H. cbn in H.
  destruct (exec driver_error fault _ _ _) as [o d] eqn:He. simpl in H.
  injection H as <- <-. unfold run_recorded. unfold exec in He.
  assert (Hc : recordable w → refused driver_error fault (ticked (db w)) "?" = None).
  { intros [Hd Hf]. unfold refused. simpl. by rewrite Hd, Hf. }
  destruct (refused _ _ _ _) as [e|]; injection He as _ <-; simpl.
  - split_and!; [done..|by right|]. by intros [=]%Hc.
  - split_and!; [done..|left|intros _]; by eexists _, _, _.
Qed.

Lemma run_recorded_same results w w1 w2 w' :
  same_runs w w1 → same_runs w1 w2 →
  (run_recorded results w2 w' ∨ syncs_run (db w') = syncs_run (db w2)) ∧
  (recordable w2 → run_recorded results w2 w') →
  (run_recorded results w w' ∨ syncs_run (db w') = syncs_run (db w)) ∧
  (recordable w → run_recorded results w w').
Proof.
  unfold run_recorded, recordable. intros [H1 H1'] [H2 H2'].
  by rewrite <-H1, <-H2, <-H1', <-H2'.
Qed.

Lemma count_total rs : (count true rs + count false rs)%Z = Z.of_nat (length rs).
Proof.
  unfold count. induction rs as [|[] rs IH]; simpl; [done|lia..].
Qed.

Lemma run_bool_decide_status rs :
  run_status (count true rs) (count false rs) =
    if decide (Forall (λ b, b = true) rs ∧ rs ≠ []) then "success"
    else if decide (true ∈ rs) then "partial" else "failed".
Proof.
  assert (Ht : (count true rs = 0)%Z ↔ true ∉ rs).
  { unfold count. induction rs as [|[] rs IH]; simpl; [set_solver|set_solver by lia|].
    rewrite IH. set_solver. }
  assert (Hf : (0 < count false rs)%Z ↔ ¬ Forall (λ b, b = true) rs).
  { unfold count. clear Ht. induction rs as [|[] rs IH]; simpl.
    - split; [lia|]. intros []. constructor.
    - rewrite IH, Forall_cons. naive_solver.
    - split; [|lia]. intros _ H. by inversion H. }
  assert (Hc : (0 ≤ count true rs)%Z ∧ (0 ≤ count false rs)%Z) by (unfold count; lia).
  unfold run_status.
  destruct (Z.eqb_spec (count true rs) 0) as [H0|H0].
  - apply Ht in H0. rewrite decide_False, decide_False; [done..|]. intros [Hall Hne].
    destruct rs as [|b rs]; [done|]. inversion Hall; subst. set_solver.
  - destruct (Z.ltb_spec 0 (count false rs)) as [H1|H1].
    + apply Hf in H1. rewrite decide_False by naive_solver. rewrite decide_True; [done|].
      destruct (decide (true ∈ rs)); [done|]. by apply Ht in n.
    + rewrite decide_True; [done|]. split; [destruct (decide (Forall (λ b, b = true) rs))|by intros ->].
      * done.
      * exfalso. apply Hf in n. lia.
Qed.
End whole_run.

(** ** Bidirectional runs *)

Section bidirectional.
Context {order : RowOrder} {V : Type} `{!VaultOps V, !VaultLaws V}.
Variable driver_error : DBType → string → option error.
Variable fault : nat → option error.
Variables clock db_clock : nat → Z.
Abbreviation handle := (engine_handle (V := V) driver_error fault clock db_clock).
Variable backends : gset string.
Variable syncCfg : SyncConfig.
Variable target : string.
Abbreviation source := (s_Source syncCfg).

(** The goroutine of secret [n] leaves every other secret and every other
    vault alone. *)
Definition only_secret (n : string) (w w' : world V) : Prop :=
  ∀ b n', (n' ≠ n ∨ (b ≠ source ∧ b ≠ target)) → wview b w' !! n' = wview b w !! n'.
(** The others leave secret [n] alone. *)
Definition not_secret (n : string) (w w' : world V) : Prop :=
  ∀ b, wview b w' !! n = wview b w !! n.

#[global] Instance only_secret_preorder n : PreOrder (only_secret n).
Proof. split; [by intros w b n' _|]. intros w1 w2 w3 H1 H2 b n' H. by rewrite H2, H1. Qed.
#[global] Instance not_secret_preorder n : PreOrder (not_secret n).
Proof. split; [by intros w b|]. intros w1 w2 w3 H1 H2 b. by rewrite H2, H1. Qed.


Lemma same_views_secret n w w' : same_views w w' → not_secret n w w' ∧ only_secret n w w'.
Proof. intros H. split; [intros b|intros b n' _]; by rewrite H. Qed.


Definition reads (b n x : string) (w : world V) : Prop := wview b w !! n = Some x.

Lemma reads_stable b n x w w' : reads b n x w → not_secret n w w' → reads b n x w'.
Proof. unfold reads. intros H Hn. by rewrite Hn. Qed.




(** Writing [x] to [b] until it succeeds, for a [b] that is source or target:
    what holds of the other vault at [n] is kept. *)
Lemma rg_set n b b' x (y : string) w policy :
  b = source ∨ b = target → b' ≠ b → reads b' n y w →
  rg handle (not_secret n) (only_secret n)
    (withRetry time_sleep policy (call (SetSecret b n x)))
    (λ r w, r = None → reads b n x w ∧ reads b' n y w) w.
Proof.
  intros Hb Hbb Hy.
  eapply rg_mono; [|done|];
    [apply (rg_withRetry _ _ _ _ _ (reads b' n y) (λ w, reads b n x w ∧ reads b' n y w)); [..|done]|].
  - intros ????. by eapply reads_stable.
  - intros ?? [] ?. split; by eapply reads_stable.
  - clear w Hy. intros w Hy. apply rg_call. intros w1 r w2 H1 Hset.
    apply handle_set in Hset as (Hk&_&Hok). split.
    + intros c n' Hc. apply Hk. destruct Hc as [?|[??]]; [congruence|].
      destruct Hb; congruence.
    + intros w3 H3. assert (reads b' n y w3).
      { unfold reads. rewrite H3, Hk by congruence. by eapply reads_stable. }
      destruct r as [e|]; [done|]. split; [|done]. unfold reads. rewrite H3. auto.
  - intros ns w2 Hw2. apply rg_quiet; [apply _|..|done].
    + split; [apply handle_sleep|done].
    + apply same_views_secret.
    + intros ????. by eapply reads_stable.
  - intros r w2 H ->. exact H.
Qed.

Hypothesis source_not_target : source ≠ target.






End bidirectional.

(** ** Jobs and their places *)

Lemma uni_jobs_length backends cfg names :
  length (uni_jobs backends cfg names) = length names * length (Targets cfg).
Proof.
  unfold uni_jobs. induction names as [|n names IH]; [done|].
  rewrite bind_cons, length_app, length_map, IH. simpl. lia.
Qed.

Lemma uni_jobs_lookup backends cfg names i n j t :
  names !! i = Some n → Targets cfg !! j = Some t →
  uni_jobs backends cfg names !! (i * length (Targets cfg) + j)
    = Some (job (syncSecretUnidirectional backends cfg t n)).
Proof.
  intros Hi Hj. unfold uni_jobs. revert i Hi.
  pose proof (lookup_lt_Some _ _ _ Hj) as Hlt.
  induction names as [|m names IH]; intros [|i] Hi; cbn [lookup list_lookup] in Hi;
    [done..| |]; rewrite bind_cons.
  - injection Hi as ->. change (0 * length (Targets cfg) + j) with j. rewrite lookup_app_l by (by rewrite length_map).
    by rewrite list_lookup_fmap, Hj.
  - rewrite lookup_app_r by (rewrite length_map; simpl; lia). rewrite length_map.
    rewrite <-(IH i Hi). f_equal. simpl. lia.
Qed.

(** The job at [k] is for the name and the target the quotient and the
    remainder of [k] index. *)
Lemma uni_jobs_at backends cfg names k p :
  uni_jobs backends cfg names !! k = Some p →
  ∃ n t, names !! (k / length (Targets cfg)) = Some n ∧
    Targets cfg !! (k mod length (Targets cfg)) = Some t ∧
    p = job (syncSecretUnidirectional backends cfg t n).
Proof.
  intros Hk. pose proof (lookup_lt_Some _ _ _ Hk) as Hlt. rewrite uni_jobs_length in Hlt.
  assert (Hm : length (Targets cfg) ≠ 0) by (intros H0; rewrite H0 in Hlt; lia).
  destruct (lookup_lt_is_Some_2 names (k / length (Targets cfg))) as [n Hn].
  { apply Nat.Div0.div_lt_upper_bound. lia. }
  destruct (lookup_lt_is_Some_2 (Targets cfg) (k mod length (Targets cfg))) as [t Ht].
  { by apply Nat.mod_upper_bound. }
  exists n, t. split_and!; [done..|].
  pose proof (uni_jobs_lookup backends cfg _ _ _ _ _ Hn Ht) as H.
  replace (k / length (Targets cfg) * length (Targets cfg) + k mod length (Targets cfg))
    with k in H by (pose proof (Nat.div_mod_eq k (length (Targets cfg))); lia).
  congruence.
Qed.

Lemma uni_jobs_elem backends cfg names p :
  p ∈ uni_jobs backends cfg names →
  ∃ n t, n ∈ names ∧ t ∈ Targets cfg ∧ p = job (syncSecretUnidirectional backends cfg t n).
Proof.
  unfold uni_jobs. rewrite list_elem_of_bind. intros (n&Hp&Hn).
  apply list_elem_of_fmap in Hp as (t&->&Ht). eauto.
Qed.

Lemma workerCount_pos cfg : 0 < workerCount cfg.
Proof. unfold workerCount. destruct (Z.leb_spec (ConcurrentWorkers cfg) 0); lia. Qed.

(** Running one goroutine after the other is a run. *)
Lemma sequential_run {W} (h : ∀ X, EngineE X → W → X * W) backends cfg w :
  ExecuteSync backends cfg h w (ExecuteSync_seq backends cfg h w).1
    (ExecuteSync_seq backends cfg h w).2.
Proof.
  unfold ExecuteSync_seq.
  destruct (run h (ExecuteSync_start backends cfg) w) as [[err| |t jobs] w1] eqn:Hs.
  - by apply execute_early.
  - by apply execute_panic.
  - destruct (run_jobs h jobs w1) as [rs w2] eqn:Hj.
    destruct (run h (ExecuteSync_end cfg t rs) w2) as [err w3] eqn:He.
    eapply execute_run. exists t, jobs, w1, (map Done rs), w2.
    split_and!; [done| |apply finished_map_Done|done].
    apply run_jobs_schedule; [apply workerCount_pos|done].
Qed.

(** What the other goroutines may do to the secret of the [k]-th. *)
Definition rely_at {V} `{!VaultOps V, !VaultLaws V} (names : list string) (k : nat)
    : world V → world V → Prop :=
  match names !! k with Some n => not_secret n | None => anything end.

#[export] Instance rely_at_preorder {V} `{!VaultOps V, !VaultLaws V} names k :
  PreOrder (rely_at (V := V) names k).
Proof. unfold rely_at. destruct (names !! k); apply _. Qed.

(** ** What a secret's sync records *)

Section records.
Context {order : RowOrder} {V : Type} `{!VaultOps V}.
Variable driver_error : DBType → string → option error.
Variable fault : nat → option error.
Variables clock db_clock : nat → Z.
Abbreviation handle := (engine_handle (V := V) driver_error fault clock db_clock).
Abbreviation run_store := (run (store_handle driver_error fault clock db_clock)).

Lemma run_stored {A} (p : prog StoreE A) (w : world V) :
  run handle (stored p) w =
    let '(a, d) := run_store p (db w) in
    (a, {| vaults := vaults w; db := d; slept := slept w |}).
Proof.
  revert w. induction p as [a|X e k IH]; intros [v d l]; simpl; [done|].
  destruct (store_handle driver_error fault clock db_clock X e d) as [x d']. by rewrite IH.
Qed.

Lemma run_only {A} (P : ∀ X, EngineE X → Prop) (G : world V → world V → Prop) `{!PreOrder G}
    (p : prog EngineE A) w :
  only P p → (∀ X e w, P X e → G w (handle X e w).2) → G w (run handle p w).2.
Proof.
  intros Hp HG. revert w. induction p as [a|X e k IH]; intros w; simpl in *; [done|].
  destruct Hp as [He Hk]. specialize (HG X e w He) as Hstep.
  destruct (handle X e w) as [x w1]. etrans; [exact Hstep|]. by apply IH.
Qed.

Definition same_db (w w' : world V) : Prop := db w' = db w.
#[local] Instance same_db_preorder : PreOrder same_db.
Proof. split; [done|]. intros ??? H1 H2. unfold same_db in *. congruence. Qed.

Lemma db_vaults {A} (f : V → A * V) w : same_db w (on_vaults f w).2.
Proof. unfold on_vaults. by destruct (f (vaults w)). Qed.

Lemma get_same_db b n w r w' : handle _ (GetSecret b n) w = (r, w') → db w' = db w.
Proof. intros H. pose proof (db_vaults (get_secret b n) w) as Hd. simpl in H. by rewrite H in Hd. Qed.

Lemma set_retried_same_db policy b n x w r w' :
  run handle (withRetry time_sleep policy (call (SetSecret b n x))) w = (r, w') → db w' = db w.
Proof.
  intros H. pose proof (run_only (λ X e, ∀ w, same_db w (handle X e w).2) same_db
    (withRetry time_sleep policy (call (SetSecret b n x))) w) as Hd.
  rewrite H in Hd. apply Hd; [|by auto]. apply only_withRetry; [done|].
  split; [intros; apply db_vaults|done].
Qed.

Definition can_record (w : world V) : Prop :=
  driver_error (dbType (db w)) "?" = None ∧ ∀ n, fault n = None.

(** A recorded object is found under its key. *)
Lemma record_object_found cfg t n s1 s2 st e d w u w' :
  run handle (record_object cfg t n s1 s2 st e d) w = (u, w') → can_record w →
  ∃ o, lookup_object (db w') (s_ID cfg, s_Source cfg, t, n) = Some o ∧
    SourceChecksum o = s1 ∧ TargetChecksum o = s2 ∧ LastSyncStatus o = st ∧
    LastSyncError o = e ∧ DirectionLast o = d.
Proof.
  unfold record_object, now_unix. intros H [Hd Hf].
  rewrite run_bind, run_bind, run_call in H.
  change (handle Z (Stored Now) w) with
    (clock (ticks (db w)), {| vaults := vaults w; db := ticked (db w); slept := slept w |}) in H.
  cbn [run] in H. rewrite run_bind, run_stored in H. cbn [db] in H.
  set (o := sync_object _ _ _ _ _ _ _ _ _) in H.
  pose proof (upsert_succeeds driver_error fault clock db_clock o (ticked (db w)) Hd Hf) as Hs.
  destruct (run_store (UpsertSyncObject o) (ticked (db w))) as [r d'] eqn:Hu.
  simpl in Hs. subst r. apply upsert_run in Hu as [_ Hl]. cbn [run] in H. injection H as _ <-.
  unfold updated in Hl. specialize (Hl (key_of o)). rewrite bool_decide_eq_true_2 in Hl by done.
  eexists. split; [exact Hl|]. done.
Qed.

End records.

(** ** Properties *)

Section properties.
Context {order : RowOrder} {V : Type} `{!VaultOps V, !VaultLaws V}.
Variable driver_error : DBType → string → option error.
Variable fault : nat → option error.
Variables clock db_clock : nat → Z.
Abbreviation handle := (engine_handle (V := V) driver_error fault clock db_clock).
Variable backends : gset string.
Variable syncCfg : SyncConfig.






(** What the results of a unidirectional run mean. *)
Definition uni_results (names : list string) (results : list bool) (w w' : world V) : Prop :=
  length results = length names * length (Targets syncCfg) ∧
  (∀ i n j t, names !! i = Some n → Targets syncCfg !! j = Some t →
     results !! (i * length (Targets syncCfg) + j) = Some true → copied syncCfg t n w') ∧
  (run_recorded syncCfg results w w' ∨ syncs_run (db w') = syncs_run (db w)) ∧
  (recordable driver_error fault w → run_recorded syncCfg results w w').

Lemma uni_pool names w1 pool w2 rs :
  s_Source syncCfg ∉ Targets syncCfg →
  rtc (pool_step handle (workerCount syncCfg)) (spawn (uni_jobs backends syncCfg names), w1)
    (pool, w2) →
  finished pool rs →
  uni_step syncCfg names w1 w2 ∧ length rs = length names * length (Targets syncCfg) ∧
  ∀ i n j t, names !! i = Some n → Targets syncCfg !! j = Some t →
    rs !! (i * length (Targets syncCfg) + j) = Some true → copied syncCfg t n w2.
Proof.
  intros Hsrc Hp Hf. pose proof (uni_step_preorder syncCfg names) as Hpre.
  destruct (pool_ok handle (workerCount syncCfg) (λ _, uni_step syncCfg names) (λ _, uni_step syncCfg names)
    (λ k b w, ∀ n t, names !! (k / length (Targets syncCfg)) = Some n →
       Targets syncCfg !! (k mod length (Targets syncCfg)) = Some t →
       b = true → copied syncCfg t n w)
    ltac:(intros ????? H; exact H) (uni_jobs backends syncCfg names) w1 pool w2 rs) as (Hlen&Hres&Hg); [|done..|].
  { intros k p Hk. apply uni_jobs_at in Hk as (n&t'&Hn'&Ht'&->).
    eapply rg_mono; [apply (job_rg _ _ _ _ _ _ names Hsrc t' n)|done|].
    - by eapply list_elem_of_lookup_2.
    - by eapply list_elem_of_lookup_2.
    - simpl. intros b w0 Hb n' t'' ??. by simplify_eq. }
  rewrite uni_jobs_length in Hlen. split_and!; [|done|].
  - clear -Hg Hpre. induction Hg as [|w1 w2 w3 [_ H] _ IH]; [done|by transitivity w2].
  - intros i n j t' Hi Hj Hr. pose proof (lookup_lt_Some _ _ _ Hj) as Hlt.
    apply (Hres _ _ Hr n t'); [| |done].
    + rewrite Nat.div_add_l by lia. by rewrite Nat.div_small, Nat.add_0_r by done.
    + by rewrite Nat.add_comm, Nat.Div0.mod_add, Nat.mod_small by done.
Qed.

Lemma uni_completed rs (w w' : world V) :
  SyncType syncCfg = "unidirectional" → s_Source syncCfg ∉ Targets syncCfg →
  finished_run backends syncCfg handle w rs None w' →
  uni_step syncCfg (selected_names syncCfg w) w w' ∧
  uni_results (selected_names syncCfg w) rs w w'.
Proof.
  intros Huni Hsrc (t&jobs&w1&pool&w2&Hs&Hp&Hf&He).
  destruct (start_started _ _ _ _ _ _ _ _ _ _ Hs) as ([Hv1 Hr1]&Hj).
  destruct Hj as [[_ ->]|[[? _]|[? _]]]; [|congruence|done].
  generalize dependent (selected_names syncCfg w). intros names Hp _.
  destruct (uni_pool _ _ _ _ _ Hsrc Hp Hf) as (Hstep&Hlen&Hres).
  assert (Hquiet : Forall (only (λ X e, ∀ w, same_runs w (handle X e w).2))
    (uni_jobs backends syncCfg names)).
  { apply Forall_forall. intros p Hin. apply uni_jobs_elem in Hin as (n&t'&_&_&->).
    apply quiet_job, quiet_unidirectional. }
  pose proof (pool_same_runs _ _ _ _ _ _ _ _ _ Hquiet Hp) as Hr2.
  apply end_records in He as (_ & Hv3 & Hrow).
  pose proof (uni_step_preorder syncCfg names) as Hpre.
  assert (H1 : uni_step syncCfg names w w1) by by apply same_views_uni.
  assert (H3 : uni_step syncCfg names w2 w') by by apply same_views_uni.
  split; [by transitivity w1; [|transitivity w2]|].
  split_and!; [done| |by eapply run_recorded_same..].
  intros i n j t' Hi Hj Hr. eapply copied_stable; [|done]. by eapply Hres.
Qed.

(** Only the secrets of the run in its two vaults change. *)
Definition outside (target : string) (names : list string) (w w' : world V) : Prop :=
  ∀ b n, n ∉ names ∨ (b ≠ s_Source syncCfg ∧ b ≠ target) → wview b w' !! n = wview b w !! n.

#[local] Instance outside_preorder target names : PreOrder (outside target names).
Proof. split; [by intros w b n _|]. intros w1 w2 w3 H1 H2 b n H. by rewrite H2, H1. Qed.





(** A run that returns no error is one whose goroutines ran. *)
Lemma ExecuteSync_completed (w w' : world V) :
  ExecuteSync backends syncCfg handle w (Some None) w' →
  ∃ results, finished_run backends syncCfg handle w results None w'.
Proof.
  inversion 1 as [err w1 He| |rs err w1 Hc]; simplify_eq; [|by exists rs].
  by destruct (start_early _ _ _ _ _ _ _ _ _ He).
Qed.

(** C1: A unidirectional run that returns no error and whose source is not
    among its targets, whatever the schedule of its goroutines and whichever writes fail, is about the
    names the filter selects of what the source's second listing answers (none
    if that listing fails): the source's contents do not change; no vault
    changes but the targets, and those only at the selected names, to the
    transformed value of the source; there is one result for each selected
    name and target, and where it reports success that value is in that
    target.  At most one run is recorded, with the numbers of successes and
    failures among these results, and it is recorded when the database takes
    '?' placeholders (SQLite does, PostgreSQL does not) and no statement
    fails. *)
Theorem ExecuteSync_unidirectional (w w' : world V) :
  ExecuteSync backends syncCfg handle w (Some None) w' →
  SyncType syncCfg = "unidirectional" → s_Source syncCfg ∉ Targets syncCfg →
  let names := selected_names syncCfg w in
  (∀ l n, second_listing syncCfg w = inl l →
     n ∈ names ↔ selected (Filter syncCfg) n ∧ is_Some (wview (s_Source syncCfg) w !! n)) ∧
  uni_step syncCfg names w w' ∧
  (∃ results, finished_run backends syncCfg handle w results None w') ∧
  ∀ results, finished_run backends syncCfg handle w results None w' →
    length results = length names * length (Targets syncCfg) ∧
    (∀ i n j t, names !! i = Some n → Targets syncCfg !! j = Some t →
       results !! (i * length (Targets syncCfg) + j) = Some true → copied syncCfg t n w') ∧
    (run_recorded syncCfg results w w' ∨ syncs_run (db w') = syncs_run (db w)) ∧
    (recordable driver_error fault w → run_recorded syncCfg results w w').
Proof.
  intros Hex Huni Hsrc names. split; [intros l n; apply selected_names_spec|].
  destruct (ExecuteSync_completed _ _ Hex) as [rs0 Hrs0].
  assert (Hmain : ∀ rs, finished_run backends syncCfg handle w rs None w' →
    uni_step syncCfg names w w' ∧ uni_results names rs w w').
  { intros rs. by apply uni_completed. }
  split_and!; [by apply (Hmain rs0)|by exists rs0|]. intros rs Hrs. by apply Hmain.
Qed.


(** C9: every run comes to its end: from any state its goroutines reach,
    never more than [workerCount] of them running, they can be run to the
    end, no schedule goes on for ever, and one goroutine after the other is
    one of the runs.  ([MaxRetries] is below the greatest int, with which the
    loop of [withRetry] has no end.) *)
Theorem ExecuteSync_completes (w : world V) :
  (let '(r, w') := ExecuteSync_seq backends syncCfg handle w in
   ExecuteSync backends syncCfg handle w r w') ∧
  ∀ jobs w1 c, rtc (pool_step handle (workerCount syncCfg)) (spawn jobs, w1) c →
    running c.1 ≤ workerCount syncCfg ∧
    Acc (flip (pool_step handle (workerCount syncCfg))) c ∧
    ∃ c' (results : list bool), rtc (pool_step handle (workerCount syncCfg)) c c' ∧
      finished c'.1 results.
Proof.
  split.
  - pose proof (sequential_run handle backends syncCfg w) as H.
    by destruct (ExecuteSync_seq backends syncCfg handle w).
  - intros jobs w1 c Hc. split_and!; [by eapply running_bound|apply pool_terminates|].
    apply pool_finishes, workerCount_pos.
Qed.

(** A sync of a valid configuration never indexes an empty target list. *)
Theorem ExecuteSync_no_panic (c : Config) (w w' : world V) :
  Validate c = None → syncCfg ∈ Syncs c →
  ¬ ExecuteSync backends syncCfg handle w None w'.
Proof.
  intros Hv Hin Hex. apply Validate_valid in Hv as (_&_&_&_&Hs).
  rewrite Forall_forall in Hs. destruct (Hs _ Hin) as (_&_&_&Ht&_).
  inversion Hex as [|w1 Hp|]; subst. revert Hp. clear -Ht. unfold ExecuteSync_start.
  rewrite run_bind. destruct (run handle (call _) w) as [t w1]. destruct (negb _); [done|].
  rewrite run_bind. destruct (run handle (call _) w1) as [[l|e] w2].
  - case_bool_decide; [rewrite run_bind; by destruct (run _ _ w2)|].
    case_bool_decide; [|done]. destruct (Targets syncCfg); [done|].
    destruct (negb _); [done|]. rewrite run_bind. by destruct (run _ _ w2).
  - rewrite run_bind. destruct (run _ _ w2) as [ms w3]. rewrite run_bind. by destruct (run _ _ w3).
Qed.

(** When the transformed value is there, a unidirectional sync of a
    secret always leaves an object under its key: with the checksum of the
    source on both sides and no error when the write succeeded, with the
    write's error and no target checksum when every attempt failed. *)
Theorem syncSecretUnidirectional_records (t n x v : string) (w w1 w' : world V)
    (r : option error) :
  t ∈ backends → handle _ (GetSecret (s_Source syncCfg) n) w = (inl x, w1) →
  applyTransforms x (Transforms syncCfg) = inl v → can_record driver_error fault w →
  run handle (syncSecretUnidirectional backends syncCfg t n) w = (r, w') →
  ∃ o, lookup_object (db w') (s_ID syncCfg, s_Source syncCfg, t, n) = Some o ∧
    SourceChecksum o = hashString x ∧ DirectionLast o = "source_to_target" ∧
    match r with
    | None => LastSyncStatus o = "success" ∧ LastSyncError o = "" ∧
              TargetChecksum o = hashString x
    | Some e => LastSyncStatus o = "failed" ∧ LastSyncError o = e ∧ TargetChecksum o = ""
    end.
Proof.
  intros Ht Hg Hv Hrec Hrun. unfold syncSecretUnidirectional in Hrun.
  rewrite bool_decide_eq_true_2 in Hrun by done. cbn [negb] in Hrun.
  rewrite run_bind, run_call, Hg, Hv, run_bind in Hrun.
  destruct (run handle (withRetry _ _ _) w1) as [err w2] eqn:Hset.
  assert (Hrec2 : can_record driver_error fault w2).
  { apply set_retried_same_db in Hset. apply get_same_db in Hg.
    unfold can_record. by rewrite Hset, Hg. }
  destruct err as [e|]; rewrite run_bind in Hrun;
    destruct (run handle (record_object _ _ _ _ _ _ _ _) w2) as [u w3] eqn:Hro;
    injection Hrun as <- <-; destruct (record_object_found _ _ _ _ _ _ _ _ _ _ _ _ _ _ _ Hro Hrec2)
      as (o&Ho&?&?&?&?&?); exists o; split_and!; done.
Qed.


(** After a sync that found the two sides equal, or that copied the source
    to the target, a change of the source is not carried over: the next sync
    that reports success has put the target's old value back into the
    source. *)
Theorem syncSecretBidirectional_reverts_source (t n x y : string) (o : SyncObject)
    (w w1 w2 w' : world V) :
  s_Source syncCfg ≠ t →
  handle _ (GetSecret (s_Source syncCfg) n) w = (inl x, w1) →
  handle _ (GetSecret t n) w1 = (inl y, w2) → hashString x ≠ hashString y →
  lookup_object (db w) (s_ID syncCfg, s_Source syncCfg, t, n) = Some o →
  (DirectionLast o = "none" ∨ DirectionLast o = "source_to_target") →
  run handle (syncSecretBidirectional backends syncCfg t n) w = (None, w') →
  wview (s_Source syncCfg) w' !! n = Some y ∧ wview t w' !! n = Some y.
Proof.
  intros Hst Hg1 Hg2 Hxy Ho Hdir Hrun. unfold syncSecretBidirectional in Hrun.
  rewrite run_bind, run_call, Hg1, run_bind, run_call, Hg2 in Hrun.
  rewrite bool_decide_eq_false_2, run_bind, run_stored in Hrun by done.
  assert (Hdb : db w2 = db w) by (apply get_same_db in Hg1, Hg2; congruence).
  pose proof (handle_get_reads _ _ _ _ _ _ _ _ _ Hg2) as Hy.
  destruct (run _ (GetSyncObject _ _ _ _) (db w2)) as [res d3] eqn:Hq.
  unfold GetSyncObject in Hq. rewrite run_call, Hdb in Hq. simpl in Hq. unfold query in Hq.
  fold (lookup_object (db w) (s_ID syncCfg, s_Source syncCfg, t, n)) in Hq. rewrite Ho in Hq.
  destruct (refused _ _ _ _); [by injection Hq as <- <-|]. injection Hq as <- <-.
  cbv beta iota in Hrun.
  assert (Hch : choose_direction (Some o) = "target_to_source").
  { unfold choose_direction. by destruct Hdir as [-> | ->]. }
  rewrite Hch in Hrun. rewrite bool_decide_eq_false_2 in Hrun by done.
  set (w3 := {| vaults := vaults w2; db := counted (db w); slept := slept w2 |}) in *.
  rewrite run_bind in Hrun.
  destruct (run handle (withRetry _ _ _) w3) as [[e|] w4] eqn:Hset; rewrite run_bind in Hrun;
    destruct (run handle (record_object _ _ _ _ _ _ _ _) w4) as [u w5] eqn:Hro; [done|].
  injection Hrun as <-.
  pose proof (rg_set driver_error fault clock db_clock syncCfg t n (s_Source syncCfg) t y y w3
    (effectiveRetryPolicy (s_RetryPolicy syncCfg))) as Hrg.
  eapply rg_run in Hrg as [_ Hq]; [|apply _|by left|congruence|exact Hy|exact Hset].
  destruct (Hq eq_refl) as [Hs Ht].
  assert (Hv : same_views w4 w5).
  { change w5 with ((u, w5).2). rewrite <-Hro.
    apply (run_only driver_error fault clock db_clock
      (λ X e, ∀ w, same_views w (handle X e w).2)); [apply _|apply only_record_object|auto]. }
  by rewrite !Hv.
Qed.
End properties.

(** *** Instances *)

Definition sample_sync (type : string) (targets : list string) : SyncConfig :=
  {| s_ID := "s"; s_Source := "a"; Targets := targets; SyncType := type; Schedule := "";
     Filter := {| Patterns := []; Exclude := ["tmp*"] |};
     Transforms := [on_value "base64_encode"]; s_RetryPolicy := default_policy;
     ConcurrentWorkers := 2; Enabled := None |}.

Definition sample_world : world memory :=
  {| vaults :=
       {| contents := {[ "a" := {[ "k" := "v"; "tmp1" := "x" ]}; "b" := {[ "k" := "w" ]};
                         "c" := ∅ ]};
          failures := [Some "timeout"; None] |};
     db := empty_store DBTypeSQLite; slept := [] |}.

Abbreviation sample_handle :=
  (engine_handle (V := memory) strict_driver no_fault counting counting).
Definition sample_backends : gset string := {[ "a"; "b"; "c" ]}.

#[local] Existing Instance stable_order.

Lemma ExecuteSync_unidirectional_witness :
  let cfg := sample_sync "unidirectional" ["b"; "c"] in
  let w' := (ExecuteSync_seq sample_backends cfg sample_handle sample_world).2 in
  uni_step cfg ["k"] sample_world w' ∧
  ∃ results, length results = 2 ∧ run_recorded cfg results sample_world w'.
Proof.
  intros cfg w'.
  destruct (ExecuteSync_unidirectional strict_driver no_fault counting counting sample_backends
    cfg sample_world w') as (_&Hstep&[results Hc]&H).
  - exact (sequential_run sample_handle sample_backends cfg sample_world).
  - reflexivity.
  - apply (bool_decide_unpack _). vm_compute. exact I.
  - split; [exact Hstep|]. exists results. destruct (H results Hc) as (Hlen&_&_&Hrec).
    split; [exact Hlen|]. apply Hrec. split; reflexivity.
Defined.


Definition sample_vault (i : string) : VaultConfig :=
  {| v_ID := i; v_Name := ""; v_Type := ""; v_Endpoint := "http://x"; v_Method := "PUT";
     v_Auth := Some {| auth_Method := "bearer"; auth_Headers := None; OAuth := None |};
     v_FieldNames := {| fn_NameField := "name"; fn_ValueField := "value" |};
     v_Headers := None; OperationsOverride := None; v_Timeout := 30; SkipSSLVerify := false;
     ToolConfig := ""; ResolvedTool := None; LegacyAuthMethod := ""; LegacyAuthHeaders := None |}.

Definition sample_config : Config :=
  {| Vaults := map sample_vault ["a"; "b"]; Syncs := [sample_sync "bidirectional" ["b"]];
     Server := {| Port := 0; Address := ""; MetricsPort := 0; MetricsAddress := "" |};
     Logging := {| Level := ""; Format := "" |} |}.

Lemma ExecuteSync_no_panic_witness :
  let cfg := sample_sync "bidirectional" ["b"] in
  ¬ ExecuteSync sample_backends cfg sample_handle sample_world None sample_world.
Proof.
  apply (ExecuteSync_no_panic strict_driver no_fault counting counting sample_backends
    (sample_sync "bidirectional" ["b"]) sample_config).
  - vm_compute. reflexivity.
  - left.
Defined.

Lemma syncSecretUnidirectional_records_witness :
  let cfg := sample_sync "unidirectional" ["b"] in
  let '(r, w') := run sample_handle (syncSecretUnidirectional sample_backends cfg "b" "k")
                    sample_world in
  ∃ o, lookup_object (db w') ("s", "a", "b", "k") = Some o ∧ SourceChecksum o = hashString "v".
Proof.
  intros cfg. destruct (run sample_handle _ sample_world) as [r w'] eqn:Hrun.
  destruct (syncSecretUnidirectional_records strict_driver no_fault counting counting
    sample_backends cfg "b" "k" "v" "dg==" sample_world sample_world w' r) as (o&Ho&Hs&_).
  - apply (bool_decide_unpack _). vm_compute. exact I.
  - reflexivity.
  - reflexivity.
  - split; reflexivity.
  - exact Hrun.
  - exists o. auto.
Defined.


(** The two sides of [k] differ and the last sync found them equal. *)
Definition diverged_world : world memory :=
  {| vaults := vaults sample_world;
     db := with_objects (empty_store DBTypeSQLite)
       [{| row_obj := sync_object (sample_sync "bidirectional" ["b"]) "b" "k" "" "" 0 "in_sync" ""
             "none"; updated_at := 0 |}] 2;
     slept := [] |}.

Lemma syncSecretBidirectional_reverts_source_witness :
  let r := run sample_handle
    (syncSecretBidirectional sample_backends (sample_sync "bidirectional" ["b"]) "b" "k")
    diverged_world in
  wview "a" r.2 !! "k" = Some "w" ∧ wview "b" r.2 !! "k" = Some "w".
Proof.
  intros r.
  apply (syncSecretBidirectional_reverts_source strict_driver no_fault counting counting
    sample_backends (sample_sync "bidirectional" ["b"]) "b" "k" "v" "w"
    (sync_object (sample_sync "bidirectional" ["b"]) "b" "k" "" "" 0 "in_sync" "" "none")
    diverged_world diverged_world diverged_world r.2).
  - discriminate.
  - reflexivity.
  - reflexivity.
  - vm_compute. discriminate.
  - reflexivity.
  - left. reflexivity.
  - vm_compute. reflexivity.
Defined.
