(* ===== verification/Auth.v ===== *)
(** * Authentication ([auth/service.go], [auth/middleware.go], [api/handler_auth.go],
      [api/handler_users.go], [api/handler_setup.go])

    The service on top of the user store, the middleware that guards the
    routes, and the HTTP handlers.  A handler is a program over the calls of
    [Users] from a request to its response, [None] when it panics.  A request
    carries what the handlers read of it: the outcome of decoding its body is
    given by the string members of the JSON object.  [compare] is
    [bcrypt.CompareHashAndPassword]. *)

From S2P Require Import Prelude GoLang Config Effects Pool Store Users Sha256.

#[local] Open Scope syncer_scope.

Definition ErrInvalidCredentials : error := "auth: invalid username or password".
Definition ErrUserExists : error := "auth: username already exists".
Definition ErrLastAdmin : error := "auth: cannot remove the last admin account".

(** 24 hours in nanoseconds, and bytes. *)
Definition sessionTTL : Z := (24 * 3600 * 10 ^ 9)%Z.
Definition tokenBytes : nat := 32.

(** ** The service *)

(** The error chain of a wrapped error never contains one of the sentinels:
    only the sentinel itself has its message. *)
Definition errors_Is (err target : error) : bool := bool_decide (err = target).

Section service.
Variable compare : string → string → option error.
Variable t : DBType.

Definition generateToken : prog UserE (result string) :=
  let* b := call (RandRead tokenBytes) in
  Ret (match b with
       | inr err => inr ("auth: generateToken: " +:+ err)
       | inl b => inl (sha256.hex b)
       end).

Definition SetupAdmin (username password : string) : prog UserE (option error) :=
  let* existing := GetUserByUsername t username in
  match existing with
  | inr err => Ret (Some ("auth: SetupAdmin lookup: " +:+ err))
  | inl (Some _) => Ret (Some ErrUserExists)
  | inl None =>
      let* hash := call (GenerateFromPassword password) in
      match hash with
      | inr err => Ret (Some ("auth: SetupAdmin hash: " +:+ err))
      | inl hash =>
          let* r := CreateUser t username hash RoleAdmin in
          Ret (match r with
               | inr err => Some ("auth: SetupAdmin create: " +:+ err)
               | inl _ => None
               end)
      end
  end.

Definition Login (username password : string) : prog UserE (result string) :=
  let* user := GetUserByUsername t username in
  match user with
  | inr err => Ret (inr ("auth: Login: " +:+ err))
  | inl None => Ret (inr ErrInvalidCredentials)
  | inl (Some user) =>
      match compare (PasswordHash user) password with
      | Some _ => Ret (inr ErrInvalidCredentials)
      | None =>
          let* token := generateToken in
          match token with
          | inr err => Ret (inr ("auth: Login generate token: " +:+ err))
          | inl token =>
              let* now := call (Base Now) in
              let expiresAt := Unix (now + sessionTTL) in
              let* r := CreateSession t (u_ID user) token expiresAt in
              Ret (match r with
                   | inr err => inr ("auth: Login create session: " +:+ err)
                   | inl _ => inl token
                   end)
          end
      end
  end.

Definition ValidateSession (token : string) : prog UserE (result (option User)) :=
  let* sess := GetSessionByToken t token in
  match sess with
  | inr err => Ret (inr ("auth: ValidateSession: " +:+ err))
  | inl None => Ret (inl None)
  | inl (Some sess) =>
      let* user := GetUserByID t (s_UserID sess) in
      Ret (wrap "auth: ValidateSession user lookup: " user)
  end.

Definition Logout (token : string) : prog UserE (option error) :=
  let* err := DeleteSession t token in
  Ret (wrap_err "auth: Logout: " err).

(** [Service.CreateUser]; [None] is the panic of [u.PasswordHash = ""] on the
    nil user the store returns when the row is gone again. *)
Definition Service_CreateUser (username password role : string)
    : prog UserE (option (result User)) :=
  let* existing := GetUserByUsername t username in
  match existing with
  | inr err => Ret (Some (inr ("auth: CreateUser: " +:+ err)))
  | inl (Some _) => Ret (Some (inr ErrUserExists))
  | inl None =>
      let* hash := call (GenerateFromPassword password) in
      match hash with
      | inr err => Ret (Some (inr ("auth: CreateUser hash: " +:+ err)))
      | inl hash =>
          let* u := CreateUser t username hash role in
          Ret (match u with
               | inr err => Some (inr ("auth: CreateUser store: " +:+ err))
               | inl None => None
               | inl (Some u) => Some (inl (with_hash "" u))
               end)
      end
  end.

Definition ChangePassword (userID : Z) (newPassword : string) : prog UserE (option error) :=
  let* hash := call (GenerateFromPassword newPassword) in
  match hash with
  | inr err => Ret (Some ("auth: ChangePassword hash: " +:+ err))
  | inl hash => UpdateUserPassword t userID hash
  end.

Definition ChangeRole (userID : Z) (role : string) : prog UserE (option error) :=
  UpdateUserRole t userID role.

Definition is_admin (u : User) : bool := bool_decide (Role u = RoleAdmin).
Definition admin_count (l : list User) : nat := length (List.filter is_admin l).

Definition Service_DeleteUser (userID : Z) : prog UserE (option error) :=
  let* user := GetUserByID t userID in
  match user with
  | inr err => Ret (Some ("auth: DeleteUser: " +:+ err))
  | inl None => Ret None
  | inl (Some user) =>
      if is_admin user then
        let* users := ListUsers in
        match users with
        | inr err => Ret (Some ("auth: DeleteUser list: " +:+ err))
        | inl users =>
            if (admin_count users <=? 1)%nat then Ret (Some ErrLastAdmin)
            else DeleteUser t userID
        end
      else DeleteUser t userID
  end.

Definition Service_ListUsers : prog UserE (result (list User)) :=
  let* users := ListUsers in
  Ret (match users with inr err => inr err | inl l => inl (map (with_hash "") l) end).
End service.

(** ** Requests and responses *)

Record request := {
  hdr_Authorization : string; cookie_session_token : option string;
  path_values : list (string * string); body_members : result (gmap string string);
  ctx_user : option User }.

Definition with_user (r : request) (u : User) : request :=
  {| hdr_Authorization := hdr_Authorization r;
     cookie_session_token := cookie_session_token r; path_values := path_values r;
     body_members := body_members r; ctx_user := Some u |}.
Definition with_path_values (r : request) (l : list (string * string)) : request :=
  {| hdr_Authorization := hdr_Authorization r;
     cookie_session_token := cookie_session_token r; path_values := l;
     body_members := body_members r; ctx_user := ctx_user r |}.

Definition PathValue (r : request) (name : string) : string :=
  match List.find (λ b, bool_decide (b.1 = name)) (path_values r) with
  | Some b => b.2
  | None => ""
  end.

(** What is encoded into the body. *)
Inductive content :=
| Text (s : string)
| ErrorMsg (msg : string)
| Status (s : string)
| TokenBody (token : string)
| UserBody (u : User)
| UsersBody (l : list User)
| MeBody (id : Z) (username role : string) (created_at : Z)
| SetupBody (complete : bool).

Record response := { code : Z; content_of : content }.
Definition jsonOK (c : content) : response := {| code := 200; content_of := c |}.
Definition jsonError (msg : string) (c : Z) : response :=
  {| code := c; content_of := ErrorMsg msg |}.

Definition handler : Type := request → prog UserE (option response).
Definition respond (r : response) : prog UserE (option response) := Ret (Some r).

(** ** Middleware *)

Definition HasPrefix (s p : string) : bool := bool_decide (take_str (String.length p) s = p).
Definition TrimPrefix (s p : string) : string :=
  if HasPrefix s p then drop_str (String.length p) s else s.

Definition extractToken (r : request) : string :=
  let auth := hdr_Authorization r in
  if HasPrefix auth "Bearer " then TrimPrefix auth "Bearer "
  else match cookie_session_token r with Some v => v | None => "" end.

Definition error_text (msg : string) : string :=
  "{" +:+ quoted "error" +:+ ":" +:+ quoted msg +:+ "}".
Definition unauthorized : response :=
  {| code := 401; content_of := Text (error_text "unauthorized") |}.
Definition forbidden : response :=
  {| code := 403; content_of := Text (error_text "forbidden") |}.

Section handlers.
Variable compare : string → string → option error.
Variable t : DBType.

Definition RequireAuth (next : handler) : handler := λ r,
  let token := extractToken r in
  if bool_decide (token = "") then respond unauthorized
  else
    let* user := ValidateSession t token in
    match user with
    | inl (Some user) => next (with_user r user)
    | _ => respond unauthorized
    end.

Definition RequireAdmin (next : handler) : handler := λ r,
  match ctx_user r with
  | None => respond forbidden
  | Some user => if is_admin user then next r else respond forbidden
  end.

(** ** Authentication handlers *)

Definition member (k : string) (m : gmap string string) : string := default "" (m !! k).
(** [len(s)], as Go counts it. *)
Definition len (s : string) : Z := Z.of_nat (String.length s).

Definition handle_Login : handler := λ r,
  match body_members r with
  | inr _ => respond (jsonError "invalid request body" 400)
  | inl req =>
      let username := member "username" req in
      let password := member "password" req in
      if bool_decide (username = "") || bool_decide (password = "") then
        respond (jsonError "username and password are required" 400)
      else
        let* token := Login compare t username password in
        respond (match token with
                 | inr err => if errors_Is err ErrInvalidCredentials
                              then jsonError "invalid credentials" 401
                              else jsonError "internal error" 500
                 | inl token => jsonOK (TokenBody token)
                 end)
  end.

Definition handle_Logout : handler := λ r,
  let token := extractToken r in
  if bool_decide (token = "") then respond (jsonOK (Status "logged out"))
  else let* _ := Logout t token in respond (jsonOK (Status "logged out")).

Definition handle_Me : handler := λ r,
  respond match ctx_user r with
          | None => jsonError "unauthorized" 401
          | Some u => jsonOK (MeBody (u_ID u) (Username u) (Role u) (u_CreatedAt u))
          end.

(** ** User handlers *)

Definition valid_role (role : string) : bool :=
  bool_decide (role = RoleAdmin) || bool_decide (role = RoleUser).

Definition handle_ListUsers : handler := λ _,
  let* users := Service_ListUsers in
  respond (match users with
           | inr _ => jsonError "failed to list users" 500
           | inl l => jsonOK (UsersBody l)
           end).

Definition handle_CreateUser : handler := λ r,
  match body_members r with
  | inr _ => respond (jsonError "invalid request body" 400)
  | inl req =>
      let username := member "username" req in
      let password := member "password" req in
      if bool_decide (username = "") || bool_decide (password = "") then
        respond (jsonError "username and password are required" 400)
      else if (len password <? 8)%Z then
        respond (jsonError "password must be at least 8 characters" 400)
      else
        let role := member "role" req in
        let role := if bool_decide (role = "") then RoleUser else role in
        if negb (valid_role role) then
          respond (jsonError "role must be 'admin' or 'user'" 400)
        else
          let* user := Service_CreateUser t username password role in
          match user with
          | None => Ret None
          | Some (inr err) =>
              respond (if errors_Is err ErrUserExists
                       then jsonError "username already exists" 409
                       else jsonError "failed to create user" 500)
          | Some (inl user) => respond {| code := 201; content_of := UserBody user |}
          end
  end.

Definition parseUserID (r : request) : result Z := ParseInt (PathValue r "user_id").

(** The second half of [UpdateUser], after the password. *)
Definition update_role (userID : Z) (role : string) : prog UserE (option response) :=
  if bool_decide (role = "") then respond (jsonOK (Status "updated"))
  else if negb (valid_role role) then
    respond (jsonError "role must be 'admin' or 'user'" 400)
  else
    let* err := ChangeRole t userID role in
    respond (match err with
             | Some _ => jsonError "failed to update role" 500
             | None => jsonOK (Status "updated")
             end).

Definition handle_UpdateUser : handler := λ r,
  match parseUserID r with
  | inr _ => respond (jsonError "invalid user_id" 400)
  | inl userID =>
      match body_members r with
      | inr _ => respond (jsonError "invalid request body" 400)
      | inl req =>
          let password := member "password" req in
          let role := member "role" req in
          if bool_decide (password = "") then update_role userID role
          else if (len password <? 8)%Z then
            respond (jsonError "password must be at least 8 characters" 400)
          else
            let* err := ChangePassword t userID password in
            match err with
            | Some _ => respond (jsonError "failed to update password" 500)
            | None => update_role userID role
            end
      end
  end.

Definition handle_DeleteUserAccount : handler := λ r,
  match parseUserID r with
  | inr _ => respond (jsonError "invalid user_id" 400)
  | inl userID =>
      if match ctx_user r with Some caller => (u_ID caller =? userID)%Z | None => false end
      then respond (jsonError "cannot delete your own account" 400)
      else
        let* err := Service_DeleteUser t userID in
        respond (match err with
                 | Some _ => jsonError "failed to delete user" 500
                 | None => jsonOK (Status "deleted")
                 end)
  end.

(** ** First-run setup *)

Definition handle_GetSetupStatus : handler := λ _,
  let* complete := lift (IsSetupComplete t) in
  respond (match complete with
           | inr _ => jsonError "internal error" 500
           | inl complete => jsonOK (SetupBody complete)
           end).

Definition handle_CompleteSetup : handler := λ r,
  let* complete := lift (IsSetupComplete t) in
  match complete with
  | inr _ => respond (jsonError "internal error" 500)
  | inl true => respond (jsonError "setup already completed" 409)
  | inl false =>
      match body_members r with
      | inr _ => respond (jsonError "invalid request body" 400)
      | inl req =>
          let username := member "admin_username" req in
          let password := member "admin_password" req in
          if bool_decide (username = "") || bool_decide (password = "") then
            respond (jsonError "admin_username and admin_password are required" 400)
          else if (len password <? 8)%Z then
            respond (jsonError "admin_password must be at least 8 characters" 400)
          else
            let* err := SetupAdmin t username password in
            match err with
            | Some err =>
                respond (if errors_Is err ErrUserExists
                         then jsonError "username already exists" 409
                         else jsonError "failed to create admin account" 500)
            | None =>
                let* err := lift (MarkSetupComplete t) in
                match err with
                | Some _ => respond (jsonError "internal error" 500)
                | None =>
                    let* _ := call Reload in
                    respond (jsonOK (Status "setup complete"))
                end
            end
      end
  end.
End handlers.

#[local] Close Scope syncer_scope.
