(* ===== verification/Routes.v ===== *)
(** * The HTTP routes ([main.go])

    [http.ServeMux] as Go 1.22 and later define it: patterns of literals and
    single wildcards, optionally for one method, the last slash standing for
    a whole subtree; a literal is preferred to a wildcard and a wildcard to a
    subtree.  Below it the three muxes [main] builds and how they are mounted
    behind the middleware.  A path is the list of its unescaped segments and
    canonical ([mux] redirects any other).  The handlers of the runtime and
    configuration endpoints are arguments, and so is the user interface, which
    serves embedded files. *)

From S2P Require Import Prelude GoLang Config Effects Store Users Auth.

#[local] Open Scope syncer_scope.

(** ** Patterns *)

Inductive segment := Lit (s : string) | Wild (name : string).

Fixpoint split_str (c : ascii) (s : string) : list string :=
  match s with
  | EmptyString => [""]
  | String a s =>
      let l := split_str c s in
      if bool_decide (a = c) then "" :: l
      else match l with x :: l => String a x :: l | [] => [] end
  end.

Definition parse_segment (s : string) : segment :=
  if bool_decide (first_byte s = Some "{"%char) && bool_decide (last_byte s = Some "}"%char)
  then Wild (take_str (String.length s - 2) (drop_str 1 s)) else Lit s.

Record pattern := { p_method : string; p_segments : list segment; p_subtree : bool }.

(** ["[METHOD ]/path"]; a path that ends in a slash is a subtree. *)
Definition parse_path (method path : string) : pattern :=
  let l := split_str "/"%char (drop_str 1 path) in
  if bool_decide (last l = Some "")
  then {| p_method := method; p_segments := map parse_segment (removelast l); p_subtree := true |}
  else {| p_method := method; p_segments := map parse_segment l; p_subtree := false |}.

Definition parse_pattern (s : string) : pattern :=
  match split_str " "%char s with
  | [method; path] => parse_path method path
  | _ => parse_path "" s
  end.

(** ** Matching *)

(** A pattern on its way down the path: the segments left, the wildcards
    bound, and the pattern's number of segments (a subtree counts as one). *)
Record route (A : Type) := {
  left_segments : list segment; subtree : bool; bound : list (string * string);
  size : nat; target : A }.
Arguments left_segments {A}. Arguments subtree {A}. Arguments bound {A}.
Arguments size {A}. Arguments target {A}.

Definition route_of {A} (p : pattern) (a : A) : route A :=
  {| left_segments := p_segments p; subtree := p_subtree p; bound := [];
     size := length (p_segments p) + Nat.b2n (p_subtree p); target := a |}.

Definition advance_lit {A} (s : string) (r : route A) : option (route A) :=
  match left_segments r with
  | Lit s' :: l =>
      if bool_decide (s = s') then
        Some {| left_segments := l; subtree := subtree r; bound := bound r; size := size r;
                target := target r |}
      else None
  | _ => None
  end.

Definition advance_wild {A} (s : string) (r : route A) : option (route A) :=
  match left_segments r with
  | Wild x :: l =>
      Some {| left_segments := l; subtree := subtree r; bound := bound r ++ [(x, s)];
              size := size r; target := target r |}
  | _ => None
  end.

Definition ends (sub : bool) {A} (r : route A) : bool :=
  match left_segments r with [] => Bool.eqb (subtree r) sub | _ => false end.

Definition or_else {A} (x y : option A) : option A :=
  match x with Some _ => x | None => y end.

(** [routingNode.matchPath]. *)
Fixpoint match_path {A} (rs : list (route A)) (path : list string) : option (route A) :=
  match path with
  | [] => List.find (ends false) rs
  | s :: path =>
      or_else (match_path (omap (advance_lit s) rs) path)
        (or_else (if bool_decide (s = "") then None
                  else match_path (omap (advance_wild s) rs) path)
           (List.find (ends true) rs))
  end.

Definition mux (A : Type) : Type := list (string * A).

Definition routes_for {A} (m : mux A) (method : string) : list (route A) :=
  omap (λ '(s, a), let p := parse_pattern s in
                   if bool_decide (p_method p = method) then Some (route_of p a) else None) m.

(** [routingNode.matchMethodAndPath]. *)
Definition mux_match {A} (m : mux A) (method : string) (path : list string)
    : option (route A) :=
  or_else (match_path (routes_for m method) path)
    (or_else (if bool_decide (method = "HEAD") then match_path (routes_for m "GET") path
              else None)
       (match_path (routes_for m "") path)).

Definition ends_in_slash (path : list string) : bool := bool_decide (last path = Some "").

Definition exactMatch {A} (r : option (route A)) (path : list string) : bool :=
  match r with
  | None => false
  | Some r =>
      if negb (subtree r) then true
      else ends_in_slash path && (size r =? length path)%nat
  end.

(** Another method would have matched. *)
Definition other_method {A} (m : mux A) (path : list string) : bool :=
  existsb (λ '(s, _), bool_decide
    (match_path (routes_for m (p_method (parse_pattern s))) path ≠ None)) m.

#[global] Instance route_ne_dec {A} (r : option (route A)) : Decision (r ≠ None).
Proof. destruct r; [left; done|right; by intros []]. Defined.

(** [ServeMux.ServeHTTP]. *)
Definition ServeHTTP (m : mux handler) (method : string) (path : list string) : handler := λ r,
  let n := mux_match m method path in
  if negb (exactMatch n path) && negb (ends_in_slash path)
     && exactMatch (mux_match m method (path ++ [""])) (path ++ [""])
  then respond {| code := 307; content_of := Text "" |}
  else match n with
       | Some n => target n (with_path_values r (bound n))
       | None =>
           if other_method m path
           then respond {| code := 405; content_of := Text "Method Not Allowed" |}
           else respond {| code := 404; content_of := Text "404 page not found" |}
       end.

(** ** The routes of [main] *)

Section routes.
Variable compare : string → string → option error.
Variable t : DBType.
Variables apiHandler configHandler : string → handler.
Variable ServeUI : request → option response.

Definition authedAPIMux : mux handler := [
  ("POST /api/auth/logout", handle_Logout t);
  ("GET /api/auth/me", handle_Me);
  ("GET /api/health", apiHandler "Health");
  ("GET /api/vaults", apiHandler "ListVaults");
  ("GET /api/syncs", apiHandler "ListSyncs");
  ("GET /api/syncs/{sync_id}/status", apiHandler "GetSyncStatus");
  ("GET /api/syncs/{sync_id}/runs", apiHandler "GetSyncRuns");
  ("POST /api/syncs/{sync_id}/execute", apiHandler "ExecuteSync");
  ("GET /api/metrics", apiHandler "GetMetrics")].

Definition adminMux : mux handler := [
  ("GET /api/config/vaults", configHandler "ListVaultsConfig");
  ("POST /api/config/vaults/test", configHandler "TestVaultConnection");
  ("POST /api/config/vaults", configHandler "CreateVault");
  ("GET /api/config/vaults/{vault_id}", configHandler "GetVaultConfig");
  ("PUT /api/config/vaults/{vault_id}", configHandler "UpdateVault");
  ("DELETE /api/config/vaults/{vault_id}", configHandler "DeleteVaultConfig");
  ("GET /api/config/syncs", configHandler "ListSyncsConfig");
  ("POST /api/config/syncs", configHandler "CreateSync");
  ("GET /api/config/syncs/{sync_id}", configHandler "GetSyncConfig");
  ("PUT /api/config/syncs/{sync_id}", configHandler "UpdateSync");
  ("DELETE /api/config/syncs/{sync_id}", configHandler "DeleteSyncConfig");
  ("GET /api/users", handle_ListUsers);
  ("POST /api/users", handle_CreateUser t);
  ("PUT /api/users/{user_id}", handle_UpdateUser t);
  ("DELETE /api/users/{user_id}", handle_DeleteUserAccount t)].

Definition main_mux (method : string) (path : list string) : mux handler :=
  let admin := RequireAuth t (RequireAdmin (ServeHTTP adminMux method path)) in [
  ("GET /api/setup", handle_GetSetupStatus t);
  ("POST /api/setup", handle_CompleteSetup t);
  ("POST /api/auth/login", handle_Login compare t);
  ("/api/config/", admin);
  ("/api/users", admin);
  ("/api/users/", admin);
  ("/api/", RequireAuth t (ServeHTTP authedAPIMux method path));
  ("/", λ r, Ret (ServeUI r))].

Definition serve (method : string) (path : list string) : handler :=
  ServeHTTP (main_mux method path) method path.
End routes.

#[local] Close Scope syncer_scope.

(** ** Examples *)

Definition sample_mux : mux nat :=
  [("GET /a/{x}", 1); ("POST /a/b", 2); ("/a/", 3); ("GET /a/b", 4); ("/", 5)]%nat.
Definition sample_match (method : string) (path : list string) :=
  (λ r, (target r, bound r)) <$> mux_match sample_mux method path.

Example match_literal : sample_match "GET" ["a"; "b"] = Some (4, []).
Proof. vm_compute. reflexivity. Qed.
Example match_wild : sample_match "HEAD" ["a"; "c"] = Some (1, [("x", "c")]).
Proof. vm_compute. reflexivity. Qed.
Example match_subtree : sample_match "PUT" ["a"; "b"] = Some (3, []).
Proof. vm_compute. reflexivity. Qed.
Example match_root : sample_match "GET" ["z"; ""] = Some (5, []).
Proof. vm_compute. reflexivity. Qed.

(** ** What a match means *)

(** The paths a pattern stands for. *)
Fixpoint seg_match (l : list segment) (sub : bool) (path : list string) : bool :=
  match l, path with
  | [], [] => negb sub
  | [], _ :: _ => sub
  | Lit s :: l, x :: path => bool_decide (x = s) && seg_match l sub path
  | Wild _ :: l, x :: path => bool_decide (x ≠ "") && seg_match l sub path
  | _ :: _, [] => false
  end.

Lemma or_else_inv {A} (x y : option A) a : or_else x y = Some a → x = Some a ∨ y = Some a.
Proof. destruct x; simpl; auto. Qed.

(** A route that is found was registered and its pattern stands for the path. *)
Lemma match_path_sound {A} (rs : list (route A)) path n :
  match_path rs path = Some n →
  ∃ r, r ∈ rs ∧ target n = target r ∧ seg_match (left_segments r) (subtree r) path = true.
Proof.
  assert (Hends : ∀ sub rs path, bool_decide (path = []) = negb sub →
    List.find (ends sub) rs = Some n →
    ∃ r, r ∈ rs ∧ target n = target r ∧ seg_match (left_segments r) (subtree r) path = true).
  { intros sub rs' p Hp (Hin&He)%find_elem. exists n. split_and!; [done..|].
    unfold ends in He. destruct (left_segments n); [|done].
    apply Bool.eqb_prop in He. rewrite He. destruct p, sub; done. }
  revert rs. induction path as [|s path IH]; intros rs; cbn [match_path].
  { by apply Hends. }
  intros [H|[H|H]%or_else_inv]%or_else_inv.
  - apply IH in H as (r&Hr&Ht&Hm). apply list_elem_of_omap in Hr as (r0&Hr0&Ha).
    unfold advance_lit in Ha. destruct (left_segments r0) as [|[s'|x] l] eqn:Hl; try done.
    case_bool_decide; simplify_eq/=. exists r0. rewrite Hl. simpl.
    by rewrite bool_decide_eq_true_2.
  - case_bool_decide; [done|]. apply IH in H as (r&Hr&Ht&Hm).
    apply list_elem_of_omap in Hr as (r0&Hr0&Ha).
    unfold advance_wild in Ha. destruct (left_segments r0) as [|[s'|x] l] eqn:Hl; try done.
    simplify_eq/=. exists r0. rewrite Hl. simpl. by rewrite bool_decide_eq_true_2.
  - by apply (Hends true).
Qed.

Lemma routes_for_elem {A} (m : mux A) method r :
  r ∈ routes_for m method →
  ∃ s a, (s, a) ∈ m ∧ p_method (parse_pattern s) = method ∧ r = route_of (parse_pattern s) a.
Proof.
  unfold routes_for. intros ([s a]&Hin&Hr)%list_elem_of_omap.
  case_bool_decide; simplify_eq. by exists s, a.
Qed.

Lemma match_path_nil {A} path : @match_path A [] path = None.
Proof.
  induction path as [|s path IH]; [done|].
  change (match_path [] (s :: path)) with
    (or_else (@match_path A [] path) (or_else (if bool_decide (s = "") then None
       else @match_path A [] path) None)).
  rewrite IH. by case_bool_decide.
Qed.

(** ** The routes of [main] *)

Section shape.
Context {A : Type}.
Variables setup_get setup_post login admin authed ui : A.

Definition labelled : mux A := [
  ("GET /api/setup", setup_get); ("POST /api/setup", setup_post);
  ("POST /api/auth/login", login); ("/api/config/", admin); ("/api/users", admin);
  ("/api/users/", admin); ("/api/", authed); ("/", ui)].

Definition admin_path (path : list string) : bool :=
  match path with
  | x :: y :: _ => bool_decide (x = "api") &&
                   (bool_decide (y = "users") || bool_decide (y = "config"))
  | _ => false
  end.

(** What may answer a request. *)
Definition answers (method : string) (path : list string) (a : A) : Prop :=
  a = admin ∨ (a = authed ∧ (admin_path path = true → path = ["api"; "config"])) ∨ a = ui ∨
  a = setup_get ∨ (a = setup_post ∧ method = "POST" ∧ path = ["api"; "setup"]) ∨
  (a = login ∧ method = "POST" ∧ path = ["api"; "auth"; "login"]).

Lemma seg_match_lits l path : seg_match (map Lit l) false path = true → path = l.
Proof.
  revert path. induction l as [|s l IH]; intros [|x path]; simpl; try done.
  intros. bool_clean. subst. f_equal. auto.
Qed.

(** The routes without a method, on their way below ["/api"] and one level deeper. *)
Definition below (l : list string) (sub : bool) (n : nat) (a : A) : route A :=
  {| left_segments := map Lit l; subtree := sub; bound := []; size := n; target := a |}.

Lemma any_method_routes :
  routes_for labelled "" =
    [below ["api"; "config"] true 3 admin; below ["api"; "users"] false 2 admin;
     below ["api"; "users"] true 3 admin; below ["api"] true 2 authed; below [] true 1 ui].
Proof. reflexivity. Qed.

Lemma match_path_cons (rs : list (route A)) s path :
  match_path rs (s :: path) =
    or_else (match_path (omap (advance_lit s) rs) path)
      (or_else (if bool_decide (s = "") then None
                else match_path (omap (advance_wild s) rs) path)
         (List.find (ends true) rs)).
Proof. reflexivity. Qed.

(** Only subtrees are left. *)
Lemma match_path_leaf (rs : list (route A)) s path :
  Forall (λ r, left_segments r = []) rs →
  match_path rs (s :: path) = List.find (ends true) rs.
Proof.
  intros Hrs. rewrite match_path_cons.
  assert (∀ f, (∀ r, left_segments r = [] → f r = None) → omap f rs = ([] : list (route A)))
    as Hnil.
  { intros f Hf. induction Hrs as [|r rs Hr _ IH]; [done|]. csimpl. by rewrite Hf. }
  rewrite !Hnil by (intros r Hr; unfold advance_lit, advance_wild; by rewrite Hr).
  rewrite !match_path_nil. simpl. by case_bool_decide.
Qed.

Lemma admin_path_match path :
  admin_path path = true → path ≠ ["api"; "config"] →
  ∃ n, match_path (routes_for labelled "") path = Some n ∧ target n = admin.
Proof.
  rewrite any_method_routes. unfold admin_path.
  destruct path as [|x [|y rest]]; [done..|].
  intros [->%bool_decide_eq_true Hy]%andb_true_iff Hp.
  apply orb_true_iff in Hy as [->%bool_decide_eq_true| ->%bool_decide_eq_true];
    rewrite !match_path_cons.
  - change (omap (advance_lit "users") (omap (advance_lit "api") _)) with
      [below [] false 2 admin; below [] true 3 admin].
    destruct rest as [|x rest]; [by eexists|].
    rewrite match_path_leaf by repeat constructor. by eexists.
  - change (omap (advance_lit "config") (omap (advance_lit "api") _)) with [below [] true 3 admin].
    destruct rest as [|x rest]; [done|].
    rewrite match_path_leaf by repeat constructor. by eexists.
Qed.

Lemma method_match method path n :
  method ≠ "" → match_path (routes_for labelled method) path = Some n →
  target n = setup_get ∧ method = "GET" ∧ path = ["api"; "setup"] ∨
  target n = setup_post ∧ method = "POST" ∧ path = ["api"; "setup"] ∨
  target n = login ∧ method = "POST" ∧ path = ["api"; "auth"; "login"].
Proof.
  intros Hm (r&Hr&->&Hs)%match_path_sound.
  apply routes_for_elem in Hr as (s&a&Hin&Hme&->). simpl in Hs.
  unfold labelled in Hin. rewrite !elem_of_cons, elem_of_nil in Hin.
  destruct_or!; simplify_eq; try done.
  - left. split_and!; [done..|]. by apply (seg_match_lits ["api"; "setup"]).
  - right; left. split_and!; [done..|]. by apply (seg_match_lits ["api"; "setup"]).
  - right; right. split_and!; [done..|]. by apply (seg_match_lits ["api"; "auth"; "login"]).
Qed.

Lemma any_match path n :
  match_path (routes_for labelled "") path = Some n →
  target n = admin ∨ target n = ui ∨
  target n = authed ∧ (admin_path path = true → path = ["api"; "config"]).
Proof.
  intros Hn. pose proof Hn as (r&Hr&Ht&_)%match_path_sound.
  destruct (admin_path path && bool_decide (path ≠ ["api"; "config"])) eqn:Hp.
  - bool_clean. destruct (admin_path_match path) as (n'&Hn'&Ht'); [done..|]. simplify_eq. by left.
  - rewrite any_method_routes, !elem_of_cons, elem_of_nil in Hr. rewrite Ht.
    destruct_or!; subst; simpl; auto. right; right. split; [done|]. intros Ha.
    rewrite Ha in Hp. simpl in Hp. apply bool_decide_eq_false in Hp.
    by destruct (decide (path = ["api"; "config"])).
Qed.

Lemma labelled_answers method path n :
  mux_match labelled method path = Some n → answers method path (target n).
Proof.
  unfold mux_match, answers. destruct (decide (method = "")) as [->|Hm].
  - intros [H|[H|H]%or_else_inv]%or_else_inv; [|done|]; apply any_match in H; tauto.
  - intros [H|[H|H]%or_else_inv]%or_else_inv.
    + apply method_match in H; tauto.
    + case_bool_decide; [|done]. apply method_match in H; [|done].
      destruct H as [[-> _]|[(_&[=]&_)|(_&[=]&_)]]. tauto.
    + apply any_match in H; tauto.
Qed.
End shape.
