(* ===== verification/AuthFacts.v ===== *)
(** * What the authentication service guarantees

    Theorems about [Users] and [Auth]: the invariants every schedule of the
    handlers keeps, the life of a session, what the middleware lets through,
    the protection of the last administrator and of the first-run setup, and
    where that protection ends. *)

From S2P Require Import Prelude GoLang Config Effects Pool Store Users Sha256 Auth Routes.

#[local] Open Scope syncer_scope.

Section facts.
Context {order : RowOrder}.
Variable driver_error : DBType → string → option error.
Variable fault : nat → option error.
Variables clock db_clock : nat → Z.
Variable bcrypt : nat → string → result string.
Variable random : nat → nat → result (list N).
Abbreviation handle := (user_handle driver_error fault clock db_clock bcrypt random).
Abbreviation run_app := (run handle).

(** The seconds the next reading of the clock gives. *)
Definition now_of (w : app) : Z := Unix (clock (ticks (base w))).

Definition same_tables (w w' : app) : Prop :=
  users w' = users w ∧ next_user w' = next_user w ∧ sessions w' = sessions w ∧
  next_session w' = next_session w ∧ app_settings (base w') = app_settings (base w) ∧
  dbType (base w') = dbType (base w) ∧ reloads w' = reloads w.

#[local] Instance same_tables_preorder : PreOrder same_tables.
Proof. split; [done|]. intros w1 w2 w3. unfold same_tables. intuition congruence. Qed.

(** The world after a statement that reads, and after reading the clock. *)
Definition counted_app (w : app) : app := with_base w (counted (base w)).
Definition ticked_app (w : app) : app := with_base w (ticked (base w)).

Lemma same_counted w : same_tables w (counted_app w).
Proof. done. Qed.
Lemma same_ticked w : same_tables w (ticked_app w).
Proof. done. Qed.
Lemma same_drawn w : same_tables w (drawn w).
Proof. done. Qed.

(** A statement that only reads. *)
Lemma uquery_reads {A} w ph (a : A) :
  (∃ err, uquery driver_error fault w ph (inl a, w) = (inr err, counted_app w)) ∨
  uquery driver_error fault w ph (inl a, w) = (inl a, counted_app w).
Proof. unfold uquery. case_match; [left; by eexists|by right]. Qed.

Lemma run_now {A} (k : Z → prog UserE A) w :
  run_app (Call (Base Now) k) w = run_app (k (clock (ticks (base w)))) (ticked_app w).
Proof. done. Qed.

Lemma run_call_eq {X A} (e : UserE X) (k : X → prog UserE A) w x w' :
  handle X e w = (x, w') → run_app (Call e k) w = run_app (k x) w'.
Proof. intros H. cbn [run]. by rewrite H. Qed.

Lemma run_bind_eq {A B} (p : prog UserE A) (f : A → prog UserE B) w a w' :
  run_app p w = (a, w') → run_app (bind p f) w = run_app (f a) w'.
Proof. intros H. by rewrite run_bind, H. Qed.

(** ** Reading the tables *)

Lemma run_GetUserByUsername t name w :
  ∃ r, run_app (GetUserByUsername t name) w = (r, counted_app w) ∧
       (r = inl (List.find (has_name name) (users w)) ∨ ∃ err, r = inr err).
Proof.
  unfold GetUserByUsername. cbn [bind call run user_handle].
  destruct (uquery_reads w (placeholder t 1) (List.find (has_name name) (users w)))
    as [[err ->]| ->]; cbn; eauto.
Qed.

Lemma run_GetUserByID t id w :
  ∃ r, run_app (GetUserByID t id) w = (r, counted_app w) ∧
       (r = inl (List.find (has_id id) (users w)) ∨ ∃ err, r = inr err).
Proof.
  unfold GetUserByID. cbn [bind call run user_handle].
  destruct (uquery_reads w (placeholder t 1) (List.find (has_id id) (users w)))
    as [[err ->]| ->]; cbn; eauto.
Qed.

Lemma run_ListUsers w :
  ∃ r, run_app ListUsers w = (r, counted_app w) ∧
       (r = inl (map (with_hash "") (earliest_first (users w))) ∨ ∃ err, r = inr err).
Proof.
  unfold ListUsers. cbn [bind call run user_handle].
  destruct (uquery_reads w "" (map (with_hash "") (earliest_first (users w))))
    as [[err ->]| ->]; cbn; eauto.
Qed.

Definition live (now : Z) (token : string) (s : Session) : bool :=
  has_token token s && (now <? ExpiresAt s)%Z.

Lemma run_GetSessionByToken t token w :
  ∃ r, run_app (GetSessionByToken t token) w = (r, counted_app (ticked_app w)) ∧
       (r = inl (List.find (live (now_of w) token) (sessions w)) ∨ ∃ err, r = inr err).
Proof.
  unfold GetSessionByToken. cbn [bind call]. rewrite run_now. cbn [run user_handle].
  destruct (uquery_reads (ticked_app w) (placeholder t 1)
    (List.find (live (now_of w) token) (sessions w))) as [[err Hq]|Hq];
    unfold live, now_of in *; cbn [ticked_app with_base sessions] in *; rewrite Hq; cbn; eauto.
Qed.

(** The session of a user that exists, at the time of the request. *)
Definition authenticated (w : app) (token : string) (u : User) : Prop :=
  ∃ s, s ∈ sessions w ∧ Token s = token ∧ (now_of w < ExpiresAt s)%Z ∧
       u ∈ users w ∧ u_ID u = s_UserID s.

Lemma run_ValidateSession t token w :
  ∃ r w', run_app (ValidateSession t token) w = (r, w') ∧ same_tables w w' ∧
          (∀ u, r = inl (Some u) → authenticated w token u).
Proof.
  unfold ValidateSession.
  destruct (run_GetSessionByToken t token w) as (r&Hr&Hcase).
  erewrite run_bind_eq by done.
  destruct Hcase as [->|[err ->]]; [|by do 2 eexists].
  destruct (List.find (live (now_of w) token) (sessions w)) as [s|] eqn:Hs;
    [|by do 2 eexists].
  destruct (run_GetUserByID t (s_UserID s) (counted_app (ticked_app w))) as (r2&Hr2&Hcase2).
  erewrite run_bind_eq by done. cbn [run]. do 2 eexists. split; [done|]. split; [done|].
  intros u. destruct Hcase2 as [->|[err ->]]; [|done]. cbn [wrap]. intros [= Hu].
  apply find_elem in Hu as [Hu Hid]. apply find_elem in Hs as [Hs Hl].
  unfold live, has_token in Hl. unfold has_id in Hid. bool_clean.
  by exists s.
Qed.

(** ** What the middleware lets through *)

Lemma RequireAuth_run t next r w :
  (∃ w', run_app (RequireAuth t next r) w = (Some unauthorized, w') ∧ same_tables w w') ∨
  (∃ u w', authenticated w (extractToken r) u ∧ extractToken r ≠ "" ∧ same_tables w w' ∧
           run_app (RequireAuth t next r) w = run_app (next (with_user r u)) w').
Proof.
  unfold RequireAuth. case_bool_decide as Htok; [left; by exists w|].
  destruct (run_ValidateSession t (extractToken r) w) as (x&w'&Hx&Hw&Hu).
  erewrite run_bind_eq by done.
  destruct x as [[u|]|err]; [right|left; by exists w'..].
  exists u, w'. split_and!; auto.
Qed.

Lemma RequireAdmin_run next r w :
  run_app (RequireAdmin next r) w = (Some forbidden, w) ∨
  (∃ u, ctx_user r = Some u ∧ Role u = RoleAdmin ∧
        run_app (RequireAdmin next r) w = run_app (next r) w).
Proof.
  unfold RequireAdmin. destruct (ctx_user r) as [u|] eqn:Hu; [|by left].
  unfold is_admin. case_bool_decide; [right|by left]. by exists u.
Qed.

(** An admin's session let the request through, or nothing happened. *)
Lemma guarded_run t next r w :
  (∃ u w', authenticated w (extractToken r) u ∧ extractToken r ≠ "" ∧ Role u = RoleAdmin ∧
     same_tables w w' ∧
     run_app (RequireAuth t (RequireAdmin next) r) w = run_app (next (with_user r u)) w') ∨
  (∃ resp w', run_app (RequireAuth t (RequireAdmin next) r) w = (Some resp, w') ∧
     same_tables w w' ∧ (resp = unauthorized ∨ resp = forbidden)).
Proof.
  destruct (RequireAuth_run t (RequireAdmin next) r w)
    as [(w'&->&Hw)|(u&w'&Hu&Htok&Hw&->)]; [right; naive_solver|].
  destruct (RequireAdmin_run next (with_user r u) w') as [->|(u'&Hu'&Hr&->)];
    [right; naive_solver|].
  left. simplify_eq/=. exists u', w'. split_and!; done.
Qed.
End facts.

(** ** Without failing statements *)

(** The one row of a unique column. *)
Lemma find_unique {A B} (f : A → B) (p : A → bool) (l : list A) x :
  NoDup (map f l) → x ∈ l → p x = true → (∀ y, p y = true → f y = f x) →
  List.find p l = Some x.
Proof.
  intros Hl Hx Hp Hy. induction l as [|y l IH]; [by apply not_elem_of_nil in Hx|].
  simpl in *. apply NoDup_cons in Hl as [Hny Hl]. apply elem_of_cons in Hx as [->|Hx].
  - by rewrite Hp.
  - destruct (p y) eqn:Hpy; [|auto]. exfalso. apply Hny. rewrite (Hy y Hpy).
    apply list_elem_of_fmap. by exists x.
Qed.

Lemma find_none {A} (p : A → bool) (l : list A) :
  (∀ x, x ∈ l → p x = false) → List.find p l = None.
Proof.
  intros H. destruct (List.find p l) eqn:Hf; [|done].
  apply find_elem in Hf as [Hin Hp]. by rewrite H in Hp.
Qed.

Lemma unique_row {A B} (f : A → B) (l : list A) x y :
  NoDup (map f l) → x ∈ l → y ∈ l → f x = f y → x = y.
Proof.
  intros Hl Hx Hy Hf. apply list_elem_of_lookup in Hx as [i Hi].
  apply list_elem_of_lookup in Hy as [j Hj].
  assert (i = j) as <-; [|congruence].
  eapply NoDup_lookup; [exact Hl|by rewrite list_lookup_fmap, Hi|].
  by rewrite list_lookup_fmap, Hj, Hf.
Qed.

Lemma find_snoc {A} (p : A → bool) (l : list A) x :
  existsb p l = false → p x = true → List.find p (l ++ [x]) = Some x.
Proof.
  intros Hl Hx. induction l as [|y l IH]; simpl in *; [by rewrite Hx|].
  bool_clean. rewrite H. auto.
Qed.

Section reliable.
Context {order : RowOrder}.
Variable driver_error : DBType → string → option error.
Variable fault : nat → option error.
Variables clock db_clock : nat → Z.
Variable bcrypt : nat → string → result string.
Variable random : nat → nat → result (list N).
Variable compare : string → string → option error.
Variable t : DBType.
Hypothesis accepts : ∀ ph, driver_error t ph = None.
Hypothesis faultless : ∀ n, fault n = None.
Abbreviation handle := (user_handle driver_error fault clock db_clock bcrypt random).
Abbreviation run_app := (run handle).
Abbreviation now_of := (now_of clock).

Lemma uquery_ok {A} w ph (f : result A * app) :
  dbType (base w) = t →
  uquery driver_error fault w ph f = (f.1, with_base f.2 (counted (base w))).
Proof. intros Ht. unfold uquery, refused. by rewrite Ht, accepts, faultless. Qed.

Lemma uexec_ok w ph f :
  dbType (base w) = t →
  uexec driver_error fault w ph f = (f.1, with_base f.2 (counted (base w))).
Proof. intros Ht. unfold uexec, refused. by rewrite Ht, accepts, faultless. Qed.

Lemma GetUserByUsername_ok name w :
  dbType (base w) = t →
  run_app (GetUserByUsername t name) w
    = (inl (List.find (has_name name) (users w)), counted_app w).
Proof.
  intros Ht. unfold GetUserByUsername. cbn [bind call run user_handle].
  by rewrite uquery_ok.
Qed.

Lemma GetUserByID_ok id w :
  dbType (base w) = t →
  run_app (GetUserByID t id) w = (inl (List.find (has_id id) (users w)), counted_app w).
Proof.
  intros Ht. unfold GetUserByID. cbn [bind call run user_handle]. by rewrite uquery_ok.
Qed.

Lemma ListUsers_ok w :
  dbType (base w) = t →
  run_app ListUsers w
    = (inl (map (with_hash "") (earliest_first (users w))), counted_app w).
Proof.
  intros Ht. unfold ListUsers. cbn [bind call run user_handle]. by rewrite uquery_ok.
Qed.

Lemma GetSessionByToken_ok token w :
  dbType (base w) = t →
  run_app (GetSessionByToken t token) w
    = (inl (List.find (live (now_of w) token) (sessions w)), counted_app (ticked_app w)).
Proof.
  intros Ht. unfold GetSessionByToken. cbn [bind call]. rewrite run_now.
  cbn [run user_handle]. by rewrite uquery_ok.
Qed.

Lemma ValidateSession_ok token w :
  dbType (base w) = t →
  ∃ w', run_app (ValidateSession t token) w
    = (inl (s ← List.find (live (now_of w) token) (sessions w);
            List.find (has_id (s_UserID s)) (users w)), w') ∧ same_tables w w'.
Proof.
  intros Ht. unfold ValidateSession. erewrite run_bind_eq by (by apply GetSessionByToken_ok).
  destruct (List.find _ (sessions w)) as [s|]; [|by eexists].
  cbn [mbind option_bind].
  erewrite run_bind_eq by (by apply GetUserByID_ok). by eexists.
Qed.

Definition session_row (w : app) (u : User) (token : string) (now created : Z) : Session :=
  {| s_ID := next_session w; s_UserID := u_ID u; Token := token;
     ExpiresAt := Unix (now + sessionTTL); s_CreatedAt := Unix created |}.

Lemma CreateSession_ok id token expiresAt w :
  dbType (base w) = t → existsb (has_id id) (users w) = true →
  ∃ r w', run_app (CreateSession t id token expiresAt) w = (r, w') ∧
    if existsb (has_token token) (sessions w) then (∃ err, r = inr err) ∧ same_tables w w'
    else (∃ s, r = inl s) ∧ users w' = users w ∧
         sessions w' = sessions w ++ [{| s_ID := next_session w; s_UserID := id;
           Token := token; ExpiresAt := expiresAt; s_CreatedAt := now_of w |}].
Proof.
  intros Ht Hid. unfold CreateSession. cbn [bind call]. rewrite run_now.
  cbn [run user_handle]. rewrite uexec_ok by done.
  cbn [ticked_app with_base users sessions next_session]. rewrite Hid, andb_false_r.
  destruct (existsb (has_token token) (sessions w)); cbn; do 2 eexists; (split; [done|]);
    split_and?; [by eexists|done|by eexists|done|done].
Qed.

(** Every branch of [Login]. *)
Lemma Login_cases w name password :
  dbType (base w) = t →
  let '(r, w') := run_app (Login compare t name password) w in
  match List.find (has_name name) (users w) with
  | None => r = inr ErrInvalidCredentials ∧ same_tables w w'
  | Some u =>
      match compare (PasswordHash u) password, random (entropy w) tokenBytes with
      | Some _, _ => r = inr ErrInvalidCredentials ∧ same_tables w w'
      | None, inr _ => (∃ err, r = inr err) ∧ same_tables w w'
      | None, inl b =>
          if existsb (has_token (sha256.hex b)) (sessions w)
          then (∃ err, r = inr err) ∧ same_tables w w'
          else r = inl (sha256.hex b) ∧ users w' = users w ∧
               sessions w' = sessions w ++
                 [session_row w u (sha256.hex b) (clock (ticks (base w)))
                    (clock (S (ticks (base w))))]
      end
  end.
Proof.
  intros Ht. unfold Login. erewrite run_bind_eq by (by apply GetUserByUsername_ok).
  destruct (List.find (has_name name) (users w)) as [u|] eqn:Hu; [|done].
  destruct (compare (PasswordHash u) password); [done|].
  unfold generateToken. cbn [bind call run user_handle].
  change (entropy (counted_app w)) with (entropy w).
  destruct (random (entropy w) tokenBytes) as [b|err]; cbn [bind run];
    [|by split; [eexists|]].
  cbn [user_handle store_handle]. cbn [with_base base].
  match goal with |- context [run _ _ ?w0] => set (w1 := w0) end.
  assert (Hid : existsb (has_id (u_ID u)) (users w1) = true).
  { apply existsb_exists. exists u. apply find_elem in Hu as [Hu _].
    split; [by apply list_elem_of_In|]. apply Z.eqb_refl. }
  destruct (CreateSession_ok (u_ID u) (sha256.hex b)
    (Unix (clock (ticks (base w)) + sessionTTL)) w1 Ht Hid) as (r&w'&Hr&Hcase).
  erewrite run_bind_eq by (exact Hr). change (sessions w1) with (sessions w) in Hcase.
  cbn [run]. destruct (existsb _ (sessions w)).
  - destruct Hcase as [[err ->] Hw]. split; [by eexists|]. exact Hw.
  - by destruct Hcase as ([s ->]&Hu'&Hs').
Qed.

Lemma DeleteSession_ok token w :
  dbType (base w) = t →
  ∃ w', run_app (Logout t token) w = (None, w') ∧ users w' = users w ∧
        sessions w' = List.filter (λ s, negb (has_token token s)) (sessions w) ∧
        dbType (base w') = t.
Proof.
  intros Ht. unfold Logout, DeleteSession. cbn [bind call run user_handle].
  rewrite uexec_ok by done. by eexists.
Qed.

(** A logged-out token is no session's. *)
Lemma live_after_logout now token l :
  List.find (live now token) (List.filter (λ s, negb (has_token token s)) l) = None.
Proof.
  apply find_none. intros s Hs. apply list_elem_of_In, filter_In in Hs as [_ Hs].
  unfold live. apply negb_true_iff in Hs. by rewrite Hs.
Qed.
End reliable.

(** ** The public surface *)

Section surface.
Context {order : RowOrder}.
Variable driver_error : DBType → string → option error.
Variable fault : nat → option error.
Variables clock db_clock : nat → Z.
Variable bcrypt : nat → string → result string.
Variable random : nat → nat → result (list N).
Variable compare : string → string → option error.
Variable t : DBType.
Variables apiHandler configHandler : string → handler.
Variable ServeUI : request → option response.
Abbreviation handle := (user_handle driver_error fault clock db_clock bcrypt random).
Abbreviation run_app := (run handle).
Abbreviation serve := (serve compare t apiHandler configHandler ServeUI).

Lemma run_lift {A} (p : prog StoreE A) w :
  run_app (lift p) w =
    let '(a, s) := run (store_handle driver_error fault clock db_clock) p (base w) in
    (a, with_base w s).
Proof.
  revert w. induction p as [a|X e k IH]; intros w; simpl; [by destruct w|].
  destruct (store_handle driver_error fault clock db_clock X e (base w)) as [x s].
  rewrite IH. simpl.
  by destruct (run (store_handle driver_error fault clock db_clock) (k x) s).
Qed.

Lemma run_IsSetupComplete w :
  ∃ r w', run_app (lift (IsSetupComplete t)) w = (r, w') ∧ same_tables w w' ∧
    (r = inl (bool_decide (app_settings (base w) !! "setup_complete" ≠ None)) ∨
     ∃ err, r = inr err).
Proof.
  rewrite run_lift. unfold IsSetupComplete, GetSetting.
  cbn [bind call run store_handle]. unfold query.
  destruct (refused _ _ _ _) as [err|]; cbn; do 2 eexists; (split; [done|]).
  - split; [done|]. right. by eexists.
  - split; [done|]. left. do 2 f_equal. by destruct (app_settings (base w) !! _).
Qed.

Lemma run_GetSetupStatus r w :
  ∃ resp w', run_app (handle_GetSetupStatus t r) w = (resp, w') ∧ same_tables w w'.
Proof.
  unfold handle_GetSetupStatus. destruct (run_IsSetupComplete w) as (x&w'&Hx&Hw&_).
  erewrite run_bind_eq by done. by do 2 eexists.
Qed.

(** [/api/config] redirects to [/api/config/]. *)
Lemma config_redirects {A} (a1 a2 a3 a4 a5 a6 : A) method :
  exactMatch (mux_match (labelled a1 a2 a3 a4 a5 a6) method ["api"; "config"])
    ["api"; "config"] = false ∧
  exactMatch (mux_match (labelled a1 a2 a3 a4 a5 a6) method ["api"; "config"; ""])
    ["api"; "config"; ""] = true.
Proof.
  set (m := labelled a1 a2 a3 a4 a5 a6).
  assert (Hnone : ∀ method path, method ≠ "" → path ≠ ["api"; "setup"] →
    path ≠ ["api"; "auth"; "login"] → match_path (routes_for m method) path = None).
  { intros me path Hme H1 H2. destruct (match_path (routes_for m me) path) eqn:Hp; [|done].
    apply method_match in Hp as [(_&_&?)|[(_&_&?)|(_&_&?)]]; done. }
  assert (Hany : ∀ path, path ≠ ["api"; "setup"] → path ≠ ["api"; "auth"; "login"] →
    mux_match m method path = match_path (routes_for m "") path).
  { intros path H1 H2. unfold mux_match. rewrite (Hnone "GET" path) by done.
    destruct (decide (method = "")) as [->|Hme]; [|rewrite (Hnone method path) by done];
      case_bool_decide; try done; by destruct (match_path _ path). }
  rewrite !Hany by done. by split.
Qed.

Lemma serve_cases method path r w resp w' :
  run_app (serve method path r) w = (resp, w') →
  same_tables w w' ∨
  ∃ next r', run_app (next r') w = (resp, w') ∧ extractToken r' = extractToken r ∧
    answers (handle_GetSetupStatus t) (handle_CompleteSetup t) (handle_Login compare t)
      (RequireAuth t (RequireAdmin (ServeHTTP (adminMux t configHandler) method path)))
      (RequireAuth t (ServeHTTP (authedAPIMux t apiHandler) method path))
      (λ r, Ret (ServeUI r)) method path next ∧
    (path = ["api"; "config"] → same_tables w w').
Proof.
  unfold Routes.serve, ServeHTTP at 1.
  match goal with |- context [main_mux ?a ?b ?c ?d ?e ?f ?g] =>
    set (m := main_mux a b c d e f g) end.
  destruct (negb _ && _ && _) eqn:Hred.
  { intros [= _ <-]. by left. }
  destruct (mux_match m method path) as [n|] eqn:Hn.
  - intros Hrun. right. eexists _, _. split; [exact Hrun|]. split; [done|].
    split; [by apply labelled_answers|]. intros ->.
    pose proof (config_redirects (handle_GetSetupStatus t) (handle_CompleteSetup t)
      (handle_Login compare t)
      (RequireAuth t (RequireAdmin (ServeHTTP (adminMux t configHandler) method ["api"; "config"])))
      (RequireAuth t (ServeHTTP (authedAPIMux t apiHandler) method ["api"; "config"]))
      (λ r, Ret (ServeUI r)) method) as [H1 H2].
    change (exactMatch (mux_match m method ["api"; "config"]) ["api"; "config"] = false) in H1.
    change (exactMatch (mux_match m method ["api"; "config"; ""]) ["api"; "config"; ""] = true)
      in H2.
    rewrite Hn in H1. cbn [List.app] in Hred. rewrite H1, H2 in Hred. done.
  - intros Hrun. left. destruct (other_method m path); by simplify_eq/=.
Qed.

Lemma public_surface_cases method path r w resp w' :
  run_app (serve method path r) w = (resp, w') →
  same_tables w w' ∨
  (method = "POST" ∧ (path = ["api"; "setup"] ∨ path = ["api"; "auth"; "login"])) ∨
  (∃ u, authenticated clock w (extractToken r) u ∧
        (admin_path path = true → Role u = RoleAdmin)).
Proof.
  intros [H|(next&r'&Hrun&Htok&Hans&Hcfg)]%serve_cases; [by left|].
  destruct Hans as [->|[[-> Hp]|[->|[->|[(_&->&->)|(_&->&->)]]]]].
  - destruct (guarded_run driver_error fault clock db_clock bcrypt random t
      (ServeHTTP (adminMux t configHandler) method path) r' w)
      as [(u&w1&Hu&_&Hr&_)|(resp'&w1&Heq&Hw&_)].
    + right; right. exists u. by rewrite <-Htok.
    + left. rewrite Hrun in Heq. by simplify_eq.
  - destruct (RequireAuth_run driver_error fault clock db_clock bcrypt random t
      (ServeHTTP (authedAPIMux t apiHandler) method path) r' w)
      as [(w1&Heq&Hw)|(u&w1&Hu&_)].
    + left. rewrite Hrun in Heq. by simplify_eq.
    + destruct (admin_path path) eqn:Ha; [left; auto|].
      right; right. exists u. rewrite <-Htok. split; [done|]. done.
  - simplify_eq/=. by left.
  - destruct (run_GetSetupStatus r' w) as (?&?&Heq&Hw). rewrite Hrun in Heq.
    left. by simplify_eq.
  - right; left. auto.
  - right; left. auto.
Qed.
End surface.

(** ** Accounts *)

Section accounts.
Context {order : RowOrder}.
Variable driver_error : DBType → string → option error.
Variable fault : nat → option error.
Variables clock db_clock : nat → Z.
Variable bcrypt : nat → string → result string.
Variable random : nat → nat → result (list N).
Variable t : DBType.
Abbreviation handle := (user_handle driver_error fault clock db_clock bcrypt random).
Abbreviation run_app := (run handle).

(** The hash of a password that was long enough. *)
Definition strong_hash (h : string) : Prop :=
  ∃ n password, (8 ≤ len password)%Z ∧ bcrypt n password = inl h.

Definition account_ok (u : User) : Prop :=
  Username u ≠ "" ∧ valid_role (Role u) = true ∧ strong_hash (PasswordHash u).

Definition accounts_ok (w : app) : Prop := Forall account_ok (users w).

(** The calls that keep it so, and whether they may delete users and take
    away the role of an administrator. *)
Variables deletes demotes : bool.
Definition account_call X (e : UserE X) : Prop :=
  match e with
  | ExecInsertUser _ username hash role _ =>
      username ≠ "" ∧ valid_role role = true ∧ strong_hash hash
  | ExecUpdatePassword _ hash _ _ => strong_hash hash
  | ExecUpdateRole _ role _ _ =>
      valid_role role = true ∧ (demotes = true ∨ role = RoleAdmin)
  | ExecDeleteUserRow _ _ => deletes = true
  | _ => True
  end.

(** A handler of runtime or configuration endpoints has no call to the user tables. *)
Definition other_call X (e : UserE X) : Prop :=
  match e with Base _ | Reload => True | _ => False end.

Lemma account_call_keeps X (e : UserE X) w :
  account_call X e → accounts_ok w → accounts_ok (handle X e w).2.
Proof.
  unfold accounts_ok. intros He Hw. destruct e; simpl in *;
    try (match goal with
         | |- context [uexec _ _ ?w ?ph ?f] =>
             destruct (uexec_cases driver_error fault w ph f) as [[? ->]| ->]
         | |- context [uquery _ _ ?w ?ph ?f] =>
             destruct (uquery_cases driver_error fault w ph f) as [[? ->]| ->]
         end; simpl; [done|try done]).
  - by destruct (store_handle _ _ _ _ _ e (base w)).
  - case_match; simpl; [done|]. apply Forall_app. split; [done|].
    by apply Forall_singleton.
  - apply Forall_map_update; [|done]. intros u (?&?&?). by split_and!.
  - destruct He. apply Forall_map_update; [|done]. intros u (?&?&?). by split_and!.
  - by case_match; apply Forall_List_filter.
  - repeat case_match; done.
  - done.
  - done.
  - done.

Qed.

Abbreviation ok := (calls handle account_call).

Lemma ok_bind {A B} (p : prog UserE A) (f : A → prog UserE B) :
  ok p → (∀ a, ok (f a)) → ok (bind p f).
Proof. apply calls_bind. Qed.

Lemma lift_ok {A} (p : prog StoreE A) : ok (lift p).
Proof. induction p as [a|X e k IH]; simpl; [done|]. split; [done|]. intros w. apply IH. Qed.

Create HintDb account_calls.
Ltac account_step :=
  match goal with
  | |- _ ∧ _ => split
  | |- forall _, _ => intro
  | |- True => exact I
  | |- calls _ _ (bind (lift _) _) => apply ok_bind; [apply lift_ok|]
  | |- calls _ _ (bind (call _) _) => cbn [call bind]
  | |- calls _ _ (bind _ _) => apply ok_bind
  | |- calls _ _ (respond _) => exact I
  | |- calls _ _ (Ret _) => exact I
  | |- calls _ _ (Call _ _) => cbn [calls]
  | |- calls _ _ (lift _) => apply lift_ok
  | |- calls _ _ (if ?b then _ else _) => destruct b eqn:?
  | |- calls _ _ (match ?x with _ => _ end) => destruct x eqn:?
  | |- calls _ _ _ => progress (eauto with account_calls)
  | |- _ => progress cbn [account_call]
  end.
Ltac account_calls := repeat account_step; try done.

Lemma GetUserByUsername_calls name : ok (GetUserByUsername t name).
Proof. unfold GetUserByUsername. account_calls. Qed.
Lemma GetUserByID_calls id : ok (GetUserByID t id).
Proof. unfold GetUserByID. account_calls. Qed.
Lemma ListUsers_calls : ok ListUsers.
Proof. unfold ListUsers. account_calls. Qed.
#[local] Hint Resolve GetUserByUsername_calls GetUserByID_calls ListUsers_calls : account_calls.

Lemma CreateUser_calls name hash role :
  name ≠ "" → valid_role role = true → strong_hash hash → ok (CreateUser t name hash role).
Proof. intros. unfold CreateUser. account_calls. Qed.

Lemma generated_strong password w h :
  (8 ≤ len password)%Z → (handle _ (GenerateFromPassword password) w).1 = inl h → strong_hash h.
Proof. intros Hp Hh. by exists (entropy w), password. Qed.

Lemma SetupAdmin_calls name password :
  name ≠ "" → (8 ≤ len password)%Z → ok (SetupAdmin t name password).
Proof.
  intros Hn Hp. unfold SetupAdmin. account_calls. apply CreateUser_calls; [done..|].
  by eapply generated_strong.
Qed.

Lemma Service_CreateUser_calls name password role :
  name ≠ "" → (8 ≤ len password)%Z → valid_role role = true →
  ok (Service_CreateUser t name password role).
Proof.
  intros Hn Hp Hr. unfold Service_CreateUser. account_calls.
  apply CreateUser_calls; [done..|]. by eapply generated_strong.
Qed.

Lemma ChangePassword_calls id password :
  (8 ≤ len password)%Z → ok (ChangePassword t id password).
Proof.
  intros Hp. unfold ChangePassword, UpdateUserPassword. account_calls. by eapply generated_strong.
Qed.

Lemma ValidateSession_calls token : ok (ValidateSession t token).
Proof. unfold ValidateSession, GetSessionByToken. account_calls. Qed.

Lemma Service_DeleteUser_calls id : deletes = true → ok (Service_DeleteUser t id).
Proof. intros Hd. unfold Service_DeleteUser, DeleteUser. account_calls. Qed.
#[local] Hint Resolve ValidateSession_calls Service_DeleteUser_calls : account_calls.

Ltac lengths := repeat match goal with
  | H : (_ || _) = false |- _ => apply orb_false_iff in H as [? ?]
  | H : bool_decide _ = false |- _ => apply bool_decide_eq_false in H
  | H : (_ <? _)%Z = false |- _ => apply Z.ltb_ge in H
  | H : negb _ = false |- _ => apply negb_false_iff in H
  end.

Lemma handle_Logout_calls r : ok (handle_Logout t r).
Proof. unfold handle_Logout, Logout, DeleteSession. account_calls. Qed.
Lemma handle_Me_calls r : ok (handle_Me r).
Proof. done. Qed.
Lemma handle_ListUsers_calls r : ok (handle_ListUsers r).
Proof. unfold handle_ListUsers, Service_ListUsers. account_calls. Qed.
Lemma handle_CreateUser_calls r : ok (handle_CreateUser t r).
Proof.
  unfold handle_CreateUser. account_calls. lengths. by apply Service_CreateUser_calls.
Qed.
Lemma update_role_calls id role :
  demotes = true ∨ role ≠ RoleUser → ok (update_role t id role).
Proof.
  intros Hd. unfold update_role, ChangeRole, UpdateUserRole. account_calls; lengths; [done|].
  destruct Hd as [|Hd]; [by left|right].
  match goal with H : valid_role _ = true |- _ =>
    apply orb_true_iff in H as [?|?]; bool_clean; done end.
Qed.
Lemma handle_UpdateUser_calls r :
  demotes = true ∨ (∀ req, body_members r = inl req → member "role" req ≠ RoleUser) →
  ok (handle_UpdateUser t r).
Proof.
  intros Hd. unfold handle_UpdateUser.
  account_calls; try apply update_role_calls; try (destruct Hd; naive_solver).
  lengths. by apply ChangePassword_calls.
Qed.
Lemma handle_DeleteUserAccount_calls r :
  deletes = true → ok (handle_DeleteUserAccount t r).
Proof. intros Hd. unfold handle_DeleteUserAccount. account_calls. Qed.
Lemma handle_GetSetupStatus_calls r : ok (handle_GetSetupStatus t r).
Proof. unfold handle_GetSetupStatus. account_calls. Qed.
Lemma handle_CompleteSetup_calls r : ok (handle_CompleteSetup t r).
Proof.
  unfold handle_CompleteSetup. account_calls. lengths. by apply SetupAdmin_calls.
Qed.

Variable compare : string → string → option error.

Lemma Login_calls name password : ok (Login compare t name password).
Proof. unfold Login, generateToken, CreateSession. account_calls. Qed.

Lemma handle_Login_calls r : ok (handle_Login compare t r).
Proof. unfold handle_Login. account_calls. apply Login_calls. Qed.

Definition handler_ok (next : handler) : Prop := ∀ r, ok (next r).

Lemma RequireAuth_calls next : handler_ok next → handler_ok (RequireAuth t next).
Proof. intros Hn r. unfold RequireAuth. account_calls. Qed.

Lemma RequireAdmin_calls next : handler_ok next → handler_ok (RequireAdmin next).
Proof. intros Hn r. unfold RequireAdmin. account_calls. Qed.

(** Whatever a mux dispatches to is one of its handlers. *)
Lemma mux_match_elem {A} (m : mux A) method path n :
  mux_match m method path = Some n → ∃ s, (s, target n) ∈ m.
Proof.
  assert (H : ∀ me, match_path (routes_for m me) path = Some n → ∃ s, (s, target n) ∈ m).
  { intros me (r&Hr&->&_)%match_path_sound. apply routes_for_elem in Hr as (s&a&?&_&->).
    by exists s. }
  unfold mux_match. intros [Hn|[Hn|Hn]%or_else_inv]%or_else_inv; eauto.
  case_bool_decide; [eauto|done].
Qed.

Lemma ServeHTTP_calls m method path :
  Forall (λ e, handler_ok e.2) m → handler_ok (ServeHTTP m method path).
Proof.
  intros Hm r. unfold ServeHTTP. case_match; [done|].
  destruct (mux_match m method path) as [n|] eqn:Hn; [|by case_match].
  apply mux_match_elem in Hn as [s Hn]. rewrite Forall_forall in Hm. exact (Hm _ Hn _).
Qed.

Variables apiHandler configHandler : string → handler.
Variable ServeUI : request → option response.
Hypothesis api_calls : ∀ name r, calls handle other_call (apiHandler name r).
Hypothesis config_calls : ∀ name r, calls handle other_call (configHandler name r).

Lemma other_ok {A} (p : prog UserE A) : calls handle other_call p → ok p.
Proof. apply calls_mono. by intros X []. Qed.

Lemma serve_calls method path r :
  deletes = true → demotes = true →
  ok (serve compare t apiHandler configHandler ServeUI method path r).
Proof.
  intros Hdel Hdem. revert r. apply ServeHTTP_calls. unfold main_mux.
  assert (Hadmin : handler_ok (ServeHTTP (adminMux t configHandler) method path)).
  { apply ServeHTTP_calls. unfold adminMux. repeat constructor; intros r; cbn [snd];
      auto using other_ok, handle_ListUsers_calls, handle_CreateUser_calls,
        handle_UpdateUser_calls, handle_DeleteUserAccount_calls. }
  assert (Hapi : handler_ok (ServeHTTP (authedAPIMux t apiHandler) method path)).
  { apply ServeHTTP_calls. unfold authedAPIMux. repeat constructor; intros r; cbn [snd];
      auto using other_ok, handle_Logout_calls. }
  repeat (apply Forall_cons; split); [..|done]; cbn [snd].
  - intros r. apply handle_GetSetupStatus_calls.
  - intros r. apply handle_CompleteSetup_calls.
  - intros r. apply handle_Login_calls.
  - by apply RequireAuth_calls, RequireAdmin_calls.
  - by apply RequireAuth_calls, RequireAdmin_calls.
  - by apply RequireAuth_calls, RequireAdmin_calls.
  - by apply RequireAuth_calls.
  - done.
Qed.
End accounts.

(** ** Administrators *)

Section admins.
Context {order : RowOrder} {laws : RowOrderLaws}.
Variable driver_error : DBType → string → option error.
Variable fault : nat → option error.
Variables clock db_clock : nat → Z.
Variable bcrypt : nat → string → result string.
Variable random : nat → nat → result (list N).
Variable compare : string → string → option error.
Variable t : DBType.
Abbreviation handle := (user_handle driver_error fault clock db_clock bcrypt random).
Abbreviation run_app := (run handle).

Definition admins (w : app) : nat := admin_count (users w).

Lemma admin_count_app l k : admin_count (l ++ k) = admin_count l + admin_count k.
Proof. unfold admin_count. by rewrite List.filter_app, length_app. Qed.

Lemma admin_count_perm l k : l ≡ₚ k → admin_count l = admin_count k.
Proof.
  induction 1; unfold admin_count in *; simpl; repeat case_match; simpl; lia.
Qed.

Lemma admin_count_map f l :
  (∀ u, is_admin (f u) = is_admin u) → admin_count (map f l) = admin_count l.
Proof.
  intros Hf. unfold admin_count. induction l as [|u l IH]; simpl; [done|].
  rewrite Hf. case_match; simpl; auto.
Qed.

Lemma admin_count_promote id f l :
  (∀ u, is_admin u = true → is_admin (f u) = true) →
  admin_count l ≤ admin_count (map (update_user id f) l).
Proof.
  intros Hf. unfold admin_count. induction l as [|u l IH]; simpl; [done|].
  unfold update_user at 1. destruct (has_id id u).
  - destruct (is_admin u) eqn:Hu; [rewrite Hf by done; simpl; lia|].
    case_match; simpl; lia.
  - case_match; simpl; lia.
Qed.

(** Deleting the row of an id loses at most that one. *)
Lemma admin_count_delete id l :
  NoDup (map u_ID l) →
  admin_count l ≤ S (admin_count (List.filter (λ u, negb (has_id id u)) l)).
Proof.
  unfold admin_count. induction l as [|u l IH]; simpl; [lia|].
  rewrite NoDup_cons. intros [Hu Hl]. specialize (IH Hl).
  destruct (has_id id u) eqn:Hid; simpl; [|destruct (is_admin u); simpl; lia].
  assert (Hsame : List.filter (λ u, negb (has_id id u)) l = l).
  { clear IH Hl. unfold has_id in *. bool_clean. induction l as [|v l IH]; simpl; [done|].
    simpl in Hu. apply not_elem_of_cons in Hu as [Hv Hu].
    destruct (Z.eqb_spec (u_ID v) id); simpl; [congruence|]. by rewrite IH. }
  rewrite Hsame. destruct (is_admin u); simpl; lia.
Qed.

Lemma admin_count_delete_other id l :
  NoDup (map u_ID l) → (∀ u, u ∈ l → has_id id u = true → is_admin u = false) →
  admin_count (List.filter (λ u, negb (has_id id u)) l) = admin_count l.
Proof.
  unfold admin_count. intros _ Hu. induction l as [|u l IH]; simpl; [done|].
  assert (IH' := IH (λ v Hv, Hu v (list_elem_of_further v u l Hv))). clear IH.
  destruct (has_id id u) eqn:Hid; simpl.
  - by rewrite (Hu u (list_elem_of_here _ _) Hid).
  - case_match; simpl; auto.
Qed.

Abbreviation admin_call := (account_call bcrypt false false).

(** The calls that neither delete nor demote lose no administrator. *)
Lemma admin_call_keeps X (e : UserE X) w n :
  admin_call X e → n ≤ admins w → n ≤ admins (handle X e w).2.
Proof.
  unfold admins. intros He Hw. destruct e; simpl in *;
    try (match goal with
         | |- context [uexec _ _ ?w ?ph ?f] =>
             destruct (uexec_cases driver_error fault w ph f) as [[? ->]| ->]
         | |- context [uquery _ _ ?w ?ph ?f] =>
             destruct (uquery_cases driver_error fault w ph f) as [[? ->]| ->]
         end; simpl; [done|]); try done.
  - by destruct (store_handle _ _ _ _ _ e (base w)).
  - case_match; simpl; [done|]. rewrite admin_count_app. lia.
  - etrans; [done|]. by apply admin_count_promote.
  - destruct He as [_ [| ->]]; [done|]. etrans; [done|]. apply admin_count_promote. intros u _.
    by apply bool_decide_eq_true_2.
  - repeat case_match; done.
Qed.

Lemma run_store_DeleteUser id w :
  ∃ r w', run_app (DeleteUser t id) w = (r, w') ∧
    (users w' = users w ∨ users w' = List.filter (λ u, negb (has_id id u)) (users w)).
Proof.
  unfold DeleteUser. cbn [bind call run user_handle].
  match goal with |- context [uexec _ _ ?w ?ph ?f] =>
    destruct (uexec_cases driver_error fault w ph f) as [[err ->]| ->] end;
    cbn; [do 2 eexists; eauto|].
  match goal with |- context [uexec _ _ ?w ?ph ?f] =>
    destruct (uexec_cases driver_error fault w ph f) as [[err ->]| ->] end;
    cbn; do 2 eexists; (split; [done|]); [by left|right]. by case_match.
Qed.

(** [DeleteUser] of the service never removes the last administrator. *)
Lemma Service_DeleteUser_admins id w :
  users_ok w → 1 ≤ admins w → 1 ≤ admins (run_app (Service_DeleteUser t id) w).2.
Proof.
  intros Hok Hw. unfold Service_DeleteUser, admins.
  destruct (run_GetUserByID driver_error fault clock db_clock bcrypt random t id w)
    as (r&Hr&Hcase).
  erewrite run_bind_eq by done.
  destruct Hcase as [->|[err ->]]; [|done].
  destruct (List.find (has_id id) (users w)) as [u|] eqn:Hu; [|done].
  pose proof (find_elem _ _ _ Hu) as [Hin Hid].
  destruct (is_admin u) eqn:Ha.
  - destruct (run_ListUsers driver_error fault clock db_clock bcrypt random (counted_app w))
      as (r2&Hr2&Hcase2).
    erewrite run_bind_eq by done. destruct Hcase2 as [->|[err ->]]; [|done].
    change (users (counted_app w)) with (users w).
    unfold earliest_first.
    rewrite (admin_count_map (with_hash "")) by done.
    rewrite (admin_count_perm (sort_rows u_CreatedAt (users w)) (users w)) by apply sort_rows_perm.
    destruct (Nat.leb_spec (admin_count (users w)) 1); [done|].
    destruct (run_store_DeleteUser id (counted_app (counted_app w))) as (r3&w3&->&Hw3).
    simpl. destruct Hw3 as [->| ->]; [done|]. cbn [counted_app with_base users].
    pose proof (admin_count_delete id (users w) (ok_ids _ Hok)). lia.
  - destruct (run_store_DeleteUser id (counted_app w)) as (r3&w3&->&Hw3).
    simpl. destruct Hw3 as [->| ->]; [done|]. cbn [counted_app with_base users].
    rewrite admin_count_delete_other; [done|apply (ok_ids _ Hok)|].
    intros v Hv Hvid. assert (Hf : List.find (has_id id) (users w) = Some v).
    { apply (find_unique u_ID); [apply (ok_ids _ Hok)|done..|]. intros y Hy.
      unfold has_id in *. bool_clean. congruence. }
    by simplify_eq.
Qed.
End admins.

(** ** First-run setup *)

Section setup.
Context {order : RowOrder}.
Variable driver_error : DBType → string → option error.
Variable fault : nat → option error.
Variables clock db_clock : nat → Z.
Variable bcrypt : nat → string → result string.
Variable random : nat → nat → result (list N).
Variable t : DBType.
Abbreviation handle := (user_handle driver_error fault clock db_clock bcrypt random).
Abbreviation run_app := (run handle).

Definition setup_done (w : app) : Prop :=
  is_Some (app_settings (base w) !! "setup_complete").

(** Settings are never deleted. *)
Lemma setup_done_keeps X (e : UserE X) w : setup_done w → setup_done (handle X e w).2.
Proof.
  unfold setup_done. intros Hw. destruct e; simpl;
    try (match goal with
         | |- context [uexec _ _ ?w ?ph ?f] =>
             destruct (uexec_cases driver_error fault w ph f) as [[? ->]| ->]
         | |- context [uquery _ _ ?w ?ph ?f] =>
             destruct (uquery_cases driver_error fault w ph f) as [[? ->]| ->]
         end; simpl; [done|]); try done.
  - destruct e; simpl; unfold query, exec;
      try (destruct (refused driver_error fault (base w) ph); [done|]); simpl; try done.
    + by case_bool_decide.
    + by case_match.
    + case_match; simpl; [|done].
      destruct (decide (k = "setup_complete")) as [->|];
        [by rewrite lookup_insert_eq|by rewrite lookup_insert_ne].
    + case_match; simpl; [done|].
      destruct (decide (k = "setup_complete")) as [->|];
        [by rewrite lookup_insert_eq|by rewrite lookup_insert_ne].
Qed.

Lemma calls_any {A} (p : prog UserE A) : calls handle (λ _ _, True) p.
Proof. induction p as [a|X e k IH]; simpl; auto. Qed.

Lemma run_keeps (I : app → Prop) {A} (p : prog UserE A) w :
  (∀ X (e : UserE X) w, I w → I (handle X e w).2) → I w → I (run_app p w).2.
Proof. intros HI. apply (calls_run handle (λ _ _, True)); [auto|]. apply calls_any. Qed.

(** A setting whose write succeeded is there. *)
Lemma run_MarkSetupComplete w :
  (run_app (lift (MarkSetupComplete t)) w).1 = None →
  setup_done (run_app (lift (MarkSetupComplete t)) w).2.
Proof.
  rewrite run_lift. unfold setup_done, MarkSetupComplete, SetSetting.
  cbn [bind call run store_handle]. unfold query, exec.
  destruct (refused _ _ _ _) as [err|]; cbn [bind run fst snd]; [done|].
  destruct (app_settings (ticked (base w)) !! "setup_complete") as [row|] eqn:Hs;
    cbn [Z.eqb bind run fst snd store_handle];
    (destruct (fault (stmts (counted _))) as [err|]; [done|]); cbn [Z.eqb bind run].
  - intros _. cbn. by rewrite lookup_insert_eq.
  - unfold store_handle, exec. destruct (refused _ _ _ _) as [err|]; cbn [bind run fst snd]; [done|].
    cbn [counted with_base base app_settings]. rewrite Hs. cbn. intros _.
    by rewrite lookup_insert_eq.
Qed.

Definition completed (resp : option response) : bool :=
  match resp with Some r => (code r =? 200)%Z | None => false end.

(** Success leaves the mark, and is impossible where the mark is. *)
Lemma CompleteSetup_completed r w :
  completed (run_app (handle_CompleteSetup t r) w).1 = true →
  ¬ setup_done w ∧ setup_done (run_app (handle_CompleteSetup t r) w).2.
Proof.
  unfold handle_CompleteSetup.
  destruct (run_IsSetupComplete driver_error fault clock db_clock bcrypt random t w)
    as (x&w1&Hx&Hw1&Hcase).
  erewrite run_bind_eq by done.
  destruct Hcase as [->|[err ->]]; [|done].
  case_bool_decide as Hset; [done|]. intros H. split.
  { intros [v Hv]. congruence. }
  revert H. destruct (body_members r) as [req|]; [|done].
  destruct (_ || _); [done|]. destruct (_ <? _)%Z; [done|].
  rewrite run_bind. destruct (run_app (SetupAdmin _ _ _) w1) as [[err|] w2].
  { cbn [run respond]. by case_match. }
  rewrite run_bind. pose proof (run_MarkSetupComplete w2) as Hmark.
  destruct (run_app (lift (MarkSetupComplete t)) w2) as [[err|] w3]; [done|].
  intros _. cbn. by apply Hmark.
Qed.

Lemma setup_once_aux reqs w rs w' :
  run_jobs handle (map (handle_CompleteSetup t) reqs) w = (rs, w') →
  length (List.filter completed rs) ≤ 1 ∧
  (setup_done w → List.filter completed rs = []).
Proof.
  revert w rs. induction reqs as [|r reqs IH]; intros w rs; cbn [map run_jobs].
  { intros Hj. simplify_eq. simpl. split; [lia|done]. }
  pose proof (CompleteSetup_completed r w) as Hc.
  pose proof (run_keeps setup_done (handle_CompleteSetup t r) w setup_done_keeps) as Hk.
  destruct (run_app (handle_CompleteSetup t r) w) as [resp w1].
  destruct (run_jobs handle (map (handle_CompleteSetup t) reqs) w1) as [rs1 w2] eqn:Hrs.
  intros Hj. simplify_eq. specialize (IH _ _ Hrs) as [IH1 IH2]. cbn [List.filter fst snd] in *.
  destruct (completed resp) eqn:Hr; [|auto].
  destruct (Hc eq_refl) as [Hn Hd]. simpl. rewrite (IH2 Hd). simpl. split; [lia|done].
Qed.
End setup.

(** ** Endpoints *)

Inductive endpoint :=
| EpLogin | EpLogout | EpMe | EpListUsers | EpCreateUser | EpUpdateUser | EpDeleteUser
| EpSetupStatus | EpCompleteSetup.

Definition endpoint_handler (compare : string → string → option error) (t : DBType)
    (ep : endpoint) : handler :=
  match ep with
  | EpLogin => handle_Login compare t
  | EpLogout => handle_Logout t
  | EpMe => handle_Me
  | EpListUsers => handle_ListUsers
  | EpCreateUser => handle_CreateUser t
  | EpUpdateUser => handle_UpdateUser t
  | EpDeleteUser => handle_DeleteUserAccount t
  | EpSetupStatus => handle_GetSetupStatus t
  | EpCompleteSetup => handle_CompleteSetup t
  end.

(** The request asks for the role [user]. *)
Definition asks_user_role (r : request) : bool :=
  match body_members r with
  | inl req => bool_decide (member "role" req = RoleUser)
  | inr _ => false
  end.
Definition demotion (e : endpoint * request) : bool :=
  match e.1 with EpUpdateUser => asks_user_role e.2 | _ => false end.

Section endpoints.
Context {order : RowOrder} {laws : RowOrderLaws}.
Variable driver_error : DBType → string → option error.
Variable fault : nat → option error.
Variables clock db_clock : nat → Z.
Variable bcrypt : nat → string → result string.
Variable random : nat → nat → result (list N).
Variable compare : string → string → option error.
Variable t : DBType.
Abbreviation handle := (user_handle driver_error fault clock db_clock bcrypt random).
Abbreviation run_app := (run handle).
Abbreviation answer := (λ e : endpoint * request, endpoint_handler compare t e.1 e.2).

Lemma DeleteUserAccount_admins r w :
  users_ok w → 1 ≤ admins w → 1 ≤ admins (run_app (handle_DeleteUserAccount t r) w).2.
Proof.
  intros Hok Hw. unfold handle_DeleteUserAccount.
  destruct (parseUserID r) as [id|]; [|done].
  destruct (match ctx_user r with Some _ => _ | None => _ end); [done|].
  rewrite run_bind.
  pose proof (Service_DeleteUser_admins driver_error fault clock db_clock bcrypt random t id w
    Hok Hw) as H.
  by destruct (run_app (Service_DeleteUser t id) w) as [err w'].
Qed.

Lemma endpoint_admins e w :
  demotion e = false → users_ok w → 1 ≤ admins w → 1 ≤ admins (run_app (answer e) w).2.
Proof.
  intros Hd Hok Hw. destruct e as [ep r].
  assert (Hcalls : ∀ p : prog UserE (option response),
    calls handle (account_call bcrypt false false) p → 1 ≤ admins (run_app p w).2).
  { intros p Hp. eapply (calls_run handle (account_call bcrypt false false)
      (λ w, 1 ≤ admins w)); [|done..]. intros. by apply (admin_call_keeps driver_error fault clock db_clock bcrypt random). }
  destruct ep; cbn [fst snd endpoint_handler];
    try (by apply DeleteUserAccount_admins); apply Hcalls.
  - apply handle_Login_calls.
  - apply handle_Logout_calls.
  - apply handle_Me_calls.
  - apply handle_ListUsers_calls.
  - apply handle_CreateUser_calls.
  - apply handle_UpdateUser_calls. right. intros req Hreq.
    unfold demotion, asks_user_role in Hd. simpl in Hd. rewrite Hreq in Hd. by bool_clean.
  - apply handle_GetSetupStatus_calls.
  - apply handle_CompleteSetup_calls.
Qed.

Lemma run_jobs_admins es w rs w' :
  Forall (λ e, demotion e = false) es → users_ok w → 1 ≤ admins w →
  run_jobs handle (map answer es) w = (rs, w') → 1 ≤ admins w'.
Proof.
  intros Hes. revert w rs. induction Hes as [|e es He _ IH]; intros w rs Hok Hw; cbn [map run_jobs].
  { by intros [= _ <-]. }
  pose proof (endpoint_admins e w He Hok Hw) as H1.
  pose proof (run_keeps driver_error fault clock db_clock bcrypt random users_ok (answer e) w
    (user_handle_ok driver_error fault clock db_clock bcrypt random) Hok) as H2.
  destruct (run_app (endpoint_handler compare t e.1 e.2) w) as [resp w1].
  destruct (run_jobs handle (map answer es) w1) as [rs1 w2] eqn:Hj.
  intros [= _ <-]. by apply (IH w1 rs1).
Qed.
End endpoints.

(** ** Properties *)

Section properties.
Context {order : RowOrder} {laws : RowOrderLaws}.
Variable driver_error : DBType → string → option error.
Variable fault : nat → option error.
Variables clock db_clock : nat → Z.
Variable bcrypt : nat → string → result string.
Variable random : nat → nat → result (list N).
Variable compare : string → string → option error.
Variable t : DBType.
Abbreviation handle := (user_handle driver_error fault clock db_clock bcrypt random).
Abbreviation run_app := (run handle).

Section server.
Variables apiHandler configHandler : string → handler.
Variable ServeUI : request → option response.
Abbreviation serve := (serve compare t apiHandler configHandler ServeUI).

(** C10: whatever request the server gets, the user tables, the sessions and
    the settings are as before unless the request is POST /api/setup or POST
    /api/auth/login, or carries the token of an unexpired session of a user
    that exists; below /api/users and /api/config that user is an
    administrator.  Statements may fail at will, and nothing is assumed of
    the runtime and configuration handlers. *)
Theorem public_surface method path r w resp w' :
  run_app (serve method path r) w = (resp, w') →
  same_tables w w' ∨
  (method = "POST" ∧ (path = ["api"; "setup"] ∨ path = ["api"; "auth"; "login"])) ∨
  (∃ u, authenticated clock w (extractToken r) u ∧
        (admin_path path = true → Role u = RoleAdmin)).
Proof. apply public_surface_cases. Qed.

(** C11: from an empty database, whatever requests run concurrently and
    whichever statements fail: user names, ids and tokens stay unique,
    sessions belong to users (where the schema has the foreign key), every
    user has a name and one of the two roles, and every stored hash is that
    of a password of at least eight bytes. *)
Theorem accounts_invariant limit requests s pool w' :
  (∀ name r, calls handle other_call (apiHandler name r)) →
  (∀ name r, calls handle other_call (configHandler name r)) →
  rtc (pool_step handle limit)
    (spawn (map (λ q, serve q.1.1 q.1.2 q.2) requests), empty_app s) (pool, w') →
  users_ok w' ∧ accounts_ok bcrypt w'.
Proof.
  intros Hapi Hcfg Hs.
  apply (pool_calls handle limit (account_call bcrypt true true)
    (λ w, users_ok w ∧ accounts_ok bcrypt w) _ _ (pool, w')) in Hs; [done|..].
  - intros X e w He [Hok Hacc]. split; [by apply user_handle_ok|].
    by eapply account_call_keeps.
  - apply Forall_map, Forall_true. intros [[method path] r]. by apply serve_calls.
  - split; [apply empty_app_ok|constructor].
Qed.
End server.

(** C12: a successful login found a user whose hash accepts the password, and
    as long as that user and the new session's row are in the tables, however
    many statements later, the token validates to the user exactly until 24
    hours after the login, and never after a logout. *)
Theorem session_lifetime w name password token w1 :
  (∀ ph, driver_error t ph = None) → (∀ n, fault n = None) →
  dbType (base w) = t →
  run_app (Login compare t name password) w = (inl token, w1) →
  ∃ u, u ∈ users w ∧ Username u = name ∧ compare (PasswordHash u) password = None ∧
    ∀ w2, dbType (base w2) = t → users_ok w2 → u ∈ users w2 →
      (∀ s, s ∈ sessions w1 → Token s = token → s ∈ sessions w2) →
      (run_app (ValidateSession t token) w2).1
        = inl (if (now_of clock w2 <? Unix (clock (ticks (base w)) + sessionTTL))%Z
               then Some u else None) ∧
      (run_app (let* _ := Logout t token in ValidateSession t token) w2).1 = inl None.
Proof.
  intros Hd Hf Ht Hlogin.
  pose proof (Login_cases driver_error fault clock db_clock bcrypt random compare t Hd Hf
    w name password Ht) as H. rewrite Hlogin in H.
  destruct (List.find (has_name name) (users w)) as [u|] eqn:Hu; [|by destruct H].
  apply find_elem in Hu as [Hu Hn]. unfold has_name in Hn. bool_clean.
  destruct (compare (PasswordHash u) password) eqn:Hc; [by destruct H|].
  destruct (random (entropy w) tokenBytes) as [b|]; [|by destruct H as [[? ?] _]].
  destruct (existsb _ _); [by destruct H as [[? ?] _]|]. destruct H as ([= ->]&_&Hs).
  exists u. split_and!; [done..|]. intros w2 Ht2 Hok Hu2 Hrow.
  set (row := session_row w u (sha256.hex b) (clock (ticks (base w)))
    (clock (S (ticks (base w))))) in *.
  assert (Hin : row ∈ sessions w2).
  { apply Hrow; [|done]. rewrite Hs. apply elem_of_app. right. by apply list_elem_of_singleton. }
  assert (Hfind : ∀ s, s ∈ sessions w2 → Token s = Token row → s = row).
  { intros s Hs2 Htok.
    by apply (unique_row Token (sessions w2)); [apply (ok_tokens _ Hok)|..]. }
  split.
  - destruct (ValidateSession_ok driver_error fault clock db_clock bcrypt random t Hd Hf
      (sha256.hex b) w2 Ht2) as (w3&->&_). cbn [fst]. f_equal.
    destruct (Z.ltb_spec (now_of clock w2) (Unix (clock (ticks (base w)) + sessionTTL))) as [Hlt|Hge].
    + rewrite (find_unique Token _ _ row); [|apply (ok_tokens _ Hok)|done| |].
      * cbn [mbind option_bind]. apply (find_unique u_ID); [apply (ok_ids _ Hok)|done|..].
        { apply Z.eqb_refl. }
        intros y Hy. unfold has_id in Hy. by bool_clean.
      * unfold live, has_token. rewrite bool_decide_eq_true_2 by done. by apply Z.ltb_lt.
      * intros y Hy. unfold live, has_token in Hy. by bool_clean.
    + rewrite find_none; [done|]. intros s Hs2. unfold live, has_token.
      case_bool_decide as Htok; [|done]. rewrite (Hfind s Hs2 Htok). by apply Z.ltb_ge.
  - destruct (DeleteSession_ok driver_error fault clock db_clock bcrypt random t Hd Hf
      (sha256.hex b) w2 Ht2) as (w3&Hrun&_&Hs3&Ht3).
    erewrite run_bind_eq by exact Hrun.
    destruct (ValidateSession_ok driver_error fault clock db_clock bcrypt random t Hd Hf
      (sha256.hex b) w3 Ht3) as (w4&->&_). cbn [fst].
    by rewrite Hs3, live_after_logout.
Qed.

(** C13: whatever requests are served one after another and whichever
    statements fail, as long as no request asks for the role [user] in an
    update, an administrator remains if there was one. *)
Theorem admins_remain es w rs w' :
  Forall (λ e, demotion e = false) es → users_ok w → 1 ≤ admins w →
  run_jobs handle (map (λ e, endpoint_handler compare t e.1 e.2) es) w = (rs, w') →
  1 ≤ admins w'.
Proof. apply run_jobs_admins. Qed.

(** Of setup requests served one after another at most one succeeds,
    none when setup was complete, whichever statements fail. *)
Theorem setup_once reqs w rs w' :
  run_jobs handle (map (handle_CompleteSetup t) reqs) w = (rs, w') →
  length (List.filter completed rs) ≤ 1 ∧
  (setup_done w → List.filter completed rs = []).
Proof. apply setup_once_aux. Qed.

(** C38: every outcome of POST /api/users on a database that works: a request
    without name or password, with a password below eight bytes or with
    another role than the two is refused with 400 and no call; a taken name
    with 409; a password [bcrypt] refuses with 500; anything else adds
    exactly the row asked for and answers 201 with it, without the hash. *)
Theorem CreateUser_outcomes r req w :
  (∀ ph, driver_error t ph = None) → (∀ n, fault n = None) →
  dbType (base w) = t → body_members r = inl req →
  let '(resp, w') := run_app (handle_CreateUser t r) w in
  let username := member "username" req in
  let password := member "password" req in
  let role := if bool_decide (member "role" req = "") then RoleUser else member "role" req in
  if bool_decide (username = "") || (len password <? 8)%Z || negb (valid_role role)
  then (∃ msg, resp = Some (jsonError msg 400)) ∧ w' = w
  else if existsb (has_name username) (users w)
  then resp = Some (jsonError "username already exists" 409) ∧ same_tables w w'
  else match bcrypt (entropy w) password with
       | inr _ => resp = Some (jsonError "failed to create user" 500) ∧ same_tables w w'
       | inl hash =>
           let u := {| u_ID := next_user w; Username := username; PasswordHash := hash;
                       Role := role; u_CreatedAt := now_of clock w;
                       u_UpdatedAt := now_of clock w |} in
           resp = Some {| code := 201; content_of := UserBody (with_hash "" u) |} ∧
           users w' = users w ++ [u] ∧ sessions w' = sessions w
       end.
Proof.
  intros Hd Hf Ht Hreq. unfold handle_CreateUser. rewrite Hreq.
  set (username := member "username" req). set (password := member "password" req).
  destruct (decide (password = "")) as [Hp|Hp].
  { rewrite Hp, (bool_decide_eq_true_2 ("" = "")), orb_true_r by done. cbn.
    rewrite orb_true_r. simpl. eauto. }
  rewrite (bool_decide_eq_false_2 (password = "")), orb_false_r by done.
  destruct (bool_decide (username = "")); [simpl; eauto|]. cbn [orb].
  destruct (len password <? 8)%Z; [simpl; eauto|]. cbn [orb].
  destruct (negb (valid_role _)); [simpl; eauto|].
  set (role := if bool_decide (member "role" req = "") then RoleUser else member "role" req).
  unfold Service_CreateUser.
  rewrite run_bind. erewrite run_bind_eq by (by apply GetUserByUsername_ok).
  destruct (List.find (has_name username) (users w)) as [v|] eqn:Hv.
  { apply find_some in Hv as [Hin Hv].
    assert (existsb (has_name username) (users w) = true) as ->
      by (apply existsb_exists; eauto). cbn. split; [done|]. done. }
  assert (existsb (has_name username) (users w) = false) as Hex.
  { apply not_true_iff_false. intros (u&Hu&Hn)%existsb_exists.
    by rewrite (List.find_none _ _ Hv u Hu) in Hn. }
  rewrite Hex. cbn [bind call run user_handle].
  change (entropy (counted_app w)) with (entropy w).
  destruct (bcrypt (entropy w) password) as [hash|err]; [|done].
  unfold CreateUser, GetUserByUsername. cbn [bind call run user_handle store_handle].
  rewrite (uexec_ok driver_error fault t Hd Hf) by done. cbn [counted_app drawn ticked counted with_base users base].
  rewrite Hex. cbn [fst snd bind run call user_handle].
  rewrite (uquery_ok driver_error fault t Hd Hf) by done. cbn [fst snd bind run wrap].
  cbn [with_users with_base users].
  rewrite find_snoc; [done|done|]. unfold has_name. by apply bool_decide_eq_true_2.
Qed.

(** The path of a user is read as the number it writes, exactly within
    64 bits; a request for a number out of range is refused by every handler
    that takes one, before any call. *)
Theorem user_path_range id r w :
  PathValue r "user_id" = itoa id →
  parseUserID r = (if decide (- 2 ^ 63 ≤ id < 2 ^ 63)%Z then inl id
                   else inr "value out of range") ∧
  (¬ (- 2 ^ 63 ≤ id < 2 ^ 63)%Z →
   run_app (handle_UpdateUser t r) w = (Some (jsonError "invalid user_id" 400), w) ∧
   run_app (handle_DeleteUserAccount t r) w = (Some (jsonError "invalid user_id" 400), w)).
Proof.
  intros Hp. assert (Hid : parseUserID r = if decide (- 2 ^ 63 ≤ id < 2 ^ 63)%Z then inl id
                   else inr "value out of range").
  { unfold parseUserID. by rewrite Hp, ParseInt_itoa. }
  split; [done|]. intros Hr. unfold handle_UpdateUser, handle_DeleteUserAccount.
  rewrite Hid. by case_decide.
Qed.
End properties.

(** ** Witnesses *)

#[local] Existing Instances stable_order stable_order_laws.

(** A toy hash that is its password with a mark, and constant entropy. *)
Definition toy_bcrypt (n : nat) (password : string) : result string := inl ("h:" +:+ password).
Definition toy_compare (h password : string) : option error :=
  if bool_decide (h = "h:" +:+ password) then None else Some "mismatch".
Definition toy_random (n k : nat) : result (list N) := inl (repeat (N.of_nat n) k).

Abbreviation toy_handle :=
  (user_handle strict_driver no_fault counting counting toy_bcrypt toy_random).

Definition request_of (members : list (string * string)) : request :=
  {| hdr_Authorization := ""; cookie_session_token := None; path_values := [];
     body_members := inl (list_to_map members); ctx_user := None |}.
Definition setup_of (name : string) : request :=
  request_of [("admin_username", name); ("admin_password", "password-1")].
Definition user_path (id : string) (r : request) : request :=
  with_path_values r [("user_id", id)].

Definition admin_row (id : Z) (name : string) : User :=
  {| u_ID := id; Username := name; PasswordHash := "h:password-1"; Role := RoleAdmin;
     u_CreatedAt := 0; u_UpdatedAt := 0 |}.
(** Two administrators, and the first of them alone. *)
Definition two_admins : app :=
  with_users (empty_app (empty_store DBTypeSQLite)) [admin_row 1 "ann"; admin_row 2 "bob"] 3.
Definition one_admin : app :=
  with_users (empty_app (empty_store DBTypeSQLite)) [admin_row 1 "ann"] 2.

Lemma two_admins_ok : users_ok two_admins.
Proof.
  split; simpl; try constructor; try (intros _; constructor); try (repeat constructor; simpl; lia).
  - by intros ?%list_elem_of_singleton.
  - apply NoDup_singleton.
  - by intros ?%list_elem_of_singleton.
  - apply NoDup_singleton.
Qed.

Definition toy_serve := serve toy_compare DBTypeSQLite (λ _ _, Ret None) (λ _ _, Ret None)
  (λ _, None).

Lemma public_surface_witness :
  let r := run toy_handle (toy_serve "GET" ["api"; "users"] (request_of [])) two_admins in
  same_tables two_admins r.2 ∨
  ("GET" = "POST" ∧ (["api"; "users"] = ["api"; "setup"] ∨
                     ["api"; "users"] = ["api"; "auth"; "login"])) ∨
  (∃ u, authenticated counting two_admins (extractToken (request_of [])) u ∧
        (admin_path ["api"; "users"] = true → Role u = RoleAdmin)).
Proof.
  intros r.
  apply (public_surface strict_driver no_fault counting counting toy_bcrypt toy_random
    toy_compare DBTypeSQLite (λ _ _, Ret None) (λ _ _, Ret None) (λ _, None)
    "GET" ["api"; "users"] (request_of []) two_admins r.1 r.2).
  by destruct (run _ _ _).
Defined.

Lemma accounts_invariant_witness :
  let jobs := [(("POST", ["api"; "setup"]), setup_of "ann");
               (("POST", ["api"; "auth"; "login"]),
                 request_of [("username", "ann"); ("password", "password-1")])] in
  let w := (run_jobs toy_handle (map (λ q, toy_serve q.1.1 q.1.2 q.2) jobs)
              (empty_app (empty_store DBTypeSQLite))).2 in
  length (users w) = 1 ∧ length (sessions w) = 1 ∧
  users_ok w ∧ accounts_ok toy_bcrypt w.
Proof.
  intros jobs w. split; [vm_compute; reflexivity|]. split; [vm_compute; reflexivity|].
  eapply (accounts_invariant strict_driver no_fault counting counting toy_bcrypt toy_random
    toy_compare DBTypeSQLite (λ _ _, Ret None) (λ _ _, Ret None) (λ _, None) 1 jobs
    (empty_store DBTypeSQLite)); [done..|].
  apply (run_jobs_schedule toy_handle); [lia|]. subst w.
  apply surjective_pairing.
Defined.

Lemma session_lifetime_witness :
  let r := run toy_handle (Login toy_compare DBTypeSQLite "ann" "password-1") two_admins in
  let token := sha256.hex (repeat 0%N 32) in
  (run toy_handle (ValidateSession DBTypeSQLite token) r.2).1 = inl (Some (admin_row 1 "ann")) ∧
  ∃ u, u ∈ users two_admins ∧ Username u = "ann" ∧
    toy_compare (PasswordHash u) "password-1" = None ∧
    ∀ w2, dbType (base w2) = DBTypeSQLite → users_ok w2 → u ∈ users w2 →
      (∀ s, s ∈ sessions r.2 → Token s = token → s ∈ sessions w2) →
      (run toy_handle (ValidateSession DBTypeSQLite token) w2).1
        = inl (if (now_of counting w2 <? Unix (counting 0 + sessionTTL))%Z
               then Some u else None) ∧
      (run toy_handle (let* _ := Logout DBTypeSQLite token in
                       ValidateSession DBTypeSQLite token) w2).1 = inl None.
Proof.
  intros r token. split; [vm_compute; reflexivity|].
  apply (session_lifetime strict_driver no_fault counting counting toy_bcrypt toy_random
    toy_compare DBTypeSQLite two_admins "ann" "password-1" token r.2);
    [done..|vm_compute; reflexivity].
Defined.

Lemma admins_remain_witness :
  let es := [(EpDeleteUser, user_path "2" (request_of []));
             (EpDeleteUser, user_path "1" (request_of []))] in
  let r := run_jobs toy_handle
    (map (λ e, endpoint_handler toy_compare DBTypeSQLite e.1 e.2) es) two_admins in
  r.1 = [Some (jsonOK (Status "deleted")); Some (jsonError "failed to delete user" 500)] ∧
  1 ≤ admins r.2.
Proof.
  intros es r. split; [vm_compute; reflexivity|].
  apply (admins_remain strict_driver no_fault counting counting toy_bcrypt toy_random
    toy_compare DBTypeSQLite es two_admins r.1 r.2).
  - repeat constructor.
  - apply two_admins_ok.
  - vm_compute. lia.
  - apply surjective_pairing.
Defined.

Lemma setup_once_witness :
  let r := run_jobs toy_handle
    (map (handle_CompleteSetup DBTypeSQLite) [setup_of "ann"; setup_of "bob"])
    (empty_app (empty_store DBTypeSQLite)) in
  map (option_map code) r.1 = [Some 200%Z; Some 409%Z] ∧
  length (List.filter completed r.1) ≤ 1 ∧
  (setup_done (empty_app (empty_store DBTypeSQLite)) → List.filter completed r.1 = []).
Proof.
  intros r. split; [vm_compute; reflexivity|].
  apply (setup_once strict_driver no_fault counting counting toy_bcrypt toy_random
    DBTypeSQLite [setup_of "ann"; setup_of "bob"] (empty_app (empty_store DBTypeSQLite))
    r.1 r.2).
  apply surjective_pairing.
Defined.

Lemma CreateUser_outcomes_witness :
  let r := request_of [("username", "eve"); ("password", "longenough")] in
  let x := run toy_handle (handle_CreateUser DBTypeSQLite r) two_admins in
  match toy_bcrypt (entropy two_admins) "longenough" with
  | inr _ => False
  | inl hash =>
      let u := {| u_ID := 3; Username := "eve"; PasswordHash := hash; Role := RoleUser;
                  u_CreatedAt := now_of counting two_admins;
                  u_UpdatedAt := now_of counting two_admins |} in
      x.1 = Some {| code := 201; content_of := UserBody (with_hash "" u) |} ∧
      users x.2 = users two_admins ++ [u] ∧ sessions x.2 = sessions two_admins
  end.
Proof.
  intros r x.
  pose proof (CreateUser_outcomes strict_driver no_fault counting counting toy_bcrypt toy_random
    DBTypeSQLite r (list_to_map [("username", "eve"); ("password", "longenough")]) two_admins
    (λ _, eq_refl) (λ _, eq_refl) eq_refl eq_refl) as H.
  vm_compute in H. vm_compute. exact H.
Defined.

Lemma user_path_range_witness :
  let r := user_path "9223372036854775808" (request_of []) in
  parseUserID r = inr "value out of range" ∧
  (¬ (- 2 ^ 63 ≤ 2 ^ 63 < 2 ^ 63)%Z →
   run toy_handle (handle_UpdateUser DBTypeSQLite r) two_admins
     = (Some (jsonError "invalid user_id" 400), two_admins) ∧
   run toy_handle (handle_DeleteUserAccount DBTypeSQLite r) two_admins
     = (Some (jsonError "invalid user_id" 400), two_admins)).
Proof.
  intros r.
  apply (user_path_range strict_driver no_fault counting counting toy_bcrypt toy_random
    DBTypeSQLite (2 ^ 63) r two_admins).
  vm_compute. reflexivity.
Defined.

(** ** Where the protection ends *)

(** An update to the role [user] takes the last administrator's role away. *)
Lemma ChangeRole_demotes_last_admin :
  let r := run toy_handle (handle_UpdateUser DBTypeSQLite
             (user_path "1" (request_of [("role", "user")]))) one_admin in
  r.1 = Some (jsonOK (Status "updated")) ∧ admins one_admin = 1 ∧ admins r.2 = 0.
Proof. vm_compute. done. Qed.

(** Two administrators deleting each other: both counts are taken before
    either row is gone. *)
Lemma DeleteUser_race :
  ∃ pool w', rtc (pool_step toy_handle 2)
    (spawn [handle_DeleteUserAccount DBTypeSQLite (user_path "2" (request_of []));
            handle_DeleteUserAccount DBTypeSQLite (user_path "1" (request_of []))], two_admins)
    (pool, w') ∧
  finished pool [Some (jsonOK (Status "deleted")); Some (jsonOK (Status "deleted"))] ∧
  admins two_admins = 2 ∧ admins w' = 0.
Proof.
  apply (follow_reaches toy_handle 2 (concat (repeat [0; 1] 6))). vm_compute. done.
Qed.

(** Two setups at once create two administrators. *)
Lemma setup_race :
  ∃ pool w', rtc (pool_step toy_handle 2)
    (spawn (map (handle_CompleteSetup DBTypeSQLite) [setup_of "ann"; setup_of "bob"]),
     empty_app (empty_store DBTypeSQLite)) (pool, w') ∧
  finished pool [Some (jsonOK (Status "setup complete")); Some (jsonOK (Status "setup complete"))]
  ∧ admins w' = 2.
Proof.
  apply (follow_reaches toy_handle 2 (concat (repeat [0; 1] 7) ++ [0; 0; 0; 0; 0; 0; 1; 1; 1; 1; 1])). vm_compute. done.
Qed.

(** An update with a new password and an unknown role answers 400 and has
    changed the password. *)
Lemma UpdateUser_partial :
  let r := run toy_handle (handle_UpdateUser DBTypeSQLite
             (user_path "1" (request_of [("password", "new-password"); ("role", "root")])))
             one_admin in
  r.1 = Some (jsonError "role must be 'admin' or 'user'" 400) ∧
  map PasswordHash (users r.2) = ["h:new-password"].
Proof. vm_compute. done. Qed.

#[local] Close Scope syncer_scope.
